(* ===== verification/_CoqProject ===== *)
-Q . S2P
Prelude.v
Netip.v
Proto.v
Ext.v
Uint128.v
SourceIP.v
Handshake.v
Config.v
DnsCache.v
UdpRuntime.v
UdpRelay.v
UdpIo.v
Responder.v
Serverbase.v
Lifecycle.v
BufPool.v
Connector.v
Dial.v
Tunnel.v
SocksServer.v
HttpProxy.v
HttpConn.v
Reactor.v
ReactorClose.v
Route.v
Servers.v
Certs.v
Daemon.v
Oneself.v
Boot.v
Text.v
Sockopts.v
Metrics.v
System.v
Platform.v
Commands.v
