(* ===== verification/Prelude.v ===== *)
(** * outway: a verification development

    outway is an HTTP, HTTPS and SOCKS5 forward proxy. A client's username may carry an
    extension (a session, a time window, a range); with a CIDR block configured, the
    extension selects the source address of the client's outbound traffic. This library
    models the proxy from its command line to the bytes on its sockets, and proves what
    makes each part correct.

    ** The program and where it is modelled

    The command line ([main.go]) is turned into a configuration ([internal/config]) that
    [server.Run] validates before it prepares descriptors and routes, builds a connector
    ([internal/connect]) and one of three servers ([internal/server]). A server's accept
    loops take a slot of a gate, register the connection, and hand it to a SOCKS5 or HTTP
    handler, which authenticates the client, derives the extension of its username, and
    dials through the connector; CONNECT ends in a tunnel, UDP ASSOCIATE in a relay of
    datagrams that shares buffers, a send queue and an epoll reactor with the other
    associations of the process.

    - [Prelude]: machine integers ([wrap], shifts), byte strings and the [strings] and
      [strconv] functions used, errors, results and the stream monad [io] of the
      protocol readers; tactics and hint databases. [Netip]: addresses, prefixes and
      their parsers ([net/netip]).
    - [Proto] and [Handshake]: the SOCKS5 messages ([socks/proto]) and authentication
      ([socks/auth.go], [conn.go]).
    - [Ext], [Uint128], [SourceIP]: username extensions ([internal/ext]), the 128-bit
      helpers and the choice of the source address ([connect.go]).
    - [Connector] and [Dial]: which dials a target gives, the two races of dials (one
      interface, the classes [RaceLoop] and [RaceLaws], with an instance for each), UDP
      sockets, and the limit on pending dials ([connect.go]). [DnsCache]: the shared
      resolver cache with merged lookups ([dns_cache.go]).
    - [UdpRuntime], [UdpRelay], [UdpIo], [Responder], [Reactor], [ReactorClose]: slots,
      buffers and send queue ([udp_runtime.go]), the datagram path of an association ([socks/server.go],
      [udp_gso_linux.go]), batched reads and writes ([udp_io_linux.go],
      [udp_io_other.go], [udp_gro_linux.go]), the response path put together, the
      epoll loop and its end ([udp_reactor_linux.go]).
    - [Serverbase], [Lifecycle], [BufPool], [Tunnel]: gate, registry of connections and
      [CloseAll]; the whole life of a server, with [Start], its wait group, the lifetime
      contexts and [Close]; the pools of buffered readers and writers; and the
      bidirectional copy ([serverbase.go], and [Start] and [Close] of the servers).
    - [SocksServer], [HttpProxy], [HttpConn], [Servers]: the SOCKS5 commands
      ([socks/server.go]), the HTTP handler and its pool of transports, the request loop
      over the bytes of a connection ([internal/server/http]), and construction,
      accept loops, protocol detection and closing of the servers ([auto.go]). [Certs]:
      the self-signed certificate and the TLS configurations ([genca.go], [tls.go]).
    - [Config], [Route], [Boot], [Daemon], [Oneself], [Commands]: configuration, the
      routes and sysctls of the CIDR ([route_linux.go]), startup ([run.go],
      [resources_unix.go], [sockbuf.go], [main.go]), the daemon's commands
      ([internal/daemon]), the program's own update ([internal/oneself]), and the command
      tree ([main.go]). [Sockopts]: socket options and buffers over a kernel that is a
      class with laws ([sockopts_*.go], [sockbuf*.go], [reuseport_*.go]). [Platform]: what
      stands in for the Linux code on other systems ([*_other.go], [udp_trunc_*.go]).
    - [Text] and [Metrics]: addresses and codes as text (the [String] methods), the lines
      of [logMetrics], timers from flags in seconds, and which logger is used ([logger.go]).
    - [System]: the parts put together, from the flags and the request of a client to the
      target and the source of a dial, for every kind of server and client.

    ** How state and effects are modelled

    Integers are [Z] with the wrap-around of their width written out; byte strings and
    texts are lists of bytes. Code without concurrency is a function: what the system or a
    library answers is an argument (a record of answers, or a function of the call's
    number), what the code does to the outside is part of the result, as a list of actions
    or of states. Where goroutines interact ([DnsCache], [UdpRuntime], [Reactor],
    [Serverbase], [Lifecycle], [BufPool], [Connector], [Dial], [Tunnel]) the model is a step
    relation whose steps are what runs between two synchronisation points, over any number of goroutines; the
    executable parts of a step (a critical section, a channel operation) are functions
    that the relation uses. Go's maps are [gmap]s; where the code ranges over one, the
    order is arbitrary.

    ** What is proved

    - Access: SOCKS5 and HTTP authentication accept exactly the right credentials, and on
      every server nothing is dialed, opened or sent for a client that did not present
      them, whatever calls fail ([Authenticate_accepts], [http_auth_accepts], [Accept_requires_credentials],
      [auto_requires_credentials]).
    - Sources: every source address is in the CIDR, is stable or confined as the username
      asks, is used by the dials, and is routed ([assignSourceIP_in_cidr],
      [assignSourceIP_sticky], [connectAddr_sources], [configured_sources_routed]); from the
      command line on, whatever the server and the protocol, each dial is for what the
      client asked for and from where the flags permit ([command_line_sources]);
      extensions and integer helpers are what they should be ([TryFrom_ttl_window],
      [uint128_refines_Z]).
    - Wire formats: parsers refine the RFC 1928 format, agree with each other and invert
      the writers ([ParseAddress_refines_wire], [Address_roundtrip], ...); printed addresses
      are parsed back ([AddrPort_String_roundtrip]).
    - Data paths: no byte of a tunnel and no datagram of the relay is lost, repeated or
      misdirected by the proxy ([tunnel_correct], [connect_end_to_end],
      [http_connect_end_to_end], [inbound_forwards_exactly], [responder_serves],
      [readBatch_exact], [batch_Write_total], [sendUDPGSO_delivers]), and the bytes of an HTTP
      connection become its requests ([http_connection_refines]). A datagram for a name
      without a cached address goes to the send queue; the response path is proved without
      receive offload, with which it can panic ([responder_gro_panics]). A tunnel with a
      grace period returns once one side is done; without one a silent peer keeps it open.
    - Concurrency: lookups are merged, answered soundly and complete; races of dials leak
      nothing and end; slots, buffers and queues are conserved, with every channel operation
      and every add to a counter a step of its own; the reactor never runs a handler on a
      deregistered socket, loses no wake-up and ends; shutdown closes every connection
      ([dns_*], [dial_races_*], [dial_slots_bounded],
      [udp_resources_conserved], [reactor_*], [connection_gate_bound],
      [shutdown_closes_all]). The servers as a whole refine that model, wait for all of
      their goroutines, and end, with only handlers left that block for good
      ([lifecycle_refines_server], [shutdown_waits_for_all], [shutdown_ends]); pooled readers keep connections apart ([reader_isolation]).
    - Platforms and TLS: the UDP path is the same on every system ([udp_path_portable]), a
      server that speaks TLS has a matching pair which stays the same from start to start
      ([tls_server_has_pair], [selfsigned_stable]), buffers get the size the system allows
      ([udp_buffers_tuned]).
    - Lifecycle: a command line that is accepted gives a sound configuration, a started
      server is prepared for it, a failed start leaves no listener, the daemon's commands
      act on the right process and only on accepted arguments, and an update is atomic
      ([buildBootArgs_sound], [started_server_prepared], [newProxyServer_complete],
      [daemon_lifecycle], [commands_validate_first], [Update_atomic]). Timers are what was
      asked for within 292 years, metrics say what was the case, log levels reach every package
      ([timers_exact], [metrics_lines_sound], [log_levels_agree]).
    - The pool of transports refines an abstract least-recently-used cache
      ([transportPool_refines_lru]).

    Where the code does not do what it means to, a theorem exhibits it:
    [modUint128_loop_wrong], [dns_waiter_inherits_cancellation],
    [sendUDPGSO_edge_cases], [gro_overruns_writer], [responder_gro_panics], [reactor_stale_event_blocks],
    [reactor_failed_register_runs], [unsupported_request_unanswered],
    [auto_socks_no_half_close], [startup_failure_unnoticed], [stop_negative_pid],
    [clamp_detection], [tar_directory_chosen], [checksum_installed],
    [windows_update_removes], [failed_download_leaks], [forward_body_crosses],
    [overlapping_start_panics], [interrupted_write_sticks], [planted_pair_used],
    [unread_body_is_proxied], [durations_wrap], [user_timeout_wraps], [gauges_stray].

    ** Bounds and fuel

    Recursion that is not structural takes fuel, which each caller sets high enough that
    the theorems hold for every input without a premise on it: the source's own bounds
    ([mod_loop] 128 rounds, [parseIPv6Groups] the 8 groups of an address, [stopProcess]
    360 rounds), or the length of the input where each round consumes some of it
    ([trim_front], [fields_go], [fx_chunks], [bytesEqual_loop], [gsoLoop], [copy_pieces], and
    [writeMessages], for which [batch_Write_total] shows that it never runs out). The
    races of dials, a tunnel, a shutdown and the workers of a closing reactor end because
    their steps are well-founded; the loops of a responder and of a connection run for as
    many rounds as their environment is given, and the theorems hold for every number.

    ** Not modelled

    The text of log messages other than the metrics; the cryptography and the TLS protocol
    behind the certificates, which are parameters of [Certs]; [splice] (a copy is a copy,
    whichever call makes it); flag parsing (cobra), [net/http]'s parsing and round trips, and
    name resolution, which are libraries. The floating-point percentages of [outway ps] are
    left out, the numbers they are computed from are not. One-line accessors and
    constructors that only rename a field or call one modelled function have no definition
    of their own. *)

From Stdlib Require Import ZArith Lia Ascii.
From stdpp Require Import base tactics numbers list strings gmap relations.

#[global] Open Scope Z_scope.

(** ** Automation *)

(** Facts about the model that the automation may use freely: [wf] holds the
    well-formedness lemmas of values and operations, [go] the rewriting rules
    of the Go primitives. *)
Create HintDb wf.
Create Rewrite HintDb go.

(** Case analysis on the first [match] scrutinee of the goal that is not itself
    a [match], with its equation. *)
Ltac case_one :=
  match goal with
  | |- context [match ?x with _ => _ end] =>
      lazymatch x with
      | context [match _ with _ => _ end] => fail
      | _ => destruct x eqn:?
      end
  end.

(** The same in hypothesis [H]. *)
Ltac case_one_in H :=
  match type of H with
  | context [match ?x with _ => _ end] =>
      lazymatch x with
      | context [match _ with _ => _ end] => fail
      | _ => destruct x eqn:?
      end
  end.

(** Turn the boolean integer tests in the context and the goal into
    propositions. *)
Ltac zbool :=
  repeat match goal with
  | H : (_ =? _) = true |- _ => apply Z.eqb_eq in H
  | H : (_ =? _) = false |- _ => apply Z.eqb_neq in H
  | H : (_ <? _) = true |- _ => apply Z.ltb_lt in H
  | H : (_ <? _) = false |- _ => apply Z.ltb_ge in H
  | H : (_ <=? _) = true |- _ => apply Z.leb_le in H
  | H : (_ <=? _) = false |- _ => apply Z.leb_gt in H
  | H : andb _ _ = true |- _ => apply andb_true_iff in H as [? ?]
  | H : orb _ _ = false |- _ => apply orb_false_iff in H as [? ?]
  | H : negb _ = true |- _ => apply negb_true_iff in H
  | H : negb _ = false |- _ => apply negb_false_iff in H
  | |- andb _ _ = true => apply andb_true_iff; split
  | |- (_ =? _) = true => apply Z.eqb_eq
  | |- (_ <? _) = true => apply Z.ltb_lt
  | |- (_ <=? _) = true => apply Z.leb_le
  | |- (_ =? _) = false => apply Z.eqb_neq
  | |- (_ <? _) = false => apply Z.ltb_ge
  | |- (_ <=? _) = false => apply Z.leb_gt
  end.

(** Write a list of known length out element by element. *)
Ltac explode :=
  repeat match goal with
  | H : length ?l = S _ |- _ =>
      destruct l; [discriminate H | cbn [length] in H; apply eq_add_S in H]
  | H : length ?l = O |- _ => apply nil_length_inv in H; subst l
  | H : S _ = length ?l |- _ => symmetry in H
  | H : O = length ?l |- _ => symmetry in H
  end.

(** ** Machine integers *)

(** A [w]-bit unsigned integer is a [Z] in [0, 2^w); [wrap w] is the
    conversion to it, which every arithmetic operation of the code applies. *)
Definition wrap (w z : Z) : Z := z `mod` 2 ^ w.

Definition in_width (w z : Z) : Prop := 0 <= z < 2 ^ w.

Abbreviation u8 := (in_width 8).
Abbreviation u16 := (in_width 16).
Abbreviation u32 := (in_width 32).
Abbreviation u64 := (in_width 64).

(** Go's shifts: a count of at least the width gives zero (the count is an
    unsigned integer, so it is never negative). *)
Definition shl (w x n : Z) : Z := if w <=? n then 0 else wrap w (Z.shiftl x n).
Definition shr (w x n : Z) : Z := if w <=? n then 0 else Z.shiftr x n.
(** Go's bitwise complement of a [w]-bit unsigned integer. *)
Definition lnot (w x : Z) : Z := 2 ^ w - 1 - x.

Lemma pow2_pos w : 0 <= w -> 0 < 2 ^ w.
Proof. intros; apply Z.pow_pos_nonneg; lia. Qed.

Lemma wrap_width w z : 0 <= w -> in_width w (wrap w z).
Proof. intros. apply Z.mod_pos_bound, pow2_pos; lia. Qed.

Lemma wrap_id w z : in_width w z -> wrap w z = z.
Proof. unfold wrap, in_width; intros; apply Z.mod_small; lia. Qed.

(** Wrap-around of a difference of two [w]-bit values. *)
Lemma wrap_diff w x :
  - 2 ^ w <= x < 2 ^ w -> wrap w x = if x <? 0 then x + 2 ^ w else x.
Proof.
  intros. unfold wrap. case_one; zbool; [|apply Z.mod_small; lia].
  rewrite <- (Z_mod_plus_full x 1), Z.mul_1_l. apply Z.mod_small. lia.
Qed.

Lemma in_width_mono w w' z : 0 <= w <= w' -> in_width w z -> in_width w' z.
Proof.
  unfold in_width; intros. pose proof (Z.pow_le_mono_r 2 w w'). lia.
Qed.

Lemma shl_width w x n : 0 <= w -> in_width w (shl w x n).
Proof.
  intros. unfold shl. case_one; [|by apply wrap_width].
  pose proof (pow2_pos w). unfold in_width; lia.
Qed.

Lemma shl_spec w x n : 0 <= n -> 0 <= w -> shl w x n = wrap w (x * 2 ^ n).
Proof.
  intros. unfold shl, wrap. case_one; [|by rewrite Z.shiftl_mul_pow2].
  zbool. replace n with (w + (n - w)) by lia. rewrite Z.pow_add_r by lia.
  rewrite Z.mul_assoc, (Z.mul_comm x), <- Z.mul_assoc, Z.mul_comm.
  by rewrite Z_mod_mult.
Qed.

Lemma shr_spec w x n : in_width w x -> 0 <= n -> 0 <= w -> shr w x n = x / 2 ^ n.
Proof.
  unfold in_width, shr; intros. case_one; [|by apply Z.shiftr_div_pow2].
  zbool. pose proof (Z.pow_le_mono_r 2 w n). rewrite Z.div_small; lia.
Qed.

Lemma shr_width w x n : in_width w x -> 0 <= n -> 0 <= w -> in_width w (shr w x n).
Proof.
  intros Hx ??. rewrite shr_spec by done. destruct Hx.
  pose proof (pow2_pos n). split; [apply Z.div_pos; lia|].
  apply Z.le_lt_trans with x; [apply Z.div_le_upper_bound; nia | done].
Qed.

(** A width bound is the absence of high bits. *)
Lemma in_width_bits w x :
  0 <= w -> in_width w x <-> forall i, w <= i -> Z.testbit x i = false.
Proof.
  intros Hw. split.
  - intros Hx i Hi. rewrite <- (wrap_id w x Hx). by apply Z.mod_pow2_bits_high.
  - intros Hb. assert (x = wrap w x) as ->; [|by apply wrap_width].
    apply Z.bits_inj'. intros i Hi. unfold wrap. destruct (Z.lt_ge_cases i w).
    + by rewrite Z.mod_pow2_bits_low.
    + rewrite Z.mod_pow2_bits_high by lia. by apply Hb.
Qed.

Lemma land_width w x y : 0 <= w -> in_width w x -> in_width w y -> in_width w (Z.land x y).
Proof.
  intros Hw. rewrite !in_width_bits by done. intros Hx Hy i Hi.
  by rewrite Z.land_spec, Hx, Hy.
Qed.

Lemma lor_width w x y : 0 <= w -> in_width w x -> in_width w y -> in_width w (Z.lor x y).
Proof.
  intros Hw. rewrite !in_width_bits by done. intros Hx Hy i Hi.
  by rewrite Z.lor_spec, Hx, Hy.
Qed.

(** Disjoint bits: [or] of a multiple of [2^n] and a value below [2^n] is
    addition. *)
Lemma lor_add_disjoint hi lo n :
  0 <= n -> 0 <= lo < 2 ^ n -> Z.lor (hi * 2 ^ n) lo = hi * 2 ^ n + lo.
Proof.
  intros Hn Hlo. rewrite <- Z.shiftl_mul_pow2 by done.
  rewrite Z.add_nocarry_lxor; [symmetry; apply Z.lxor_lor|];
    apply Z.bits_inj'; intros i Hi; rewrite Z.land_spec, Z.bits_0.
  all: destruct (Z.lt_ge_cases i n);
    [by rewrite Z.shiftl_spec_low | ].
  all: assert (Z.testbit lo i = false) as ->; [|by rewrite andb_false_r].
  all: rewrite <- (Z.mod_small lo (2 ^ n)) by done; by apply Z.mod_pow2_bits_high.
Qed.

Lemma land_ones_mod x n : 0 <= n -> Z.land x (2 ^ n - 1) = x `mod` 2 ^ n.
Proof. intros. by rewrite <- Z.land_ones, Z.ones_equiv, Z.sub_1_r. Qed.

(** A left shift drops the high bits and moves the rest up. *)
Lemma shl_low w x n : 0 <= n <= w -> shl w x n = x `mod` 2 ^ (w - n) * 2 ^ n.
Proof.
  intros. rewrite shl_spec by lia. unfold wrap.
  replace (2 ^ w) with (2 ^ (w - n) * 2 ^ n) by (rewrite <- Z.pow_add_r by lia; f_equal; lia).
  apply Z.mul_mod_distr_r; apply Z.pow_nonzero; lia.
Qed.

(** [or]-ing in the next byte of a big-endian word. *)
Lemma be_or w y b n m :
  0 <= n -> m = n + 8 -> m <= w -> 0 <= b < 256 ->
  Z.lor (y * 2 ^ m) (shl w b n) = (y * 256 + b) * 2 ^ n.
Proof.
  intros ? -> ??. pose proof (pow2_pos n).
  assert (2 ^ (n + 8) = 2 ^ n * 256) as E by (by rewrite Z.pow_add_r by lia).
  assert (shl w b n = b * 2 ^ n) as ->.
  { rewrite shl_spec by lia. apply wrap_id. unfold in_width.
    pose proof (Z.pow_le_mono_r 2 (n + 8) w). nia. }
  rewrite lor_add_disjoint; nia.
Qed.

#[export] Hint Resolve wrap_width shl_width land_width lor_width shr_width : wf.

(** ** Sums *)

Definition sumZ (l : list Z) : Z := foldr Z.add 0 l.

Lemma sumZ_app a b : sumZ (a ++ b) = sumZ a + sumZ b.
Proof. unfold sumZ. induction a as [|x a IH]; cbn; [done|]. rewrite IH. lia. Qed.

Lemma sumZ_insert {A} (f : A -> Z) (l : list A) i x y :
  l !! i = Some x -> sumZ (f <$> <[i := y]> l) = sumZ (f <$> l) - f x + f y.
Proof.
  revert i. induction l as [|a l IH]; intros [|i] H; cbn in *; simplify_eq; unfold sumZ in *; cbn;
    [lia|]. rewrite IH by done. lia.
Qed.

Lemma sumZ_nonneg {A} (f : A -> Z) (l : list A) : (forall x, 0 <= f x) -> 0 <= sumZ (f <$> l).
Proof. intros Hf. unfold sumZ. induction l as [|a l IH]; cbn; [done|]. specialize (Hf a). lia. Qed.

Lemma sumZ_lookup {A} (f : A -> Z) (l : list A) i x :
  (forall x, 0 <= f x) -> l !! i = Some x -> f x <= sumZ (f <$> l).
Proof.
  intros Hf. revert i. induction l as [|a l IH]; intros [|i] H; cbn in *; simplify_eq;
    unfold sumZ; cbn; fold (sumZ (f <$> l)).
  - pose proof (sumZ_nonneg f l Hf). lia.
  - specialize (IH _ H). specialize (Hf a). lia.
Qed.

Lemma sumZ_perm l k : l ≡ₚ k -> sumZ l = sumZ k.
Proof. unfold sumZ. induction 1; cbn; lia. Qed.

(** ** Bytes *)

(** A byte slice or a Go string: the list of its bytes, each in [0, 256).
    Strings compare and slice bytewise in Go, so one type serves both. *)
Abbreviation bytes := (list Z).

Definition bytes_ok (bs : bytes) : Prop := Forall u8 bs.

(** A string literal of the source. *)
Definition str (s : string) : bytes :=
  (fun c => Z.of_N (N_of_ascii c)) <$> String.list_ascii_of_string s.

(** [len]: Go's length, an integer. *)
Definition len {A} (l : list A) : Z := Z.of_nat (length l).

(** [l[a:b]] and [l[a:]] of Go slices, for bounds that the caller has checked. *)
Definition slice {A} (l : list A) (a b : Z) : list A :=
  take (Z.to_nat (b - a)) (drop (Z.to_nat a) l).
Definition slice_from {A} (l : list A) (a : Z) : list A := drop (Z.to_nat a) l.

(** [l[i]] for an index that the caller has checked. *)
Definition idx (l : bytes) (i : Z) : Z := nth (Z.to_nat i) l 0.

Lemma len_nonneg {A} (l : list A) : 0 <= len l.
Proof. unfold len; lia. Qed.
Lemma len_app {A} (l k : list A) : len (l ++ k) = len l + len k.
Proof. unfold len. rewrite length_app. lia. Qed.
Lemma len_cons {A} (x : A) l : len (x :: l) = 1 + len l.
Proof. unfold len. cbn [length]. lia. Qed.
Lemma len_nil {A} : len (@nil A) = 0.
Proof. done. Qed.
Lemma length_len {A} (l : list A) : length l = Z.to_nat (len l).
Proof. unfold len. lia. Qed.
#[export] Hint Rewrite @len_app @len_cons @len_nil : go.

(** Slices of a list given as a concatenation. *)
Lemma slice_app {A} (a b c : list A) i j :
  len a = i -> i + len b = j -> slice (a ++ b ++ c) i j = b.
Proof.
  intros Ha Hb. unfold slice. replace (j - i) with (len b) by lia.
  rewrite <- Ha, <- !length_len. rewrite drop_app_length. apply take_app_length.
Qed.

Lemma slice_from_app {A} (a b : list A) i : len a = i -> slice_from (a ++ b) i = b.
Proof. intros <-. unfold slice_from. rewrite <- length_len. apply drop_app_length. Qed.

(** Cutting a list at [n]. *)
Lemma cut_at {A} (l : list A) n :
  0 <= n <= len l -> exists a b, l = a ++ b /\ len a = n.
Proof.
  intros. exists (take (Z.to_nat n) l), (drop (Z.to_nat n) l).
  rewrite take_drop. split; [done|]. unfold len in *. rewrite length_take. lia.
Qed.

Lemma idx_cons_0 x l : idx (x :: l) 0 = x.
Proof. done. Qed.
Lemma idx_cons_1 x y l : idx (x :: y :: l) 1 = y.
Proof. done. Qed.

Lemma len_eq {A} (l : list A) n : len l = Z.of_nat n <-> length l = n.
Proof. unfold len. lia. Qed.

#[export] Instance in_width_dec w z : Decision (in_width w z).
Proof. unfold in_width. apply _. Defined.
#[export] Instance bytes_ok_dec bs : Decision (bytes_ok bs).
Proof. unfold bytes_ok. apply _. Defined.

(** Discharge a closed decidable goal by evaluating it. *)
Ltac by_decide := apply (bool_decide_unpack _); vm_compute; exact I.

(** Decide a comparison of lengths in the goal. *)
Ltac len_false :=
  match goal with
  | |- context [?a <? ?b] =>
      rewrite (proj2 (Z.ltb_ge a b)) by (autorewrite with go; lia)
  end.
Ltac len_true :=
  match goal with
  | |- context [?a <? ?b] =>
      rewrite (proj2 (Z.ltb_lt a b)) by (autorewrite with go; lia)
  end.

Lemma idx_u8 bs i : bytes_ok bs -> u8 (idx bs i).
Proof.
  unfold idx, bytes_ok. intros H.
  destruct (nth_in_or_default (Z.to_nat i) bs 0) as [Hin | ->]; [|by split].
  rewrite Forall_forall in H. apply H. by apply list_elem_of_In.
Qed.

Lemma bytes_ok_app a b : bytes_ok (a ++ b) <-> bytes_ok a /\ bytes_ok b.
Proof. apply Forall_app. Qed.
Lemma bytes_ok_cons a b : bytes_ok (a :: b) <-> u8 a /\ bytes_ok b.
Proof. apply Forall_cons. Qed.
Lemma bytes_ok_take n a : bytes_ok a -> bytes_ok (take n a).
Proof. apply Forall_take. Qed.
Lemma bytes_ok_drop n a : bytes_ok a -> bytes_ok (drop n a).
Proof. apply Forall_drop. Qed.
Lemma bytes_ok_nil : bytes_ok [].
Proof. constructor. Qed.
#[export] Hint Resolve idx_u8 bytes_ok_take bytes_ok_drop bytes_ok_nil : wf.

(** Big-endian encoding of the low [n] bytes of [v] ([encoding/binary] and the
    array forms of [netip.Addr]), and the value of a big-endian byte list. *)
Fixpoint be_bytes (n : nat) (v : Z) : bytes :=
  match n with
  | O => []
  | S k => (v / 2 ^ (8 * Z.of_nat k)) `mod` 256 :: be_bytes k v
  end.

Fixpoint be_value (bs : bytes) : Z :=
  match bs with
  | [] => 0
  | b :: r => b * 2 ^ (8 * len r) + be_value r
  end.

Lemma length_be_bytes n v : length (be_bytes n v) = n.
Proof. induction n; cbn; congruence. Qed.
Lemma len_be_bytes n v : len (be_bytes n v) = Z.of_nat n.
Proof. unfold len. by rewrite length_be_bytes. Qed.
#[export] Hint Rewrite len_be_bytes length_be_bytes : go.

Lemma be_bytes_ok n v : bytes_ok (be_bytes n v).
Proof.
  induction n; cbn; constructor; try done.
  apply Z.mod_pos_bound; lia.
Qed.
#[export] Hint Resolve be_bytes_ok : wf.

Lemma be_value_bound bs : bytes_ok bs -> 0 <= be_value bs < 2 ^ (8 * len bs).
Proof.
  induction 1 as [|b r Hb Hr IH]; cbn; [done|].
  rewrite len_cons. replace (8 * (1 + len r)) with (8 + 8 * len r) by lia.
  pose proof (len_nonneg r). rewrite Z.pow_add_r by lia.
  unfold in_width in Hb. change (2 ^ 8) with 256 in *. nia.
Qed.

Lemma be_value_bytes n v : be_value (be_bytes n v) = v `mod` 2 ^ (8 * Z.of_nat n).
Proof.
  induction n; cbn [be_bytes be_value]; [by rewrite Z.mod_1_r|].
  rewrite IHn, len_be_bytes, Nat2Z.inj_succ.
  replace (8 * Z.succ (Z.of_nat n)) with (8 * Z.of_nat n + 8) by lia.
  rewrite Z.pow_add_r by lia. change (2 ^ 8) with 256.
  rewrite Z.rem_mul_r by (pose proof (pow2_pos (8 * Z.of_nat n)); lia). lia.
Qed.

Lemma mod_div_pow a x y :
  0 <= x -> 0 <= y -> (a `mod` 2 ^ (x + y)) / 2 ^ x = (a / 2 ^ x) `mod` 2 ^ y.
Proof.
  intros. rewrite Z.pow_add_r by done.
  pose proof (pow2_pos x). pose proof (pow2_pos y).
  rewrite Z.rem_mul_r by lia. rewrite (Z.mul_comm (2 ^ x)), Z.div_add by lia.
  by rewrite (Z.div_small (a `mod` 2 ^ x)) by (apply Z.mod_pos_bound; lia).
Qed.

Lemma mod_mod_pow a x y :
  0 <= x <= y -> (a `mod` 2 ^ y) `mod` 2 ^ x = a `mod` 2 ^ x.
Proof.
  intros. replace y with (x + (y - x)) by lia. rewrite Z.pow_add_r by lia.
  pose proof (pow2_pos x). pose proof (pow2_pos (y - x)).
  rewrite Z.rem_mul_r by lia. rewrite Z.mul_comm, Z.mod_add by lia.
  by apply Z.mod_mod; lia.
Qed.

Lemma be_bytes_mod n m v :
  (n <= m)%nat -> be_bytes n (v `mod` 2 ^ (8 * Z.of_nat m)) = be_bytes n v.
Proof.
  induction n as [|n IH]; cbn [be_bytes]; [done|]. intros. f_equal; [|apply IH; lia].
  replace (8 * Z.of_nat m) with (8 * Z.of_nat n + 8 * (Z.of_nat m - Z.of_nat n)) by lia.
  rewrite mod_div_pow by lia. change 256 with (2 ^ 8). apply mod_mod_pow. lia.
Qed.

Lemma be_bytes_value bs : bytes_ok bs -> be_bytes (length bs) (be_value bs) = bs.
Proof.
  induction 1 as [|b r Hb Hr IH]; cbn [length be_bytes be_value]; [done|].
  pose proof (be_value_bound r Hr). unfold in_width in Hb. change (2 ^ 8) with 256 in Hb.
  change (Z.of_nat (length r)) with (len r). f_equal.
  - rewrite Z.add_comm, Z.div_add by lia. rewrite Z.div_small by done.
    by rewrite Z.add_0_l, Z.mod_small by lia.
  - rewrite <- (be_bytes_mod (length r) (length r)) by lia.
    change (Z.of_nat (length r)) with (len r).
    rewrite Z.add_comm, Z.mod_add by lia. by rewrite Z.mod_small.
Qed.

Lemma be_bytes_value_n n bs :
  bytes_ok bs -> length bs = n -> be_bytes n (be_value bs) = bs.
Proof. intros ? <-. by apply be_bytes_value. Qed.

Lemma be_value_bytes_id n v :
  0 <= v < 2 ^ (8 * Z.of_nat n) -> be_value (be_bytes n v) = v.
Proof. intros. rewrite be_value_bytes. by apply Z.mod_small. Qed.

(** The eight bytes [byte(v >> (8 * (7 - i)))] of a 64-bit value, most
    significant first, as several loops of the code write them. *)
Definition u64_bytes (v : Z) : bytes :=
  (fun i => wrap 8 (shr 64 v (8 * (7 - i)))) <$> [0; 1; 2; 3; 4; 5; 6; 7].

Lemma u64_bytes_be v : u64 v -> u64_bytes v = be_bytes 8 v.
Proof.
  intros Hv. unfold u64_bytes. cbn [fmap list_fmap be_bytes].
  by rewrite !shr_spec by done.
Qed.

#[global] Arguments be_bytes : simpl never.
#[global] Arguments be_value : simpl never.
#[global] Arguments len : simpl never.

(** ** The [strings] and [strconv] functions the code calls *)

Fixpoint HasPrefix (s prefix : bytes) : bool :=
  match prefix, s with
  | [], _ => true
  | p :: prefix', c :: s' => (p =? c) && HasPrefix s' prefix'
  | _ :: _, [] => false
  end.

(** [strings.CutPrefix]: the rest of [s] after [prefix], and whether it was there. *)
Definition CutPrefix (s prefix : bytes) : bytes * bool :=
  if HasPrefix s prefix then (drop (length prefix) s, true) else (s, false).

Definition TrimPrefix (s prefix : bytes) : bytes := fst (CutPrefix s prefix).

Definition HasSuffix (s suffix : bytes) : bool := HasPrefix (rev s) (rev suffix).

Definition TrimSuffix (s suffix : bytes) : bytes :=
  if HasSuffix s suffix then take (length s - length suffix) s else s.

Fixpoint Contains (s sub : bytes) : bool :=
  HasPrefix s sub || match s with [] => false | _ :: s' => Contains s' sub end.

(** Byte equality of strings, [==] in Go. *)
Definition eqs (a b : bytes) : bool := bool_decide (a = b).

Lemma HasPrefix_spec s p : HasPrefix s p = true <-> exists r, s = p ++ r.
Proof.
  revert s. induction p as [|x p IH]; intros s; cbn.
  - destruct s; (split; [eauto|done]).
  - destruct s as [|c s]; cbn; [split; [done|intros [r Hr]; discriminate]|].
    rewrite andb_true_iff, Z.eqb_eq, IH. split.
    + intros [-> [r ->]]. by exists r.
    + intros [r [= -> ->]]. eauto.
Qed.

Lemma HasPrefix_app p r : HasPrefix (p ++ r) p = true.
Proof. apply HasPrefix_spec. eauto. Qed.

Lemma CutPrefix_app p r : CutPrefix (p ++ r) p = (r, true).
Proof. unfold CutPrefix. by rewrite HasPrefix_app, drop_app_length. Qed.

Lemma TrimPrefix_app p r : TrimPrefix (p ++ r) p = r.
Proof. unfold TrimPrefix. by rewrite CutPrefix_app. Qed.

Lemma CutPrefix_spec s p r : CutPrefix s p = (r, true) -> s = p ++ r.
Proof.
  unfold CutPrefix. case_one; intros [= <-].
  apply HasPrefix_spec in Heqb as [q ->]. by rewrite drop_app_length.
Qed.

Lemma Contains_spec s sub :
  Contains s sub = true <-> exists a b, s = a ++ sub ++ b.
Proof.
  induction s as [|c s IH]; cbn [Contains]; rewrite orb_true_iff, HasPrefix_spec.
  - split; [intros [[r Hr]|?]; [|done] | intros (a & b & Hab); left].
    + by exists [], r.
    + apply symmetry, app_eq_nil in Hab as [-> Hab]. by exists b.
  - rewrite IH. split.
    + intros [[r Hr]|(a & b & ->)]; [by exists [], r | by exists (c :: a), b].
    + intros (a & b & Hab). destruct a as [|x a]; cbn in Hab; simplify_eq; eauto.
Qed.

(** ** Errors and results *)

(** The error values of the code: the sentinels it compares against, an errno,
    [fmt.Errorf] / [errors.New] with the format and its integer arguments, and
    [fmt.Errorf] with a [%w] verb ([Wrap]) and [errors.Join] ([Joined]).
    [Panic] is a run-time panic: it leaves straight-line code the way an error
    return does, so a computation that is [Ok] is in particular one that does
    not panic. *)
Inductive error :=
  | EOF
  | ErrUnexpectedEOF
  | ErrShortWrite
  | ErrClosed
  | ContextCanceled
  | DeadlineExceeded
  | Errno (n : Z)
  | Panic (msg : string)
  | Errorf (format : string) (args : list Z)
  | Wrap (format : string) (e : error)
  | Joined (a b : error).

#[export] Instance error_eq_dec : EqDecision error.
Proof. solve_decision. Defined.

(** [errors.Join]: nil arguments are dropped, and the join of none is nil.
    [errors.Is] follows the wrapped errors. *)
Definition join2 (a b : option error) : option error :=
  match a, b with
  | Some a, Some b => Some (Joined a b)
  | Some a, None => Some a
  | None, b => b
  end.
Definition errors_Join (l : list (option error)) : option error := foldr join2 None l.

Fixpoint errors_Is (e target : error) : bool :=
  bool_decide (e = target) ||
  match e with
  | Wrap _ e => errors_Is e target
  | Joined a b => errors_Is a target || errors_Is b target
  | _ => false
  end.

(** A Go result pair [(value, err)]: the value is only meaningful when [err] is
    nil, which is how every caller in the code uses it. *)
Inductive result (A : Type) :=
  | Ok (a : A)
  | Err (e : error).
Arguments Ok {A} a.
Arguments Err {A} e.

#[export] Instance result_bind : MBind result :=
  fun A B f m => match m with Ok a => f a | Err e => Err e end.
#[export] Instance result_ret : MRet result := @Ok.

Definition is_ok {A} (r : result A) : bool :=
  match r with Ok _ => true | Err _ => false end.

(** [strconv.ParseUint(s, 10, bits)]: one or more decimal digits, no sign; a
    value that does not fit in [bits] is a range error. *)
Definition ErrSyntax : error := Errorf "strconv.ParseUint: invalid syntax" [].
Definition ErrRange : error := Errorf "strconv.ParseUint: value out of range" [].

Fixpoint ParseUint_digits (s : bytes) (bits n : Z) : result Z :=
  match s with
  | [] => Ok n
  | c :: s' =>
      if (48 <=? c) && (c <=? 57)
      then if 2 ^ bits <=? n * 10 + (c - 48) then Err ErrRange
           else ParseUint_digits s' bits (n * 10 + (c - 48))
      else Err ErrSyntax
  end.

Definition ParseUint (s : bytes) (bits : Z) : result Z :=
  match s with [] => Err ErrSyntax | _ => ParseUint_digits s bits 0 end.

Lemma ParseUint_width s bits v : 0 <= bits -> ParseUint s bits = Ok v -> in_width bits v.
Proof.
  intros Hbits. unfold ParseUint. destruct s as [|c s]; [done|].
  assert (forall s n, in_width bits n -> ParseUint_digits s bits n = Ok v -> in_width bits v) as G.
  { clear. induction s as [|c s IH]; cbn; intros n Hn; [congruence|].
    repeat case_one; intros; zbool; try done.
    apply (IH (n * 10 + (c - 48))); [|done]. unfold in_width in *. lia. }
  apply G. pose proof (pow2_pos bits Hbits). unfold in_width; lia.
Qed.

(** ** Connections *)

(** What a handler sees of a client connection. The bytes the client still
    sends and the error [Read] gives once they are used up ([io.EOF] for a
    close, a deadline error for a client that stalls); the bytes written so
    far, one element per [Write] call; and the error, if any, of the [k]-th
    write. *)
Record stream := mkStream {
  unread : bytes;
  rerr : error;
  sent : list bytes;
  werr : nat -> option error
}.

Definition set_unread (r : bytes) (s : stream) : stream :=
  mkStream r (rerr s) (sent s) (werr s).

(** Computations on one connection: state passing with an error result. *)
Definition io (A : Type) : Type := stream -> result A * stream.

#[export] Instance io_bind : MBind io :=
  fun A B f m s => match m s with (Ok a, s') => f a s' | (Err e, s') => (Err e, s') end.
#[export] Instance io_ret : MRet io := fun A a s => (Ok a, s).

Definition throw {A} (e : error) : io A := fun s => (Err e, s).
Definition lift {A} (r : result A) : io A := fun s => (r, s).

(** [io.ReadFull] with a buffer of [n] bytes: no read at all for an empty
    buffer; otherwise the next [n] bytes, or the reader's error, which is
    turned into [ErrUnexpectedEOF] when it is [EOF] and some bytes had been
    read. *)
Definition io_ReadFull (n : Z) : io bytes := fun s =>
  if n <=? len (unread s)
  then (Ok (slice (unread s) 0 n), set_unread (slice_from (unread s) n) s)
  else (Err (match rerr s, unread s with
             | EOF, _ :: _ => ErrUnexpectedEOF
             | e, _ => e
             end), set_unread [] s).

(** [w.Write(b)] of the whole slice. *)
Definition io_Write (b : bytes) : io unit := fun s =>
  match werr s (length (sent s)) with
  | None => (Ok tt, mkStream (unread s) (rerr s) (sent s ++ [b]) (werr s))
  | Some e => (Err e, s)
  end.

Lemma io_ReadFull_app n bs rest s :
  len bs = n -> unread s = bs ++ rest -> io_ReadFull n s = (Ok bs, set_unread rest s).
Proof.
  intros Hn Hs. unfold io_ReadFull, slice, slice_from. rewrite Hs, len_app.
  pose proof (len_nonneg rest). assert ((n <=? len bs + len rest) = true) as -> by (zbool; lia).
  rewrite Z.sub_0_r, drop_0. rewrite <- Hn, <- length_len.
  by rewrite take_app_length, drop_app_length.
Qed.

(** The bytes a successful [io_ReadFull] takes are the front of the stream. *)
Lemma io_ReadFull_ok n s bs s' :
  io_ReadFull n s = (Ok bs, s') -> 0 <= n ->
  len bs = n /\ s' = set_unread (unread s') s /\ unread s = bs ++ unread s'.
Proof.
  unfold io_ReadFull. case_one; intros [= <- <-] ?. zbool.
  unfold slice, slice_from. rewrite Z.sub_0_r, drop_0. cbn.
  repeat split; [|by rewrite take_drop].
  unfold len in *. rewrite length_take. lia.
Qed.

Lemma io_ReadFull_short n s :
  len (unread s) < n -> exists e, io_ReadFull n s = (Err e, set_unread [] s).
Proof. intros. unfold io_ReadFull. case_one; zbool; [lia | eauto]. Qed.

Lemma set_unread_twice a b s : set_unread a (set_unread b s) = set_unread a s.
Proof. done. Qed.
Lemma unread_set a s : unread (set_unread a s) = a.
Proof. done. Qed.
#[export] Hint Rewrite set_unread_twice unread_set : go.

(** Unfold one monadic step of an [io] computation. *)
Ltac io_step := unfold mbind, mret, io_bind, io_ret; cbn beta iota.

Lemma io_bind_ok {A B} (m : io A) (f : A -> io B) s b s' :
  (m ≫= f) s = (Ok b, s') -> exists a s1, m s = (Ok a, s1) /\ f a s1 = (Ok b, s').
Proof. io_step. destruct (m s) as [[a|e] s1]; [eauto | done]. Qed.

Lemma io_bind_step {A B} (m : io A) (f : A -> io B) s a s1 :
  m s = (Ok a, s1) -> (m ≫= f) s = f a s1.
Proof. io_step. by intros ->. Qed.

Lemma io_bind_err {A B} (m : io A) (f : A -> io B) s e s1 :
  m s = (Err e, s1) -> (m ≫= f) s = (Err e, s1).
Proof. io_step. by intros ->. Qed.

Lemma io_ret_ok {A} (a b : A) s s' : (mret a : io A) s = (Ok b, s') -> b = a /\ s' = s.
Proof. io_step. by intros [= <- <-]. Qed.

Lemma lift_ok {A} (r : result A) a s s' : lift r s = (Ok a, s') -> r = Ok a /\ s' = s.
Proof. unfold lift. by intros [= -> <-]. Qed.
