(* ===== verification/Netip.v ===== *)
(** * [net/netip]: the address types the program computes with

    The part of Go's [net/netip] that outway uses: [Addr], [AddrPort] and
    [Prefix] with the methods the code calls. An address is its value as an
    integer, an IPv6 address with its zone. *)

From Stdlib Require Import ZArith Lia.
From stdpp Require Import base tactics numbers list strings.
From S2P Require Import Prelude.

(** [netip.Addr]: the zero [Addr], an IPv4 address, an IPv6 address. *)
Inductive Addr :=
  | AddrZero
  | Addr4 (v : Z)
  | Addr6 (v : Z) (zone : bytes).

#[export] Instance Addr_eq_dec : EqDecision Addr.
Proof. solve_decision. Defined.

Definition Addr_ok (a : Addr) : Prop :=
  match a with
  | AddrZero => True
  | Addr4 v => u32 v
  | Addr6 v zone => in_width 128 v /\ bytes_ok zone
  end.

#[export] Instance Addr_ok_dec a : Decision (Addr_ok a).
Proof. destruct a; cbn; apply _. Defined.

Definition zone_free (a : Addr) : bool :=
  match a with Addr6 _ (_ :: _) => false | _ => true end.

Definition IsValid (a : Addr) : bool := match a with AddrZero => false | _ => true end.
Definition Is4 (a : Addr) : bool := match a with Addr4 _ => true | _ => false end.
Definition Is6 (a : Addr) : bool := match a with Addr6 _ _ => true | _ => false end.

(** [Is4In6]: an IPv6 address of the form [::ffff:a.b.c.d]. *)
Definition Is4In6 (a : Addr) : bool :=
  match a with Addr6 v _ => v / 2 ^ 32 =? 65535 | _ => false end.

(** [Unmap] turns an IPv4-mapped IPv6 address into the IPv4 address; the zone
    goes. *)
Definition Unmap (a : Addr) : Addr :=
  match a with
  | Addr6 v zone => if Is4In6 a then Addr4 (v `mod` 2 ^ 32) else Addr6 v zone
  | _ => a
  end.

(** [BitLen]: 0 for the zero [Addr], 32 or 128. *)
Definition BitLen (a : Addr) : Z :=
  match a with AddrZero => 0 | Addr4 _ => 32 | Addr6 _ _ => 128 end.

Definition AddrFrom4 (b : bytes) : Addr := Addr4 (be_value b).
Definition AddrFrom16 (b : bytes) : Addr := Addr6 (be_value b) [].

(** [As4] panics on the zero [Addr] and on an IPv6 address that is not
    IPv4-mapped; [As16] gives zeroes for the zero [Addr] and the mapped form
    for an IPv4 address. *)
Definition As4 (a : Addr) : result bytes :=
  match a with
  | Addr4 v => Ok (be_bytes 4 v)
  | Addr6 v _ => if Is4In6 a then Ok (be_bytes 4 v)
                 else Err (Panic "As4 called on IPv6 address")
  | AddrZero => Err (Panic "As4 called on IP zero value")
  end.

Definition As16 (a : Addr) : bytes :=
  match a with
  | AddrZero => be_bytes 16 0
  | Addr4 v => be_bytes 16 (65535 * 2 ^ 32 + v)
  | Addr6 v _ => be_bytes 16 v
  end.

Definition IPv4Unspecified : Addr := Addr4 0.

(** [IsUnspecified]: 0.0.0.0 or [::] without a zone. *)
Definition IsUnspecified (a : Addr) : bool :=
  bool_decide (a = Addr4 0) || bool_decide (a = Addr6 0 []).

(** [netip.AddrPort] *)
Record AddrPort := AddrPortFrom { ap_Addr : Addr; ap_Port : Z }.

#[export] Instance AddrPort_eq_dec : EqDecision AddrPort.
Proof. solve_decision. Defined.

Definition AddrPort_ok (ap : AddrPort) : Prop := Addr_ok (ap_Addr ap) /\ u16 (ap_Port ap).
#[export] Instance AddrPort_ok_dec ap : Decision (AddrPort_ok ap).
Proof. unfold AddrPort_ok. apply _. Defined.
Definition AddrPortZero : AddrPort := AddrPortFrom AddrZero 0.

(** [netip.Prefix]: an address and a prefix length. [Prefix_ok] is what
    [netip.ParsePrefix] guarantees: a valid address without a zone, and a
    length within the address. *)
Record Prefix := mkPrefix { p_Addr : Addr; p_Bits : Z }.

Definition Prefix_ok (p : Prefix) : Prop :=
  Addr_ok (p_Addr p) /\ IsValid (p_Addr p) = true /\ zone_free (p_Addr p) = true /\
  0 <= p_Bits p <= BitLen (p_Addr p).

#[export] Instance Prefix_ok_dec p : Decision (Prefix_ok p).
Proof. unfold Prefix_ok. apply _. Defined.

(** The address value. *)
Definition Addr_value (a : Addr) : Z :=
  match a with AddrZero => 0 | Addr4 v => v | Addr6 v _ => v end.

(** [Masked]: the host bits are cleared. *)
Definition mask_low (v h : Z) : Z := v / 2 ^ h * 2 ^ h.

Definition Masked (p : Prefix) : Prefix :=
  let h := BitLen (p_Addr p) - p_Bits p in
  match p_Addr p with
  | AddrZero => mkPrefix AddrZero (-1)
  | Addr4 v => mkPrefix (Addr4 (mask_low v h)) (p_Bits p)
  | Addr6 v _ => mkPrefix (Addr6 (mask_low v h) []) (p_Bits p)
  end.

(** [p.Contains(ip)]: same family, no zone, and the same network bits. *)
Definition prefix_Contains (p : Prefix) (ip : Addr) : bool :=
  IsValid (p_Addr p) && zone_free ip &&
  (BitLen (p_Addr p) =? BitLen ip) &&
  (let h := BitLen ip - p_Bits p in
   Addr_value ip / 2 ^ h =? Addr_value (p_Addr p) / 2 ^ h).

(** [AsSlice]: nothing for the zero [Addr], 4 or 16 bytes otherwise. *)
Definition AsSlice (a : Addr) : bytes :=
  match a with
  | AddrZero => []
  | Addr4 v => be_bytes 4 v
  | Addr6 v _ => be_bytes 16 v
  end.

(** ** [ParseAddr] *)

Definition ErrParseAddr : error := Errorf "ParseAddr: invalid IP" [].

(** The dotted-decimal scanner: [val] and [digLen] of the octet being read,
    [done] the octets before it, [first] whether this is the first character,
    [prevDot] whether the previous one was a dot. *)
Fixpoint parseIPv4Fields (s : bytes) (val digLen : Z) (fields : bytes) (first prevDot : bool)
    : result bytes :=
  match s with
  | [] => if len fields <? 3 then Err ErrParseAddr else Ok (fields ++ [val])
  | c :: s' =>
      if (48 <=? c) && (c <=? 57) then
        if (digLen =? 1) && (val =? 0) then Err ErrParseAddr
        else
          let val := val * 10 + (c - 48) in
          if 255 <? val then Err ErrParseAddr
          else parseIPv4Fields s' val (digLen + 1) fields false false
      else if c =? 46 then
        if first || (len s' =? 0) || prevDot then Err ErrParseAddr
        else if len fields =? 3 then Err ErrParseAddr
        else parseIPv4Fields s' 0 0 (fields ++ [val]) false true
      else Err ErrParseAddr
  end.

Definition parseIPv4 (s : bytes) : result Addr :=
  b ← parseIPv4Fields s 0 0 [] true false; Ok (AddrFrom4 b).

Definition hexDigit (c : Z) : option Z :=
  if (48 <=? c) && (c <=? 57) then Some (c - 48)
  else if (97 <=? c) && (c <=? 102) then Some (c - 97 + 10)
  else if (65 <=? c) && (c <=? 70) then Some (c - 65 + 10)
  else None.

(** A hexadecimal group: its value, its number of digits and the rest. *)
Fixpoint hexGroup (s : bytes) (acc off : Z) : result (Z * Z * bytes) :=
  match s with
  | [] => Ok (acc, off, [])
  | c :: s' =>
      match hexDigit c with
      | None => Ok (acc, off, s)
      | Some d => if 3 <? off then Err ErrParseAddr else hexGroup s' (acc * 16 + d) (off + 1)
      end
  end.

(** The group loop, with [ip] the bytes so far and [ellipsis] the position of
    [::]; eight groups fill the address, so [fuel] 8 runs to the end. *)
Fixpoint parseIPv6Groups (fuel : nat) (s ip : bytes) (ellipsis : option Z)
    : result (bytes * bytes * option Z) :=
  match fuel with
  | O => Ok (s, ip, ellipsis)
  | S fuel =>
      '(acc, off, r) ← hexGroup s 0 0;
      if off =? 0 then Err ErrParseAddr
      else
        match r with
        | 46 :: _ =>
            if bool_decide (ellipsis = None) && negb (len ip =? 12) then Err ErrParseAddr
            else if 16 <? len ip + 4 then Err ErrParseAddr
            else f ← parseIPv4Fields s 0 0 [] true false; Ok ([], ip ++ f, ellipsis)
        | _ =>
            let ip := ip ++ [acc / 256; acc `mod` 256] in
            match r with
            | [] => Ok ([], ip, ellipsis)
            | 58 :: [] => Err ErrParseAddr
            | 58 :: 58 :: r' =>
                match ellipsis with
                | Some _ => Err ErrParseAddr
                | None =>
                    match r' with
                    | [] => Ok ([], ip, Some (len ip))
                    | _ => parseIPv6Groups fuel r' ip (Some (len ip))
                    end
                end
            | 58 :: r' => parseIPv6Groups fuel r' ip ellipsis
            | _ => Err ErrParseAddr
            end
        end
  end.

(** [IndexByte]: the part before the first [c] and, if there is one, the part
    after it. *)
Fixpoint cut_byte (c : Z) (s : bytes) : bytes * option bytes :=
  match s with
  | [] => ([], None)
  | x :: s' => if x =? c then ([], Some s')
               else let '(a, b) := cut_byte c s' in (x :: a, b)
  end.

Definition parseIPv6 (s : bytes) : result Addr :=
  let '(s, z) := cut_byte 37 s in
  match z with
  | Some [] => Err ErrParseAddr
  | _ =>
      let zone := default [] z in
      let '(s, ellipsis) :=
        match s with 58 :: 58 :: r => (r, Some 0) | _ => (s, None) end in
      match s, ellipsis with
      | [], Some _ => Ok (Addr6 0 zone)
      | _, _ =>
          '(rest, ip, ellipsis) ← parseIPv6Groups 8 s [] ellipsis;
          if negb (len rest =? 0) then Err ErrParseAddr
          else if len ip <? 16 then
            match ellipsis with
            | None => Err ErrParseAddr
            | Some e =>
                let ip16 := slice ip 0 e ++ replicate (Z.to_nat (16 - len ip)) 0 ++ slice_from ip e in
                Ok (Addr6 (be_value ip16) zone)
            end
          else match ellipsis with
               | Some _ => Err ErrParseAddr
               | None => Ok (Addr6 (be_value ip) zone)
               end
      end
  end.

(** [netip.ParseAddr]: the first of [.], [:] and [%] decides the form. *)
Fixpoint addr_form (s : bytes) : option Z :=
  match s with
  | [] => None
  | c :: s' => if (c =? 46) || (c =? 58) || (c =? 37) then Some c else addr_form s'
  end.

Definition ParseAddr (s : bytes) : result Addr :=
  match addr_form s with
  | Some 46 => parseIPv4 s
  | Some 58 => parseIPv6 s
  | _ => Err ErrParseAddr
  end.

(** ** Lemmas *)

Lemma length_As16 a : length (As16 a) = 16%nat.
Proof. destruct a; apply length_be_bytes. Qed.
Lemma As16_ok a : bytes_ok (As16 a).
Proof. destruct a; apply be_bytes_ok. Qed.

Lemma AddrFrom4_ok b : bytes_ok b -> length b = 4%nat -> Addr_ok (AddrFrom4 b).
Proof.
  intros Hb Hl. pose proof (be_value_bound b Hb) as H.
  unfold len in H. by rewrite Hl in H.
Qed.
Lemma AddrFrom16_ok b : bytes_ok b -> length b = 16%nat -> Addr_ok (AddrFrom16 b).
Proof.
  intros Hb Hl. pose proof (be_value_bound b Hb) as H.
  unfold len in H. rewrite Hl in H. split; [done | constructor].
Qed.

Lemma As4_AddrFrom4 b : bytes_ok b -> length b = 4%nat -> As4 (AddrFrom4 b) = Ok b.
Proof. intros. unfold As4, AddrFrom4. by rewrite be_bytes_value_n. Qed.
Lemma As16_AddrFrom16 b : bytes_ok b -> length b = 16%nat -> As16 (AddrFrom16 b) = b.
Proof. intros. unfold As16, AddrFrom16. by rewrite be_bytes_value_n. Qed.

Lemma Unmap_ok a : Addr_ok a -> Addr_ok (Unmap a).
Proof.
  destruct a; unfold Unmap; try done. intros [Hv Hz]. case_one; [|done].
  apply Z.mod_pos_bound. lia.
Qed.

Lemma Unmap_not_4in6 a : Is4In6 (Unmap a) = false.
Proof. destruct a; unfold Unmap; try done. case_one; done. Qed.

Lemma Masked_bits p : IsValid (p_Addr p) = true -> p_Bits (Masked p) = p_Bits p.
Proof. unfold Masked. by destruct (p_Addr p). Qed.

(** Membership of an address of the right family, in integers. *)
Lemma prefix_Contains_intro p ip :
  Prefix_ok p -> zone_free ip = true -> BitLen (p_Addr p) = BitLen ip ->
  Addr_value ip / 2 ^ (BitLen ip - p_Bits p)
    = Addr_value (p_Addr p) / 2 ^ (BitLen ip - p_Bits p) ->
  prefix_Contains p ip = true.
Proof.
  intros (? & Hv & ? & ?) Hz Hl He. unfold prefix_Contains.
  rewrite Hv, Hz, Hl, Z.eqb_refl. cbn [andb]. by apply Z.eqb_eq.
Qed.

#[export] Hint Resolve AddrFrom4_ok AddrFrom16_ok Unmap_ok As16_ok : wf.

(** *** What [ParseAddr] returns is a well-formed address *)

Lemma parseIPv4Fields_ok s : forall val digLen fields first prevDot b,
  u8 val -> bytes_ok fields -> len fields <= 3 ->
  parseIPv4Fields s val digLen fields first prevDot = Ok b -> bytes_ok b /\ length b = 4%nat.
Proof.
  induction s as [|c s IH]; intros val digLen fields first prevDot b Hv Hf Hl; cbn.
  - case_one; [done|]. zbool. intros [= <-]. rewrite bytes_ok_app, bytes_ok_cons, length_app.
    cbn. unfold len in *. split_and!; [done|done|constructor|lia].
  - case_one.
    + case_one; [done|]. case_one; [done|]. apply IH; [|done|done].
      zbool. unfold in_width in *. lia.
    + case_one; [|done]. case_one; [done|]. case_one; [done|]. zbool. apply IH.
      * by_decide.
      * rewrite bytes_ok_app, bytes_ok_cons. split_and!; [done|done|constructor].
      * rewrite len_app, len_cons, len_nil. lia.
Qed.

Lemma hexDigit_bound c d : hexDigit c = Some d -> 0 <= d < 16.
Proof. unfold hexDigit. repeat case_one; intros [= <-]; zbool; lia. Qed.

Lemma hexGroup_bound s : forall acc off acc' off' r,
  0 <= off <= 4 -> 0 <= acc < 16 ^ off -> hexGroup s acc off = Ok (acc', off', r) -> 0 <= acc' < 65536.
Proof.
  induction s as [|c s IH]; intros acc off acc' off' r Ho Ha; cbn.
  - intros [= <- <- <-]. pose proof (Z.pow_le_mono_r 16 off 4). lia.
  - destruct (hexDigit c) as [d|] eqn:Ed.
    + case_one; [done|]. zbool. apply hexDigit_bound in Ed. apply IH; [lia|].
      rewrite Z.pow_add_r by lia. lia.
    + intros [= <- <- <-]. pose proof (Z.pow_le_mono_r 16 off 4). lia.
Qed.

Definition ellipsis_ok (ip : bytes) (e : option Z) : Prop :=
  match e with Some p => 0 <= p <= len ip | None => True end.

Lemma ellipsis_ok_app ip k e : ellipsis_ok ip e -> ellipsis_ok (ip ++ k) e.
Proof. destruct e; cbn; [|done]. rewrite len_app. pose proof (len_nonneg k). lia. Qed.

Lemma parseIPv6Groups_ok fuel : forall s ip e rest ip' e',
  bytes_ok ip -> len ip + 2 * Z.of_nat fuel <= 16 -> ellipsis_ok ip e ->
  parseIPv6Groups fuel s ip e = Ok (rest, ip', e') ->
  bytes_ok ip' /\ len ip' <= 16 /\ ellipsis_ok ip' e'.
Proof.
  induction fuel as [|fuel IH]; intros s ip e rest ip' e' Hip Hl He; cbn [parseIPv6Groups].
  - intros [= <- <- <-]. split_and!; [done|lia|done].
  - destruct (hexGroup s 0 0) as [[[acc off] r]|] eqn:Eg; cbn [mbind result_bind]; [|done].
    apply hexGroup_bound in Eg; [|lia|lia]. case_one; [done|].
    assert (bytes_ok (ip ++ [acc / 256; acc `mod` 256])) as Hip2.
    { rewrite bytes_ok_app, !bytes_ok_cons. unfold in_width.
      pose proof (Z.mod_pos_bound acc 256). split_and!; try done; try lia; try constructor.
      - apply Z.div_pos; lia.
      - apply Z.div_lt_upper_bound; lia. }
    assert (len (ip ++ [acc / 256; acc `mod` 256]) = len ip + 2) as Hl2 by (rewrite len_app; done).
    pose proof (ellipsis_ok_app ip [acc / 256; acc `mod` 256] e He) as He2.
    assert (forall rest0, Ok (rest0, ip ++ [acc / 256; acc `mod` 256], e) = Ok (rest, ip', e') ->
            bytes_ok ip' /\ len ip' <= 16 /\ ellipsis_ok ip' e') as Hend
      by (intros rest0 [= <- <- <-]; split_and!; [done|lia|done]).
    repeat case_one; try done; eauto with lia.
    all: pose proof (len_nonneg ip) as Hn.
    all: try (intros [= <- <- <-]; split_and!; [done|lia|]; unfold ellipsis_ok; lia).
    all: try (apply IH; [done|lia|unfold ellipsis_ok; lia || done]).
    intros H. destruct (parseIPv4Fields s 0 0 [] true false) as [f|] eqn:Ef; [|done].
    injection H as <- <- <-. apply parseIPv4Fields_ok in Ef as [Hf1 Hf2]; [|by_decide|constructor|by_decide].
    zbool. rewrite bytes_ok_app, len_app. unfold len at 2. rewrite Hf2.
    split_and!; [done|done|lia|by apply ellipsis_ok_app].
Qed.

Lemma cut_byte_parts c s a b : cut_byte c s = (a, b) -> s = a ++ match b with Some r => c :: r | None => [] end.
Proof.
  revert a. induction s as [|x s IH]; intros a; cbn; [by intros [= <- <-]|].
  case_one; [zbool; subst; by intros [= <- <-]|]. destruct (cut_byte c s) as [a' b'].
  intros [= <- <-]. cbn. by rewrite (IH a').
Qed.

Lemma be_value_ok128 b : bytes_ok b -> len b = 16 -> in_width 128 (be_value b).
Proof. intros Hb Hl. pose proof (be_value_bound b Hb) as H. by rewrite Hl in H. Qed.

(** The ellipsis is expanded to sixteen bytes. *)
Lemma ellipsis_expand_ok ip e :
  bytes_ok ip -> len ip <= 16 -> 0 <= e <= len ip ->
  in_width 128 (be_value (slice ip 0 e ++ replicate (Z.to_nat (16 - len ip)) 0 ++ slice_from ip e)).
Proof.
  intros Hip Hl He. unfold slice, slice_from. apply be_value_ok128.
  - rewrite !bytes_ok_app. split_and!; [by apply bytes_ok_take, bytes_ok_drop| |by apply bytes_ok_drop].
    by apply Forall_replicate.
  - unfold len in *. rewrite !length_app, length_take, !length_drop, length_replicate. lia.
Qed.

Lemma parseIPv6_ok s a : bytes_ok s -> parseIPv6 s = Ok a -> Addr_ok a /\ IsValid a = true.
Proof.
  intros Hs. unfold parseIPv6. destruct (cut_byte 37 s) as [s1 z] eqn:Ec. apply cut_byte_parts in Ec.
  assert (bytes_ok (default [] z)) as Hz.
  { subst s. apply bytes_ok_app in Hs as [_ Hs]. destruct z; [|constructor]. by apply bytes_ok_cons in Hs as [_ Hs]. }
  assert (forall v, in_width 128 v -> Ok (Addr6 v (default [] z)) = Ok a -> Addr_ok a /\ IsValid a = true) as Hv
    by (intros v Hv' [= <-]; done).
  assert (forall s1 el, ellipsis_ok [] el ->
    ('(rest, ip, ellipsis) ← parseIPv6Groups 8 s1 [] el;
     if negb (len rest =? 0) then Err ErrParseAddr
     else if len ip <? 16 then
       match ellipsis with
       | None => Err ErrParseAddr
       | Some e => Ok (Addr6 (be_value (slice ip 0 e ++ replicate (Z.to_nat (16 - len ip)) 0 ++ slice_from ip e))
                         (default [] z))
       end
     else match ellipsis with
          | Some _ => Err ErrParseAddr
          | None => Ok (Addr6 (be_value ip) (default [] z))
          end) = Ok a -> Addr_ok a /\ IsValid a = true) as Hgroups.
  { intros s2 el Hel. destruct (parseIPv6Groups 8 s2 [] el) as [[[rest ip] e]|] eqn:Eg; cbn [mbind result_bind]; [|done].
    apply parseIPv6Groups_ok in Eg as (H1 & H2 & H3); [|constructor|by_decide|done].
    case_one; [done|]. case_one; destruct e as [e|]; try done; apply Hv.
    - apply ellipsis_expand_ok; done.
    - apply be_value_ok128; [done|zbool; lia]. }
  destruct z as [[|z0 z]|]; [done| |];
    (match goal with |- context [let '(_, _) := ?p in _] =>
       assert (ellipsis_ok [] (snd p)) as Hel by (repeat case_one; cbn; rewrite ?len_nil; lia || done);
       destruct p as [[|x b] [e|]] end;
     try (apply Hv; by_decide); by apply Hgroups).
Qed.

(** The form is one of the three characters, so only the first two parse. *)
Lemma ParseAddr_ok s a : bytes_ok s -> ParseAddr s = Ok a -> Addr_ok a /\ IsValid a = true.
Proof.
  intros Hs. assert (parseIPv4 s = Ok a -> Addr_ok a /\ IsValid a = true) as H4.
  { unfold parseIPv4. destruct (parseIPv4Fields s 0 0 [] true false) as [b|] eqn:E; cbn; [|done].
    intros [= <-]. apply parseIPv4Fields_ok in E as [Hb Hl]; [|by_decide|constructor|by_decide].
    split; [by apply AddrFrom4_ok|done]. }
  unfold ParseAddr. destruct (addr_form s) as [[|p|p]|]; try done.
  do 6 (try destruct p as [p|p|]; try done); eauto using parseIPv6_ok.
Qed.

(** The parser on addresses of every form. *)
Example ParseAddr_examples :
  ParseAddr (str "127.0.0.1") = Ok (Addr4 2130706433) /\
  ParseAddr (str "2001:db8::1") = Ok (Addr6 (0x20010db8 * 2 ^ 96 + 1) []) /\
  ParseAddr (str "::") = Ok (Addr6 0 []) /\
  ParseAddr (str "::ffff:10.0.0.1") = Ok (Addr6 0xffff0a000001 []) /\
  ParseAddr (str "fe80::1%eth0") = Ok (Addr6 (0xfe80 * 2 ^ 112 + 1) (str "eth0")) /\
  ParseAddr (str "1:2:3:4:5:6:7:8:9") = Err ErrParseAddr /\
  ParseAddr (str "1:2:3:4:5:6:7::8") = Err ErrParseAddr /\
  ParseAddr (str "1.2.3") = Err ErrParseAddr /\ ParseAddr (str "01.2.3.4") = Err ErrParseAddr /\
  ParseAddr (str "eth0") = Err ErrParseAddr.
Proof. vm_compute. done. Qed.
