(* ===== verification/Proto.v ===== *)
(** * The SOCKS5 wire protocol (package [proto])

    Models [internal/server/socks/proto]: the readers of [proto.go], addresses
    ([address.go]), commands, replies, requests, responses and the UDP relay
    header ([udp.go]). A parser over a byte slice is a function to [result]; a
    parser over an [io.Reader] is a computation in [io]. *)

From Stdlib Require Import ZArith Lia.
From stdpp Require Import base tactics numbers list strings.
From S2P Require Import Prelude.
From S2P Require Import Netip.

(** ** proto.go *)

Definition Version5 : Z := 5.

Definition readFull (n : Z) : io bytes := io_ReadFull n.

Definition readU8 : io Z := b ← readFull 1; mret (idx b 0).

Definition readU16 : io Z := b ← readFull 2; mret (be_value b).

Definition writeAll (b : bytes) : io unit := io_Write b.

Definition checkVersion (v : Z) : result unit :=
  if negb (v =? Version5) then Err (Errorf "unsupported SOCKS version %#x" [v]) else Ok tt.

(** ** address.go *)

Definition AddrIPv4 : Z := 1.
Definition AddrDomain : Z := 3.
Definition AddrIPv6 : Z := 4.

(** A socket address when [Socket] is there, a domain and port otherwise. *)
Record Address := mkAddress { Socket : option AddrPort; Domain : bytes; Port : Z }.

#[export] Instance Address_eq_dec : EqDecision Address.
Proof. solve_decision. Defined.

Definition SocketAddress (addr : AddrPort) : Address := mkAddress (Some addr) [] 0.
Definition DomainAddress (domain : bytes) (port : Z) : Address := mkAddress None domain port.

Definition unspecifiedAddrPort : AddrPort := AddrPortFrom IPv4Unspecified 0.
Definition Unspecified : Address := mkAddress (Some unspecifiedAddrPort) [] 0.

Definition MaxSerializedLen : Z := 1 + 1 + 255 + 2.

Definition Address_Len (a : Address) : Z :=
  match Socket a with
  | Some ap => if Is4 (ap_Addr ap) then 1 + 4 + 2 else 1 + 16 + 2
  | None => 1 + 1 + len (Domain a) + 2
  end.

(** [AppendTo]: [byte(len(a.Domain))] keeps the low eight bits. *)
Definition Address_AppendTo (a : Address) (b : bytes) : result bytes :=
  match Socket a with
  | Some ap =>
      if Is4 (ap_Addr ap) then
        v4 ← As4 (ap_Addr ap);
        Ok (((b ++ [AddrIPv4]) ++ v4) ++ be_bytes 2 (ap_Port ap))
      else
        Ok (((b ++ [AddrIPv6]) ++ As16 (ap_Addr ap)) ++ be_bytes 2 (ap_Port ap))
  | None =>
      if 255 <? len (Domain a)
      then Err (Errorf "domain too long: %d" [len (Domain a)])
      else Ok (((b ++ [AddrDomain; wrap 8 (len (Domain a))]) ++ Domain a) ++ be_bytes 2 (Port a))
  end.

Definition Address_MarshalTo (a : Address) : io unit :=
  b ← lift (Address_AppendTo a []);
  writeAll b.

(** [ParseAddress] reads from the front of a packet and says how many bytes it used. *)
Definition ParseAddress (buf : bytes) : result (Address * Z) :=
  if len buf <? 1 then Err ErrUnexpectedEOF
  else if idx buf 0 =? AddrIPv4 then
    if len buf <? 1 + 4 + 2 then Err ErrUnexpectedEOF
    else
      let addr := AddrFrom4 [idx buf 1; idx buf 2; idx buf 3; idx buf 4] in
      let ap := AddrPortFrom addr (be_value (slice buf 5 7)) in
      Ok (mkAddress (Some ap) [] 0, 1 + 4 + 2)
  else if idx buf 0 =? AddrIPv6 then
    if len buf <? 1 + 16 + 2 then Err ErrUnexpectedEOF
    else
      let addr16 := slice buf 1 17 in
      let ap := AddrPortFrom (AddrFrom16 addr16) (be_value (slice buf 17 19)) in
      Ok (mkAddress (Some ap) [] 0, 1 + 16 + 2)
  else if idx buf 0 =? AddrDomain then
    if len buf <? 2 then Err ErrUnexpectedEOF
    else
      let length := idx buf 1 in
      if len buf <? 2 + length + 2 then Err ErrUnexpectedEOF
      else
        let domain := slice buf 2 (2 + length) in
        let port := be_value (slice buf (2 + length) (2 + length + 2)) in
        Ok (mkAddress None domain port, 2 + length + 2)
  else Err (Errorf "unsupported address type %#x" [idx buf 0]).

(** [ReadAddress] is the same parser over a stream. *)
Definition ReadAddress : io Address :=
  atyp ← readU8;
  if atyp =? AddrIPv4 then
    buf ← readFull 6;
    let addr := AddrFrom4 [idx buf 0; idx buf 1; idx buf 2; idx buf 3] in
    let port := be_value (slice_from buf 4) in
    mret (mkAddress (Some (AddrPortFrom addr port)) [] 0)
  else if atyp =? AddrDomain then
    ln ← readU8;
    buf ← readFull (ln + 2);
    let port := be_value (slice_from buf ln) in
    mret (mkAddress None (slice buf 0 ln) port)
  else if atyp =? AddrIPv6 then
    buf ← readFull 18;
    let addr := AddrFrom16 (slice buf 0 16) in
    let port := be_value (slice_from buf 16) in
    mret (mkAddress (Some (AddrPortFrom addr port)) [] 0)
  else throw (Errorf "unsupported address type %#x" [atyp]).

(** ** command.go and reply.go *)

Inductive Command := CmdConnect | CmdBind | CmdUDPAssociate.

#[export] Instance Command_eq_dec : EqDecision Command.
Proof. solve_decision. Defined.

Definition ParseCommand (b : Z) : result Command :=
  if b =? 1 then Ok CmdConnect
  else if b =? 2 then Ok CmdBind
  else if b =? 3 then Ok CmdUDPAssociate
  else Err (Errorf "unsupported command code %#x" [b]).

Definition Command_Byte (c : Command) : Z :=
  match c with CmdConnect => 1 | CmdBind => 2 | CmdUDPAssociate => 3 end.

Inductive Reply :=
  | ReplySucceeded
  | ReplyGeneralFailure
  | ReplyConnectionNotAllowed
  | ReplyNetworkUnreachable
  | ReplyHostUnreachable
  | ReplyConnectionRefused
  | ReplyTtlExpired
  | ReplyCommandNotSupported
  | ReplyAddressTypeNotSupported.

#[export] Instance Reply_eq_dec : EqDecision Reply.
Proof. solve_decision. Defined.

Definition ParseReply (b : Z) : result Reply :=
  if b =? 0 then Ok ReplySucceeded
  else if b =? 1 then Ok ReplyGeneralFailure
  else if b =? 2 then Ok ReplyConnectionNotAllowed
  else if b =? 3 then Ok ReplyNetworkUnreachable
  else if b =? 4 then Ok ReplyHostUnreachable
  else if b =? 5 then Ok ReplyConnectionRefused
  else if b =? 6 then Ok ReplyTtlExpired
  else if b =? 7 then Ok ReplyCommandNotSupported
  else if b =? 8 then Ok ReplyAddressTypeNotSupported
  else Err (Errorf "unsupported reply code %#x" [b]).

Definition Reply_Byte (r : Reply) : Z :=
  match r with
  | ReplySucceeded => 0
  | ReplyGeneralFailure => 1
  | ReplyConnectionNotAllowed => 2
  | ReplyNetworkUnreachable => 3
  | ReplyHostUnreachable => 4
  | ReplyConnectionRefused => 5
  | ReplyTtlExpired => 6
  | ReplyCommandNotSupported => 7
  | ReplyAddressTypeNotSupported => 8
  end.

(** ** request.go and response.go *)

Record Request := mkRequest { rq_Command : Command; rq_Address : Address }.

Definition ReadRequest : io Request :=
  ver ← readU8;
  _ ← lift (checkVersion ver);
  buf ← readFull 2;
  cmd ← lift (ParseCommand (idx buf 0));
  addr ← ReadAddress;
  mret (mkRequest cmd addr).

(** Two writes: the three-byte head, then the address. *)
Definition Request_MarshalTo (req : Request) : io unit :=
  _ ← io_Write [Version5; Command_Byte (rq_Command req); 0];
  Address_MarshalTo (rq_Address req).

Record Response := mkResponse { rs_Reply : Reply; rs_Address : Address }.

Definition NewResponse (reply : Reply) (addr : Address) : Response := mkResponse reply addr.

(** One write for the head and the address together. *)
Definition Response_MarshalTo (resp : Response) : io unit :=
  b ← lift (Address_AppendTo (rs_Address resp) [Version5; Reply_Byte (rs_Reply resp); 0]);
  writeAll b.

(** ** udp.go *)

Record UdpHeader := mkUdpHeader { uh_Frag : Z; uh_Address : Address }.

Definition UdpHeaderMaxLen : Z := 3 + MaxSerializedLen.

Definition UdpHeader_Len (h : UdpHeader) : Z := 3 + Address_Len (uh_Address h).

Definition UdpHeader_MarshalTo (h : UdpHeader) : io unit :=
  _ ← io_Write [0; 0; uh_Frag h];
  Address_MarshalTo (uh_Address h).

Definition ReadUdpHeader : io (UdpHeader * Z) :=
  buf ← readFull 3;
  addr ← ReadAddress;
  let h := mkUdpHeader (idx buf 2) addr in
  mret (h, UdpHeader_Len h).

Definition ParseUdpHeader (buf : bytes) : result (UdpHeader * Z) :=
  if len buf <? 3 then Err ErrUnexpectedEOF
  else
    '(addr, addrLen) ← ParseAddress (slice_from buf 3);
    Ok (mkUdpHeader (idx buf 2) addr, 3 + addrLen).

(** The address is encoded inline, with no test of the domain's length. *)
Definition BuildUdpPacket (frag : Z) (from : Address) (payload : bytes) : result bytes :=
  let buf := [0; 0; frag] in
  buf ← (match Socket from with
         | Some ap =>
             buf ← (if Is4 (ap_Addr ap) then
                      v4 ← As4 (ap_Addr ap);
                      Ok ((buf ++ [AddrIPv4]) ++ v4)
                    else Ok ((buf ++ [AddrIPv6]) ++ As16 (ap_Addr ap)));
             Ok (buf ++ be_bytes 2 (ap_Port ap))
         | None =>
             Ok (((buf ++ [AddrDomain; wrap 8 (len (Domain from))]) ++ Domain from)
                   ++ be_bytes 2 (Port from))
         end);
  Ok (buf ++ payload).

(** ** The wire format as a relation

    [Wire a w]: [w] is the encoding of the address [a] in RFC 1928 (ATYP,
    address, port). The parsers and the encoders below are proved against it. *)
Inductive Wire : Address -> bytes -> Prop :=
  | Wire_v4 a p :
      length a = 4%nat -> length p = 2%nat -> bytes_ok a -> bytes_ok p ->
      Wire (SocketAddress (AddrPortFrom (AddrFrom4 a) (be_value p))) (AddrIPv4 :: a ++ p)
  | Wire_v6 a p :
      length a = 16%nat -> length p = 2%nat -> bytes_ok a -> bytes_ok p ->
      Wire (SocketAddress (AddrPortFrom (AddrFrom16 a) (be_value p))) (AddrIPv6 :: a ++ p)
  | Wire_domain d p :
      len d <= 255 -> length p = 2%nat -> bytes_ok d -> bytes_ok p ->
      Wire (DomainAddress d (be_value p)) (AddrDomain :: len d :: d ++ p).

(** Which addresses have an encoding: a socket address needs a valid IP
    without a zone, a domain at most 255 bytes. *)
Definition Address_ok (a : Address) : Prop :=
  match Socket a with
  | Some ap =>
      AddrPort_ok ap /\ IsValid (ap_Addr ap) = true /\ zone_free (ap_Addr ap) = true /\
      Domain a = [] /\ Port a = 0
  | None => bytes_ok (Domain a) /\ len (Domain a) <= 255 /\ u16 (Port a)
  end.

#[export] Instance Address_ok_dec a : Decision (Address_ok a).
Proof. unfold Address_ok. destruct (Socket a); apply _. Defined.

Lemma ParseAddress_complete a w rest :
  Wire a w -> ParseAddress (w ++ rest) = Ok (a, len w).
Proof.
  pose proof (len_nonneg rest).
  destruct 1 as [a p Ha Hp | a p Ha Hp | d p Hd Hp]; unfold ParseAddress.
  - explode. by repeat len_false.
  - explode. by repeat len_false.
  - pose proof (len_nonneg d). rewrite <- (len_eq p) in Hp. cbn [app].
    rewrite idx_cons_0, idx_cons_1, <- app_assoc. do 3 len_false.
    change (AddrDomain =? AddrIPv4) with false. change (AddrDomain =? AddrIPv6) with false.
    change (AddrDomain =? AddrDomain) with true. cbn beta iota zeta.
    rewrite (slice_app [AddrDomain; len d] d (p ++ rest)) by (autorewrite with go; lia).
    replace (AddrDomain :: len d :: d ++ p ++ rest)
      with ((AddrDomain :: len d :: d) ++ p ++ rest) by done.
    rewrite slice_app by (autorewrite with go; lia).
    do 2 f_equal. autorewrite with go. rewrite Hp. lia.
Qed.

Lemma ParseAddress_sound buf a n :
  bytes_ok buf -> ParseAddress buf = Ok (a, n) ->
  exists w rest, buf = w ++ rest /\ Wire a w /\ len w = n.
Proof.
  intros Hok. unfold ParseAddress. case_one; [done|]. zbool.
  destruct buf as [|t buf]; [done|]. apply bytes_ok_cons in Hok as [Ht Hok].
  rewrite idx_cons_0. rewrite len_cons in *.
  case_one; [|case_one; [|case_one; [|done]]]; zbool; subst t.
  - case_one; [done|]. zbool. intros [= <- <-].
    destruct (cut_at buf 6) as (w & rest & -> & Hw); [lia|].
    destruct (cut_at w 4) as (x & p & -> & Hx); [lia|].
    rewrite len_app in Hw. apply (len_eq x 4) in Hx. assert (length p = 2%nat) as Hp.
    { apply len_eq. rewrite (proj2 (len_eq x 4)) in Hw; lia. }
    apply bytes_ok_app in Hok as [[??]%bytes_ok_app ?]. explode.
    eexists (AddrIPv4 :: [_; _; _; _] ++ [_; _]), rest. repeat split. by constructor.
  - case_one; [done|]. zbool. intros [= <- <-].
    destruct (cut_at buf 18) as (w & rest & -> & Hw); [lia|].
    destruct (cut_at w 16) as (x & p & -> & Hx); [lia|].
    rewrite len_app in Hw. apply (len_eq x 16) in Hx. assert (length p = 2%nat) as Hp.
    { apply len_eq. rewrite (proj2 (len_eq x 16)) in Hw; lia. }
    apply bytes_ok_app in Hok as [[??]%bytes_ok_app ?]. explode.
    eexists (AddrIPv6 :: [_;_;_;_;_;_;_;_;_;_;_;_;_;_;_;_] ++ [_; _]), rest.
    repeat split. by constructor.
  - case_one; [done|]. zbool. destruct buf as [|l buf]; [done|].
    apply bytes_ok_cons in Hok as [Hl Hok]. unfold in_width in Hl. change (2 ^ 8) with 256 in Hl.
    rewrite idx_cons_1. rewrite len_cons in *. case_one; [done|]. zbool. intros [= <- <-].
    destruct (cut_at buf (l + 2)) as (w & rest & -> & Hw); [lia|].
    destruct (cut_at w l) as (d & p & -> & Hd); [lia|]. subst l.
    rewrite len_app in Hw. assert (length p = 2%nat) as Hp by (apply len_eq; lia).
    apply bytes_ok_app in Hok as [[??]%bytes_ok_app ?].
    exists (AddrDomain :: len d :: d ++ p), rest. split; [done|]. split.
    + replace (AddrDomain :: len d :: (d ++ p) ++ rest)
        with ((AddrDomain :: len d :: d) ++ p ++ rest) by (cbn; by rewrite <- app_assoc).
      rewrite (slice_app _ _ _ (2 + len d)) by (autorewrite with go; lia). cbn [app].
      replace (AddrDomain :: len d :: d ++ p ++ rest)
        with ([AddrDomain; len d] ++ d ++ p ++ rest) by done.
      rewrite slice_app by (autorewrite with go; lia). constructor; [lia|done..].
    + autorewrite with go. lia.
Qed.

(** *** Stream readers *)

Lemma readU8_app b rest s :
  unread s = b :: rest -> readU8 s = (Ok b, set_unread rest s).
Proof.
  intros. unfold readU8, readFull.
  by rewrite (io_bind_step _ _ _ _ _ (io_ReadFull_app 1 [b] rest s eq_refl H)).
Qed.

Lemma readFull_app n bs rest s :
  len bs = n -> unread s = bs ++ rest -> readFull n s = (Ok bs, set_unread rest s).
Proof. apply io_ReadFull_app. Qed.

Lemma readU8_ok s b s' :
  readU8 s = (Ok b, s') -> unread s = b :: unread s' /\ s' = set_unread (unread s') s.
Proof.
  intros (bs & s1 & H1 & H2)%io_bind_ok. apply io_ret_ok in H2 as [-> ->].
  apply io_ReadFull_ok in H1 as (Hl & Hs & Hu); [|done].
  apply (len_eq bs 1) in Hl. explode. done.
Qed.

Lemma readFull_ok n s bs s' :
  readFull n s = (Ok bs, s') -> 0 <= n ->
  len bs = n /\ s' = set_unread (unread s') s /\ unread s = bs ++ unread s'.
Proof. apply io_ReadFull_ok. Qed.

Lemma ReadAddress_complete a w rest s :
  Wire a w -> unread s = w ++ rest -> ReadAddress s = (Ok a, set_unread rest s).
Proof.
  destruct 1 as [a p Ha Hp | a p Ha Hp | d p Hd Hp]; intros Hu; unfold ReadAddress;
    cbn [app] in Hu; rewrite (io_bind_step _ _ _ _ _ (readU8_app _ _ _ Hu)).
  - cbn [Z.eqb Pos.eqb AddrIPv4].
    erewrite io_bind_step; [|eapply readFull_app; [|reflexivity]; apply (len_eq _ 6);
      rewrite length_app; lia].
    by explode.
  - cbn [Z.eqb Pos.eqb AddrIPv4 AddrIPv6 AddrDomain].
    erewrite io_bind_step; [|eapply readFull_app; [|reflexivity]; apply (len_eq _ 18);
      rewrite length_app; lia].
    by explode.
  - cbn [Z.eqb Pos.eqb AddrIPv4 AddrDomain].
    erewrite io_bind_step; [|by eapply readU8_app].
    erewrite io_bind_step; [|eapply readFull_app; [|reflexivity]; rewrite len_app;
      apply (len_eq p 2) in Hp; lia].
    io_step. unfold DomainAddress. do 3 f_equal; [|by rewrite slice_from_app].
    replace (d ++ p) with ([] ++ d ++ p) by done. by rewrite slice_app.
Qed.

Lemma ReadAddress_sound s a s' :
  bytes_ok (unread s) -> ReadAddress s = (Ok a, s') ->
  exists w, Wire a w /\ unread s = w ++ unread s' /\ s' = set_unread (unread s') s.
Proof.
  intros Hok (t & s1 & [Hu1 Hs1]%readU8_ok & H)%io_bind_ok.
  rewrite Hu1 in Hok. apply bytes_ok_cons in Hok as [_ Hok].
  case_one_in H; [|case_one_in H; [|case_one_in H; [|done]]]; zbool; subst t.
  - apply io_bind_ok in H as (b & s2 & (Hl & Hs2 & Hu2)%readFull_ok & [-> ->]%io_ret_ok); [|done].
    apply (len_eq b 6) in Hl. rewrite Hu2 in Hok. apply bytes_ok_app in Hok as [Hok _]. explode.
    eexists (AddrIPv4 :: [_;_;_;_] ++ [_;_]). split; [|rewrite Hu1, Hu2, Hs2, Hs1; by split].
    change [?a;?b;?c;?d;?e;?f] with ([a;b;c;d] ++ [e;f]) in Hok.
    apply bytes_ok_app in Hok as [??]. by constructor.
  - apply io_bind_ok in H as (ln & s2 & [Hu2 Hs2]%readU8_ok & H).
    rewrite Hu2 in Hok. apply bytes_ok_cons in Hok as [Hln Hok].
    unfold in_width in Hln. change (2 ^ 8) with 256 in Hln.
    apply io_bind_ok in H as (b & s3 & (Hl & Hs3 & Hu3)%readFull_ok & [-> ->]%io_ret_ok); [|lia].
    rewrite Hu3 in Hok. apply bytes_ok_app in Hok as [Hok _].
    destruct (cut_at b ln) as (d & p & -> & <-); [lia|].
    apply bytes_ok_app in Hok as [??]. rewrite len_app in Hl.
    exists (AddrDomain :: len d :: d ++ p). split.
    + rewrite slice_from_app by done.
      replace (d ++ p) with ([] ++ d ++ p) at 1 by done. rewrite slice_app by done.
      constructor; [lia | apply len_eq; lia | done..].
    + rewrite Hu1, Hu2, Hu3, Hs3, Hs2, Hs1. by split.
  - apply io_bind_ok in H as (b & s2 & (Hl & Hs2 & Hu2)%readFull_ok & [-> ->]%io_ret_ok); [|done].
    apply (len_eq b 18) in Hl. rewrite Hu2 in Hok. apply bytes_ok_app in Hok as [Hok _].
    destruct (cut_at b 16) as (x & p & -> & Hx); [unfold len; lia|].
    apply (len_eq x 16) in Hx. rewrite length_app in Hl. assert (length p = 2%nat) by lia.
    apply bytes_ok_app in Hok as [??].
    exists (AddrIPv6 :: x ++ p). split; [|rewrite Hu1, Hu2, Hs2, Hs1; by split].
    explode. by constructor.
Qed.

(** *** Encoders *)

Lemma Wire_AppendTo a w b : Wire a w -> Address_AppendTo a b = Ok (b ++ w).
Proof.
  destruct 1 as [a p Ha Hp Hoa Hop | a p Ha Hp Hoa Hop | d p Hd Hp Hod Hop];
    unfold Address_AppendTo, SocketAddress, DomainAddress; cbn [Socket Domain Port ap_Addr ap_Port].
  - cbn [Is4 AddrFrom4]. rewrite As4_AddrFrom4, (be_bytes_value_n 2 p) by done.
    cbn. by rewrite <- !app_assoc.
  - cbn [Is4 AddrFrom16]. rewrite As16_AddrFrom16, (be_bytes_value_n 2 p) by done.
    cbn. by rewrite <- !app_assoc.
  - rewrite (proj2 (Z.ltb_ge 255 _)) by lia.
    rewrite (be_bytes_value_n 2 p) by done. pose proof (len_nonneg d).
    rewrite wrap_id by (unfold in_width; lia). by rewrite <- !app_assoc.
Qed.

Lemma Wire_len a w : Wire a w -> len w = Address_Len a.
Proof.
  destruct 1 as [a p Ha Hp | a p Ha Hp | d p Hd Hp]; unfold Address_Len; cbn;
    rewrite len_cons; [| |rewrite len_cons]; rewrite len_app; unfold len; rewrite ?Ha, ?Hp; lia.
Qed.

Lemma Wire_exists a : Address_ok a -> exists w, Wire a w.
Proof.
  unfold Address_ok. destruct a as [[[ip port]|] d q]; cbn.
  - intros ([Hip Hport] & Hv & Hz & -> & ->). cbn in *.
    assert (be_value (be_bytes 2 port) = port) as Hpe by (by apply be_value_bytes_id).
    rewrite <- Hpe. destruct ip as [|v|v [|??]]; cbn in Hv, Hz; try discriminate.
    + exists (AddrIPv4 :: be_bytes 4 v ++ be_bytes 2 port).
      rewrite <- (be_value_bytes_id 4 v) at 1 by done.
      apply Wire_v4; auto using length_be_bytes with wf.
    + destruct Hip as [Hip _]. exists (AddrIPv6 :: be_bytes 16 v ++ be_bytes 2 port).
      rewrite <- (be_value_bytes_id 16 v) at 1 by done.
      apply Wire_v6; auto using length_be_bytes with wf.
  - intros (Hd & Hl & Hq). rewrite <- (be_value_bytes_id 2 q) by done.
    exists (AddrDomain :: len d :: d ++ be_bytes 2 q).
    apply Wire_domain; auto using length_be_bytes with wf.
Qed.

Lemma Wire_Address_ok a w : Wire a w -> Address_ok a.
Proof.
  assert (forall p, length p = 2%nat -> bytes_ok p -> u16 (be_value p)) as Hport.
  { intros p Hl Hp. pose proof (be_value_bound p Hp) as Hb. unfold len in Hb.
    by rewrite Hl in Hb. }
  destruct 1; unfold Address_ok, SocketAddress, DomainAddress, AddrPort_ok;
    cbn [Socket Domain Port ap_Addr ap_Port]; auto 8 with wf.
Qed.

Lemma Wire_bytes_ok a w : Wire a w -> bytes_ok w.
Proof.
  destruct 1; repeat (apply bytes_ok_cons; split); rewrite ?bytes_ok_app; try done.
  pose proof (len_nonneg d). unfold in_width. lia.
Qed.

Lemma Wire_nonempty a w : Wire a w -> 1 <= len w.
Proof. destruct 1; rewrite len_cons; [pose proof (len_nonneg (a ++ p)); lia..|].
  pose proof (len_nonneg (len d :: d ++ p)); lia. Qed.

(** ** Properties *)

(** C30: [ParseAddress] implements the wire format: on any buffer it succeeds
    with [a] and length [n] exactly when the first [n] bytes are the encoding
    of [a], and then [n] is within [MaxSerializedLen]. *)
Theorem ParseAddress_refines_wire buf a n :
  bytes_ok buf ->
  (ParseAddress buf = Ok (a, n) <->
   exists w rest, buf = w ++ rest /\ Wire a w /\ len w = n /\ n <= MaxSerializedLen).
Proof.
  intros Hok. split.
  - intros (w & rest & Hb & Hw & Hn)%ParseAddress_sound; [|done].
    exists w, rest. split_and!; [done..|]. subst n.
    destruct Hw as [x p Hx Hp|x p Hx Hp|d p Hd Hp]; autorewrite with go;
      apply (len_eq p 2) in Hp; unfold MaxSerializedLen; try lia;
      unfold len in *; lia.
  - intros (w & rest & -> & Hw & <- & _). by apply ParseAddress_complete.
Qed.

Lemma ParseAddress_refines_wire_witness :
  ParseAddress [1; 10; 0; 0; 1; 1; 187; 7]
    = Ok (SocketAddress (AddrPortFrom (Addr4 167772161) 443), 7) /\
  (exists w rest, [1; 10; 0; 0; 1; 1; 187; 7] = w ++ rest /\
     Wire (SocketAddress (AddrPortFrom (Addr4 167772161) 443)) w /\ len w = 7 /\
     7 <= MaxSerializedLen).
Proof.
  split; [reflexivity|]. apply ParseAddress_refines_wire; [by_decide|reflexivity].
Defined.

(** The two address parsers agree. On every byte stream [ReadAddress]
    succeeds exactly when [ParseAddress] does on the same bytes, with the same
    address, and leaves the stream just after the bytes [ParseAddress] counts;
    nothing else of the connection changes. *)
Theorem ReadAddress_agrees_ParseAddress s :
  bytes_ok (unread s) ->
  match ReadAddress s with
  | (Ok a, s') =>
      exists n, ParseAddress (unread s) = Ok (a, n) /\
                s' = set_unread (slice_from (unread s) n) s
  | (Err _, _) => exists e, ParseAddress (unread s) = Err e
  end.
Proof.
  intros Hok. destruct (ReadAddress s) as [[a|e] s'] eqn:HR.
  - apply ReadAddress_sound in HR as (w & Hw & Hu & Hs); [|done].
    exists (len w). rewrite Hu. split; [by apply ParseAddress_complete|].
    by rewrite slice_from_app.
  - destruct (ParseAddress (unread s)) as [[a n]|e'] eqn:HP; [|eauto].
    apply ParseAddress_sound in HP as (w & rest & Hu & Hw & Hn); [|done].
    rewrite (ReadAddress_complete a w rest s Hw Hu) in HR. done.
Qed.

Lemma ReadAddress_agrees_witness :
  match ReadAddress (mkStream [3; 2; 104; 105; 0; 80; 9] EOF [] (fun _ => None)) with
  | (Ok a, s') =>
      exists n, ParseAddress [3; 2; 104; 105; 0; 80; 9] = Ok (a, n) /\
        s' = set_unread (slice_from [3; 2; 104; 105; 0; 80; 9] n)
               (mkStream [3; 2; 104; 105; 0; 80; 9] EOF [] (fun _ => None))
  | (Err _, _) => exists e, ParseAddress [3; 2; 104; 105; 0; 80; 9] = Err e
  end.
Proof.
  apply (ReadAddress_agrees_ParseAddress
           (mkStream [3; 2; 104; 105; 0; 80; 9] EOF [] (fun _ => None))).
  by_decide.
Defined.

(** C39: encoding then decoding an address is the identity: every address that
    has an encoding is written as [Address_Len] bytes after what was in the
    buffer, and both parsers give the address back, whatever follows. *)
Theorem Address_roundtrip a b rest s :
  Address_ok a ->
  exists w, Address_AppendTo a b = Ok (b ++ w) /\ len w = Address_Len a /\
    ParseAddress (w ++ rest) = Ok (a, Address_Len a) /\
    ReadAddress (set_unread (w ++ rest) s) = (Ok a, set_unread rest s).
Proof.
  intros [w Hw]%Wire_exists. exists w. pose proof (Wire_len a w Hw) as Hl.
  split; [by apply Wire_AppendTo|]. split; [done|]. split.
  - rewrite <- Hl. by apply ParseAddress_complete.
  - by rewrite (ReadAddress_complete a w rest).
Qed.

Lemma Address_roundtrip_witness :
  exists w, Address_AppendTo (DomainAddress (str "example.org") 8443) [5] = Ok ([5] ++ w) /\
    len w = Address_Len (DomainAddress (str "example.org") 8443) /\
    ParseAddress (w ++ [1; 2]) = Ok (DomainAddress (str "example.org") 8443,
                                     Address_Len (DomainAddress (str "example.org") 8443)) /\
    ReadAddress (set_unread (w ++ [1; 2]) (mkStream [] EOF [] (fun _ => None)))
      = (Ok (DomainAddress (str "example.org") 8443),
         set_unread [1; 2] (mkStream [] EOF [] (fun _ => None))).
Proof.
  apply Address_roundtrip. by_decide.
Defined.

(** *** UDP relay packets *)

Lemma ParseUdpHeader_app r0 r1 frag a w rest :
  Wire a w ->
  ParseUdpHeader ([r0; r1; frag] ++ w ++ rest) = Ok (mkUdpHeader frag a, 3 + len w).
Proof.
  intros Hw. unfold ParseUdpHeader.
  pose proof (len_nonneg w). pose proof (len_nonneg rest). len_false.
  rewrite slice_from_app by done. by rewrite (ParseAddress_complete a w rest).
Qed.

Lemma BuildUdpPacket_wire frag a w payload :
  Wire a w -> BuildUdpPacket frag a payload = Ok ([0; 0; frag] ++ w ++ payload).
Proof.
  intros Hw. unfold BuildUdpPacket.
  destruct Hw as [x p Hx Hp Hox Hop | x p Hx Hp Hox Hop | d p Hd Hp Hod Hop];
    unfold SocketAddress, DomainAddress; cbn [Socket Domain Port ap_Addr ap_Port].
  - cbn [Is4 AddrFrom4]. rewrite As4_AddrFrom4, (be_bytes_value_n 2 p) by done.
    cbn. by rewrite <- !app_assoc.
  - cbn [Is4 AddrFrom16]. rewrite As16_AddrFrom16, (be_bytes_value_n 2 p) by done.
    cbn. by rewrite <- !app_assoc.
  - rewrite (be_bytes_value_n 2 p) by done. pose proof (len_nonneg d).
    rewrite wrap_id by (unfold in_width; lia). cbn. by rewrite <- !app_assoc.
Qed.

Lemma ReadUdpHeader_complete r0 r1 frag a w rest s :
  Wire a w -> unread s = [r0; r1; frag] ++ w ++ rest ->
  ReadUdpHeader s = (Ok (mkUdpHeader frag a, 3 + len w), set_unread rest s).
Proof.
  intros Hw Hu. unfold ReadUdpHeader.
  erewrite io_bind_step; [|by eapply (readFull_app 3 [_; _; _])].
  erewrite io_bind_step; [|by eapply ReadAddress_complete].
  io_step. unfold UdpHeader_Len. cbn [uh_Address]. by rewrite (Wire_len a w).
Qed.

Lemma ParseUdpHeader_sound buf h n :
  bytes_ok buf -> ParseUdpHeader buf = Ok (h, n) ->
  exists r0 r1 w rest,
    buf = [r0; r1; uh_Frag h] ++ w ++ rest /\ Wire (uh_Address h) w /\ n = 3 + len w.
Proof.
  intros Hok. unfold ParseUdpHeader. case_one; [done|]. zbool.
  destruct (cut_at buf 3) as (x & r & -> & Hx); [lia|].
  rewrite slice_from_app by done. apply (len_eq x 3) in Hx. explode.
  apply bytes_ok_app in Hok as [_ Hok].
  destruct (ParseAddress r) as [[a k]|] eqn:HP; [|done]. intros [= <- <-].
  apply ParseAddress_sound in HP as (w & rest & -> & Hw & <-); [|done].
  by eexists _, _, w, rest.
Qed.

(** A relay packet built by [BuildUdpPacket] parses back to its fragment
    number, address and payload: the header [ParseUdpHeader] returns is the one
    given, and the bytes after the length it reports are the payload. *)
Theorem BuildUdpPacket_roundtrip frag a payload :
  Address_ok a ->
  exists pkt, BuildUdpPacket frag a payload = Ok pkt /\
    ParseUdpHeader pkt = Ok (mkUdpHeader frag a, UdpHeader_Len (mkUdpHeader frag a)) /\
    slice_from pkt (UdpHeader_Len (mkUdpHeader frag a)) = payload.
Proof.
  intros [w Hw]%Wire_exists. exists ([0; 0; frag] ++ w ++ payload).
  unfold UdpHeader_Len. cbn [uh_Address]. rewrite <- (Wire_len a w Hw).
  split; [by apply BuildUdpPacket_wire|]. split; [by apply ParseUdpHeader_app|].
  rewrite app_assoc, slice_from_app; [done|]. autorewrite with go. lia.
Qed.

Lemma BuildUdpPacket_roundtrip_witness :
  exists pkt, BuildUdpPacket 0 (SocketAddress (AddrPortFrom (Addr6 1 []) 53)) [7; 8; 9] = Ok pkt /\
    ParseUdpHeader pkt
      = Ok (mkUdpHeader 0 (SocketAddress (AddrPortFrom (Addr6 1 []) 53)),
            UdpHeader_Len (mkUdpHeader 0 (SocketAddress (AddrPortFrom (Addr6 1 []) 53)))) /\
    slice_from pkt (UdpHeader_Len (mkUdpHeader 0 (SocketAddress (AddrPortFrom (Addr6 1 []) 53))))
      = [7; 8; 9].
Proof. apply BuildUdpPacket_roundtrip. by_decide. Defined.

(** The slice parser and the stream parser of the UDP header agree. *)
Lemma ReadUdpHeader_agrees s h n :
  bytes_ok (unread s) -> ParseUdpHeader (unread s) = Ok (h, n) ->
  ReadUdpHeader s = (Ok (h, n), set_unread (slice_from (unread s) n) s).
Proof.
  intros Hok (r0 & r1 & w & rest & Hu & Hw & ->)%ParseUdpHeader_sound; [|done].
  erewrite ReadUdpHeader_complete by done. rewrite Hu, app_assoc, slice_from_app.
  - by destruct h.
  - autorewrite with go. lia.
Qed.

(** *** Requests and responses *)

(** A connection on which no write fails. *)
Definition writes_ok (s : stream) : Prop := forall k, werr s k = None.

Definition add_sent (b : bytes) (s : stream) : stream :=
  mkStream (unread s) (rerr s) (sent s ++ [b]) (werr s).

Lemma io_Write_ok b s : writes_ok s -> io_Write b s = (Ok tt, add_sent b s).
Proof. intros H. unfold io_Write. by rewrite H. Qed.

Lemma writes_ok_add b s : writes_ok s -> writes_ok (add_sent b s).
Proof. done. Qed.

Lemma Command_roundtrip c : ParseCommand (Command_Byte c) = Ok c.
Proof. by destruct c. Qed.

Lemma ReadRequest_wire cmd a rsv w rest s :
  Wire a w -> unread s = [Version5; Command_Byte cmd; rsv] ++ w ++ rest ->
  ReadRequest s = (Ok (mkRequest cmd a), set_unread rest s).
Proof.
  intros Hw Hu. unfold ReadRequest.
  erewrite io_bind_step; [|by eapply readU8_app].
  erewrite io_bind_step; [|reflexivity].
  erewrite io_bind_step; [|by eapply (readFull_app 2 [_; _])].
  erewrite io_bind_step; [|by unfold lift; rewrite idx_cons_0, Command_roundtrip].
  erewrite io_bind_step; [|by eapply ReadAddress_complete]. done.
Qed.

(** A request written by [Request_MarshalTo] is read back by [ReadRequest]:
    the bytes it puts on the wire are consumed exactly, whatever follows them. *)
Theorem Request_roundtrip req s rest s2 :
  Address_ok (rq_Address req) -> writes_ok s -> sent s = [] ->
  exists s', Request_MarshalTo req s = (Ok tt, s') /\
    ReadRequest (set_unread (concat (sent s') ++ rest) s2) = (Ok req, set_unread rest s2).
Proof.
  intros [w Hw]%Wire_exists Hs Hsent. unfold Request_MarshalTo, Address_MarshalTo, writeAll.
  eexists. split.
  - erewrite io_bind_step by (by apply io_Write_ok).
    erewrite io_bind_step; [|by unfold lift; rewrite (Wire_AppendTo _ w)].
    by apply io_Write_ok.
  - cbn. rewrite Hsent. cbn. rewrite app_nil_r. destruct req as [c a].
    by erewrite (ReadRequest_wire c a 0 w rest).
Qed.

Lemma Request_roundtrip_witness :
  exists s', Request_MarshalTo (mkRequest CmdUDPAssociate Unspecified)
                (mkStream [] EOF [] (fun _ => None)) = (Ok tt, s') /\
    ReadRequest (set_unread (concat (sent s') ++ [9]) (mkStream [] EOF [] (fun _ => None)))
      = (Ok (mkRequest CmdUDPAssociate Unspecified),
         set_unread [9] (mkStream [] EOF [] (fun _ => None))).
Proof. apply Request_roundtrip; [by_decide | done | done]. Defined.

Lemma Response_MarshalTo_wire resp w s :
  Wire (rs_Address resp) w -> writes_ok s ->
  Response_MarshalTo resp s
    = (Ok tt, add_sent ([Version5; Reply_Byte (rs_Reply resp); 0] ++ w) s).
Proof.
  intros Hw Hs. unfold Response_MarshalTo, writeAll.
  erewrite io_bind_step; [|by unfold lift; rewrite (Wire_AppendTo _ w)].
  by apply io_Write_ok.
Qed.

Lemma Reply_roundtrip r : ParseReply (Reply_Byte r) = Ok r.
Proof. by destruct r. Qed.
