(* ===== verification/Ext.v ===== *)
(** * Username extensions and random numbers (packages [ext] and [randx])

    Models [internal/ext/ext.go] (the FxHash of a byte slice and the parser of
    the [-session-], [-ttl-] and [-range-] extensions) and the value that
    [internal/randx/rand.go] draws. The clock that [parseTTL] reads is an
    argument, [now]. *)

From Stdlib Require Import ZArith Lia.
From stdpp Require Import base tactics numbers list strings.
From S2P Require Import Prelude.

Inductive ExtensionType := ExtNone | ExtTTL | ExtRange | ExtSession.

#[export] Instance ExtensionType_eq_dec : EqDecision ExtensionType.
Proof. solve_decision. Defined.

Record Extension := mkExtension { ext_Type : ExtensionType; ext_Value : Z }.

#[export] Instance Extension_eq_dec : EqDecision Extension.
Proof. solve_decision. Defined.

(** The zero value, [ext.None]. *)
Definition ext_None : Extension := mkExtension ExtNone 0.

Definition extTTL : bytes := str "-ttl-".
Definition extSession : bytes := str "-session-".
Definition extRange : bytes := str "-range-".

Definition rotl64 (x r : Z) : Z := Z.lor (shl 64 x r) (shr 64 x (64 - r)).

Definition fx_mult : Z := 0x517cc1b727220a95.

(** [hash = (rotl64(hash, 5) ^ n) * mult] *)
Definition fx_add (hash n : Z) : Z := wrap 64 (Z.lxor (rotl64 hash 5) n * fx_mult).

(** The loop over whole 8-byte words: the hash and the bytes that remain. *)
Fixpoint fx_words (hash : Z) (data : bytes) : Z * bytes :=
  match data with
  | d0 :: d1 :: d2 :: d3 :: d4 :: d5 :: d6 :: d7 :: rest =>
      let n := Z.lor (Z.lor (Z.lor (Z.lor (Z.lor (Z.lor (Z.lor d0
                 (shl 64 d1 8)) (shl 64 d2 16)) (shl 64 d3 24)) (shl 64 d4 32))
                 (shl 64 d5 40)) (shl 64 d6 48)) (shl 64 d7 56) in
      fx_words (fx_add hash n) rest
  | _ => (hash, data)
  end.

(** The at most seven bytes after the last whole word. *)
Definition fx_tail (hash : Z) (rem : bytes) : Z :=
  let '(hash, rem) :=
    if 4 <=? len rem then
      let n := Z.lor (Z.lor (Z.lor (idx rem 0) (shl 64 (idx rem 1) 8))
                 (shl 64 (idx rem 2) 16)) (shl 64 (idx rem 3) 24) in
      (fx_add hash n, slice_from rem 4)
    else (hash, rem) in
  let '(hash, rem) :=
    if 2 <=? len rem then
      let n := Z.lor (idx rem 0) (shl 64 (idx rem 1) 8) in
      (fx_add hash n, slice_from rem 2)
    else (hash, rem) in
  if 1 <=? len rem then fx_add hash (idx rem 0) else hash.

Definition fxHash64 (data : bytes) : Z :=
  let '(hash, rem) := fx_words 0 data in
  fx_tail hash rem.

(** The hash of the start of the current window of [ttl] seconds. *)
Definition parseTTL (now : Z) (s : bytes) : Extension :=
  match ParseUint s 64 with
  | Err _ => ext_None
  | Ok ttl =>
      if ttl =? 0 then ext_None
      else
        let window := wrap 64 (now - now `mod` ttl) in
        mkExtension ExtTTL (fxHash64 (u64_bytes window))
  end.

Definition TryFrom (now : Z) (prefix full : bytes) : Extension :=
  let '(extracted, hasPrefix) := CutPrefix full prefix in
  if negb hasPrefix then ext_None
  else if Contains full extSession then mkExtension ExtSession (fxHash64 full)
  else if Contains extracted extTTL then
    parseTTL now (TrimPrefix extracted extTTL)
  else if Contains extracted extRange then
    mkExtension ExtRange (fxHash64 (TrimPrefix extracted extRange))
  else ext_None.

(** [RandomU128]: the sixteen bytes of two 64-bit draws, most significant first. *)
Definition RandomU128 (hi lo : Z) : bytes := u64_bytes hi ++ u64_bytes lo.

(** ** The hash against its definition *)

(** Little-endian value of a byte list. *)
Fixpoint le_value (bs : bytes) : Z :=
  match bs with [] => 0 | b :: r => b + 256 * le_value r end.

(** FxHash as published: rotate left by five, xor in the next word, multiply
    modulo 2^64; the words are the input cut into chunks of 8 bytes, then at
    most one of 4, one of 2 and one of 1, read little-endian. *)
Definition fx_step (h : Z) (chunk : bytes) : Z :=
  (Z.lxor ((h * 2 ^ 5) `mod` 2 ^ 64 + h / 2 ^ 59) (le_value chunk) * fx_mult) `mod` 2 ^ 64.

Definition chunk_size (n : Z) : Z :=
  if 8 <=? n then 8 else if 4 <=? n then 4 else if 2 <=? n then 2 else if 1 <=? n then 1 else 0.

Fixpoint fx_chunks (fuel : nat) (data : bytes) : list bytes :=
  match fuel with
  | O => []
  | S f =>
      let n := chunk_size (len data) in
      if n =? 0 then [] else slice data 0 n :: fx_chunks f (slice_from data n)
  end.

Definition fxHash64_spec (data : bytes) : Z :=
  foldl fx_step 0 (fx_chunks (length data) data).

Lemma rotl64_spec h : u64 h -> rotl64 h 5 = (h * 2 ^ 5) `mod` 2 ^ 64 + h / 2 ^ 59.
Proof.
  intros Hh. unfold rotl64. rewrite shl_spec, shr_spec by done.
  unfold wrap. change (64 - 5) with 59. unfold in_width in Hh.
  replace ((h * 2 ^ 5) `mod` 2 ^ 64) with (h `mod` 2 ^ 59 * 2 ^ 5).
  - apply lor_add_disjoint; [done|]. split; [apply Z.div_pos; lia|].
    apply Z.div_lt_upper_bound; lia.
  - rewrite (Z.mul_comm h), (Z.mul_comm (h `mod` _)).
    change (2 ^ 64) with (2 ^ 5 * 2 ^ 59). by rewrite Z.mul_mod_distr_l.
Qed.

(** [or]-ing in the next byte of a little-endian word is addition. *)
Lemma le_or lo b n :
  0 <= n <= 56 -> 0 <= lo < 2 ^ n -> u8 b ->
  Z.lor lo (shl 64 b n) = lo + b * 2 ^ n /\ 0 <= lo + b * 2 ^ n < 2 ^ (n + 8).
Proof.
  intros Hn Hlo Hb. unfold in_width in Hb. change (2 ^ 8) with 256 in Hb.
  assert (0 <= lo + b * 2 ^ n < 2 ^ (n + 8)).
  { rewrite Z.pow_add_r by lia. change (2 ^ 8) with 256. nia. }
  split; [|done]. rewrite shl_spec by lia. rewrite wrap_id.
  - rewrite Z.lor_comm, lor_add_disjoint by lia. lia.
  - unfold in_width. pose proof (Z.pow_le_mono_r 2 (n + 8) 64). lia.
Qed.

(** Rewrite the next [or] of a little-endian word, given the bound [B] of the
    part already summed. *)
Ltac le_or_next B n :=
  match type of B with
  | 0 <= ?lo < _ =>
      match goal with
      | |- context [Z.lor lo (shl 64 ?b n)] =>
          let B' := fresh "B" in
          destruct (le_or lo b n) as [-> B']; [lia | exact B | assumption |];
          clear B; rename B' into B
      end
  end.

Lemma fx_word2 d0 d1 :
  bytes_ok [d0; d1] -> Z.lor d0 (shl 64 d1 8) = le_value [d0; d1].
Proof.
  unfold bytes_ok. rewrite !Forall_cons. intros (B & H1 & _). unfold in_width in B.
  le_or_next B 8. cbn [le_value]. lia.
Qed.

Lemma fx_word4 d0 d1 d2 d3 :
  bytes_ok [d0; d1; d2; d3] ->
  Z.lor (Z.lor (Z.lor d0 (shl 64 d1 8)) (shl 64 d2 16)) (shl 64 d3 24)
  = le_value [d0; d1; d2; d3].
Proof.
  unfold bytes_ok. rewrite !Forall_cons. intros (B & H1 & H2 & H3 & _). unfold in_width in B.
  le_or_next B 8. le_or_next B 16. le_or_next B 24. cbn [le_value]. lia.
Qed.

Lemma fx_word8 d0 d1 d2 d3 d4 d5 d6 d7 :
  bytes_ok [d0; d1; d2; d3; d4; d5; d6; d7] ->
  Z.lor (Z.lor (Z.lor (Z.lor (Z.lor (Z.lor (Z.lor d0
    (shl 64 d1 8)) (shl 64 d2 16)) (shl 64 d3 24)) (shl 64 d4 32))
    (shl 64 d5 40)) (shl 64 d6 48)) (shl 64 d7 56)
  = le_value [d0; d1; d2; d3; d4; d5; d6; d7].
Proof.
  unfold bytes_ok. rewrite !Forall_cons.
  intros (B & H1 & H2 & H3 & H4 & H5 & H6 & H7 & _). unfold in_width in B.
  le_or_next B 8. le_or_next B 16. le_or_next B 24. le_or_next B 32.
  le_or_next B 40. le_or_next B 48. le_or_next B 56. cbn [le_value]. lia.
Qed.

Lemma fx_add_step h chunk n : u64 h -> n = le_value chunk -> fx_add h n = fx_step h chunk.
Proof. intros Hh ->. unfold fx_add, fx_step, wrap. by rewrite rotl64_spec. Qed.

Lemma fx_step_width h chunk : u64 (fx_step h chunk).
Proof. apply Z.mod_pos_bound. lia. Qed.

(** Cutting off a chunk of the right size. *)
Lemma fx_chunks_app f c rest :
  chunk_size (len c + len rest) = len c -> len c <> 0 ->
  fx_chunks (S f) (c ++ rest) = c :: fx_chunks f rest.
Proof.
  intros Hn Hc. cbn [fx_chunks]. rewrite len_app, Hn.
  rewrite (proj2 (Z.eqb_neq _ 0)) by done.
  rewrite slice_from_app by done. replace (c ++ rest) with ([] ++ c ++ rest) by done.
  by rewrite slice_app.
Qed.

Lemma fx_chunks_short f data : len data = 0 -> fx_chunks f data = [].
Proof. intros Hd. apply (len_eq data 0) in Hd. explode. by destruct f. Qed.

(** Decide a chunk size. *)
Ltac chunk_size_lia :=
  unfold chunk_size;
  repeat match goal with
  | |- context [?a <=? ?b] =>
      first [rewrite (proj2 (Z.leb_le a b)) by lia | rewrite (proj2 (Z.leb_gt a b)) by lia]
  end; lia.

Lemma fx_tail1 f h rem :
  u64 h -> len rem < 2 -> (length rem <= f)%nat ->
  (if 1 <=? len rem then fx_add h (idx rem 0) else h) = foldl fx_step h (fx_chunks f rem).
Proof.
  intros Hh Hl Hf. pose proof (len_nonneg rem). case_one; zbool.
  - assert (length rem = 1%nat) as H1 by (apply len_eq; lia). explode.
    destruct f as [|f]; [cbn in Hf; lia|].
    change [z] with ([z] ++ []). rewrite (fx_chunks_app f [z] []) by done. rewrite (fx_chunks_short f) by done.
    cbn [foldl]. apply fx_add_step; [done|].
    change (idx _ 0) with z. cbn [le_value]. lia.
  - rewrite fx_chunks_short by lia. done.
Qed.

Lemma fx_tail2 f h rem :
  u64 h -> bytes_ok rem -> len rem < 4 -> (length rem <= f)%nat ->
  (let '(h, rem) :=
     if 2 <=? len rem
     then (fx_add h (Z.lor (idx rem 0) (shl 64 (idx rem 1) 8)), slice_from rem 2)
     else (h, rem) in
   if 1 <=? len rem then fx_add h (idx rem 0) else h) = foldl fx_step h (fx_chunks f rem).
Proof.
  intros Hh Hok Hl Hf. case_one; zbool; [|apply fx_tail1; auto; lia].
  destruct (cut_at rem 2) as (c & r & -> & Hc); [lia|].
  rewrite slice_from_app by done. rewrite length_app in Hf. rewrite len_app in *.
  apply bytes_ok_app in Hok as [Hok _]. pose proof (len_nonneg r).
  destruct f as [|f]; [unfold len in Hc; lia|].
  rewrite fx_chunks_app by (try lia; rewrite Hc; chunk_size_lia). cbn [foldl].
  rewrite (fx_add_step h c) by
    (auto; apply (len_eq c 2) in Hc; explode; by apply fx_word2).
  apply fx_tail1; [apply fx_step_width | lia | unfold len in Hc; lia].
Qed.

Lemma fx_tail_spec f h rem :
  u64 h -> bytes_ok rem -> len rem < 8 -> (length rem <= f)%nat ->
  fx_tail h rem = foldl fx_step h (fx_chunks f rem).
Proof.
  intros Hh Hok Hl Hf. unfold fx_tail. case_one; zbool; [|apply fx_tail2; auto; lia].
  destruct (cut_at rem 4) as (c & r & -> & Hc); [lia|].
  rewrite slice_from_app by done. rewrite length_app in Hf. rewrite len_app in *.
  apply bytes_ok_app in Hok as [Hok Hokr]. pose proof (len_nonneg r).
  destruct f as [|f]; [unfold len in Hc; lia|].
  rewrite fx_chunks_app by (try lia; rewrite Hc; chunk_size_lia). cbn [foldl].
  rewrite (fx_add_step h c) by
    (auto; apply (len_eq c 4) in Hc; explode; by apply fx_word4).
  apply fx_tail2; [apply fx_step_width | done | lia | unfold len in Hc; lia].
Qed.

Lemma fx_words_spec fuel data h :
  u64 h -> bytes_ok data -> (length data <= fuel)%nat ->
  (let '(h', rem) := fx_words h data in fx_tail h' rem)
  = foldl fx_step h (fx_chunks fuel data).
Proof.
  revert data h. induction fuel as [|f IH]; intros data h Hh Hok Hl.
  { destruct data; [done | cbn in Hl; lia]. }
  destruct (Z.lt_ge_cases (len data) 8) as [Hlt|Hge].
  - replace (fx_words h data) with (h, data); [by apply fx_tail_spec|].
    do 8 (destruct data as [|? data]; [done|]). autorewrite with go in Hlt.
    pose proof (len_nonneg data). lia.
  - destruct (cut_at data 8) as (c & r & -> & Hc); [lia|].
    rewrite length_app in Hl. rewrite len_app in Hge. pose proof (len_nonneg r).
    rewrite fx_chunks_app by (try lia; rewrite Hc; chunk_size_lia). cbn [foldl].
    apply bytes_ok_app in Hok as [Hok Hokr].
    apply (len_eq c 8) in Hc. rewrite Hc in Hl.
    rewrite <- (IH r (fx_step h c)) by (auto using fx_step_width; lia).
    explode. cbn [app fx_words]. rewrite fx_word8 by done. by rewrite (fx_add_step _ _ _ Hh eq_refl).
Qed.

(** [fxHash64] is FxHash: for every byte string the word loop and the
    4/2/1-byte tail compute the fold of the published step over the input cut
    into little-endian chunks, and the result is a 64-bit value. *)
Theorem fxHash64_correct data :
  bytes_ok data -> fxHash64 data = fxHash64_spec data /\ u64 (fxHash64 data).
Proof.
  intros Hok. unfold fxHash64.
  rewrite (fx_words_spec (length data)) by (by try done). split; [done|].
  assert (forall l h, u64 h -> u64 (foldl fx_step h l)) as G.
  { induction l; cbn; auto using fx_step_width. }
  by apply G.
Qed.

Lemma fxHash64_correct_witness :
  fxHash64 (str "user-session-abc") = fxHash64_spec (str "user-session-abc") /\
  u64 (fxHash64 (str "user-session-abc")).
Proof. apply fxHash64_correct. by_decide. Defined.

(** ** Parsing a username *)

Lemma window_start now ttl :
  u64 now -> 0 < ttl -> wrap 64 (now - now `mod` ttl) = now / ttl * ttl.
Proof.
  intros Hn Ht. pose proof (Z.div_mod now ttl). pose proof (Z.mod_pos_bound now ttl).
  assert (0 <= now / ttl) by (apply Z.div_pos; unfold in_width in *; lia).
  rewrite wrap_id; [lia|]. unfold in_width in *. nia.
Qed.

Lemma parseTTL_spec now s ttl :
  u64 now -> ParseUint s 64 = Ok ttl -> ttl <> 0 ->
  parseTTL now s = mkExtension ExtTTL (fxHash64 (be_bytes 8 (now / ttl * ttl))).
Proof.
  intros Hn Hp Ht. unfold parseTTL. rewrite Hp.
  apply ParseUint_width in Hp; [|done]. unfold in_width in Hp.
  rewrite (proj2 (Z.eqb_neq ttl 0)) by done. rewrite <- window_start by (auto; lia).
  by rewrite u64_bytes_be by (by apply wrap_width).
Qed.

Lemma Contains_here a s b : Contains (a ++ s ++ b) s = true.
Proof. apply Contains_spec. eauto. Qed.
Lemma Contains_front s b : Contains (s ++ b) s = true.
Proof. apply Contains_spec. by exists [], b. Qed.

(** A time-windowed username is sticky. For a username made of the
    configured prefix, [-ttl-] and a positive decimal number of seconds that
    fits in 64 bits, the extension is the hash of the big-endian start of the
    current window, so two logins whose clocks are in the same window get the
    same extension. *)
Theorem TryFrom_ttl_window prefix s ttl now now' :
  let full := prefix ++ extTTL ++ s in
  Contains full extSession = false -> ParseUint s 64 = Ok ttl -> ttl <> 0 ->
  u64 now -> u64 now' -> now / ttl = now' / ttl ->
  TryFrom now prefix full
    = mkExtension ExtTTL (fxHash64 (be_bytes 8 (now / ttl * ttl))) /\
  TryFrom now' prefix full = TryFrom now prefix full.
Proof.
  cbn zeta. intros Hs Hp Ht Hn Hn' Hw. unfold TryFrom. rewrite CutPrefix_app, Hs. cbn [negb].
  rewrite Contains_front, TrimPrefix_app.
  rewrite (parseTTL_spec now s ttl), (parseTTL_spec now' s ttl) by done.
  by rewrite Hw.
Qed.

Lemma TryFrom_ttl_window_witness :
  TryFrom 1000000030 (str "user") (str "user" ++ extTTL ++ str "60")
    = mkExtension ExtTTL (fxHash64 (be_bytes 8 (1000000030 / 60 * 60))) /\
  TryFrom 1000000050 (str "user") (str "user" ++ extTTL ++ str "60")
    = TryFrom 1000000030 (str "user") (str "user" ++ extTTL ++ str "60").
Proof.
  apply TryFrom_ttl_window; try reflexivity; by_decide.
Defined.

(** A session username gives an extension that depends on nothing but the
    whole username, a range username the hash of what follows its marker, and
    the configured username alone (or any username without it as a prefix)
    gives none. *)
Theorem TryFrom_session_range now prefix id other :
  TryFrom now prefix (prefix ++ extSession ++ id)
    = mkExtension ExtSession (fxHash64 (prefix ++ extSession ++ id)) /\
  (Contains (prefix ++ extRange ++ id) extSession = false ->
   Contains (extRange ++ id) extTTL = false ->
   TryFrom now prefix (prefix ++ extRange ++ id) = mkExtension ExtRange (fxHash64 id)) /\
  (Contains prefix extSession = false -> TryFrom now prefix prefix = ext_None) /\
  (HasPrefix other prefix = false -> TryFrom now prefix other = ext_None).
Proof.
  unfold TryFrom. split_and!.
  - by rewrite CutPrefix_app, Contains_here.
  - intros Hs Ht. rewrite CutPrefix_app, Hs, Ht. cbn [negb].
    by rewrite Contains_front, TrimPrefix_app.
  - intros Hs. replace (CutPrefix prefix prefix) with ([] : bytes, true); [by rewrite Hs|].
    symmetry. rewrite <- (CutPrefix_app prefix []). by rewrite app_nil_r.
  - intros Ho. unfold CutPrefix. by rewrite Ho.
Qed.

Lemma TryFrom_session_range_witness :
  TryFrom 7 (str "user") (str "user" ++ extSession ++ str "abc")
    = mkExtension ExtSession (fxHash64 (str "user" ++ extSession ++ str "abc")) /\
  TryFrom 7 (str "user") (str "user" ++ extRange ++ str "abc")
    = mkExtension ExtRange (fxHash64 (str "abc")) /\
  TryFrom 7 (str "user") (str "user") = ext_None /\
  TryFrom 7 (str "user") (str "other") = ext_None.
Proof.
  destruct (TryFrom_session_range 7 (str "user") (str "abc") (str "other"))
    as (H1 & H2 & H3 & H4).
  split; [exact H1|]. split; [apply H2; reflexivity|]. split; [apply H3 | apply H4]; reflexivity.
Defined.
