(* ===== verification/Uint128.v ===== *)
(** * 128-bit arithmetic (the uint32 and uint128 helpers of [connect.go])

    Models the helpers at the end of [internal/connect/connect.go]: a 128-bit
    value is a pair of 64-bit halves, every operation works on the halves with
    64-bit wrap-around, as written. The theorems relate each operation to the
    integer operation modulo 2^128 it stands for. *)

From Stdlib Require Import ZArith Lia.
From stdpp Require Import base tactics numbers list strings.
From S2P Require Import Prelude.
From S2P Require Import Netip.

(** ** uint32 helpers *)

Definition ipv4ToUint32 (addr : Addr) : result Z :=
  b ← As4 addr;
  Ok (Z.lor (Z.lor (Z.lor (shl 32 (idx b 0) 24) (shl 32 (idx b 1) 16))
        (shl 32 (idx b 2) 8)) (idx b 3)).

Definition uint32ToIPv4 (v : Z) : Addr :=
  AddrFrom4 [wrap 8 (shr 32 v 24); wrap 8 (shr 32 v 16); wrap 8 (shr 32 v 8); wrap 8 v].

(** ** uint128 helpers *)

Record uint128 := mk128 { hi : Z; lo : Z }.

#[export] Instance uint128_eq_dec : EqDecision uint128.
Proof. solve_decision. Defined.

Definition uint128One : uint128 := mk128 0 1.
Definition uint128FromU64 (v : Z) : uint128 := mk128 0 v.
Definition isZeroUint128 (a : uint128) : bool := (hi a =? 0) && (lo a =? 0).

Definition word64 (b : bytes) (o : Z) : Z :=
  Z.lor (Z.lor (Z.lor (Z.lor (Z.lor (Z.lor (Z.lor
    (shl 64 (idx b o) 56) (shl 64 (idx b (o + 1)) 48)) (shl 64 (idx b (o + 2)) 40))
    (shl 64 (idx b (o + 3)) 32)) (shl 64 (idx b (o + 4)) 24)) (shl 64 (idx b (o + 5)) 16))
    (shl 64 (idx b (o + 6)) 8)) (idx b (o + 7)).

Definition bytesToUint128 (b : bytes) : uint128 := mk128 (word64 b 0) (word64 b 8).

Definition ipv6ToUint128 (addr : Addr) : uint128 := bytesToUint128 (As16 addr).

Definition uint128ToIPv6 (a : uint128) : Addr :=
  AddrFrom16 (u64_bytes (hi a) ++ u64_bytes (lo a)).

(** [1 << n]; a [uint] count, zero from 128 on. *)
Definition newUint128LShiftOne (n : Z) : uint128 :=
  if 128 <=? n then mk128 0 0
  else if n <? 64 then mk128 0 (shl 64 1 n)
  else mk128 (shl 64 1 (n - 64)) 0.

(** [(1 << n) - 1] *)
Definition newUint128FromBitRange (n : Z) : uint128 :=
  if 128 <=? n then mk128 (lnot 64 0) (lnot 64 0)
  else if n <? 64 then mk128 0 (wrap 64 (shl 64 1 n - 1))
  else mk128 (wrap 64 (shl 64 1 (n - 64) - 1)) (lnot 64 0).

Definition notUint128 (a : uint128) : uint128 := mk128 (lnot 64 (hi a)) (lnot 64 (lo a)).

Definition andUint128 (a b : uint128) : uint128 :=
  mk128 (Z.land (hi a) (hi b)) (Z.land (lo a) (lo b)).
Definition orUint128 (a b : uint128) : uint128 :=
  mk128 (Z.lor (hi a) (hi b)) (Z.lor (lo a) (lo b)).

Definition shlUint128 (a : uint128) (n : Z) : uint128 :=
  if n =? 0 then a
  else if 128 <=? n then mk128 0 0
  else if n <? 64 then
    mk128 (Z.lor (shl 64 (hi a) n) (shr 64 (lo a) (64 - n))) (shl 64 (lo a) n)
  else mk128 (shl 64 (lo a) (n - 64)) 0.

Definition shrUint128 (a : uint128) (n : Z) : uint128 :=
  if n =? 0 then a
  else if 128 <=? n then mk128 0 0
  else if n <? 64 then
    mk128 (shr 64 (hi a) n) (Z.lor (shr 64 (lo a) n) (shl 64 (hi a) (64 - n)))
  else mk128 0 (shr 64 (hi a) (n - 64)).

Definition subUint128 (a b : uint128) : uint128 :=
  let lo' := wrap 64 (lo a - lo b) in
  let carry := if lo a <? lo b then 1 else 0 in
  mk128 (wrap 64 (wrap 64 (hi a - hi b) - carry)) lo'.

Definition cmpUint128 (a b : uint128) : Z :=
  if negb (hi a =? hi b) then (if hi b <? hi a then 1 else -1)
  else if lo b <? lo a then 1
  else if lo a <? lo b then -1
  else 0.

(** One iteration of the shift-and-subtract loop, for bit index [i]. *)
Definition mod_iter (a b r : uint128) (i : Z) : uint128 :=
  let r := shlUint128 r 1 in
  let r :=
    if negb (Z.land (shr 64 (hi a) (63 - i `mod` 64)) 1 =? 0)
       || ((i <? 64) && negb (Z.land (shr 64 (lo a) (63 - i)) 1 =? 0))
    then if 64 <=? i then mk128 (Z.lor (hi r) (shl 64 1 (i - 64))) (lo r)
         else mk128 (hi r) (Z.lor (lo r) (shl 64 1 i))
    else r in
  if 0 <=? cmpUint128 r b then subUint128 r b else r.

(** [for i := 127; i >= 0; i--], with [n] iterations left. *)
Fixpoint mod_loop (a b r : uint128) (n : nat) : uint128 :=
  match n with
  | O => r
  | S k => mod_loop a b (mod_iter a b r (Z.of_nat k)) k
  end.

Definition modUint128 (a b : uint128) : uint128 :=
  if isZeroUint128 b then a
  else if (hi b =? 0) && (hi a =? 0) then mk128 0 (lo a `mod` lo b)
  else mod_loop a b (mk128 0 0) 128.

(** ** The integer a pair stands for *)

Definition ok128 (a : uint128) : Prop := u64 (hi a) /\ u64 (lo a).

Definition value (a : uint128) : Z := hi a * 2 ^ 64 + lo a.

#[export] Instance ok128_dec a : Decision (ok128 a).
Proof. unfold ok128. apply _. Defined.

Lemma value_bound a : ok128 a -> in_width 128 (value a).
Proof. unfold ok128, in_width, value. lia. Qed.

Lemma value_inj a b : ok128 a -> ok128 b -> value a = value b -> a = b.
Proof.
  destruct a, b; unfold ok128, in_width, value; cbn. intros. f_equal; lia.
Qed.

Lemma value_lor a : ok128 a -> value a = Z.lor (hi a * 2 ^ 64) (lo a).
Proof. intros [_ ?]. symmetry. by apply lor_add_disjoint. Qed.

(** Bits of the pair: the low half below 64, the high half from there. *)
Lemma value_testbit a i :
  ok128 a -> 0 <= i ->
  Z.testbit (value a) i = if i <? 64 then Z.testbit (lo a) i else Z.testbit (hi a) (i - 64).
Proof.
  intros Ha Hi. rewrite value_lor, Z.lor_spec, Z.mul_pow2_bits by done.
  destruct Ha as [_ Hl].
  case_one; zbool.
  - by rewrite Z.testbit_neg_r by lia.
  - rewrite (proj1 (in_width_bits 64 (lo a) ltac:(lia)) Hl) by lia. by rewrite orb_false_r.
Qed.

Lemma ok_and a b : ok128 a -> ok128 b -> ok128 (andUint128 a b).
Proof. intros [??] [??]. split; cbn; auto with wf lia. Qed.
Lemma ok_or a b : ok128 a -> ok128 b -> ok128 (orUint128 a b).
Proof. intros [??] [??]. split; cbn; auto with wf lia. Qed.
Lemma ok_not a : ok128 a -> ok128 (notUint128 a).
Proof. intros [??]. split; cbn; unfold lnot, in_width in *; lia. Qed.
Lemma ok_sub a b : ok128 (subUint128 a b).
Proof. split; cbn; auto with wf lia. Qed.
Lemma ok_shl a n : ok128 a -> 0 <= n -> ok128 (shlUint128 a n).
Proof.
  intros [??] ?. unfold shlUint128. repeat case_one; zbool; try done; split; cbn;
    auto 6 with wf lia; done.
Qed.
Lemma ok_one_shl n : ok128 (newUint128LShiftOne n).
Proof.
  unfold newUint128LShiftOne. repeat case_one; split; cbn; auto with wf lia; done.
Qed.
#[export] Hint Resolve ok_and ok_or ok_not ok_sub ok_shl ok_one_shl : wf.

Lemma value_and a b :
  ok128 a -> ok128 b -> value (andUint128 a b) = Z.land (value a) (value b).
Proof.
  intros Ha Hb. apply Z.bits_inj'. intros i Hi.
  rewrite Z.land_spec, !value_testbit by auto with wf. cbn. by case_one; rewrite Z.land_spec.
Qed.

Lemma value_or a b :
  ok128 a -> ok128 b -> value (orUint128 a b) = Z.lor (value a) (value b).
Proof.
  intros Ha Hb. apply Z.bits_inj'. intros i Hi.
  rewrite Z.lor_spec, !value_testbit by auto with wf. cbn. by case_one; rewrite Z.lor_spec.
Qed.

Lemma value_not a : value (notUint128 a) = 2 ^ 128 - 1 - value a.
Proof. unfold value, notUint128, lnot; cbn. lia. Qed.

Lemma value_sub a b :
  ok128 a -> ok128 b -> value (subUint128 a b) = wrap 128 (value a - value b).
Proof.
  destruct a as [ah al], b as [bh bl]. unfold ok128, subUint128, value; cbn.
  unfold in_width. intros [Hah Hal] [Hbh Hbl].
  rewrite (wrap_diff 64 (ah - bh)), (wrap_diff 64 (al - bl)), (wrap_diff 128) by lia.
  rewrite wrap_diff by (repeat case_one; zbool; lia).
  repeat case_one; zbool; lia.
Qed.

Lemma cmp_spec a b :
  ok128 a -> ok128 b -> (0 <=? cmpUint128 a b) = (value b <=? value a).
Proof.
  destruct a as [ah al], b as [bh bl]. unfold ok128, cmpUint128, value, in_width; cbn.
  intros [Hah Hal] [Hbh Hbl].
  repeat case_one; zbool; symmetry; zbool; try lia; apply Z.leb_le || apply Z.leb_gt; lia.
Qed.

Lemma value_one_shl n : 0 <= n -> value (newUint128LShiftOne n) = wrap 128 (2 ^ n).
Proof.
  intros. unfold newUint128LShiftOne, value. repeat case_one; zbool; cbn [hi lo].
  - unfold wrap. replace (2 ^ n) with (2 ^ (n - 128) * 2 ^ 128)
      by (rewrite <- Z.pow_add_r by lia; f_equal; lia).
    by rewrite Z_mod_mult.
  - rewrite shl_spec by lia. rewrite !wrap_id; [lia|..];
      unfold in_width; pose proof (pow2_pos n); pose proof (Z.pow_lt_mono_r 2 n 64);
      pose proof (Z.pow_le_mono_r 2 n 128); lia.
  - rewrite shl_spec by lia. replace n with ((n - 64) + 64) at 2 by lia.
    rewrite Z.pow_add_r by lia. pose proof (pow2_pos (n - 64)).
    pose proof (Z.pow_lt_mono_r 2 (n - 64) 64).
    rewrite !wrap_id; unfold in_width; lia.
Qed.

Lemma value_bit_range n :
  0 <= n -> value (newUint128FromBitRange n) = 2 ^ Z.min n 128 - 1 /\
            ok128 (newUint128FromBitRange n).
Proof.
  intros. unfold newUint128FromBitRange, value, lnot. repeat case_one; zbool; cbn [hi lo].
  - rewrite Z.min_r by lia. split; [lia|]. split; cbn; unfold in_width; lia.
  - rewrite Z.min_l by lia. rewrite shl_spec by lia. pose proof (pow2_pos n).
    pose proof (Z.pow_lt_mono_r 2 n 64). rewrite !(wrap_id 64) by (try split; unfold in_width; try rewrite wrap_id; unfold in_width; lia).
    split; [lia|]. split; cbn; unfold in_width; lia.
  - rewrite Z.min_l by lia. rewrite shl_spec by lia. pose proof (pow2_pos (n - 64)).
    pose proof (Z.pow_lt_mono_r 2 (n - 64) 64).
    rewrite !(wrap_id 64) by (unfold in_width; try rewrite wrap_id; unfold in_width; lia).
    split; [|split; cbn; unfold in_width; lia].
    replace n with ((n - 64) + 64) at 2 by lia. rewrite Z.pow_add_r by lia. lia.
Qed.

Lemma value_shl a n :
  ok128 a -> 0 <= n -> value (shlUint128 a n) = wrap 128 (value a * 2 ^ n).
Proof.
  destruct a as [h l]. unfold ok128, in_width; cbn [hi lo]. intros [Hh Hl] Hn.
  unfold shlUint128, value, wrap. repeat case_one; zbool; cbn [hi lo].
  - subst n. rewrite Z.mul_1_r, Z.mod_small; lia.
  - replace (2 ^ n) with (2 ^ (n - 128) * 2 ^ 128)
      by (rewrite <- Z.pow_add_r by lia; f_equal; lia).
    by rewrite Z.mul_assoc, Z_mod_mult.
  - rewrite shr_spec by (try lia; unfold in_width; lia). rewrite !shl_low by lia.
    assert (2 ^ n * 2 ^ (64 - n) = 2 ^ 64) as HK by (rewrite <- Z.pow_add_r by lia; f_equal; lia).
    pose proof (pow2_pos n Hn). pose proof (pow2_pos (64 - n)).
    set (K := 2 ^ n) in *. set (M := 2 ^ (64 - n)) in *.
    pose proof (Z.div_mod h M). pose proof (Z.div_mod l M).
    pose proof (Z.mod_pos_bound h M). pose proof (Z.mod_pos_bound l M).
    assert (0 <= l / M < K) by (split; [apply Z.div_pos | apply Z.div_lt_upper_bound]; lia).
    unfold K. rewrite lor_add_disjoint by (fold K; lia). fold K.
    apply Z.mod_unique_pos with (h / M); [|change (2 ^ 128) with (2 ^ 64 * 2 ^ 64); nia].
    change (2 ^ 128) with (2 ^ 64 * 2 ^ 64). nia.
  - rewrite shl_low by lia.
    assert (2 ^ (n - 64) * 2 ^ (64 - (n - 64)) = 2 ^ 64) as HK
      by (rewrite <- Z.pow_add_r by lia; f_equal; lia).
    replace (2 ^ n) with (2 ^ (n - 64) * 2 ^ 64)
      by (rewrite <- Z.pow_add_r by lia; f_equal; lia).
    pose proof (pow2_pos (n - 64)). pose proof (pow2_pos (64 - (n - 64))).
    set (K := 2 ^ (n - 64)) in *. set (M := 2 ^ (64 - (n - 64))) in *.
    pose proof (Z.div_mod l M). pose proof (Z.mod_pos_bound l M).
    apply Z.mod_unique_pos with (h * K + l / M); change (2 ^ 128) with (2 ^ 64 * 2 ^ 64); nia.
Qed.

Lemma value_shr a n :
  ok128 a -> 0 <= n -> value (shrUint128 a n) = value a / 2 ^ n.
Proof.
  destruct a as [h l]. unfold ok128, in_width; cbn [hi lo]. intros [Hh Hl] Hn.
  unfold shrUint128, value. repeat case_one; zbool; cbn [hi lo].
  - subst n. by rewrite Z.div_1_r.
  - pose proof (Z.pow_le_mono_r 2 128 n). symmetry. apply Z.div_small. lia.
  - rewrite !shr_spec by (try lia; unfold in_width; lia). rewrite shl_low by lia.
    replace (64 - (64 - n)) with n by lia.
    assert (2 ^ n * 2 ^ (64 - n) = 2 ^ 64) as HK by (rewrite <- Z.pow_add_r by lia; f_equal; lia).
    pose proof (pow2_pos n Hn). pose proof (pow2_pos (64 - n)).
    rewrite Z.lor_comm.
    assert (0 <= l / 2 ^ n < 2 ^ (64 - n))
      by (split; [apply Z.div_pos | apply Z.div_lt_upper_bound]; lia).
    rewrite lor_add_disjoint by lia.
    set (K := 2 ^ n) in *. set (M := 2 ^ (64 - n)) in *.
    pose proof (Z.div_mod h K). pose proof (Z.div_mod l K).
    pose proof (Z.mod_pos_bound h K). pose proof (Z.mod_pos_bound l K).
    apply Z.div_unique_pos with (l `mod` K); nia.
  - rewrite shr_spec by (try lia; unfold in_width; lia). cbn.
    replace (2 ^ n) with (2 ^ 64 * 2 ^ (n - 64))
      by (rewrite <- Z.pow_add_r by lia; f_equal; lia).
    pose proof (pow2_pos (n - 64)).
    rewrite <- Z.div_div by lia. rewrite Z.div_add_l, (Z.div_small l) by lia. by rewrite Z.add_0_r.
Qed.

(** ** Addresses and integers *)

Lemma word64_value b0 b1 b2 b3 b4 b5 b6 b7 :
  bytes_ok [b0; b1; b2; b3; b4; b5; b6; b7] ->
  Z.lor (Z.lor (Z.lor (Z.lor (Z.lor (Z.lor (Z.lor
    (shl 64 b0 56) (shl 64 b1 48)) (shl 64 b2 40))
    (shl 64 b3 32)) (shl 64 b4 24)) (shl 64 b5 16))
    (shl 64 b6 8)) b7 = be_value [b0; b1; b2; b3; b4; b5; b6; b7].
Proof.
  unfold bytes_ok. rewrite !Forall_cons. unfold in_width. change (2 ^ 8) with 256.
  intros (? & ? & ? & ? & ? & ? & ? & ? & _).
  replace (shl 64 b0 56) with (b0 * 2 ^ 56)
    by (rewrite shl_spec, wrap_id by (unfold in_width; lia); lia).
  rewrite (be_or 64 _ b1 48), (be_or 64 _ b2 40), (be_or 64 _ b3 32),
    (be_or 64 _ b4 24), (be_or 64 _ b5 16), (be_or 64 _ b6 8) by lia.
  rewrite lor_add_disjoint by lia. unfold be_value, len. cbn [length Z.of_nat Pos.of_succ_nat Pos.succ]. lia.
Qed.

Lemma value_bytesToUint128 b :
  bytes_ok b -> length b = 16%nat ->
  value (bytesToUint128 b) = be_value b /\ ok128 (bytesToUint128 b).
Proof.
  intros Hok Hl.
  destruct (cut_at b 8) as (x & y & -> & Hx); [unfold len; lia|].
  apply (len_eq x 8) in Hx. rewrite length_app in Hl. assert (length y = 8%nat) as Hy by lia.
  apply bytes_ok_app in Hok as [Hox Hoy].
  pose proof (be_value_bound x Hox) as Bx. pose proof (be_value_bound y Hoy) as By.
  unfold len in Bx, By. rewrite Hx in Bx. rewrite Hy in By.
  assert (bytesToUint128 (x ++ y) = mk128 (be_value x) (be_value y)) as ->.
  { clear Bx By. explode. unfold bytesToUint128, word64, idx.
    cbn [app Z.to_nat Z.add Pos.to_nat Pos.iter_op Nat.add nth Pos.add Pos.succ].
    by rewrite !word64_value by done. }
  split; [|done]. unfold value. cbn [hi lo]. clear Bx By Hox Hoy. explode.
  unfold be_value, len. cbn [length app]. lia.
Qed.

Lemma ipv6ToUint128_value v z : in_width 128 v ->
  value (ipv6ToUint128 (Addr6 v z)) = v /\ ok128 (ipv6ToUint128 (Addr6 v z)).
Proof.
  intros Hv. unfold ipv6ToUint128.
  destruct (value_bytesToUint128 (As16 (Addr6 v z))) as [-> ?]; [apply As16_ok | apply length_As16|].
  split; [|done]. unfold As16. by rewrite be_value_bytes_id.
Qed.

Lemma be_value_app a b : be_value (a ++ b) = be_value a * 2 ^ (8 * len b) + be_value b.
Proof.
  induction a as [|x a IH]; [done|]. cbn [app]. unfold be_value; fold be_value.
  rewrite IH, len_app, Z.mul_add_distr_l. pose proof (len_nonneg a). pose proof (len_nonneg b).
  rewrite Z.pow_add_r by lia. lia.
Qed.

Lemma uint128ToIPv6_value a : ok128 a -> uint128ToIPv6 a = Addr6 (value a) [].
Proof.
  intros [Hh Hl]. unfold uint128ToIPv6, AddrFrom16. rewrite !u64_bytes_be by done.
  rewrite be_value_app, !be_value_bytes_id by done. done.
Qed.

Lemma uint32ToIPv4_value v : u32 v -> uint32ToIPv4 v = Addr4 v.
Proof.
  intros Hv. unfold uint32ToIPv4, AddrFrom4. rewrite !shr_spec by done.
  f_equal. transitivity (be_value (be_bytes 4 v)); [|by apply be_value_bytes_id].
  unfold be_bytes. cbn [Z.of_nat]. unfold wrap. by rewrite Z.div_1_r.
Qed.

Lemma ipv4ToUint32_value v : u32 v -> ipv4ToUint32 (Addr4 v) = Ok v.
Proof.
  intros Hv. unfold ipv4ToUint32. cbn [As4 mbind result_bind].
  pose proof (be_bytes_ok 4 v) as Hok. pose proof (length_be_bytes 4 v) as Hl.
  rewrite <- (be_value_bytes_id 4 v Hv) at 5. f_equal.
  generalize dependent (be_bytes 4 v). intros b Hok Hl. explode.
  unfold bytes_ok in Hok. rewrite !Forall_cons in Hok. unfold in_width in Hok.
  change (2 ^ 8) with 256 in Hok. destruct Hok as (? & ? & ? & ? & _).
  change (idx [z; z0; z1; z2] 0) with z. change (idx [z; z0; z1; z2] 1) with z0.
  change (idx [z; z0; z1; z2] 2) with z1. change (idx [z; z0; z1; z2] 3) with z2.
  replace (shl 32 z 24) with (z * 2 ^ 24)
    by (rewrite shl_spec, wrap_id by (unfold in_width; lia); lia).
  rewrite (be_or 32 _ z0 16), (be_or 32 _ z1 8) by lia.
  rewrite lor_add_disjoint by lia. unfold be_value, len. cbn [length]. lia.
Qed.

(** ** [modUint128]

    With both high halves zero it is the remainder. The shift-and-subtract loop
    is another matter: it tests the bits of [a] in reverse order and sets bit
    [i] of the running remainder instead of bit 0, so it does not compute [a mod
    b] (see [modUint128_loop_wrong]). The lemmas below establish what the
    callers still get from it: for a 64-bit [a] and [b = 2^h - 1], the loop is a
    rotation of [h]-bit words with bits [or]-ed in, and its result stays below
    [2^h]. *)

(** One iteration on integers: [c] says whether the bit of [a] is set. *)
Definition zstep (h : Z) (c : bool) (r i : Z) : Z :=
  let x := Z.lor (2 * r) (if c then 2 ^ i else 0) in
  if 2 ^ h - 1 <=? x then x - (2 ^ h - 1) else x.

Lemma set_bit_value r i :
  ok128 r -> 0 <= i < 128 ->
  (if 64 <=? i then mk128 (Z.lor (hi r) (shl 64 1 (i - 64))) (lo r)
   else mk128 (hi r) (Z.lor (lo r) (shl 64 1 i))) = orUint128 r (newUint128LShiftOne i).
Proof.
  intros [??] ?. unfold orUint128, newUint128LShiftOne. repeat case_one; zbool; try lia;
    cbn [hi lo]; by rewrite Z.lor_0_r.
Qed.

Lemma mod_iter_value a b r i h :
  ok128 r -> ok128 b -> hi a = 0 -> value b = 2 ^ h - 1 -> 64 < h < 128 ->
  value r < 2 ^ h -> 0 <= i < 128 ->
  ok128 (mod_iter a b r i) /\
  exists c, (c = true -> i < 64) /\ value (mod_iter a b r i) = zstep h c (value r) i.
Proof.
  intros Hr Hb Ha Hvb Hh Hlt Hi. unfold mod_iter. rewrite Ha.
  replace (shr 64 0 (63 - i `mod` 64)) with 0
    by (unfold shr; case_one; by rewrite ?Z.shiftr_0_l).
  rewrite set_bit_value by auto with wf lia. cbv zeta.
  change (negb (Z.land 0 1 =? 0)) with false. cbn [orb].
  set (c := (i <? 64) && _).
  assert (exists g, (if c then orUint128 (shlUint128 r 1) (newUint128LShiftOne i)
                     else shlUint128 r 1) = g /\ ok128 g /\
            value g = Z.lor (2 * value r) (if c then 2 ^ i else 0)) as (g & -> & Hg & Hvg).
  { pose proof (value_bound r Hr) as [B0 _].
    assert (value (shlUint128 r 1) = 2 * value r) as Hs.
    { rewrite value_shl, wrap_id by (try done; unfold in_width;
        pose proof (Z.pow_le_mono_r 2 (h + 1) 128); rewrite Z.pow_add_r in * by lia; lia). lia. }
    destruct c; eexists; (split; [reflexivity|]); (split; [auto with wf lia|]).
    - rewrite value_or, Hs, value_one_shl, wrap_id; auto with wf lia.
      pose proof (pow2_pos i). pose proof (Z.pow_lt_mono_r 2 i 128). unfold in_width; lia.
    - by rewrite Z.lor_0_r. }
  rewrite cmp_spec, Hvb by done.
  pose proof (value_bound g Hg) as [??]. pose proof (pow2_pos h).
  split; [case_one; auto with wf|]. exists c. split.
  - unfold c. destruct (Z.ltb_spec i 64); [done|]. cbn. done.
  - unfold zstep. rewrite <- Hvg. case_one; [|done]. zbool. rewrite value_sub, Hvb by done.
    apply wrap_id. unfold in_width. lia.
Qed.

(** A step for [k >= 1] is a rotation by one with, possibly, bit [k] added. *)
Lemma zstep_bits h c r k :
  64 < h -> 0 <= r < 2 ^ h -> 1 <= k < 64 ->
  0 <= zstep h c r k < 2 ^ h /\
  forall p, 0 <= p -> Z.testbit (zstep h c r k) p = true ->
    p = k \/ (1 <= p < h /\ Z.testbit r (p - 1) = true) \/ (p = 0 /\ Z.testbit r (h - 1) = true).
Proof.
  intros Hh Hr Hk.
  set (g := Z.lor r (if c then 2 ^ (k - 1) else 0)).
  assert (in_width h g) as [Hg0 Hg].
  { apply lor_width; [lia|done|]. destruct c; unfold in_width;
      pose proof (pow2_pos (k - 1)); pose proof (Z.pow_lt_mono_r 2 (k - 1) h); lia. }
  assert (Z.lor (2 * r) (if c then 2 ^ k else 0) = 2 * g) as Hx.
  { unfold g. rewrite !(Z.mul_comm 2), <- !(Z.shiftl_mul_pow2 _ 1) by done.
    rewrite Z.shiftl_lor. f_equal. destruct c; [|done].
    rewrite Z.shiftl_mul_pow2, <- Z.pow_add_r by lia. f_equal. lia. }
  assert (forall q, 0 <= q -> Z.testbit g q = true -> q = k - 1 \/ Z.testbit r q = true) as Hgb.
  { intros q Hq. unfold g. rewrite Z.lor_spec. intros [?|Hc]%orb_true_iff; [by right|left].
    destruct c; [|by rewrite Z.bits_0 in Hc].
    rewrite Z.pow2_bits_eqb in Hc by lia. zbool. lia. }
  assert (2 ^ h = 2 * 2 ^ (h - 1)) as Hp
    by (rewrite <- Z.pow_succ_r by lia; f_equal; lia).
  unfold zstep. rewrite Hx. case_one; zbool.
  - assert (2 ^ (h - 1) <= g) as Hge by lia.
    replace (2 * g - (2 ^ h - 1)) with (2 * (g - 2 ^ (h - 1)) + 1) by lia.
    split; [lia|]. intros p Hp0. destruct (Z.eq_dec p 0) as [->|Hpn].
    + intros _. right; right. split; [done|].
      destruct (Hgb (h - 1)) as [?|?]; [lia| |lia|done].
      rewrite Z.testbit_true by lia.
      assert (g / 2 ^ (h - 1) = 1) as ->; [|done].
      symmetry. apply Z.div_unique with (g - 2 ^ (h - 1)); lia.
    + replace p with (Z.succ (p - 1)) at 1 by lia. rewrite Z.testbit_odd_succ by lia.
      assert (g - 2 ^ (h - 1) = g `mod` 2 ^ (h - 1)) as ->
        by (apply Z.mod_unique_pos with 1; lia).
      destruct (Z.lt_ge_cases (p - 1) (h - 1)).
      * rewrite Z.mod_pow2_bits_low by lia. intros [?|?]%Hgb; [left; lia| |lia].
        right; left. split; [lia|done].
      * by rewrite Z.mod_pow2_bits_high by lia.
  - split; [lia|]. intros p Hp0. destruct (Z.eq_dec p 0) as [->|Hpn].
    + by rewrite Z.testbit_even_0.
    + replace p with (Z.succ (p - 1)) at 1 by lia. rewrite Z.testbit_even_succ by lia.
      intros Ht. assert (p - 1 < h - 1).
      { destruct (Z.lt_ge_cases (p - 1) (h - 1)) as [?|Hge]; [done|].
        rewrite (proj1 (in_width_bits (h - 1) g ltac:(lia))) in Ht; [done|unfold in_width; lia|lia]. }
      apply Hgb in Ht as [?|?]; [left; lia| |lia]. right; left. split; [lia|done].
Qed.

(** After the iteration for index [i] the set bits are rotated positions. *)
Definition loop_inv (h i r : Z) : Prop :=
  0 <= r < 2 ^ h /\
  forall p, 0 <= p -> Z.testbit r p = true -> exists j, i <= j <= 63 /\ (2 * j - i) `mod` h = p.

Lemma mod_succ x h p : 1 <= p < h -> x `mod` h = p - 1 -> (x + 1) `mod` h = p.
Proof.
  intros Hp Hx. pose proof (Z.div_mod x h). symmetry.
  apply Z.mod_unique_pos with (x / h); lia.
Qed.

Lemma mod_succ_wrap x h : 0 < h -> x `mod` h = h - 1 -> (x + 1) `mod` h = 0.
Proof.
  intros Hp Hx. pose proof (Z.div_mod x h). symmetry.
  apply Z.mod_unique_pos with (x / h + 1); lia.
Qed.

Lemma loop_inv_step h c r k :
  64 < h -> 1 <= k < 64 -> loop_inv h (k + 1) r -> loop_inv h k (zstep h c r k).
Proof.
  intros Hh Hk [Hr Hbits]. destruct (zstep_bits h c r k Hh Hr Hk) as [Hb Hp].
  split; [done|]. intros p Hp0 Ht. destruct (Hp p Hp0 Ht) as [->|[[Hr1 Ht']|[-> Ht']]].
  - exists k. split; [lia|]. rewrite Z.mod_small; lia.
  - destruct (Hbits (p - 1) ltac:(lia) Ht') as (j & ? & Hj). exists j. split; [lia|].
    replace (2 * j - k) with (2 * j - (k + 1) + 1) by lia. by apply mod_succ.
  - destruct (Hbits (h - 1) ltac:(lia) Ht') as (j & ? & Hj). exists j. split; [lia|].
    replace (2 * j - k) with (2 * j - (k + 1) + 1) by lia. apply mod_succ_wrap; [lia|done].
Qed.

(** Before the last iteration some bit is clear: 64 bits cannot fill [h]
    positions. *)
Lemma loop_inv_not_full h r : 64 < h -> loop_inv h 1 r -> r <> 2 ^ h - 1.
Proof.
  intros Hh [_ Hbits] ->.
  assert (forall p, 0 <= p < h -> Z.testbit (2 ^ h - 1) p = true) as Hones.
  { intros p Hp. replace (2 ^ h - 1) with (Z.ones h) by (rewrite Z.ones_equiv; lia).
    by apply Z.ones_spec_low. }
  destruct (Z.Even_or_Odd h) as [[m Hm]|[m Hm]].
  - destruct (Hbits 0 ltac:(lia) (Hones 0 ltac:(lia))) as (j & ? & Hj).
    pose proof (Z.div_mod (2 * j - 1) h ltac:(lia)) as Hd. rewrite Hj, Hm in Hd.
    set (q := (2 * j - 1) / (2 * m)) in *. lia.
  - destruct (Hbits (h - 1) ltac:(lia) (Hones (h - 1) ltac:(lia))) as (j & ? & Hj).
    pose proof (Z.div_mod (2 * j - 1) h ltac:(lia)) as Hd. rewrite Hj in Hd.
    set (q := (2 * j - 1) / h) in *. assert (q = 0) as Hq by nia. lia.
Qed.

Lemma zstep_last h c r : 0 <= r < 2 ^ h - 1 -> 0 < h -> 0 <= zstep h c r 0 < 2 ^ h.
Proof.
  intros Hr Hh. unfold zstep.
  assert (Z.lor (2 * r) (if c then 2 ^ 0 else 0) = 2 * r + (if c then 1 else 0)) as ->.
  { destruct c; [|rewrite Z.lor_0_r; lia].
    change (2 ^ 0) with 1. replace (2 * r) with (r * 2 ^ 1) by lia.
    rewrite lor_add_disjoint; lia. }
  repeat case_one; zbool; lia.
Qed.

Lemma mod_loop_low a b h n r :
  hi a = 0 -> ok128 b -> value b = 2 ^ h - 1 -> 64 < h < 128 ->
  (1 <= n <= 64)%nat -> ok128 r -> loop_inv h (Z.of_nat n) (value r) ->
  ok128 (mod_loop a b r n) /\ value (mod_loop a b r n) < 2 ^ h.
Proof.
  intros Ha Hb Hvb Hh. revert r. induction n as [|k IH]; [lia|].
  intros r Hn Hr Hinv. cbn [mod_loop].
  destruct (mod_iter_value a b r (Z.of_nat k) h) as [Hok (c & Hc & Hv)]; auto;
    [apply Hinv | lia |].
  destruct k as [|k].
  - cbn [mod_loop]. split; [done|]. rewrite Hv. apply zstep_last; [|lia].
    pose proof (loop_inv_not_full h (value r) ltac:(lia) Hinv). destruct Hinv as [? _]. lia.
  - apply IH; [lia | done |]. rewrite Hv. apply loop_inv_step; [lia|lia|].
    by replace (Z.of_nat (S k) + 1) with (Z.of_nat (S (S k))) by lia.
Qed.

Lemma mod_loop_high a b h n r :
  hi a = 0 -> ok128 b -> value b = 2 ^ h - 1 -> 64 < h < 128 ->
  (64 <= n <= 128)%nat -> ok128 r -> value r = 0 ->
  ok128 (mod_loop a b r n) /\ value (mod_loop a b r n) < 2 ^ h.
Proof.
  intros Ha Hb Hvb Hh Hn. revert r. pose proof (pow2_pos h).
  induction n as [|k IH]; [lia|]. intros r Hr Hv0.
  destruct (decide (S k = 64%nat)) as [E|].
  - rewrite E. apply mod_loop_low; auto; [lia|]. rewrite Hv0. split; [lia|].
    intros p _. by rewrite Z.bits_0.
  - cbn [mod_loop].
    destruct (mod_iter_value a b r (Z.of_nat k) h) as [Hok (c & Hc & Hv)]; auto; [lia..|].
    apply IH; [lia | done |]. rewrite Hv, Hv0. destruct c; [exfalso; specialize (Hc eq_refl); lia|].
    unfold zstep. change (Z.lor (2 * 0) 0) with 0.
    pose proof (Z.pow_lt_mono_r 2 0 h ltac:(lia) ltac:(lia) ltac:(lia)) as H1.
    change (2 ^ 0) with 1 in H1. rewrite (proj2 (Z.leb_gt _ _)); [done | lia].
Qed.

Lemma ok_mod_iter a b r i : ok128 r -> ok128 (mod_iter a b r i).
Proof.
  intros Hr. unfold mod_iter. cbv zeta. destruct (ok_shl r 1 Hr ltac:(lia)).
  repeat case_one; first [apply ok_sub | split; cbn; auto with wf lia].
Qed.

(** The remainder the callers take is below [2^h], whatever the host width. *)
Lemma modUint128_mask_bound v b h :
  u64 v -> ok128 b -> value b = 2 ^ h - 1 -> 0 < h <= 128 ->
  ok128 (modUint128 (uint128FromU64 v) b) /\ value (modUint128 (uint128FromU64 v) b) < 2 ^ h.
Proof.
  intros Hv Hb Hvb Hh. pose proof (pow2_pos h ltac:(lia)).
  pose proof (Z.pow_lt_mono_r 2 0 h ltac:(lia) ltac:(lia) ltac:(lia)) as H1.
  change (2 ^ 0) with 1 in H1. unfold modUint128.
  assert (isZeroUint128 b = false) as ->.
  { destruct b as [bh bl]. unfold value in Hvb. unfold isZeroUint128. cbn in Hvb |- *.
    destruct (Z.eqb_spec bh 0), (Z.eqb_spec bl 0); try done. lia. }
  destruct (Z.eqb_spec (hi b) 0) as [E|E]; cbn [andb hi uint128FromU64 lo Z.eqb].
  - unfold value in Hvb. destruct Hb as [_ [Hb0 Hb1]].
    pose proof (Z.mod_pos_bound v (lo b) ltac:(lia)).
    split; [split; cbn; unfold in_width; lia|]. unfold value. cbn. lia.
  - assert (64 < h).
    { destruct (Z.lt_ge_cases 64 h); [done|]. pose proof (Z.pow_le_mono_r 2 h 64).
      destruct Hb as [[? ?] [? ?]]. unfold value in Hvb. nia. }
    destruct (Z.eq_dec h 128) as [->|].
    + assert (forall n r, ok128 r -> ok128 (mod_loop (uint128FromU64 v) b r n)) as G.
      { induction n as [|n IH]; cbn [mod_loop]; auto using ok_mod_iter. }
      split; [by apply G|]. apply value_bound. by apply G.
    + apply mod_loop_high; auto; try done; lia.
Qed.

(** ** Properties *)

(** The 128-bit helpers are integer arithmetic modulo 2^128: on pairs of
    64-bit halves, [and], [or], complement, subtraction with borrow, both
    shifts, the powers of two, the masks and the comparison give the halves of
    the corresponding integer result. *)
Theorem uint128_refines_Z a b n :
  ok128 a -> ok128 b -> 0 <= n ->
  value (andUint128 a b) = Z.land (value a) (value b) /\
  value (orUint128 a b) = Z.lor (value a) (value b) /\
  value (notUint128 a) = 2 ^ 128 - 1 - value a /\
  value (subUint128 a b) = wrap 128 (value a - value b) /\
  value (shlUint128 a n) = wrap 128 (value a * 2 ^ n) /\
  value (shrUint128 a n) = value a / 2 ^ n /\
  value (newUint128LShiftOne n) = wrap 128 (2 ^ n) /\
  value (newUint128FromBitRange n) = 2 ^ Z.min n 128 - 1 /\
  cmpUint128 a b = match value a ?= value b with Lt => -1 | Eq => 0 | Gt => 1 end.
Proof.
  intros Ha Hb Hn. split_and!.
  - by apply value_and.
  - by apply value_or.
  - by apply value_not.
  - by apply value_sub.
  - by apply value_shl.
  - by apply value_shr.
  - by apply value_one_shl.
  - by apply value_bit_range.
  - destruct a as [ah al], b as [bh bl]. unfold ok128, in_width in Ha, Hb. cbn in Ha, Hb.
    unfold cmpUint128, value. cbn [hi lo].
    destruct (Z.compare_spec (ah * 2 ^ 64 + al) (bh * 2 ^ 64 + bl));
      repeat case_one; zbool; lia.
Qed.

Lemma uint128_refines_Z_witness :
  value (subUint128 (mk128 1 0) (mk128 0 1)) = wrap 128 (value (mk128 1 0) - value (mk128 0 1)) /\
  value (shlUint128 (mk128 1 0) 70) = wrap 128 (value (mk128 1 0) * 2 ^ 70).
Proof.
  destruct (uint128_refines_Z (mk128 1 0) (mk128 0 1) 70) as (_ & _ & _ & H1 & H2 & _);
    [by_decide | by_decide | lia |].
  exact (conj H1 H2).
Defined.

(** An IPv6 address survives the trip through a 128-bit pair, and an IPv4
    address through a 32-bit integer, in both directions; the conversions of a
    valid address never panic. *)
Theorem address_integer_roundtrip v4 a :
  u32 v4 -> ok128 a ->
  ipv4ToUint32 (Addr4 v4) = Ok v4 /\ uint32ToIPv4 v4 = Addr4 v4 /\
  ipv6ToUint128 (uint128ToIPv6 a) = a /\
  uint128ToIPv6 (ipv6ToUint128 (Addr6 (value a) [])) = Addr6 (value a) [].
Proof.
  intros Hv Ha. split_and!; [by apply ipv4ToUint32_value | by apply uint32ToIPv4_value |..].
  - rewrite uint128ToIPv6_value by done. pose proof (value_bound a Ha) as Hb.
    destruct (ipv6ToUint128_value (value a) [] Hb). by apply value_inj.
  - pose proof (value_bound a Ha) as Hb. destruct (ipv6ToUint128_value (value a) [] Hb) as [He ?].
    rewrite uint128ToIPv6_value by done. by rewrite He.
Qed.

Lemma address_integer_roundtrip_witness :
  ipv4ToUint32 (Addr4 3232235876) = Ok 3232235876 /\ uint32ToIPv4 3232235876 = Addr4 3232235876 /\
  ipv6ToUint128 (uint128ToIPv6 (mk128 2306139568115548160 1)) = mk128 2306139568115548160 1 /\
  uint128ToIPv6 (ipv6ToUint128 (Addr6 (value (mk128 2306139568115548160 1)) []))
    = Addr6 (value (mk128 2306139568115548160 1)) [].
Proof. apply address_integer_roundtrip; by_decide. Defined.

(** [modUint128] with two 64-bit operands is the remainder (and the dividend
    for a zero divisor). *)
Lemma modUint128_small a b :
  ok128 a -> ok128 b -> hi a = 0 -> hi b = 0 ->
  value (modUint128 a b) = if lo b =? 0 then value a else value a `mod` value b.
Proof.
  destruct a as [ah al], b as [bh bl]. unfold ok128, in_width. cbn.
  intros [? ?] [? ?] -> ->. unfold modUint128, isZeroUint128, value. cbn.
  by destruct (bl =? 0).
Qed.

(** The shift-and-subtract loop of [modUint128] does not compute the
    remainder. For the divisor [2^72 - 1], the one taken for the host part of a
    /56, the remainder of 1 is 1, but the code returns [2^54]; and it maps the
    distinct 64-bit dividends [2^63] and [2^27] to the same value 1. *)
Theorem modUint128_loop_wrong :
  value (mk128 255 18446744073709551615) = 2 ^ 72 - 1 /\
  1 `mod` (2 ^ 72 - 1) = 1 /\
  modUint128 (uint128FromU64 1) (mk128 255 18446744073709551615) = mk128 0 (2 ^ 54) /\
  modUint128 (uint128FromU64 (2 ^ 63)) (mk128 255 18446744073709551615)
    = modUint128 (uint128FromU64 (2 ^ 27)) (mk128 255 18446744073709551615).
Proof. vm_compute. done. Qed.
