(* ===== verification/SourceIP.v ===== *)
(** * Source address selection ([connect.go], the [assign*] functions)

    Models how [internal/connect/connect.go] picks the source address of an
    outbound connection from the configured CIDR: a hash-derived address for a
    session or TTL username, a hash-derived sub-block with a random host part
    for a range username, a random address otherwise. The random numbers a call
    may draw are an argument ([draws]); an IPv4 conversion that panics is an
    error of the result. *)

From Stdlib Require Import ZArith Lia.
From stdpp Require Import base tactics numbers list strings.
From S2P Require Import Prelude.
From S2P Require Import Netip.
From S2P Require Import Ext.
From S2P Require Import Uint128.

(** The random numbers of one selection: a 32-bit draw and two 64-bit draws.
    No path takes more. *)
Record draws := mkDraws { d32 : Z; d64 : Z; d64' : Z }.

Definition draws_ok (d : draws) : Prop := u32 (d32 d) /\ u64 (d64 d) /\ u64 (d64' d).
#[export] Instance draws_ok_dec d : Decision (draws_ok d).
Proof. unfold draws_ok. apply _. Defined.

Definition RandomU32 (d : draws) : Z := d32 d.
Definition RandomU64 (d : draws) : Z := d64 d.

(** [uint] arithmetic: 64 bits, wrapping. *)
Definition uint (z : Z) : Z := wrap 64 z.
Definition usub (a b : Z) : Z := wrap 64 (a - b).

(** ** The functions *)

Definition extractValue (e : Extension) : Z * bool :=
  match ext_Type e with
  | ExtRange | ExtSession | ExtTTL => (ext_Value e, true)
  | ExtNone => (0, false)
  end.

Definition assignRandIPv4 (d : draws) (cidr : Prefix) : result Addr :=
  let prefixLen := uint (p_Bits cidr) in
  base ← ipv4ToUint32 (p_Addr (Masked cidr));
  let r := RandomU32 d in
  let netPart := shl 32 (shr 32 base (usub 32 prefixLen)) (usub 32 prefixLen) in
  let hostPart := shr 32 (shl 32 r prefixLen) prefixLen in
  Ok (uint32ToIPv4 (Z.lor netPart hostPart)).

Definition assignRandIPv6 (d : draws) (cidr : Prefix) : Addr :=
  let prefixLen := uint (p_Bits cidr) in
  let base := ipv6ToUint128 (p_Addr (Masked cidr)) in
  let r := RandomU128 (d64 d) (d64' d) in
  let r128 := bytesToUint128 r in
  let hostBits := usub 128 prefixLen in
  let netMask := notUint128 (newUint128FromBitRange hostBits) in
  let netPart := andUint128 base netMask in
  let hostMask := newUint128FromBitRange hostBits in
  let hostPart := andUint128 r128 hostMask in
  uint128ToIPv6 (orUint128 netPart hostPart).

Definition assignIPv4WithRange (d : draws) (cidr : Prefix) (rng combined : Z) : result Addr :=
  base ← ipv4ToUint32 (p_Addr (Masked cidr));
  let prefixLen := uint (p_Bits cidr) in
  if uint rng <? prefixLen then assignRandIPv4 d cidr
  else
    let combinedShifted :=
      shl 32 (Z.land combined (wrap 32 (shl 32 1 (usub (uint rng) prefixLen) - 1)))
        (usub 32 (uint rng)) in
    let subnetMask := shl 32 0xffffffff (usub 32 prefixLen) in
    let subnetWithFixed := Z.lor (Z.land base subnetMask) combinedShifted in
    let hostMask := wrap 32 (shl 32 1 (usub 32 (uint rng)) - 1) in
    let hostPart := Z.land (RandomU32 d) hostMask in
    Ok (uint32ToIPv4 (Z.lor subnetWithFixed hostPart)).

Definition assignIPv6WithRange (d : draws) (cidr : Prefix) (rng : Z) (combined : uint128) : Addr :=
  let base := ipv6ToUint128 (p_Addr (Masked cidr)) in
  let prefixLen := uint (p_Bits cidr) in
  if uint rng <? prefixLen then assignRandIPv6 d cidr
  else
    let rngU := uint rng in
    let maskBits :=
      if usub rngU prefixLen <? 128
      then subUint128 (newUint128LShiftOne (usub rngU prefixLen)) uint128One
      else uint128FromU64 0 in
    let combinedShifted := shlUint128 (andUint128 combined maskBits) (usub 128 rngU) in
    let subnetMask :=
      notUint128 (subUint128 (newUint128LShiftOne (usub 128 prefixLen)) uint128One) in
    let subnetWithFixed := orUint128 (andUint128 base subnetMask) combinedShifted in
    let hostMask := subUint128 (newUint128LShiftOne (usub 128 rngU)) uint128One in
    let hostPart := andUint128 (uint128FromU64 (RandomU64 d)) hostMask in
    uint128ToIPv6 (orUint128 subnetWithFixed hostPart).

Definition assignIPv4FromExtension (d : draws) (cidr : Prefix) (cidrRange : option Z)
    (e : Extension) : result Addr :=
  let '(combined, ok) := extractValue e in
  if ok then
    match ext_Type e with
    | ExtTTL | ExtSession =>
        let prefixLen := uint (p_Bits cidr) in
        if 32 <=? prefixLen then Ok (p_Addr (Masked cidr))
        else
          let subnetMask := shl 32 0xffffffff (usub 32 prefixLen) in
          base32 ← ipv4ToUint32 (p_Addr (Masked cidr));
          let base := Z.land base32 subnetMask in
          let capacity := wrap 32 (shl 32 1 (usub 32 prefixLen) - 1) in
          if capacity =? 0 then Ok (p_Addr (Masked cidr))
          else Ok (uint32ToIPv4 (Z.lor base (wrap 32 combined `mod` capacity)))
    | ExtRange =>
        match cidrRange with
        | Some rng => assignIPv4WithRange d cidr rng (wrap 32 combined)
        | None => assignRandIPv4 d cidr
        end
    | ExtNone => assignRandIPv4 d cidr
    end
  else assignRandIPv4 d cidr.

Definition assignIPv6FromExtension (d : draws) (cidr : Prefix) (cidrRange : option Z)
    (e : Extension) : Addr :=
  let '(combined, ok) := extractValue e in
  if ok then
    match ext_Type e with
    | ExtTTL | ExtSession =>
        let prefixLen := uint (p_Bits cidr) in
        if 128 <=? prefixLen then p_Addr (Masked cidr)
        else
          let hostBits := usub 128 prefixLen in
          let mask := newUint128FromBitRange hostBits in
          let base := ipv6ToUint128 (p_Addr (Masked cidr)) in
          let subnetMask := notUint128 mask in
          let capacity := subUint128 (newUint128LShiftOne hostBits) uint128One in
          if isZeroUint128 capacity then p_Addr (Masked cidr)
          else
            let combined128 := uint128FromU64 combined in
            let mod_ := modUint128 combined128 capacity in
            uint128ToIPv6 (orUint128 (andUint128 base subnetMask) mod_)
    | ExtRange =>
        match cidrRange with
        | Some rng => assignIPv6WithRange d cidr rng (uint128FromU64 combined)
        | None => assignRandIPv6 d cidr
        end
    | ExtNone => assignRandIPv6 d cidr
    end
  else assignRandIPv6 d cidr.

Definition assignSourceIP (d : draws) (cidr : Prefix) (cidrRange : option Z) (e : Extension)
    : result Addr :=
  if Is4 (p_Addr cidr) then assignIPv4FromExtension d cidr cidrRange e
  else Ok (assignIPv6FromExtension d cidr cidrRange e).

(** ** Addresses of a CIDR in integers *)

Section Host.
Context (w h v : Z) (Hh : 0 <= h <= w) (Hv : in_width w v).

Lemma mask_low_bound : 0 <= mask_low v h <= 2 ^ w - 2 ^ h.
Proof using Hh Hv.
  unfold mask_low, in_width in *. pose proof (pow2_pos h ltac:(lia)).
  pose proof (pow2_pos (w - h) ltac:(lia)).
  assert (2 ^ w = 2 ^ (w - h) * 2 ^ h) as E by (rewrite <- Z.pow_add_r by lia; f_equal; lia).
  assert (0 <= v / 2 ^ h < 2 ^ (w - h)).
  { split; [apply Z.div_pos; lia | apply Z.div_lt_upper_bound; lia]. }
  nia.
Qed.

Lemma mask_low_idem : mask_low (mask_low v h) h = mask_low v h.
Proof using Hh.
  clear Hv. unfold mask_low. rewrite Z.div_mul by (apply Z.pow_nonzero; lia). done.
Qed.

(** Masking a network address changes nothing. *)
Lemma land_net : Z.land (mask_low v h) (2 ^ w - 2 ^ h) = mask_low v h.
Proof using Hh Hv.
  unfold mask_low. pose proof (pow2_pos h ltac:(lia)).
  replace (2 ^ w - 2 ^ h) with ((2 ^ (w - h) - 1) * 2 ^ h)
    by (rewrite Z.mul_sub_distr_r, <- Z.pow_add_r by lia; f_equal; [f_equal|]; lia).
  rewrite <- !Z.shiftl_mul_pow2, <- Z.shiftl_land, land_ones_mod by lia. f_equal.
  apply Z.mod_small. unfold in_width in *. split; [apply Z.div_pos; lia|].
  apply Z.div_lt_upper_bound; [lia|]. rewrite <- Z.pow_add_r by lia.
  replace (h + (w - h)) with w by lia. lia.
Qed.

(** [or]-ing a host part into a network address adds it. *)
Lemma lor_host host : 0 <= host < 2 ^ h -> Z.lor (mask_low v h) host = mask_low v h + host.
Proof using Hh. clear Hv. intros. apply lor_add_disjoint; lia. Qed.

Lemma net_host_width host : 0 <= host < 2 ^ h -> in_width w (mask_low v h + host).
Proof using Hh Hv. intros. pose proof mask_low_bound. unfold in_width. lia. Qed.

Lemma net_host_div host :
  0 <= host < 2 ^ h -> (mask_low v h + host) / 2 ^ h = v / 2 ^ h.
Proof using Hh.
  clear Hv. intros. unfold mask_low. rewrite Z.add_comm, Z.div_add by lia.
  by rewrite Z.div_small.
Qed.
End Host.

(** [x] modulo a power of two is below it, in the width it had. *)
Lemma mod_pow2_bound x n : 0 <= n -> 0 <= x `mod` 2 ^ n < 2 ^ n.
Proof. intros. apply Z.mod_pos_bound, pow2_pos. lia. Qed.
#[export] Hint Resolve mod_pow2_bound : wf.

Lemma uint_id z : 0 <= z < 2 ^ 64 -> uint z = z.
Proof. intros. by apply wrap_id. Qed.
Lemma usub_id a b : 0 <= b <= a -> a < 2 ^ 64 -> usub a b = a - b.
Proof. intros. apply wrap_id. unfold in_width. lia. Qed.

(** Shifting left and back keeps the low bits. *)
Lemma shl_shr_low w x n : 0 <= n <= w -> shr w (shl w x n) n = x `mod` 2 ^ (w - n).
Proof.
  intros. rewrite shr_spec by (auto with wf lia). rewrite shl_low by lia.
  apply Z.div_mul, Z.pow_nonzero; lia.
Qed.

(** The masks of the code. *)
Lemma subnet_mask32 h : 0 <= h <= 32 -> shl 32 0xffffffff h = 2 ^ 32 - 2 ^ h.
Proof.
  intros. rewrite shl_low by lia. change 0xffffffff with (2 ^ 32 - 1).
  replace ((2 ^ 32 - 1) `mod` 2 ^ (32 - h)) with (2 ^ (32 - h) - 1).
  - rewrite Z.mul_sub_distr_r, <- Z.pow_add_r by lia. f_equal; [f_equal|]; lia.
  - pose proof (pow2_pos (32 - h) ltac:(lia)).
    replace (2 ^ 32 - 1) with (2 ^ (32 - h) - 1 + (2 ^ h - 1) * 2 ^ (32 - h))
      by (rewrite Z.mul_sub_distr_r, <- Z.pow_add_r by lia;
          replace (h + (32 - h)) with 32 by lia; lia).
    rewrite Z.mod_add by lia. symmetry. apply Z.mod_small. lia.
Qed.

Lemma low_mask32 h : 0 <= h <= 32 -> wrap 32 (shl 32 1 h - 1) = 2 ^ h - 1.
Proof.
  intros. pose proof (pow2_pos h ltac:(lia)). rewrite shl_spec, Z.mul_1_l by lia.
  destruct (Z.eq_dec h 32) as [->|]; [done|]. pose proof (Z.pow_lt_mono_r 2 h 32).
  rewrite (wrap_id 32 (2 ^ h)) by (unfold in_width; lia).
  apply wrap_id. unfold in_width. lia.
Qed.

Lemma low_mask128 h : 0 <= h <= 128 ->
  value (subUint128 (newUint128LShiftOne h) uint128One) = 2 ^ h - 1.
Proof.
  intros. pose proof (pow2_pos h ltac:(lia)).
  rewrite value_sub, value_one_shl by (auto with wf; try done; lia).
  change (value uint128One) with 1.
  destruct (Z.eq_dec h 128) as [->|]; [done|]. pose proof (Z.pow_lt_mono_r 2 h 128).
  rewrite (wrap_id 128 (2 ^ h)) by (unfold in_width; lia).
  apply wrap_id. unfold in_width. lia.
Qed.

Lemma ok_uint128FromU64 v : u64 v -> ok128 (uint128FromU64 v).
Proof. intros. split; [by split | done]. Qed.
Lemma ok_uint128One : ok128 uint128One.
Proof. by split. Qed.
#[export] Hint Resolve ok_uint128FromU64 ok_uint128One : wf.

(** ** What each function computes *)

Section IPv4.
Context (v n : Z) (Hv : u32 v) (Hn : 0 <= n <= 32).
Let cidr := mkPrefix (Addr4 v) n.
Let h := 32 - n.
Let net := mask_low v h.

Lemma base4 : ipv4ToUint32 (p_Addr (Masked cidr)) = Ok net.
Proof using Hv Hn.
  unfold Masked, cidr. cbn [p_Addr p_Bits BitLen]. apply ipv4ToUint32_value.
  pose proof (mask_low_bound 32 h v ltac:(lia) Hv). pose proof (pow2_pos h ltac:(lia)).
  fold h net. unfold in_width, net in *. lia.
Qed.

Lemma net_host4 host :
  0 <= host < 2 ^ h -> uint32ToIPv4 (Z.lor net host) = Addr4 (net + host).
Proof using Hv Hn.
  intros Hhost. unfold net. rewrite (lor_host 32) by (done || lia).
  apply uint32ToIPv4_value, net_host_width; (done || lia).
Qed.

Lemma assignRandIPv4_value d :
  u32 (d32 d) -> assignRandIPv4 d cidr = Ok (Addr4 (net + d32 d `mod` 2 ^ h)).
Proof using Hv Hn.
  intros Hd. unfold assignRandIPv4. rewrite base4. cbn [mbind result_bind p_Bits cidr].
  rewrite uint_id, usub_id by lia. fold h. pose proof (pow2_pos h ltac:(lia)).
  pose proof (mask_low_bound 32 h v ltac:(lia) Hv) as Hb. fold net in Hb.
  rewrite shl_shr_low, (shr_spec 32 net), shl_low by (unfold in_width; lia). fold h.
  replace (32 - h) with n by lia.
  rewrite (Z.mod_small (net / 2 ^ h)).
  - fold (mask_low net h). unfold net at 1. rewrite (mask_low_idem 32) by lia. fold net.
    unfold RandomU32. rewrite net_host4; [done | apply mod_pow2_bound; lia].
  - split; [apply Z.div_pos; lia|]. apply Z.div_lt_upper_bound; [lia|].
    rewrite <- Z.pow_add_r by lia. replace (h + n) with 32 by lia. lia.
Qed.

Lemma assignIPv4WithRange_value d rng combined :
  u32 (d32 d) -> n <= rng <= 32 ->
  assignIPv4WithRange d cidr rng combined
  = Ok (Addr4 (net + (combined `mod` 2 ^ (rng - n) * 2 ^ (32 - rng) + d32 d `mod` 2 ^ (32 - rng)))).
Proof using Hv Hn.
  intros Hd Hr. unfold assignIPv4WithRange. rewrite base4. cbn [mbind result_bind p_Bits cidr].
  rewrite !uint_id, !usub_id by lia. rewrite (proj2 (Z.ltb_ge rng n)) by lia. fold h.
  rewrite subnet_mask32, !low_mask32, !land_ones_mod by lia.
  pose proof (mod_pow2_bound combined (rng - n) ltac:(lia)).
  pose proof (mod_pow2_bound (d32 d) (32 - rng) ltac:(lia)).
  assert (2 ^ h = 2 ^ (rng - n) * 2 ^ (32 - rng)) as E
    by (rewrite <- Z.pow_add_r by lia; f_equal; lia).
  unfold net. rewrite land_net by (done || lia). rewrite shl_spec by lia.
  rewrite wrap_id by (unfold in_width; pose proof (Z.pow_le_mono_r 2 h 32); nia).
  rewrite <- Z.lor_assoc, lor_add_disjoint by (done || lia). fold net.
  rewrite net_host4; [done | unfold RandomU32; nia].
Qed.

Lemma assignIPv4_sticky d cidrRange e :
  ext_Type e = ExtSession \/ ext_Type e = ExtTTL ->
  assignIPv4FromExtension d cidr cidrRange e
  = Ok (Addr4 (if h =? 0 then net else net + (ext_Value e `mod` 2 ^ 32) `mod` (2 ^ h - 1))).
Proof using Hv Hn.
  intros He. unfold assignIPv4FromExtension, extractValue.
  assert ((if 32 <=? n then Ok (p_Addr (Masked cidr))
           else
             base32 ← ipv4ToUint32 (p_Addr (Masked cidr));
             let base := Z.land base32 (shl 32 0xffffffff h) in
             let capacity := wrap 32 (shl 32 1 h - 1) in
             if capacity =? 0 then Ok (p_Addr (Masked cidr))
             else Ok (uint32ToIPv4 (Z.lor base (wrap 32 (ext_Value e) `mod` capacity))))
          = Ok (Addr4 (if h =? 0 then net
                       else net + (ext_Value e `mod` 2 ^ 32) `mod` (2 ^ h - 1)))) as G.
  { destruct (Z.leb_spec 32 n).
    - assert (h = 0) as E by lia. unfold cidr, Masked. cbn. fold h. fold net. by rewrite E.
    - rewrite base4. cbn [mbind result_bind]. rewrite subnet_mask32, low_mask32 by lia.
      cbv zeta. unfold net at 1. rewrite land_net by (done || lia). fold net.
      pose proof (Z.pow_lt_mono_r 2 0 h ltac:(lia) ltac:(lia) ltac:(lia)) as Hp.
      change (2 ^ 0) with 1 in Hp.
      rewrite !(proj2 (Z.eqb_neq _ 0)) by lia. unfold wrap.
      pose proof (Z.mod_pos_bound (ext_Value e `mod` 2 ^ 32) (2 ^ h - 1) ltac:(lia)).
      rewrite net_host4; [done | lia]. }
  destruct He as [-> | ->]; cbn [p_Bits cidr]; rewrite uint_id, usub_id by lia; exact G.
Qed.
End IPv4.

Section IPv6.
Context (v n : Z) (Hv : in_width 128 v) (Hn : 0 <= n <= 128).
Let cidr := mkPrefix (Addr6 v []) n.
Let h := 128 - n.
Let net := mask_low v h.

Lemma base6 :
  value (ipv6ToUint128 (p_Addr (Masked cidr))) = net /\
  ok128 (ipv6ToUint128 (p_Addr (Masked cidr))).
Proof using Hv Hn.
  unfold Masked, cidr. cbn [p_Addr p_Bits BitLen]. apply ipv6ToUint128_value.
  pose proof (mask_low_bound 128 h v ltac:(lia) Hv). pose proof (pow2_pos h ltac:(lia)).
  fold h net. unfold in_width, net in *. lia.
Qed.

(** The network part the code takes, under a mask [m] of the host bits. *)
Lemma net6 m : ok128 m -> value m = 2 ^ h - 1 ->
  let a := andUint128 (ipv6ToUint128 (p_Addr (Masked cidr))) (notUint128 m) in
  value a = net /\ ok128 a.
Proof using Hv Hn.
  intros Hm Em a. destruct base6 as [Eb Hb]. split; [|subst a; auto with wf].
  subst a. rewrite value_and, Eb, value_not, Em by auto with wf.
  replace (2 ^ 128 - 1 - (2 ^ h - 1)) with (2 ^ 128 - 2 ^ h) by lia.
  apply land_net; (done || lia).
Qed.

Lemma net_host6 a b host :
  value a = net -> ok128 a -> value b = host -> ok128 b -> host < 2 ^ h ->
  uint128ToIPv6 (orUint128 a b) = Addr6 (net + host) [].
Proof using Hv Hn.
  intros Ea Ha Eb Hb Hh. rewrite uint128ToIPv6_value, value_or, Ea, Eb by auto with wf.
  pose proof (value_bound b Hb) as Hbound. unfold in_width in Hbound.
  unfold net. rewrite (lor_host 128) by lia. done.
Qed.

Lemma assignRandIPv6_value d :
  draws_ok d ->
  assignRandIPv6 d cidr = Addr6 (net + (d64 d * 2 ^ 64 + d64' d) `mod` 2 ^ h) [].
Proof using Hv Hn.
  intros (_ & Hd & Hd'). unfold assignRandIPv6. cbn [p_Bits cidr]. fold cidr.
  rewrite uint_id, usub_id by lia. fold h.
  destruct (value_bit_range h ltac:(lia)) as [Em Hm]. rewrite Z.min_l in Em by lia.
  destruct (net6 _ Hm Em) as [En Hnet].
  assert (bytesToUint128 (RandomU128 (d64 d) (d64' d)) = mk128 (d64 d) (d64' d)) as ->.
  { unfold RandomU128. rewrite !u64_bytes_be by done.
    destruct (value_bytesToUint128 (be_bytes 8 (d64 d) ++ be_bytes 8 (d64' d))) as [E ?].
    - apply bytes_ok_app; auto with wf.
    - by rewrite length_app, !length_be_bytes.
    - apply value_inj; [done | by split |]. rewrite E, be_value_app.
      rewrite !be_value_bytes_id, len_be_bytes by done. done. }
  assert (ok128 (mk128 (d64 d) (d64' d))) as Hr by by split.
  apply net_host6; auto with wf; [|apply mod_pow2_bound; lia].
  rewrite value_and, Em by done. by rewrite land_ones_mod by lia.
Qed.

(** With a [::/0] and a range of 128 the mask of the fixed bits is zero. *)
Definition fixed_part (rng combined : Z) : Z :=
  if rng - n =? 128 then 0 else combined `mod` 2 ^ (rng - n).

Lemma assignIPv6WithRange_value d rng combined :
  draws_ok d -> u64 combined -> n <= rng <= 128 ->
  assignIPv6WithRange d cidr rng (uint128FromU64 combined)
  = Addr6 (net + (fixed_part rng combined * 2 ^ (128 - rng) + d64 d `mod` 2 ^ (128 - rng))) [].
Proof using Hv Hn.
  intros (_ & Hd & _) Hc Hr. unfold assignIPv6WithRange. cbn [p_Bits cidr]. fold cidr.
  rewrite !uint_id, !usub_id by lia. rewrite (proj2 (Z.ltb_ge rng n)) by lia. fold h.
  destruct (net6 _ (ok_sub (newUint128LShiftOne h) uint128One) (low_mask128 h ltac:(lia)))
    as [En Hnet].
  set (m := if rng - n <? 128 then _ else _).
  assert (ok128 m /\ value (andUint128 (uint128FromU64 combined) m) = fixed_part rng combined)
    as [Hm Ef].
  { unfold fixed_part, m. destruct (Z.ltb_spec (rng - n) 128).
    - rewrite (proj2 (Z.eqb_neq _ _)) by lia. split; [auto with wf|].
      rewrite value_and, low_mask128, land_ones_mod by (auto with wf; lia). done.
    - rewrite (proj2 (Z.eqb_eq _ _)) by lia. split; [by split|].
      rewrite value_and by (auto with wf; by split). by rewrite Z.land_0_r. }
  assert (0 <= fixed_part rng combined < 2 ^ (rng - n)) as Hf.
  { unfold fixed_part. case_one; [pose proof (pow2_pos (rng - n)); lia|].
    apply mod_pow2_bound. lia. }
  assert (2 ^ h = 2 ^ (rng - n) * 2 ^ (128 - rng)) as E
    by (rewrite <- Z.pow_add_r by lia; f_equal; lia).
  pose proof (Z.pow_le_mono_r 2 h 128 ltac:(lia) ltac:(lia)).
  pose proof (mod_pow2_bound (d64 d) (128 - rng) ltac:(lia)).
  assert (ok128 (andUint128 (uint128FromU64 combined) m)) as Ha by auto with wf.
  set (c := shlUint128 _ _). assert (ok128 c) as Hcok by (apply ok_shl; [done|lia]).
  assert (value c = fixed_part rng combined * 2 ^ (128 - rng)) as Ec.
  { unfold c. rewrite value_shl, Ef by (done || lia). apply wrap_id. unfold in_width. nia. }
  set (hp := andUint128 (uint128FromU64 (RandomU64 d)) _).
  assert (ok128 hp) as Hhp by (unfold hp; auto with wf).
  assert (value hp = d64 d `mod` 2 ^ (128 - rng)) as Ehp.
  { unfold hp. rewrite value_and, low_mask128, land_ones_mod by (auto with wf; lia). done. }
  rewrite uint128ToIPv6_value, !value_or, En, Ec, Ehp by auto with wf.
  rewrite <- Z.lor_assoc, lor_add_disjoint by lia.
  unfold net. rewrite (lor_host 128) by nia. done.
Qed.

Lemma assignIPv6_sticky e :
  ext_Type e = ExtSession \/ ext_Type e = ExtTTL -> u64 (ext_Value e) ->
  exists host, 0 <= host < 2 ^ h /\
    (h <= 64 -> host = if h =? 0 then 0 else ext_Value e `mod` (2 ^ h - 1)) /\
    forall d cidrRange, assignIPv6FromExtension d cidr cidrRange e = Addr6 (net + host) [].
Proof using Hv Hn.
  intros He Hx. set (cap := subUint128 (newUint128LShiftOne h) uint128One).
  set (r := modUint128 (uint128FromU64 (ext_Value e)) cap).
  assert (forall d cidrRange, assignIPv6FromExtension d cidr cidrRange e =
    if 128 <=? n then p_Addr (Masked cidr)
    else if isZeroUint128 cap then p_Addr (Masked cidr)
    else uint128ToIPv6 (orUint128 (andUint128 (ipv6ToUint128 (p_Addr (Masked cidr)))
           (notUint128 (newUint128FromBitRange h))) r)) as G.
  { intros d cr. unfold assignIPv6FromExtension, extractValue. subst r cap.
    destruct He as [-> | ->]; cbn [p_Bits cidr]; by rewrite uint_id, usub_id by lia. }
  pose proof (low_mask128 h ltac:(lia)) as Ecap. fold cap in Ecap.
  destruct (Z.leb_spec 128 n).
  - exists 0. assert (h = 0) as E by lia. rewrite E. split; [done|]. split; [done|]. intros.
    rewrite G. unfold cidr, Masked. cbn. fold h net. by rewrite Z.add_0_r.
  - pose proof (Z.pow_lt_mono_r 2 0 h ltac:(lia) ltac:(lia) ltac:(lia)) as Hp.
    change (2 ^ 0) with 1 in Hp.
    assert (ok128 cap) as Hcap by (unfold cap; auto with wf).
    destruct (modUint128_mask_bound (ext_Value e) cap h) as [Hr Hb]; auto; [lia|]. fold r in Hr, Hb.
    assert (isZeroUint128 cap = false) as Ez.
    { destruct (isZeroUint128 cap) eqn:Ez; [|done]. unfold isZeroUint128 in Ez. zbool.
      unfold value in Ecap. lia. }
    exists (value r). pose proof (value_bound r Hr) as Hrb. unfold in_width in Hrb.
    split; [lia|]. split.
    + intros Hh. rewrite (proj2 (Z.eqb_neq h 0)) by lia.
      pose proof (Z.pow_le_mono_r 2 h 64 ltac:(lia) ltac:(lia)).
      assert (hi cap = 0 /\ lo cap = 2 ^ h - 1) as [E0 E1].
      { destruct Hcap as [[? ?] [? ?]]. unfold value in Ecap. lia. }
      unfold r. rewrite modUint128_small, E1, Ecap by (auto with wf).
      rewrite (proj2 (Z.eqb_neq _ 0)) by lia. done.
    + intros. rewrite G, Ez. destruct (value_bit_range h ltac:(lia)) as [Em Hm].
      rewrite Z.min_l in Em by lia. destruct (net6 _ Hm Em). by apply net_host6.
Qed.
End IPv6.

(** ** Properties *)

(** The two shapes of a parsed prefix. *)
Lemma Prefix_shape p :
  Prefix_ok p ->
  (exists v n, p = mkPrefix (Addr4 v) n /\ u32 v /\ 0 <= n <= 32) \/
  (exists v n, p = mkPrefix (Addr6 v []) n /\ in_width 128 v /\ 0 <= n <= 128).
Proof.
  destruct p as [[|v|v [|c z]] n]; intros (Ho & Hv & Hz & Hb); cbn in *; try done; [left|right].
  - by exists v, n.
  - exists v, n. by destruct Ho.
Qed.

(** An address of the network plus a host part is in the CIDR. *)
Lemma in_cidr4 v n host :
  u32 v -> 0 <= n <= 32 -> 0 <= host < 2 ^ (32 - n) ->
  let a := Addr4 (mask_low v (32 - n) + host) in
  Addr_ok a /\ prefix_Contains (mkPrefix (Addr4 v) n) a = true.
Proof.
  intros Hv Hn Hh a. split; [apply net_host_width; (done || lia)|].
  apply prefix_Contains_intro; try done; cbn.
  rewrite (net_host_div 32) by lia. done.
Qed.

Lemma in_cidr6 v n host :
  in_width 128 v -> 0 <= n <= 128 -> 0 <= host < 2 ^ (128 - n) ->
  let a := Addr6 (mask_low v (128 - n) + host) [] in
  Addr_ok a /\ prefix_Contains (mkPrefix (Addr6 v []) n) a = true.
Proof.
  intros Hv Hn Hh a. split; [split; [apply net_host_width; (done || lia) | constructor]|].
  apply prefix_Contains_intro; try done; cbn.
  - split; [|done]. split; [done | constructor].
  - rewrite (net_host_div 128) by lia. done.
Qed.

(** The address bits above the host part of the CIDR. *)
Definition network (cidr : Prefix) : Z :=
  mask_low (Addr_value (p_Addr cidr)) (BitLen (p_Addr cidr) - p_Bits cidr).
Definition addr_like (cidr : Prefix) (z : Z) : Addr :=
  if Is4 (p_Addr cidr) then Addr4 z else Addr6 z [].

(** The block of [2^(BitLen - rng)] addresses that a range username with hash
    [hash] is given: the CIDR's network bits, then the low bits of the hash. *)
Definition range_block (cidr : Prefix) (rng hash : Z) : Prefix :=
  mkPrefix (addr_like cidr (network cidr
              + fixed_part (p_Bits cidr) rng hash * 2 ^ (BitLen (p_Addr cidr) - rng))) rng.

Lemma fixed_part_bound n rng x : n <= rng -> 0 <= fixed_part n rng x < 2 ^ (rng - n).
Proof.
  intros. unfold fixed_part. case_one; [pose proof (pow2_pos (rng - n)); lia|].
  apply mod_pow2_bound. lia.
Qed.

(** The parts of an address in a range block. *)
Lemma range_host n rng w x r :
  n <= rng <= w -> 0 <= r < 2 ^ (w - rng) ->
  0 <= fixed_part n rng x * 2 ^ (w - rng) + r < 2 ^ (w - n).
Proof.
  intros Hn Hr. pose proof (fixed_part_bound n rng x ltac:(lia)).
  assert (2 ^ (w - n) = 2 ^ (rng - n) * 2 ^ (w - rng)) as ->
    by (rewrite <- Z.pow_add_r by lia; f_equal; lia).
  nia.
Qed.

Lemma fixed_part32 n rng x :
  0 <= n -> n <= rng <= 32 -> wrap 32 x `mod` 2 ^ (rng - n) = fixed_part n rng x.
Proof.
  intros. unfold fixed_part, wrap. rewrite (proj2 (Z.eqb_neq _ _)) by lia.
  apply mod_mod_pow. lia.
Qed.

Abbreviation width cidr := (BitLen (p_Addr cidr)).

Lemma in_cidr cidr host :
  Prefix_ok cidr -> 0 <= host < 2 ^ (width cidr - p_Bits cidr) ->
  let a := addr_like cidr (network cidr + host) in
  Addr_ok a /\ prefix_Contains cidr a = true.
Proof.
  intros Hp Hh. destruct (Prefix_shape cidr Hp) as [(v & n & -> & ? & ?)|(v & n & -> & ? & ?)];
    [by apply in_cidr4 | by apply in_cidr6].
Qed.

Lemma in_cidr_inv cidr a :
  Prefix_ok cidr -> prefix_Contains cidr a = true ->
  let h := width cidr - p_Bits cidr in
  a = addr_like cidr (network cidr + Addr_value a `mod` 2 ^ h).
Proof.
  intros Hp Hc. unfold prefix_Contains in Hc. zbool.
  destruct (Prefix_shape cidr Hp) as [(v & n & -> & ? & ?)|(v & n & -> & ? & ?)];
    destruct a as [|x|x [|c z]]; cbn in *; try done; unfold addr_like, network, mask_low; cbn;
    f_equal; rewrite <- H0; rewrite Z.mul_comm; apply Z.div_mod, Z.pow_nonzero; lia.
Qed.

(** Without a usable extension the address is the network and random host bits. *)
Lemma assign_random d cidr cidrRange e :
  Prefix_ok cidr -> draws_ok d ->
  ext_Type e = ExtNone \/
  (ext_Type e = ExtRange /\ match cidrRange with Some r => 0 <= r < p_Bits cidr | None => True end) ->
  let r := if Is4 (p_Addr cidr) then d32 d else d64 d * 2 ^ 64 + d64' d in
  assignSourceIP d cidr cidrRange e
  = Ok (addr_like cidr (network cidr + r `mod` 2 ^ (width cidr - p_Bits cidr))).
Proof.
  intros Hp Hd He. unfold assignSourceIP, assignIPv4FromExtension, assignIPv6FromExtension, extractValue.
  destruct (Prefix_shape cidr Hp) as [(v & n & -> & Hv & Hn)|(v & n & -> & Hv & Hn)];
    cbn [p_Addr p_Bits Is4] in *;
    destruct He as [-> | [-> He]]; cbn iota.
  1,3: first [by apply assignRandIPv4_value; [..|apply Hd] | by rewrite assignRandIPv6_value].
  all: destruct cidrRange as [r|];
    [|first [by apply assignRandIPv4_value; [..|apply Hd] | by rewrite assignRandIPv6_value]].
  all: unfold assignIPv4WithRange, assignIPv6WithRange; cbn [p_Bits];
    rewrite !uint_id, (proj2 (Z.ltb_lt r n)) by lia.
  - rewrite base4 by done. cbn [mbind result_bind]. by apply assignRandIPv4_value; [..|apply Hd].
  - by rewrite assignRandIPv6_value.
Qed.

(** A range username: the bits of its block, then random host bits. *)
Lemma assign_range d cidr rng e :
  Prefix_ok cidr -> draws_ok d -> u64 (ext_Value e) -> ext_Type e = ExtRange ->
  p_Bits cidr <= rng <= width cidr ->
  let r := if Is4 (p_Addr cidr) then d32 d else d64 d in
  assignSourceIP d cidr (Some rng) e
  = Ok (addr_like cidr (network cidr +
      (fixed_part (p_Bits cidr) rng (ext_Value e) * 2 ^ (width cidr - rng)
       + r `mod` 2 ^ (width cidr - rng)))).
Proof.
  intros Hp Hd Hx He Hr. unfold assignSourceIP, assignIPv4FromExtension, assignIPv6FromExtension, extractValue.
  rewrite He. destruct (Prefix_shape cidr Hp) as [(v & n & -> & Hv & Hn)|(v & n & -> & Hv & Hn)];
    cbn [p_Addr p_Bits Is4 BitLen] in *; cbn iota.
  - rewrite assignIPv4WithRange_value by (try done; apply Hd).
    by rewrite fixed_part32 by (done || lia).
  - by rewrite assignIPv6WithRange_value by done.
Qed.

(** A session or TTL username: a host part that depends on the hash alone. *)
Lemma assign_sticky cidr e :
  Prefix_ok cidr -> u64 (ext_Value e) -> ext_Type e = ExtSession \/ ext_Type e = ExtTTL ->
  let h := width cidr - p_Bits cidr in
  exists host, 0 <= host < 2 ^ h /\
    (h <= 64 -> host = if h =? 0 then 0
                       else (if Is4 (p_Addr cidr) then wrap 32 (ext_Value e) else ext_Value e)
                              `mod` (2 ^ h - 1)) /\
    forall d cidrRange,
      assignSourceIP d cidr cidrRange e = Ok (addr_like cidr (network cidr + host)).
Proof.
  intros Hp Hx He h. unfold assignSourceIP.
  destruct (Prefix_shape cidr Hp) as [(v & n & -> & Hv & Hn)|(v & n & -> & Hv & Hn)];
    cbn [p_Addr p_Bits Is4 BitLen] in *.
  - set (host := if h =? 0 then 0 else wrap 32 (ext_Value e) `mod` (2 ^ h - 1)).
    exists host. split; [|split; [done|]].
    + pose proof (pow2_pos h ltac:(lia)). unfold host. destruct (Z.eqb_spec h 0); [lia|].
      pose proof (Z.pow_lt_mono_r 2 0 h ltac:(lia) ltac:(lia) ltac:(lia)) as H1.
      change (2 ^ 0) with 1 in H1.
      pose proof (Z.mod_pos_bound (wrap 32 (ext_Value e)) (2 ^ h - 1)). lia.
    + intros. rewrite assignIPv4_sticky by done. unfold addr_like, network, host. cbn.
      fold h. case_one; [by rewrite Z.add_0_r | done].
  - destruct (assignIPv6_sticky v n Hv Hn e He Hx) as (host & Hh & Hm & Ha).
    exists host. split; [done|]. split; [done|]. intros. by rewrite Ha.
Qed.

(** What [BootArgs.Validate] leaves of the CIDR range; a smaller range than
    the prefix would be harmless, a larger one than the address would not. *)
Definition range_ok (cidr : Prefix) (cidrRange : option Z) : Prop :=
  match cidrRange with Some r => 0 <= r <= width cidr | None => True end.
#[export] Instance range_ok_dec cidr r : Decision (range_ok cidr r).
Proof. destruct r; unfold range_ok; apply _. Defined.

Lemma assign_contained d cidr cidrRange e :
  Prefix_ok cidr -> range_ok cidr cidrRange -> draws_ok d -> u64 (ext_Value e) ->
  exists a, assignSourceIP d cidr cidrRange e = Ok a /\ Addr_ok a /\
            prefix_Contains cidr a = true.
Proof.
  intros Hp Hr Hd Hx. pose proof Hp as (_ & _ & _ & Hb).
  assert (forall host, 0 <= host < 2 ^ (width cidr - p_Bits cidr) ->
            assignSourceIP d cidr cidrRange e = Ok (addr_like cidr (network cidr + host)) ->
            exists a, assignSourceIP d cidr cidrRange e = Ok a /\ Addr_ok a /\
                      prefix_Contains cidr a = true) as G.
  { intros host Hh He. eexists. split; [exact He|]. by apply in_cidr. }
  destruct (ext_Type e) eqn:Et.
  - eapply G; [|apply assign_random; auto]. apply mod_pow2_bound. lia.
  - destruct (assign_sticky cidr e) as (host & Hh & _ & Ha); auto. eapply G; [exact Hh | apply Ha].
  - destruct cidrRange as [r|]; [destruct (Z.lt_ge_cases r (p_Bits cidr))|].
    2: { eapply G; [|apply assign_range; auto; cbn in Hr; lia].
         apply range_host; [cbn in Hr; lia | apply mod_pow2_bound; cbn in Hr; lia]. }
    all: eapply G; [|apply assign_random; [done|done|right; split; [done|]; try done; cbn in Hr; lia]].
    all: apply mod_pow2_bound; lia.
  - destruct (assign_sticky cidr e) as (host & Hh & _ & Ha); auto. eapply G; [exact Hh | apply Ha].
Qed.

(** C2: every outbound source address is inside the configured CIDR. For every
    parsed CIDR (IPv4 or IPv6), every validated range, every username
    extension and every random draw, the selection returns (it does not panic)
    a well-formed address that [Prefix.Contains] accepts. *)
Theorem assignSourceIP_in_cidr d cidr cidrRange e :
  Prefix_ok cidr -> range_ok cidr cidrRange -> draws_ok d -> u64 (ext_Value e) ->
  exists a, assignSourceIP d cidr cidrRange e = Ok a /\ Addr_ok a /\
            prefix_Contains cidr a = true.
Proof. apply assign_contained. Qed.

Lemma assignSourceIP_in_cidr_witness :
  exists a,
    assignSourceIP (mkDraws 5 6 7) (mkPrefix (Addr6 (0x20010db8 * 2 ^ 96) []) 40) (Some 64)
      (mkExtension ExtSession 123456789) = Ok a /\ Addr_ok a /\
    prefix_Contains (mkPrefix (Addr6 (0x20010db8 * 2 ^ 96) []) 40) a = true.
Proof. apply assignSourceIP_in_cidr; by_decide. Defined.

(** C40: session and TTL usernames get a stable source address. It depends on
    the CIDR and the hash only, not on the random draws or the range; with at
    most 64 host bits (every IPv4 CIDR) it is the network address plus the hash
    (for IPv4 its low 32 bits) modulo the number of host addresses less one. *)
Theorem assignSourceIP_sticky cidr e d d' cidrRange cidrRange' :
  Prefix_ok cidr -> u64 (ext_Value e) -> ext_Type e = ExtSession \/ ext_Type e = ExtTTL ->
  assignSourceIP d cidr cidrRange e = assignSourceIP d' cidr cidrRange' e /\
  let h := width cidr - p_Bits cidr in
  let hash := if Is4 (p_Addr cidr) then wrap 32 (ext_Value e) else ext_Value e in
  (0 < h <= 64 -> assignSourceIP d cidr cidrRange e
                  = Ok (addr_like cidr (network cidr + hash `mod` (2 ^ h - 1)))) /\
  (h = 0 -> assignSourceIP d cidr cidrRange e = Ok (addr_like cidr (network cidr))).
Proof.
  intros Hp Hx He. destruct (assign_sticky cidr e Hp Hx He) as (host & Hh & Hm & Ha).
  rewrite !Ha. split; [done|]. cbn zeta. split; intros Hw; rewrite Hm by lia.
  - by rewrite (proj2 (Z.eqb_neq _ 0)) by lia.
  - rewrite (proj2 (Z.eqb_eq _ 0)) by lia. by rewrite Z.add_0_r.
Qed.

Lemma assignSourceIP_sticky_witness :
  assignSourceIP (mkDraws 1 2 3) (mkPrefix (Addr4 0xC0A80000) 16) None
      (mkExtension ExtTTL 0x1234567890)
    = assignSourceIP (mkDraws 4 5 6) (mkPrefix (Addr4 0xC0A80000) 16) (Some 24)
      (mkExtension ExtTTL 0x1234567890) /\
  assignSourceIP (mkDraws 1 2 3) (mkPrefix (Addr4 0xC0A80000) 16) None
      (mkExtension ExtTTL 0x1234567890)
    = Ok (Addr4 (0xC0A80000 + 0x34567890 `mod` 65535)).
Proof.
  destruct (assignSourceIP_sticky (mkPrefix (Addr4 0xC0A80000) 16) (mkExtension ExtTTL 0x1234567890)
    (mkDraws 1 2 3) (mkDraws 4 5 6) None (Some 24)) as (H1 & H2 & _);
    [by_decide | by_decide | by right |].
  split; [exact H1 | apply H2; cbn; lia].
Defined.

(** A range block is a prefix of the CIDR's family, inside it. *)
Lemma range_block_facts cidr rng hash :
  Prefix_ok cidr -> p_Bits cidr <= rng <= width cidr ->
  let block := range_block cidr rng hash in
  Prefix_ok block /\ width block = width cidr /\
  (forall z, addr_like block z = addr_like cidr z) /\
  network block = network cidr + fixed_part (p_Bits cidr) rng hash * 2 ^ (width cidr - rng).
Proof.
  intros Hp Hr block. pose proof Hp as (_ & _ & _ & Hb).
  set (w := width cidr) in *. set (f := fixed_part (p_Bits cidr) rng hash).
  pose proof (pow2_pos (w - rng) ltac:(lia)) as Hpos.
  destruct (in_cidr cidr (f * 2 ^ (w - rng)) Hp) as [Hbok _].
  { rewrite <- (Z.add_0_r (f * _)). apply range_host; [lia|]. lia. }
  assert (Prefix_ok block /\ width block = w /\ Is4 (p_Addr block) = Is4 (p_Addr cidr))
    as (Hbp & Hbw & Hb4).
  { subst block w f. unfold range_block, Prefix_ok, addr_like in *. cbn [p_Addr p_Bits] in *.
    destruct (Prefix_shape cidr Hp) as [(v & n & -> & ? & ?)|(v & n & -> & ? & ?)];
      cbn in *; repeat split; try done; try lia; apply Hbok. }
  split_and!; [done..| intros z; unfold addr_like; by rewrite Hb4 |].
  unfold network at 1. rewrite Hbw. subst block. unfold range_block. cbn [p_Addr p_Bits].
  fold w f. assert (forall z, Addr_value (addr_like cidr z) = z) as -> by
    (intros z; unfold addr_like; by case_one).
  unfold network. fold w. unfold mask_low.
  assert (2 ^ (w - p_Bits cidr) = 2 ^ (rng - p_Bits cidr) * 2 ^ (w - rng)) as ->
    by (rewrite <- Z.pow_add_r by lia; f_equal; lia).
  rewrite Z.mul_assoc, <- Z.mul_add_distr_r. by rewrite Z.div_mul by lia.
Qed.

(** Draws that make a range selection come out with host part [r]. *)
Definition draws_for (cidr : Prefix) (r : Z) : draws :=
  if Is4 (p_Addr cidr) then mkDraws r 0 0 else mkDraws 0 r 0.

Lemma draws_for_ok cidr rng r :
  Prefix_ok cidr -> 0 <= rng -> 0 <= r < 2 ^ (width cidr - rng) -> width cidr - rng <= 64 ->
  draws_ok (draws_for cidr r).
Proof.
  intros Hp Hr Hb Hw.
  assert (2 ^ (width cidr - rng) <= 2 ^ Z.min 64 (width cidr)) by
    (apply Z.pow_le_mono_r; lia).
  unfold draws_for, draws_ok, in_width.
  destruct (Prefix_shape cidr Hp) as [(v & n & -> & ? & ?)|(v & n & -> & ? & ?)];
    cbn [p_Addr Is4 BitLen d32 d64 d64'] in *;
    [change (Z.min 64 32) with 32 in * | change (Z.min 64 128) with 64 in *]; lia.
Qed.

(** A range username confines the source address to one block of the CIDR:
    with a validated range, whatever is drawn, the address lies in the block
    whose prefix is the network bits followed by the low bits of the hash; and
    (up to 64 host bits) every address of that block can be drawn. *)
Theorem assignSourceIP_range_block cidr rng e :
  Prefix_ok cidr -> u64 (ext_Value e) -> ext_Type e = ExtRange ->
  p_Bits cidr <= rng <= width cidr ->
  let block := range_block cidr rng (ext_Value e) in
  (forall d, draws_ok d ->
     exists a, assignSourceIP d cidr (Some rng) e = Ok a /\ prefix_Contains block a = true) /\
  (forall a, width cidr - rng <= 64 -> prefix_Contains block a = true ->
     exists d, draws_ok d /\ assignSourceIP d cidr (Some rng) e = Ok a).
Proof.
  intros Hp Hx He Hr block. pose proof Hp as (_ & _ & _ & Hb).
  destruct (range_block_facts cidr rng (ext_Value e) Hp Hr) as (Hbp & Hbw & Hlike & Hbn).
  fold block in Hbp, Hbw, Hlike, Hbn. split.
  - intros d Hd. eexists. split; [by apply assign_range|]. rewrite Z.add_assoc.
    rewrite <- Hbn, <- Hlike. apply in_cidr; [done|]. change (p_Bits block) with rng.
    rewrite Hbw. apply mod_pow2_bound. lia.
  - intros a Hw Ha. pose proof (in_cidr_inv block a Hbp Ha) as E. cbn zeta in E.
    rewrite Hbw, Hbn, Hlike, <- Z.add_assoc in E. change (p_Bits block) with rng in E.
    set (r := Addr_value a `mod` 2 ^ (width cidr - rng)) in *.
    assert (0 <= r < 2 ^ (width cidr - rng)) as Hrb by (apply mod_pow2_bound; lia).
    assert (draws_ok (draws_for cidr r)) as Hd by (apply (draws_for_ok _ rng); (done || lia)).
    exists (draws_for cidr r). split; [done|]. rewrite assign_range by done.
    replace (if Is4 (p_Addr cidr) then d32 (draws_for cidr r) else d64 (draws_for cidr r)) with r
      by (unfold draws_for; by case_one).
    rewrite (Z.mod_small r) by done. by rewrite <- E.
Qed.

Lemma assignSourceIP_range_block_witness :
  let cidr := mkPrefix (Addr4 0x0A000000) 8 in
  let e := mkExtension ExtRange 0x1ABCD in
  range_block cidr 24 0x1ABCD = mkPrefix (Addr4 0x0AABCD00) 24 /\
  (forall d, draws_ok d -> exists a, assignSourceIP d cidr (Some 24) e = Ok a /\
     prefix_Contains (range_block cidr 24 0x1ABCD) a = true) /\
  exists d, draws_ok d /\ assignSourceIP d cidr (Some 24) e = Ok (Addr4 0x0AABCD07).
Proof.
  destruct (assignSourceIP_range_block (mkPrefix (Addr4 0x0A000000) 8) 24
    (mkExtension ExtRange 0x1ABCD)) as [H1 H2]; [by_decide | by_decide | done | cbn; lia |].
  split; [reflexivity|]. split; [exact H1|]. apply H2; [cbn; lia | reflexivity].
Defined.

(** A plain username spreads over the whole CIDR: an address is in the CIDR
    exactly when some draw of the random generator selects it. *)
Theorem assignSourceIP_random_exact cidr cidrRange a :
  Prefix_ok cidr -> Addr_ok a ->
  prefix_Contains cidr a = true <->
  exists d, draws_ok d /\ assignSourceIP d cidr cidrRange ext_None = Ok a.
Proof.
  intros Hp Ha. pose proof Hp as (_ & _ & _ & Hb). split.
  - intros Hc. pose proof (in_cidr_inv cidr a Hp Hc) as E. cbn zeta in E.
    set (z := Addr_value a) in *.
    exists (if Is4 (p_Addr cidr) then mkDraws z 0 0 else mkDraws 0 (z / 2 ^ 64) (z `mod` 2 ^ 64)).
    assert (in_width (width cidr) z) as Hz.
    { unfold prefix_Contains in Hc. zbool. subst z. destruct a as [|x|x zn], (p_Addr cidr);
        cbn in *; try done; apply Ha. }
    set (d := if Is4 (p_Addr cidr) then _ else _).
    assert (draws_ok d) as Hd.
    { subst d. unfold draws_ok, in_width in *. pose proof (Z.mod_pos_bound z (2 ^ 64) ltac:(lia)).
      destruct (Prefix_shape cidr Hp) as [(v & n & -> & ? & ?)|(v & n & -> & ? & ?)]; cbn in *; [lia|].
      split; [lia|]. split; [|lia]. split; [apply Z.div_pos; lia | apply Z.div_lt_upper_bound; lia]. }
    split; [done|]. rewrite assign_random by (auto; by left).
    replace (if Is4 (p_Addr cidr) then d32 d else d64 d * 2 ^ 64 + d64' d) with z; [by rewrite <- E|].
    subst d. case_one; cbn; [done|]. pose proof (Z.div_mod z (2 ^ 64)). lia.
  - intros (d & Hd & E). rewrite assign_random in E by (auto; by left). injection E as <-.
    apply in_cidr; [done|]. apply mod_pow2_bound. lia.
Qed.

Lemma assignSourceIP_random_exact_witness :
  prefix_Contains (mkPrefix (Addr4 0xC0A80000) 16) (Addr4 0xC0A81234) = true <->
  exists d, draws_ok d /\
    assignSourceIP d (mkPrefix (Addr4 0xC0A80000) 16) None ext_None = Ok (Addr4 0xC0A81234).
Proof. apply assignSourceIP_random_exact; by_decide. Defined.
