(* ===== verification/Handshake.v ===== *)
(** * SOCKS5 method selection and authentication

    Models [internal/server/socks/proto/handshake] (method selection),
    [.../handshake/password] (the RFC 1929 sub-negotiation),
    [internal/server/socks/auth.go] ([AuthAdaptor]) and [conn.go]
    ([IncomingConnection.Authenticate]) as computations on the client
    connection: the bytes they consume, every [Write] they make and the error
    they return. The clock that the username extension reads is [now]. *)

From Stdlib Require Import ZArith Lia.
From stdpp Require Import base tactics numbers list strings sets.
From S2P Require Import Prelude.
From S2P Require Import Ext.
From S2P Require Import Proto.

(** ** handshake: methods, request, response *)

(** [type Method uint8] *)
Definition MethodNoAuth : Z := 0.
Definition MethodGssApi : Z := 1.
Definition MethodPassword : Z := 2.
Definition MethodNoAcceptableMethods : Z := 255.

Definition MethodFromByte (b : Z) : Z :=
  if b =? 0 then MethodNoAuth
  else if b =? 1 then MethodGssApi
  else if b =? 2 then MethodPassword
  else if b =? 255 then MethodNoAcceptableMethods
  else b.

Definition SubnegotiationVersion : Z := 1.

Record MethodRequest := mkMethodRequest { Methods : list Z }.

Fixpoint offered (ms : list Z) (m : Z) : bool :=
  match ms with
  | [] => false
  | o :: ms' => if o =? m then true else offered ms' m
  end.
Definition EvaluateMethod (r : MethodRequest) (m : Z) : bool := offered (Methods r) m.

Definition ReadMethodRequest : io MethodRequest :=
  ver ← readU8;
  _ ← lift (checkVersion ver);
  nmethods ← readU8;
  buf ← readFull nmethods;
  mret (mkMethodRequest (MethodFromByte <$> buf)).

Definition MethodResponse_MarshalTo (m : Z) : io unit := io_Write [Version5; m].

(** ** password: the sub-negotiation *)

Record UsernamePassword := mkUserPass { Username : bytes; Password : bytes }.

Definition ReadPasswordRequest : io UsernamePassword :=
  ver ← readU8;
  if negb (ver =? SubnegotiationVersion)
  then throw (Errorf "unsupported sub-negotiation version %#x" [ver])
  else
    ulen ← readU8;
    buf ← readFull (ulen + 1);
    let plen := idx buf ulen in
    let username := slice buf 0 ulen in
    pwd ← readFull plen;
    mret (mkUserPass username pwd).

Definition PasswordRequest_MarshalTo (up : UsernamePassword) : io unit :=
  let uname := Username up in
  let passwd := Password up in
  io_Write ((([SubnegotiationVersion; wrap 8 (len uname)] ++ uname)
               ++ [wrap 8 (len passwd)]) ++ passwd).

Inductive Status := StatusSucceeded | StatusFailed.
Definition Status_Byte (s : Status) : Z :=
  match s with StatusSucceeded => 0 | StatusFailed => 255 end.

Definition ParseStatus (b : Z) : result Status :=
  if b =? 0 then Ok StatusSucceeded
  else if b =? 255 then Ok StatusFailed
  else Err (Errorf "invalid sub-negotiation status %#x" [b]).

Definition PasswordResponse_MarshalTo (s : Status) : io unit :=
  io_Write [SubnegotiationVersion; Status_Byte s].

(** ** auth.go *)

Inductive authMode := authNone | authPassword.

Record AuthAdaptor := mkAuth { mode : authMode; a_username : bytes; a_password : bytes }.

Definition NoAuthConfig : AuthAdaptor := mkAuth authNone [] [].
Definition PasswordConfig (username password : bytes) : AuthAdaptor :=
  mkAuth authPassword username password.

Definition AuthAdaptor_Method (a : AuthAdaptor) : Z :=
  match mode a with authPassword => MethodPassword | authNone => MethodNoAuth end.

Definition errIncorrect : error := Errorf "username or password is incorrect" [].

Definition executePassword (now : Z) (a : AuthAdaptor) : io Extension :=
  req ← ReadPasswordRequest;
  let equal := HasPrefix (Username req) (a_username a) && eqs (Password req) (a_password a) in
  let status := if equal then StatusSucceeded else StatusFailed in
  _ ← PasswordResponse_MarshalTo status;
  if negb equal then throw errIncorrect
  else mret (TryFrom now (a_username a) (Username req)).

Definition Execute (now : Z) (a : AuthAdaptor) : io Extension :=
  match mode a with
  | authPassword => executePassword now a
  | authNone => mret ext_None
  end.

(** ** conn.go *)

Definition errNoAcceptableMethods : error :=
  Errorf "no available handshake method provided by client" [].

(** The first component says whether the code returns the stream (it returns
    nil before the method was accepted). *)
Definition Authenticate (now : Z) (auth : AuthAdaptor) : stream -> bool * result Extension * stream :=
  fun s =>
  match ReadMethodRequest s with
  | (Err e, s) => (false, Err e, s)
  | (Ok req, s) =>
      let method := AuthAdaptor_Method auth in
      if EvaluateMethod req method then
        match MethodResponse_MarshalTo method s with
        | (Err e, s) => (false, Err e, s)
        | (Ok _, s) =>
            match Execute now auth s with
            | (Err e, s) => (true, Err e, s)
            | (Ok extension, s) => (true, Ok extension, s)
            end
        end
      else
        let '(_, s) := MethodResponse_MarshalTo MethodNoAcceptableMethods s in
        (false, Err errNoAcceptableMethods, s)
  end.

Definition writeReply (reply : Reply) (addr : Address) : io unit :=
  Response_MarshalTo (NewResponse reply addr).

(** ** The messages of RFC 1928 and RFC 1929 *)

(** VER, NMETHODS, METHODS *)
Definition method_message (ms : list Z) : bytes := Version5 :: len ms :: ms.
(** VER, ULEN, UNAME, PLEN, PASSWD *)
Definition userpass_message (up : UsernamePassword) : bytes :=
  SubnegotiationVersion :: len (Username up) :: Username up ++ len (Password up) :: Password up.

Definition UserPass_ok (up : UsernamePassword) : Prop :=
  bytes_ok (Username up) /\ bytes_ok (Password up) /\
  len (Username up) <= 255 /\ len (Password up) <= 255.
#[export] Instance UserPass_ok_dec up : Decision (UserPass_ok up).
Proof. unfold UserPass_ok. apply _. Defined.

Lemma MethodFromByte_id b : MethodFromByte b = b.
Proof. unfold MethodFromByte. repeat case_one; zbool; by subst. Qed.

Lemma MethodFromByte_fmap (l : list Z) : MethodFromByte <$> l = l.
Proof. induction l; cbn; [done|]. by rewrite MethodFromByte_id, IHl. Qed.

Lemma offered_spec ms m : offered ms m = true <-> m ∈ ms.
Proof.
  induction ms as [|o ms IH]; cbn; [split; [done|by intros ?%elem_of_nil]|].
  rewrite elem_of_cons. destruct (Z.eqb_spec o m); [subst; tauto|].
  rewrite IH. split; [tauto|]. intros [->|?]; done.
Qed.

Lemma ReadMethodRequest_complete ms rest s :
  unread s = method_message ms ++ rest ->
  ReadMethodRequest s = (Ok (mkMethodRequest ms), set_unread rest s).
Proof.
  intros Hu. unfold ReadMethodRequest, method_message in *. cbn [app] in Hu.
  erewrite io_bind_step; [|by eapply readU8_app].
  erewrite io_bind_step; [|reflexivity].
  erewrite io_bind_step; [|by eapply readU8_app].
  erewrite io_bind_step; [|by eapply readFull_app].
  io_step. by rewrite MethodFromByte_fmap.
Qed.

Lemma ReadMethodRequest_sound s req s' :
  bytes_ok (unread s) -> ReadMethodRequest s = (Ok req, s') ->
  unread s = method_message (Methods req) ++ unread s' /\ s' = set_unread (unread s') s.
Proof.
  intros Hok (v & s1 & [Hu1 Hs1]%readU8_ok & H)%io_bind_ok.
  apply io_bind_ok in H as ([] & s2 & [Hv ->]%lift_ok & H).
  apply io_bind_ok in H as (n & s3 & [Hu3 Hs3]%readU8_ok & H).
  rewrite Hu1, Hu3 in Hok. apply bytes_ok_cons in Hok as [_ [Hn _]%bytes_ok_cons].
  apply io_bind_ok in H as (buf & s4 & (Hl & Hs4 & Hu4)%readFull_ok & [-> ->]%io_ret_ok);
    [|apply Hn].
  unfold checkVersion in Hv. case_one_in Hv; [done|]. zbool. subst v.
  cbn [Methods]. rewrite MethodFromByte_fmap. unfold method_message.
  rewrite Hu1, Hu3, Hu4, Hl, Hs4, Hs3, Hs1. by cbn.
Qed.

Lemma ReadPasswordRequest_complete up rest s :
  len (Username up) <= 255 ->
  unread s = userpass_message up ++ rest ->
  ReadPasswordRequest s = (Ok up, set_unread rest s).
Proof.
  intros Hl Hu. unfold ReadPasswordRequest, userpass_message in *. cbn [app] in Hu.
  rewrite <- app_assoc in Hu. cbn [app] in Hu.
  erewrite io_bind_step; [|by eapply readU8_app]. cbn [negb Z.eqb SubnegotiationVersion Pos.eqb].
  erewrite io_bind_step; [|by eapply readU8_app].
  erewrite io_bind_step; [|eapply (readFull_app _ (Username up ++ [len (Password up)]));
    [autorewrite with go; lia | cbn; by rewrite <- app_assoc]].
  replace (idx (Username up ++ [len (Password up)]) (len (Username up))) with (len (Password up)).
  - erewrite io_bind_step; [|by eapply readFull_app]. io_step.
    replace (Username up ++ [len (Password up)]) with ([] ++ Username up ++ [len (Password up)]) by done.
    rewrite slice_app by done. by destruct up.
  - unfold idx. rewrite app_nth2, <- length_len, Nat.sub_diag; [done | rewrite <- length_len; lia].
Qed.

Lemma ReadPasswordRequest_sound s up s' :
  bytes_ok (unread s) -> ReadPasswordRequest s = (Ok up, s') ->
  unread s = userpass_message up ++ unread s' /\ s' = set_unread (unread s') s /\ UserPass_ok up.
Proof.
  intros Hok (v & s1 & [Hu1 Hs1]%readU8_ok & H)%io_bind_ok.
  case_one_in H; [done|]. zbool. subst v.
  apply io_bind_ok in H as (ul & s2 & [Hu2 Hs2]%readU8_ok & H).
  rewrite Hu1, Hu2 in Hok. apply bytes_ok_cons in Hok as [_ [Hul Hok]%bytes_ok_cons].
  unfold in_width in Hul. change (2 ^ 8) with 256 in Hul.
  apply io_bind_ok in H as (buf & s3 & (Hl & Hs3 & Hu3)%readFull_ok & H); [|lia].
  rewrite Hu3 in Hok. apply bytes_ok_app in Hok as [Hbuf Hok].
  destruct (cut_at buf ul) as (un & p & -> & Hun); [lia|]. rewrite len_app in Hl.
  assert (length p = 1%nat) as Hp by (apply len_eq; lia). explode. rename z into pl.
  apply bytes_ok_app in Hbuf as [Hunok [Hpl _]%bytes_ok_cons].
  replace (idx (un ++ [pl]) ul) with pl in H.
  2:{ rewrite <- Hun. unfold idx. rewrite app_nth2, <- length_len, Nat.sub_diag;
        [done | rewrite <- length_len; lia]. }
  replace (slice (un ++ [pl]) 0 ul) with un in H by (by rewrite (slice_app [] un [pl])).
  apply io_bind_ok in H as (pw & s4 & (Hlp & Hs4 & Hu4)%readFull_ok & [-> ->]%io_ret_ok);
    [|apply Hpl].
  rewrite Hu4 in Hok. apply bytes_ok_app in Hok as [Hpwok _].
  unfold in_width in Hpl. change (2 ^ 8) with 256 in Hpl.
  unfold userpass_message, UserPass_ok. cbn [Username Password]. split_and!; try done; try lia.
  - rewrite Hu1, Hu2, Hu3, Hu4, Hlp, Hun. cbn. by rewrite <- !app_assoc.
  - by rewrite Hs4, Hs3, Hs2, Hs1.
Qed.

(** ** Properties *)

(** The connection after [n] more replies, with [rest] left to read. *)
Definition after (s : stream) (rest : bytes) (replies : list bytes) : stream :=
  mkStream rest (rerr s) (sent s ++ replies) (werr s).

Lemma after_write s rest l b :
  writes_ok s -> io_Write b (after s rest l) = (Ok tt, after s rest (l ++ [b])).
Proof.
  intros Hw. rewrite io_Write_ok by done. unfold add_sent, after. cbn. by rewrite app_assoc.
Qed.

Lemma set_unread_after s rest : set_unread rest s = after s rest [].
Proof. unfold after, set_unread. by rewrite app_nil_r. Qed.

Lemma eqs_true a b : eqs a b = true <-> a = b.
Proof. apply bool_decide_eq_true. Qed.

(** The sub-negotiation on a complete message. *)
Lemma executePassword_complete now u p up rest s l :
  writes_ok s -> UserPass_ok up ->
  let equal := HasPrefix (Username up) u && eqs (Password up) p in
  executePassword now (PasswordConfig u p) (after s (userpass_message up ++ rest) l)
  = (if equal then Ok (TryFrom now u (Username up)) else Err errIncorrect,
     after s rest (l ++ [[1; if equal then 0 else 255]])).
Proof.
  intros Hw (_ & _ & Hl & _) equal. unfold executePassword.
  rewrite (io_bind_step _ _ _ up (after s rest l)) by
    exact (ReadPasswordRequest_complete up rest (after s _ l) Hl eq_refl).
  cbn [a_username a_password PasswordConfig]. fold equal.
  unfold PasswordResponse_MarshalTo. rewrite (io_bind_step _ _ _ _ _ (after_write _ _ _ _ Hw)).
  by destruct equal.
Qed.

(** Method selection on a complete message. *)
Lemma Authenticate_selected now auth ms rest s :
  writes_ok s -> AuthAdaptor_Method auth ∈ ms ->
  unread s = method_message ms ++ rest ->
  Authenticate now auth s =
    let '(r, s') := Execute now auth (after s rest [[Version5; AuthAdaptor_Method auth]]) in
    (true, r, s').
Proof.
  intros Hw Hm Hu. unfold Authenticate. rewrite (ReadMethodRequest_complete ms rest s Hu).
  unfold EvaluateMethod. cbn [Methods]. rewrite (proj2 (offered_spec _ _) Hm).
  unfold MethodResponse_MarshalTo. rewrite set_unread_after, after_write by done. cbn [app].
  by destruct (Execute now auth _) as [[?|?] ?].
Qed.

(** A write that succeeded. *)
Lemma io_Write_done b s x s' : io_Write b s = (Ok x, s') -> s' = add_sent b s.
Proof. unfold io_Write, add_sent. case_one; by intros [= <- <-]. Qed.

(** Success of the sub-negotiation: the credentials were in the message, and the
    status has been written. *)
Lemma executePassword_sound now u p s e s' :
  bytes_ok (unread s) -> executePassword now (PasswordConfig u p) s = (Ok e, s') ->
  exists uname, unread s = userpass_message (mkUserPass uname p) ++ unread s' /\
    UserPass_ok (mkUserPass uname p) /\ HasPrefix uname u = true /\
    e = TryFrom now u uname /\ s' = after s (unread s') [[1; 0]].
Proof.
  intros Hok ([un pw] & s1 & Hr & H)%io_bind_ok.
  apply ReadPasswordRequest_sound in Hr as (Hu & Hs1 & Hup); [|done].
  cbn [Username Password a_username a_password PasswordConfig] in H.
  destruct (HasPrefix un u && eqs pw p) eqn:He; cbn [negb] in H;
    apply io_bind_ok in H as (x & s2 & Hw%io_Write_done & H); [|done].
  apply io_ret_ok in H as [-> ->]. apply andb_true_iff in He as [He ->%eqs_true].
  exists un. rewrite Hw, Hs1. by split_and!.
Qed.

(** Success of the whole negotiation, whatever fails on the connection. *)
Lemma Authenticate_sound now u p s b e s' :
  bytes_ok (unread s) -> Authenticate now (PasswordConfig u p) s = (b, Ok e, s') ->
  exists ms uname rest,
    unread s = method_message ms ++ userpass_message (mkUserPass uname p) ++ rest /\
    MethodPassword ∈ ms /\ UserPass_ok (mkUserPass uname p) /\ HasPrefix uname u = true /\
    e = TryFrom now u uname /\ s' = after s rest [[5; 2]; [1; 0]].
Proof.
  intros Hok. unfold Authenticate. destruct (ReadMethodRequest s) as [[req|] s1] eqn:H1; [|done].
  apply ReadMethodRequest_sound in H1 as [Hu1 Hs1]; [|done]. rewrite Hu1 in Hok.
  apply bytes_ok_app in Hok as [_ Hok]. unfold EvaluateMethod. destruct (offered _ _) eqn:Ho; [|by case_one].
  destruct (MethodResponse_MarshalTo _ s1) as [[x|] s2] eqn:Hw; [|done]. apply io_Write_done in Hw as ->.
  change (Execute now _) with (executePassword now (PasswordConfig u p)).
  destruct (executePassword _ _ _) as [[y|] s3] eqn:H2; [|done]. intros [= <- <- <-].
  apply executePassword_sound in H2 as (un & Hu3 & Hup & Hp & -> & Hs3); [|done].
  exists (Methods req), un, (unread s3). apply offered_spec in Ho.
  cbn [unread add_sent] in Hu3. rewrite Hu1, Hu3. split_and!; try done.
  rewrite Hs3, Hs1. unfold after, add_sent. cbn. by rewrite <- app_assoc.
Qed.

(** Success of the password negotiation, from both sides. *)
Lemma Authenticate_ok_iff now u p s e s' :
  bytes_ok (unread s) -> writes_ok s ->
  Authenticate now (PasswordConfig u p) s = (true, Ok e, s') <->
  exists ms uname rest,
    unread s = method_message ms ++ userpass_message (mkUserPass uname p) ++ rest /\
    MethodPassword ∈ ms /\ UserPass_ok (mkUserPass uname p) /\ HasPrefix uname u = true /\
    e = TryFrom now u uname /\ s' = after s rest [[5; 2]; [1; 0]].
Proof.
  intros Hok Hw. split; [by apply Authenticate_sound|].
  intros (ms & uname & rest & Hu & Hm & Hup & Hp & -> & ->).
  rewrite (Authenticate_selected _ (PasswordConfig u p) _ _ _ Hw Hm Hu).
  change (Execute now _) with (executePassword now (PasswordConfig u p)).
  rewrite executePassword_complete by done. cbn [Username Password].
  rewrite Hp, (proj2 (eqs_true p p)) by done. done.
Qed.

(** C1: who gets in. With a username and password configured, [Authenticate]
    succeeds only on the connections whose bytes are a method-selection
    message that offers the password method followed by a username/password
    message whose username starts with the configured one and whose password is
    the configured one, whatever writes fail; it has then consumed exactly those
    bytes, replied [5,2] and [1,0], and returned the extension of that username.
    On a connection on which no write fails it succeeds on all of them. *)
Theorem Authenticate_accepts now u p s e s' :
  bytes_ok (unread s) ->
  let granted := exists ms uname rest,
    unread s = method_message ms ++ userpass_message (mkUserPass uname p) ++ rest /\
    MethodPassword ∈ ms /\ UserPass_ok (mkUserPass uname p) /\ HasPrefix uname u = true /\
    e = TryFrom now u uname /\ s' = after s rest [[5; 2]; [1; 0]] in
  (Authenticate now (PasswordConfig u p) s = (true, Ok e, s') -> granted) /\
  (writes_ok s ->
   Authenticate now (PasswordConfig u p) s = (true, Ok e, s') <-> granted).
Proof. intros Hok. split; [by apply Authenticate_sound | by apply Authenticate_ok_iff]. Qed.

Lemma Authenticate_accepts_witness :
  let s := mkStream ([5; 2; 0; 2] ++ [1; 2; 117; 118; 1; 112] ++ [5; 1]) EOF [] (fun _ => None) in
  Authenticate 0 (PasswordConfig [117] [112]) s
    = (true, Ok (TryFrom 0 [117] [117; 118]), after s [5; 1] [[5; 2]; [1; 0]]) /\
  exists ms uname rest,
    unread s = method_message ms ++ userpass_message (mkUserPass uname [112]) ++ rest /\
    MethodPassword ∈ ms /\ UserPass_ok (mkUserPass uname [112]) /\ HasPrefix uname [117] = true /\
    TryFrom 0 [117] [117; 118] = TryFrom 0 [117] uname /\
    after s [5; 1] [[5; 2]; [1; 0]] = after s rest [[5; 2]; [1; 0]].
Proof.
  cbn zeta. split; [reflexivity|].
  refine (proj1 (Authenticate_accepts 0 [117] [112] _ _ _ _) _); [by_decide | reflexivity].
Defined.

(** What a rejected or unauthenticated client sees. A client whose
    credentials are wrong is told so with [1,255] and gets an error, one that
    does not offer the configured method gets [5,255]; without authentication
    configured, a client offering it gets [5,0] and no extension. *)
Theorem Authenticate_replies now auth ms up rest s :
  writes_ok s -> UserPass_ok up ->
  (AuthAdaptor_Method auth ∉ ms -> unread s = method_message ms ++ rest ->
   Authenticate now auth s
     = (false, Err errNoAcceptableMethods, after s rest [[5; 255]])) /\
  (mode auth = authPassword -> MethodPassword ∈ ms ->
   HasPrefix (Username up) (a_username auth) && eqs (Password up) (a_password auth) = false ->
   unread s = method_message ms ++ userpass_message up ++ rest ->
   Authenticate now auth s = (true, Err errIncorrect, after s rest [[5; 2]; [1; 255]])) /\
  (mode auth = authNone -> MethodNoAuth ∈ ms -> unread s = method_message ms ++ rest ->
   Authenticate now auth s = (true, Ok ext_None, after s rest [[5; 0]])).
Proof.
  intros Hw Hup. destruct auth as [m u p]. cbn [mode a_username a_password]. split_and!.
  - intros Hm Hu. unfold Authenticate. rewrite (ReadMethodRequest_complete ms rest s Hu).
    unfold EvaluateMethod. cbn [Methods]. destruct (offered ms _) eqn:Ho.
    + by apply offered_spec in Ho.
    + unfold MethodResponse_MarshalTo. by rewrite set_unread_after, after_write.
  - intros -> Hm He Hu. rewrite (Authenticate_selected _ (mkAuth authPassword u p) _ _ _ Hw Hm Hu).
    change (Execute now _) with (executePassword now (PasswordConfig u p)).
    rewrite executePassword_complete by done. by rewrite He.
  - intros -> Hm Hu. by rewrite (Authenticate_selected _ (mkAuth authNone u p) _ _ _ Hw Hm Hu).
Qed.

Lemma Authenticate_replies_witness :
  Authenticate 0 (PasswordConfig [117] [112]) (mkStream [5; 1; 0; 9] EOF [] (fun _ => None))
    = (false, Err errNoAcceptableMethods,
       after (mkStream [5; 1; 0; 9] EOF [] (fun _ => None)) [9] [[5; 255]]) /\
  Authenticate 0 NoAuthConfig (mkStream [5; 1; 0; 9] EOF [] (fun _ => None))
    = (true, Ok ext_None, after (mkStream [5; 1; 0; 9] EOF [] (fun _ => None)) [9] [[5; 0]]).
Proof.
  split.
  - apply (Authenticate_replies 0 (PasswordConfig [117] [112]) [0] (mkUserPass [] []) [9]);
      [done | by_decide | by_decide | reflexivity].
  - apply (Authenticate_replies 0 NoAuthConfig [0] (mkUserPass [] []) [9]);
      [done | by_decide | reflexivity | by_decide | reflexivity].
Defined.

(** What one step of a handler may append to the replies. *)
Lemma io_Write_sent b s r s' :
  io_Write b s = (r, s') ->
  (r = Ok tt /\ sent s' = sent s ++ [b]) \/ (is_ok r = false /\ sent s' = sent s).
Proof. unfold io_Write. case_one; intros [= <- <-]; [by right | by left]. Qed.

Lemma io_ReadFull_sent n s r s' : io_ReadFull n s = (r, s') -> sent s' = sent s.
Proof. unfold io_ReadFull. case_one; by intros [= <- <-]. Qed.

Lemma bind_sent {A B} (m : io A) (f : A -> io B) s r s' :
  (forall r1 s1, m s = (r1, s1) -> sent s1 = sent s) ->
  (forall a s1, f a s1 = (r, s') -> sent s1 = sent s -> sent s' = sent s) ->
  (m ≫= f) s = (r, s') -> sent s' = sent s.
Proof.
  intros Hm Hf. io_step. destruct (m s) as [[a|] s1] eqn:E; [|intros [= <- <-]; by eapply Hm].
  intros H. eapply Hf; [done | by eapply Hm].
Qed.

Lemma readU8_sent s r s' : readU8 s = (r, s') -> sent s' = sent s.
Proof.
  apply bind_sent; [apply io_ReadFull_sent|]. intros a s1. io_step. by intros [= <- <-].
Qed.

Lemma ReadMethodRequest_sent s r s' : ReadMethodRequest s = (r, s') -> sent s' = sent s.
Proof.
  apply bind_sent; [apply readU8_sent|]. intros v s1 H1 E1. rewrite <- E1. revert H1.
  apply bind_sent; [by unfold lift; intros ?? [= <- <-]|]. intros [] s2 H2 E2.
  rewrite <- E2. revert H2. apply bind_sent; [apply readU8_sent|].
  intros n s3 H3 E3. rewrite <- E3. revert H3.
  apply bind_sent; [apply io_ReadFull_sent|]. intros b s4 H4 E4. io_step. by injection H4 as <- <-.
Qed.

Lemma ReadPasswordRequest_sent s r s' : ReadPasswordRequest s = (r, s') -> sent s' = sent s.
Proof.
  apply bind_sent; [apply readU8_sent|]. intros v s1 H1 E1. rewrite <- E1. revert H1.
  case_one; [by intros [= <- <-]|].
  apply bind_sent; [apply readU8_sent|]. intros n s2 H2 E2. rewrite <- E2. revert H2.
  apply bind_sent; [apply io_ReadFull_sent|]. intros b s3 H3 E3. rewrite <- E3. revert H3.
  apply bind_sent; [apply io_ReadFull_sent|]. intros w s4 H4 E4. by injection H4 as <- <-.
Qed.

(** The success status is never sent to a client that is not let in. On
    every connection, whatever the client sends and whichever read or write
    fails, [Authenticate] with a password configured writes [1,0] exactly when
    it returns success, and then the replies are [5,2], [1,0]. *)
Theorem Authenticate_success_status now u p s b r s' :
  Authenticate now (PasswordConfig u p) s = (b, r, s') ->
  exists replies, sent s' = sent s ++ replies /\
    (is_ok r = true -> replies = [[5; 2]; [1; 0]]) /\
    (is_ok r = false -> [1; 0] ∉ replies).
Proof.
  unfold Authenticate.
  destruct (ReadMethodRequest s) as [[req|] s1] eqn:H1; apply ReadMethodRequest_sent in H1.
  2: { intros [= <- <- <-]. exists []. rewrite app_nil_r. set_solver. }
  unfold MethodResponse_MarshalTo. case_one.
  - destruct (io_Write _ s1) as [r2 s2] eqn:H2. apply io_Write_sent in H2.
    destruct r2 as [[]|]; [|intros [= <- <- <-]; destruct H2 as [[? _]|[_ E]]; [done|];
      exists []; rewrite E, app_nil_r; set_solver].
    destruct H2 as [[_ E2]|[? _]]; [|done]. rewrite H1 in E2.
    change (Execute now _) with (executePassword now (PasswordConfig u p)).
    unfold executePassword. io_step.
    destruct (ReadPasswordRequest s2) as [[up|] s3] eqn:H3; apply ReadPasswordRequest_sent in H3.
    2: { intros [= <- <- <-]. exists [[5; 2]]. rewrite H3, E2. set_solver. }
    unfold PasswordResponse_MarshalTo.
    destruct (io_Write _ s3) as [r4 s4] eqn:H4. apply io_Write_sent in H4.
    destruct r4 as [[]|].
    + destruct H4 as [[_ E4]|[? _]]; [|done]. rewrite H3, E2, <- app_assoc in E4.
      destruct (HasPrefix _ _ && eqs _ _); cbn; intros [= <- <- <-];
        eexists; (split; [exact E4|]); cbn; set_solver.
    + intros [= <- <- <-]. destruct H4 as [[? _]|[_ E4]]; [done|].
      exists [[5; 2]]. rewrite E4, H3, E2. set_solver.
  - destruct (io_Write _ s1) as [r2 s2] eqn:H2. apply io_Write_sent in H2.
    intros [= <- <- <-]. destruct H2 as [[_ E]|[_ E]]; rewrite H1 in E.
    + exists [[5; 255]]. set_solver.
    + exists []. rewrite E, app_nil_r. set_solver.
Qed.

Lemma Authenticate_success_status_witness :
  let s := mkStream [5; 1; 2; 1; 1; 117; 1; 120] EOF [] (fun _ => None) in
  exists replies, [[5; 2]; [1; 255]] = [] ++ replies /\
    (false = true -> replies = [[5; 2]; [1; 0]]) /\ (false = false -> [1; 0] ∉ replies).
Proof.
  exact (Authenticate_success_status 0 [117] [112]
    (mkStream [5; 1; 2; 1; 1; 117; 1; 120] EOF [] (fun _ => None)) true (Err errIncorrect)
    (after (mkStream [5; 1; 2; 1; 1; 117; 1; 120] EOF [] (fun _ => None)) [] [[5; 2]; [1; 255]])
    eq_refl).
Defined.

(** A username/password request written by a client is read back: for
    fields of at most 255 bytes, [ReadPasswordRequest] consumes exactly the
    bytes [PasswordRequest_MarshalTo] wrote. *)
Theorem PasswordRequest_roundtrip up rest s s2 :
  UserPass_ok up -> writes_ok s -> sent s = [] ->
  exists s', PasswordRequest_MarshalTo up s = (Ok tt, s') /\
    ReadPasswordRequest (set_unread (concat (sent s') ++ rest) s2) = (Ok up, set_unread rest s2).
Proof.
  intros (Hu & Hp & Hlu & Hlp) Hw Hs. eexists. split; [by apply io_Write_ok|].
  cbn [sent add_sent]. rewrite Hs. cbn [app concat]. rewrite app_nil_r.
  pose proof (len_nonneg (Username up)). pose proof (len_nonneg (Password up)).
  rewrite !wrap_id by (unfold in_width; lia).
  rewrite (ReadPasswordRequest_complete up rest); [done | done |].
  unfold userpass_message. cbn. by rewrite <- !app_assoc.
Qed.

Lemma PasswordRequest_roundtrip_witness :
  exists s', PasswordRequest_MarshalTo (mkUserPass (str "user") (str "pw"))
                (mkStream [] EOF [] (fun _ => None)) = (Ok tt, s') /\
    ReadPasswordRequest (set_unread (concat (sent s') ++ [5]) (mkStream [] EOF [] (fun _ => None)))
      = (Ok (mkUserPass (str "user") (str "pw")),
         set_unread [5] (mkStream [] EOF [] (fun _ => None))).
Proof. apply PasswordRequest_roundtrip; [by_decide | done | done]. Defined.
