(* ===== verification/Config.v ===== *)
(** * Configuration (package [config])

    Models [internal/config/config.go]: the boot arguments, their defaults,
    the parser of the fallback and [BootArgs.Validate]. Integers of Go's [int]
    are [Z]; an optional setting (a pointer in the code) is an [option]. *)

From Stdlib Require Import ZArith Lia.
From stdpp Require Import base tactics numbers list strings.
From S2P Require Import Prelude.
From S2P Require Import Netip.
From S2P Require Import Uint128.
From S2P Require Import Ext.
From S2P Require Import SourceIP.

Record AuthMode := mkAuthMode { am_Username : bytes; am_Password : bytes }.

Definition HasAuth (a : AuthMode) : bool :=
  negb (eqs (am_Username a) []) && negb (eqs (am_Password a) []).

Inductive ProxyKind := ProxyHTTP | ProxyHTTPS | ProxySocks5 | ProxyAuto.

Record ProxyConfig := mkProxyConfig {
  Kind : ProxyKind;
  Auth : AuthMode;
  TLSCert : bytes;
  TLSKey : bytes
}.

Record Fallback := mkFallback { fb_Address : Addr; fb_Interface : bytes }.

Definition DefaultUDPMaxPacketSize : Z := 65507.
Definition DefaultUDPBatchSize : Z := 32.
Definition DefaultUDPBatchBufferBudget : Z := 1024.
Definition DefaultUDPSendQueueSize : Z := 4096.
Definition DefaultUDPMetricsIntervalSecs : Z := 30.
Definition DefaultMaxPendingDials : Z := 512.

Record UDPConfig := mkUDPConfig {
  MaxPacketSize : Z;
  BatchSize : Z;
  BatchBufferBudget : Z;
  SendQueueSize : Z;
  SendWorkers : Z;
  SocketBufferBytes : Z;
  MaxAssociations : Z;
  MetricsIntervalSecs : Z;
  AssociationIdleTimeoutSecs : Z;
  GSO : bool;
  GRO : bool
}.

Definition IsInterface (f : Fallback) : bool := negb (eqs (fb_Interface f) []).

(** A string that is not an IP address is taken as an interface name. *)
Definition ParseFallback (s : bytes) : result Fallback :=
  match ParseAddr s with
  | Ok addr => Ok (mkFallback addr [])
  | Err _ => Ok (mkFallback AddrZero s)
  end.

Record BootArgs := mkBootArgs {
  LogLevel : bytes;
  Bind : AddrPort;
  Concurrent : Z;
  Workers : Z;
  CIDR : option Prefix;
  CIDRRange : option Z;
  ba_Fallback : option Fallback;
  ConnectTimeout : Z;
  TCPUserTimeout : option Z;
  ReuseAddr : option bool;
  MaxPendingDials : Z;
  ReusePort : bool;
  UDP : UDPConfig;
  Proxy : ProxyConfig
}.

Definition Validate (a : BootArgs) : result unit :=
  if Concurrent a =? 0 then
    Err (Errorf "concurrent connection limit must be greater than zero" [])
  else if ConnectTimeout a =? 0 then Err (Errorf "connect timeout must be greater than zero" [])
  else if Workers a <? 0 then Err (Errorf "workers must not be negative" [])
  else if (MaxPacketSize (UDP a) <? 512) || (65535 <? MaxPacketSize (UDP a)) then
    Err (Errorf "UDP maximum packet size must be between 512 and 65535" [])
  else if (BatchSize (UDP a) <? 1) || (1024 <? BatchSize (UDP a)) then
    Err (Errorf "UDP batch size must be between 1 and 1024" [])
  else if BatchBufferBudget (UDP a) <? 0 then
    Err (Errorf "UDP batch buffer budget must not be negative" [])
  else if SendQueueSize (UDP a) <? 1 then
    Err (Errorf "UDP send queue size must be greater than zero" [])
  else if (SendWorkers (UDP a) <? 0) || (4096 <? SendWorkers (UDP a)) then
    Err (Errorf "UDP send workers must be between 0 and 4096" [])
  else if negb (SocketBufferBytes (UDP a) =? 0) &&
          ((SocketBufferBytes (UDP a) <? 4096) || (Z.shiftl 1 30 <? SocketBufferBytes (UDP a))) then
    Err (Errorf "UDP socket buffer must be 0 (system default) or between 4096 and %d bytes"
           [Z.shiftl 1 30])
  else if Concurrent a <? MaxAssociations (UDP a) then
    Err (Errorf "UDP association limit must not exceed concurrent connection limit" [])
  else if xorb (eqs (am_Username (Auth (Proxy a))) []) (eqs (am_Password (Auth (Proxy a))) []) then
    Err (Errorf "username and password must be configured together" [])
  else if xorb (eqs (TLSCert (Proxy a)) []) (eqs (TLSKey (Proxy a)) []) then
    Err (Errorf "TLS certificate and key must be configured together" [])
  else
    match CIDRRange a with
    | Some r =>
        match CIDR a with
        | None => Err (Errorf "CIDR range requires a CIDR" [])
        | Some cidr =>
            if (r <? p_Bits cidr) || (BitLen (p_Addr cidr) <? r) then
              Err (Errorf "CIDR range must be between %d and %d" [p_Bits cidr; BitLen (p_Addr cidr)])
            else Ok tt
        end
    | None => Ok tt
    end.

Definition DefaultBootArgs : BootArgs := {|
  LogLevel := str "info";
  Bind := AddrPortFrom (Addr4 0x7f000001) 1080;
  Concurrent := 8192;
  Workers := 0;
  CIDR := None;
  CIDRRange := None;
  ba_Fallback := None;
  ConnectTimeout := 10;
  TCPUserTimeout := None;
  ReuseAddr := Some true;
  MaxPendingDials := DefaultMaxPendingDials;
  ReusePort := false;
  UDP := {| MaxPacketSize := DefaultUDPMaxPacketSize;
            BatchSize := DefaultUDPBatchSize;
            BatchBufferBudget := DefaultUDPBatchBufferBudget;
            SendQueueSize := DefaultUDPSendQueueSize;
            SendWorkers := 0; SocketBufferBytes := 0; MaxAssociations := 0;
            MetricsIntervalSecs := DefaultUDPMetricsIntervalSecs;
            AssociationIdleTimeoutSecs := 0; GSO := false; GRO := false |};
  Proxy := {| Kind := ProxyHTTP; Auth := mkAuthMode [] []; TLSCert := []; TLSKey := [] |}
|}.

(** [strings.ToLower] on ASCII (no other letter folds to one of the levels'
    names byte for byte, except U+212A and U+017F, which have no place in them). *)
Definition toLower (s : bytes) : bytes :=
  (fun c => if (65 <=? c) && (c <=? 90) then c + 32 else c) <$> s.

Definition ParseLogLevel (s : bytes) : bytes :=
  let l := toLower s in
  if eqs l (str "trace") then str "DEBUG"
  else if eqs l (str "debug") then str "DEBUG"
  else if eqs l (str "info") then str "INFO"
  else if eqs l (str "warn") then str "WARN"
  else if eqs l (str "error") then str "ERROR"
  else str "INFO".

(** ** Properties *)

(** What the rest of the program relies on after [Validate]. *)
Record Valid (a : BootArgs) : Prop := {
  v_concurrent : Concurrent a <> 0;
  v_timeout : ConnectTimeout a <> 0;
  v_workers : 0 <= Workers a;
  v_packet : 512 <= MaxPacketSize (UDP a) <= 65535;
  v_batch : 1 <= BatchSize (UDP a) <= 1024;
  v_budget : 0 <= BatchBufferBudget (UDP a);
  v_queue : 1 <= SendQueueSize (UDP a);
  v_send_workers : 0 <= SendWorkers (UDP a) <= 4096;
  v_sockbuf : SocketBufferBytes (UDP a) = 0 \/ 4096 <= SocketBufferBytes (UDP a) <= 2 ^ 30;
  v_assoc : MaxAssociations (UDP a) <= Concurrent a;
  v_auth : am_Username (Auth (Proxy a)) = [] <-> am_Password (Auth (Proxy a)) = [];
  v_tls : TLSCert (Proxy a) = [] <-> TLSKey (Proxy a) = [];
  v_range : match CIDRRange a with
            | None => True
            | Some r => exists cidr, CIDR a = Some cidr /\ p_Bits cidr <= r <= BitLen (p_Addr cidr)
            end
}.

Lemma xorb_eqs_nil x y : xorb (eqs x []) (eqs y []) = false <-> (x = [] <-> y = []).
Proof. unfold eqs. do 2 case_bool_decide; cbn; split; try done; tauto. Qed.

Lemma Validate_iff a : Validate a = Ok tt <-> Valid a.
Proof.
  unfold Validate. split.
  - repeat (case_one; [done|]). zbool. change (Z.shiftl 1 30) with (2 ^ 30) in *.
    repeat match goal with H : xorb _ _ = false |- _ => apply xorb_eqs_nil in H end.
    intros Hr. constructor; try done; try lia.
    destruct (CIDRRange a); [|done]. destruct (CIDR a) as [cidr|]; [|done].
    exists cidr. case_one_in Hr; [done|]. zbool. split; [done|lia].
  - intros [? ? ? ? ? ? ? ? Hs ? Ha Ht Hr]. change (Z.shiftl 1 30) with (2 ^ 30).
    apply xorb_eqs_nil in Ha, Ht. rewrite Ha, Ht.
    repeat (case_one; [exfalso; zbool; repeat match goal with
      | H : orb _ _ = true |- _ => apply orb_true_iff in H; destruct H; zbool end; lia|]).
    destruct (CIDRRange a) as [r|]; [|done]. destruct Hr as (cidr & -> & Hr).
    rewrite !(proj2 (Z.ltb_ge _ _)) by lia. done.
Qed.

(** The range that [Validate] lets through is one [assignSourceIP] keeps inside
    the CIDR. *)
Lemma Validate_range_ok a cidr :
  Validate a = Ok tt -> CIDR a = Some cidr -> Prefix_ok cidr -> range_ok cidr (CIDRRange a).
Proof.
  intros [_ _ _ _ _ _ _ _ _ _ _ _ Hr]%Validate_iff Hc (_ & _ & _ & Hb).
  unfold range_ok. destruct (CIDRRange a); [|done]. destruct Hr as (? & ? & ?).
  simplify_eq. lia.
Qed.

Lemma DefaultBootArgs_valid : Validate DefaultBootArgs = Ok tt.
Proof. reflexivity. Qed.

(** [Validate] accepts exactly the configurations that meet every
    constraint the program relies on, the defaults among them; an accepted
    range is one with which the source addresses stay inside the CIDR. *)
Theorem Validate_spec a :
  (Validate a = Ok tt <-> Valid a) /\ Validate DefaultBootArgs = Ok tt /\
  (Validate a = Ok tt -> forall cidr d e, CIDR a = Some cidr -> Prefix_ok cidr ->
   draws_ok d -> u64 (ext_Value e) ->
   exists src, assignSourceIP d cidr (CIDRRange a) e = Ok src /\
               prefix_Contains cidr src = true).
Proof.
  split; [apply Validate_iff|]. split; [apply DefaultBootArgs_valid|].
  intros Hv cidr d e Hc Hp Hd He.
  destruct (assign_contained d cidr (CIDRRange a) e) as (src & ? & _ & ?); eauto.
  by eapply Validate_range_ok.
Qed.

Lemma Validate_spec_witness :
  exists src, assignSourceIP (mkDraws 1 2 3) (mkPrefix (Addr4 0x0A000000) 8) (Some 16)
                (mkExtension ExtRange 99) = Ok src /\
    prefix_Contains (mkPrefix (Addr4 0x0A000000) 8) src = true.
Proof.
  destruct (Validate_spec {|
    LogLevel := []; Bind := Bind DefaultBootArgs; Concurrent := 1; Workers := 0;
    CIDR := Some (mkPrefix (Addr4 0x0A000000) 8); CIDRRange := Some 16; ba_Fallback := None;
    ConnectTimeout := 1; TCPUserTimeout := None; ReuseAddr := None; MaxPendingDials := 0;
    ReusePort := false; UDP := UDP DefaultBootArgs; Proxy := Proxy DefaultBootArgs |})
    as (_ & _ & H).
  apply H; [reflexivity | reflexivity | by_decide | by_decide | by_decide].
Defined.
