(* ===== verification/DnsCache.v ===== *)
(** * The DNS cache ([dns_cache.go])

    Models [internal/connect/dns_cache.go]. The critical sections of [Lookup]
    are functions on the state the mutex protects; a goroutine in [Lookup] is a
    program counter that steps from one critical section to the next, so that
    every interleaving of concurrent lookups, cancellations and clock ticks is
    a run of [dns_step]. The resolver behind [lookup] is a parameter: the
    relation between a name and the answers it may give. The order in which Go
    ranges over a map is arbitrary, so the entry that [evictLocked] drops is
    any entry of the map. *)

From Stdlib Require Import ZArith Lia.
From stdpp Require Import base tactics numbers list strings gmap sets relations.
From S2P Require Import Prelude.
From S2P Require Import Netip.
From S2P Require Import Uint128.
From S2P Require Import Ext.
From S2P Require Import SourceIP.
From S2P Require Import Config.

Definition defaultDNSCacheTTL : Z := 30 * 1000000000.
Definition defaultDNSNegativeCacheTTL : Z := 3 * 1000000000.
Definition defaultDNSCacheSize : Z := 4096.
Definition defaultMaxDNSLookups : Z := 128.

(** A Go pair [([]netip.Addr, error)]. *)
Abbreviation answer := (list Addr * option error)%type.

Record dnsCacheEntry := mkEntry { e_addrs : list Addr; e_err : option error; expiresAt : Z }.

(** [entries] and [inflight] are the maps of the code; an in-flight call is a
    pointer, here an index into [calls], which holds the answer once the call's
    [done] channel is closed; [slots] is the number of tokens in
    [lookupSlots]. *)
Record dnsCache := mkDnsCache {
  entries : gmap bytes dnsCacheEntry;
  inflight : gmap bytes nat;
  calls : gmap nat (option answer);
  slots : Z;
  dc_ttl : Z;
  dc_negativeTTL : Z;
  maxEntries : Z;
  maxConcurrent : Z
}.

Definition newDNSCache (ttl negativeTTL maxEntries maxConcurrent : Z) : dnsCache :=
  let maxConcurrent := if maxConcurrent <? 1 then 1 else maxConcurrent in
  mkDnsCache ∅ ∅ ∅ 0 ttl negativeTTL maxEntries maxConcurrent.

Definition defaultDNSCache : dnsCache :=
  newDNSCache defaultDNSCacheTTL defaultDNSNegativeCacheTTL defaultDNSCacheSize defaultMaxDNSLookups.

(** The lookup function of the default cache, around the system resolver's
    answer. *)
Definition default_lookup (r : answer) : answer :=
  match r with
  | (_, Some e) => ([], Some e)
  | (addrs, None) => (Unmap <$> addrs, None)
  end.

Definition normalizeDNSName (host : bytes) : bytes := toLower (TrimSuffix host (str ".")).

(** [now.Before(expiresAt)] *)
Definition Before (now t : Z) : bool := now <? t.

Definition LookupCached (c : dnsCache) (now : Z) (host : bytes) : option (list Addr) :=
  match entries c !! normalizeDNSName host with
  | Some e =>
      match e_err e with
      | Some _ => None
      | None => if (len (e_addrs e) =? 0) || negb (Before now (expiresAt e)) then None
                else Some (e_addrs e)
      end
  | None => None
  end.

(** ** Critical sections of [Lookup] *)

(** The fast path, under the read lock. *)
Definition Lookup_fast (c : dnsCache) (key : bytes) (now : Z) : option answer :=
  match entries c !! key with
  | Some e => if Before now (expiresAt e) then Some (e_addrs e, e_err e) else None
  | None => None
  end.

Definition set_entries (es : gmap bytes dnsCacheEntry) (c : dnsCache) : dnsCache :=
  mkDnsCache es (inflight c) (calls c) (slots c) (dc_ttl c) (dc_negativeTTL c) (maxEntries c)
    (maxConcurrent c).
Definition set_inflight (m : gmap bytes nat) (cs : gmap nat (option answer)) (c : dnsCache)
    : dnsCache :=
  mkDnsCache (entries c) m cs (slots c) (dc_ttl c) (dc_negativeTTL c) (maxEntries c)
    (maxConcurrent c).
Definition set_slots (n : Z) (c : dnsCache) : dnsCache :=
  mkDnsCache (entries c) (inflight c) (calls c) n (dc_ttl c) (dc_negativeTTL c) (maxEntries c)
    (maxConcurrent c).

(** What the write-locked section decides. *)
Inductive decision_ := Hit (a : answer) | Wait (call : nat) | Lead (call : nat).

(** The write-locked section: the entry again, an expired one deleted, then a
    call to join or a new call, with the fresh pointer [id]. *)
Definition Lookup_locked (c : dnsCache) (key : bytes) (now : Z) (id : nat) : decision_ * dnsCache :=
  match entries c !! key with
  | Some e =>
      if Before now (expiresAt e) then (Hit (e_addrs e, e_err e), c)
      else
        let c := set_entries (delete key (entries c)) c in
        match inflight c !! key with
        | Some call => (Wait call, c)
        | None => (Lead id, set_inflight (<[key := id]> (inflight c)) (<[id := None]> (calls c)) c)
        end
  | None =>
      match inflight c !! key with
      | Some call => (Wait call, c)
      | None => (Lead id, set_inflight (<[key := id]> (inflight c)) (<[id := None]> (calls c)) c)
      end
  end.

(** The entries still valid at [now]. *)
Definition unexpired (now : Z) (es : gmap bytes dnsCacheEntry) : gmap bytes dnsCacheEntry :=
  filter (fun kv => Before now (expiresAt kv.2) = true) es.

Definition entries_len (es : gmap bytes dnsCacheEntry) : Z := Z.of_nat (size es).

(** [victim] is the key the second [range] meets first. *)
Definition evictLocked (max now : Z) (victim : bytes) (es : gmap bytes dnsCacheEntry)
    : gmap bytes dnsCacheEntry :=
  if entries_len es <? max then es
  else
    let es := unexpired now es in
    if entries_len es <? max then es else delete victim es.

(** The section that publishes the answer: [now] is the time [Lookup] started,
    [at_] the time it stores the entry, [ctxErr] the caller's [ctx.Err()]. *)
Definition Lookup_finish (c : dnsCache) (key : bytes) (id : nat) (ans : answer) (now at_ : Z)
    (ctxErr : option error) (victim : bytes) : dnsCache :=
  let c := set_inflight (delete key (inflight c)) (<[id := Some ans]> (calls c)) c in
  match ctxErr with
  | Some _ => c
  | None =>
      let ttl := match snd ans with Some _ => dc_negativeTTL c | None => dc_ttl c end in
      if (0 <? ttl) && (0 <? maxEntries c) then
        set_entries (<[key := mkEntry (fst ans) (snd ans) (at_ + ttl)]>
                       (evictLocked (maxEntries c) now victim (entries c))) c
      else c
  end.

(** ** Concurrent lookups *)

(** Where a goroutine is in [Lookup]. *)
Inductive pc :=
  | PcRead (key : bytes) (now : Z)                          (* before the read lock *)
  | PcWrite (key : bytes) (now : Z)                         (* before the write lock *)
  | PcWaiting (key : bytes) (call : nat)                    (* waiting for another's call *)
  | PcSlot (key : bytes) (now : Z) (call : nat)             (* in [resolve], before a slot *)
  | PcResolving (key : bytes) (now : Z) (call : nat)        (* in [lookup], holding a slot *)
  | PcFinish (key : bytes) (now : Z) (call : nat) (ans : answer)
  | PcDone (key : bytes) (ans : answer).

(** The system: the cache, the goroutines, the contexts that are done, the
    clock, the next call pointer, and (for the statements only) the answers
    the resolver has given so far. *)
Record sys := mkSys {
  cache : dnsCache;
  threads : gmap nat pc;
  ctxs : gmap nat error;
  clock : Z;
  next : nat;
  answered : list (bytes * answer)
}.

Definition init (c : dnsCache) (now : Z) : sys := mkSys c ∅ ∅ now 0 [].

Definition set_thread (t : nat) (p : pc) (s : sys) : sys :=
  mkSys (cache s) (<[t := p]> (threads s)) (ctxs s) (clock s) (next s) (answered s).
Definition set_cache (c : dnsCache) (s : sys) : sys :=
  mkSys c (threads s) (ctxs s) (clock s) (next s) (answered s).

(** The program counter after the write-locked section. *)
Definition after_locked (key : bytes) (now : Z) (d : decision_) : pc :=
  match d with
  | Hit a => PcDone key a
  | Wait id => PcWaiting key id
  | Lead id => PcSlot key now id
  end.

Section Lookup.
(** The answers [c.lookup] may give for a name. *)
Context (resolver : bytes -> answer -> Prop).

Inductive dns_step : sys -> sys -> Prop :=
  | step_tick s d :
      0 <= d ->
      dns_step s (mkSys (cache s) (threads s) (ctxs s) (clock s + d) (next s) (answered s))
  | step_cancel s t e :
      ctxs s !! t = None ->
      dns_step s (mkSys (cache s) (threads s) (<[t := e]> (ctxs s)) (clock s) (next s) (answered s))
  | step_call s t host :
      threads s !! t = None ->
      dns_step s (set_thread t (PcRead (normalizeDNSName host) (clock s)) s)
  | step_fast s t key now a :
      threads s !! t = Some (PcRead key now) -> Lookup_fast (cache s) key now = Some a ->
      dns_step s (set_thread t (PcDone key a) s)
  | step_miss s t key now :
      threads s !! t = Some (PcRead key now) -> Lookup_fast (cache s) key now = None ->
      dns_step s (set_thread t (PcWrite key now) s)
  | step_locked s t key now d c :
      threads s !! t = Some (PcWrite key now) ->
      Lookup_locked (cache s) key now (next s) = (d, c) ->
      dns_step s (set_thread t (after_locked key now d)
        (mkSys c (threads s) (ctxs s) (clock s) (S (next s)) (answered s)))
  | step_woken s t key id ans :
      threads s !! t = Some (PcWaiting key id) -> calls (cache s) !! id = Some (Some ans) ->
      dns_step s (set_thread t (PcDone key ans) s)
  | step_wait_cancelled s t key id e :
      threads s !! t = Some (PcWaiting key id) -> ctxs s !! t = Some e ->
      dns_step s (set_thread t (PcDone key ([], Some e)) s)
  | step_slot s t key now id :
      threads s !! t = Some (PcSlot key now id) -> slots (cache s) < maxConcurrent (cache s) ->
      dns_step s (set_thread t (PcResolving key now id)
        (set_cache (set_slots (slots (cache s) + 1) (cache s)) s))
  | step_slot_cancelled s t key now id e :
      threads s !! t = Some (PcSlot key now id) -> ctxs s !! t = Some e ->
      dns_step s (set_thread t (PcFinish key now id ([], Some e)) s)
  | step_resolved s t key now id ans :
      threads s !! t = Some (PcResolving key now id) -> resolver key ans ->
      dns_step s (set_thread t (PcFinish key now id ans)
        (mkSys (set_slots (slots (cache s) - 1) (cache s)) (threads s) (ctxs s) (clock s) (next s)
           ((key, ans) :: answered s)))
  | step_finish s t key now id ans victim :
      threads s !! t = Some (PcFinish key now id ans) ->
      (unexpired now (entries (cache s)) <> ∅ -> victim ∈ dom (unexpired now (entries (cache s)))) ->
      dns_step s (set_thread t (PcDone key ans)
        (set_cache (Lookup_finish (cache s) key id ans now (clock s) (ctxs s !! t) victim) s)).

Definition dns_reachable (c : dnsCache) (now : Z) : sys -> Prop := rtc dns_step (init c now).

(** ** Control: who resolves, who waits *)

(** The key and the call a goroutine is resolving for. *)
Definition leads (p : pc) : option (bytes * nat) :=
  match p with
  | PcSlot key _ id | PcResolving key _ id | PcFinish key _ id _ => Some (key, id)
  | _ => None
  end.

Definition leader (s : sys) (t : nat) (key : bytes) (id : nat) : Prop :=
  exists p, threads s !! t = Some p /\ leads p = Some (key, id).

Record control (s : sys) : Prop := {
  c_lead : forall t key id, leader s t key id ->
    inflight (cache s) !! key = Some id /\ calls (cache s) !! id = Some None;
  c_inflight : forall key id, inflight (cache s) !! key = Some id -> exists t, leader s t key id;
  c_unique : forall t1 t2 k1 k2 id, leader s t1 k1 id -> leader s t2 k2 id -> t1 = t2;
  c_wait : forall t key id, threads s !! t = Some (PcWaiting key id) ->
    inflight (cache s) !! key = Some id \/ exists ans, calls (cache s) !! id = Some (Some ans);
  c_calls : forall id, is_Some (calls (cache s) !! id) -> (id < next s)%nat
}.

(** A step that moves goroutine [t] to [q] and neither starts nor ends a call. *)
Lemma control_keep s s' t q :
  control s ->
  inflight (cache s') = inflight (cache s) -> calls (cache s') = calls (cache s) ->
  (next s <= next s')%nat -> threads s' = <[t := q]> (threads s) ->
  leads q = threads s !! t ≫= leads ->
  (forall key id, q = PcWaiting key id -> inflight (cache s) !! key = Some id) ->
  control s'.
Proof.
  intros [Hl Hi Hu Hw Hc] Ei Ec Hn Et Eq Hq.
  assert (forall t' key id, leader s' t' key id <-> leader s t' key id) as E.
  { intros t' key id. unfold leader. rewrite Et. destruct (decide (t = t')) as [<-|].
    - rewrite lookup_insert_eq. split; intros (x & Hx & Hlx).
      + injection Hx as <-. rewrite Eq in Hlx. apply bind_Some in Hlx as (y & ? & ?). eauto.
      + exists q. split; [done|]. rewrite Eq, Hx. done.
    - by rewrite lookup_insert_ne. }
  constructor; rewrite ?Ei, ?Ec.
  - intros t' key id ?%E. by eapply Hl.
  - intros key id (t' & ?%E)%Hi. eauto.
  - intros t1 t2 k1 k2 id ?%E ?%E. eauto.
  - intros t' key id. rewrite Et. intros [[-> ->]|[? H]]%lookup_insert_Some; [left; eauto | eauto].
  - intros id H%Hc. lia.
Qed.

(** The call of goroutine [t], which leads nothing, becomes the one in flight. *)
Lemma control_lead s s' t key now :
  control s -> inflight (cache s) !! key = None ->
  inflight (cache s') = <[key := next s]> (inflight (cache s)) ->
  calls (cache s') = <[next s := None]> (calls (cache s)) ->
  next s' = S (next s) -> threads s !! t = Some (PcWrite key now) ->
  threads s' = <[t := PcSlot key now (next s)]> (threads s) ->
  control s'.
Proof.
  intros [Hl Hi Hu Hw Hc] Hk Ei Ec En Ht Et.
  assert (forall id, is_Some (calls (cache s) !! id) -> id <> next s) as Hfresh
    by (intros id ?%Hc; lia).
  assert (forall t' k id, leader s' t' k id <->
    (t' = t /\ k = key /\ id = next s) \/ (t' <> t /\ leader s t' k id)) as E.
  { intros t' k id. unfold leader. rewrite Et. destruct (decide (t = t')) as [<-|].
    - rewrite lookup_insert_eq. split; [intros (x & [= <-] & [= <- <-]); by left|].
      intros [(_ & -> & ->)|[? _]]; [eauto | done].
    - rewrite lookup_insert_ne by done. naive_solver. }
  constructor; rewrite ?Ei, ?Ec.
  - intros t' k id [(-> & -> & ->)|[? H]]%E; [by rewrite !lookup_insert_eq|].
    destruct (Hl _ _ _ H) as [H1 H2]. rewrite !lookup_insert_ne; [done | | congruence].
    intros <-. by apply (Hfresh (next s)).
  - intros k id [[<- <-]|[? (t' & H)%Hi]]%lookup_insert_Some; [exists t; apply E; by left|].
    exists t'. apply E. right. split; [|done]. intros ->. destruct H as (p & Hp & Hlp).
    rewrite Ht in Hp. by injection Hp as <-.
  - intros t1 t2 k1 k2 id [(-> & -> & ->)|[? H1]]%E [(-> & -> & Eid)|[? H2]]%E; eauto.
    + destruct (Hl _ _ _ H2) as [_ H3]. by destruct (Hfresh (next s)).
    + subst. destruct (Hl _ _ _ H1) as [_ H3]. by destruct (Hfresh (next s)).
  - intros t' k id. rewrite Et. intros [[? ?]|[? H]]%lookup_insert_Some; [done|].
    destruct (Hw _ _ _ H) as [H1|[a H1]].
    + left. rewrite lookup_insert_ne; [done | congruence].
    + right. exists a. rewrite lookup_insert_ne; [done|]. intros <-. by apply (Hfresh (next s)).
  - intros id. rewrite En. intros [a [[<- <-]|[? H]]%lookup_insert_Some]; [lia|].
    apply Nat.lt_lt_succ_r, Hc. eauto.
Qed.

(** Goroutine [t] publishes the answer of its call. *)
Lemma control_finish s s' t key now id ans :
  control s -> threads s !! t = Some (PcFinish key now id ans) ->
  inflight (cache s') = delete key (inflight (cache s)) ->
  calls (cache s') = <[id := Some ans]> (calls (cache s)) ->
  next s' = next s -> threads s' = <[t := PcDone key ans]> (threads s) ->
  control s'.
Proof.
  intros [Hl Hi Hu Hw Hc] Ht Ei Ec En Et.
  assert (leader s t key id) as Hlead by by eexists.
  destruct (Hl _ _ _ Hlead) as [Hk Hid].
  assert (forall t' k i, leader s' t' k i <-> (t' <> t /\ leader s t' k i)) as E.
  { intros t' k i. unfold leader. rewrite Et. destruct (decide (t = t')) as [<-|].
    - rewrite lookup_insert_eq. split; [intros (x & [= <-] & ?); done | naive_solver].
    - rewrite lookup_insert_ne by done. naive_solver. }
  constructor; rewrite ?Ei, ?Ec.
  - intros t' k i [? H]%E. destruct (Hl _ _ _ H) as [H1 H2].
    assert (i <> id) by (intros ->; eauto).
    rewrite lookup_delete_ne, lookup_insert_ne by (congruence || done). done.
  - intros k i [? (t' & H)%Hi]%lookup_delete_Some. exists t'. apply E. split; [|done].
    intros ->. destruct H as (p & Hp & Hlp). rewrite Ht in Hp. by simplify_eq/=.
  - intros t1 t2 k1 k2 i [_ ?]%E [_ ?]%E. eauto.
  - intros t' k i. rewrite Et. intros [[? ?]|[? H]]%lookup_insert_Some; [done|].
    destruct (decide (i = id)) as [->|]; [right; exists ans; by rewrite lookup_insert_eq|].
    rewrite lookup_insert_ne by done.
    destruct (Hw _ _ _ H) as [H1|]; [left|by right].
    rewrite lookup_delete_ne; [done|]. intros <-. congruence.
  - intros i. rewrite En. intros [a [[<- <-]|[? H]]%lookup_insert_Some]; eauto.
Qed.

Lemma control_unchanged s s' :
  control s -> cache s' = cache s -> threads s' = threads s -> next s' = next s -> control s'.
Proof.
  intros [Hl Hi Hu Hw Hc] Ec Et En. unfold leader in *.
  constructor; unfold leader; rewrite ?Ec, ?Et, ?En; eauto.
Qed.

(** The two shapes of the write-locked section. *)
Lemma Lookup_locked_cases c key now id d c' :
  Lookup_locked c key now id = (d, c') ->
  (exists e, entries c !! key = Some e /\ now < expiresAt e /\ d = Hit (e_addrs e, e_err e) /\ c' = c) \/
  exists es, (es = entries c \/ es = delete key (entries c)) /\
    ((exists i, inflight c !! key = Some i /\ d = Wait i /\ c' = set_entries es c) \/
     (inflight c !! key = None /\ d = Lead id /\
      c' = set_inflight (<[key := id]> (inflight c)) (<[id := None]> (calls c)) (set_entries es c))).
Proof.
  unfold Lookup_locked. destruct c as [es inf cs sl t1 t2 m1 m2]. cbn.
  destruct (es !! key) as [e|] eqn:He.
  - unfold Before. case_one; zbool.
    + intros [= <- <-]. left. eauto 10.
    + destruct (inf !! key) eqn:Hi; intros [= <- <-]; right; eexists; (split; [by right|]); eauto 10.
  - destruct (inf !! key) eqn:Hi; intros [= <- <-]; right; eexists; (split; [by left|]); eauto 10.
Qed.

Lemma Lookup_finish_control c key id ans now at_ ce v :
  inflight (Lookup_finish c key id ans now at_ ce v) = delete key (inflight c) /\
  calls (Lookup_finish c key id ans now at_ ce v) = <[id := Some ans]> (calls c).
Proof. unfold Lookup_finish. repeat case_one; done. Qed.

Lemma control_step s s' : dns_step s s' -> control s -> control s'.
Proof.
  intros Hstep Hc. destruct Hstep.
  - by eapply control_unchanged.
  - by eapply control_unchanged.
  - eapply control_keep; try done. cbn. by rewrite H.
  - eapply control_keep; try done. cbn. by rewrite H.
  - eapply control_keep; try done. cbn. by rewrite H.
  - apply Lookup_locked_cases in H0 as [(e & _ & _ & -> & ->)|(es & _ & [(i & Hi & -> & ->)|(Hi & -> & ->)])].
    + eapply (control_keep s); try done; cbn; [lia | by rewrite H].
    + eapply (control_keep s); try done; cbn; [lia | by rewrite H | by intros ?? [= <- <-]].
    + by eapply control_lead.
  - eapply control_keep; try done. cbn. by rewrite H.
  - eapply control_keep; try done. cbn. by rewrite H.
  - eapply control_keep; try done. cbn. by rewrite H.
  - eapply control_keep; try done. cbn. by rewrite H.
  - eapply control_keep; try done. cbn. by rewrite H.
  - by eapply control_finish; try done; apply Lookup_finish_control.
Qed.

(** ** Slots: how many resolve at once *)

Definition resolving (p : pc) : bool := match p with PcResolving _ _ _ => true | _ => false end.

Definition resolving_count (m : gmap nat pc) : Z :=
  Z.of_nat (size (filter (fun kv => resolving kv.2 = true) m)).

Lemma resolving_count_insert m t q :
  resolving_count (<[t := q]> m)
  = resolving_count m - (if default false (resolving <$> m !! t) then 1 else 0)
    + (if resolving q then 1 else 0).
Proof.
  unfold resolving_count. set (P := fun kv : nat * pc => resolving kv.2 = true).
  assert (filter P m !! t = if default false (resolving <$> m !! t) then m !! t else None) as Hf.
  { rewrite map_lookup_filter. destruct (m !! t) as [p|]; [|done]. cbn.
    case_guard as G; unfold P in G; cbn in *; [by rewrite G|]. by destruct (resolving p). }
  destruct (resolving q) eqn:Eq.
  - rewrite map_filter_insert_True by done. rewrite map_size_insert, Hf.
    destruct (m !! t) as [p|]; cbn; [|lia]. destruct (resolving p); unfold id; lia.
  - rewrite map_filter_insert_False by (unfold P; cbn; congruence).
    rewrite map_filter_delete, map_size_delete, Hf.
    destruct (m !! t) as [p|] eqn:Ht; cbn; [|unfold id; lia].
    destruct (resolving p) eqn:Ep; [|unfold id; lia].
    assert (size (filter P m) <> 0%nat); [|lia].
    intros Hz%map_size_empty_inv. rewrite Hz in Hf. cbn in Hf. rewrite Ep in Hf. done.
Qed.

(** The configuration of the cache never changes. *)
Lemma step_config s s' :
  dns_step s s' ->
  maxEntries (cache s') = maxEntries (cache s) /\ maxConcurrent (cache s') = maxConcurrent (cache s) /\
  dc_ttl (cache s') = dc_ttl (cache s) /\ dc_negativeTTL (cache s') = dc_negativeTTL (cache s).
Proof.
  destruct 1; cbn; try done.
  - revert H0. unfold Lookup_locked. repeat case_one; by intros [= <- <-].
  - unfold Lookup_finish. repeat case_one; done.
Qed.

Lemma Lookup_locked_slots c key now id d c' :
  Lookup_locked c key now id = (d, c') -> slots c' = slots c.
Proof. unfold Lookup_locked. repeat case_one; by intros [= <- <-]. Qed.

Lemma Lookup_finish_slots c key id ans now at_ ce v :
  slots (Lookup_finish c key id ans now at_ ce v) = slots c.
Proof. unfold Lookup_finish. by repeat case_one. Qed.

Definition slots_inv (s : sys) : Prop :=
  slots (cache s) = resolving_count (threads s) /\
  0 <= slots (cache s) <= maxConcurrent (cache s) /\ 1 <= maxConcurrent (cache s).

Lemma slots_step s s' : dns_step s s' -> slots_inv s -> slots_inv s'.
Proof.
  intros Hstep [He Hb]. pose proof (step_config _ _ Hstep) as (_ & Em & _).
  split; [|rewrite Em]; destruct Hstep; cbn in *;
    rewrite ?resolving_count_insert, ?Lookup_finish_slots;
    try match goal with H : threads _ !! _ = _ |- _ => rewrite H end; cbn; try lia.
  - apply Lookup_locked_slots in H0. rewrite H0. unfold after_locked. destruct d; cbn; lia.
  - apply Lookup_locked_slots in H0. lia.
  - assert (0 < resolving_count (threads s)); [|lia].
    pose proof (resolving_count_insert (threads s) t (PcDone key ans)) as E.
    rewrite H in E. cbn in E. unfold resolving_count in *. lia.
Qed.

(** ** Data: where answers come from *)

(** An answer the resolver gave for the name, or the error of a context. *)
Definition sound (s : sys) (key : bytes) (ans : answer) : Prop :=
  (key, ans) ∈ answered s \/ exists t e, ctxs s !! t = Some e /\ ans = ([], Some e).

Definition ttl_of (c : dnsCache) (err : option error) : Z :=
  match err with Some _ => dc_negativeTTL c | None => dc_ttl c end.

Record data (s : sys) : Prop := {
  d_entry : forall key e, entries (cache s) !! key = Some e ->
    (key, (e_addrs e, e_err e)) ∈ answered s /\
    expiresAt e <= clock s + ttl_of (cache s) (e_err e);
  d_finish : forall t key now id ans, threads s !! t = Some (PcFinish key now id ans) ->
    (key, ans) ∈ answered s \/ exists e, ctxs s !! t = Some e /\ ans = ([], Some e);
  d_done : forall t key ans, threads s !! t = Some (PcDone key ans) -> sound s key ans;
  d_wait : forall t key id ans, threads s !! t = Some (PcWaiting key id) ->
    calls (cache s) !! id = Some (Some ans) -> sound s key ans
}.

(** A step that moves goroutine [t] to [q] and keeps the cache's answers. *)
Lemma data_keep s s' t q :
  data s -> (forall key e, entries (cache s') !! key = Some e -> entries (cache s) !! key = Some e) ->
  (forall id ans, calls (cache s') !! id = Some (Some ans) -> calls (cache s) !! id = Some (Some ans)) ->
  (forall err, ttl_of (cache s') err = ttl_of (cache s) err) ->
  clock s <= clock s' -> ctxs s' = ctxs s -> answered s ⊆ answered s' ->
  threads s' = <[t := q]> (threads s) ->
  match q with
  | PcFinish key _ _ ans => (key, ans) ∈ answered s' \/ exists e, ctxs s !! t = Some e /\ ans = ([], Some e)
  | PcDone key ans => sound s key ans
  | PcWaiting key id => forall ans, calls (cache s) !! id = Some (Some ans) -> sound s key ans
  | _ => True
  end -> data s'.
Proof.
  intros [He Hf Hd Hw] Ee Ec Et Ek Ex Ea Eth Hq.
  assert (forall key ans, sound s key ans -> sound s' key ans) as Hs.
  { intros key ans [?|?]; [left; auto | right; by rewrite Ex]. }
  constructor.
  - intros key e H%Ee. rewrite Et. destruct (He _ _ H). split; [auto | lia].
  - intros t' key now id ans. rewrite Eth, Ex.
    intros [[-> ->]|[? H]]%lookup_insert_Some; [done|].
    destruct (Hf _ _ _ _ _ H) as [?|?]; [left; auto | by right].
  - intros t' key ans. rewrite Eth. intros [[-> ->]|[? H]]%lookup_insert_Some; eauto.
  - intros t' key id ans. rewrite Eth. intros [[-> ->]|[? H]]%lookup_insert_Some; eauto.
Qed.

Lemma Lookup_locked_data c key now id d c' :
  Lookup_locked c key now id = (d, c') ->
  (forall k e, entries c' !! k = Some e -> entries c !! k = Some e) /\
  (forall i ans, calls c' !! i = Some (Some ans) -> calls c !! i = Some (Some ans)) /\
  (forall err, ttl_of c' err = ttl_of c err).
Proof.
  intros [(e & _ & _ & _ & ->)|(es & Hes & [(i & _ & _ & ->)|(_ & _ & ->)])]%Lookup_locked_cases;
    [done|..]; cbn; (split_and!; [|cbn; try done|done]).
  1,2: intros k e; destruct Hes as [-> | ->]; [done | by intros [_ ?]%lookup_delete_Some].
  by intros j ans [[_ ?]|[_ ?]]%lookup_insert_Some.
Qed.

(** An insertion after an eviction: an old entry or the new one. *)
Lemma evictLocked_subseteq max now v es : evictLocked max now v es ⊆ es.
Proof.
  unfold evictLocked, unexpired. repeat case_one; [done|apply map_filter_subseteq|].
  etransitivity; [apply delete_subseteq | apply map_filter_subseteq].
Qed.

Lemma Lookup_finish_entries c key id ans now at_ ce v k e :
  entries (Lookup_finish c key id ans now at_ ce v) !! k = Some e ->
  entries c !! k = Some e \/
  (ce = None /\ k = key /\ (e_addrs e, e_err e) = ans /\ expiresAt e = at_ + ttl_of c (snd ans)).
Proof.
  unfold Lookup_finish. destruct ce; [by left|]. destruct (_ && _); [|by left]. cbn.
  intros [[-> <-]|[? H]]%lookup_insert_Some; [right; by destruct ans|].
  left. eapply lookup_weaken; [exact H | apply evictLocked_subseteq].
Qed.

Lemma Lookup_finish_ttl c key id ans now at_ ce v err :
  ttl_of (Lookup_finish c key id ans now at_ ce v) err = ttl_of c err.
Proof. unfold Lookup_finish. by repeat case_one. Qed.

Lemma data_finish s t key now id ans v :
  control s -> data s -> threads s !! t = Some (PcFinish key now id ans) ->
  data (set_thread t (PcDone key ans)
    (set_cache (Lookup_finish (cache s) key id ans now (clock s) (ctxs s !! t) v) s)).
Proof.
  intros Hc [He Hf Hd Hw] Ht.
  assert (sound s key ans) as Hans.
  { destruct (Hf _ _ _ _ _ Ht) as [?|(e & ? & ?)]; [by left | right; eauto]. }
  constructor; cbn [cache threads ctxs clock answered set_thread set_cache].
  - intros k e [H|(Hce & -> & Ea & Ee)]%Lookup_finish_entries; rewrite Lookup_finish_ttl; [by apply He|].
    destruct (Hf _ _ _ _ _ Ht) as [H|(x & Hx & _)]; [|congruence].
    subst ans. cbn in Ee. split; [done | lia].
  - intros t' k n i a [[_ ?]|[? H]]%lookup_insert_Some; [done | eauto].
  - intros t' k a [[<- [= -> ->]]|[? H]]%lookup_insert_Some; [done | by eapply Hd].
  - intros t' k i a [[_ ?]|[? H]]%lookup_insert_Some; [done|].
    rewrite (proj2 (Lookup_finish_control _ _ _ _ _ _ _ _)).
    intros [[<- [= ->]]|[? Hi]]%lookup_insert_Some; [|by eapply Hw].
    assert (leader s t key id) as Hlead by by eexists.
    destruct (c_lead s Hc _ _ _ Hlead) as [_ Hid].
    destruct (c_wait s Hc _ _ _ H) as [H1|[b H1]]; [|congruence].
    destruct (c_inflight s Hc _ _ H1) as [t2 Ht2].
    pose proof (c_unique s Hc _ _ _ _ _ Hlead Ht2) as <-.
    destruct Ht2 as (p & Hp & Hlp). rewrite Ht in Hp. injection Hp as <-.
    injection Hlp as <-. done.
Qed.

Lemma data_step s s' : dns_step s s' -> control s -> data s -> data s'.
Proof.
  intros Hstep Hc Hd. destruct Hstep.
  - destruct Hd as [He Hf Hd Hw]. constructor; cbn; eauto.
    intros key e H0. destruct (He _ _ H0). split; [done | lia].
  - destruct Hd as [He Hf Hd Hw].
    assert (forall key ans, sound s key ans -> sound (mkSys (cache s) (threads s)
      (<[t := e]> (ctxs s)) (clock s) (next s) (answered s)) key ans) as Hs.
    { intros key ans [?|(t' & x & Hx & ->)]; [by left|]. right. exists t', x. cbn.
      rewrite lookup_insert_ne by congruence. done. }
    constructor; cbn; eauto.
    intros t' key now id ans H0. destruct (Hf _ _ _ _ _ H0) as [?|(x & Hx & ->)]; [by left|].
    right. exists x. rewrite lookup_insert_ne by congruence. done.
  - by eapply data_keep.
  - eapply data_keep; try done. left. unfold Lookup_fast in H0.
    destruct (entries (cache s) !! key) as [x|] eqn:Hx; [|done]. case_one_in H0; [|done].
    injection H0 as <-. by apply (d_entry s Hd).
  - by eapply data_keep.
  - destruct (Lookup_locked_data _ _ _ _ _ _ H0) as (E1 & E2 & E3).
    eapply (data_keep s); try done.
    apply Lookup_locked_cases in H0 as [(e & He & _ & -> & _)|(es & _ & [(i & Hi & -> & _)|(_ & -> & _)])];
      cbn; [|intros ans Ha|done].
    + left. by apply (d_entry s Hd).
    + destruct (c_inflight s Hc _ _ Hi) as [t' Hl]. destruct (c_lead s Hc _ _ _ Hl). congruence.
  - eapply data_keep; try done. by eapply (d_wait s Hd).
  - eapply data_keep; try done. right. eauto.
  - by eapply data_keep.
  - eapply data_keep; try done. right. eauto.
  - eapply data_keep; try done; cbn; [set_solver|]. left. set_solver.
  - by apply data_finish.
Qed.

(** ** Size *)

Lemma evictLocked_size max now v es :
  0 < max -> entries_len es <= max ->
  (unexpired now es <> ∅ -> v ∈ dom (unexpired now es)) ->
  entries_len (evictLocked max now v es) < max.
Proof.
  intros Hm Hs Hv. unfold evictLocked. case_one; zbool; [done|]. case_one; zbool; [done|].
  assert (unexpired now es <> ∅) as [x Hx]%Hv%elem_of_dom.
  { intros E. rewrite E in *. unfold entries_len in *. rewrite map_size_empty in *. lia. }
  unfold entries_len in *. rewrite map_size_delete, Hx.
  pose proof (map_subseteq_size (unexpired now es) es (map_filter_subseteq _ _)).
  assert (size (unexpired now es) <> 0%nat); [|lia].
  intros E%map_size_empty_inv. rewrite E in Hx. done.
Qed.

Definition size_inv (s : sys) : Prop :=
  entries_len (entries (cache s)) <= Z.max 0 (maxEntries (cache s)).

Lemma size_step s s' : dns_step s s' -> size_inv s -> size_inv s'.
Proof.
  unfold size_inv. intros Hstep Hs. pose proof (step_config _ _ Hstep) as (-> & _).
  destruct Hstep; cbn in *; try done.
  - apply Lookup_locked_data in H0 as (E & _).
    assert (entries c ⊆ entries (cache s)) as Hsub%map_subseteq_size
      by (apply map_subseteq_spec; eauto).
    unfold entries_len in *. lia.
  - unfold Lookup_finish. destruct (ctxs s !! t); [done|].
    destruct ((0 <? _) && _) eqn:E; [|done]. zbool. cbn in *.
    pose proof (evictLocked_size (maxEntries (cache s)) now victim (entries (cache s))
      ltac:(done) ltac:(lia) H0) as H3.
    unfold entries_len in *. rewrite map_size_insert. case_one; unfold Datatypes.id; lia.
Qed.

(** ** All invariants together *)

Record dns_inv (s : sys) : Prop := {
  i_control : control s;
  i_slots : slots_inv s;
  i_data : data s;
  i_size : size_inv s
}.

Lemma dns_inv_init ttl neg maxE maxC now : dns_inv (init (newDNSCache ttl neg maxE maxC) now).
Proof.
  constructor.
  - constructor; cbn; unfold leader; cbn; intros *; rewrite ?lookup_empty; try done; naive_solver.
  - split; cbn; [done|]. case_one; zbool; lia.
  - by constructor.
  - unfold size_inv, entries_len. cbn. rewrite map_size_empty. lia.
Qed.

Lemma dns_inv_step s s' : dns_step s s' -> dns_inv s -> dns_inv s'.
Proof.
  intros Hstep [H1 H2 H3 H4]. constructor;
    eauto using control_step, slots_step, data_step, size_step.
Qed.

Lemma dns_inv_rtc s s' : rtc dns_step s s' -> dns_inv s -> dns_inv s'.
Proof. induction 1; eauto using dns_inv_step. Qed.

Lemma dns_config_rtc s s' :
  rtc dns_step s s' ->
  maxEntries (cache s') = maxEntries (cache s) /\ maxConcurrent (cache s') = maxConcurrent (cache s) /\
  dc_ttl (cache s') = dc_ttl (cache s) /\ dc_negativeTTL (cache s') = dc_negativeTTL (cache s).
Proof.
  induction 1 as [|x y z Hxy _ (IH1 & IH2 & IH3 & IH4)]; [done|].
  apply step_config in Hxy as (E1 & E2 & E3 & E4). repeat split; congruence.
Qed.

(** ** Progress *)







Context (answers : forall key, exists ans, resolver key ans).






End Lookup.

(** ** Properties *)

(** A resolver with one answer for every name, and a run against it: one
    goroutine resolves [A.] and stores the answer under [a]. *)
Definition demo_resolver (key : bytes) (ans : answer) : Prop := ans = ([Addr4 16843009], None).
Definition demo_cache : dnsCache := newDNSCache 30 3 16 4.

Lemma demo_run :
  exists s, dns_reachable demo_resolver demo_cache 0 s /\
    threads s !! 0%nat = Some (PcDone (str "a") ([Addr4 16843009], None)) /\
    entries (cache s) !! str "a" = Some (mkEntry [Addr4 16843009] None 30).
Proof.
  eexists. split; [|split].
  - eapply rtc_l; [apply (step_call _ _ 0%nat (str "A.")); reflexivity|].
    eapply rtc_l; [apply (step_miss _ _ 0%nat (str "a") 0); reflexivity|].
    eapply rtc_l; [eapply (step_locked _ _ 0%nat (str "a") 0); reflexivity|].
    eapply rtc_l; [apply (step_slot _ _ 0%nat (str "a") 0 0%nat); reflexivity|].
    eapply rtc_l; [apply (step_resolved _ _ 0%nat (str "a") 0 0%nat ([Addr4 16843009], None)); reflexivity|].
    eapply rtc_l; [apply (step_finish _ _ 0%nat (str "a") 0 0%nat ([Addr4 16843009], None) []);
      [reflexivity | done]|].
    apply rtc_refl.
  - reflexivity.
  - reflexivity.
Qed.

(** The cache and its use of the resolver are bounded. In every reachable
    state of any number of concurrent lookups the cache holds at most
    [maxEntries] entries, at most [maxConcurrent] goroutines are inside the
    resolver, and the slot channel counts exactly those. *)
Theorem dns_cache_bounded resolver ttl neg maxE maxC now s :
  dns_reachable resolver (newDNSCache ttl neg maxE maxC) now s ->
  entries_len (entries (cache s)) <= Z.max 0 maxE /\
  resolving_count (threads s) = slots (cache s) /\ 0 <= slots (cache s) <= Z.max 1 maxC.
Proof.
  intros Hr. pose proof (dns_inv_rtc _ _ _ Hr (dns_inv_init resolver _ _ _ _ _)) as [_ (Es & Hs & _) _ Hz].
  apply dns_config_rtc in Hr as (E1 & E2 & _). unfold size_inv in Hz.
  rewrite E1 in Hz. rewrite E2 in Hs. split; [done|]. split; [done|].
  cbn in Hs. case_one_in Hs; zbool; lia.
Qed.

Lemma dns_cache_bounded_witness :
  exists s, threads s !! 0%nat = Some (PcDone (str "a") ([Addr4 16843009], None)) /\
    entries_len (entries (cache s)) <= Z.max 0 16 /\
    resolving_count (threads s) = slots (cache s) /\ 0 <= slots (cache s) <= Z.max 1 4.
Proof.
  destruct demo_run as (s & Hr & Ht & _). exists s. split; [exact Ht|].
  exact (dns_cache_bounded demo_resolver 30 3 16 4 0 s Hr).
Defined.

(** C7: concurrent lookups of one name are merged. At most one goroutine is
    resolving a given (normalised) name at any time, it is the one the
    in-flight map names, and whoever waits for a call waits for one that is
    answered or that such a goroutine is still working on. *)
Theorem dns_single_flight resolver ttl neg maxE maxC now s :
  dns_reachable resolver (newDNSCache ttl neg maxE maxC) now s ->
  (forall t1 t2 key id1 id2, leader s t1 key id1 -> leader s t2 key id2 ->
     t1 = t2 /\ inflight (cache s) !! key = Some id1) /\
  (forall t key id, threads s !! t = Some (PcWaiting key id) ->
     (exists ans, calls (cache s) !! id = Some (Some ans)) \/ exists t', leader s t' key id).
Proof.
  intros Hr. pose proof (dns_inv_rtc _ _ _ Hr (dns_inv_init resolver _ _ _ _ _)) as [Hc _ _ _].
  split.
  - intros t1 t2 key id1 id2 H1 H2. destruct (c_lead s Hc _ _ _ H1) as [E1 _].
    destruct (c_lead s Hc _ _ _ H2) as [E2 _]. split; [|done].
    assert (id1 = id2) as <- by congruence. by eapply c_unique.
  - intros t key id H. destruct (c_wait s Hc _ _ _ H) as [H1|H1]; [right|by left].
    by apply (c_inflight s Hc).
Qed.

(** Two lookups of one name: the first leads, the second waits for it. *)
Lemma demo_waiting :
  exists s, dns_reachable demo_resolver demo_cache 0 s /\ leader s 0 (str "a") 0 /\
    threads s !! 1%nat = Some (PcWaiting (str "a") 0) /\ calls (cache s) !! 0%nat = Some None.
Proof.
  eexists. split; [|split; [|split]].
  - eapply rtc_l; [apply (step_call _ _ 0%nat (str "a")); reflexivity|].
    eapply rtc_l; [apply (step_miss _ _ 0%nat (str "a") 0); reflexivity|].
    eapply rtc_l; [eapply (step_locked _ _ 0%nat (str "a") 0); reflexivity|].
    eapply rtc_l; [apply (step_call _ _ 1%nat (str "A.")); reflexivity|].
    eapply rtc_l; [apply (step_miss _ _ 1%nat (str "a") 0); reflexivity|].
    eapply rtc_l; [eapply (step_locked _ _ 1%nat (str "a") 0); reflexivity|].
    apply rtc_refl.
  - eexists. split; reflexivity.
  - reflexivity.
  - reflexivity.
Qed.

Lemma dns_single_flight_witness :
  exists s, leader s 0 (str "a") 0 /\ threads s !! 1%nat = Some (PcWaiting (str "a") 0) /\
    calls (cache s) !! 0%nat = Some None /\
    (forall t id, leader s t (str "a") id -> t = 0%nat) /\
    ((exists ans, calls (cache s) !! 0%nat = Some (Some ans)) \/ exists t', leader s t' (str "a") 0).
Proof.
  destruct demo_waiting as (s & Hr & Hl & Ht & Hc). exists s.
  destruct (dns_single_flight demo_resolver 30 3 16 4 0 s Hr) as [H1 H2].
  split; [exact Hl|]. split; [exact Ht|]. split; [exact Hc|]. split; [|exact (H2 _ _ _ Ht)].
  intros t id H. exact (proj1 (H1 _ _ _ _ _ H Hl)).
Defined.

(** A cached answer for [key] that a lookup begun at [now] may return: its entry has not
    expired then. *)
Definition cache_hit (c : dnsCache) (key : bytes) (now : Z) (a : answer) : Prop :=
  exists e, entries c !! key = Some e /\ a = (e_addrs e, e_err e) /\ now < expiresAt e.

Lemma Lookup_fast_hit c key now a : Lookup_fast c key now = Some a <-> cache_hit c key now a.
Proof.
  unfold Lookup_fast, cache_hit, Before. destruct (entries c !! key) as [e|]; [|naive_solver].
  destruct (Z.ltb_spec now (expiresAt e)); naive_solver lia.
Qed.

Lemma Lookup_locked_hit c key now id a c' :
  Lookup_locked c key now id = (Hit a, c') <-> cache_hit c key now a /\ c' = c.
Proof.
  unfold Lookup_locked, cache_hit, Before. destruct (entries c !! key) as [e|].
  - destruct (Z.ltb_spec now (expiresAt e)); [naive_solver|].
    split; [repeat case_one; done|]. intros [(e' & [= <-] & _ & ?) _]. lia.
  - split; [repeat case_one; done|]. by intros [(e' & ? & _) _].
Qed.

Lemma LookupCached_hit c now host addrs :
  LookupCached c now host = Some addrs <->
  cache_hit c (normalizeDNSName host) now (addrs, None) /\ addrs <> [].
Proof.
  unfold LookupCached, cache_hit, Before.
  destruct (entries c !! normalizeDNSName host) as [e|]; [|naive_solver].
  destruct (e_err e) as [err|] eqn:Ee; [split; [done|]; intros [(e' & [= <-] & E & _) _]; congruence|].
  destruct (Z.eqb_spec (len (e_addrs e)) 0) as [Hz|Hz]; cbn [orb].
  - split; [done|]. intros [(e' & [= <-] & [= ->] & _) Hne]. by apply (len_eq _ 0), nil_length_inv in Hz.
  - destruct (Z.ltb_spec now (expiresAt e)); cbn [negb]; split; try done.
    + intros [= <-]. split; [exists e; by rewrite Ee|]. intros E. by rewrite E in Hz.
    + by intros [(e' & [= <-] & [= ->] & _) _].
    + intros [(e' & [= <-] & _ & ?) _]. lia.
Qed.

(** C26: answers are genuine and fresh. Whatever a lookup returns is an answer
    the resolver gave for that very (normalised) name, or the error of a
    caller's context; whatever is cached is an answer of the resolver for its name and
    expires at most one TTL from now (the negative TTL for an error). A lookup is answered
    from the cache, without the lock, under it, or by the non-blocking lookup, exactly when
    the cache has an entry that has not expired when the lookup began, with the answer of
    that entry (a non-empty, successful one for the non-blocking lookup). *)
Theorem dns_answers_sound resolver ttl neg maxE maxC now s :
  dns_reachable resolver (newDNSCache ttl neg maxE maxC) now s ->
  (forall t key ans, threads s !! t = Some (PcDone key ans) ->
     (key, ans) ∈ answered s \/ exists t' e, ctxs s !! t' = Some e /\ ans = ([], Some e)) /\
  (forall key e, entries (cache s) !! key = Some e ->
     (key, (e_addrs e, e_err e)) ∈ answered s /\
     expiresAt e <= clock s + match e_err e with Some _ => neg | None => ttl end) /\
  (forall key began a, Lookup_fast (cache s) key began = Some a <-> cache_hit (cache s) key began a) /\
  (forall key began id a c, Lookup_locked (cache s) key began id = (Hit a, c) <->
     cache_hit (cache s) key began a /\ c = cache s) /\
  (forall host began addrs, LookupCached (cache s) began host = Some addrs <->
     cache_hit (cache s) (normalizeDNSName host) began (addrs, None) /\ addrs <> []).
Proof.
  intros Hr. pose proof (dns_inv_rtc _ _ _ Hr (dns_inv_init resolver _ _ _ _ _)) as [_ _ [He _ Hd _] _].
  apply dns_config_rtc in Hr as (_ & _ & E3 & E4). cbn in E3, E4. split_and!.
  - exact Hd.
  - intros key e H. destruct (He _ _ H) as [H1 H2]. split; [done|].
    unfold ttl_of in H2. by rewrite E3, E4 in H2.
  - intros. apply Lookup_fast_hit.
  - intros. apply Lookup_locked_hit.
  - intros. apply LookupCached_hit.
Qed.

(** The answer is cached until 30: a lookup begun at 29 returns it, one begun at 30 does not. *)
Lemma dns_answers_sound_witness :
  exists s, entries (cache s) !! str "a" = Some (mkEntry [Addr4 16843009] None 30) /\
    (str "a", ([Addr4 16843009], None)) ∈ answered s /\ 30 <= clock s + 30 /\
    LookupCached (cache s) 29 (str "A.") = Some [Addr4 16843009] /\
    Lookup_fast (cache s) (str "a") 29 = Some ([Addr4 16843009], None) /\
    (forall a, Lookup_fast (cache s) (str "a") 30 <> Some a).
Proof.
  destruct demo_run as (s & Hr & _ & He). exists s.
  destruct (dns_answers_sound demo_resolver 30 3 16 4 0 s Hr) as (_ & H & Hf & _ & Hc).
  assert (cache_hit (cache s) (str "a") 29 ([Addr4 16843009], None)) as Hh by (eexists; split; [exact He|]; done).
  split; [exact He|]. split; [exact (proj1 (H (str "a") _ He))|]. split; [exact (proj2 (H (str "a") _ He))|].
  split; [apply Hc; split; [exact Hh|done]|]. split; [apply Hf, Hh|].
  intros a (e & E & _ & Hlt)%Hf. rewrite He in E. injection E as <-. cbn in Hlt. lia.
Defined.



(** A waiter inherits the cancellation of the goroutine that leads the
    call: there is a run in which a lookup whose own context is live, on a name
    the resolver was never asked about, returns [context.Canceled]. *)
Theorem dns_waiter_inherits_cancellation resolver :
  exists s, dns_reachable resolver (newDNSCache 30 3 16 4) 0 s /\
    threads s !! 1%nat = Some (PcDone (str "a") ([], Some ContextCanceled)) /\
    ctxs s !! 1%nat = None /\ answered s = [].
Proof.
  eexists. split; [|split; [|split]].
  - eapply rtc_l; [apply (step_call _ _ 0%nat (str "a")); reflexivity|].
    eapply rtc_l; [apply (step_miss _ _ 0%nat (str "a") 0); reflexivity|].
    eapply rtc_l; [eapply (step_locked _ _ 0%nat (str "a") 0); reflexivity|].
    eapply rtc_l; [apply (step_call _ _ 1%nat (str "a")); reflexivity|].
    eapply rtc_l; [apply (step_miss _ _ 1%nat (str "a") 0); reflexivity|].
    eapply rtc_l; [eapply (step_locked _ _ 1%nat (str "a") 0); reflexivity|].
    eapply rtc_l; [apply (step_cancel _ _ 0%nat ContextCanceled); reflexivity|].
    eapply rtc_l; [eapply (step_slot_cancelled _ _ 0%nat (str "a") 0 0%nat); reflexivity|].
    eapply rtc_l; [apply (step_finish _ _ 0%nat (str "a") 0 0%nat ([], Some ContextCanceled) []);
      [reflexivity | done]|].
    eapply rtc_l; [apply (step_woken _ _ 1%nat (str "a") 0%nat ([], Some ContextCanceled)); reflexivity|].
    apply rtc_refl.
  - reflexivity.
  - reflexivity.
  - reflexivity.
Qed.
