(* ===== verification/UdpRuntime.v ===== *)
(** * The server-wide UDP state ([udp_runtime.go])

    Models [internal/server/socks/udp_runtime.go]: the association slots, the
    batch-buffer budget, the sharded send queue with its workers, and the
    counters. A buffered Go channel is its content (for the slot channels the
    number of tokens) with its capacity; an operation that would block forever
    in the modelled state returns [None]. The interleavings of associations,
    readers, senders and workers are the runs of [udp_step]. *)

From Stdlib Require Import ZArith Lia.
From stdpp Require Import base tactics numbers list strings sets relations.
From S2P Require Import Prelude.
From S2P Require Import Netip.
From S2P Require Import Proto.
From S2P Require Import Ext.
From S2P Require Import Uint128.
From S2P Require Import SourceIP.
From S2P Require Import Config.

(** [udpMetrics]: the counters by name. *)
Inductive counter :=
  | activeAssociations | totalAssociations | inPackets | inBytes | outPackets | outBytes
  | queueDrops | truncatedDrops | malformedDrops | fragmentDrops | unauthorizedDrops
  | associationDrops | errors | queueDepth | batchFallbacks | groCoalescedReads
  | groTruncatedReads.

#[export] Instance counter_eq_dec : EqDecision counter.
Proof. solve_decision. Defined.

Definition udpMetrics : Type := counter -> Z.

(** [Add]: two gauges are [atomic.Int64], the rest wrap as [atomic.Uint64]. *)
Definition metrics_Add (c : counter) (n : Z) (m : udpMetrics) : udpMetrics :=
  fun c' => if decide (c' = c)
            then match c with
                 | activeAssociations | queueDepth => m c + n
                 | _ => wrap 64 (m c + n)
                 end
            else m c'.

(** Additions to counters. *)
Abbreviation adds := (list (counter * Z)).

(** [inboundPacket]: a parsed relay packet from the client. [ip_buffer] is the
    pooled buffer it lives in. *)
Record inboundPacket := mkInbound {
  ip_payload : bytes;
  ip_buffer : bytes;
  ip_frag : Z;
  ip_dst : Address;
  ip_src : AddrPort;
  ip_batchSlot : bool
}.

(** [udpSendJob]; the sockets, context and connector of the association are the
    association's, so the job carries its number. *)
Record udpSendJob := mkJob {
  associationID : Z;
  job_packet : inboundPacket;
  job_host : bytes;
  job_port : Z
}.

Record udpRuntime := mkRuntime {
  ur_config : UDPConfig;
  metrics : udpMetrics;
  shards : option (list (Z * list udpSendJob));   (* None before startOnce; capacity, queue *)
  sequence : Z;
  associationSlots : Z;                           (* tokens in the channel *)
  associationCap : Z;
  batchSlots : option (Z * Z)                     (* None when nil; tokens, capacity *)
}.

Definition set_metrics (f : udpMetrics -> udpMetrics) (r : udpRuntime) : udpRuntime :=
  mkRuntime (ur_config r) (f (metrics r)) (shards r) (sequence r) (associationSlots r)
    (associationCap r) (batchSlots r).
Definition set_shards (s : option (list (Z * list udpSendJob))) (r : udpRuntime) : udpRuntime :=
  mkRuntime (ur_config r) (metrics r) s (sequence r) (associationSlots r) (associationCap r)
    (batchSlots r).
Definition set_assoc (n : Z) (r : udpRuntime) : udpRuntime :=
  mkRuntime (ur_config r) (metrics r) (shards r) (sequence r) n (associationCap r) (batchSlots r).
Definition set_sequence (n : Z) (r : udpRuntime) : udpRuntime :=
  mkRuntime (ur_config r) (metrics r) (shards r) n (associationSlots r) (associationCap r)
    (batchSlots r).
Definition set_batch (b : option (Z * Z)) (r : udpRuntime) : udpRuntime :=
  mkRuntime (ur_config r) (metrics r) (shards r) (sequence r) (associationSlots r)
    (associationCap r) b.

Definition protoUDPHeaderMaxLen : Z := 3 + 1 + 1 + 255 + 2.

Definition normalizeUDPConfig (cfg : UDPConfig) : UDPConfig :=
  let pick v d := if v =? 0 then d else v in
  mkUDPConfig (pick (MaxPacketSize cfg) DefaultUDPMaxPacketSize)
    (pick (BatchSize cfg) DefaultUDPBatchSize) (BatchBufferBudget cfg)
    (pick (SendQueueSize cfg) DefaultUDPSendQueueSize) (SendWorkers cfg)
    (SocketBufferBytes cfg) (MaxAssociations cfg) (MetricsIntervalSecs cfg)
    (AssociationIdleTimeoutSecs cfg) (GSO cfg) (GRO cfg).

Definition newUDPRuntime (cfg : UDPConfig) (concurrent : Z) : udpRuntime :=
  let cfg := normalizeUDPConfig cfg in
  let maxAssociations := if MaxAssociations cfg =? 0 then concurrent else MaxAssociations cfg in
  mkRuntime cfg (fun _ => 0) None 0 0 maxAssociations
    (if 0 <? BatchBufferBudget cfg then Some (0, BatchBufferBudget cfg) else None).

(** The length of a pooled buffer. *)
Definition bufferLen (r : udpRuntime) : Z := MaxPacketSize (ur_config r) + protoUDPHeaderMaxLen.

(** ** Batch buffers *)

Definition tryAcquireBatchBuffer (r : udpRuntime) : bool * udpRuntime :=
  match batchSlots r with
  | None => (false, r)
  | Some (n, cap) => if n <? cap then (true, set_batch (Some (n + 1, cap)) r) else (false, r)
  end.

(** [releaseBuffer]: the receive blocks when there is no token (or no channel). *)
Definition releaseBuffer (batchSlot : bool) (r : udpRuntime) : option udpRuntime :=
  if batchSlot then
    match batchSlots r with
    | Some (n, cap) => if 0 <? n then Some (set_batch (Some (n - 1, cap)) r) else None
    | None => None
    end
  else Some r.

Definition releaseInboundPacket (p : inboundPacket) (r : udpRuntime) : option udpRuntime :=
  releaseBuffer (ip_batchSlot p) r.

(** ** Associations *)

(** The adds of an operation that nothing interrupts. *)
Definition make_adds (l : adds) (r : udpRuntime) : udpRuntime :=
  foldl (fun r a => set_metrics (metrics_Add a.1 a.2) r) r l.

(** The send to and the receive from the channel of slots. *)
Definition takeSlot (r : udpRuntime) : option udpRuntime :=
  if associationSlots r <? associationCap r then Some (set_assoc (associationSlots r + 1) r) else None.
Definition returnSlot (r : udpRuntime) : option udpRuntime :=
  if 0 <? associationSlots r then Some (set_assoc (associationSlots r - 1) r) else None.

(** [sequence.Add(1)] *)
Definition nextSequence (r : udpRuntime) : udpRuntime := set_sequence (wrap 64 (sequence r + 1)) r.

(** [lt1] and [lt2] are [lifetime.Err()] at the two tests. *)
Definition beginAssociation (lt1 lt2 : option error) (r : udpRuntime) : Z * bool * udpRuntime :=
  match lt1 with
  | Some _ => (0, false, r)
  | None =>
      match takeSlot r with
      | None => (0, false, make_adds [(associationDrops, 1)] r)
      | Some r =>
          match lt2 with
          | Some _ => (0, false, default r (returnSlot r))
          | None =>
              let r := nextSequence (make_adds [(activeAssociations, 1); (totalAssociations, 1)] r) in
              (sequence r, true, r)
          end
      end
  end.

Definition endAssociation (r : udpRuntime) : option udpRuntime :=
  make_adds [(activeAssociations, -1)] <$> returnSlot r.

(** ** The send queue *)

(** The number of workers: configured, or twice [GOMAXPROCS] within [4, 64];
    never more than there are queue slots. *)
Definition dispatchWorkers (gomaxprocs : Z) (cfg : UDPConfig) : Z :=
  let workers := SendWorkers cfg in
  let workers :=
    if workers =? 0 then
      let workers := gomaxprocs * 2 in
      let workers := if workers <? 4 then 4 else workers in
      if 64 <? workers then 64 else workers
    else workers in
  if SendQueueSize cfg <? workers then SendQueueSize cfg else workers.

(** The capacity of the queue of each worker. *)
Definition shardCapacities (cfg : UDPConfig) (workers : Z) : list Z :=
  let queuePerShard := SendQueueSize cfg / workers in
  let extraQueueSlots := SendQueueSize cfg `mod` workers in
  (fun index => if index <? extraQueueSlots then queuePerShard + 1 else queuePerShard)
    <$> seqZ 0 workers.

Definition startDispatcher (gomaxprocs : Z) (r : udpRuntime) : udpRuntime :=
  let workers := dispatchWorkers gomaxprocs (ur_config r) in
  set_shards (Some ((fun cap => (cap, [])) <$> shardCapacities (ur_config r) workers)) r.

(** [startOnce.Do(r.startDispatcher)] *)
Definition startOnce (gomaxprocs : Z) (r : udpRuntime) : udpRuntime :=
  match shards r with Some _ => r | None => startDispatcher gomaxprocs r end.

(** The send to the shard of the association, once there are shards: [None] when its
    queue is full. *)
Definition enqueue (job : udpSendJob) (r : udpRuntime) : option udpRuntime :=
  let qs := default [] (shards r) in
  let i := Z.to_nat (associationID job `mod` len qs) in
  match qs !! i with
  | Some (cap, q) =>
      if len q <? cap then Some (set_shards (Some (<[i := (cap, q ++ [job])]> qs)) r) else None
  | None => None   (* no shard: excluded by [startDispatcher] *)
  end.

(** [dispatch]; [lt] is [lifetime.Err()]. *)
Definition dispatch (gomaxprocs : Z) (lt : option error) (job : udpSendJob) (r : udpRuntime)
    : bool * udpRuntime :=
  match lt with
  | Some _ => (false, r)
  | None =>
      let r := startOnce gomaxprocs r in
      match enqueue job r with
      | Some r => (true, make_adds [(queueDepth, 1)] r)
      | None => (false, make_adds [(queueDrops, 1)] r)
      end
  end.

(** A worker receives the next job of its queue. *)
Definition recvJob (i : nat) (r : udpRuntime) : option (udpSendJob * udpRuntime) :=
  match shards r with
  | None => None
  | Some qs =>
      match qs !! i with
      | Some (cap, job :: q) => Some (job, set_shards (Some (<[i := (cap, q)]> qs)) r)
      | _ => None
      end
  end.

(** [runSendJob]: [ctx] is [job.ctx.Err()], [send] the error of [SendPacket]. *)
Definition send_adds (ctx send : option error) : adds :=
  match ctx, send with None, Some _ => [(errors, 1)] | _, _ => [] end.

Definition runSendJob (ctx send : option error) (job : udpSendJob) (r : udpRuntime)
    : option udpRuntime :=
  releaseInboundPacket (job_packet job) (make_adds (send_adds ctx send) (make_adds [(queueDepth, -1)] r)).

(** At shutdown a worker drops a queued job. *)
Definition drainJob (job : udpSendJob) (r : udpRuntime) : option udpRuntime :=
  releaseInboundPacket (job_packet job) (make_adds [(queueDepth, -1)] r).

(** ** Interleavings *)

(** The runtime with what its users hold: the associations that have a slot and are
    before the second test of [beginAssociation], the open ones, the buffers in the hands
    of readers and handlers (whether each carries a batch slot), the jobs a worker has
    received, and those it is sending. A goroutine adds to a counter some time after the
    channel operation that the counter is about: [owed] are the adds still to be made. *)
Record usys := mkUsys {
  rt : udpRuntime;
  starting : nat;
  opened : list Z;
  held : list bool;
  received : list udpSendJob;
  sending : list udpSendJob;
  owed : adds
}.

Definition uinit (cfg : UDPConfig) (concurrent : Z) : usys :=
  mkUsys (newUDPRuntime cfg concurrent) 0 [] [] [] [] [].

Definition put_rt (r : udpRuntime) (s : usys) : usys :=
  mkUsys r (starting s) (opened s) (held s) (received s) (sending s) (owed s).
Definition put_assocs (n : nat) (o : list Z) (s : usys) : usys :=
  mkUsys (rt s) n o (held s) (received s) (sending s) (owed s).
Definition put_held (h : list bool) (s : usys) : usys :=
  mkUsys (rt s) (starting s) (opened s) h (received s) (sending s) (owed s).
Definition put_jobs (js ks : list udpSendJob) (s : usys) : usys :=
  mkUsys (rt s) (starting s) (opened s) (held s) js ks (owed s).
Definition put_owed (l : adds) (s : usys) : usys :=
  mkUsys (rt s) (starting s) (opened s) (held s) (received s) (sending s) l.
Definition owe (l : adds) (s : usys) : usys := put_owed (l ++ owed s) s.

Inductive udp_step (procs : Z) : usys -> usys -> Prop :=
  (* beginAssociation *)
  | u_slot s r :
      takeSlot (rt s) = Some r ->
      udp_step procs s (put_assocs (S (starting s)) (opened s) (put_rt r s))
  | u_refused s :
      takeSlot (rt s) = None -> udp_step procs s (owe [(associationDrops, 1)] s)
  | u_cancelled s n r :
      starting s = S n -> returnSlot (rt s) = Some r ->
      udp_step procs s (put_assocs n (opened s) (put_rt r s))
  | u_begin s n :
      starting s = S n ->
      let r := nextSequence (rt s) in
      udp_step procs s (owe [(activeAssociations, 1); (totalAssociations, 1)]
                          (put_assocs n (sequence r :: opened s) (put_rt r s)))
  (* endAssociation *)
  | u_end s id o r :
      opened s ≡ₚ id :: o -> returnSlot (rt s) = Some r ->
      udp_step procs s (owe [(activeAssociations, -1)] (put_assocs (starting s) o (put_rt r s)))
  (* buffers *)
  | u_read s : udp_step procs s (put_held (false :: held s) s)
  | u_acquire s ok r :
      tryAcquireBatchBuffer (rt s) = (ok, r) ->
      udp_step procs s (put_held (if ok then true :: held s else held s) (put_rt r s))
  | u_release s b h r :
      held s ≡ₚ b :: h -> releaseBuffer b (rt s) = Some r -> udp_step procs s (put_held h (put_rt r s))
  (* dispatch *)
  | u_startOnce s : udp_step procs s (put_rt (startOnce procs (rt s)) s)
  | u_dispatch s job h r :
      held s ≡ₚ ip_batchSlot (job_packet job) :: h -> enqueue job (rt s) = Some r ->
      udp_step procs s (owe [(queueDepth, 1)] (put_held h (put_rt r s)))
  | u_dropped s job h :
      held s ≡ₚ ip_batchSlot (job_packet job) :: h -> shards (rt s) <> None -> enqueue job (rt s) = None ->
      udp_step procs s (owe [(queueDrops, 1)] s)
  (* workers *)
  | u_recv s i job r :
      recvJob i (rt s) = Some (job, r) ->
      udp_step procs s (put_jobs (job :: received s) (sending s) (put_rt r s))
  | u_send s job js :
      received s ≡ₚ job :: js ->
      udp_step procs s (owe [(queueDepth, -1)] (put_jobs js (job :: sending s) s))
  | u_sent s ctx send job js r :
      sending s ≡ₚ job :: js -> releaseInboundPacket (job_packet job) (rt s) = Some r ->
      udp_step procs s (owe (send_adds ctx send) (put_jobs (received s) js (put_rt r s)))
  | u_drain s job js r :
      received s ≡ₚ job :: js -> releaseInboundPacket (job_packet job) (rt s) = Some r ->
      udp_step procs s (owe [(queueDepth, -1)] (put_jobs js (sending s) (put_rt r s)))
  (* an add is made *)
  | u_add s c n l :
      owed s ≡ₚ (c, n) :: l ->
      udp_step procs s (put_owed l (put_rt (make_adds [(c, n)] (rt s)) s)).

Definition udp_reachable (procs : Z) (cfg : UDPConfig) (concurrent : Z) : usys -> Prop :=
  rtc (udp_step procs) (uinit cfg concurrent).

(** ** Queue capacities *)

Lemma sum_capacities q e (k : nat) :
  0 <= e -> sumZ ((fun i => if i <? e then q + 1 else q) <$> seqZ 0 (Z.of_nat k))
  = Z.of_nat k * q + Z.min (Z.of_nat k) e.
Proof.
  intros He. induction k as [|k IH]; [replace (sumZ _) with 0 by done; lia|].
  rewrite seqZ_S, fmap_app, sumZ_app, IH. unfold sumZ.
  cbn [fmap list_fmap foldr]. case_one; zbool; lia.
Qed.

Lemma shardCapacities_sum cfg w :
  1 <= w -> 0 <= SendQueueSize cfg -> sumZ (shardCapacities cfg w) = SendQueueSize cfg.
Proof.
  intros Hw Hq. unfold shardCapacities.
  pose proof (Z.mod_pos_bound (SendQueueSize cfg) w ltac:(lia)).
  pose proof (sum_capacities (SendQueueSize cfg / w) (SendQueueSize cfg `mod` w) (Z.to_nat w)) as E.
  rewrite Z2Nat.id in E by lia. rewrite E, Z.min_r by lia.
  pose proof (Z.div_mod (SendQueueSize cfg) w). lia.
Qed.

Lemma dispatchWorkers_bounds procs cfg :
  1 <= SendQueueSize cfg -> 0 <= SendWorkers cfg -> 1 <= dispatchWorkers procs cfg <= SendQueueSize cfg.
Proof. intros. unfold dispatchWorkers. repeat case_one; zbool; lia. Qed.

Lemma shardCapacities_bounds cfg w cap :
  1 <= w <= SendQueueSize cfg -> cap ∈ shardCapacities cfg w ->
  1 <= cap /\ SendQueueSize cfg / w <= cap <= SendQueueSize cfg / w + 1.
Proof.
  intros Hw (i & -> & _)%list_elem_of_fmap.
  assert (1 <= SendQueueSize cfg / w) by (apply Z.div_le_lower_bound; lia).
  case_one; lia.
Qed.

Lemma len_seqZ a n : 0 <= n -> len (seqZ a n) = n.
Proof. intros. unfold len. rewrite length_seqZ. lia. Qed.

Lemma len_shardCapacities cfg w : 0 <= w -> len (shardCapacities cfg w) = w.
Proof. intros. unfold shardCapacities, len. rewrite length_fmap, length_seqZ. lia. Qed.

(** ** Conservation *)

(** Tokens carried by a list of buffers or jobs. *)
Definition tokens (l : list bool) : Z := sumZ ((fun b : bool => if b then 1 else 0) <$> l).
Definition job_slot (j : udpSendJob) : bool := ip_batchSlot (job_packet j).
Definition queue_tokens (qs : list (Z * list udpSendJob)) : Z :=
  sumZ ((fun cq => tokens (job_slot <$> cq.2)) <$> qs).
Definition queued (qs : list (Z * list udpSendJob)) : Z := sumZ ((fun cq => len cq.2) <$> qs).

Lemma tokens_perm l k : l ≡ₚ k -> tokens l = tokens k.
Proof. intros H. apply sumZ_perm. by rewrite H. Qed.
Lemma tokens_cons b l : tokens (b :: l) = (if b then 1 else 0) + tokens l.
Proof. done. Qed.
Lemma tokens_app a b : tokens (a ++ b) = tokens a + tokens b.
Proof. unfold tokens. by rewrite fmap_app, sumZ_app. Qed.
Lemma tokens_nonneg l : 0 <= tokens l.
Proof. unfold tokens, sumZ. induction l as [|[] l IH]; cbn in *; lia. Qed.

(** What the adds in [l] make to counter [c]. *)
Definition owing (c : counter) (l : adds) : Z :=
  sumZ ((fun a : counter * Z => if decide (a.1 = c) then a.2 else 0) <$> l).

Lemma owing_app c l k : owing c (l ++ k) = owing c l + owing c k.
Proof. unfold owing. by rewrite fmap_app, sumZ_app. Qed.
Lemma owing_nil c : owing c [] = 0.
Proof. done. Qed.
Lemma owing_cons c a l : owing c (a :: l) = (if decide (a.1 = c) then a.2 else 0) + owing c l.
Proof. done. Qed.
Lemma owing_perm c l k : l ≡ₚ k -> owing c l = owing c k.
Proof. intros H. apply sumZ_perm. by rewrite H. Qed.
Lemma owing_send c ctx send : c <> errors -> owing c (send_adds ctx send) = 0.
Proof. intros. destruct ctx, send; try done. unfold owing, sumZ. cbn. by rewrite decide_False. Qed.

(** What holds of a configured runtime and its users at any time. *)
Record uinv (s : usys) : Prop := {
  u_assoc : associationSlots (rt s) = len (opened s) + Z.of_nat (starting s) /\
            associationSlots (rt s) <= Z.max 0 (associationCap (rt s));
  u_active : metrics (rt s) activeAssociations + owing activeAssociations (owed s) = len (opened s);
  u_tokens : let n := tokens (held s) + queue_tokens (default [] (shards (rt s)))
                      + tokens (job_slot <$> received s) + tokens (job_slot <$> sending s) in
             match batchSlots (rt s) with
             | Some (k, cap) => k = n /\ k <= cap
             | None => n = 0
             end;
  u_queue : metrics (rt s) queueDepth + owing queueDepth (owed s)
            = queued (default [] (shards (rt s))) + len (received s);
  u_caps : 1 <= SendQueueSize (ur_config (rt s)) /\ 0 <= SendWorkers (ur_config (rt s)) /\
           forall qs, shards (rt s) = Some qs ->
             qs <> [] /\ sumZ (fst <$> qs) = SendQueueSize (ur_config (rt s)) /\
             Forall (fun cq => 1 <= cq.1 /\ len cq.2 <= cq.1) qs
}.

Lemma queued_bound qs :
  Forall (fun cq : Z * list udpSendJob => 1 <= cq.1 /\ len cq.2 <= cq.1) qs ->
  0 <= queued qs <= sumZ (fst <$> qs).
Proof.
  unfold queued, sumZ. induction 1 as [|[c q] qs [? ?] _ IH]; cbn in *; [done|].
  pose proof (len_nonneg q). lia.
Qed.

(** Evaluate the fields of a step's state, and what its adds owe. *)
Ltac usimp :=
  unfold owe in *;
  cbn [put_rt put_assocs put_held put_jobs put_owed set_metrics set_shards set_assoc set_sequence set_batch
       nextSequence make_adds foldl ur_config metrics shards sequence associationSlots associationCap batchSlots
       rt starting opened held received sending owed fst snd] in *;
  rewrite ?owing_app, ?len_cons.
Ltac owes := rewrite ?owing_cons, ?owing_nil; cbn [fst snd]; rewrite ?decide_True by done;
  rewrite ?decide_False by discriminate.

Lemma uinv_init cfg concurrent :
  0 <= SendQueueSize cfg -> 0 <= SendWorkers cfg -> uinv (uinit cfg concurrent).
Proof.
  intros Hq Hw. constructor; cbn; try done.
  - split; [done|lia].
  - case_one; zbool; [split; [done | lia] | done].
  - split; [case_one; zbool; [done | lia] | done].
Qed.

(** Owing adds that are not to the two gauges changes nothing. *)
Lemma uinv_owe s l : uinv s -> owing activeAssociations l = 0 -> owing queueDepth l = 0 -> uinv (owe l s).
Proof. intros [Hn Ha Ht Hq Hs] H1 H2. constructor; usimp; try done; lia. Qed.

Lemma takeSlot_Some r r' : takeSlot r = Some r' ->
  associationSlots r < associationCap r /\ r' = set_assoc (associationSlots r + 1) r.
Proof. unfold takeSlot. case_one; [|done]. zbool. by intros [= <-]. Qed.
Lemma returnSlot_Some r r' : returnSlot r = Some r' ->
  0 < associationSlots r /\ r' = set_assoc (associationSlots r - 1) r.
Proof. unfold returnSlot. case_one; [|done]. zbool. by intros [= <-]. Qed.

Lemma uinv_slot s r :
  uinv s -> takeSlot (rt s) = Some r -> uinv (put_assocs (S (starting s)) (opened s) (put_rt r s)).
Proof.
  intros [[Hn Hc] Ha Ht Hq Hs] [? ->]%takeSlot_Some. constructor; usimp; try done. lia.
Qed.

Lemma uinv_cancelled s n r :
  uinv s -> starting s = S n -> returnSlot (rt s) = Some r -> uinv (put_assocs n (opened s) (put_rt r s)).
Proof.
  intros [[Hn Hc] Ha Ht Hq Hs] E [? ->]%returnSlot_Some. constructor; usimp; try done. lia.
Qed.

Lemma uinv_begin s n :
  uinv s -> starting s = S n ->
  uinv (owe [(activeAssociations, 1); (totalAssociations, 1)]
          (put_assocs n (sequence (nextSequence (rt s)) :: opened s) (put_rt (nextSequence (rt s)) s))).
Proof.
  intros [[Hn Hc] Ha Ht Hq Hs] E. constructor; usimp; try done; owes; lia.
Qed.

Lemma uinv_end s id o r :
  uinv s -> opened s ≡ₚ id :: o -> returnSlot (rt s) = Some r ->
  uinv (owe [(activeAssociations, -1)] (put_assocs (starting s) o (put_rt r s))).
Proof.
  intros [[Hn Hc] Ha Ht Hq Hs] Ho%Permutation_length [? ->]%returnSlot_Some.
  assert (len (opened s) = 1 + len o) as E by (unfold len; cbn in Ho; lia).
  constructor; usimp; try done; owes; lia.
Qed.

(** Releasing a buffer gives its token back and touches nothing else. *)
Lemma releaseBuffer_spec b r r' :
  releaseBuffer b r = Some r' ->
  (b = false /\ r' = r) \/
  (b = true /\ exists k cap, batchSlots r = Some (k, cap) /\ 0 < k /\
               r' = set_batch (Some (k - 1, cap)) r).
Proof.
  unfold releaseBuffer. destruct b; [|intros [= <-]; by left].
  destruct (batchSlots r) as [[k cap]|] eqn:E; [|done]. case_one; [|done]. zbool.
  intros [= <-]. right. eauto 10.
Qed.

(** A buffer leaves the hands of readers, or those of a worker. *)
Lemma uinv_freed s b h js ks r :
  uinv s -> releaseBuffer b (rt s) = Some r ->
  tokens (held s) + tokens (job_slot <$> received s) + tokens (job_slot <$> sending s)
    = (if b : bool then 1 else 0) + tokens h + tokens (job_slot <$> js) + tokens (job_slot <$> ks) ->
  len js = len (received s) -> uinv (put_held h (put_jobs js ks (put_rt r s))).
Proof.
  intros [Hn Ha Ht Hq Hs] Hr E El.
  apply releaseBuffer_spec in Hr as [[-> ->]|(-> & k & cap & Eb & Hk & ->)]; constructor; usimp; try done;
    rewrite ?El; try done.
  - destruct (batchSlots (rt s)) as [[k cap]|]; lia.
  - rewrite Eb in Ht. lia.
Qed.

Lemma uinv_release s b h r :
  uinv s -> held s ≡ₚ b :: h -> releaseBuffer b (rt s) = Some r -> uinv (put_held h (put_rt r s)).
Proof.
  intros Hi Hh%tokens_perm Hr. rewrite tokens_cons in Hh.
  apply (uinv_freed s b h (received s) (sending s) r); done || lia.
Qed.

Lemma uinv_acquire s ok r :
  uinv s -> tryAcquireBatchBuffer (rt s) = (ok, r) ->
  uinv (put_held (if ok then true :: held s else held s) (put_rt r s)).
Proof.
  intros [Hn Ha Ht Hq Hs] Hr. unfold tryAcquireBatchBuffer in Hr.
  destruct (batchSlots (rt s)) as [[k cap]|] eqn:E.
  - case_one_in Hr; injection Hr as <- <-; constructor; usimp; try done.
    + rewrite tokens_cons. zbool. lia.
    + by rewrite E.
  - injection Hr as <- <-. constructor; usimp; try done. by rewrite E.
Qed.

Lemma startOnce_shards procs r :
  1 <= SendQueueSize (ur_config r) -> 0 <= SendWorkers (ur_config r) ->
  (forall qs, shards r = Some qs ->
     qs <> [] /\ sumZ (fst <$> qs) = SendQueueSize (ur_config r) /\
     Forall (fun cq => 1 <= cq.1 /\ len cq.2 <= cq.1) qs) ->
  exists qs, startOnce procs r = set_shards (Some qs) r /\
    queued qs = queued (default [] (shards r)) /\
    queue_tokens qs = queue_tokens (default [] (shards r)) /\
    qs <> [] /\ sumZ (fst <$> qs) = SendQueueSize (ur_config r) /\
    Forall (fun cq => 1 <= cq.1 /\ len cq.2 <= cq.1) qs.
Proof.
  intros Hq Hw Hs. unfold startOnce. destruct (shards r) as [qs|] eqn:E.
  - exists qs. destruct r. cbn in *. subst. by destruct (Hs qs eq_refl) as (? & ? & ?).
  - eexists. split; [reflexivity|]. pose proof (dispatchWorkers_bounds procs _ Hq Hw) as Hb.
    set (w := dispatchWorkers procs (ur_config r)) in *. cbn [default].
    assert (forall l : list Z, queued ((fun cap => (cap, [])) <$> l) = 0) as H1.
    { induction l; [done|]. unfold queued, sumZ in *. cbn. rewrite len_nil. lia. }
    assert (forall l : list Z, queue_tokens ((fun cap => (cap, [])) <$> l) = 0) as H2.
    { induction l; [done|]. unfold queue_tokens, sumZ in *. cbn. lia. }
    rewrite H1, H2. split_and!; [done | done | | |].
    + intros E'. apply fmap_nil_inv in E'.
      pose proof (len_shardCapacities (ur_config r) w ltac:(lia)) as El. rewrite E' in El.
      rewrite len_nil in El. lia.
    + rewrite <- list_fmap_compose. rewrite <- (shardCapacities_sum (ur_config r) w) by lia.
      f_equal. rewrite list_fmap_id. done.
    + apply Forall_fmap, Forall_forall. intros cap Hc. cbn. rewrite len_nil.
      destruct (shardCapacities_bounds _ _ _ Hb Hc). lia.
Qed.

Lemma uinv_startOnce procs s : uinv s -> uinv (put_rt (startOnce procs (rt s)) s).
Proof.
  intros [Hn Ha Ht Hq (Hs1 & Hs2 & Hs3)].
  destruct (startOnce_shards procs (rt s) Hs1 Hs2 Hs3) as (qs & -> & Eq & Et & Hne & Hsum & Hcap).
  constructor; usimp; try done; change (default [] (Some qs)) with qs; rewrite ?Eq, ?Et; try done.
  split_and!; [done..|]. by intros ? [= <-].
Qed.

(** Replacing the queue of one shard. *)
Lemma queue_insert qs i cap q q' :
  qs !! i = Some (cap, q) ->
  queued (<[i := (cap, q')]> qs) = queued qs - len q + len q' /\
  queue_tokens (<[i := (cap, q')]> qs)
    = queue_tokens qs - tokens (job_slot <$> q) + tokens (job_slot <$> q') /\
  fst <$> <[i := (cap, q')]> qs = fst <$> qs.
Proof.
  intros H. unfold queued, queue_tokens. rewrite !(sumZ_insert _ _ _ _ _ H). cbn.
  split_and!; [done..|]. rewrite list_fmap_insert. cbn. apply list_insert_id.
  rewrite list_lookup_fmap, H. done.
Qed.

Lemma caps_insert qs i cap q q' :
  qs !! i = Some (cap, q) -> len q' <= cap ->
  Forall (fun cq : Z * list udpSendJob => 1 <= cq.1 /\ len cq.2 <= cq.1) qs ->
  Forall (fun cq => 1 <= cq.1 /\ len cq.2 <= cq.1) (<[i := (cap, q')]> qs).
Proof.
  intros H Hl Hf. apply Forall_insert; [done|]. cbn. split; [|done].
  by destruct (proj1 (Forall_lookup _ _) Hf _ _ H).
Qed.

Lemma insert_nonempty {A} (qs : list A) i x : qs <> [] -> <[i := x]> qs <> [].
Proof. destruct qs, i; done. Qed.

Lemma enqueue_Some job r r' : enqueue job r = Some r' ->
  exists qs i cap q, shards r = Some qs /\ qs !! i = Some (cap, q) /\ len q < cap /\
    r' = set_shards (Some (<[i := (cap, q ++ [job])]> qs)) r.
Proof.
  unfold enqueue. destruct (shards r) as [qs|]; [|done]. cbn. set (i := Z.to_nat _).
  destruct (qs !! i) as [[cap q]|] eqn:Ei; [|done]. case_one; [|done]. zbool. intros [= <-]. eauto 10.
Qed.

Lemma uinv_dispatch s job h r :
  uinv s -> held s ≡ₚ ip_batchSlot (job_packet job) :: h -> enqueue job (rt s) = Some r ->
  uinv (owe [(queueDepth, 1)] (put_held h (put_rt r s))).
Proof.
  intros [Hn Ha Ht Hq (Hs1 & Hs2 & Hs3)] Hh%tokens_perm (qs & i & cap & q & E & Ei & Hlt & ->)%enqueue_Some.
  rewrite tokens_cons in Hh. fold (job_slot job) in Hh. rewrite E in *. change (default [] (Some qs)) with qs in *.
  destruct (Hs3 qs eq_refl) as (Hne & Hsum & Hcap).
  assert (len (q ++ [job]) = len q + 1) as El by (autorewrite with go; lia).
  destruct (queue_insert qs i cap q (q ++ [job]) Ei) as (E1 & E2 & E3).
  rewrite fmap_app, tokens_app in E2.
  assert (tokens (job_slot <$> [job]) = if job_slot job then 1 else 0) as E4
    by (unfold tokens, sumZ; cbn; lia).
  constructor; usimp; [done| | | |];
    change (default [] (Some (<[i := (cap, q ++ [job])]> qs))) with (<[i := (cap, q ++ [job])]> qs).
  - owes. lia.
  - destruct (batchSlots (rt s)) as [[k c]|]; lia.
  - owes. lia.
  - split_and!; [done..|]. intros ? [= <-]. split_and!;
      [by apply insert_nonempty | by rewrite E3 | apply caps_insert with q; [done | lia | done]].
Qed.

Lemma uinv_recv s i job r :
  uinv s -> recvJob i (rt s) = Some (job, r) ->
  uinv (put_jobs (job :: received s) (sending s) (put_rt r s)).
Proof.
  intros [Hn Ha Ht Hq (Hs1 & Hs2 & Hs3)] Hd. unfold recvJob in Hd.
  destruct (shards (rt s)) as [qs|] eqn:Es; [|done].
  destruct (qs !! i) as [[cap [|j q]]|] eqn:Ei; try done. injection Hd as <- <-.
  destruct (queue_insert qs i cap (j :: q) q Ei) as (E1 & E2 & E3).
  destruct (Hs3 qs eq_refl) as (Hne & Hsum & Hcap).
  pose proof (proj2 (proj1 (Forall_lookup _ _) Hcap _ _ Ei)) as Hl. cbn in Hl.
  rewrite fmap_cons, tokens_cons in E2. rewrite len_cons in E1, Hl.
  constructor; usimp; rewrite ?Es in *;
    change (default [] (Some qs)) with qs in *;
    change (default [] (Some (<[i := (cap, q)]> qs))) with (<[i := (cap, q)]> qs) in *; [done|done| | |].
  - rewrite fmap_cons, tokens_cons. destruct (batchSlots (rt s)) as [[k c]|]; lia.
  - lia.
  - split_and!; [done..|]. intros ? [= <-]. split_and!;
      [by apply insert_nonempty | by rewrite E3 | apply caps_insert with (j :: q); [done | lia | done]].
Qed.

(** The first of a permuted list of jobs. *)
Lemma jobs_split (l k : list udpSendJob) job : l ≡ₚ job :: k ->
  len l = 1 + len k /\ tokens (job_slot <$> l) = (if job_slot job then 1 else 0) + tokens (job_slot <$> k).
Proof.
  intros H. pose proof (tokens_perm _ _ (fmap_Permutation job_slot _ _ H)) as Hk.
  rewrite fmap_cons, tokens_cons in Hk. apply Permutation_length in H. unfold len. cbn in H. split; [lia|done].
Qed.

Lemma uinv_send s job js :
  uinv s -> received s ≡ₚ job :: js -> uinv (owe [(queueDepth, -1)] (put_jobs js (job :: sending s) s)).
Proof.
  intros [Hn Ha Ht Hq Hs] [El Hk]%jobs_split. constructor; usimp; try done; owes; try lia.
  rewrite fmap_cons, tokens_cons. destruct (batchSlots (rt s)) as [[k c]|]; lia.
Qed.

Lemma uinv_sent s ctx send job js r :
  uinv s -> sending s ≡ₚ job :: js -> releaseInboundPacket (job_packet job) (rt s) = Some r ->
  uinv (owe (send_adds ctx send) (put_jobs (received s) js (put_rt r s))).
Proof.
  intros Hi [_ Hk]%jobs_split Hr. apply uinv_owe; [|by apply owing_send..].
  apply (uinv_freed s (job_slot job) (held s) (received s) js r); done || lia.
Qed.

Lemma uinv_drain s job js r :
  uinv s -> received s ≡ₚ job :: js -> releaseInboundPacket (job_packet job) (rt s) = Some r ->
  uinv (owe [(queueDepth, -1)] (put_jobs js (sending s) (put_rt r s))).
Proof.
  intros Hi Hr Hf.
  apply (uinv_sent (owe [(queueDepth, -1)] (put_jobs js (job :: sending s) s)) (Some EOF) None job (sending s) r);
    [by apply uinv_send|done|exact Hf].
Qed.

Lemma uinv_add s c n l :
  uinv s -> owed s ≡ₚ (c, n) :: l -> uinv (put_owed l (put_rt (make_adds [(c, n)] (rt s)) s)).
Proof.
  intros [Hn Ha Ht Hq Hs] Hp.
  pose proof (owing_perm activeAssociations _ _ Hp) as E1. pose proof (owing_perm queueDepth _ _ Hp) as E2.
  rewrite owing_cons in E1, E2. cbn [fst snd] in E1, E2.
  constructor; usimp; try done; unfold metrics_Add.
  - destruct (decide (activeAssociations = c)) as [<-|];
      [rewrite decide_True in E1 by done|rewrite decide_False in E1 by done]; lia.
  - destruct (decide (queueDepth = c)) as [<-|];
      [rewrite decide_True in E2 by done|rewrite decide_False in E2 by done]; lia.
Qed.

Lemma uinv_step procs s s' : udp_step procs s s' -> uinv s -> uinv s'.
Proof.
  intros Hstep Hi. destruct Hstep; eauto using uinv_slot, uinv_cancelled, uinv_begin, uinv_end, uinv_acquire,
    uinv_release, uinv_startOnce, uinv_dispatch, uinv_recv, uinv_send, uinv_sent, uinv_drain, uinv_add, uinv_owe.
  destruct Hi as [Hn Ha Ht Hq Hs]. by constructor.
Qed.

Lemma uinv_rtc procs s s' : rtc (udp_step procs) s s' -> uinv s -> uinv s'.
Proof. induction 1; eauto using uinv_step. Qed.

(** The configuration and the capacities never change. *)
Definition same_config (r r' : udpRuntime) : Prop :=
  ur_config r' = ur_config r /\ associationCap r' = associationCap r /\
  snd <$> batchSlots r' = snd <$> batchSlots r.

Lemma releaseBuffer_config b r r' : releaseBuffer b r = Some r' -> same_config r r'.
Proof. intros [[_ ->]|(_ & k & c & E & _ & ->)]%releaseBuffer_spec; [done|]. unfold same_config. cbn. by rewrite E. Qed.

Lemma udp_config_step procs s s' : udp_step procs s s' -> same_config (rt s) (rt s').
Proof.
  destruct 1; usimp; try done; try (by eapply releaseBuffer_config).
  - by apply takeSlot_Some in H as [_ ->].
  - by apply returnSlot_Some in H0 as [_ ->].
  - by apply returnSlot_Some in H0 as [_ ->].
  - revert H. unfold tryAcquireBatchBuffer, same_config.
    destruct (batchSlots (rt s)) as [[n c]|] eqn:E; [case_one|]; intros [= _ <-]; cbn; by rewrite ?E.
  - unfold startOnce, startDispatcher. by destruct (shards (rt s)).
  - by apply enqueue_Some in H0 as (? & ? & ? & ? & _ & _ & _ & ->).
  - revert H. unfold recvJob. repeat case_one; by intros [= _ <-].
Qed.

Lemma udp_config_rtc procs s s' : rtc (udp_step procs) s s' -> same_config (rt s) (rt s').
Proof.
  unfold same_config. induction 1 as [|x y z Hxy _ (IH1 & IH2 & IH3)]; [done|].
  apply udp_config_step in Hxy as (E1 & E2 & E3). repeat split; congruence.
Qed.

(** ** Properties *)

(** The batch slots in the hands of readers, queues and workers. *)
Definition slots_in_use (s : usys) : Z :=
  tokens (held s) + queue_tokens (default [] (shards (rt s)))
  + tokens (job_slot <$> received s) + tokens (job_slot <$> sending s).

(** The association limit and the batch budget of a configuration. *)
Definition association_limit (cfg : UDPConfig) (concurrent : Z) : Z :=
  if MaxAssociations cfg =? 0 then concurrent else MaxAssociations cfg.

Lemma udp_reachable_inv procs cfg concurrent s :
  0 <= SendQueueSize cfg -> 0 <= SendWorkers cfg -> udp_reachable procs cfg concurrent s ->
  uinv s /\ ur_config (rt s) = normalizeUDPConfig cfg /\
  associationCap (rt s) = association_limit cfg concurrent /\
  snd <$> batchSlots (rt s)
    = (if 0 <? BatchBufferBudget cfg then Some (BatchBufferBudget cfg) else None).
Proof.
  intros Hq Hw Hr. pose proof (uinv_rtc _ _ _ Hr (uinv_init cfg concurrent Hq Hw)).
  apply udp_config_rtc in Hr as (E1 & E2 & E3). split; [done|]. rewrite E1, E2, E3. cbn.
  split_and!; [done | done |]. by case_one.
Qed.

(** A demonstration configuration: two associations, a budget of one batch
    buffer, a queue of five slots for three workers. *)
Definition demo_udp : UDPConfig := mkUDPConfig 1500 8 1 5 3 0 2 0 0 false false.

Lemma demo_udp_run :
  exists s, udp_reachable 4 demo_udp 100 s /\ opened s = [1] /\ held s = [true; false] /\ owed s = [].
Proof.
  eexists. split; [|split; [|split]].
  - eapply rtc_l; [eapply u_slot; reflexivity|].
    eapply rtc_l; [eapply u_begin; reflexivity|].
    eapply rtc_l; [by apply (u_add _ _ activeAssociations 1 [(totalAssociations, 1)])|].
    eapply rtc_l; [by apply (u_add _ _ totalAssociations 1 [])|].
    eapply rtc_l; [apply u_read|].
    eapply rtc_l; [eapply u_acquire; reflexivity|]. apply rtc_refl.
  - reflexivity.
  - reflexivity.
  - reflexivity.
Qed.

(** C8: the UDP runtime accounts for its resources exactly, in every
    interleaving of associations, readers, senders and workers. The slot channel holds
    one token for each association that is open or being opened, within the limit; the
    batch-buffer channel holds one token for each batch buffer in use anywhere and stays
    within the budget; never more jobs are queued than the queue size allows. The two
    gauges count the open associations, and the jobs that are queued or just taken by a
    worker, as soon as the adds under way are made. *)
Theorem udp_resources_conserved procs cfg concurrent s :
  0 <= SendQueueSize cfg -> 0 <= SendWorkers cfg -> udp_reachable procs cfg concurrent s ->
  associationSlots (rt s) = len (opened s) + Z.of_nat (starting s) /\
  len (opened s) + Z.of_nat (starting s) <= Z.max 0 (association_limit cfg concurrent) /\
  slots_in_use s = match batchSlots (rt s) with Some (k, _) => k | None => 0 end /\
  slots_in_use s <= Z.max 0 (BatchBufferBudget cfg) /\
  queued (default [] (shards (rt s))) <= SendQueueSize (normalizeUDPConfig cfg) /\
  metrics (rt s) activeAssociations + owing activeAssociations (owed s) = len (opened s) /\
  metrics (rt s) queueDepth + owing queueDepth (owed s)
    = queued (default [] (shards (rt s))) + len (received s).
Proof.
  intros Hq Hw Hr.
  destruct (udp_reachable_inv _ _ _ _ Hq Hw Hr) as ([Hn Ha Ht Hd (Hs1 & _ & Hs3)] & Ec & Ea & Eb).
  rewrite Ea in Hn. destruct Hn as [Hn Hlim]. fold (slots_in_use s) in Ht. cbv zeta in Ht.
  assert (slots_in_use s = match batchSlots (rt s) with Some (k, _) => k | None => 0 end /\
          slots_in_use s <= Z.max 0 (BatchBufferBudget cfg)) as [? ?].
  { destruct (batchSlots (rt s)) as [[k c]|]; cbn in Eb; [|lia].
    case_one_in Eb; [|done]. injection Eb as ->. zbool. lia. }
  split_and!; try done; [lia|].
  rewrite <- Ec. destruct (shards (rt s)) as [qs|] eqn:E; [|cbn; unfold queued, sumZ; cbn; lia].
  destruct (Hs3 qs eq_refl) as (_ & <- & Hf). change (default [] (Some qs)) with qs.
  apply queued_bound, Hf.
Qed.

Lemma udp_resources_conserved_witness :
  exists s, opened s = [1] /\ held s = [true; false] /\
    associationSlots (rt s) = 1 + Z.of_nat (starting s) /\ metrics (rt s) activeAssociations + 0 = 1 /\
    slots_in_use s <= 1.
Proof.
  destruct demo_udp_run as (s & Hr & Ho & Hh & Hw). exists s. split; [exact Ho|]. split; [exact Hh|].
  destruct (udp_resources_conserved 4 demo_udp 100 s) as (H1 & _ & _ & H4 & _ & H6 & _);
    [cbn; lia | cbn; lia | exact Hr |].
  rewrite Ho in H1, H6. rewrite Hw in H6. split; [exact H1|]. split; [exact H6 | exact H4].
Defined.

(** Giving a resource back never blocks. In every reachable state, ending
    any open association, giving up one that is being opened, releasing any buffer in
    hand, finishing any send and dropping any job at shutdown find the token they
    receive from the channel. *)
Theorem udp_release_never_blocks procs cfg concurrent s :
  0 <= SendQueueSize cfg -> 0 <= SendWorkers cfg -> udp_reachable procs cfg concurrent s ->
  (opened s <> [] \/ starting s <> 0%nat -> is_Some (returnSlot (rt s))) /\
  (forall b, b ∈ held s -> is_Some (releaseBuffer b (rt s))) /\
  (forall job, job ∈ sending s \/ job ∈ received s ->
     is_Some (releaseInboundPacket (job_packet job) (rt s))).
Proof.
  intros Hq Hw Hr. destruct (udp_reachable_inv _ _ _ _ Hq Hw Hr) as ([[Hn _] _ Ht _ _] & _).
  fold (slots_in_use s) in Ht. cbv zeta in Ht.
  assert (forall b l, b ∈ l -> (if b : bool then 1 else 0) <= tokens l) as Hin.
  { intros b l (l' & Hp)%elem_of_Permutation. rewrite (tokens_perm _ _ Hp), tokens_cons.
    pose proof (tokens_nonneg l'). lia. }
  assert (0 <= queue_tokens (default [] (shards (rt s)))) as Hqt
    by (apply sumZ_nonneg; intros ?; apply tokens_nonneg).
  pose proof (tokens_nonneg (held s)). pose proof (tokens_nonneg (job_slot <$> received s)).
  pose proof (tokens_nonneg (job_slot <$> sending s)).
  assert (forall b : bool, (if b then 1 else 0) <= slots_in_use s -> is_Some (releaseBuffer b (rt s))) as Hrel.
  { intros b Hb. unfold releaseBuffer. destruct b; [|by eexists].
    destruct (batchSlots (rt s)) as [[k c]|]; [|lia].
    rewrite (proj2 (Z.ltb_lt 0 k)) by lia. by eexists. }
  split_and!.
  - intros Hne. assert (0 < associationSlots (rt s)) as Hpos.
    { rewrite Hn. pose proof (len_nonneg (opened s)). destruct Hne as [Hne|]; [|lia].
      destruct (opened s) as [|x l]; [done|]. rewrite len_cons in *. pose proof (len_nonneg l). lia. }
    unfold returnSlot. rewrite (proj2 (Z.ltb_lt _ _) Hpos). by eexists.
  - intros b Hb. apply Hrel. specialize (Hin _ _ Hb). unfold slots_in_use. lia.
  - intros job [Hj|Hj]; apply Hrel; specialize (Hin _ _ (list_elem_of_fmap_2 job_slot _ _ Hj));
      unfold slots_in_use, job_slot in *; lia.
Qed.

Lemma udp_release_never_blocks_witness :
  exists s, held s = [true; false] /\ is_Some (returnSlot (rt s)) /\
    is_Some (releaseBuffer true (rt s)).
Proof.
  destruct demo_udp_run as (s & Hr & Ho & Hh & _). exists s. split; [exact Hh|].
  destruct (udp_release_never_blocks 4 demo_udp 100 s) as (H1 & H2 & _);
    [cbn; lia | cbn; lia | exact Hr |].
  split; [apply H1; left; rewrite Ho; discriminate | apply H2; rewrite Hh; by_decide].
Defined.

(** ** Operations that nothing interrupts *)

(** The adds that were just owed are made. *)
Lemma run_adds procs l s :
  rtc (udp_step procs) (owe l s) (put_rt (make_adds l (rt s)) s).
Proof.
  revert s. induction l as [|[c n] l IH]; intros s.
  - destruct s. apply rtc_refl.
  - eapply rtc_l; [by apply (u_add _ _ c n (l ++ owed s))|].
    by apply (IH (put_rt (make_adds [(c, n)] (rt s)) s)).
Qed.

Lemma begin_run procs s lt1 lt2 id ok r :
  0 <= associationSlots (rt s) -> beginAssociation lt1 lt2 (rt s) = (id, ok, r) ->
  rtc (udp_step procs) s (put_assocs (starting s) (if ok then id :: opened s else opened s) (put_rt r s)).
Proof.
  intros Hn. unfold beginAssociation. destruct lt1; [intros [= <- <- <-]; by destruct s|].
  destruct (takeSlot (rt s)) as [r1|] eqn:E1.
  - destruct (takeSlot_Some _ _ E1) as [_ ->]. destruct lt2; intros [= <- <- <-]; (eapply rtc_l; [by eapply u_slot|]).
    + unfold returnSlot. cbn [associationSlots set_assoc]. rewrite (proj2 (Z.ltb_lt 0 _)) by lia. apply rtc_once.
      apply (u_cancelled _ (put_assocs (S (starting s)) (opened s) (put_rt (set_assoc _ _) s)) (starting s)); [done|].
      unfold returnSlot. cbn. by rewrite (proj2 (Z.ltb_lt 0 _)) by lia.
    + eapply rtc_l; [by eapply u_begin|]. apply run_adds.
  - intros [= <- <- <-]. eapply rtc_l; [by apply u_refused|]. destruct s. apply run_adds.
Qed.

Lemma dispatch_run procs s lt job h ok r :
  held s ≡ₚ ip_batchSlot (job_packet job) :: h -> dispatch procs lt job (rt s) = (ok, r) ->
  rtc (udp_step procs) s (put_held (if ok then h else held s) (put_rt r s)).
Proof.
  intros Hh. unfold dispatch. destruct lt; [intros [= <- <-]; by destruct s|].
  destruct (enqueue _ _) as [r1|] eqn:E; intros [= <- <-]; (eapply rtc_l; [apply u_startOnce|]).
  - eapply rtc_l; [by eapply (u_dispatch _ (put_rt _ s))|]. apply run_adds.
  - eapply rtc_l; [eapply (u_dropped _ (put_rt _ s)); [exact Hh| |exact E]|].
    + cbn. unfold startOnce. destruct (shards (rt s)) eqn:Es; [by rewrite Es|done].
    + apply run_adds.
Qed.

(** What a worker does with a job it has received: the adds [l], and the release. *)
Lemma release_adds p l r r' : releaseInboundPacket p (make_adds l r) = Some r' ->
  exists r1, releaseInboundPacket p r = Some r1 /\ r' = make_adds l r1.
Proof.
  unfold releaseInboundPacket, releaseBuffer. destruct (ip_batchSlot p); [|intros [= <-]; eauto].
  assert (batchSlots (make_adds l r) = batchSlots r /\
    forall b, set_batch b (make_adds l r) = make_adds l (set_batch b r)) as [E1 E2].
  { revert r. induction l as [|a l IH]; intros r; [done|]. exact (IH (set_metrics (metrics_Add a.1 a.2) r)). }
  rewrite E1. destruct (batchSlots r) as [[n cap]|]; [|done]. case_one; [|done]. intros [= <-]. eauto.
Qed.

(** The operations of the runtime, as their callers run them from beginning to end, are
    runs of the system: [udp_step] takes them apart where another goroutine can come in
    between, and nowhere else do they differ. *)
Theorem udp_operations_run procs cfg concurrent s :
  0 <= SendQueueSize cfg -> 0 <= SendWorkers cfg -> udp_reachable procs cfg concurrent s ->
  (forall lt1 lt2 id ok r, beginAssociation lt1 lt2 (rt s) = (id, ok, r) ->
     rtc (udp_step procs) s (put_assocs (starting s) (if ok then id :: opened s else opened s) (put_rt r s))) /\
  (forall id o r, opened s ≡ₚ id :: o -> endAssociation (rt s) = Some r ->
     rtc (udp_step procs) s (put_assocs (starting s) o (put_rt r s))) /\
  (forall lt job h ok r,
     held s ≡ₚ ip_batchSlot (job_packet job) :: h -> dispatch procs lt job (rt s) = (ok, r) ->
     rtc (udp_step procs) s (put_held (if ok then h else held s) (put_rt r s))) /\
  (forall ctx send job js r, received s ≡ₚ job :: js -> runSendJob ctx send job (rt s) = Some r ->
     rtc (udp_step procs) s (put_jobs js (sending s) (put_rt r s))) /\
  (forall job js r, received s ≡ₚ job :: js -> drainJob job (rt s) = Some r ->
     rtc (udp_step procs) s (put_jobs js (sending s) (put_rt r s))).
Proof.
  intros Hq Hw Hr. destruct (udp_reachable_inv _ _ _ _ Hq Hw Hr) as ([[Hn _] _ _ _ _] & _).
  split_and!.
  - intros lt1 lt2 id ok r Hb. apply (begin_run procs s lt1 lt2 id ok r); [|done].
    pose proof (len_nonneg (opened s)). lia.
  - intros id o r Ho. unfold endAssociation. destruct (returnSlot (rt s)) as [r1|] eqn:E; [|done].
    intros [= <-]. eapply rtc_l; [by eapply u_end|]. apply run_adds.
  - intros lt job h ok r. apply dispatch_run.
  - intros ctx send job js r Hj (r1 & Hf & ->)%release_adds.
    eapply rtc_l; [by eapply u_send|]. etrans; [apply run_adds|].
    eapply rtc_l; [by eapply (u_sent _ (put_rt _ (put_jobs _ _ s)) ctx send job (sending s))|].
    exact (run_adds procs (send_adds ctx send) (put_jobs js (sending s) (put_rt r1 s))).
  - intros job js r Hj (r1 & Hf & ->)%release_adds. eapply rtc_l; [by eapply u_drain|]. apply run_adds.
Qed.

(** The send queue is shared out completely and evenly: the dispatcher
    starts between one worker and as many as there are queue slots, each
    worker's queue has at least one slot, two queues differ by at most one, and
    their capacities add up to the configured queue size. *)
Theorem startDispatcher_capacities procs r qs :
  1 <= SendQueueSize (ur_config r) -> 0 <= SendWorkers (ur_config r) ->
  shards (startDispatcher procs r) = Some qs ->
  1 <= len qs <= SendQueueSize (ur_config r) /\
  sumZ (fst <$> qs) = SendQueueSize (ur_config r) /\
  (forall c q, (c, q) ∈ qs -> q = [] /\ 1 <= c) /\
  (forall c q c' q', (c, q) ∈ qs -> (c', q') ∈ qs -> c <= c' + 1).
Proof.
  intros Hq Hw [= <-]. pose proof (dispatchWorkers_bounds procs _ Hq Hw) as Hb.
  set (w := dispatchWorkers procs (ur_config r)) in *.
  assert (forall c (q : list udpSendJob),
    (c, q) ∈ ((fun cap => (cap, [])) <$> shardCapacities (ur_config r) w) ->
    q = [] /\ c ∈ shardCapacities (ur_config r) w) as Hin
    by (by intros c q (x & [= -> ->] & Hx)%list_elem_of_fmap).
  split_and!.
  - unfold len. rewrite length_fmap. fold (len (shardCapacities (ur_config r) w)).
    rewrite len_shardCapacities; lia.
  - unfold len. rewrite length_fmap. fold (len (shardCapacities (ur_config r) w)).
    rewrite len_shardCapacities; lia.
  - rewrite <- list_fmap_compose. rewrite <- (shardCapacities_sum (ur_config r) w) by lia.
    f_equal. rewrite list_fmap_id. done.
  - intros c q [-> Hc]%Hin. split; [done|]. by destruct (shardCapacities_bounds _ _ _ Hb Hc).
  - intros c q c' q' [_ Hc]%Hin [_ Hc']%Hin.
    destruct (shardCapacities_bounds _ _ _ Hb Hc) as [_ ?].
    destruct (shardCapacities_bounds _ _ _ Hb Hc') as [_ ?]. lia.
Qed.

Lemma startDispatcher_capacities_witness :
  1 <= len [(2, @nil udpSendJob); (2, []); (1, [])] <= 5 /\
  sumZ (fst <$> [(2, @nil udpSendJob); (2, []); (1, [])]) = 5.
Proof.
  destruct (startDispatcher_capacities 4 (newUDPRuntime demo_udp 100) [(2, []); (2, []); (1, [])])
    as (H1 & H2 & _); [cbn; lia | cbn; lia | reflexivity |].
  exact (conj H1 H2).
Defined.
