(* ===== verification/UdpRelay.v ===== *)
(** * The UDP relay of one association ([server.go], [udp_io*.go], [udp_gso_linux.go])

    Models the datagram path of [internal/server/socks/server.go] (the
    closures of [handleUDP] and [udpResponder.pumpOnce]), the UDP_SEGMENT
    sender of [udp_gso_linux.go] and the UDP_GRO reader of [udp_io_linux.go].
    What the kernel does (the datagrams a read returns, the outcome of each
    send) is an argument; what the code hands to the kernel is part of the
    result. *)

From Stdlib Require Import ZArith Lia.
From stdpp Require Import base tactics numbers list strings sets gmap.
From S2P Require Import Prelude.
From S2P Require Import Netip.
From S2P Require Import Proto.
From S2P Require Import Ext.
From S2P Require Import Uint128.
From S2P Require Import SourceIP.
From S2P Require Import Config.
From S2P Require Import DnsCache.
From S2P Require Import UdpRuntime.

(** ** udp_io.go *)

Record udpReadPacket := mkRead {
  rp_buffer : bytes;
  rp_n : Z;
  rp_addr : AddrPort;
  rp_truncated : bool;
  rp_batchSlot : bool
}.

Record udpWritePacket := mkWrite {
  wp_buffer : bytes;
  wp_owner : bytes;
  wp_addr : AddrPort;
  wp_batchSlot : bool
}.

Definition releaseReadPacket (p : udpReadPacket) (r : udpRuntime) : option udpRuntime :=
  releaseBuffer (rp_batchSlot p) r.

(** [net.UDPAddr]: the IP bytes and the port ([setUDPAddr] clears the zone). *)
Definition setUDPAddr (ap : AddrPort) : result (bytes * Z) :=
  if Is4 (ap_Addr ap) then
    v4 ← As4 (ap_Addr ap); Ok (v4, ap_Port ap)
  else Ok (As16 (ap_Addr ap), ap_Port ap).

(** ** Authorization and targets *)

Definition isAuthorized (src : AddrPort) (expected : Addr) : bool :=
  let srcIP := ap_Addr src in
  let expIP := expected in
  if bool_decide (srcIP = expIP) then true
  else if Is4In6 srcIP && Is4 expIP && bool_decide (Unmap srcIP = expIP) then true
  else if Is4 srcIP && Is4In6 expIP && bool_decide (Unmap expIP = srcIP) then true
  else false.

(** The authorized source: the address of the request unless it is a domain or
    a wildcard, then the peer of the control connection. *)
Definition authorizedSource (address : Address) (peer : AddrPort) : Addr :=
  let fallback := if IsValid (ap_Addr peer) then ap_Addr peer else IPv4Unspecified in
  match Socket address with
  | Some ap => if IsUnspecified (ap_Addr ap) then fallback else ap_Addr ap
  | None => fallback
  end.

(** [connect.LookupCachedHost]: an IP literal is itself. *)
Definition LookupCachedHost (c : dnsCache) (now : Z) (host : bytes) : option (list Addr) :=
  match ParseAddr host with
  | Ok ip => Some [ip]
  | Err _ => LookupCached c now host
  end.

(** The outbound sockets: their families, and whether there is a second one. *)
Record outbounds := mkOut { preferredV4 : bool; hasFallback : bool; fallbackV4 : bool }.

Fixpoint firstReachable (o : outbounds) (port : Z) (addrs : list Addr) : option AddrPort :=
  match addrs with
  | [] => None
  | addr :: rest =>
      let unmapped := Unmap addr in
      if eqb (preferredV4 o) (Is4 unmapped) || (hasFallback o && eqb (fallbackV4 o) (Is4 unmapped))
      then Some (AddrPortFrom unmapped port)
      else firstReachable o port rest
  end.

Definition cachedTargetForFamily (cached : option (list Addr)) (o : outbounds) (port : Z)
    : option AddrPort :=
  match cached with
  | None => None
  | Some addrs => firstReachable o port addrs
  end.

(** ** Segmentation offload *)

Definition gsoMaxSegments : Z := 64.
Definition gsoScratchBytes : Z := 64 * 1024.

(** The loop of [gsoEligible] from index [i] on. *)
Fixpoint gsoUniform (dst : AddrPort) (size : Z) (rest : list udpWritePacket) : bool :=
  match rest with
  | [] => true
  | p :: rest' =>
      if negb (bool_decide (wp_addr p = dst)) then false
      else
        match rest' with
        | [] => if size <? len (wp_buffer p) then false else true
        | _ => if negb (len (wp_buffer p) =? size) then false else gsoUniform dst size rest'
        end
  end.

Definition gsoEligible (enabled : bool) (batch : list udpWritePacket) : option Z :=
  match batch with
  | [] => None
  | first :: rest =>
      if negb enabled || (len batch <? 2) then None
      else
        let size := len (wp_buffer first) in
        if size =? 0 then None
        else if gsoUniform (wp_addr first) size rest then Some size else None
  end.

(** [sockaddrFromAddrPort]: whether there is one. *)
Definition sockaddrFromAddrPort (ap : AddrPort) : bool := Is4 (ap_Addr ap) || Is6 (ap_Addr ap).

(** The inner loop of [sendUDPGSO]: how many of the remaining datagrams fit in
    one super-datagram, and its bytes. *)
Fixpoint gsoPack (batch : list udpWritePacket) (total segments : Z) : nat * bytes :=
  match batch with
  | [] => (0%nat, [])
  | p :: rest =>
      if negb (segments <? gsoMaxSegments) then (0%nat, [])
      else if gsoScratchBytes <? total + len (wp_buffer p) then (0%nat, [])
      else
        let '(n, b) := gsoPack rest (total + len (wp_buffer p)) (segments + 1) in
        (S n, wp_buffer p ++ b)
  end.

Definition EMSGSIZE : error := Errno 90.
Definition EAFNOSUPPORT : error := Errno 97.

(** The outer loop: [kernel k] is the error of the [k]-th sendmsg, if any. The
    result is the number of datagrams the code reports as sent, its error and
    the super-datagrams the kernel accepted. Every round sends at least one
    datagram, so [length batch] rounds are enough. *)
Fixpoint gsoLoop (fuel : nat) (kernel : nat -> option error) (k : nat) (batch : list udpWritePacket)
    (sent : Z) : Z * option error * list bytes :=
  match fuel, batch with
  | _, [] => (sent, None, [])
  | O, _ => (sent, Some EMSGSIZE, [])
  | S f, _ =>
      let '(n, b) := gsoPack batch 0 0 in
      match n with
      | O => (sent, Some EMSGSIZE, [])
      | _ =>
          match kernel k with
          | Some e => (sent, Some e, [])
          | None =>
              let '(r, e, bs) := gsoLoop f kernel (S k) (drop n batch) (sent + Z.of_nat n) in
              (r, e, b :: bs)
          end
      end
  end.

Definition sendUDPGSO (kernel : nat -> option error) (batch : list udpWritePacket)
    : Z * option error * list bytes :=
  match batch with
  | [] => (0, None, [])
  | first :: _ =>
      if negb (sockaddrFromAddrPort (wp_addr first)) then (0, Some EAFNOSUPPORT, [])
      else gsoLoop (length batch) kernel 0 batch 0
  end.

(** ** Receive offload *)

Definition groMaxSegments : Z := 64.

(** One read of [readGRO]: [data] is what the kernel wrote at the read offset,
    [oobSize] the segment size it reported (zero for none), [limit] the largest
    datagram the reader accepts. The result is the packets as (payload,
    truncated), and the counters it bumps. *)
Definition readGRO (data : bytes) (msgTrunc : bool) (oobSize limit : Z)
    : list (bytes * bool) * list counter :=
  let n := len data in
  if msgTrunc then ([(data, true)], [])
  else
    let segmentSize := oobSize in
    if (segmentSize <=? 0) || (limit <? segmentSize) || (n <=? segmentSize) then
      ([(data, limit <? n)], [])
    else
      let fullSegments := n / segmentSize in
      let remainder := n `mod` segmentSize in
      let segments := if 0 <? remainder then fullSegments + 1 else fullSegments in
      let '(segments, c) :=
        if groMaxSegments <? segments then (groMaxSegments, [groTruncatedReads]) else (segments, []) in
      let seg i :=
        let segmentLen := if i =? fullSegments then remainder else segmentSize in
        slice data (i * segmentSize) (i * segmentSize + segmentLen) in
      ((slice data 0 segmentSize, false) :: ((fun i => (seg i, false)) <$> seqZ 1 (segments - 1)),
       c ++ [groCoalescedReads]).

(** ** Responses *)

(** [prepareUDPResponse]: [buffer] is the pooled buffer, [payload] the payload;
    when the buffer has the headroom the header is written just before the
    payload and the result is a slice of the buffer. Returns the buffer after
    the call and the response. *)
Definition overwrite (l : bytes) (at_ : Z) (b : bytes) : bytes :=
  slice l 0 at_ ++ b ++ slice_from l (at_ + len b).

Definition prepareUDPResponse (buffer payload : bytes) (remote : AddrPort) : result (bytes * bytes) :=
  if UdpHeaderMaxLen + len payload <=? len buffer then
    let remote := AddrPortFrom (Unmap (ap_Addr remote)) (ap_Port remote) in
    let headerLength := if Is4 (ap_Addr remote) then 3 + 1 + 4 + 2 else 3 + 1 + 16 + 2 in
    let start := UdpHeaderMaxLen - headerLength in
    header ← (if Is4 (ap_Addr remote) then
                ip ← As4 (ap_Addr remote);
                Ok ([0; 0; 0; AddrIPv4] ++ ip ++ be_bytes 2 (ap_Port remote))
              else
                Ok ([0; 0; 0; AddrIPv6] ++ As16 (ap_Addr remote) ++ be_bytes 2 (ap_Port remote)));
    let buffer := overwrite buffer start header in
    Ok (buffer, slice buffer start (UdpHeaderMaxLen + len payload))
  else
    pkt ← BuildUdpPacket 0 (SocketAddress remote) payload;
    Ok (buffer, pkt).

(** ** The request direction *)

(** The outbound sockets of an association; each has a writer and a batch. *)
Inductive outSocket := preferredOutbound | fallbackOutbound.
#[export] Instance outSocket_eq_dec : EqDecision outSocket.
Proof. solve_decision. Defined.

(** A batch handed to the kernel: the socket, the datagrams, the segment size when
    [sendUDPGSO] sent it, the super-datagrams the kernel then took, and the count that
    the call returned. *)
Record batchSend := mkSend {
  bs_socket : outSocket;
  bs_batch : list udpWritePacket;
  bs_gsoSize : option Z;
  bs_super : list bytes;
  bs_written : Z
}.

(** The variables of [handleUDP] that the closures share. [errCh] holds the
    errors in the channel, which nothing receives from; [handed] records what
    was given to the kernel. *)
Record relay := mkRelay {
  ry_rt : udpRuntime;
  srcPort : Z;
  preferredBatch : list udpWritePacket;
  fallbackBatch : list udpWritePacket;
  batchInPackets : Z;
  batchInBytes : Z;
  errCh : list error;
  lastActivity : Z;
  handed : list batchSend
}.

Definition with_rt (r : udpRuntime) (y : relay) : relay :=
  mkRelay r (srcPort y) (preferredBatch y) (fallbackBatch y) (batchInPackets y) (batchInBytes y)
    (errCh y) (lastActivity y) (handed y).
Definition with_batches (p f : list udpWritePacket) (y : relay) : relay :=
  mkRelay (ry_rt y) (srcPort y) p f (batchInPackets y) (batchInBytes y) (errCh y) (lastActivity y)
    (handed y).
Definition with_counts (port n b : Z) (y : relay) : relay :=
  mkRelay (ry_rt y) port (preferredBatch y) (fallbackBatch y) n b (errCh y) (lastActivity y)
    (handed y).
Definition with_activity (t : Z) (y : relay) : relay :=
  mkRelay (ry_rt y) (srcPort y) (preferredBatch y) (fallbackBatch y) (batchInPackets y)
    (batchInBytes y) (errCh y) t (handed y).
Definition with_handed (l : list batchSend) (y : relay) : relay :=
  mkRelay (ry_rt y) (srcPort y) (preferredBatch y) (fallbackBatch y) (batchInPackets y)
    (batchInBytes y) (errCh y) (lastActivity y) l.

Definition batch_of (b : outSocket) (y : relay) : list udpWritePacket :=
  match b with preferredOutbound => preferredBatch y | fallbackOutbound => fallbackBatch y end.
Definition clear_batch (b : outSocket) (y : relay) : relay :=
  match b with
  | preferredOutbound => with_batches [] (fallbackBatch y) y
  | fallbackOutbound => with_batches (preferredBatch y) [] y
  end.

(** [reportUDPError]: a non-blocking send on a channel of four. *)
Definition reportUDPError (e : error) (y : relay) : relay :=
  mkRelay (ry_rt y) (srcPort y) (preferredBatch y) (fallbackBatch y) (batchInPackets y)
    (batchInBytes y) (if len (errCh y) <? 4 then errCh y ++ [e] else errCh y) (lastActivity y)
    (handed y).

(** Count an event and release the packet's buffer. *)
Definition dropPacket (c : counter) (slot : bool) (y : relay) : option relay :=
  r ← releaseBuffer slot (set_metrics (metrics_Add c 1) (ry_rt y));
  Some (with_rt r y).

(** What an association works with: its outbound sockets, the authorized source
    address, its number, the cached name lookups, whether GSO is on, and the
    state of the server's lifetime. *)
Record association := mkAssociation {
  as_out : outbounds;
  as_srcIP : Addr;
  as_id : Z;
  as_cached : bytes -> option (list Addr);
  as_gso : bool;
  as_procs : Z;
  as_lifetime : option error
}.

Definition processInbound (a : association) (pkt : inboundPacket) (y : relay)
    : option (bool * relay) :=
  if negb (ip_frag pkt =? 0) then
    y ← dropPacket fragmentDrops (ip_batchSlot pkt) y; Some (false, y)
  else if negb (isAuthorized (ip_src pkt) (as_srcIP a)) then
    y ← dropPacket unauthorizedDrops (ip_batchSlot pkt) y; Some (false, y)
  else
    let y := with_counts (ap_Port (ip_src pkt)) (batchInPackets y + 1)
               (batchInBytes y + len (ip_payload pkt)) y in
    let target :=
      match Socket (ip_dst pkt) with
      | Some ap => Some (AddrPortFrom (Unmap (ap_Addr ap)) (ap_Port ap))
      | None => cachedTargetForFamily (as_cached a (Domain (ip_dst pkt))) (as_out a)
                  (Port (ip_dst pkt))
      end in
    match target with
    | None =>
        let '(ok, r) := dispatch (as_procs a) (as_lifetime a)
          (mkJob (as_id a) pkt (Domain (ip_dst pkt)) (Port (ip_dst pkt))) (ry_rt y) in
        let y := with_rt r y in
        if ok then Some (true, y)
        else r ← releaseBuffer (ip_batchSlot pkt) (ry_rt y); Some (true, with_rt r y)
    | Some target =>
        let o := as_out a in
        let w := mkWrite (ip_payload pkt) (ip_buffer pkt) target (ip_batchSlot pkt) in
        if negb (eqb (preferredV4 o) (Is4 (ap_Addr target))) && hasFallback o &&
           eqb (fallbackV4 o) (Is4 (ap_Addr target))
        then Some (true, with_batches (preferredBatch y) (fallbackBatch y ++ [w]) y)
        else Some (true, with_batches (preferredBatch y ++ [w]) (fallbackBatch y) y)
    end.

(** The outcome of a batch write: how many datagrams were written, and the
    error. [gso] is the outcome of each UDP_SEGMENT send, [mmsg] that of the
    batch writer. *)
Record kernelIO := mkKernel {
  gsoResult : nat -> option error;
  mmsgResult : list udpWritePacket -> Z * option error
}.

Fixpoint releaseAll (batch : list udpWritePacket) (r : udpRuntime) : option udpRuntime :=
  match batch with
  | [] => Some r
  | w :: rest => r ← releaseBuffer (wp_batchSlot w) r; releaseAll rest r
  end.

(** The send of [flushBatch]: in segments when the batch is eligible, else with the
    batch writer. *)
Definition sendBatch (s : outSocket) (k : kernelIO) (gso : bool) (batch : list udpWritePacket)
    : Z * option error * batchSend :=
  match gsoEligible gso batch with
  | Some gsoSize =>
      let '(written, writeErr, taken) := sendUDPGSO (gsoResult k) batch in
      (written, writeErr, mkSend s batch (Some gsoSize) taken written)
  | None =>
      let '(written, writeErr) := mmsgResult k batch in
      (written, writeErr, mkSend s batch None [] written)
  end.

(** [flushBatch]: send the batch [b] on the socket [s], release its buffers, report, and
    empty it. *)
Definition flushBatch (s : outSocket) (io : outSocket -> kernelIO) (gso : bool) (b : outSocket)
    (y : relay) : option relay :=
  match batch_of b y with
  | [] => Some y
  | batch =>
      let '(written, writeErr, send) := sendBatch s (io s) gso batch in
      r ← releaseAll batch (ry_rt y);
      let y := with_handed (handed y ++ [send]) (with_rt r y) in
      let y :=
        if bool_decide (writeErr <> None) || negb (written =? len batch) then
          reportUDPError (default ErrShortWrite writeErr)
            (with_rt (set_metrics (metrics_Add errors 1) (ry_rt y)) y)
        else y in
      Some (clear_batch b y)
  end.

(** One packet of the loop of [inboundPump]. *)
Definition pumpPacket (a : association) (p : udpReadPacket) (y : relay) : option (bool * relay) :=
  if rp_truncated p then
    y ← dropPacket truncatedDrops (rp_batchSlot p) y; Some (false, y)
  else
    match ParseUdpHeader (slice (rp_buffer p) 0 (rp_n p)) with
    | Err _ => y ← dropPacket malformedDrops (rp_batchSlot p) y; Some (false, y)
    | Ok (hdr, hlen) =>
        processInbound a (mkInbound (slice (rp_buffer p) hlen (rp_n p)) (rp_buffer p)
          (uh_Frag hdr) (uh_Address hdr) (rp_addr p) (rp_batchSlot p)) y
    end.

Fixpoint pumpPackets (a : association) (ps : list udpReadPacket) (active : bool) (y : relay)
    : option (bool * relay) :=
  match ps with
  | [] => Some (active, y)
  | p :: rest =>
      match pumpPacket a p y with
      | None => None
      | Some (act, y) => pumpPackets a rest (active || act) y
      end
  end.

(** [if fallbackWriter != nil] the second flush. *)
Definition flushFallback (a : association) (io : outSocket -> kernelIO) (y : relay) : option relay :=
  if hasFallback (as_out a) then flushBatch fallbackOutbound io (as_gso a) fallbackOutbound y
  else Some y.

(** [inboundPump]: [read] is what the reader returns, [ctxErr] is [ctx.Err()],
    [io] the sends on the two outbound sockets, [now] the clock. *)
Definition inboundPump (a : association) (read : result (list udpReadPacket))
    (ctxErr : option error) (io : outSocket -> kernelIO) (now : Z) (y : relay)
    : option (bool * relay) :=
  match read with
  | Err rerr =>
      if bool_decide (ctxErr = None) && negb (bool_decide (rerr = ErrClosed)) then
        let y := with_rt (set_metrics (metrics_Add errors 1) (ry_rt y)) y in
        Some (false, reportUDPError rerr y)
      else Some (false, y)
  | Ok packets =>
      match pumpPackets a packets false (with_counts (srcPort y) 0 0 y) with
      | None => None
      | Some (active, y) =>
          let y :=
            if 0 <? batchInPackets y then
              with_rt (set_metrics (metrics_Add inBytes (batchInBytes y))
                         (set_metrics (metrics_Add inPackets (batchInPackets y)) (ry_rt y))) y
            else y in
          y ← flushBatch preferredOutbound io (as_gso a) preferredOutbound y;
          y ← flushFallback a io y;
          Some (true, if active then with_activity now y else y)
      end
  end.

(** ** The response direction *)

(** One packet of [pumpOnce]: the response to write, if any. *)
Definition respondPacket (clientAddr : AddrPort) (p : udpReadPacket) (r : udpRuntime)
    : option (result (option (udpWritePacket * Z)) * udpRuntime) :=
  if rp_truncated p then
    r ← releaseBuffer (rp_batchSlot p) (set_metrics (metrics_Add truncatedDrops 1) r);
    Some (Ok None, r)
  else if ap_Port clientAddr =? 0 then
    r ← releaseBuffer (rp_batchSlot p) r; Some (Ok None, r)
  else
    let payload := slice (rp_buffer p) UdpHeaderMaxLen (UdpHeaderMaxLen + rp_n p) in
    Some (match prepareUDPResponse (rp_buffer p) payload (rp_addr p) with
          | Err e => Err e
          | Ok (buffer, response) =>
              Ok (Some (mkWrite response buffer clientAddr (rp_batchSlot p), rp_n p))
          end, r).

Fixpoint respondPackets (clientAddr : AddrPort) (ps : list udpReadPacket) (r : udpRuntime)
    : option (result (list (udpWritePacket * Z)) * udpRuntime) :=
  match ps with
  | [] => Some (Ok [], r)
  | p :: rest =>
      match respondPacket clientAddr p r with
      | None => None
      | Some (Err e, r) => Some (Err e, r)
      | Some (Ok w, r) =>
          match respondPackets clientAddr rest r with
          | None => None
          | Some (Err e, r) => Some (Err e, r)
          | Some (Ok ws, r) => Some (Ok (option_list w ++ ws), r)
          end
      end
  end.

(** [pumpOnce]: [write] is the outcome of the batch write to the client. The
    result says whether to go on and what was handed to the writer; a panic of
    the address conversion or of the writer is an error of the result. *)
Definition pumpOnce (clientIP : Addr) (read : result (list udpReadPacket)) (ctxErr : option error)
    (write : list udpWritePacket -> result (Z * option error)) (now : Z) (y : relay)
    : option (result (bool * list udpWritePacket) * relay) :=
  match read with
  | Err err =>
      if bool_decide (ctxErr = None) && negb (bool_decide (err = ErrClosed)) then
        let y := with_rt (set_metrics (metrics_Add errors 1) (ry_rt y)) y in
        Some (Ok (false, []), reportUDPError err y)
      else Some (Ok (false, []), y)
  | Ok packets =>
      let clientAddr := AddrPortFrom clientIP (wrap 16 (srcPort y)) in
      match respondPackets clientAddr packets (ry_rt y) with
      | None => None
      | Some (Err e, r) => Some (Err e, with_rt r y)
      | Some (Ok ws, r) =>
          let writes := fst <$> ws in
          match write writes with
          | Err e => Some (Err e, with_rt r y)
          | Ok (written, writeErr) =>
              let done_ := take (Z.to_nat written) ws in
              r ← releaseAll writes r;
              let outP := len done_ in
              let outB := foldr Z.add 0 (snd <$> done_) in
              let r := if 0 <? outP
                       then set_metrics (metrics_Add outBytes outB)
                              (set_metrics (metrics_Add outPackets outP) r)
                       else r in
              let y := with_rt r y in
              let y :=
                if bool_decide (writeErr <> None) || negb (written =? len writes) then
                  reportUDPError (default ErrShortWrite writeErr)
                    (with_rt (set_metrics (metrics_Add errors 1) (ry_rt y)) y)
                else y in
              Some (Ok (true, writes), if 0 <? written then with_activity now y else y)
          end
      end
  end.

(** ** Properties *)

(** *** Authorization *)

Lemma Unmap_Is4 a : Is4 a = true -> Unmap a = a.
Proof. by destruct a. Qed.
Lemma Unmap_4in6 a : Is4In6 a = true -> Is4 (Unmap a) = true.
Proof. destruct a; try done. cbn -[Is4In6]. by intros ->. Qed.
Lemma Unmap_other a : Is4In6 a = false -> Unmap a = a.
Proof. destruct a; try done. cbn -[Is4In6]. by intros ->. Qed.

(** An IPv4-mapped address without a zone is determined by its IPv4 address. *)
Lemma Unmap_inj_4in6 a b :
  Is4In6 a = true -> Is4In6 b = true -> zone_free a = true -> zone_free b = true ->
  Unmap a = Unmap b -> a = b.
Proof.
  destruct a as [| |v [|? ?]], b as [| |w [|? ?]]; try done. unfold Unmap, Is4In6. intros Ha Hb _ _.
  rewrite Ha, Hb. intros [= E]. zbool. f_equal.
  rewrite (Z.div_mod v (2 ^ 32)), (Z.div_mod w (2 ^ 32)) by lia. congruence.
Qed.

(** A client datagram is authorized exactly when it comes from the expected
    IP address, an IPv4 address and its IPv4-mapped IPv6 form counting as the
    same address. *)
Theorem isAuthorized_spec src expected :
  zone_free (ap_Addr src) = true -> zone_free expected = true ->
  isAuthorized src expected = true <-> Unmap (ap_Addr src) = Unmap expected.
Proof.
  intros Hz1 Hz2. unfold isAuthorized. set (a := ap_Addr src) in *. clearbody a. split.
  - case_bool_decide as E1; [by rewrite E1|].
    destruct (Is4In6 a && Is4 expected && _) eqn:E2.
    { zbool. apply bool_decide_eq_true in H0. intros _. by rewrite H0, Unmap_Is4. }
    destruct (Is4 a && Is4In6 expected && _) eqn:E3; [|done].
    zbool. apply bool_decide_eq_true in H0. intros _. by rewrite H0, Unmap_Is4.
  - intros E. case_bool_decide as E1; [done|].
    destruct (Is4In6 a) eqn:Ha, (Is4In6 expected) eqn:He.
    + by destruct E1; apply Unmap_inj_4in6.
    + rewrite (Unmap_other expected) in E by done.
      pose proof (Unmap_4in6 a Ha) as H4. rewrite E in H4. rewrite H4. cbn [andb].
      by rewrite bool_decide_eq_true_2.
    + rewrite (Unmap_other a) in E by done.
      pose proof (Unmap_4in6 expected He) as H4. rewrite <- E in H4. rewrite H4. cbn [andb].
      by rewrite bool_decide_eq_true_2.
    + by rewrite !Unmap_other in E.
Qed.

Lemma isAuthorized_spec_witness :
  isAuthorized (AddrPortFrom (Addr6 0xffff0a000001 []) 5000) (Addr4 0x0a000001) = true <->
  Unmap (Addr6 0xffff0a000001 []) = Unmap (Addr4 0x0a000001).
Proof.
  apply (isAuthorized_spec (AddrPortFrom (Addr6 0xffff0a000001 []) 5000)); reflexivity.
Defined.

(** *** What the relay forwards *)

(** The outbound address of a destination: a socket address unmapped, a domain
    by its first cached address that a socket can reach. *)
Definition target_of (a : association) (dst : Address) : option AddrPort :=
  match Socket dst with
  | Some ap => Some (AddrPortFrom (Unmap (ap_Addr ap)) (ap_Port ap))
  | None => cachedTargetForFamily (as_cached a (Domain dst)) (as_out a) (Port dst)
  end.

(** [relayable a p w]: the client packet [p] is to be sent on as [w]: it was
    read whole, is an unfragmented SOCKS5 relay packet around the payload of
    [w], comes from the authorized address, and its destination is the
    address of [w]. *)
Definition relayable (a : association) (p : udpReadPacket) (w : udpWritePacket) : Prop :=
  rp_truncated p = false /\
  isAuthorized (rp_addr p) (as_srcIP a) = true /\
  wp_owner w = rp_buffer p /\ wp_batchSlot w = rp_batchSlot p /\
  exists r0 r1 dst enc, slice (rp_buffer p) 0 (rp_n p) = [r0; r1; 0] ++ enc ++ wp_buffer w /\
    Wire dst enc /\ target_of a dst = Some (wp_addr w).

(** The second socket is used exactly for targets of its family that are not of
    the first one's. *)
Definition on_fallback (a : association) (w : udpWritePacket) : bool :=
  negb (eqb (preferredV4 (as_out a)) (Is4 (ap_Addr (wp_addr w)))) && hasFallback (as_out a) &&
  eqb (fallbackV4 (as_out a)) (Is4 (ap_Addr (wp_addr w))).

Definition read_ok (p : udpReadPacket) : Prop :=
  bytes_ok (rp_buffer p) /\ 0 <= rp_n p <= len (rp_buffer p).
#[export] Instance read_ok_dec p : Decision (read_ok p).
Proof. unfold read_ok. apply _. Defined.

(** [to_resolve a p job]: the client packet [p] is for a send worker: it is as for
    [relayable], but its destination is a name without a cached reachable address; the
    job carries the payload, the name and the port. *)
Definition to_resolve (a : association) (p : udpReadPacket) (job : udpSendJob) : Prop :=
  rp_truncated p = false /\
  isAuthorized (rp_addr p) (as_srcIP a) = true /\
  exists r0 r1 dst enc payload, slice (rp_buffer p) 0 (rp_n p) = [r0; r1; 0] ++ enc ++ payload /\
    Wire dst enc /\ target_of a dst = None /\
    job = mkJob (as_id a) (mkInbound payload (rp_buffer p) 0 dst (rp_addr p) (rp_batchSlot p))
            (Domain dst) (Port dst).

(** What becomes of a client packet: a datagram of a batch, a job of the send queue, a job
    that the queue does not take, or nothing. *)
Inductive fate := Forwarded (w : udpWritePacket) | Dispatched (job : udpSendJob)
  | Overflowed (job : udpSendJob) | Discarded.

Inductive outcome (a : association) (p : udpReadPacket) : fate -> Prop :=
  | relayed w : relayable a p w -> outcome a p (Forwarded w)
  | dispatched job : to_resolve a p job -> outcome a p (Dispatched job)
  | overflowed job : to_resolve a p job -> outcome a p (Overflowed job)
  | not_relayed : (forall w, ~ relayable a p w) -> (forall job, ~ to_resolve a p job) ->
      outcome a p Discarded.

Definition forwarded (f : fate) : option udpWritePacket :=
  match f with Forwarded w => Some w | _ => None end.
Definition job_of (f : fate) : option udpSendJob :=
  match f with Dispatched job => Some job | _ => None end.
Definition overflow (f : fate) : bool := match f with Overflowed _ => true | _ => false end.

(** The queue of an association's jobs, and that it cannot take another one. *)
Definition shard_index (id : Z) (qs : list (Z * list udpSendJob)) : nat := Z.to_nat (id `mod` len qs).
Definition shard_jobs (id : Z) (r : udpRuntime) : list udpSendJob :=
  default [] (qs ← shards r; snd <$> qs !! shard_index id qs).
Definition shard_full (id : Z) (r : udpRuntime) : Prop :=
  exists qs, shards r = Some qs /\ forall cap q, qs !! shard_index id qs = Some (cap, q) -> cap <= len q.

(** What a dispatch does to the queue. *)
Record queue_grows (a : association) (l : list udpSendJob) (lost : bool) (r r' : udpRuntime) : Prop := {
  qg_jobs : shard_jobs (as_id a) r' = shard_jobs (as_id a) r ++ l;
  qg_full : shard_full (as_id a) r -> shard_full (as_id a) r';
  qg_open : as_lifetime a <> None -> l = [];
  qg_lost : lost = true -> as_lifetime a <> None \/ shard_full (as_id a) r'
}.

Lemma queue_grows_same a r r' : shards r' = shards r -> queue_grows a [] false r r'.
Proof.
  intros E. split; unfold shard_jobs, shard_full; rewrite ?E, ?app_nil_r; done.
Qed.

Lemma queue_grows_trans a l k b c r1 r2 r3 :
  queue_grows a l b r1 r2 -> queue_grows a k c r2 r3 -> queue_grows a (l ++ k) (b || c) r1 r3.
Proof.
  intros [J1 F1 O1 L1] [J2 F2 O2 L2]. split.
  - by rewrite J2, J1, app_assoc.
  - auto.
  - intros H. by rewrite O1, O2.
  - intros [->| ->]%orb_true_iff; [|auto]. destruct (L1 eq_refl); auto.
Qed.

Lemma startOnce_jobs id procs r :
  shard_jobs id (startOnce procs r) = shard_jobs id r /\
  (shard_full id r -> shard_full id (startOnce procs r)) /\ is_Some (shards (startOnce procs r)).
Proof.
  unfold startOnce. destruct (shards r) as [qs|] eqn:E; [by rewrite E|]. split_and!.
  - unfold shard_jobs. rewrite E. cbn. rewrite list_lookup_fmap. by destruct (shardCapacities _ _ !! _).
  - intros (? & ? & _). congruence.
  - by eexists.
Qed.

Lemma dispatch_queue a procs job r ok r' :
  dispatch procs (as_lifetime a) job r = (ok, r') -> associationID job = as_id a ->
  queue_grows a (if ok then [job] else []) (negb ok) r r'.
Proof.
  unfold dispatch. destruct (as_lifetime a) eqn:El.
  { intros [= <- <-] _. split; rewrite ?app_nil_r; try done. intros _. left. by rewrite El. }
  destruct (startOnce_jobs (as_id a) procs r) as (Hj & Hf & [qs Hqs]). intros H Hid.
  set (r1 := startOnce procs r) in *. clearbody r1.
  cut (queue_grows a (if ok then [job] else []) (negb ok) r1 r').
  { intros [J F O L]. split; [by rewrite <- Hj | auto | done | done]. }
  unfold enqueue in H. rewrite Hqs, Hid in H. cbn [default from_option id] in H.
  fold (shard_index (as_id a) qs) in H. set (i := shard_index (as_id a) qs) in *.
  destruct (qs !! i) as [[cap q]|] eqn:Ei; [destruct (Z.ltb_spec (len q) cap)|]; injection H as <- <-.
  2,3: split; cbn; rewrite ?app_nil_r; try done; [];
    intros _; right; exists qs; split; [done|]; fold i; rewrite Ei; try done; by intros ?? [= <- <-].
  assert (shard_index (as_id a) (<[i := (cap, q ++ [job])]> qs) = i) as Ei'.
  { unfold shard_index. unfold len. by rewrite length_insert. }
  split; try done.
  - unfold shard_jobs. cbn [shards make_adds foldl set_metrics set_shards].
    rewrite Hqs. cbn [mbind option_bind]. rewrite Ei'. fold i. rewrite Ei, list_lookup_insert_eq; [done|].
    by eapply lookup_lt_Some.
  - intros (qs' & E' & Hfull). rewrite Hqs in E'. injection E' as <-. fold i in Hfull.
    specialize (Hfull _ _ Ei). lia.
Qed.

Lemma slice_to_end {A} (l : list A) a n :
  0 <= a -> slice l a n = slice_from (slice l 0 n) a.
Proof.
  intros Ha. unfold slice, slice_from. rewrite Z.sub_0_r, drop_0, skipn_firstn_comm.
  do 2 f_equal. lia.
Qed.

Lemma Wire_unique a a' w w' r r' :
  Wire a w -> Wire a' w' -> w ++ r = w' ++ r' -> a = a' /\ w = w' /\ r = r'.
Proof.
  intros H H' E. pose proof (ParseAddress_complete a w r H) as E1.
  rewrite E, (ParseAddress_complete a' w' r' H') in E1. injection E1 as -> El.
  split; [done|]. apply app_inj_1; [|done]. unfold len in El. lia.
Qed.

Lemma releaseBuffer_shards b r r' : releaseBuffer b r = Some r' -> shards r' = shards r.
Proof.
  unfold releaseBuffer. destruct b; [|by intros [= <-]]. destruct (batchSlots r) as [[k c]|]; [|done].
  case_one; [|done]. by intros [= <-].
Qed.

(** Dropping a packet touches the counters and the tokens only. *)
Lemma dropPacket_frame c b y y' :
  dropPacket c b y = Some y' ->
  preferredBatch y' = preferredBatch y /\ fallbackBatch y' = fallbackBatch y /\
  handed y' = handed y /\ shards (ry_rt y') = shards (ry_rt y).
Proof.
  unfold dropPacket. destruct (releaseBuffer _ _) eqn:E; [|done]. intros [= <-].
  by apply releaseBuffer_shards in E.
Qed.

Lemma relayable_parse a p w r0 r1 f dst enc rest :
  slice (rp_buffer p) 0 (rp_n p) = [r0; r1; f] ++ enc ++ rest -> Wire dst enc ->
  relayable a p w -> f = 0 /\ rest = wp_buffer w /\ target_of a dst = Some (wp_addr w).
Proof.
  intros E Hw (_ & _ & _ & _ & s0 & s1 & dst' & enc' & E' & Hw' & Ht).
  rewrite E in E'. injection E' as -> -> -> E'.
  destruct (Wire_unique _ _ _ _ _ _ Hw Hw' E') as (-> & -> & ->). done.
Qed.

Lemma to_resolve_parse a p job r0 r1 f dst enc rest :
  slice (rp_buffer p) 0 (rp_n p) = [r0; r1; f] ++ enc ++ rest -> Wire dst enc ->
  to_resolve a p job -> f = 0 /\ target_of a dst = None.
Proof.
  intros E Hw (_ & _ & s0 & s1 & dst' & enc' & payload & E' & Hw' & Ht & _).
  rewrite E in E'. injection E' as -> -> -> E'.
  destruct (Wire_unique _ _ _ _ _ _ Hw Hw' E') as (-> & -> & ->). done.
Qed.

(** The relay after a packet of fate [f]: the datagram is in the batch of its socket, the
    job in the queue, and nothing has been sent yet. *)
Record adds (a : association) (f : fate) (y y' : relay) : Prop := {
  ad_preferred : preferredBatch y' = preferredBatch y ++
    option_list (forwarded f ≫= fun w => if on_fallback a w then None else Some w);
  ad_fallback : fallbackBatch y' = fallbackBatch y ++
    option_list (forwarded f ≫= fun w => if on_fallback a w then Some w else None);
  ad_handed : handed y' = handed y;
  ad_queue : queue_grows a (option_list (job_of f)) (overflow f) (ry_rt y) (ry_rt y')
}.

Lemma adds_none a y y' :
  preferredBatch y' = preferredBatch y -> fallbackBatch y' = fallbackBatch y ->
  handed y' = handed y -> shards (ry_rt y') = shards (ry_rt y) -> adds a Discarded y y'.
Proof. intros E1 E2 E3 E4. split; cbn; rewrite ?app_nil_r; auto using queue_grows_same. Qed.

Lemma drop_outcome a p c y act y' :
  (forall w, ~ relayable a p w) -> (forall job, ~ to_resolve a p job) ->
  (y ← dropPacket c (rp_batchSlot p) y; Some (false, y)) = Some (act, y') ->
  exists f, outcome a p f /\ adds a f y y'.
Proof.
  intros Hno Hno'. destruct (dropPacket c _ y) as [y1|] eqn:E; [|done]. intros [= <- <-].
  apply dropPacket_frame in E as (E1 & E2 & E3 & E4). exists Discarded.
  split; [by constructor | by apply adds_none].
Qed.

(** The job of a packet without a target is in the queue, or its buffer is released. *)
Lemma dispatch_outcome a p pkt y ok r act y' :
  let job := mkJob (as_id a) pkt (Domain (ip_dst pkt)) (Port (ip_dst pkt)) in
  to_resolve a p job -> dispatch (as_procs a) (as_lifetime a) job (ry_rt y) = (ok, r) ->
  (if ok then Some (true, with_rt r y)
   else r ← releaseBuffer (ip_batchSlot pkt) r; Some (true, with_rt r y)) = Some (act, y') ->
  exists f, outcome a p f /\ adds a f y y'.
Proof.
  intros job Hj Hd%dispatch_queue; [|done]. destruct ok.
  - intros [= <- <-]. exists (Dispatched job). split; [by constructor|].
    split; cbn; rewrite ?app_nil_r; done.
  - destruct (releaseBuffer _ r) as [r1|] eqn:E; [|done]. intros [= <- <-]. apply releaseBuffer_shards in E.
    exists (Overflowed job). split; [by constructor|]. split; cbn; rewrite ?app_nil_r; try done.
    exact (queue_grows_trans _ _ _ _ _ _ _ _ Hd (queue_grows_same _ _ _ E)).
Qed.

Lemma pumpPacket_outcome a p y act y' :
  read_ok p -> pumpPacket a p y = Some (act, y') -> exists f, outcome a p f /\ adds a f y y'.
Proof.
  intros [Hok Hn]. unfold pumpPacket.
  destruct (rp_truncated p) eqn:Etr; [apply drop_outcome; intros w [? _]; congruence|].
  assert (bytes_ok (slice (rp_buffer p) 0 (rp_n p))) as Hsok by (unfold slice; auto with wf).
  destruct (ParseUdpHeader (slice (rp_buffer p) 0 (rp_n p))) as [[hdr hlen]|] eqn:EP.
  2: { apply drop_outcome; [intros w (_ & _ & _ & _ & r0 & r1 & dst & enc & E & Hw & _)
                           |intros job (_ & _ & r0 & r1 & dst & enc & payload & E & Hw & _)];
         rewrite E, (ParseUdpHeader_app r0 r1 0 dst enc _ Hw) in EP; done. }
  apply ParseUdpHeader_sound in EP as (r0 & r1 & enc & rest & E & Hw & ->); [|done].
  assert (slice (rp_buffer p) (3 + len enc) (rp_n p) = rest) as ->.
  { pose proof (len_nonneg enc). rewrite slice_to_end by lia. rewrite E, app_assoc, slice_from_app; [done|].
    autorewrite with go. lia. }
  unfold processInbound. cbn [ip_frag ip_src ip_batchSlot ip_payload ip_dst ip_buffer].
  pose proof (fun w => relayable_parse a p w _ _ _ _ _ _ E Hw) as Hrel.
  pose proof (fun j => to_resolve_parse a p j _ _ _ _ _ _ E Hw) as Hres.
  destruct (Z.eqb_spec (uh_Frag hdr) 0) as [Ef|Ef]; cbn [negb].
  2: { apply drop_outcome; [by intros w [? _]%Hrel | by intros j [? _]%Hres]. }
  destruct (isAuthorized (rp_addr p) (as_srcIP a)) eqn:Eau; cbn [negb].
  2: { apply drop_outcome; intros w (_ & ? & _); congruence. }
  fold (target_of a (uh_Address hdr)). rewrite Ef in *.
  destruct (target_of a (uh_Address hdr)) as [t|] eqn:Et.
  2: { set (pkt := mkInbound rest _ _ _ _ _).
       destruct (dispatch _ _ _ _) as [ok r] eqn:Ed. intros Hr.
       set (y1 := with_counts _ _ _ y) in *.
       destruct (dispatch_outcome a p pkt y1 ok r act y') as (f & Hf & [A1 A2 A3 A4]);
         [|exact Ed|exact Hr|by exists f].
       split_and!; [done..|]. exists r0, r1, (uh_Address hdr), enc, rest. by split_and!. }
  set (w := mkWrite rest _ t _).
  assert (relayable a p w) as Hw'.
  { repeat split; [done | done |]. exists r0, r1, (uh_Address hdr), enc. by split_and!. }
  change (_ && eqb (fallbackV4 _) _) with (on_fallback a w).
  destruct (on_fallback a w) eqn:Ew; intros [= <- <-]; exists (Forwarded w);
    (split; [by constructor|]); split; cbn; rewrite ?Ew; cbn; rewrite ?app_nil_r; try done;
    by apply queue_grows_same.
Qed.

(** The relay after a batch of packets of fates [fs]. *)
Record adds_all (a : association) (fs : list fate) (y y' : relay) : Prop := {
  aa_preferred : preferredBatch y' = preferredBatch y ++
    filter (fun w => on_fallback a w = false) (omap forwarded fs);
  aa_fallback : fallbackBatch y' = fallbackBatch y ++
    filter (fun w => on_fallback a w = true) (omap forwarded fs);
  aa_handed : handed y' = handed y;
  aa_queue : queue_grows a (omap job_of fs) (existsb overflow fs) (ry_rt y) (ry_rt y')
}.

Lemma adds_all_cons a f fs y1 y2 y3 :
  adds a f y1 y2 -> adds_all a fs y2 y3 -> adds_all a (f :: fs) y1 y3.
Proof.
  intros [P1 F1 H1 Q1] [P2 F2 H2 Q2]. split.
  - rewrite P2, P1, <- app_assoc. f_equal. cbn [omap list_omap]. destruct (forwarded f) as [w|]; [|done].
    cbn [mbind option_bind]. rewrite filter_cons. destruct (on_fallback a w); case_decide; done.
  - rewrite F2, F1, <- app_assoc. f_equal. cbn [omap list_omap]. destruct (forwarded f) as [w|]; [|done].
    cbn [mbind option_bind]. rewrite filter_cons. destruct (on_fallback a w); case_decide; done.
  - by rewrite H2.
  - cbn [omap list_omap existsb]. replace (match job_of f with Some j => j :: omap job_of fs | None => omap job_of fs end)
      with (option_list (job_of f) ++ omap job_of fs) by (by destruct (job_of f)).
    by eapply queue_grows_trans.
Qed.

Lemma pumpPackets_outcome a ps act y act' y' :
  Forall read_ok ps -> pumpPackets a ps act y = Some (act', y') ->
  exists fs, Forall2 (outcome a) ps fs /\ adds_all a fs y y'.
Proof.
  intros Hok. revert act y. induction Hok as [|p ps Hp Hps IH]; intros act y; cbn [pumpPackets].
  - intros [= <- <-]. exists []. split; [constructor|].
    split; cbn; rewrite ?app_nil_r; auto using queue_grows_same.
  - destruct (pumpPacket a p y) as [[act1 y1]|] eqn:E; [|done]. intros H.
    apply pumpPacket_outcome in E as (f & Hf & Ha); [|done].
    apply IH in H as (fs & Hfs & Has). exists (f :: fs).
    split; [by constructor | by eapply adds_all_cons].
Qed.

(** An association over one IPv4 socket, and a packet for 10.0.0.1:53. *)
Definition demo_assoc : association :=
  mkAssociation (mkOut true false false) (Addr4 0x7f000001) 1 (fun _ => None) false 4 None.
Definition demo_relay : relay :=
  mkRelay (newUDPRuntime demo_udp 100) 0 [] [] 0 0 [] 0 [].
Definition demo_packet (port : Z) : udpReadPacket :=
  mkRead [0; 0; 0; 1; 10; 0; 0; 1; 0; 53; 104; 105] 12 (AddrPortFrom (Addr4 0x7f000001) port) false false.

(** *** Buffers *)

(** The tokens in the batch-buffer channel, and those of queued jobs. *)
Definition tokens_in (r : udpRuntime) : Z :=
  match batchSlots r with Some (k, _) => k | None => 0 end.
Definition tokens_queued (r : udpRuntime) : Z := queue_tokens (default [] (shards r)).
Definition batch_tokens (y : relay) : Z :=
  tokens (wp_batchSlot <$> preferredBatch y) + tokens (wp_batchSlot <$> fallbackBatch y).
Definition tok (b : bool) : Z := if b then 1 else 0.

Lemma tok_bound b : 0 <= tok b <= 1.
Proof. destruct b; cbn; lia. Qed.

Lemma tokens_snoc (l : list udpWritePacket) w :
  tokens (wp_batchSlot <$> l ++ [w]) = tokens (wp_batchSlot <$> l) + tok (wp_batchSlot w).
Proof. rewrite fmap_app, tokens_app. unfold tokens at 2, sumZ, tok. cbn. lia. Qed.

Lemma releaseBuffer_tokens b r :
  tok b <= tokens_in r ->
  exists r', releaseBuffer b r = Some r' /\ tokens_in r' = tokens_in r - tok b /\
             shards r' = shards r.
Proof.
  unfold releaseBuffer, tokens_in, tok. destruct b; [|exists r; split_and!; (done || lia)].
  destruct (batchSlots r) as [[k c]|]; [|lia]. intros.
  rewrite (proj2 (Z.ltb_lt 0 k)) by lia. eexists. by split_and!.
Qed.

Lemma dispatch_tokens procs lt job r ok r' :
  dispatch procs lt job r = (ok, r') ->
  tokens_in r' = tokens_in r /\
  tokens_queued r' = tokens_queued r + (if ok then tok (job_slot job) else 0).
Proof.
  unfold dispatch. destruct lt; [intros [= <- <-]; split; [done|lia]|].
  assert (tokens_in (startOnce procs r) = tokens_in r /\
          tokens_queued (startOnce procs r) = tokens_queued r) as [<- <-].
  { unfold startOnce, tokens_in, tokens_queued. destruct (shards r) as [qs|] eqn:E; [by rewrite E|].
    split; [done|]. unfold startDispatcher. cbn [shards set_shards]. unfold queue_tokens, sumZ.
    change (default [] (Some ?x)) with x. cbn [default from_option fmap list_fmap foldr].
    induction (shardCapacities _ _) as [|c l IH]; [done|]. cbn in *. rewrite IH. done. }
  destruct (enqueue job (startOnce procs r)) as [r1|] eqn:E; intros [= <- <-]; [|by rewrite Z.add_0_r].
  apply enqueue_Some in E as (qs & i & cap & q & Es & Ei & _ & ->).
  split; [done|]. unfold tokens_queued. cbn [shards set_shards set_metrics make_adds foldl].
  change (default [] (Some ?x)) with x. rewrite Es. change (default [] (Some qs)) with qs.
  destruct (queue_insert qs _ cap q (q ++ [job]) Ei) as (_ & E2 & _).
  rewrite E2, fmap_app, tokens_app. unfold tokens, sumZ, tok. cbn. lia.
Qed.

Lemma dropPacket_tokens c b y :
  tok b <= tokens_in (ry_rt y) ->
  exists y', dropPacket c b y = Some y' /\
    tokens_in (ry_rt y') = tokens_in (ry_rt y) - tok b /\
    tokens_queued (ry_rt y') = tokens_queued (ry_rt y) /\ batch_tokens y' = batch_tokens y.
Proof.
  intros Hb. unfold dropPacket.
  destruct (releaseBuffer_tokens b (set_metrics (metrics_Add c 1) (ry_rt y)) Hb) as (r' & E & E1 & E2).
  rewrite E. eexists. split; [reflexivity|]. cbn. unfold tokens_queued. by rewrite E2, E1.
Qed.

(** One packet: its token leaves the channel, or goes to a batch or the queue. *)
Lemma pumpPacket_tokens a p y :
  tok (rp_batchSlot p) <= tokens_in (ry_rt y) ->
  exists act y', pumpPacket a p y = Some (act, y') /\
    tokens_queued (ry_rt y) <= tokens_queued (ry_rt y') /\
    tokens_in (ry_rt y') - batch_tokens y' - tokens_queued (ry_rt y')
    = tokens_in (ry_rt y) - batch_tokens y - tokens_queued (ry_rt y) - tok (rp_batchSlot p).
Proof.
  intros Hb. pose proof (tok_bound (rp_batchSlot p)).
  assert (forall c, exists act y',
    (y ← dropPacket c (rp_batchSlot p) y; Some (false, y)) = Some (act, y') /\
    tokens_queued (ry_rt y) <= tokens_queued (ry_rt y') /\
    tokens_in (ry_rt y') - batch_tokens y' - tokens_queued (ry_rt y')
    = tokens_in (ry_rt y) - batch_tokens y - tokens_queued (ry_rt y) - tok (rp_batchSlot p)) as Hdrop.
  { intros c. destruct (dropPacket_tokens c _ y Hb) as (y' & -> & ? & ? & ?).
    exists false, y'. split; [done|]. lia. }
  unfold pumpPacket. destruct (rp_truncated p); [apply Hdrop|].
  destruct (ParseUdpHeader _) as [[hdr hlen]|]; [|apply Hdrop].
  unfold processInbound. cbn [ip_frag ip_src ip_batchSlot ip_payload ip_dst ip_buffer].
  destruct (negb (uh_Frag hdr =? 0)); [apply Hdrop|].
  destruct (negb (isAuthorized _ _)); [apply Hdrop|].
  destruct (match Socket _ with Some _ => _ | None => _ end) as [t|].
  - destruct (negb _ && _ && _); do 2 eexists; (split; [reflexivity|]);
      unfold batch_tokens; cbn [preferredBatch fallbackBatch with_batches with_counts ry_rt];
      rewrite tokens_snoc; cbn [wp_batchSlot]; lia.
  - destruct (dispatch _ _ _ _) as [ok r] eqn:Ed. apply dispatch_tokens in Ed as [E1 E2].
    cbn [ry_rt with_counts] in E1, E2. change (job_slot _) with (rp_batchSlot p) in E2.
    destruct ok; cbn iota in E2.
    { do 2 eexists. split; [reflexivity|].
      unfold batch_tokens. cbn [preferredBatch fallbackBatch with_rt with_counts ry_rt]. lia. }
    destruct (releaseBuffer_tokens (rp_batchSlot p) r) as (r' & E & E3 & E4); [lia|].
    cbn [ry_rt with_rt]. rewrite E. do 2 eexists. split; [reflexivity|].
    unfold batch_tokens, tokens_queued in *.
    cbn [preferredBatch fallbackBatch with_rt with_counts ry_rt]. rewrite E4. lia.
Qed.

Lemma pumpPackets_tokens a ps act y :
  tokens (rp_batchSlot <$> ps) + batch_tokens y <= tokens_in (ry_rt y) -> 0 <= batch_tokens y ->
  exists act' y', pumpPackets a ps act y = Some (act', y') /\
    tokens_queued (ry_rt y) <= tokens_queued (ry_rt y') /\
    tokens_in (ry_rt y') - batch_tokens y' - tokens_queued (ry_rt y')
    = tokens_in (ry_rt y) - batch_tokens y - tokens_queued (ry_rt y) - tokens (rp_batchSlot <$> ps).
Proof.
  revert act y. induction ps as [|p ps IH]; intros act y Hle Hb; cbn [pumpPackets].
  - do 2 eexists. split; [reflexivity|]. unfold tokens, sumZ. cbn. lia.
  - rewrite fmap_cons, tokens_cons in Hle |- *. fold (tok (rp_batchSlot p)) in Hle |- *.
    pose proof (tokens_nonneg (rp_batchSlot <$> ps)). pose proof (tok_bound (rp_batchSlot p)).
    destruct (pumpPacket_tokens a p y) as (act1 & y1 & -> & Hq & E); [lia|].
    assert (0 <= batch_tokens y1) as Hb1.
    { unfold batch_tokens. pose proof (tokens_nonneg (wp_batchSlot <$> preferredBatch y1)).
      pose proof (tokens_nonneg (wp_batchSlot <$> fallbackBatch y1)). lia. }
    destruct (IH (act || act1) y1) as (act2 & y2 & -> & Hq2 & E2); [lia | done |].
    do 2 eexists. split; [reflexivity|]. lia.
Qed.

Lemma releaseAll_tokens batch r :
  tokens (wp_batchSlot <$> batch) <= tokens_in r ->
  exists r', releaseAll batch r = Some r' /\
    tokens_in r' = tokens_in r - tokens (wp_batchSlot <$> batch) /\ shards r' = shards r.
Proof.
  revert r. induction batch as [|w batch IH]; intros r Hle; cbn [releaseAll].
  - exists r. split_and!; [done | unfold tokens, sumZ; cbn; lia | done].
  - rewrite fmap_cons, tokens_cons in Hle |- *. fold (tok (wp_batchSlot w)) in Hle |- *.
    pose proof (tokens_nonneg (wp_batchSlot <$> batch)).
    destruct (releaseBuffer_tokens (wp_batchSlot w) r) as (r1 & -> & E1 & E2); [lia|].
    cbn [mbind option_bind]. destruct (IH r1) as (r2 & -> & E3 & E4); [lia|].
    exists r2. split_and!; [done | lia | congruence].
Qed.

(** What a flush hands to the kernel. *)
Definition flushed (s : outSocket) (k : kernelIO) (gso : bool) (batch : list udpWritePacket)
    : list batchSend :=
  match batch with [] => [] | _ => [(sendBatch s k gso batch).2] end.

(** A flush hands the batch over, gives its tokens back whatever the send does, and empties
    it; the other batch and the queue are untouched. *)
Lemma flushBatch_spec s io gso b y :
  tokens (wp_batchSlot <$> batch_of b y) <= tokens_in (ry_rt y) ->
  exists y', flushBatch s io gso b y = Some y' /\
    tokens_in (ry_rt y') = tokens_in (ry_rt y) - tokens (wp_batchSlot <$> batch_of b y) /\
    shards (ry_rt y') = shards (ry_rt y) /\
    handed y' = handed y ++ flushed s (io s) gso (batch_of b y) /\
    (forall c, batch_of c y' = if decide (c = b) then [] else batch_of c y).
Proof.
  intros Hle. unfold flushBatch, flushed. destruct (batch_of b y) as [|w batch] eqn:Eb.
  { exists y. rewrite app_nil_r. split_and!; try done; [unfold tokens, sumZ; cbn; lia|].
    intros c. by case_decide; subst. }
  destruct (releaseAll_tokens (w :: batch) (ry_rt y) Hle) as (r' & E & E1 & E2).
  destruct (sendBatch s (io s) gso (w :: batch)) as [[written err] sd].
  rewrite E. cbn [mbind option_bind snd].
  destruct (_ || _), b; (eexists; split; [reflexivity|]); cbn; (split_and!; [done..|]); by intros [].
Qed.

Lemma no_fallback_batch a os :
  hasFallback (as_out a) = false -> filter (fun w => on_fallback a w = true) os = [].
Proof.
  intros Hf. induction os as [|w os IH]; [done|]. rewrite filter_cons_False; [done|].
  unfold on_fallback. rewrite Hf, andb_false_r. done.
Qed.

(** The two flushes of a round. *)
Lemma flushes_spec a io y :
  batch_tokens y <= tokens_in (ry_rt y) -> (hasFallback (as_out a) = false -> fallbackBatch y = []) ->
  exists y1 y2, flushBatch preferredOutbound io (as_gso a) preferredOutbound y = Some y1 /\
    flushFallback a io y1 = Some y2 /\
    tokens_in (ry_rt y2) = tokens_in (ry_rt y) - batch_tokens y /\
    shards (ry_rt y2) = shards (ry_rt y) /\
    handed y2 = handed y ++ flushed preferredOutbound (io preferredOutbound) (as_gso a) (preferredBatch y)
                         ++ flushed fallbackOutbound (io fallbackOutbound) (as_gso a) (fallbackBatch y) /\
    preferredBatch y2 = [] /\ fallbackBatch y2 = [].
Proof.
  unfold batch_tokens. intros Hle Hnf. pose proof (tokens_nonneg (wp_batchSlot <$> preferredBatch y)).
  pose proof (tokens_nonneg (wp_batchSlot <$> fallbackBatch y)).
  destruct (flushBatch_spec preferredOutbound io (as_gso a) preferredOutbound y)
    as (y1 & E1 & T1 & S1 & H1 & B1); [cbn [batch_of]; lia|]. cbn [batch_of] in T1, H1.
  pose proof (B1 preferredOutbound : preferredBatch y1 = []) as P1.
  pose proof (B1 fallbackOutbound : fallbackBatch y1 = fallbackBatch y) as F1.
  exists y1. unfold flushFallback. destruct (hasFallback (as_out a)) eqn:Eh.
  - destruct (flushBatch_spec fallbackOutbound io (as_gso a) fallbackOutbound y1)
      as (y2 & E2 & T2 & S2 & H2 & B2); [cbn [batch_of]; rewrite F1; lia|]. cbn [batch_of] in T2, H2.
    rewrite F1 in T2, H2. exists y2. split_and!; [done|done|lia|congruence| | |].
    + by rewrite H2, H1, <- app_assoc.
    + rewrite <- P1. apply (B2 preferredOutbound).
    + apply (B2 fallbackOutbound).
  - exists y1. rewrite (Hnf eq_refl) in *. cbn [flushed]. rewrite app_nil_r.
    change (tokens (wp_batchSlot <$> [])) with 0. split_and!; (done || lia).
Qed.

(** One round of the pump, when the channel holds a token for every batch buffer read. *)
Lemma inboundPump_spec a ps ctxErr io now y :
  Forall read_ok ps -> preferredBatch y = [] -> fallbackBatch y = [] ->
  tokens (rp_batchSlot <$> ps) <= tokens_in (ry_rt y) ->
  exists y' fs, inboundPump a (Ok ps) ctxErr io now y = Some (true, y') /\
    Forall2 (outcome a) ps fs /\
    handed y' = handed y ++
      flushed preferredOutbound (io preferredOutbound) (as_gso a)
        (filter (fun w => on_fallback a w = false) (omap forwarded fs)) ++
      flushed fallbackOutbound (io fallbackOutbound) (as_gso a)
        (filter (fun w => on_fallback a w = true) (omap forwarded fs)) /\
    queue_grows a (omap job_of fs) (existsb overflow fs) (ry_rt y) (ry_rt y') /\
    preferredBatch y' = [] /\ fallbackBatch y' = [] /\
    tokens_in (ry_rt y') = tokens_in (ry_rt y) - tokens (rp_batchSlot <$> ps)
                           + (tokens_queued (ry_rt y') - tokens_queued (ry_rt y)).
Proof.
  intros Hok Hp Hf Hle. unfold inboundPump. set (y0 := with_counts (srcPort y) 0 0 y).
  assert (batch_tokens y0 = 0) as Hb0.
  { unfold batch_tokens. cbn [preferredBatch fallbackBatch y0 with_counts]. by rewrite Hp, Hf. }
  destruct (pumpPackets_tokens a ps false y0) as (act & y1 & E & Hq & Et);
    [cbn [ry_rt y0 with_counts]; lia | lia |].
  cbn [ry_rt y0 with_counts] in Hq, Et. rewrite Hb0 in Et. rewrite E.
  apply pumpPackets_outcome in E as (fs & Hfs & [A1 A2 A3 A4]); [|done].
  cbn [preferredBatch fallbackBatch handed ry_rt y0 with_counts] in A1, A2, A3, A4.
  rewrite Hp in A1. rewrite Hf in A2. cbn [app] in A1, A2.
  set (y2 := if 0 <? batchInPackets y1 then _ else y1).
  assert (tokens_in (ry_rt y2) = tokens_in (ry_rt y1) /\ shards (ry_rt y2) = shards (ry_rt y1) /\
    batch_tokens y2 = batch_tokens y1 /\ handed y2 = handed y1 /\
    preferredBatch y2 = preferredBatch y1 /\ fallbackBatch y2 = fallbackBatch y1)
    as (E1 & E2 & E3 & E4 & E5 & E6) by (subst y2; by case_one).
  destruct (flushes_spec a io y2) as (y3 & y4 & -> & G1 & G2 & G3 & G4 & G5 & G6).
  { rewrite E1, E3. lia. }
  { intros H. by rewrite E6, A2, no_fallback_batch. }
  cbn [mbind option_bind]. rewrite G1. cbn [mbind option_bind].
  rewrite E1, E3 in G2. rewrite E2 in G3. rewrite E4, E5, E6, A1, A2, A3 in G4.
  eexists _, fs. split; [reflexivity|]. split; [done|].
  pose proof (queue_grows_trans _ _ _ _ _ _ _ _ A4 (queue_grows_same a _ _ G3)) as Hg.
  rewrite app_nil_r, orb_false_r in Hg.
  assert (tokens_queued (ry_rt y4) = tokens_queued (ry_rt y1)) as Hq4 by (unfold tokens_queued; by rewrite G3).
  destruct act; cbn; (split_and!; [done..|]); lia.
Qed.

(** No datagram buffer leaks and the pump never blocks on its own budget.
    When the channel holds a token for every batch buffer read, one round of
    the pump returns, whatever the packets are and whatever the sends do; both
    batches are empty again, and the channel has given back exactly the tokens
    of the packets read, except those of jobs now in the send queue. *)
Theorem inboundPump_releases a ps ctxErr io now y :
  Forall read_ok ps -> preferredBatch y = [] -> fallbackBatch y = [] ->
  tokens (rp_batchSlot <$> ps) <= tokens_in (ry_rt y) ->
  exists y', inboundPump a (Ok ps) ctxErr io now y = Some (true, y') /\
    preferredBatch y' = [] /\ fallbackBatch y' = [] /\
    tokens_in (ry_rt y') = tokens_in (ry_rt y) - tokens (rp_batchSlot <$> ps)
                           + (tokens_queued (ry_rt y') - tokens_queued (ry_rt y)).
Proof.
  intros Hok Hp Hf Hle.
  destruct (inboundPump_spec a ps ctxErr io now y Hok Hp Hf Hle) as (y' & fs & H1 & _ & _ & _ & H2). eauto.
Qed.

Definition kernel_takes_all : outSocket -> kernelIO :=
  fun _ => mkKernel (fun _ => None) (fun b => (len b, None)).

Lemma inboundPump_releases_witness :
  exists y', inboundPump demo_assoc (Ok [demo_packet 4000]) None kernel_takes_all 7 demo_relay = Some (true, y') /\
    preferredBatch y' = [] /\ fallbackBatch y' = [] /\
    tokens_in (ry_rt y') = tokens_in (ry_rt demo_relay) - 0
                           + (tokens_queued (ry_rt y') - tokens_queued (ry_rt demo_relay)).
Proof.
  apply (inboundPump_releases demo_assoc [demo_packet 4000]);
    [by_decide | reflexivity | reflexivity | cbn; unfold tokens, sumZ; cbn; lia].
Defined.

(** *** Responses *)

(** A datagram read into a pooled buffer behind the headroom, from a remote
    with a proper address. *)
Definition response_ok (p : udpReadPacket) : Prop :=
  0 <= rp_n p /\ UdpHeaderMaxLen + rp_n p <= len (rp_buffer p) /\
  AddrPort_ok (rp_addr p) /\ IsValid (ap_Addr (rp_addr p)) = true /\
  zone_free (ap_Addr (rp_addr p)) = true.
#[export] Instance response_ok_dec p : Decision (response_ok p).
Proof. unfold response_ok. apply _. Defined.

Definition response_payload (p : udpReadPacket) : bytes :=
  slice (rp_buffer p) UdpHeaderMaxLen (UdpHeaderMaxLen + rp_n p).
Definition response_from (p : udpReadPacket) : Address :=
  SocketAddress (AddrPortFrom (Unmap (ap_Addr (rp_addr p))) (ap_Port (rp_addr p))).

Lemma len_slice {A} (l : list A) a b :
  0 <= a <= b -> b <= len l -> len (slice l a b) = b - a.
Proof.
  intros. unfold slice, len in *. rewrite length_take, length_drop. lia.
Qed.

(** Writing a header that ends at [e] and taking the slice up to [e + n]. *)
Lemma slice_overwrite l h e n :
  len h <= e -> 0 <= n -> e + n <= len l ->
  slice (overwrite l (e - len h) h) (e - len h) (e + n) = h ++ slice l e (e + n).
Proof.
  intros Hh Hn Hl. pose proof (len_nonneg h). unfold overwrite.
  replace (e - len h + len h) with e by lia.
  assert (slice_from l e = slice l e (e + n) ++ slice_from l (e + n)) as ->.
  { unfold slice, slice_from. replace (Z.to_nat (e + n)) with (Z.to_nat e + Z.to_nat n)%nat by lia.
    rewrite <- drop_drop. replace (e + n - e) with n by lia. by rewrite take_drop. }
  rewrite (app_assoc h). apply slice_app.
  - rewrite len_slice; lia.
  - rewrite len_app, len_slice; lia.
Qed.

Lemma Unmap_valid a : IsValid a = true -> IsValid (Unmap a) = true.
Proof. destruct a; try done. unfold Unmap. by destruct (Is4In6 _). Qed.
Lemma Unmap_zone_free a : zone_free a = true -> zone_free (Unmap a) = true.
Proof. destruct a; try done. unfold Unmap. by destruct (Is4In6 _). Qed.

Lemma response_address_ok p : response_ok p -> Address_ok (response_from p).
Proof.
  intros (_ & _ & [Ha Hp] & Hv & Hz). unfold Address_ok, response_from. cbn.
  split_and!; auto using Unmap_valid, Unmap_zone_free with wf. split; cbn; auto with wf.
Qed.

Lemma prepareUDPResponse_spec p :
  response_ok p ->
  exists buffer pkt,
    prepareUDPResponse (rp_buffer p) (response_payload p) (rp_addr p) = Ok (buffer, pkt) /\
    BuildUdpPacket 0 (response_from p) (response_payload p) = Ok pkt.
Proof.
  intros Hok. pose proof (response_address_ok p Hok) as (w & Hw)%Wire_exists.
  rewrite (BuildUdpPacket_wire 0 _ w _ Hw). destruct Hok as (Hn & Hl & _ & Hv & _).
  assert (len (response_payload p) = rp_n p) as Hlen.
  { unfold response_payload. rewrite len_slice; unfold UdpHeaderMaxLen, MaxSerializedLen in *; lia. }
  unfold prepareUDPResponse. rewrite Hlen, (proj2 (Z.leb_le _ _)) by lia.
  cbn [ap_Addr ap_Port].
  assert (exists hdr, (if Is4 (Unmap (ap_Addr (rp_addr p)))
       then As4 (Unmap (ap_Addr (rp_addr p))) ≫= fun ip =>
              Ok ([0; 0; 0; AddrIPv4] ++ ip ++ be_bytes 2 (ap_Port (rp_addr p)))
       else Ok ([0; 0; 0; AddrIPv6] ++ As16 (Unmap (ap_Addr (rp_addr p)))
                  ++ be_bytes 2 (ap_Port (rp_addr p)))) = Ok hdr /\ hdr = [0; 0; 0] ++ w /\
       len hdr = (if Is4 (Unmap (ap_Addr (rp_addr p))) then 3 + 1 + 4 + 2 else 3 + 1 + 16 + 2))
    as (hdr & -> & -> & Hhl).
  { pose proof (Wire_AppendTo _ w [0; 0; 0] Hw) as E. unfold Address_AppendTo, response_from in E.
    cbn [Socket SocketAddress ap_Addr ap_Port] in E.
    pose proof (Wire_len _ _ Hw) as Hwl. unfold Address_Len, response_from in Hwl.
    cbn [Socket SocketAddress ap_Addr] in Hwl.
    destruct (Is4 (Unmap (ap_Addr (rp_addr p)))).
    - destruct (As4 _) as [ip|]; [|done]. cbn [mbind result_bind] in *.
      eexists. split; [reflexivity|]. injection E as E.
      replace (_ ++ ip ++ _) with ([0; 0; 0] ++ w) by (by rewrite <- E).
      split; [done|]. autorewrite with go. lia.
    - eexists. split; [reflexivity|]. injection E as E.
      replace (_ ++ As16 _ ++ _) with ([0; 0; 0] ++ w) by (by rewrite <- E).
      split; [done|]. autorewrite with go. lia. }
  cbn [mbind result_bind]. do 2 eexists. split; [reflexivity|]. do 2 f_equal.
  rewrite <- Hhl. rewrite slice_overwrite; [by rewrite <- app_assoc | | lia | lia].
  rewrite Hhl. unfold UdpHeaderMaxLen, MaxSerializedLen. by case_one.
Qed.

(** What a response datagram is: the relay packet of the remote's address and
    the payload, addressed to the client. *)
Definition responds (clientAddr : AddrPort) (p : udpReadPacket) (w : udpWritePacket) : Prop :=
  wp_addr w = clientAddr /\ wp_batchSlot w = rp_batchSlot p /\
  BuildUdpPacket 0 (response_from p) (response_payload p) = Ok (wp_buffer w).

(** The packets that get a response. *)
Definition answerable (clientAddr : AddrPort) (p : udpReadPacket) : Prop :=
  rp_truncated p = false /\ ap_Port clientAddr <> 0.
#[export] Instance answerable_dec c p : Decision (answerable c p).
Proof. unfold answerable. apply _. Defined.

Lemma tokens_writes_cons w n (ws : list (udpWritePacket * Z)) :
  tokens (wp_batchSlot <$> (fst <$> (w, n) :: ws))
  = tok (wp_batchSlot w) + tokens (wp_batchSlot <$> (fst <$> ws)).
Proof. done. Qed.

Lemma respondPackets_spec c ps r :
  Forall response_ok ps -> tokens (rp_batchSlot <$> ps) <= tokens_in r ->
  exists ws r', respondPackets c ps r = Some (Ok ws, r') /\
    Forall2 (responds c) (filter (answerable c) ps) (fst <$> ws) /\
    tokens_in r' - tokens (wp_batchSlot <$> (fst <$> ws)) = tokens_in r - tokens (rp_batchSlot <$> ps) /\
    tokens (wp_batchSlot <$> (fst <$> ws)) <= tokens_in r'.
Proof.
  intros Hok. revert r. induction Hok as [|p ps Hp Hps IH]; intros r Hle; cbn [respondPackets].
  { exists [], r. split; [done|]. unfold tokens, sumZ in *. cbn in *. split; [constructor | lia]. }
  rewrite fmap_cons, tokens_cons in Hle |- *. fold (tok (rp_batchSlot p)) in Hle |- *.
  pose proof (tokens_nonneg (rp_batchSlot <$> ps)). pose proof (tok_bound (rp_batchSlot p)).
  assert (forall r0, tokens_in r0 = tokens_in r -> ~ answerable c p -> exists ws r',
    match (r ← releaseBuffer (rp_batchSlot p) r0;
           Some (Ok None : result (option (udpWritePacket * Z)), r)) with
    | None => None
    | Some (Err e, r) => Some (Err e, r)
    | Some (Ok w, r) =>
        match respondPackets c ps r with
        | None => None
        | Some (Err e, r) => Some (Err e, r)
        | Some (Ok ws, r) => Some (Ok (option_list w ++ ws), r)
        end
    end = Some (Ok ws, r') /\
    Forall2 (responds c) (filter (answerable c) (p :: ps)) (fst <$> ws) /\
    tokens_in r' - tokens (wp_batchSlot <$> (fst <$> ws))
      = tokens_in r - (tok (rp_batchSlot p) + tokens (rp_batchSlot <$> ps)) /\
    tokens (wp_batchSlot <$> (fst <$> ws)) <= tokens_in r') as Hdrop.
  { intros r0 E0 Hna. rewrite filter_cons_False by done.
    destruct (releaseBuffer_tokens (rp_batchSlot p) r0) as (r1 & -> & E1 & _); [lia|].
    cbn [mbind option_bind]. destruct (IH r1) as (ws & r2 & -> & H1 & H2 & H3); [lia|].
    exists ws, r2. split; [done|]. split; [done|]. lia. }
  unfold respondPacket. destruct (rp_truncated p) eqn:Et.
  { apply Hdrop; [done|]. intros [? _]. congruence. }
  destruct (Z.eqb_spec (ap_Port c) 0) as [E|E]; [apply Hdrop; [done | by intros [_ ?]]|].
  destruct (prepareUDPResponse_spec p Hp) as (buf & pkt & Epr & Eb). unfold response_payload in Epr.
  rewrite Epr. destruct (IH r) as (ws & r2 & -> & H1 & H2 & H3); [lia|].
  eexists _, r2. split; [reflexivity|]. rewrite filter_cons_True by done.
  change (option_list (Some ?x) ++ ws) with (x :: ws).
  rewrite tokens_writes_cons. cbn [wp_batchSlot].
  split; [by repeat constructor | lia].
Qed.

(** Responses reach the client as SOCKS5 relay packets. Once the client's
    port is known, one round of the responder hands to the client socket, in
    order, for every datagram read whole exactly the packet [BuildUdpPacket]
    makes of the remote's (unmapped) address and the payload, addressed to the
    authorized client; before that it sends nothing. It never blocks, panics only
    if the writer does, and gives back the tokens of all the packets read. *)
Theorem pumpOnce_responses clientIP ps ctxErr write now y :
  Forall response_ok ps -> tokens (rp_batchSlot <$> ps) <= tokens_in (ry_rt y) ->
  (forall ws, len ws <= len ps -> exists res, write ws = Ok res) ->
  let clientAddr := AddrPortFrom clientIP (wrap 16 (srcPort y)) in
  exists ws y', pumpOnce clientIP (Ok ps) ctxErr write now y = Some (Ok (true, ws), y') /\
    Forall2 (responds clientAddr) (filter (answerable clientAddr) ps) ws /\
    tokens_in (ry_rt y') = tokens_in (ry_rt y) - tokens (rp_batchSlot <$> ps).
Proof.
  intros Hok Hle Hw c. unfold pumpOnce. fold c.
  destruct (respondPackets_spec c ps (ry_rt y) Hok Hle) as (ws & r & -> & H1 & H2 & H3).
  assert (len (fst <$> ws) <= len ps) as Hl.
  { apply Forall2_length in H1. pose proof (length_filter (answerable c) ps). unfold len. lia. }
  destruct (Hw _ Hl) as [[written werr] ->].
  destruct (releaseAll_tokens (fst <$> ws) r H3) as (r' & -> & E1 & _). cbn [mbind option_bind].
  eexists _, _. split; [reflexivity|]. split; [done|].
  assert (tokens_in r' = tokens_in (ry_rt y) - tokens (rp_batchSlot <$> ps)) as <- by lia.
  by repeat case_one.
Qed.

(** A datagram from 10.0.0.1:53 behind the headroom. *)
Definition demo_reply : udpReadPacket :=
  mkRead (replicate 262 0 ++ [104; 105] ++ replicate 1500 0) 2
    (AddrPortFrom (Addr6 0xffff0a000001 []) 53) false false.

Lemma pumpOnce_responses_witness :
  exists ws y', pumpOnce (Addr4 0x7f000001) (Ok [demo_reply]) None (fun l => Ok (len l, None)) 9
      (with_counts 4000 0 0 demo_relay) = Some (Ok (true, ws), y') /\
    Forall2 (responds (AddrPortFrom (Addr4 0x7f000001) (wrap 16 4000)))
      (filter (answerable (AddrPortFrom (Addr4 0x7f000001) (wrap 16 4000))) [demo_reply]) ws /\
    tokens_in (ry_rt y') = tokens_in (ry_rt demo_relay) - 0.
Proof.
  apply (pumpOnce_responses (Addr4 0x7f000001) [demo_reply] None (fun l => Ok (len l, None)) 9
           (with_counts 4000 0 0 demo_relay));
    [by_decide | cbn; unfold tokens, sumZ; cbn; lia | by eexists].
Defined.

(** *** Segmentation *)

(** What the kernel makes of a super-datagram with segment size [size]: it cuts
    it into datagrams of [size] bytes, the last one possibly shorter. *)
Fixpoint segments_fuel (fuel : nat) (size : Z) (data : bytes) : list bytes :=
  match fuel, data with
  | S f, _ :: _ => slice data 0 size :: segments_fuel f size (slice_from data size)
  | _, _ => []
  end.
Definition kernel_segments (size : Z) (data : bytes) : list bytes :=
  segments_fuel (length data) size data.

Lemma len_slice_from {A} (l : list A) a : 0 <= a <= len l -> len (slice_from l a) = len l - a.
Proof. intros. unfold slice_from, len in *. rewrite length_drop. lia. Qed.

Lemma slice_from_short {A} (l : list A) a : len l <= a -> slice_from l a = [].
Proof. intros. unfold slice_from, len in *. apply drop_ge. lia. Qed.

Lemma slice_short {A} (l : list A) b : len l <= b -> slice l 0 b = l.
Proof. intros. unfold slice, len in *. rewrite Z.sub_0_r, drop_0. apply take_ge. lia. Qed.

Lemma slice_slice_from {A} (l : list A) a b c :
  0 <= a -> 0 <= c -> slice (slice_from l c) a b = slice l (a + c) (b + c).
Proof.
  intros. unfold slice, slice_from. rewrite drop_drop.
  replace (b + c - (a + c)) with (b - a) by lia. do 2 f_equal. lia.
Qed.

(** The [i]-th segment, for enough fuel. *)
Lemma segments_lookup fuel size data (i : nat) :
  0 < size -> (length data <= fuel)%nat ->
  segments_fuel fuel size data !! i =
    if Z.of_nat i * size <? len data
    then Some (slice data (Z.of_nat i * size) (Z.min (len data) (Z.of_nat i * size + size)))
    else None.
Proof.
  intros Hs. revert data i. induction fuel as [|f IH]; intros data i Hl.
  { destruct data; [|cbn in Hl; lia]. cbn [segments_fuel]. rewrite lookup_nil, len_nil.
    by rewrite (proj2 (Z.ltb_ge _ _)) by lia. }
  destruct data as [|d data].
  { cbn [segments_fuel]. rewrite lookup_nil, len_nil. by rewrite (proj2 (Z.ltb_ge _ _)) by lia. }
  cbn [segments_fuel]. set (l := d :: data) in *. pose proof (len_nonneg data) as Hdn.
  assert (0 < len l) by (subst l; rewrite len_cons; lia).
  destruct i as [|i].
  - cbn [lookup list_lookup]. rewrite (proj2 (Z.ltb_lt _ _)) by lia. f_equal.
    change (Z.of_nat 0 * size) with 0. rewrite Z.add_0_l.
    destruct (Z.min_spec (len l) size) as [[? ->]|[? ->]]; [|done].
    rewrite !slice_short by lia. done.
  - cbn [lookup list_lookup]. rewrite Nat2Z.inj_succ.
    destruct (Z.lt_ge_cases (len l) size) as [Hlt|Hge].
    + rewrite slice_from_short by lia. rewrite (proj2 (Z.ltb_ge _ _)) by nia. by destruct f.
    + rewrite IH by (unfold slice_from; rewrite length_drop; lia).
      rewrite len_slice_from by lia.
      replace (Z.of_nat i * size <? len l - size) with (Z.succ (Z.of_nat i) * size <? len l).
      2: { destruct (Z.ltb_spec (Z.succ (Z.of_nat i) * size) (len l));
             destruct (Z.ltb_spec (Z.of_nat i * size) (len l - size)); (done || lia). }
      case_one; [|done]. zbool. f_equal. rewrite slice_slice_from by lia. f_equal; lia.
Qed.

Lemma kernel_segments_lookup size data i :
  0 < size ->
  kernel_segments size data !! i =
    if Z.of_nat i * size <? len data
    then Some (slice data (Z.of_nat i * size) (Z.min (len data) (Z.of_nat i * size + size)))
    else None.
Proof. intros. by apply segments_lookup. Qed.

(** Datagrams that fit one UDP_SEGMENT send: all of [size] bytes but the last,
    which has at most [size] and at least one. *)
Fixpoint uniform (size : Z) (l : list bytes) : Prop :=
  match l with
  | [] => True
  | [x] => 0 < len x <= size
  | x :: rest => len x = size /\ uniform size rest
  end.

Lemma uniform_take size l n : 0 < size -> uniform size l -> uniform size (take n l).
Proof.
  intros Hs. revert n. induction l as [|x l IH]; intros [|n] Hl; cbn [take]; [done..|].
  destruct l as [|y l]; [by destruct n|]. destruct Hl as [Hx Hl].
  specialize (IH n Hl). destruct n as [|n]; cbn [take] in *; [cbn; lia | done].
Qed.

Lemma uniform_drop size l n : uniform size l -> uniform size (drop n l).
Proof.
  revert n. induction l as [|x l IH]; intros [|n] Hl; cbn [drop]; [done..|].
  apply IH. destruct l; [done | apply Hl].
Qed.

(** Cutting a coalesced buffer gives the datagrams back. *)
Lemma segments_concat fuel size l :
  0 < size -> uniform size l -> (length (concat l) <= fuel)%nat ->
  segments_fuel fuel size (concat l) = l.
Proof.
  intros Hs. revert fuel. induction l as [|x l IH]; intros fuel Hl Hf; [by destruct fuel|].
  assert (0 < len x <= size) as Hx by (destruct l; [done | destruct Hl; lia]).
  cbn [concat] in *. rewrite length_app in Hf.
  destruct fuel as [|f]; [unfold len in Hx; lia|].
  assert (segments_fuel (S f) size (x ++ concat l)
    = slice (x ++ concat l) 0 size :: segments_fuel f size (slice_from (x ++ concat l) size)) as ->.
  { destruct x; [exfalso; unfold len in Hx; cbn in Hx; lia | done]. }
  destruct l as [|y l].
  - cbn [concat]. rewrite app_nil_r, slice_short, slice_from_short by lia. by destruct f.
  - destruct Hl as [Hx' Hl]. rewrite slice_from_app by done.
    replace (x ++ concat (y :: l)) with ([] ++ x ++ concat (y :: l)) by done.
    rewrite slice_app by (done || (rewrite len_nil; lia)).
    rewrite IH; [done | done |]. unfold len in Hx'. lia.
Qed.

Lemma kernel_segments_concat size l :
  0 < size -> uniform size l -> kernel_segments size (concat l) = l.
Proof. intros. by apply segments_concat. Qed.

(** What a packing round takes: a prefix of the batch, within both bounds. *)
Lemma gsoPack_spec batch total segs n b :
  gsoPack batch total segs = (n, b) -> 0 <= total <= gsoScratchBytes -> 0 <= segs <= gsoMaxSegments ->
  b = concat (wp_buffer <$> take n batch) /\ (n <= length batch)%nat /\
  total + len b <= gsoScratchBytes /\ segs + Z.of_nat n <= gsoMaxSegments.
Proof.
  revert total segs n b. induction batch as [|p batch IH]; intros total segs n b; cbn [gsoPack].
  { intros [= <- <-] ??. rewrite len_nil. cbn. split_and!; (done || lia). }
  case_one; [intros [= <- <-] ??; rewrite len_nil; cbn; split_and!; (done || lia)|].
  case_one; [intros [= <- <-] ??; rewrite len_nil; cbn; split_and!; (done || lia)|].
  zbool. pose proof (len_nonneg (wp_buffer p)).
  destruct (gsoPack batch _ _) as [m c] eqn:E. intros [= <- <-] ??.
  apply IH in E as (-> & ? & ? & ?); [|lia..].
  rewrite len_app. cbn [take fmap list_fmap concat length]. split_and!; [done | lia..].
Qed.

Lemma gsoPack_progress p batch :
  len (wp_buffer p) <= gsoScratchBytes -> exists n b, gsoPack (p :: batch) 0 0 = (S n, b).
Proof.
  intros Hp. cbn [gsoPack]. rewrite (proj2 (Z.ltb_ge gsoScratchBytes _)) by lia.
  change (0 <? gsoMaxSegments) with true. cbn [negb].
  destruct (gsoPack batch _ _) as [n b]. eauto.
Qed.

(** The datagrams of an eligible batch without an empty last one. *)
Lemma gsoUniform_uniform dst size rest :
  gsoUniform dst size rest = true -> Forall (fun w => wp_buffer w <> []) rest ->
  uniform size (wp_buffer <$> rest).
Proof.
  induction rest as [|p rest IH]; [done|]. intros H Hne. apply Forall_cons in Hne as [Hp Hne].
  assert (0 < len (wp_buffer p)).
  { pose proof (len_nonneg (wp_buffer p)). destruct (wp_buffer p); [done|].
    rewrite len_cons in *. pose proof (len_nonneg l). lia. }
  cbn [gsoUniform] in H. case_one_in H; [done|]. destruct rest as [|q rest].
  - case_one_in H; [done|]. zbool. cbn. lia.
  - case_one_in H; [done|]. zbool. specialize (IH H Hne). cbn. cbn in IH. done.
Qed.

Lemma gsoEligible_uniform enabled batch size :
  gsoEligible enabled batch = Some size -> Forall (fun w => wp_buffer w <> []) batch ->
  0 < size /\ uniform size (wp_buffer <$> batch).
Proof.
  destruct batch as [|p batch]; [done|]. cbn [gsoEligible]. case_one; [done|]. case_one; [done|].
  case_one; [|done]. intros [= <-] Hne. zbool. apply Forall_cons in Hne as [Hp Hne].
  pose proof (len_nonneg (wp_buffer p)).
  split; [lia|]. destruct batch as [|q batch]; [cbn; lia|].
  split; [done|]. by eapply gsoUniform_uniform.
Qed.

Lemma uniform_head size x l : uniform size (x :: l) -> len x <= size.
Proof. destruct l; cbn; lia. Qed.

Lemma gsoLoop_spec kernel fuel size batch k sent :
  (forall n, kernel n = None) -> 0 < size <= gsoScratchBytes -> uniform size (wp_buffer <$> batch) -> (length batch <= fuel)%nat ->
  exists bs, gsoLoop fuel kernel k batch sent = (sent + len batch, None, bs) /\
    concat (kernel_segments size <$> bs) = wp_buffer <$> batch /\
    Forall (fun b => len b <= gsoScratchBytes /\ len (kernel_segments size b) <= gsoMaxSegments) bs.
Proof.
  intros Hk0 Hs. revert batch k sent. induction fuel as [|f IH]; intros batch k sent Hu Hf.
  { destruct batch; [|cbn in Hf; lia]. exists []. cbn. rewrite len_nil, Z.add_0_r. by repeat split. }
  destruct batch as [|p batch].
  { exists []. cbn. rewrite len_nil, Z.add_0_r. by repeat split. }
  assert (len (wp_buffer p) <= gsoScratchBytes) as Hp by (apply uniform_head in Hu; lia).
  destruct (gsoPack_progress p batch Hp) as (n & b & E). cbn [gsoLoop]. rewrite E, Hk0.
  apply gsoPack_spec in E as (-> & Hn & Hb & Hg); [|unfold gsoScratchBytes; lia | unfold gsoMaxSegments; lia].
  set (l := p :: batch) in *.
  destruct (IH (drop (S n) l) (S k) (sent + Z.of_nat (S n))) as (bs & -> & Hc & Hf').
  { rewrite fmap_drop. by apply uniform_drop. }
  { rewrite length_drop. subst l. cbn [length] in *. lia. }
  assert (kernel_segments size (concat (wp_buffer <$> take (S n) l)) = wp_buffer <$> take (S n) l) as Hk.
  { apply kernel_segments_concat; [lia|]. rewrite fmap_take. apply uniform_take; [lia | done]. }
  eexists. split; [|split].
  - assert (Z.of_nat (S n) + len (drop (S n) l) = len l) as <-
      by (unfold len; rewrite length_drop; lia).
    by rewrite Z.add_assoc.
  - rewrite fmap_cons. cbn [concat]. rewrite Hk, Hc, <- fmap_app, take_drop. done.
  - constructor; [|done]. split; [lia|]. rewrite Hk. unfold len.
    rewrite length_fmap, length_take. lia.
Qed.

(** UDP_SEGMENT sends deliver the batch. For a batch that [gsoEligible]
    accepts, whose datagrams are not empty and fit the scratch buffer, and a
    kernel that accepts every send, [sendUDPGSO] reports every datagram sent,
    and the datagrams the kernel cuts out of the super-datagrams are exactly
    the payloads of the batch, in order; no super-datagram exceeds the scratch
    buffer or 64 segments. *)
Theorem sendUDPGSO_delivers kernel enabled batch size :
  (forall n, kernel n = None) ->
  gsoEligible enabled batch = Some size -> Forall (fun w => wp_buffer w <> []) batch ->
  size <= gsoScratchBytes -> Forall (fun w => sockaddrFromAddrPort (wp_addr w) = true) batch ->
  exists bs, sendUDPGSO kernel batch = (len batch, None, bs) /\
    concat (kernel_segments size <$> bs) = wp_buffer <$> batch /\
    Forall (fun b => len b <= gsoScratchBytes /\ len (kernel_segments size b) <= gsoMaxSegments) bs.
Proof.
  intros Hk He Hne Hs Ha. destruct (gsoEligible_uniform _ _ _ He Hne) as [H0 Hu].
  unfold sendUDPGSO. destruct batch as [|p batch]; [done|].
  apply Forall_cons in Ha as [-> _]. cbn [negb].
  destruct (gsoLoop_spec kernel (length (p :: batch)) size (p :: batch) 0 0) as (bs & E & Hc & Hf);
    [done | lia | done | done |].
  exists bs. rewrite E. by rewrite Z.add_0_l.
Qed.

Definition demo_write (b : bytes) : udpWritePacket :=
  mkWrite b [] (AddrPortFrom (Addr4 0x0a000001) 53) false.

Lemma sendUDPGSO_delivers_witness :
  exists bs, sendUDPGSO (fun _ => None) (demo_write <$> [[1; 2]; [3; 4]; [5]]) = (3, None, bs) /\
    concat (kernel_segments 2 <$> bs) = [[1; 2]; [3; 4]; [5]] /\
    Forall (fun b => len b <= gsoScratchBytes /\ len (kernel_segments 2 b) <= gsoMaxSegments) bs.
Proof.
  refine (_ (sendUDPGSO_delivers (fun _ => None) true (demo_write <$> [[1; 2]; [3; 4]; [5]]) 2 _ _ _ _ _));
    [intros H; exact H | reflexivity | reflexivity | by repeat constructor | by_decide | by repeat constructor].
Defined.

(** Two batches that [gsoEligible] accepts but UDP_SEGMENT does not carry.
    With an empty last datagram [sendUDPGSO] reports two datagrams sent while
    the kernel emits one; and 64 datagrams of 1024 bytes are packed into one
    super-datagram of 65536 bytes, more than the 65507 a UDP packet holds. *)
Theorem sendUDPGSO_edge_cases :
  gsoEligible true (demo_write <$> [[1; 2]; []]) = Some 2 /\
  sendUDPGSO (fun _ => None) (demo_write <$> [[1; 2]; []]) = (2, None, [[1; 2]]) /\
  kernel_segments 2 [1; 2] = [[1; 2]] /\
  gsoEligible true (demo_write <$> replicate 64 (replicate 1024 7)) = Some 1024 /\
  (len <$> (sendUDPGSO (fun _ => None) (demo_write <$> replicate 64 (replicate 1024 7))).2)
    = [65536].
Proof. vm_compute. done. Qed.

(** *** What leaves the relay *)

(** The datagrams that leave a socket with a batch: the kernel's segments of the
    super-datagrams it took, or the messages it took. *)
Definition emitted (sd : batchSend) : list (bytes * AddrPort) :=
  match bs_gsoSize sd, bs_batch sd with
  | Some size, first :: _ =>
      (fun b => (b, wp_addr first)) <$> concat (kernel_segments size <$> bs_super sd)
  | Some _, [] => []
  | None, batch => (fun w => (wp_buffer w, wp_addr w)) <$> take (Z.to_nat (bs_written sd)) batch
  end.

(** A kernel that takes every datagram of a batch, and the datagrams UDP_SEGMENT carries. *)
Definition takes (k : kernelIO) (batch : list udpWritePacket) : Prop :=
  (forall n, gsoResult k n = None) /\ mmsgResult k batch = (len batch, None).
Definition carriable (w : udpWritePacket) : Prop :=
  wp_buffer w <> [] /\ len (wp_buffer w) <= gsoScratchBytes /\ sockaddrFromAddrPort (wp_addr w) = true.
#[export] Instance carriable_dec w : Decision (carriable w).
Proof. unfold carriable. apply _. Defined.

Lemma gsoUniform_addr dst size rest :
  gsoUniform dst size rest = true -> Forall (fun w => wp_addr w = dst) rest.
Proof.
  induction rest as [|p rest IH]; [constructor|]. cbn [gsoUniform]. case_bool_decide as E; [|done].
  cbn [negb]. destruct rest as [|q rest]; [by repeat constructor|]. case_one; [done|]. intros H.
  constructor; [done | auto].
Qed.

Lemma gsoEligible_spec enabled first rest size :
  gsoEligible enabled (first :: rest) = Some size ->
  size = len (wp_buffer first) /\ Forall (fun w => wp_addr w = wp_addr first) (first :: rest).
Proof.
  cbn [gsoEligible]. case_one; [done|]. case_one; [done|]. case_one; [|done]. intros [= <-].
  split; [done|]. constructor; [done|]. by eapply gsoUniform_addr.
Qed.

(** A send that the kernel takes emits exactly its batch. *)
Lemma sendBatch_emits s k gso batch :
  takes k batch -> (gso = true -> Forall carriable batch) ->
  emitted (sendBatch s k gso batch).2 = (fun w => (wp_buffer w, wp_addr w)) <$> batch.
Proof.
  intros [Hg Hm] Hc. unfold sendBatch. destruct (gsoEligible gso batch) as [size|] eqn:Eg.
  - destruct batch as [|first rest]; [done|]. pose proof (gsoEligible_spec _ _ _ _ Eg) as [-> Ha].
    assert (gso = true) as Hgso by (by destruct gso). specialize (Hc Hgso).
    destruct (sendUDPGSO_delivers (gsoResult k) gso (first :: rest) (len (wp_buffer first)) Hg Eg)
      as (bs & -> & Hs & _).
    + eapply Forall_impl; [exact Hc|]. by intros w (? & _).
    + apply Forall_cons in Hc as [(_ & ? & _) _]. done.
    + eapply Forall_impl; [exact Hc|]. by intros w (_ & _ & ?).
    + cbn [emitted snd bs_gsoSize bs_batch bs_super]. rewrite Hs, <- list_fmap_compose.
      apply list_fmap_ext. intros i w Hw. cbn. f_equal. symmetry. revert w Hw.
      by apply (Forall_lookup (fun w => wp_addr w = wp_addr first)).
  - rewrite Hm. cbn [emitted snd bs_gsoSize bs_batch bs_written]. unfold len. by rewrite Nat2Z.id, take_ge by lia.
Qed.

(** The socket of a datagram, and the datagrams of a round for a socket. *)
Definition socket_of (a : association) (w : udpWritePacket) : outSocket :=
  if on_fallback a w then fallbackOutbound else preferredOutbound.
Definition sent_on (a : association) (s : outSocket) (fs : list fate) : list udpWritePacket :=
  filter (fun w => socket_of a w = s) (omap forwarded fs).

Lemma sent_on_filter a fs :
  sent_on a preferredOutbound fs = filter (fun w => on_fallback a w = false) (omap forwarded fs) /\
  sent_on a fallbackOutbound fs = filter (fun w => on_fallback a w = true) (omap forwarded fs).
Proof. split; apply list_filter_iff; intros w; unfold socket_of; by destruct (on_fallback a w). Qed.

Lemma flushed_emits a s s' k fs :
  takes k (sent_on a s fs) -> (as_gso a = true -> Forall carriable (sent_on a s fs)) ->
  concat (emitted <$> filter (fun sd => bs_socket sd = s') (flushed s k (as_gso a) (sent_on a s fs)))
  = if decide (s' = s) then (fun w => (wp_buffer w, wp_addr w)) <$> sent_on a s fs else [].
Proof.
  intros Ht Hc. pose proof (sendBatch_emits s k (as_gso a) _ Ht Hc) as He.
  unfold flushed. destruct (sent_on a s fs) as [|w l] eqn:E; [by case_decide|].
  assert (bs_socket (sendBatch s k (as_gso a) (w :: l)).2 = s) as Hs.
  { unfold sendBatch. destruct (gsoEligible _ _); [by destruct (sendUDPGSO _ _) as [[] ?]|].
    by destruct (mmsgResult _ _). }
  rewrite filter_cons, Hs. case_decide; case_decide; try congruence; cbn; [|done].
  rewrite app_nil_r. exact He.
Qed.

(** The socket the other flush goes to. *)
Lemma flushed_other s s' k gso batch :
  s <> s' -> filter (fun sd => bs_socket sd = s') (flushed s k gso batch) = [].
Proof.
  intros Hne. unfold flushed, sendBatch. destruct batch as [|w l]; [done|].
  destruct (gsoEligible _ _); [destruct (sendUDPGSO _ _) as [[] ?]|destruct (mmsgResult _ _)];
    by rewrite filter_cons_False.
Qed.

(** C3: The relay forwards exactly what it should. Whatever batch of client datagrams is
    read, whatever the sends do, and as long as the budget has a token for each batch
    buffer read, the round returns, and each datagram has one of four fates. It is
    forwarded if it was read whole, is an unfragmented SOCKS5 relay packet from the
    authorized address and has a target; it is a job for the send workers if all this
    holds but its name has no cached reachable address; it is lost only as such a job, when
    the server is closing or the association's queue is full; else it is dropped. In order,
    the forwarded ones are handed to the kernel, each with exactly its payload and target,
    in one batch per socket, each on the socket of its family, and nothing else is; the
    jobs, in order, are what the queue grows by. When the kernel takes what it is given, the
    datagrams that leave each socket are exactly the forwarded ones (in segments too, when
    they are not empty and fit a super-datagram). *)
Theorem inbound_forwards_exactly a ps ctxErr io now y :
  Forall read_ok ps -> preferredBatch y = [] -> fallbackBatch y = [] ->
  tokens (rp_batchSlot <$> ps) <= tokens_in (ry_rt y) ->
  exists y' fs sent, inboundPump a (Ok ps) ctxErr io now y = Some (true, y') /\
    Forall2 (outcome a) ps fs /\
    handed y' = handed y ++ sent /\
    sent = flushed preferredOutbound (io preferredOutbound) (as_gso a) (sent_on a preferredOutbound fs) ++
           flushed fallbackOutbound (io fallbackOutbound) (as_gso a) (sent_on a fallbackOutbound fs) /\
    shard_jobs (as_id a) (ry_rt y') = shard_jobs (as_id a) (ry_rt y) ++ omap job_of fs /\
    (as_lifetime a <> None -> omap job_of fs = []) /\
    (existsb overflow fs = true -> as_lifetime a <> None \/ shard_full (as_id a) (ry_rt y')) /\
    (forall s, takes (io s) (sent_on a s fs) -> (as_gso a = true -> Forall carriable (sent_on a s fs)) ->
       concat (emitted <$> filter (fun sd => bs_socket sd = s) sent)
       = (fun w => (wp_buffer w, wp_addr w)) <$> sent_on a s fs).
Proof.
  intros Hok Hp Hf Hle.
  destruct (inboundPump_spec a ps ctxErr io now y Hok Hp Hf Hle) as (y' & fs & H1 & H2 & H3 & [] & _).
  destruct (sent_on_filter a fs) as [<- <-] in H3.
  exists y', fs. eexists. split_and!; [done|done|exact H3|reflexivity|done|done|done|].
  intros s Ht Hc. pose proof (flushed_emits a s s (io s) fs Ht Hc) as He. rewrite decide_True in He by done.
  rewrite filter_app. destruct s; [rewrite (flushed_other fallbackOutbound) by done; by rewrite app_nil_r|].
  by rewrite (flushed_other preferredOutbound).
Qed.

(** An association over an IPv4 and an IPv6 socket with segmentation, and a batch of six:
    two datagrams for 10.0.0.1:53, one for [::1]:53, one for a name without a cached
    address, one from a stranger and a fragment. *)
Definition demo_dual : association :=
  mkAssociation (mkOut true true false) (Addr4 0x7f000001) 1 (fun _ => None) true 4 None.
Definition demo_from (ip : Z) (b : bytes) : udpReadPacket :=
  mkRead b (len b) (AddrPortFrom (Addr4 ip) 4000) false false.
Definition demo_batch : list udpReadPacket :=
  let me := demo_from 0x7f000001 in
  [me [0; 0; 0; 1; 10; 0; 0; 1; 0; 53; 104; 105];
   me ([0; 0; 0; 4] ++ replicate 15 0 ++ [1; 0; 53; 106]);
   me [0; 0; 0; 1; 10; 0; 0; 1; 0; 53; 107];
   me [0; 0; 0; 3; 1; 97; 0; 53; 108];
   demo_from 0x0a000009 [0; 0; 0; 1; 10; 0; 0; 1; 0; 53; 109];
   me [0; 0; 1; 1; 10; 0; 0; 1; 0; 53; 110]].

Lemma inbound_forwards_exactly_witness :
  exists y' fs sent,
    inboundPump demo_dual (Ok demo_batch) None kernel_takes_all 7 demo_relay = Some (true, y') /\
    Forall2 (outcome demo_dual) demo_batch fs /\ handed y' = sent /\
    (bs_socket <$> sent) = [preferredOutbound; fallbackOutbound] /\
    (bs_gsoSize <$> sent) = [Some 2; None] /\
    concat (emitted <$> sent) = [([104; 105], AddrPortFrom (Addr4 0x0a000001) 53);
      ([107], AddrPortFrom (Addr4 0x0a000001) 53); ([106], AddrPortFrom (Addr6 1 []) 53)] /\
    sent = flushed preferredOutbound (kernel_takes_all preferredOutbound) true
             (sent_on demo_dual preferredOutbound fs) ++
           flushed fallbackOutbound (kernel_takes_all fallbackOutbound) true
             (sent_on demo_dual fallbackOutbound fs) /\
    (fun j => (job_host j, job_port j, ip_payload (job_packet j))) <$> omap job_of fs
      = [([97], 53, [108])].
Proof.
  destruct (inbound_forwards_exactly demo_dual demo_batch None kernel_takes_all 7 demo_relay)
    as (y' & fs & sent & E & Hfs & Hh & Es & Hj & _ & _ & _);
    [by_decide | reflexivity | reflexivity | cbn; unfold tokens, sumZ; cbn; lia |].
  exists y', fs, sent. split; [exact E|]. split; [exact Hfs|]. split; [exact Hh|].
  assert (forall A (f : relay -> A) d, from_option (fun r : bool * relay => f r.2) d
    (inboundPump demo_dual (Ok demo_batch) None kernel_takes_all 7 demo_relay) = f y') as Hv
    by (intros; rewrite E; reflexivity).
  change (handed y' = sent) in Hh.
  change (shard_jobs 1 (ry_rt y') = omap job_of fs) in Hj. rewrite <- Hj.
  rewrite <- (Hv _ (fun y => shard_jobs 1 (ry_rt y)) []).
  assert (from_option (fun r : bool * relay => handed r.2) []
    (inboundPump demo_dual (Ok demo_batch) None kernel_takes_all 7 demo_relay) = sent) as Hs
    by (by rewrite Hv).
  split; [by rewrite <- Hs; vm_compute|]. split; [by rewrite <- Hs; vm_compute|].
  split; [by rewrite <- Hs; vm_compute|]. split; [exact Es|]. by vm_compute.
Defined.

(** The packets of a coalesced read: the segment list that [readGRO] builds. *)
Section GRO.
Context (data : bytes) (size : Z) (Hs : 0 < size < len data).
Let full := len data / size.
Let rem := len data `mod` size.
Let count := if 0 <? rem then full + 1 else full.

Lemma gro_count i : 0 <= i -> i < count <-> i * size < len data.
Proof using Hs.
  intros Hi. pose proof (Z.div_mod (len data) size ltac:(lia)) as E. fold full rem in E.
  pose proof (Z.mod_pos_bound (len data) size ltac:(lia)) as Hr. fold rem in Hr.
  unfold count. destruct (Z.ltb_spec 0 rem); nia.
Qed.

Lemma gro_segment i :
  0 <= i -> i * size < len data ->
  slice data (i * size) (i * size + (if i =? full then rem else size))
  = slice data (i * size) (Z.min (len data) (i * size + size)).
Proof using Hs.
  intros Hi Hl. pose proof (Z.div_mod (len data) size ltac:(lia)) as E. fold full rem in E.
  pose proof (Z.mod_pos_bound (len data) size ltac:(lia)) as Hr. fold rem in Hr.
  f_equal. destruct (Z.eqb_spec i full) as [->|]; [lia|].
  assert (i < full) by nia. rewrite Z.min_r; [done | nia].
Qed.

Lemma gro_packets m :
  1 <= m <= count ->
  slice data 0 size ::
    ((fun i => slice data (i * size) (i * size + (if i =? full then rem else size))) <$> seqZ 1 (m - 1))
  = take (Z.to_nat m) (kernel_segments size data).
Proof using Hs.
  intros Hm. apply list_eq. intros j. destruct (decide (Z.of_nat j < m)) as [Hj|Hj].
  - rewrite lookup_take, kernel_segments_lookup by lia. rewrite decide_True by lia.
    assert (Z.of_nat j * size < len data) as Hl by (apply gro_count; lia).
    rewrite (proj2 (Z.ltb_lt _ _)) by done. destruct j as [|j].
    + cbn [lookup list_lookup]. f_equal. change (Z.of_nat 0 * size) with 0.
      rewrite Z.add_0_l, Z.min_r by lia. done.
    + change ((?x :: ?l) !! S j) with (l !! j).
      rewrite list_lookup_fmap, (proj2 (lookup_seqZ 1 (m - 1) j (1 + Z.of_nat j))) by
        (split; [reflexivity | lia]).
      cbn [fmap option_fmap option_map]. f_equal.
      replace (1 + Z.of_nat j) with (Z.of_nat (S j)) by lia. apply gro_segment; lia.
  - rewrite (lookup_ge_None_2 (take _ _)) by (rewrite length_take; lia).
    apply lookup_ge_None_2. cbn [length]. rewrite length_fmap, length_seqZ. lia.
Qed.

Lemma gro_length : Z.of_nat (length (kernel_segments size data)) <= count.
Proof using Hs.
  assert (0 <= count) as Hc by (apply Z.lt_le_incl, gro_count; lia).
  assert (kernel_segments size data !! Z.to_nat count = None) as H%lookup_ge_None; [|lia].
  rewrite kernel_segments_lookup, Z2Nat.id by lia.
  rewrite (proj2 (Z.ltb_ge _ _)); [done|]. pose proof (gro_count count Hc). lia.
Qed.
End GRO.

(** A coalesced UDP_GRO read is split back into the datagrams it was made
    of: whenever the reported segment size is within the limit and smaller than
    the read, the packets are the kernel's segments in order (the first 64 of
    them), none marked truncated and none longer than the limit; otherwise the
    read is one packet, marked truncated exactly when it is longer than the
    limit. *)
Theorem readGRO_splits data size limit :
  (0 < size <= limit -> size < len data ->
   let '(ps, _) := readGRO data false size limit in
   fst <$> ps = take 64 (kernel_segments size data) /\
   Forall (fun p => snd p = false /\ len (fst p) <= limit) ps) /\
  (size <= 0 \/ limit < size \/ len data <= size ->
   readGRO data false size limit = ([(data, limit <? len data)], [])).
Proof.
  split.
  - intros Hs Hl. unfold readGRO.
    rewrite (proj2 (Z.leb_gt size 0)), (proj2 (Z.ltb_ge limit size)), (proj2 (Z.leb_gt (len data) size))
      by lia. cbn [orb].
    set (full := len data / size). set (rem := len data `mod` size).
    set (count := if 0 <? rem then full + 1 else full).
    assert (1 <= count) as Hc.
    { pose proof (gro_count data size ltac:(lia) 0 ltac:(lia)) as H. fold full rem count in H. lia. }
    pose proof (gro_packets data size ltac:(lia)) as Hp. cbv zeta in Hp. fold full rem count in Hp.
    set (f := fun i => slice data (i * size) (i * size + (if i =? full then rem else size))) in *.
    set (m := if groMaxSegments <? count then groMaxSegments else count).
    assert (1 <= m <= count) as Hm by (subst m; unfold groMaxSegments; case_one; zbool; lia).
    assert (take (Z.to_nat m) (kernel_segments size data) = take 64 (kernel_segments size data)) as Et.
    { pose proof (gro_length data size ltac:(lia)) as Hgl. cbv zeta in Hgl. fold full rem count in Hgl.
      subst m. unfold groMaxSegments. case_one; zbool; [done|]. rewrite !take_ge by lia. done. }
    assert (exists c, (let '(segments, c) := if groMaxSegments <? count
        then (groMaxSegments, [groTruncatedReads]) else (count, []) in
      ((slice data 0 size, false) :: ((fun i => (f i, false)) <$> seqZ 1 (segments - 1)),
       c ++ [groCoalescedReads]))
      = ((fun x => (x, false)) <$> (slice data 0 size :: (f <$> seqZ 1 (m - 1))), c)) as (c & E).
    { rewrite fmap_cons, <- list_fmap_compose. subst m. case_one; by eexists. }
    unfold f in E. cbv zeta. rewrite E. fold f. rewrite (Hp m Hm), Et. split.
    + rewrite <- list_fmap_compose. apply list_fmap_id.
    + apply Forall_fmap, Forall_take, Forall_lookup. intros i x Hx. split; [done|]. cbn [fst].
      rewrite kernel_segments_lookup in Hx by lia. case_one_in Hx; [|done]. zbool.
      injection Hx as <-. rewrite len_slice by lia. lia.
  - intros H. unfold readGRO.
    destruct (Z.leb_spec size 0), (Z.ltb_spec limit size), (Z.leb_spec (len data) size);
      cbn [orb]; try done. lia.
Qed.

Lemma readGRO_splits_witness :
  let '(ps, _) := readGRO [1; 2; 3; 4; 5] false 2 1500 in
  fst <$> ps = take 64 (kernel_segments 2 [1; 2; 3; 4; 5]) /\
  Forall (fun p => snd p = false /\ len (fst p) <= 1500) ps.
Proof. apply readGRO_splits; [lia | reflexivity]. Defined.
