(* ===== verification/UdpIo.v ===== *)
(** * Batched datagram I/O ([udp_io_linux.go], [udp_io_other.go])

    The Linux reader takes one datagram with a blocking read and drains more with
    one non-blocking [recvmmsg] into buffers that it has batch slots for; the writer
    sends a batch with [sendmmsg], in a loop. The socket is the queue of datagrams
    that have arrived; a system call that can fail has its error as an argument. *)

From Stdlib Require Import ZArith Lia.
From stdpp Require Import base tactics numbers strings sets list.
From S2P Require Import Prelude.
From S2P Require Import Netip.
From S2P Require Import Proto.
From S2P Require Import Ext.
From S2P Require Import Uint128.
From S2P Require Import SourceIP.
From S2P Require Import Config.
From S2P Require Import DnsCache.
From S2P Require Import UdpRuntime.
From S2P Require Import UdpRelay.

(** ** Receiving *)

(** A datagram in the socket's queue, and its sender. *)
Record datagram := mkDatagram { dg_data : bytes; dg_addr : AddrPort }.

(** The kernel copies what fits and reports [MSG_TRUNC] for the rest. *)
Definition recvmsg (size : Z) (d : datagram) : bytes * bool :=
  (take (Z.to_nat size) (dg_data d), size <? len (dg_data d)).

(** [linuxUDPBatchReader]: what it keeps between reads, and its constants. *)
Record linuxUDPBatchReader := mkReader {
  rd_offset : Z;
  rd_limit : Z;
  rd_gro : bool;
  rd_batchDisabled : bool
}.

Definition newUDPBatchReader (cfg : UDPConfig) (groSupported : bool) (enableGRO : option error)
    (offset limit : Z) : linuxUDPBatchReader :=
  mkReader offset limit (GRO cfg && groSupported && bool_decide (enableGRO = None)) false.

(** A pooled buffer with [data] at the read offset. *)
Definition filled (rt : udpRuntime) (offset : Z) (data : bytes) : bytes :=
  replicate (Z.to_nat offset) 0 ++ data ++ replicate (Z.to_nat (bufferLen rt - offset - len data)) 0.

Definition read_packet (rt : udpRuntime) (r : linuxUDPBatchReader) (batchSlot : bool) (d : datagram)
    : udpReadPacket :=
  let '(data, trunc) := recvmsg (rd_limit r + 1) d in
  mkRead (filled rt (rd_offset r) data) (len data) (dg_addr d) (trunc || (rd_limit r <? len data)) batchSlot.

(** The loop that acquires slots for the extra buffers, at most [n]. *)
Fixpoint acquire_slots (n : nat) (rt : udpRuntime) : nat * udpRuntime :=
  match n with
  | O => (O, rt)
  | S n =>
      match tryAcquireBatchBuffer rt with
      | (false, rt) => (O, rt)
      | (true, rt) => let '(k, rt) := acquire_slots n rt in (S k, rt)
      end
  end.

Fixpoint release_slots (n : nat) (rt : udpRuntime) : option udpRuntime :=
  match n with
  | O => Some rt
  | S n => rt ← releaseBuffer true rt; release_slots n rt
  end.

Definition EAGAIN : error := Errno 11.

(** [ReadBatch] of up to [extra] messages with [MSG_DONTWAIT]. *)
Definition ReadBatch (err : option error) (extra : nat) (q : list datagram) : result (list datagram) :=
  match err with
  | Some e => Err e
  | None => match q with [] => Err EAGAIN | _ => Ok (take extra q) end
  end.

(** [readBatch]; [None] while the blocking read waits. The result, the reader and
    runtime afterwards, and what is left in the queue. *)
Definition readBatch (r : linuxUDPBatchReader) (readErr drainErr : option error) (q : list datagram)
    (rt : udpRuntime) : option (result (list udpReadPacket) * linuxUDPBatchReader * udpRuntime * list datagram) :=
  match readErr, q with
  | Some err, _ => Some (Err err, r, rt, q)
  | None, [] => None
  | None, d :: q =>
      let first := read_packet rt r false d in
      if BatchSize (ur_config rt) =? 1 then Some (Ok [first], r, rt, q)
      else if rd_batchDisabled r then Some (Ok [first], r, rt, q)
      else
        let '(extraBuffers, rt1) := acquire_slots (Z.to_nat (BatchSize (ur_config rt) - 1)) rt in
        if (extraBuffers =? 0)%nat then Some (Ok [first], r, rt1, q)
        else
          match ReadBatch drainErr extraBuffers q with
          | Err err =>
              rt2 ← release_slots extraBuffers rt1;
              if errors_Is err EAGAIN then Some (Ok [first], r, rt2, q)
              else Some (Ok [first], mkReader (rd_offset r) (rd_limit r) (rd_gro r) true,
                         set_metrics (metrics_Add batchFallbacks 1) rt2, q)
          | Ok drained =>
              rt2 ← release_slots (extraBuffers - length drained) rt1;
              Some (Ok (first :: (read_packet rt r true <$> drained)), r, rt2, drop (length drained) q)
          end
  end.

(** [parseGROSize] over the control messages of a read ([unix.ParseSocketControlMessage]
    splits the buffer): the first UDP_GRO message with enough data, little-endian. *)
Record controlMessage := mkControlMessage { cm_Level : Z; cm_Type : Z; cm_Data : bytes }.

Definition IPPROTO_UDP : Z := 17.
Definition UDP_GRO : Z := 104.
Definition le_value (b : bytes) : Z := be_value (rev b).

Fixpoint groSize (messages : list controlMessage) : Z :=
  match messages with
  | [] => 0
  | m :: messages =>
      if negb (cm_Level m =? IPPROTO_UDP) || negb (cm_Type m =? UDP_GRO) then groSize messages
      else if 4 <=? len (cm_Data m) then le_value (take 4 (cm_Data m))
      else if 2 <=? len (cm_Data m) then le_value (take 2 (cm_Data m))
      else groSize messages
  end.

Definition parseGROSize (oob : bytes) (parsed : result (list controlMessage)) : Z :=
  if len oob =? 0 then 0
  else match parsed with Err _ => 0 | Ok messages => groSize messages end.

(** [readGRO] as a read of the socket: [oobSize] is the segment size the kernel
    reports for the coalesced datagram. *)
Definition readGRO_packets (r : linuxUDPBatchReader) (oobSize : Z) (d : datagram) (rt : udpRuntime)
    : list udpReadPacket :=
  let '(data, trunc) := recvmsg (bufferLen rt - rd_offset r) d in
  (fun p => mkRead (filled rt (rd_offset r) (fst p)) (len (fst p)) (dg_addr d) (snd p) false)
    <$> fst (readGRO data trunc oobSize (rd_limit r)).

(** One blocking read on a socket with receive offload: the packets, and the counters of a
    coalesced read. *)
Definition groRead (r : linuxUDPBatchReader) (readErr : option error) (oobSize : Z) (q : list datagram)
    (rt : udpRuntime) : option (result (list udpReadPacket) * linuxUDPBatchReader * udpRuntime * list datagram) :=
  match readErr, q with
  | Some err, _ => Some (Err err, r, rt, q)
  | None, [] => None
  | None, d :: q =>
      let '(data, trunc) := recvmsg (bufferLen rt - rd_offset r) d in
      let counters := snd (readGRO data trunc oobSize (rd_limit r)) in
      Some (Ok (readGRO_packets r oobSize d rt), r, make_adds ((fun c => (c, 1)) <$> counters) rt, q)
  end.

(** [linuxUDPBatchReader.Read]. *)
Definition linux_Read (r : linuxUDPBatchReader) (readErr drainErr : option error) (oobSize : Z)
    (q : list datagram) (rt : udpRuntime)
    : option (result (list udpReadPacket) * linuxUDPBatchReader * udpRuntime * list datagram) :=
  if rd_gro r then groRead r readErr oobSize q rt else readBatch r readErr drainErr q rt.

(** The reader of other systems: one blocking read. [err] and [addr] are what [ReadMsgUDP]
    returned besides the data ([addr] may be nil), [errTruncated] is [udpReadErrorTruncated],
    [flagTruncated] is [udpMessageTruncated]. *)
Definition generic_Read (offset limit : Z) (err : option error) (addr : option AddrPort)
    (errTruncated flagTruncated : bool) (d : datagram) (rt : udpRuntime) : result (list udpReadPacket) :=
  let packet :=
    let '(data, _) := recvmsg (limit + 1) d in
    let addrPort := match addr with Some addr => addr | None => AddrPortZero end in
    mkRead (filled rt offset data) (len data) addrPort (errTruncated || flagTruncated || (limit <? len data)) false in
  match err with
  | Some e => if negb errTruncated then Err e else Ok [packet]
  | None => Ok [packet]
  end.

(** ** Sending *)

(** A message for [sendmmsg]: the payload and the destination's bytes and port. *)
Record message := mkMessage { ms_buffer : bytes; ms_addr : result (bytes * Z) }.

(** The loop of [writeIPv4Messages] and [writeIPv6Messages]; [wb k ms] is what the
    [k]-th [WriteBatch] returns for the messages [ms]. The total, the error, and
    what went out. *)
Fixpoint writeMessages (fuel k : nat) (wb : nat -> list message -> Z * option error) (messages : list message)
    (total : Z) (out : list message) : option (Z * option error * list message) :=
  match fuel with
  | O => None
  | S fuel =>
      if total <? len messages then
        let rest := slice_from messages total in
        let '(n, err) := wb k rest in
        let total := total + n in
        let out := out ++ slice rest 0 n in
        match err with
        | Some e => Some (total, Some e, out)
        | None =>
            if n =? 0 then Some (total, None, out)
            else writeMessages fuel (S k) wb messages total out
        end
      else Some (total, None, out)
  end.

(** [linuxUDPBatchWriter.Write], for a writer of [batchSize] messages: slicing the
    message array beyond its capacity panics. *)
Definition batch_Write (batchSize : Z) (wb : nat -> list message -> Z * option error)
    (packets : list udpWritePacket) : result (option (Z * option error * list message)) :=
  if len packets =? 0 then Ok (Some (0, None, []))
  else if batchSize <? len packets then Err (Panic "slice bounds out of range")
  else
    let messages := (fun p => mkMessage (wp_buffer p) (setUDPAddr (wp_addr p))) <$> packets in
    Ok (writeMessages (S (length messages)) 0 wb messages 0 []).

(** The writer of other systems: one send per packet; [werr k] is the error of the
    [k]-th send. *)
Fixpoint generic_Write (k : nat) (werr : nat -> option error) (packets : list udpWritePacket)
    : Z * option error * list message :=
  match packets with
  | [] => (Z.of_nat k, None, [])
  | p :: packets =>
      match werr k with
      | Some e => (Z.of_nat k, Some e, [])
      | None =>
          let '(n, e, out) := generic_Write (S k) werr packets in
          (n, e, mkMessage (wp_buffer p) (setUDPAddr (wp_addr p)) :: out)
      end
  end.

(** ** Slots *)

(** The batch channel has room for the tokens in it. *)
Definition slots_ok (rt : udpRuntime) : Prop :=
  match batchSlots rt with Some (n, cap) => 0 <= n <= cap | None => True end.

(** [rt'] is [rt] with [k] more tokens (and other counters). *)
Definition more_tokens (k : Z) (rt rt' : udpRuntime) : Prop :=
  ur_config rt' = ur_config rt /\ slots_ok rt' /\ tokens_in rt' = tokens_in rt + k.

Lemma acquire_slots_spec n : forall rt k rt',
  slots_ok rt -> acquire_slots n rt = (k, rt') ->
  (k <= n)%nat /\ more_tokens (Z.of_nat k) rt rt' /\ (k <> 0%nat -> batchSlots rt' <> None).
Proof.
  induction n as [|n IH]; intros rt k rt' Hok; cbn [acquire_slots].
  - intros [= <- <-]. unfold more_tokens. split_and!; (done || lia).
  - unfold tryAcquireBatchBuffer, slots_ok, more_tokens, tokens_in in *.
    destruct (batchSlots rt) as [[m cap]|] eqn:E.
    + case_one.
      * destruct (acquire_slots n _) as [k1 rt1] eqn:Ea. intros [= <- <-]. zbool.
        apply IH in Ea as (H1 & (H2 & H3 & H4) & H5); [|cbn; lia]. cbn in H4.
        split_and!; [lia|by rewrite H2|done|lia|]. intros _ E2. rewrite E2 in H4. cbn in Hok. lia.
      * intros [= <- <-]. split_and!; [lia|done|by unfold slots_ok; rewrite E|rewrite E; lia|done].
    + intros [= <- <-]. split_and!; [lia|done|by unfold slots_ok; rewrite E|rewrite E; lia|done].
Qed.

Lemma release_slots_spec n : forall rt,
  slots_ok rt -> Z.of_nat n <= tokens_in rt -> (n <> 0%nat -> batchSlots rt <> None) ->
  exists rt', release_slots n rt = Some rt' /\ more_tokens (- Z.of_nat n) rt rt'.
Proof.
  induction n as [|n IH]; intros rt Hok Hn Hs; cbn [release_slots].
  - exists rt. unfold more_tokens. split_and!; (done || lia).
  - unfold releaseBuffer, slots_ok, more_tokens, tokens_in in *.
    destruct (batchSlots rt) as [[m cap]|] eqn:E; [|by destruct Hs].
    rewrite (proj2 (Z.ltb_lt 0 m)) by lia. cbn [mbind option_bind].
    destruct (IH (set_batch (Some (m - 1, cap)) rt)) as (rt' & H1 & H2 & H3 & H4); [cbn; lia|cbn; lia|done|].
    exists rt'. cbn in H4. split_and!; (done || lia).
Qed.

(** The packet of a datagram: all of it when it fits, and marked truncated exactly
    when it is longer than the limit. *)
Lemma read_packet_spec rt r slot d :
  0 <= rd_limit r -> 0 <= rd_offset r ->
  let p := read_packet rt r slot d in
  rp_addr p = dg_addr d /\ rp_batchSlot p = slot /\
  (rp_truncated p = true <-> rd_limit r < len (dg_data d)) /\
  (rp_truncated p = false ->
     slice (rp_buffer p) (rd_offset r) (rd_offset r + rp_n p) = dg_data d).
Proof.
  intros Hl Ho. unfold read_packet, recvmsg. cbn.
  set (data := take (Z.to_nat (rd_limit r + 1)) (dg_data d)).
  assert (len data = Z.min (rd_limit r + 1) (len (dg_data d))) as Hd.
  { unfold data, len. rewrite length_take. lia. }
  split_and!; try done.
  - rewrite orb_true_iff, !Z.ltb_lt. lia.
  - intros H. zbool. assert (data = dg_data d) as -> by (apply take_ge; unfold len in *; lia).
    unfold filled. apply slice_app; [|lia]. unfold len. rewrite length_replicate. lia.
Qed.

Lemma Forall2_fmap_self {A B} (R : B -> A -> Prop) (f : A -> B) l : (forall x, R (f x) x) -> Forall2 R (f <$> l) l.
Proof. intros H. induction l; constructor; auto. Qed.

Lemma slots_of_packets rt r d l :
  tokens (rp_batchSlot <$> (read_packet rt r false d :: (read_packet rt r true <$> l))) = len l.
Proof.
  change (0 + tokens (rp_batchSlot <$> (read_packet rt r true <$> l)) = len l). rewrite Z.add_0_l.
  induction l as [|x l IH]; [done|]. rewrite len_cons, <- IH, !fmap_cons. apply tokens_cons.
Qed.

Lemma take_length_take {A} k (l : list A) : take (length (take k l)) l = take k l.
Proof.
  rewrite length_take. destruct (Nat.le_ge_cases k (length l)); [by rewrite Nat.min_l|].
  by rewrite Nat.min_r, !take_ge by lia.
Qed.

(** ** Properties *)

(** A packet delivers a datagram: its source, whether it was cut, and its bytes. *)
Definition delivers (r : linuxUDPBatchReader) (p : udpReadPacket) (d : datagram) : Prop :=
  rp_addr p = dg_addr d /\ (rp_truncated p = true <-> rd_limit r < len (dg_data d)) /\
  (rp_truncated p = false -> slice (rp_buffer p) (rd_offset r) (rd_offset r + rp_n p) = dg_data d).

Lemma read_packet_delivers rt r slot d :
  0 <= rd_limit r -> 0 <= rd_offset r -> delivers r (read_packet rt r slot d) d.
Proof. intros Hl Ho. pose proof (read_packet_spec rt r slot d Hl Ho) as (? & _ & ? & ?). done. Qed.

(** The reader after a read: unchanged, or switched to single reads by a failed drain. *)
Definition reader_after (r : linuxUDPBatchReader) (drainErr : option error) (r' : linuxUDPBatchReader) : Prop :=
  r' = r \/ exists e, drainErr = Some e /\ errors_Is e EAGAIN = false /\
    r' = mkReader (rd_offset r) (rd_limit r) (rd_gro r) true.

(** The packets [ps] are, by [R], the first datagrams of the queue [q], and the slots
    they keep are counted. *)
Definition batch_of (R : udpReadPacket -> datagram -> Prop) (q : list datagram) (rt : udpRuntime)
    (ps : list udpReadPacket) (rt' : udpRuntime) (q' : list datagram) : Prop :=
  ps <> [] /\ len ps <= BatchSize (ur_config rt) /\ q' = drop (length ps) q /\
  Forall2 R ps (take (length ps) q) /\ more_tokens (tokens (rp_batchSlot <$> ps)) rt rt'.

Lemma batch_of_mono (R R' : udpReadPacket -> datagram -> Prop) q rt ps rt' q' :
  (forall p d, R p d -> R' p d) -> batch_of R q rt ps rt' q' -> batch_of R' q rt ps rt' q'.
Proof. intros HR (? & ? & ? & HF & ?). split_and!; try done. by eapply Forall2_impl. Qed.

(** A packet as the reader makes it of a datagram. *)
Definition read_from (rt : udpRuntime) (r : linuxUDPBatchReader) (p : udpReadPacket) (d : datagram) : Prop :=
  exists slot, p = read_packet rt r slot d.

Lemma batch_of_one r d q rt rt' :
  1 <= BatchSize (ur_config rt) -> more_tokens 0 rt rt' ->
  batch_of (read_from rt r) (d :: q) rt [read_packet rt r false d] rt' q.
Proof. intros Hb Hm. split_and!; try done. constructor; [by exists false|constructor]. Qed.

(** What is left of [k] acquired slots when [j] of them are released. *)
Lemma release_acquired rt rt1 k j :
  slots_ok rt -> more_tokens (Z.of_nat k) rt rt1 -> (k <> 0%nat -> batchSlots rt1 <> None) ->
  k <> 0%nat -> (j <= k)%nat ->
  exists rt2, release_slots j rt1 = Some rt2 /\ more_tokens (Z.of_nat k - Z.of_nat j) rt rt2.
Proof.
  intros Hok (Hc & Hok1 & Ht) Hs Hk Hj.
  assert (0 <= tokens_in rt) by (unfold tokens_in, slots_ok in *; destruct (batchSlots rt) as [[]|]; lia).
  destruct (release_slots_spec j rt1) as (rt2 & H1 & H2 & H3 & H4); [done|lia|auto|].
  exists rt2. unfold more_tokens. split_and!; [done|congruence|done|lia].
Qed.

Lemma readBatch_spec r drainErr d q rt :
  1 <= BatchSize (ur_config rt) -> slots_ok rt ->
  exists ps r' rt' q',
    readBatch r None drainErr (d :: q) rt = Some (Ok ps, r', rt', q') /\
    batch_of (read_from rt r) (d :: q) rt ps rt' q' /\ reader_after r drainErr r'.
Proof.
  intros Hb Hok.
  assert (forall rt' r', more_tokens 0 rt rt' -> reader_after r drainErr r' ->
    exists ps r'' rt'' q', Some (Ok [read_packet rt r false d], r', rt', q) = Some (Ok ps, r'', rt'', q') /\
    batch_of (read_from rt r) (d :: q) rt ps rt'' q' /\ reader_after r drainErr r'') as Hone.
  { intros rt' r' Hm Hr. eexists _, r', rt', q. split; [done|]. split; [by apply batch_of_one|done]. }
  assert (reader_after r drainErr r) as Hsame by (by left).
  assert (more_tokens 0 rt rt) as H0 by (unfold more_tokens; split_and!; (done || lia)).
  unfold readBatch. case_one; [by apply Hone|]. case_one; [by apply Hone|].
  destruct (acquire_slots _ rt) as [k rt1] eqn:Ea. apply acquire_slots_spec in Ea as (Hk & Hm & Hs); [|done].
  destruct (Nat.eqb_spec k 0) as [->|Hk0]; [by apply Hone|].
  pose proof (release_acquired rt rt1 k) as Hrel.
  destruct (ReadBatch drainErr k q) as [drained|e] eqn:Er.
  - assert (drained = take k q) as Hdr by (unfold ReadBatch in Er; repeat case_one_in Er; congruence).
    assert (length drained <= k)%nat as Hlen by (subst; rewrite length_take; lia).
    destruct (Hrel (k - length drained)%nat) as (rt2 & -> & H2); auto with lia. cbn [mbind option_bind].
    replace (Z.of_nat k - Z.of_nat (k - length drained)) with (len drained) in H2 by (unfold len; lia).
    eexists _, _, _, _. split; [reflexivity|]. split; [|done]. unfold batch_of.
    rewrite slots_of_packets, len_cons. cbn [length drop take]. unfold len at 1. rewrite !length_fmap.
    split_and!; [done|lia|done| |done]. constructor; [by exists false|].
    rewrite Hdr, take_length_take. apply Forall2_fmap_self. intros x. by exists true.
  - destruct (Hrel k) as (rt2 & -> & H2); auto. cbn [mbind option_bind]. rewrite Z.sub_diag in H2.
    destruct (errors_Is e EAGAIN) eqn:Ee; [by apply Hone|]. apply Hone; [done|]. right.
    exists e. split_and!; try done. unfold ReadBatch in Er. repeat case_one_in Er; simplify_eq; done.
Qed.

(** A batch read delivers what arrived. Unless the blocking read waits or
    fails, [readBatch] returns a non-empty prefix of the queue, at most [BatchSize]
    datagrams, in order and without loss or duplication, each marked truncated
    exactly when it is longer than the limit and complete otherwise; the batch slots
    it keeps are those of the packets marked with one, also when the drain finds
    nothing or fails; a failed drain costs no datagram and switches the reader to
    single reads. *)
Theorem readBatch_exact r drainErr d q rt :
  0 <= rd_limit r -> 0 <= rd_offset r -> 1 <= BatchSize (ur_config rt) -> slots_ok rt ->
  exists ps r' rt' q',
    readBatch r None drainErr (d :: q) rt = Some (Ok ps, r', rt', q') /\
    batch_of (delivers r) (d :: q) rt ps rt' q' /\ reader_after r drainErr r'.
Proof.
  intros Hl Ho Hb Hok. destruct (readBatch_spec r drainErr d q rt Hb Hok) as (ps & r' & rt' & q' & H1 & H2 & H3).
  exists ps, r', rt', q'. split; [done|]. split; [|done]. eapply batch_of_mono; [|exact H2].
  intros p d' [slot ->]. by apply read_packet_delivers.
Qed.

Lemma readBatch_exact_witness :
  let r := mkReader 0 4 false false in
  let rt := newUDPRuntime (mkUDPConfig 512 4 8 1 0 0 0 0 0 false false) 10 in
  let dg b := mkDatagram b AddrPortZero in
  exists ps r' rt' q',
    readBatch r None None [dg [1; 2]; dg [3; 4; 5; 6; 7]; dg [8]; dg [9]; dg [10]] rt = Some (Ok ps, r', rt', q') /\
    len ps <= 4 /\ q' = drop (length ps) [dg [1; 2]; dg [3; 4; 5; 6; 7]; dg [8]; dg [9]; dg [10]] /\
    more_tokens (tokens (rp_batchSlot <$> ps)) rt rt'.
Proof.
  intros r rt dg.
  destruct (readBatch_exact r None (dg [1; 2]) [dg [3; 4; 5; 6; 7]; dg [8]; dg [9]; dg [10]] rt)
    as (ps & r' & rt' & q' & H1 & (_ & H2 & H3 & _ & H4) & _); [by_decide|by_decide|by_decide|split; by_decide|].
  exists ps, r', rt', q'. split; [exact H1|]. split; [exact H2|]. split; [exact H3|exact H4].
Defined.

(** ** Batch writes *)

(** [WriteBatch] sends some of the messages it is given; a failed call reports at
    most what it sent. *)
Definition WriteBatch_ok (wb : nat -> list message -> Z * option error) : Prop :=
  forall k ms, ms <> [] ->
    match wb k ms with
    | (n, None) => 0 <= n <= len ms
    | (n, Some _) => -1 <= n <= len ms
    end.

Lemma writeMessages_spec wb messages : WriteBatch_ok wb -> forall fuel k total out,
  0 <= total <= len messages -> len messages - total < Z.of_nat fuel ->
  out = slice messages 0 total ->
  exists total' err out', writeMessages fuel k wb messages total out = Some (total', err, out') /\
    out' = slice messages 0 (len out') /\ total' <= len out' /\ (err = None -> total' = len out').
Proof.
  intros Hwb. induction fuel as [|fuel IH]; intros k total out Ht Hf Hout; [lia|]. cbn [writeMessages].
  assert (forall n, 0 <= n <= len messages -> len (slice messages 0 n) = n) as Hslice.
  { intros n Hn. unfold slice, len in *. rewrite drop_0, length_take. lia. }
  assert (len out = total) as Hlo by (subst; apply Hslice; lia).
  destruct (Z.ltb_spec total (len messages)) as [Hlt|Hge].
  - set (rest := slice_from messages total).
    assert (len rest = len messages - total) as Hlr by (unfold rest, slice_from, len in *; rewrite length_drop; lia).
    assert (forall n, 0 <= n <= len rest -> out ++ slice rest 0 n = slice messages 0 (total + n)) as Happ.
    { intros n Hn. subst out. unfold rest, slice, slice_from. rewrite !drop_0, Z.sub_0_r, !Z.sub_0_r.
      rewrite Z2Nat.inj_add by lia. apply take_take_drop. }
    pose proof (Hwb k rest) as Hn. destruct (wb k rest) as [n err]. destruct err as [e|].
    + specialize (Hn ltac:(intros E; rewrite E, len_nil in Hlr; lia)).
      eexists _, _, _. split; [reflexivity|]. destruct (decide (n = -1)) as [->|Hne].
      * change (slice rest 0 (-1)) with (take 0 (drop 0 rest)). cbn [take]. rewrite app_nil_r.
        split_and!; [by rewrite Hlo|lia|done].
      * rewrite Happ by lia. rewrite Hslice by lia. split_and!; [done|lia|done].
    + specialize (Hn ltac:(intros E; rewrite E, len_nil in Hlr; lia)).
      destruct (Z.eqb_spec n 0) as [->|Hne].
      * eexists _, _, _. split; [reflexivity|]. rewrite Happ by lia. rewrite Hslice by lia. split_and!; [done|lia|done].
      * apply IH; [lia|lia|apply Happ; lia].
  - eexists _, _, _. split; [reflexivity|]. rewrite Hlo. split_and!; [done|lia|done].
Qed.

Lemma batch_Write_spec batchSize wb packets :
  WriteBatch_ok wb -> len packets <= batchSize ->
  exists total err out, batch_Write batchSize wb packets = Ok (Some (total, err, out)) /\
    out = (fun p => mkMessage (wp_buffer p) (setUDPAddr (wp_addr p))) <$> take (length out) packets /\
    total <= len out /\ (err = None -> total = len out).
Proof.
  intros Hwb Hb. unfold batch_Write. case_one; [by eexists _, _, _|].
  rewrite (proj2 (Z.ltb_ge _ _)) by done. set (messages := _ <$> packets).
  destruct (writeMessages_spec wb messages Hwb (S (length messages)) 0 0 []) as (total & err & out & E & H1 & H2 & H3);
    [pose proof (len_nonneg messages); lia|unfold len; lia|done|].
  exists total, err, out. rewrite E. split_and!; try done.
  rewrite H1 at 1. unfold slice. rewrite drop_0, Z.sub_0_r, <- length_len. unfold messages. symmetry. apply fmap_take.
Qed.

(** The batch writer terminates and sends a prefix. For a batch that fits the
    writer, however many messages each [WriteBatch] takes, [Write] returns: what went
    out is a prefix of the batch, every packet at most once, in order, with its own
    payload and address; without an error the returned count is what was sent (so a
    short count is never reported as complete), and with one it is at most that. *)
Theorem batch_Write_total batchSize wb packets :
  WriteBatch_ok wb -> len packets <= batchSize ->
  exists total err out, batch_Write batchSize wb packets = Ok (Some (total, err, out)) /\
    out = (fun p => mkMessage (wp_buffer p) (setUDPAddr (wp_addr p))) <$> take (length out) packets /\
    total <= len out /\ (err = None -> total = len out).
Proof. apply batch_Write_spec. Qed.

Lemma batch_Write_total_witness :
  let p b := mkWrite [b] [b] (AddrPortFrom (Addr4 0x01020304) 53) false in
  let wb := fun (k : nat) (ms : list message) => (Z.min 2 (len ms), None : option error) in
  exists total err out, batch_Write 32 wb [p 1; p 2; p 3] = Ok (Some (total, err, out)) /\
    len out = 3 /\ total <= len out /\ (err = None -> total = len out).
Proof.
  intros p wb. destruct (batch_Write_total 32 wb [p 1; p 2; p 3]) as (total & err & out & H1 & _ & H3 & H4).
  - intros k ms Hms. cbn. pose proof (len_nonneg ms). lia.
  - by_decide.
  - exists total, err, out. split; [exact H1|]. split; [|split; [exact H3|exact H4]].
    vm_compute in H1. injection H1 as _ _ <-. reflexivity.
Defined.

(** A batch read never overruns the writers, which have [BatchSize] messages. With
    receive offload it can: a read that the kernel coalesced from more than
    [BatchSize] datagrams (up to 64; [BatchSize] is 32 by default) is split into as
    many packets, and handing those to a writer panics. *)
Theorem gro_overruns_writer :
  let cfg := mkUDPConfig 65507 32 1024 4096 0 0 0 30 0 false true in
  let rt := newUDPRuntime cfg 100 in
  let r := newUDPBatchReader cfg true None 262 (65507 - 22) in
  let d := mkDatagram (replicate (40 * 100) 7) (AddrPortFrom (Addr4 0x01020304) 443) in
  let ps := readGRO_packets r 100 d rt in
  rd_gro r = true /\ len ps = 40 /\
  (forall wb writes, len writes = len ps ->
     batch_Write (BatchSize (ur_config rt)) wb writes = Err (Panic "slice bounds out of range")).
Proof.
  intros cfg rt r d ps. split; [reflexivity|]. assert (len ps = 40) as E.
  { unfold ps, readGRO_packets, len. destruct (recvmsg _ d) as [data trunc] eqn:E. rewrite length_fmap.
    vm_compute in E. injection E as <- <-. vm_compute. reflexivity. }
  split; [exact E|]. intros wb writes Hw. unfold batch_Write. rewrite Hw, E. reflexivity.
Qed.
