(* ===== verification/Responder.v ===== *)
(** * Responses of an association, from socket to socket ([udpResponder])

    Puts the parts of the response path together: the reader and writer that
    [newUDPResponder] sets up, one batch read ([UdpIo]), the round of [pumpOnce]
    ([UdpRelay]) and the batch write ([UdpIo]), for the configurations that
    [Validate] accepts. *)

From Stdlib Require Import ZArith Lia.
From stdpp Require Import base tactics numbers strings sets list.
From S2P Require Import Prelude.
From S2P Require Import Netip.
From S2P Require Import Proto.
From S2P Require Import Config.
From S2P Require Import UdpRuntime.
From S2P Require Import UdpRelay.
From S2P Require Import UdpIo.

Definition maxUDPResponseHeaderLen : Z := 3 + 1 + 16 + 2.

(** The reader of [newUDPResponder]; [gro] and [enableGRO] are what the socket supports. *)
Definition responder_reader (cfg : UDPConfig) (gro : bool) (enableGRO : option error) : linuxUDPBatchReader :=
  newUDPBatchReader cfg gro enableGRO UdpHeaderMaxLen (MaxPacketSize cfg - maxUDPResponseHeaderLen).

(** The reader of an association's inbound socket in [handleUDP]. *)
Definition inbound_reader (cfg : UDPConfig) (gro : bool) (enableGRO : option error) : linuxUDPBatchReader :=
  newUDPBatchReader cfg gro enableGRO 0 (MaxPacketSize cfg).

(** The count and error that [pumpOnce] gets are those of the batch writer. *)
Definition written_by (batchSize : Z) (wb : nat -> list message -> Z * option error)
    (write : list udpWritePacket -> result (Z * option error)) : Prop :=
  forall ws n e out, batch_Write batchSize wb ws = Ok (Some (n, e, out)) -> write ws = Ok (n, e).

(** ** Bounds *)

Lemma len_replicate {A} (n : Z) (x : A) : 0 <= n -> len (replicate (Z.to_nat n) x) = n.
Proof. intros. unfold len. rewrite length_replicate. lia. Qed.

(** The slice of a pooled buffer that a reader reads into. *)
Definition read_fits (rt : udpRuntime) (r : linuxUDPBatchReader) : Prop :=
  0 <= rd_offset r /\ 0 <= rd_limit r /\ rd_offset r + rd_limit r + 1 <= bufferLen rt.

Lemma readers_fit a rt gro e :
  Valid a -> ur_config rt = UDP a ->
  read_fits rt (responder_reader (UDP a) gro e) /\ read_fits rt (inbound_reader (UDP a) gro e).
Proof.
  intros Hv Hc. pose proof (v_packet _ Hv). unfold read_fits, bufferLen. rewrite Hc.
  unfold responder_reader, inbound_reader, newUDPBatchReader, maxUDPResponseHeaderLen, UdpHeaderMaxLen,
    MaxSerializedLen, protoUDPHeaderMaxLen. cbn. lia.
Qed.

Lemma read_packet_len rt r slot d :
  read_fits rt r -> len (rp_buffer (read_packet rt r slot d)) = bufferLen rt /\
  rp_n (read_packet rt r slot d) = Z.min (rd_limit r + 1) (len (dg_data d)).
Proof.
  intros (Ho & Hl & Hf). unfold read_packet, recvmsg. cbn.
  assert (len (take (Z.to_nat (rd_limit r + 1)) (dg_data d)) = Z.min (rd_limit r + 1) (len (dg_data d))) as Hd
    by (unfold len; rewrite length_take; lia).
  split; [|done]. pose proof (len_nonneg (dg_data d)). unfold filled.
  rewrite !len_app, !len_replicate by lia. lia.
Qed.

(** A sender's address as the kernel reports it, without a zone. *)
Definition sender_ok (d : datagram) : Prop :=
  AddrPort_ok (dg_addr d) /\ IsValid (ap_Addr (dg_addr d)) = true /\ zone_free (ap_Addr (dg_addr d)) = true.
#[export] Instance sender_ok_dec d : Decision (sender_ok d).
Proof. unfold sender_ok. apply _. Defined.

Lemma read_packet_response_ok rt r slot d :
  read_fits rt r -> rd_offset r = UdpHeaderMaxLen -> sender_ok d -> response_ok (read_packet rt r slot d).
Proof.
  intros Hf Ho (H1 & H2 & H3). destruct (read_packet_len rt r slot d Hf) as [Hlen Hn].
  destruct Hf as (_ & Hl & Hf). pose proof (len_nonneg (dg_data d)).
  unfold response_ok. rewrite Hlen, Hn. split_and!; [lia|lia|done..].
Qed.

(** ** One round *)

(** The relay packet a datagram of a remote becomes. *)
Definition response_to (cfg : UDPConfig) (clientAddr : AddrPort) (d : datagram) (w : udpWritePacket) : Prop :=
  wp_addr w = clientAddr /\
  BuildUdpPacket 0 (SocketAddress (AddrPortFrom (Unmap (ap_Addr (dg_addr d))) (ap_Port (dg_addr d)))) (dg_data d)
    = Ok (wp_buffer w) /\
  len (wp_buffer w) <= MaxPacketSize cfg.

(** The datagrams that leave room for the header. *)
Definition fits (cfg : UDPConfig) (d : datagram) : Prop :=
  len (dg_data d) <= MaxPacketSize cfg - maxUDPResponseHeaderLen.
#[export] Instance fits_dec cfg d : Decision (fits cfg d).
Proof. unfold fits. apply _. Defined.

Lemma Socket_wire_len ap payload pkt :
  Address_ok (SocketAddress ap) -> BuildUdpPacket 0 (SocketAddress ap) payload = Ok pkt ->
  len pkt <= maxUDPResponseHeaderLen + len payload.
Proof.
  intros (w & Hw)%Wire_exists. rewrite (BuildUdpPacket_wire _ _ w) by done. intros [= <-].
  apply Wire_len in Hw. rewrite !len_cons, len_app, Hw. unfold Address_Len, maxUDPResponseHeaderLen. cbn. case_one; lia.
Qed.

Lemma responds_response rt cfg gro e c p d w :
  read_fits rt (responder_reader cfg gro e) -> sender_ok d -> fits cfg d ->
  read_from rt (responder_reader cfg gro e) p d -> responds c p w -> response_to cfg c d w.
Proof.
  intros Hf Hs Hfit [slot ->] (H1 & _ & H3).
  pose proof (read_packet_response_ok rt _ slot d Hf eq_refl Hs) as Hok%response_address_ok.
  pose proof (read_packet_delivers rt _ slot d (proj1 (proj2 Hf)) (proj1 Hf)) as (Ha & Ht & Hd).
  assert (rp_truncated (read_packet rt (responder_reader cfg gro e) slot d) = false) as Hnt.
  { destruct (rp_truncated _); [|done]. destruct Ht as [Ht _]. specialize (Ht eq_refl). unfold fits in Hfit. cbn in Ht. lia. }
  specialize (Hd Hnt). unfold response_from, response_payload in *. rewrite Ha in *.
  change (rd_offset (responder_reader cfg gro e)) with UdpHeaderMaxLen in Hd. rewrite Hd in H3.
  unfold response_to. split_and!; [done|done|]. apply Socket_wire_len in H3; [|done]. unfold fits in Hfit. lia.
Qed.

Lemma Forall2_filter_iff {A B} (R : A -> B -> Prop) (P : A -> Prop) (Q : B -> Prop)
    `{forall x, Decision (P x)} `{forall x, Decision (Q x)} l k :
  (forall x y, R x y -> P x <-> Q y) -> Forall2 R l k -> Forall2 R (filter P l) (filter Q k).
Proof.
  intros HPQ. induction 1 as [|x y l k Hxy _ IH]; [constructor|]. specialize (HPQ x y Hxy).
  rewrite !filter_cons. do 2 case_decide; try tauto. by constructor.
Qed.

Lemma Forall2_join {A B C} (R : A -> B -> Prop) (S : A -> C -> Prop) (T : B -> C -> Prop) (P : B -> Prop) l k m :
  (forall x y z, R x y -> S x z -> P y -> T y z) -> Forall2 R l k -> Forall2 S l m -> Forall P k -> Forall2 T k m.
Proof.
  intros HT HR. revert m. induction HR as [|x y l k Hxy HR IH]; intros m HS HP.
  - inversion HS. constructor.
  - inversion HS; subst. apply Forall_cons in HP as [HP1 HP2]. constructor; eauto.
Qed.

(** The packets of a batch read by a responder can be answered, and their answers are
    the relay packets of the datagrams they were read from. *)
Lemma batch_response_ok rt r ps ds :
  read_fits rt r -> rd_offset r = UdpHeaderMaxLen -> Forall2 (read_from rt r) ps ds -> Forall sender_ok ds ->
  Forall response_ok ps.
Proof.
  intros Hf Ho. induction 1 as [|p d ps ds [slot ->] _ IH]; intros Hs; [constructor|].
  apply Forall_cons in Hs as [Hs1 Hs2]. constructor; [by apply read_packet_response_ok|auto].
Qed.

Lemma batch_responses rt cfg gro e c ps ds ws :
  let r := responder_reader cfg gro e in
  read_fits rt r -> Forall sender_ok ds -> Forall2 (read_from rt r) ps ds ->
  Forall2 (responds c) (filter (answerable c) ps) ws ->
  if decide (ap_Port c = 0) then ws = [] else Forall2 (response_to cfg c) (filter (fits cfg) ds) ws.
Proof.
  intros r Hf Hs HF HW. case_decide as Hport.
  - assert (filter (answerable c) ps = []) as Hnil.
    { clear -Hport. induction ps as [|p ps IH]; [done|]. rewrite filter_cons_False; [done|]. by intros [_ ?]. }
    rewrite Hnil in HW. by inversion HW.
  - eapply (Forall2_join _ _ _ (fun d => sender_ok d /\ fits cfg d));
      [|apply (Forall2_filter_iff _ (answerable c) (fits cfg)); [|exact HF]|exact HW|].
    + intros p d' w Hp' Hw [Hd1 Hd2]. by eapply responds_response.
    + intros p d' [slot ->]. pose proof (read_packet_delivers rt r slot d' (proj1 (proj2 Hf)) (proj1 Hf)) as (_ & Htr & _).
      unfold answerable, fits. change (rd_limit r) with (MaxPacketSize cfg - maxUDPResponseHeaderLen) in Htr.
      destruct (rp_truncated _); split; try tauto; [intros [? _]; done|intros; lia|intros; lia].
    + apply Forall_forall. intros d' [Hd1 Hd2]%list_elem_of_filter. rewrite Forall_forall in Hs. auto.
Qed.

(** The response path, socket to socket. For every accepted configuration, with
    receive offload off, a round of a responder whose socket has datagrams reads
    within its pooled buffers and never panics or blocks. It takes at most a batch off
    the socket. Once the client's port is known it hands the client's socket, in order,
    exactly the relay packets of those datagrams that leave room for the header, each
    with its sender's (unmapped) address and unchanged payload and of at most the
    configured packet size; before that, nothing. What the kernel takes of them is a
    prefix, and every batch buffer is given back, whatever the writes do. *)
Theorem responder_round a rt gro e drainErr oobSize d q clientIP ctxErr wb write now y :
  let cfg := UDP a in let r := responder_reader cfg gro e in
  let clientAddr := AddrPortFrom clientIP (wrap 16 (srcPort y)) in
  Valid a -> ur_config rt = cfg -> slots_ok rt -> rd_gro r = false ->
  Forall sender_ok (d :: q) -> WriteBatch_ok wb -> written_by (BatchSize cfg) wb write ->
  exists ps r' rt' q' ws y' n err out,
    linux_Read r None drainErr oobSize (d :: q) rt = Some (Ok ps, r', rt', q') /\ read_fits rt r /\
    pumpOnce clientIP (Ok ps) ctxErr write now (with_rt rt' y) = Some (Ok (true, ws), y') /\
    batch_Write (BatchSize cfg) wb ws = Ok (Some (n, err, out)) /\ write ws = Ok (n, err) /\
    0 < len ps <= BatchSize cfg /\ q' = drop (length ps) (d :: q) /\
    (if decide (ap_Port clientAddr = 0) then ws = []
     else Forall2 (response_to cfg clientAddr) (filter (fits cfg) (take (length ps) (d :: q))) ws) /\
    out = (fun p => mkMessage (wp_buffer p) (setUDPAddr (wp_addr p))) <$> take (length out) ws /\
    tokens_in (ry_rt y') = tokens_in rt.
Proof.
  intros cfg r c Hv Hc Hok Hgro Hs Hwb Hwr. unfold linux_Read. rewrite Hgro.
  assert (1 <= BatchSize (ur_config rt)) as Hb by (rewrite Hc; apply (v_batch _ Hv)).
  destruct (readers_fit a rt gro e Hv Hc) as [Hf _]. fold cfg r in Hf.
  destruct (readBatch_spec r drainErr d q rt Hb Hok) as (ps & r' & rt' & q' & Hr & (Hne & Hlen & -> & HF & Hm) & _).
  destruct Hm as (Hc' & Hok' & Ht).
  assert (Forall sender_ok (take (length ps) (d :: q))) as Hs' by (by apply Forall_take).
  assert (Forall response_ok ps) as Hresp by (by eapply batch_response_ok).
  assert (tokens (rp_batchSlot <$> ps) <= tokens_in (ry_rt (with_rt rt' y))) as Htok.
  { cbn [ry_rt with_rt]. rewrite Ht. unfold slots_ok, tokens_in in *. destruct (batchSlots rt) as [[]|]; lia. }
  assert (forall ws, len ws <= len ps -> exists res, write ws = Ok res) as Hwo.
  { intros ws Hl. destruct (batch_Write_spec (BatchSize cfg) wb ws Hwb) as (n & err & out & Hout & _); [rewrite Hc in Hlen; lia|].
    eexists. by eapply Hwr. }
  destruct (pumpOnce_responses clientIP ps ctxErr write now (with_rt rt' y) Hresp Htok Hwo) as (ws & y' & Hp & HW & Htk).
  change (srcPort (with_rt rt' y)) with (srcPort y) in HW. fold c in HW.
  assert (len ws <= BatchSize cfg) as Hws.
  { apply Forall2_length in HW. pose proof (length_filter (answerable c) ps). rewrite Hc in Hlen. unfold len in *. lia. }
  destruct (batch_Write_spec (BatchSize cfg) wb ws Hwb Hws) as (n & err & out & Hout & Hpre & _).
  exists ps, r', rt', (drop (length ps) (d :: q)), ws, y', n, err, out. split_and!; try done.
  - by eapply Hwr.
  - destruct ps; [done|]. rewrite len_cons. pose proof (len_nonneg ps). lia.
  - by rewrite <- Hc.
  - by eapply batch_responses.
  - cbn [ry_rt with_rt] in Htk. lia.
Qed.

Lemma responder_round_witness :
  let dg b := mkDatagram b (AddrPortFrom (Addr4 0x01020304) 53) in
  let wb := fun (_ : nat) (ms : list message) => (Z.min 1 (len ms), None : option error) in
  let write ws := match batch_Write 32 wb ws with Ok (Some (n, e, _)) => Ok (n, e) | _ => Ok (0, None) end in
  let rt := newUDPRuntime (UDP DefaultBootArgs) 10 in
  exists (ps : list udpReadPacket) ws n err out, 0 < len ps <= 32 /\
    batch_Write 32 wb ws = Ok (Some (n, err, out)) /\
    Forall2 (response_to (UDP DefaultBootArgs) (AddrPortFrom (Addr4 0x7f000001) 4000))
      (filter (fits (UDP DefaultBootArgs)) (take (length ps) [dg [1; 2]; dg []; dg [3]])) ws.
Proof.
  intros dg wb write rt.
  destruct (responder_round DefaultBootArgs rt false None None 0 (dg [1; 2]) [dg []; dg [3]] (Addr4 0x7f000001) None
    wb write 9 (with_counts 4000 0 0 demo_relay))
    as (ps & r' & rt' & q' & ws & y' & n & err & out & _ & _ & _ & H3 & _ & H4 & _ & H5 & _).
  - apply Validate_iff, DefaultBootArgs_valid.
  - reflexivity.
  - vm_compute. split; discriminate.
  - reflexivity.
  - by_decide.
  - intros k ms Hms. cbn. pose proof (len_nonneg ms). lia.
  - intros ws n e out E. unfold write. change (BatchSize (UDP DefaultBootArgs)) with 32 in E. by rewrite E.
  - exists ps, ws, n, err, out. split; [exact H4|]. split; [exact H3|exact H5].
Defined.

(** ** The loop *)

(** What happens to one round of [pumpOnce]: the error of the blocking read, how many more
    datagrams are there when the socket is drained and the error of that, the segment size
    that the kernel reports (with receive offload), the port of the client's last datagram
    when one came in since the last round, whether the association has ended, the kernel's
    answers to the batch write, and the time. *)
Record pump_env := mkPump {
  pe_readErr : option error;
  pe_more : nat;
  pe_drainErr : option error;
  pe_oobSize : Z;
  pe_port : option Z;
  pe_ctxErr : option error;
  pe_wb : nat -> list message -> Z * option error;
  pe_now : Z
}.

(** [p.writer.Write]: count and error, or a panic. *)
Definition batch_writer (batchSize : Z) (wb : nat -> list message -> Z * option error)
    (ws : list udpWritePacket) : result (Z * option error) :=
  match batch_Write batchSize wb ws with
  | Ok (Some (n, e, _)) => Ok (n, e)
  | Ok None => Ok (0, None)          (* excluded: enough fuel *)
  | Err e => Err e
  end.

(** The port that [p.clientPort.Load()] gives in a round, and the relay with it. *)
Definition port_in (ev : pump_env) (port : Z) : Z := default port (pe_port ev).
Definition with_port (port : Z) (y : relay) : relay :=
  with_counts port (batchInPackets y) (batchInBytes y) y.

Inductive serve_end := Waiting | Stopped | Panicked.

(** [serveBlocking], for as many rounds as there are [evs]; [q] are the datagrams that
    reach the socket, in order. What was handed to the client's socket in each round, what
    is left, and the state afterwards. *)
Fixpoint serveBlocking (clientIP : Addr) (evs : list pump_env) (r : linuxUDPBatchReader) (q : list datagram)
    (y : relay) : option (serve_end * list (list udpWritePacket) * list datagram * relay) :=
  match evs with
  | [] => Some (Waiting, [], q, y)
  | ev :: evs =>
      match linux_Read r (pe_readErr ev) (pe_drainErr ev) (pe_oobSize ev) (take (S (pe_more ev)) q) (ry_rt y) with
      | None => Some (Waiting, [], q, y)
      | Some (read, r, rt, behind) =>
          let q := behind ++ drop (S (pe_more ev)) q in
          match pumpOnce clientIP read (pe_ctxErr ev)
                  (batch_writer (BatchSize (ur_config rt)) (pe_wb ev)) (pe_now ev)
                  (with_port (port_in ev (srcPort y)) (with_rt rt y)) with
          | None => None
          | Some (Err _, y) => Some (Panicked, [], q, y)
          | Some (Ok (false, ws), y) => Some (Stopped, [ws], q, y)
          | Some (Ok (true, ws), y) =>
              '(e, l, q, y) ← serveBlocking clientIP evs r q y; Some (e, ws :: l, q, y)
          end
      end
  end.

(** What [pumpOnce] leaves as it is. *)
Lemma respondPackets_config c ps r res r' :
  respondPackets c ps r = Some (res, r') -> same_config r r'.
Proof.
  revert r res r'. induction ps as [|p ps IH]; intros r res r'; cbn [respondPackets]; [by intros [= _ <-]|].
  destruct (respondPacket c p r) as [[w r1]|] eqn:E1; [|done].
  assert (same_config r r1) as H1.
  { revert E1. unfold respondPacket. repeat case_one; try (by intros [= _ <-]).
    - destruct (releaseBuffer _ _) as [r2|] eqn:E; [|done]. intros [= _ <-]. by apply releaseBuffer_config in E.
    - destruct (releaseBuffer _ _) as [r2|] eqn:E; [|done]. intros [= _ <-]. by apply releaseBuffer_config in E. }
  destruct w as [w|e]; [|by intros [= _ <-]].
  destruct (respondPackets c ps r1) as [[ws r2]|] eqn:E2; [|done]. apply IH in E2.
  assert (same_config r r2) by (unfold same_config in *; intuition congruence).
  by destruct ws; intros [= _ <-].
Qed.

Lemma releaseAll_config ws r r' : releaseAll ws r = Some r' -> same_config r r'.
Proof.
  revert r. induction ws as [|w ws IH]; intros r; cbn [releaseAll]; [by intros [= <-]|].
  destruct (releaseBuffer _ r) as [r1|] eqn:E; [|done]. cbn. intros H%IH. apply releaseBuffer_config in E.
  unfold same_config in *. intuition congruence.
Qed.

Lemma pumpOnce_frame clientIP read ctxErr write now y res y' :
  pumpOnce clientIP read ctxErr write now y = Some (res, y') ->
  srcPort y' = srcPort y /\ same_config (ry_rt y) (ry_rt y').
Proof.
  unfold pumpOnce. destruct read as [ps|err]; [|by case_one; intros [= _ <-]].
  destruct (respondPackets _ ps (ry_rt y)) as [[[ws|e] r]|] eqn:E1; [| |done].
  - apply respondPackets_config in E1. destruct (write _) as [[written werr]|]; [|by intros [= _ <-]].
    destruct (releaseAll _ r) as [r'|] eqn:E2; [|done]. apply releaseAll_config in E2. cbn [mbind option_bind].
    intros [= _ <-]. assert (same_config (ry_rt y) r') by (unfold same_config in *; intuition congruence).
    by repeat case_one.
  - apply respondPackets_config in E1. by intros [= _ <-].
Qed.

Lemma slots_ok_less rt rt' : slots_ok rt -> same_config rt rt' -> 0 <= tokens_in rt' <= tokens_in rt -> slots_ok rt'.
Proof.
  unfold slots_ok, same_config, tokens_in. intros H (_ & _ & E). revert E.
  destruct (batchSlots rt) as [[]|], (batchSlots rt') as [[]|]; try done. intros [= ->] ?. lia.
Qed.

Lemma tokens_in_nonneg rt : slots_ok rt -> 0 <= tokens_in rt.
Proof. unfold slots_ok, tokens_in. destruct (batchSlots rt) as [[]|]; lia. Qed.

(** The relay packets that [ws] are made of, for a client whose port may not be known yet. *)
Definition responses (cfg : UDPConfig) (c : AddrPort) (ds : list datagram) (ws : list udpWritePacket) : Prop :=
  if decide (ap_Port c = 0) then ws = [] else Forall2 (response_to cfg c) (filter (fits cfg) ds) ws.

Lemma responses_nil cfg c : responses cfg c [] [].
Proof. unfold responses. by case_decide. Qed.
#[local] Hint Resolve responses_nil : wf.

(** The rounds: the datagrams of each are answered to the client's port of that round. *)
Inductive answered (cfg : UDPConfig) (clientIP : Addr) :
    Z -> list pump_env -> list (list datagram) -> list (list udpWritePacket) -> Prop :=
  | answered_end port evs : answered cfg clientIP port evs [] []
  | answered_round port ev evs ds dss ws wss :
      responses cfg (AddrPortFrom clientIP (wrap 16 (port_in ev port))) ds ws ->
      answered cfg clientIP (port_in ev port) evs dss wss ->
      answered cfg clientIP port (ev :: evs) (ds :: dss) (ws :: wss).
#[local] Hint Constructors answered : wf.

(** A responder's reader without receive offload, whether it still drains the socket or has
    given that up. *)
Definition responder_like (cfg : UDPConfig) (r : linuxUDPBatchReader) : Prop :=
  rd_gro r = false /\ rd_offset r = UdpHeaderMaxLen /\ rd_limit r = MaxPacketSize cfg - maxUDPResponseHeaderLen.

Lemma responder_like_reads cfg r rt p d : responder_like cfg r ->
  read_from rt r p d -> read_from rt (responder_reader cfg false None) p d.
Proof.
  intros (_ & Ho & Hl) [slot ->]. exists slot. unfold read_packet. rewrite Ho, Hl. done.
Qed.

Lemma reader_after_like cfg r drainErr r' : reader_after r drainErr r' -> responder_like cfg r -> responder_like cfg r'.
Proof. intros [->|(e & _ & _ & ->)]; done. Qed.

(** The relay of a responder between two rounds. *)
Record ready (a : BootArgs) (y : relay) : Prop := {
  rdy_config : ur_config (ry_rt y) = UDP a;
  rdy_slots : slots_ok (ry_rt y)
}.

Lemma batch_writer_ok n wb ws : len ws <= n -> exists res, batch_writer n wb ws = Ok res.
Proof.
  intros Hl. unfold batch_writer, batch_Write. case_one; [by eexists|].
  rewrite (proj2 (Z.ltb_ge _ _)) by lia. destruct (writeMessages _ _ _ _ _ _) as [[[? ?] ?]|]; by eexists.
Qed.

Lemma serve_round a r drainErr oobSize d q clientIP ctxErr wb now port y :
  let cfg := UDP a in let c := AddrPortFrom clientIP (wrap 16 port) in
  Valid a -> ready a y -> responder_like cfg r -> Forall sender_ok (d :: q) ->
  exists ps r' rt' ws y',
    linux_Read r None drainErr oobSize (d :: q) (ry_rt y) = Some (Ok ps, r', rt', drop (length ps) (d :: q)) /\
    pumpOnce clientIP (Ok ps) ctxErr (batch_writer (BatchSize (ur_config rt')) wb) now
      (with_port port (with_rt rt' y)) = Some (Ok (true, ws), y') /\
    ps <> [] /\ len ws <= BatchSize cfg /\ responses cfg c (take (length ps) (d :: q)) ws /\
    ready a y' /\ srcPort y' = port /\ responder_like cfg r' /\ tokens_in (ry_rt y') = tokens_in (ry_rt y).
Proof.
  intros cfg c Hv [Hc Hok] Hl Hs. fold cfg in Hc. unfold linux_Read. rewrite (proj1 Hl).
  assert (1 <= BatchSize (ur_config (ry_rt y))) as Hb by (rewrite Hc; apply (v_batch _ Hv)).
  destruct (readers_fit a (ry_rt y) false None Hv Hc) as [Hf _]. fold cfg in Hf.
  destruct (readBatch_spec r drainErr d q (ry_rt y) Hb Hok)
    as (ps & r' & rt' & q' & Hr & (Hne & Hlen & -> & HF & Hc' & Hok' & Ht) & Hra).
  assert (Forall2 (read_from (ry_rt y) (responder_reader cfg false None)) ps (take (length ps) (d :: q))) as HF'.
  { eapply Forall2_impl; [exact HF|]. intros p d'. by apply responder_like_reads. }
  assert (Forall sender_ok (take (length ps) (d :: q))) as Hs' by (by apply Forall_take).
  assert (Forall response_ok ps) as Hresp by (by eapply batch_response_ok).
  pose proof (tokens_in_nonneg _ Hok) as Hnn.
  destruct (pumpOnce_responses clientIP ps ctxErr (batch_writer (BatchSize (ur_config rt')) wb) now
    (with_port port (with_rt rt' y)) Hresp) as (ws & y' & Hp & HW & Htk).
  { cbn. lia. }
  { intros ws Hw. apply batch_writer_ok. rewrite Hc'. lia. }
  cbn [srcPort with_port with_counts with_rt ry_rt] in HW, Htk. fold c in HW.
  destruct (pumpOnce_frame _ _ _ _ _ _ _ _ Hp) as [Hport Hsame].
  cbn [srcPort with_port with_counts with_rt ry_rt] in Hport, Hsame.
  exists ps, r', rt', ws, y'. split_and!; try done.
  - apply Forall2_length in HW. pose proof (length_filter (answerable c) ps). rewrite Hc in Hlen. unfold len in *. lia.
  - by eapply batch_responses.
  - constructor; [rewrite (proj1 Hsame), Hc'; exact Hc|]. eapply slots_ok_less; [exact Hok'|done|].
    pose proof (tokens_nonneg (rp_batchSlot <$> ps)). lia.
  - by eapply reader_after_like.
  - lia.
Qed.

(** Taking [m] of the [n] elements that are there, of a list that goes on. *)
Lemma take_visible {A} (m n : nat) (l : list A) :
  take m (take n l) = take (Nat.min m n) l /\ drop m (take n l) ++ drop n l = drop (Nat.min m n) l.
Proof.
  split; [by rewrite take_take|]. destruct (Nat.le_gt_cases m n) as [H|H].
  - rewrite Nat.min_l by done. replace n with (m + (n - m))%nat by lia.
    rewrite <- take_drop_commute, <- drop_drop. apply take_drop.
  - rewrite Nat.min_r by lia. rewrite (drop_ge (take n l)); [done|]. rewrite length_take. lia.
Qed.

(** C31: The responses of an association, socket to socket, for as long as it lasts. For
    every accepted configuration, a responder whose socket is without receive offload, and
    whenever the datagrams of the targets arrive and the client changes its port: the loop
    never panics and never blocks on its own resources. The datagrams it takes off the
    socket are, in order, those of its rounds; what it hands to the client's socket in a
    round is, in order, exactly the relay packets of those of its datagrams that leave room
    for the header, each with its sender's (unmapped) address and unchanged payload, of at
    most the configured size, and addressed to the client's port of that round (nothing as
    long as that is not known), and at most a batch. Every batch buffer is given back in
    each round. It stops only when its socket fails or is closed; until then, it takes every
    datagram that arrives. *)
Theorem responder_serves (a : BootArgs) (evs : list pump_env) (r : linuxUDPBatchReader) (q : list datagram)
    (clientIP : Addr) (y : relay) :
  let cfg := UDP a in
  Valid a -> ready a y -> responder_like cfg r -> Forall sender_ok q ->
  exists e l q' y' rounds, serveBlocking clientIP evs r q y = Some (e, l, q', y') /\
    e <> Panicked /\
    concat rounds ++ q' = q /\ answered cfg clientIP (srcPort y) evs rounds l /\
    Forall (fun ws => len ws <= BatchSize cfg) l /\
    tokens_in (ry_rt y') = tokens_in (ry_rt y) /\
    (e = Stopped -> Exists (fun ev => pe_readErr ev <> None) evs) /\
    (Forall (fun ev => pe_readErr ev = None) evs -> (length q <= length evs)%nat -> q' = []).
Proof.
  intros cfg Hv. revert r q y.
  induction evs as [|ev evs IH]; intros r q y Hy Hl Hs; cbn [serveBlocking].
  { eexists _, _, _, _, []. split; [reflexivity|]. split_and!; try done; [constructor|].
    intros _ ?. by destruct q; cbn in *; [|lia]. }
  destruct (pe_readErr ev) as [err|] eqn:Ee.
  { unfold linux_Read. rewrite (proj1 Hl). cbn [readBatch]. rewrite take_drop. unfold pumpOnce.
    case_one; eexists _, _, _, _, [[]]; (split; [reflexivity|]);
      (split_and!; [done|done|repeat constructor; apply responses_nil
        |apply Forall_singleton; rewrite len_nil; unfold cfg; pose proof (v_batch a Hv); lia
        |done|intros _; left; by rewrite Ee|]);
      intros [H _]%Forall_cons; by rewrite Ee in H. }
  destruct q as [|d q].
  { unfold linux_Read. rewrite (proj1 Hl). cbn. eexists _, _, _, _, []. split; [reflexivity|].
    split_and!; try done. constructor. }
  cbn [take]. assert (Forall sender_ok (d :: take (pe_more ev) q)) as Hs1 by (exact (Forall_take _ (S (pe_more ev)) _ Hs)).
  destruct (serve_round a r (pe_drainErr ev) (pe_oobSize ev) d (take (pe_more ev) q) clientIP (pe_ctxErr ev) (pe_wb ev)
    (pe_now ev) (port_in ev (srcPort y)) y Hv Hy Hl Hs1)
    as (ps & r' & rt' & ws & y' & -> & -> & Hne & Hlen & Hresp & Hy' & Hport & Hl' & Ht).
  set (n := S (pe_more ev)). change (d :: take (pe_more ev) q) with (take n (d :: q)) in *.
  destruct (take_visible (length ps) n (d :: q)) as [E1 E2]. set (k := Nat.min (length ps) n) in *.
  assert (0 < k)%nat as Hk by (destruct ps; [done|]; unfold k, n; cbn; lia).
  rewrite E2. rewrite E1 in Hresp.
  destruct (IH r' (drop k (d :: q)) y' Hy' Hl' ltac:(by apply Forall_drop))
    as (e & l & q' & y'' & rounds & -> & He & Htk & Hans & Hlens & Ht' & Hst & Hall).
  cbn [mbind option_bind]. eexists _, _, _, _, (take k (d :: q) :: rounds). split; [reflexivity|]. split_and!; try done.
  - cbn [concat]. by rewrite <- app_assoc, Htk, take_drop.
  - rewrite Hport in Hans. by constructor.
  - by constructor.
  - lia.
  - intros H. right. auto.
  - intros [_ H]%Forall_cons Hle. apply Hall; [done|]. rewrite length_drop. cbn in *. lia.
Qed.

(** Three datagrams, of which two are there in the first round; the client's port changes
    and the drain fails in the second round. *)
Lemma responder_serves_witness :
  let dg b := mkDatagram b (AddrPortFrom (Addr4 0x01020304) 53) in
  let q := [dg [1; 2]; dg []; dg [3]] in
  let wb := fun (_ : nat) (ms : list message) => (len ms, None : option error) in
  let evs := [mkPump None 1 None 0 None None wb 5; mkPump None 0 (Some EOF) 0 (Some 4001) None wb 6;
              mkPump None 4 None 0 None None wb 7] in
  let y := with_rt (newUDPRuntime (UDP DefaultBootArgs) 10) (with_counts 4000 0 0 demo_relay) in
  exists l y' rounds,
    serveBlocking (Addr4 0x7f000001) evs (responder_reader (UDP DefaultBootArgs) false None) q y
      = Some (Waiting, l, [], y') /\
    concat rounds = q /\ answered (UDP DefaultBootArgs) (Addr4 0x7f000001) 4000 evs rounds l /\
    (fun ws : list udpWritePacket => (fun w => ap_Port (wp_addr w)) <$> ws) <$> l = [[4000; 4000]; [4001]].
Proof.
  intros dg q wb evs y.
  destruct (responder_serves DefaultBootArgs evs (responder_reader (UDP DefaultBootArgs) false None) q
    (Addr4 0x7f000001) y) as (e & l & q' & y' & rounds & E & _ & Ht & Hr & _ & _ & _ & Hq).
  - apply Validate_iff, DefaultBootArgs_valid.
  - constructor; [reflexivity|]. vm_compute. split; discriminate.
  - split; [reflexivity|split; reflexivity].
  - by_decide.
  - rewrite Hq in E, Ht by (repeat constructor). rewrite app_nil_r in Ht.
    assert (match serveBlocking (Addr4 0x7f000001) evs (responder_reader (UDP DefaultBootArgs) false None) q y with
      Some (e, l, _, _) => (e, (fun ws : list udpWritePacket => (fun w => ap_Port (wp_addr w)) <$> ws) <$> l) | None => (Panicked, []) end
      = (Waiting, [[4000; 4000]; [4001]])) as Hx by (vm_compute; reflexivity).
    rewrite E in Hx. injection Hx as H2 H1. subst e. exists l, y', rounds.
    split; [exact E|]. split; [exact Ht|]. split; [exact Hr|exact H1].
Defined.

(** With receive offload the loop does panic: a read coalesced from 40 datagrams makes 40
    responses, and the batch writer holds 32 (the default). *)
Theorem responder_gro_panics :
  let cfg := mkUDPConfig 5000 32 1024 4096 0 0 0 30 0 false true in
  let q := [mkDatagram (replicate (40 * 100) 7) (AddrPortFrom (Addr4 0x01020304) 443)] in
  let y := with_rt (newUDPRuntime cfg 10) (with_counts 4000 0 0 demo_relay) in
  let ev := mkPump None 0 None 100 None None (fun _ ms => (len ms, None)) 5 in
  exists y', serveBlocking (Addr4 0x7f000001) [ev] (responder_reader cfg true None) q y = Some (Panicked, [], [], y').
Proof. eexists. vm_compute. reflexivity. Qed.
