(* ===== verification/Serverbase.v ===== *)
(** * Connection limits and shutdown ([serverbase.go] and the accept loop)

    Models [internal/serverbase/serverbase.go]: the connection gate, the sharded
    registry of open connections, the shard and listener counts; and the accept
    loop of [internal/server/socks/server.go] with its handlers and [Close], as
    a step relation in which accept loops, handlers and the closing goroutine
    interleave at every channel and mutex operation. A connection is known by
    its identity pointer. *)

From Stdlib Require Import ZArith Lia.
From stdpp Require Import base tactics numbers list strings sets gmap relations.
From S2P Require Import Prelude.
From S2P Require Import Netip.

(** ** Sizes *)

(** [AcceptShards]: one listener unless reuse-port is on and supported, then as
    many as processors, at most 16. *)
Definition AcceptShards (reusePort reusePortSupported : bool) (gomaxprocs : Z) : Z :=
  if negb reusePort || negb reusePortSupported then 1
  else
    let shards := gomaxprocs in
    if shards <? 1 then 1 else if 16 <? shards then 16 else shards.

Definition connSetShardBits : Z := 5.
Definition connSetShards : Z := Z.shiftl 1 connSetShardBits.
Definition lifetimeShardBits : Z := 3.
Definition lifetimeShardCount : Z := Z.shiftl 1 lifetimeShardBits.

(** The Fibonacci hash of a connection's pointer, its top [bits] bits. *)
Definition shardHash (bits ptr : Z) : Z :=
  let h := wrap 64 (ptr * 0x9e3779b97f4a7c15) in
  shr 64 h (64 - bits).

(** [LifetimeShards.For] *)
Definition LifetimeFor (conn : Z) : Z := shardHash lifetimeShardBits conn.

(** [AddrPortOf] of a TCP or UDP address. *)
Definition AddrPortOf (a : option AddrPort) : AddrPort :=
  match a with
  | Some ap => AddrPortFrom (Unmap (ap_Addr ap)) (ap_Port ap)
  | None => AddrPortZero
  end.

(** ** The gate *)

(** The token channel: [None] when there is no limit, else the tokens in it and
    its capacity. *)
Abbreviation gate := (option (Z * Z)).

Definition NewConnectionGate (max : Z) : gate := if max =? 0 then None else Some (0, max).

Definition NewTLSHandshakeGate (gomaxprocs maxConnections : Z) : gate :=
  let limit := gomaxprocs * 32 in
  let limit := if limit <? 64 then 64 else limit in
  let limit := if 1024 <? limit then 1024 else limit in
  let limit := if (0 <? maxConnections) && (maxConnections <? wrap 32 limit)
               then maxConnections else limit in
  let limit := if limit <? 1 then 1 else limit in
  NewConnectionGate (wrap 32 limit).

(** Sending and receiving a token without blocking: [None] when it would block. *)
Definition gate_send (g : gate) : option gate :=
  match g with
  | None => Some None
  | Some (n, cap) => if n <? cap then Some (Some (n + 1, cap)) else None
  end.
Definition gate_recv (g : gate) : option gate :=
  match g with
  | None => Some None
  | Some (n, cap) => if 0 <? n then Some (Some (n - 1, cap)) else None
  end.
(** [Acquire]: [None] while it blocks. *)
Definition Acquire (g : gate) : option gate := gate_send g.
(** [AcquireUntil] when shutdown has ([waiting]) or has not started by the time the gate
    is full, and has ([after]) or has not by the time a slot is taken: whether a slot was
    acquired; [None] while it blocks. *)
Definition AcquireUntil (waiting after : bool) (g : gate) : option (bool * gate) :=
  match g with
  | None => Some (negb after, g)
  | Some _ =>
      match gate_send g with
      | None => if waiting then Some (false, g) else None
      | Some g => if after then g ← gate_recv g; Some (false, g) else Some (true, g)
      end
  end.
(** [Release] *)
Definition Release (g : gate) : option gate := gate_recv g.

(** ** The registry *)

Record connSetShard := mkShard { sh_closed : bool; sh_conns : gset Z }.
Record ConnectionSet := mkConnSet { cs_done : bool; cs_shards : list connSetShard }.

Definition NewConnectionSet : ConnectionSet :=
  mkConnSet false (replicate (Z.to_nat connSetShards) (mkShard false ∅)).

Definition shardFor (conn : Z) : nat := Z.to_nat (shardHash connSetShardBits conn).

Definition Add (conn : Z) (s : ConnectionSet) : bool * ConnectionSet :=
  match cs_shards s !! shardFor conn with
  | None => (false, s)   (* index out of range: excluded by [shardFor_bound] *)
  | Some sh =>
      if sh_closed sh then (false, s)
      else (true, mkConnSet (cs_done s)
                    (<[shardFor conn := mkShard false ({[conn]} ∪ sh_conns sh)]> (cs_shards s)))
  end.

Definition Remove (conn : Z) (s : ConnectionSet) : ConnectionSet :=
  mkConnSet (cs_done s)
    (alter (fun sh => mkShard (sh_closed sh) (sh_conns sh ∖ {[conn]})) (shardFor conn) (cs_shards s)).

(** The locked part of [CloseAll] for shard [i]: mark it closed and take its
    connections. *)
Definition CloseShard (i : nat) (s : ConnectionSet) : list Z * ConnectionSet :=
  match cs_shards s !! i with
  | None => ([], s)
  | Some sh => (elements (sh_conns sh), mkConnSet (cs_done s) (<[i := mkShard true ∅]> (cs_shards s)))
  end.

(** ** Accept loops, handlers and shutdown *)

(** A goroutine: an accept loop between two operations, or a handler. *)
Inductive proc :=
  | LoopAccept                (* in ln.Accept *)
  | LoopAcquire (conn : Z)    (* in AcquireUntil, before a token *)
  | LoopCheck (conn : Z)      (* in AcquireUntil, holding a token *)
  | LoopAdd (conn : Z)        (* before conns.Add, holding a token *)
  | Handling (conn : Z)       (* registered, in acceptor.Accept *)
  | Releasing (conn : Z).     (* deregistered, before gate.Release *)

(** The goroutine in [Close]. *)
Inductive closer :=
  | NotClosing
  | ClosingShard (i : nat)                  (* before shard i *)
  | ClosingConns (i : nat) (conns : list Z) (* closing what shard i held *)
  | ClosedAll.

Record server := mkServer {
  sv_gate : gate;
  sv_set : ConnectionSet;
  sv_procs : list proc;
  sv_closer : closer;
  sv_closed : gset Z        (* connections on which Close was called *)
}.

Definition with_proc (l : list proc) (s : server) : server :=
  mkServer (sv_gate s) (sv_set s) l (sv_closer s) (sv_closed s).

Definition conn_of (p : proc) : option Z :=
  match p with
  | LoopAccept => None
  | LoopAcquire c | LoopCheck c | LoopAdd c | Handling c | Releasing c => Some c
  end.

Inductive server_step : server -> server -> Prop :=
  (* a connection arrives; its pointer is that of no live connection *)
  | sv_accept s l conn :
      sv_procs s ≡ₚ LoopAccept :: l -> conn ∉ omap conn_of (sv_procs s) ->
      server_step s (mkServer (sv_gate s) (sv_set s) (LoopAcquire conn :: l) (sv_closer s)
                       (sv_closed s ∖ {[conn]}))
  (* AcquireUntil: a slot *)
  | sv_acquire s l conn g :
      sv_procs s ≡ₚ LoopAcquire conn :: l -> gate_send (sv_gate s) = Some g ->
      server_step s (mkServer g (sv_set s) (LoopCheck conn :: l) (sv_closer s) (sv_closed s))
  (* AcquireUntil: shutdown while waiting for a slot; the loop returns *)
  | sv_acquire_done s l conn :
      sv_procs s ≡ₚ LoopAcquire conn :: l -> cs_done (sv_set s) = true ->
      server_step s (mkServer (sv_gate s) (sv_set s) l (sv_closer s) ({[conn]} ∪ sv_closed s))
  (* AcquireUntil: shutdown raced with the slot; it is given back *)
  | sv_check_done s l conn g :
      sv_procs s ≡ₚ LoopCheck conn :: l -> cs_done (sv_set s) = true ->
      gate_recv (sv_gate s) = Some g ->
      server_step s (mkServer g (sv_set s) l (sv_closer s) ({[conn]} ∪ sv_closed s))
  | sv_check_ok s l conn :
      sv_procs s ≡ₚ LoopCheck conn :: l -> cs_done (sv_set s) = false ->
      server_step s (with_proc (LoopAdd conn :: l) s)
  (* conns.Add: registered, the handler starts and the loop goes on *)
  | sv_add s l conn cs :
      sv_procs s ≡ₚ LoopAdd conn :: l -> Add conn (sv_set s) = (true, cs) ->
      server_step s (mkServer (sv_gate s) cs (LoopAccept :: Handling conn :: l) (sv_closer s)
                       (sv_closed s))
  (* conns.Add refused: the slot is released, the connection closed *)
  | sv_add_refused s l conn cs g :
      sv_procs s ≡ₚ LoopAdd conn :: l -> Add conn (sv_set s) = (false, cs) ->
      Release (sv_gate s) = Some g ->
      server_step s (mkServer g cs (LoopAccept :: l) (sv_closer s) ({[conn]} ∪ sv_closed s))
  (* the handler returns: its stream is closed and deregistered *)
  | sv_handled s l conn :
      sv_procs s ≡ₚ Handling conn :: l ->
      server_step s (mkServer (sv_gate s) (Remove conn (sv_set s)) (Releasing conn :: l)
                       (sv_closer s) ({[conn]} ∪ sv_closed s))
  | sv_released s l conn g :
      sv_procs s ≡ₚ Releasing conn :: l -> Release (sv_gate s) = Some g ->
      server_step s (mkServer g (sv_set s) l (sv_closer s) (sv_closed s))
  (* CloseAll *)
  | sv_close s :
      sv_closer s = NotClosing ->
      server_step s (mkServer (sv_gate s) (mkConnSet true (cs_shards (sv_set s))) (sv_procs s)
                       (ClosingShard 0) (sv_closed s))
  | sv_close_shard s i conns cs :
      sv_closer s = ClosingShard i -> (i < Z.to_nat connSetShards)%nat ->
      CloseShard i (sv_set s) = (conns, cs) ->
      server_step s (mkServer (sv_gate s) cs (sv_procs s) (ClosingConns i conns) (sv_closed s))
  | sv_close_conn s i conn conns :
      sv_closer s = ClosingConns i (conn :: conns) ->
      server_step s (mkServer (sv_gate s) (sv_set s) (sv_procs s) (ClosingConns i conns)
                       ({[conn]} ∪ sv_closed s))
  | sv_close_next s i :
      sv_closer s = ClosingConns i [] ->
      server_step s (mkServer (sv_gate s) (sv_set s) (sv_procs s) (ClosingShard (S i)) (sv_closed s))
  | sv_close_all s :
      sv_closer s = ClosingShard (Z.to_nat connSetShards) ->
      server_step s (mkServer (sv_gate s) (sv_set s) (sv_procs s) ClosedAll (sv_closed s))
  (* Close then closes the listeners, and their accept loops return *)
  | sv_listener_closed s l :
      sv_closer s = ClosedAll -> sv_procs s ≡ₚ LoopAccept :: l ->
      server_step s (with_proc l s).

Definition server_init (max : Z) (loops : nat) : server :=
  mkServer (NewConnectionGate max) NewConnectionSet (replicate loops LoopAccept) NotClosing ∅.

Definition server_reachable (max : Z) (loops : nat) : server -> Prop :=
  rtc server_step (server_init max loops).

(** ** Invariants *)

Lemma shardHash_bound bits ptr : 0 < bits <= 64 -> 0 <= shardHash bits ptr < 2 ^ bits.
Proof.
  intros Hb. unfold shardHash. pose proof (wrap_width 64 (ptr * 0x9e3779b97f4a7c15) ltac:(lia)) as Hw.
  rewrite shr_spec by (done || lia). unfold in_width in Hw.
  split; [apply Z.div_pos; [lia | apply pow2_pos; lia]|].
  apply Z.div_lt_upper_bound; [apply pow2_pos; lia|].
  rewrite <- Z.pow_add_r by lia. replace (64 - bits + bits) with 64 by lia. lia.
Qed.

Lemma shardFor_bound conn : (shardFor conn < Z.to_nat connSetShards)%nat.
Proof.
  pose proof (shardHash_bound 5 conn ltac:(lia)). unfold shardFor, connSetShardBits.
  change connSetShards with (2 ^ 5). lia.
Qed.

#[local] Opaque shardFor.

(** Who holds a token of the gate. *)
Definition holds (p : proc) : Z :=
  match p with LoopAccept | LoopAcquire _ => 0 | _ => 1 end.
Definition holders (l : list proc) : Z := sumZ (holds <$> l).

Lemma holders_perm l k : l ≡ₚ k -> holders l = holders k.
Proof. intros H. apply sumZ_perm. by rewrite H. Qed.
Lemma holders_cons p l : holders (p :: l) = holds p + holders l.
Proof. done. Qed.
Lemma holders_nonneg l : 0 <= holders l.
Proof. apply sumZ_nonneg. by intros []. Qed.

Definition gate_inv (s : server) : Prop :=
  match sv_gate s with
  | Some (n, cap) => n = holders (sv_procs s) /\ n <= cap
  | None => True
  end.

Lemma gate_send_inv g g' n : gate_send g = Some g' ->
  match g with Some (k, cap) => k = n /\ k <= cap | None => True end ->
  match g' with Some (k, cap) => k = n + 1 /\ k <= cap | None => True end.
Proof.
  unfold gate_send. destruct g as [[k cap]|]; [|by intros [= <-]].
  case_one; [|done]. zbool. intros [= <-]. lia.
Qed.

Lemma gate_recv_inv g g' n : gate_recv g = Some g' ->
  match g with Some (k, cap) => k = n /\ k <= cap | None => True end ->
  match g' with Some (k, cap) => k = n - 1 /\ k <= cap | None => True end.
Proof.
  unfold gate_recv. destruct g as [[k cap]|]; [|by intros [= <-]].
  case_one; [|done]. intros [= <-]. lia.
Qed.

Lemma gate_inv_step s s' : server_step s s' -> gate_inv s -> gate_inv s'.
Proof.
  unfold gate_inv. intros Hstep Hg. destruct Hstep; cbn [sv_gate sv_procs with_proc]; try done;
    match goal with Hp : sv_procs _ ≡ₚ _ |- _ => apply holders_perm in Hp; rewrite Hp in Hg end; rewrite ?holders_cons in *; cbn [holds] in *;
    rewrite ?Z.add_0_l in *; try done.
  - apply (gate_send_inv _ _ _ H0) in Hg. destruct g as [[k cap]|]; [lia | done].
  - apply (gate_recv_inv _ _ _ H1) in Hg. destruct g as [[k cap]|]; [lia | done].
  - apply (gate_recv_inv _ _ _ H1) in Hg. destruct g as [[k cap]|]; [lia | done].
  - apply (gate_recv_inv _ _ _ H0) in Hg. destruct g as [[k cap]|]; [lia | done].
Qed.

(** The capacity never changes. *)
Lemma gate_cap_send g g' : gate_send g = Some g' -> snd <$> g' = snd <$> g.
Proof. unfold gate_send. destruct g as [[k c]|]; [case_one; [|done]|]; by intros [= <-]. Qed.
Lemma gate_cap_recv g g' : gate_recv g = Some g' -> snd <$> g' = snd <$> g.
Proof. unfold gate_recv. destruct g as [[k c]|]; [case_one; [|done]|]; by intros [= <-]. Qed.

Lemma gate_cap_step s s' : server_step s s' -> snd <$> sv_gate s' = snd <$> sv_gate s.
Proof. destruct 1; cbn [sv_gate with_proc]; eauto using gate_cap_send, gate_cap_recv. Qed.

(** *** Registration *)

Definition pending (s : server) : list Z :=
  match sv_closer s with ClosingConns _ l => l | _ => [] end.

(** A handler's connection is in its shard, or the shard was closed and the
    connection is closed or about to be. *)
Definition registered (s : server) (c : Z) : Prop :=
  exists sh, cs_shards (sv_set s) !! shardFor c = Some sh /\
    if sh_closed sh then c ∈ sv_closed s \/ c ∈ pending s else c ∈ sh_conns sh.

(** The shards [CloseAll] has dealt with. *)
Definition closed_below (s : server) : nat :=
  match sv_closer s with
  | NotClosing => 0
  | ClosingShard i => i
  | ClosingConns i _ => S i
  | ClosedAll => Z.to_nat connSetShards
  end.

Record reg_inv (s : server) : Prop := {
  r_len : length (cs_shards (sv_set s)) = Z.to_nat connSetShards;
  r_nodup : NoDup (omap conn_of (sv_procs s));
  r_reg : forall c, Handling c ∈ sv_procs s -> registered s c;
  r_closed : forall i sh, (i < closed_below s)%nat -> cs_shards (sv_set s) !! i = Some sh ->
    sh_closed sh = true
}.

Lemma Handling_omap c (l : list proc) : Handling c ∈ l -> c ∈ omap conn_of l.
Proof. intros H. apply list_elem_of_omap. by exists (Handling c). Qed.

Lemma conns_perm (l k : list proc) : l ≡ₚ k -> omap conn_of l ≡ₚ omap conn_of k.
Proof. intros H. by rewrite H. Qed.

(** Registration only depends on the shards, what is closed and what is about to
    be; the latter two may grow. *)
Lemma registered_mono s s' c :
  registered s c -> cs_shards (sv_set s') = cs_shards (sv_set s) ->
  (c ∈ sv_closed s \/ c ∈ pending s -> c ∈ sv_closed s' \/ c ∈ pending s') -> registered s' c.
Proof.
  intros (sh & H1 & H2) E Hm. exists sh. rewrite E. split; [done|].
  destruct (sh_closed sh); auto.
Qed.

(** A goroutine other than a handler moves on without touching the registry. *)
Lemma reg_inv_procs s p q l g' cl' :
  reg_inv s -> sv_procs s ≡ₚ p :: l ->
  (forall c, c ∈ sv_closed s -> c ∈ omap conn_of l -> c ∈ cl') ->
  (forall c, Handling c ∉ q) -> NoDup (omap conn_of (q ++ l)) ->
  reg_inv (mkServer g' (sv_set s) (q ++ l) (sv_closer s) cl').
Proof.
  intros [Hl Hn Hr Hc] Hp Hsub Hq Hn'. constructor; [done|done| |done].
  cbn [sv_procs]. intros c [Hin|Hin]%elem_of_app; [by destruct (Hq c)|].
  eapply registered_mono; [apply Hr; rewrite Hp; by right|done|].
  intros [H|H]; [left; apply Hsub; [done|by apply Handling_omap] | by right].
Qed.

(** [Add] puts the connection in its open shard and changes no other. *)
Lemma Add_true conn s s' : Add conn s = (true, s') ->
  exists sh, cs_shards s !! shardFor conn = Some sh /\ sh_closed sh = false /\
    s' = mkConnSet (cs_done s) (<[shardFor conn := mkShard false ({[conn]} ∪ sh_conns sh)]> (cs_shards s)).
Proof.
  unfold Add. destruct (cs_shards s !! shardFor conn) as [sh|] eqn:E; [|done].
  destruct (sh_closed sh) eqn:Ec; [done|]. intros [= <-]. by exists sh.
Qed.
Lemma Add_false conn s s' : Add conn s = (false, s') -> s' = s.
Proof.
  unfold Add. destruct (cs_shards s !! shardFor conn) as [sh|]; [|by intros [= <-]].
  destruct (sh_closed sh); [by intros [= <-]|done].
Qed.

(** A step that maps every shard to one with the same flag and at least the live
    connections. *)
Lemma reg_inv_shards s cs' l' cl' g' :
  reg_inv s -> length (cs_shards cs') = length (cs_shards (sv_set s)) ->
  (forall i sh, cs_shards (sv_set s) !! i = Some sh ->
     exists sh', cs_shards cs' !! i = Some sh' /\ sh_closed sh' = sh_closed sh /\
       forall c, Handling c ∈ l' -> c ∈ sh_conns sh -> c ∈ sh_conns sh') ->
  sv_closed s ⊆ cl' -> NoDup (omap conn_of l') ->
  (forall c, Handling c ∈ l' -> Handling c ∈ sv_procs s \/
     registered (mkServer g' cs' l' (sv_closer s) cl') c) ->
  reg_inv (mkServer g' cs' l' (sv_closer s) cl').
Proof.
  intros [Hl Hn Hr Hc] Hlen Hsh Hcl Hn' Hh. constructor; cbn [sv_set sv_procs]; [lia|done| |].
  - intros c Hin. destruct (Hh c Hin) as [H|H]; [|done].
    destruct (Hr c H) as (sh & H1 & H2). destruct (Hsh _ _ H1) as (sh' & E & Ec & Hs).
    exists sh'. split; [done|]. rewrite Ec. destruct (sh_closed sh); [|by apply Hs].
    destruct H2; [left; cbn; set_solver | by right].
  - intros i sh' Hi Hs'. apply lookup_lt_Some in Hs' as Hlt. rewrite Hlen in Hlt.
    apply lookup_lt_is_Some in Hlt as [sh E]. destruct (Hsh _ _ E) as (sh2 & E2 & Ec & _).
    rewrite Hs' in E2. injection E2 as <-. rewrite Ec. by eapply Hc.
Qed.

Lemma NoDup_procs s p l :
  reg_inv s -> sv_procs s ≡ₚ p :: l -> NoDup (omap conn_of (p :: l)).
Proof. intros H E. rewrite <- (conns_perm _ _ E). apply H. Qed.

Lemma reg_inv_add s l conn cs :
  reg_inv s -> sv_procs s ≡ₚ LoopAdd conn :: l -> Add conn (sv_set s) = (true, cs) ->
  reg_inv (mkServer (sv_gate s) cs (LoopAccept :: Handling conn :: l) (sv_closer s) (sv_closed s)).
Proof.
  intros Hi Hp (sh & E & Ec & ->)%Add_true. pose proof (NoDup_procs _ _ _ Hi Hp) as Hn.
  apply reg_inv_shards; [done| |  |done|done|]; cbn [cs_shards].
  - by rewrite length_insert.
  - intros i sh0 E0. destruct (decide (i = shardFor conn)) as [->|Hne].
    + rewrite list_lookup_insert_eq by by eapply lookup_lt_Some. eexists. split; [done|].
      simplify_eq. cbn. split; [done|]. set_solver.
    + rewrite list_lookup_insert_ne by done. by exists sh0.
  - intros c [?|[[= ->]|Hin]%elem_of_cons]%elem_of_cons; [done| |left; rewrite Hp; by right].
    right. eexists. cbn [cs_shards sv_set].
    rewrite list_lookup_insert_eq by by eapply lookup_lt_Some. split; [done|]. cbn. set_solver.
Qed.

Lemma reg_inv_handled s l conn :
  reg_inv s -> sv_procs s ≡ₚ Handling conn :: l ->
  reg_inv (mkServer (sv_gate s) (Remove conn (sv_set s)) (Releasing conn :: l) (sv_closer s)
             ({[conn]} ∪ sv_closed s)).
Proof.
  intros Hi Hp. pose proof (NoDup_procs _ _ _ Hi Hp) as Hn. cbn [omap list_omap conn_of] in Hn.
  apply NoDup_cons in Hn as Hni. destruct Hni as [Hni _].
  apply reg_inv_shards; [done| | |set_solver|done|]; cbn [cs_shards Remove].
  - by rewrite length_alter.
  - intros i sh0 E0. destruct (decide (i = shardFor conn)) as [->|Hne].
    + rewrite list_lookup_alter_eq, E0. eexists. split; [done|]. cbn. split; [done|].
      intros c [?|Hc]%elem_of_cons Hin; [done|]. apply Handling_omap in Hc.
      apply elem_of_difference. split; [done|]. intros ->%elem_of_singleton. done.
    + rewrite list_lookup_alter_ne by done. by exists sh0.
  - intros c [?|Hc]%elem_of_cons; [done|]. left. rewrite Hp. by right.
Qed.

Lemma reg_inv_close_shard s i conns cs :
  reg_inv s -> sv_closer s = ClosingShard i -> CloseShard i (sv_set s) = (conns, cs) ->
  (i < Z.to_nat connSetShards)%nat ->
  reg_inv (mkServer (sv_gate s) cs (sv_procs s) (ClosingConns i conns) (sv_closed s)).
Proof.
  intros [Hl Hn Hr Hc] Ec Hcs Hi. unfold CloseShard in Hcs. rewrite <- Hl in Hi.
  apply lookup_lt_is_Some in Hi as [sh E]. rewrite E in Hcs. injection Hcs as <- <-.
  apply lookup_lt_Some in E as Hlt. unfold closed_below in Hc. rewrite Ec in Hc.
  constructor; cbn [sv_set sv_procs cs_shards]; [by rewrite length_insert|done| |].
  - intros c Hin. destruct (Hr c Hin) as (sh0 & E0 & H0). unfold registered, pending in *.
    rewrite Ec in H0. cbn [sv_set cs_shards sv_closer sv_closed].
    destruct (decide (shardFor c = i)) as [<-|Hne].
    + rewrite list_lookup_insert_eq by done. eexists. split; [done|]. cbn. rewrite E in E0. injection E0 as <-.
      destruct (sh_closed sh); [destruct H0; [by left|by apply elem_of_nil in H]|].
      right. by apply elem_of_elements.
    + rewrite list_lookup_insert_ne by done. exists sh0. split; [done|].
      destruct (sh_closed sh0); [|done]. destruct H0 as [H|H]; [by left|by apply elem_of_nil in H].
  - unfold closed_below. cbn [sv_closer]. intros j shj Hj Ej.
    destruct (decide (i = j)) as [<-|Hne].
    + rewrite list_lookup_insert_eq in Ej by done. by injection Ej as <-.
    + rewrite list_lookup_insert_ne in Ej by done. apply (Hc j); [lia|done].
Qed.

(** The closing goroutine moves on without touching a shard. *)
Lemma reg_inv_closer s b k cl' :
  reg_inv s ->
  (closed_below (mkServer (sv_gate s) (sv_set s) (sv_procs s) k cl') <= closed_below s)%nat ->
  (forall c, c ∈ sv_closed s \/ c ∈ pending s ->
     c ∈ cl' \/ c ∈ pending (mkServer (sv_gate s) (sv_set s) (sv_procs s) k cl')) ->
  reg_inv (mkServer (sv_gate s) (mkConnSet b (cs_shards (sv_set s))) (sv_procs s) k cl').
Proof.
  intros [Hl Hn Hr Hc] Hb Hp. constructor; cbn [sv_set cs_shards sv_procs]; [done|done| |].
  - intros c Hin. by eapply registered_mono; [apply Hr| |apply Hp].
  - intros i sh Hi. apply Hc. unfold closed_below in *. cbn in *. lia.
Qed.

Lemma eta_set (s : ConnectionSet) : s = mkConnSet (cs_done s) (cs_shards s).
Proof. by destruct s. Qed.

Lemma reg_inv_step s s' : server_step s s' -> reg_inv s -> reg_inv s'.
Proof.
  intros Hstep Hi. destruct Hstep as [s l conn Hp Hf|s l conn g Hp Hg|s l conn Hp Hd|s l conn g Hp Hd Hg
    |s l conn Hp Hd|s l conn cs Hp Ha|s l conn cs g Hp Ha Hg|s l conn Hp|s l conn g Hp Hg|s Hk
    |s i conns cs Hk Hlt Hc|s i conn conns Hk|s i Hk|s Hk|s l Hk Hp];
  try (pose proof (NoDup_procs _ _ _ Hi Hp) as Hn; cbn [omap list_omap conn_of] in Hn).
  - apply (reg_inv_procs s LoopAccept [LoopAcquire conn]); [done|done| | |].
    + intros c Hc Hin. rewrite (conns_perm _ _ Hp) in Hf. set_solver.
    + set_solver.
    + cbn [omap list_omap conn_of app]. apply NoDup_cons. split; [|done].
      by rewrite (conns_perm _ _ Hp) in Hf.
  - apply (reg_inv_procs s (LoopAcquire conn) [LoopCheck conn]); set_solver.
  - apply (reg_inv_procs s (LoopAcquire conn) []); [done|done|set_solver|set_solver|].
    by apply NoDup_cons in Hn as [_ ?].
  - apply (reg_inv_procs s (LoopCheck conn) []); [done|done|set_solver|set_solver|].
    by apply NoDup_cons in Hn as [_ ?].
  - apply (reg_inv_procs s (LoopCheck conn) [LoopAdd conn]); set_solver.
  - by apply reg_inv_add.
  - apply Add_false in Ha as ->.
    apply (reg_inv_procs s (LoopAdd conn) [LoopAccept]); [done|done|set_solver|set_solver|].
    by apply NoDup_cons in Hn as [_ ?].
  - by apply reg_inv_handled.
  - apply (reg_inv_procs s (Releasing conn) []); [done|done|set_solver|set_solver|].
    by apply NoDup_cons in Hn as [_ ?].
  - apply reg_inv_closer; unfold closed_below, pending; cbn; rewrite ?Hk; [done|lia|set_solver].
  - by apply reg_inv_close_shard.
  - rewrite (eta_set (sv_set s)). apply reg_inv_closer; unfold closed_below, pending; cbn; rewrite ?Hk;
      [done|lia|set_solver].
  - rewrite (eta_set (sv_set s)). apply reg_inv_closer; unfold closed_below, pending; cbn; rewrite ?Hk;
      [done|lia|set_solver].
  - rewrite (eta_set (sv_set s)). apply reg_inv_closer; unfold closed_below, pending; cbn; rewrite ?Hk;
      [done|lia|set_solver].
  - by apply (reg_inv_procs s LoopAccept []); [| |set_solver|set_solver|].
Qed.

Lemma omap_replicate_accept n : omap conn_of (replicate n LoopAccept) = [].
Proof. by induction n. Qed.
Lemma holders_init n : holders (replicate n LoopAccept) = 0.
Proof. induction n as [|n IH]; [done|]. cbn [replicate]. by rewrite holders_cons, IH. Qed.

Lemma reg_inv_init max loops : reg_inv (server_init max loops).
Proof.
  constructor; cbn [server_init sv_set sv_procs]; [done| | |].
  - rewrite omap_replicate_accept. constructor.
  - intros c Hc%Handling_omap. rewrite omap_replicate_accept in Hc. by apply elem_of_nil in Hc.
  - intros i sh Hi. unfold closed_below in Hi. cbn in Hi. lia.
Qed.

Lemma reachable_inv max loops s : 0 <= max -> server_reachable max loops s ->
  reg_inv s /\ gate_inv s /\ snd <$> sv_gate s = snd <$> NewConnectionGate max.
Proof.
  intros Hm. unfold server_reachable. intros H. remember (server_init max loops) as s0 eqn:E0.
  assert (reg_inv s0 /\ gate_inv s0 /\ snd <$> sv_gate s0 = snd <$> NewConnectionGate max) as Hs.
  { subst s0. split_and!; [apply reg_inv_init| |done]. unfold gate_inv. cbn [server_init sv_gate sv_procs].
    rewrite holders_init. unfold NewConnectionGate. by destruct (max =? 0). }
  clear E0. induction H as [|s0 s1 s2 H1 _ IH]; [done|]. apply IH. destruct Hs as (Hr & Hg & Hc).
  split_and!; [by eapply reg_inv_step|by eapply gate_inv_step|]. by rewrite (gate_cap_step _ _ H1).
Qed.

(** Connections with a slot: from [AcquireUntil] to [Release]. *)
Definition active (s : server) : Z := holders (sv_procs s).

(** The close of every shard leaves no handler without a closed connection. *)
Lemma closed_all_handlers s c : reg_inv s -> sv_closer s = ClosedAll ->
  Handling c ∈ sv_procs s -> c ∈ sv_closed s.
Proof.
  intros [Hl _ Hr Hc] Ek Hin. destruct (Hr c Hin) as (sh & E & H).
  unfold closed_below, pending in *. rewrite Ek in *. pose proof (shardFor_bound c).
  rewrite (Hc _ _ H0 E) in H. destruct H as [H|H]; [done|by apply elem_of_nil in H].
Qed.

Lemma closed_all_add s c : reg_inv s -> sv_closer s = ClosedAll -> Add c (sv_set s) = (false, sv_set s).
Proof.
  intros [Hl _ Hr Hc] Ek. pose proof (shardFor_bound c) as Hb. unfold closed_below in Hc.
  rewrite Ek in Hc. rewrite <- Hl in Hb. apply lookup_lt_is_Some in Hb as [sh E].
  unfold Add. rewrite E. by rewrite (Hc _ _ (shardFor_bound c) E).
Qed.

(** [CloseAll] on its own runs to its end. *)
Lemma close_conns_run i conns s : sv_closer s = ClosingConns i conns ->
  exists s', rtc server_step s s' /\ sv_procs s' = sv_procs s /\ sv_closer s' = ClosingShard (S i).
Proof.
  revert s. induction conns as [|c conns IH]; intros s E.
  - eexists. split; [eapply rtc_once, sv_close_next, E|done].
  - destruct (IH (mkServer (sv_gate s) (sv_set s) (sv_procs s) (ClosingConns i conns)
      ({[c]} ∪ sv_closed s))) as (s' & H1 & H2); [done|].
    exists s'. split; [|done]. eapply rtc_l; [eapply sv_close_conn, E|done].
Qed.

Lemma close_shards_run n i s : sv_closer s = ClosingShard i -> (i + n = Z.to_nat connSetShards)%nat ->
  exists s', rtc server_step s s' /\ sv_procs s' = sv_procs s /\ sv_closer s' = ClosedAll.
Proof.
  revert i s. induction n as [|n IH]; intros i s E Hi.
  - replace i with (Z.to_nat connSetShards) in E by lia.
    eexists. split; [eapply rtc_once, sv_close_all, E|done].
  - destruct (CloseShard i (sv_set s)) as [conns cs] eqn:Ec.
    destruct (close_conns_run i conns (mkServer (sv_gate s) cs (sv_procs s) (ClosingConns i conns)
      (sv_closed s))) as (s1 & H1 & Hp & E1); [done|].
    destruct (IH (S i) s1) as (s2 & H2 & Hp2 & E2); [done|lia|].
    exists s2. split; [|split; [by rewrite Hp2, Hp|done]].
    eapply rtc_l; [eapply sv_close_shard; [done|lia|done] | by etrans].
Qed.

Lemma closer_bound max loops s : server_reachable max loops s ->
  match sv_closer s with
  | ClosingShard i => (i <= Z.to_nat connSetShards)%nat
  | ClosingConns i _ => (i < Z.to_nat connSetShards)%nat
  | _ => True
  end.
Proof.
  unfold server_reachable. intros H. remember (server_init max loops) as s0 eqn:E0.
  assert (match sv_closer s0 with
    | ClosingShard i => (i <= Z.to_nat connSetShards)%nat
    | ClosingConns i _ => (i < Z.to_nat connSetShards)%nat | _ => True end) as Hs by by subst s0.
  clear E0. induction H as [|s0 s1 s2 H1 _ IH]; [done|]. apply IH.
  destruct H1; cbn [sv_closer with_proc]; try done; try (rewrite H in Hs); lia.
Qed.

Lemma close_run max loops s : server_reachable max loops s ->
  exists s', rtc server_step s s' /\ sv_procs s' = sv_procs s /\ sv_closer s' = ClosedAll.
Proof.
  intros Hr. pose proof (closer_bound _ _ _ Hr) as Hb. destruct (sv_closer s) as [|i|i conns|] eqn:E.
  - destruct (close_shards_run (Z.to_nat connSetShards) 0 (mkServer (sv_gate s)
      (mkConnSet true (cs_shards (sv_set s))) (sv_procs s) (ClosingShard 0) (sv_closed s)))
      as (s' & H1 & H2); [done|lia|].
    exists s'. split; [|done]. eapply rtc_l; [by apply sv_close|done].
  - apply (close_shards_run (Z.to_nat connSetShards - i) i); [done|lia].
  - destruct (close_conns_run _ _ _ E) as (s1 & H1 & Hp & E1).
    destruct (close_shards_run (Z.to_nat connSetShards - S i) (S i) s1) as (s2 & H2 & Hp2 & E2);
      [done|lia|]. exists s2. split; [by etrans|]. by rewrite Hp2, Hp.
  - exists s. split; [apply rtc_refl|done].
Qed.

(** [AcquireUntil] is what the steps of an accept loop between [Accept] and [Add] do. *)
Lemma AcquireUntil_run s l conn b g :
  sv_procs s ≡ₚ LoopAcquire conn :: l ->
  AcquireUntil (cs_done (sv_set s)) (cs_done (sv_set s)) (sv_gate s) = Some (b, g) ->
  exists s', rtc server_step s s' /\ sv_gate s' = g /\ sv_set s' = sv_set s /\
    sv_procs s' = (if b then LoopAdd conn :: l else l) /\ (b = false -> conn ∈ sv_closed s').
Proof.
  intros Hp Ha.
  assert (forall g1, gate_send (sv_gate s) = Some g1 -> cs_done (sv_set s) = false ->
    exists s', rtc server_step s s' /\ sv_gate s' = g1 /\ sv_set s' = sv_set s /\ sv_procs s' = LoopAdd conn :: l) as Htake.
  { intros g1 Hg Hd. eexists. split; [eapply rtc_l; [by eapply sv_acquire|]; by eapply rtc_once, (sv_check_ok _ l conn)|done]. }
  assert (cs_done (sv_set s) = true -> exists s', rtc server_step s s' /\ sv_gate s' = sv_gate s /\
    sv_set s' = sv_set s /\ sv_procs s' = l /\ conn ∈ sv_closed s') as Hquit.
  { intros Hd. eexists. split; [by eapply rtc_once, sv_acquire_done|]. cbn. split_and!; try done. set_solver. }
  unfold AcquireUntil in Ha. destruct (cs_done (sv_set s)) eqn:Ed.
  - assert (b = false /\ g = sv_gate s) as [-> ->]; [|by destruct Hquit as (s' & ?&?&?&?&?); [done|]; exists s'].
    destruct (sv_gate s) as [[n cap]|]; [|by injection Ha as <- <-]. unfold gate_send, gate_recv in Ha.
    destruct (Z.ltb_spec n cap); [|by injection Ha as <- <-]. destruct (Z.ltb_spec 0 (n + 1)); [|done].
    cbn in Ha. injection Ha as <- <-. by replace (n + 1 - 1) with n by lia.
  - assert (b = true /\ gate_send (sv_gate s) = Some g) as [-> Hg].
    { destruct (sv_gate s) as [[n cap]|] eqn:Eg; [|by injection Ha as <- <-].
      destruct (gate_send (Some (n, cap))) as [g1|]; [|done]. by injection Ha as <- <-. }
    destruct (Htake g Hg eq_refl) as (s' & ?&?&?&?). by exists s'.
Qed.

(** C11: However accept loops, handlers and shutdown interleave, with a limit
    [max] the gate's channel holds exactly one token per connection between its
    [AcquireUntil] and its [Release], so at most [max] connections are handled at
    once; while fewer are, a connection that waits for a slot can take one; and a
    handler that finished never blocks in [Release]. *)
Theorem connection_gate_bound (max : Z) (loops : nat) (s : server) :
  0 < max < 2 ^ 32 -> server_reachable max loops s ->
  sv_gate s = Some (active s, max) /\ active s <= max /\
  (active s < max -> forall conn l, sv_procs s ≡ₚ LoopAcquire conn :: l ->
     exists s', server_step s s' /\ sv_procs s' = LoopCheck conn :: l) /\
  (forall conn l, sv_procs s ≡ₚ Releasing conn :: l ->
     exists s', server_step s s' /\ sv_procs s' = l /\ sv_gate s' = Some (active s - 1, max)).
Proof.
  intros Hm Hr. destruct (reachable_inv max loops s ltac:(lia) Hr) as (_ & Hg & Hc).
  unfold gate_inv in Hg. unfold NewConnectionGate in Hc. destruct (Z.eqb_spec max 0); [lia|].
  destruct (sv_gate s) as [[k cap]|] eqn:E; [|done]. cbn in Hc. injection Hc as ->.
  destruct Hg as [-> Hle]. fold (active s) in *. split_and!; [done|done| |].
  - intros Hlt conn l Hp. eexists. split; [eapply sv_acquire; [done|]|done].
    rewrite E. cbn. by destruct (Z.ltb_spec (active s) max); [|lia].
  - intros conn l Hp. eexists. split; [eapply sv_released; [done|]|done]. rewrite E. cbn.
    destruct (Z.ltb_spec 0 (active s)); [done|]. exfalso. unfold active in *.
    rewrite (holders_perm _ _ Hp), holders_cons in *. cbn [holds] in *. pose proof (holders_nonneg l). lia.
Qed.

(** C10: Shutdown leaves no connection behind: [CloseAll] always runs to its end,
    and in every state after it the connection of every handler still running
    has been closed, so its blocked reads and writes return, while [Add] refuses
    every further connection. *)
Theorem shutdown_closes_all (max : Z) (loops : nat) (s : server) :
  0 <= max < 2 ^ 32 -> server_reachable max loops s ->
  (exists s', rtc server_step s s' /\ sv_procs s' = sv_procs s /\ sv_closer s' = ClosedAll) /\
  (forall s', rtc server_step s s' -> sv_closer s' = ClosedAll ->
     (forall c, Handling c ∈ sv_procs s' -> c ∈ sv_closed s') /\
     (forall c, Add c (sv_set s') = (false, sv_set s'))).
Proof.
  intros Hm Hr. split; [by eapply close_run|]. intros s' Hs E.
  destruct (reachable_inv max loops s' ltac:(lia)) as (Hi & _ & _); [by unfold server_reachable in *; etrans|].
  split; intros c; [by apply closed_all_handlers|by apply closed_all_add].
Qed.

(** A run in which the connection with pointer 4096 is accepted and handled. *)
Lemma handled_run : exists s, server_reachable 1 1 s /\ Handling 4096 ∈ sv_procs s.
Proof.
  eexists. split.
  - eapply rtc_l. { eapply (sv_accept _ [] 4096); [done|by apply not_elem_of_nil]. }
    eapply rtc_l. { by eapply (sv_acquire _ [] 4096). }
    eapply rtc_l. { by eapply (sv_check_ok _ [] 4096). }
    eapply rtc_l. { by eapply (sv_add _ [] 4096). }
    apply rtc_refl.
  - cbn. set_solver.
Qed.

Lemma connection_gate_bound_witness :
  exists s, server_reachable 1 1 s /\ Handling 4096 ∈ sv_procs s /\
    sv_gate s = Some (active s, 1) /\ active s <= 1.
Proof.
  destruct handled_run as (s & Hr & Hin). exists s.
  destruct (connection_gate_bound 1 1 s ltac:(lia) Hr) as (H1 & H2 & _). done.
Defined.

Lemma shutdown_closes_all_witness :
  exists s', server_reachable 1 1 s' /\ Handling 4096 ∈ sv_procs s' /\ 4096 ∈ sv_closed s' /\
    Add 4096 (sv_set s') = (false, sv_set s').
Proof.
  destruct handled_run as (s & Hr & Hin).
  destruct (shutdown_closes_all 1 1 s ltac:(lia) Hr) as [(s' & H1 & Hp & E) Hall].
  destruct (Hall s' H1 E) as [Hh Ha]. exists s'. rewrite Hp. split_and!.
  - by unfold server_reachable in *; etrans.
  - done.
  - apply Hh. by rewrite Hp.
  - apply Ha.
Defined.
