(* ===== verification/Lifecycle.v ===== *)
(** * The life of a server: [Start], handlers and [Close] with their wait group

    Models [Start] and [Close] of the three servers ([internal/server/socks/server.go],
    [internal/server/http/server.go], [internal/server/auto.go], which share their text),
    [WaitGroupTimeout] and the lifetime contexts of [internal/serverbase/serverbase.go],
    and [udpRuntime.wait] of [udp_runtime.go].  The step relation refines the one of
    [Serverbase]: accept loops are launched one by one and each has its listener, a
    handler is counted between its registration and its start, a goroutine that returns
    still has its deferred [wg.Done] to run, and [Close] goes on after [CloseAll] to the
    listeners and the two waits. [sync.WaitGroup] is modelled with the panics by which it
    reports misuse. *)

From Stdlib Require Import ZArith Lia Wellfounded.
From stdpp Require Import base tactics numbers list strings sets gmap relations.
From S2P Require Import Prelude.
From S2P Require Import Netip.
From S2P Require Import Serverbase.

(** ** Lifetime contexts *)

(** A context: the background one, or a cancellable child with an identity. *)
Inductive context := Background | WithCancel (id : nat) (parent : context).

(** [ctx.Err() != nil], given the contexts whose cancel function was called. *)
Fixpoint ctx_done (cancelled : gset nat) (c : context) : bool :=
  match c with
  | Background => false
  | WithCancel id parent => bool_decide (id ∈ cancelled) || ctx_done cancelled parent
  end.

(** [NewLifetimeShards]: the children get the identities from [fresh] on. *)
Definition NewLifetimeShards (fresh : nat) (parent : context) : list context :=
  (fun i => WithCancel (fresh + i) parent) <$> seq 0 (Z.to_nat lifetimeShardCount).

(** [LifetimeShards.For]: out of range would panic. *)
Definition LifetimeShards_For (shards : list context) (conn : Z) : option context :=
  shards !! Z.to_nat (LifetimeFor conn).

(** [NewServer]: the root lifetime and its shards. *)
Definition server_lifetimes : context * list context :=
  let lifetime := WithCancel 0 Background in (lifetime, NewLifetimeShards 1 lifetime).

(** ** [sync.WaitGroup] *)

Record WaitGroup := mkWG { wg_n : Z; wg_w : Z }.   (* the counter and the waiters *)

#[export] Instance WaitGroup_eq_dec : EqDecision WaitGroup.
Proof. solve_decision. Defined.

Inductive wg_result :=
  | WgPanic
  | WgOk (wg : WaitGroup)
  | WgWake (wg : WaitGroup).   (* the counter is zero: waiters have to be released *)

(** [Add]; [Done] is [Add(-1)]. A counter that goes up from zero while somebody waits
    is misuse. *)
Definition wg_Add (delta : Z) (wg : WaitGroup) : wg_result :=
  let v := wg_n wg + delta in
  if v <? 0 then WgPanic
  else if negb (wg_w wg =? 0) && (0 <? delta) && (v =? delta) then WgPanic
  else if (0 <? v) || (wg_w wg =? 0) then WgOk (mkWG v (wg_w wg))
  else WgWake (mkWG v (wg_w wg)).

Definition wg_zero : WaitGroup := mkWG 0 0.

(** The goroutine that [WaitGroupTimeout] starts. *)
Inductive waiter :=
  | WNone      (* not started *)
  | WLoad      (* before the first look at the counter *)
  | WAsleep    (* counted as a waiter, asleep *)
  | WAwake     (* released, before the check that the group was not reused *)
  | WDone.     (* Wait returned, done is closed *)

(** ** The state *)

(** A goroutine. [ln] is the listener of an accept loop, [None] that of a handler;
    listener 0 is the main one, whose loop runs in [Start]. *)
Inductive gor :=
  | Run (ln : option nat) (p : proc)
  | AddWG (ln : nat) (conn : Z)                  (* registered, before s.wg.Add(1) *)
  | Ending (ln : option nat)                     (* returned, before the deferred wg.Done *)
  | Waking (ln : option nat) (seen : WaitGroup)  (* in wg.Done, before releasing waiters *)
  | Blocked (conn : Z).                          (* a handler in a call that does not return *)

Inductive start_pc :=
  | Launch (i : nat)   (* before s.wg.Add(1) for listener i; the main one comes last *)
  | Launched.

Inductive close_pc :=
  | CIdle
  | CCloseAll (k : closer)
  | CListeners (i : nat)            (* before closing listener i *)
  | CWaiting                        (* in WaitGroupTimeout *)
  | CUDP (ok : bool)                (* in WaitUDPWorkers; ok: the first wait succeeded *)
  | CReturned (ok udp : bool).

Record life := mkLife {
  lf_gate : gate;
  lf_set : ConnectionSet;
  lf_closed : gset Z;            (* connections on which Close was called *)
  lf_gs : list gor;
  lf_start : start_pc;
  lf_close : close_pc;
  lf_wg : WaitGroup;
  lf_waiter : waiter;
  lf_workers : option nat;       (* UDP send workers, once the dispatcher was started *)
  lf_cancelled : gset nat        (* contexts whose cancel function was called *)
}.

Definition set_gate (g : gate) (s : life) : life :=
  mkLife g (lf_set s) (lf_closed s) (lf_gs s) (lf_start s) (lf_close s) (lf_wg s) (lf_waiter s)
    (lf_workers s) (lf_cancelled s).
Definition set_set (cs : ConnectionSet) (s : life) : life :=
  mkLife (lf_gate s) cs (lf_closed s) (lf_gs s) (lf_start s) (lf_close s) (lf_wg s) (lf_waiter s)
    (lf_workers s) (lf_cancelled s).
Definition set_closed (cl : gset Z) (s : life) : life :=
  mkLife (lf_gate s) (lf_set s) cl (lf_gs s) (lf_start s) (lf_close s) (lf_wg s) (lf_waiter s)
    (lf_workers s) (lf_cancelled s).
Definition set_gs (l : list gor) (s : life) : life :=
  mkLife (lf_gate s) (lf_set s) (lf_closed s) l (lf_start s) (lf_close s) (lf_wg s) (lf_waiter s)
    (lf_workers s) (lf_cancelled s).
Definition set_start (p : start_pc) (s : life) : life :=
  mkLife (lf_gate s) (lf_set s) (lf_closed s) (lf_gs s) p (lf_close s) (lf_wg s) (lf_waiter s)
    (lf_workers s) (lf_cancelled s).
Definition set_close (p : close_pc) (s : life) : life :=
  mkLife (lf_gate s) (lf_set s) (lf_closed s) (lf_gs s) (lf_start s) p (lf_wg s) (lf_waiter s)
    (lf_workers s) (lf_cancelled s).
Definition set_wg (wg : WaitGroup) (s : life) : life :=
  mkLife (lf_gate s) (lf_set s) (lf_closed s) (lf_gs s) (lf_start s) (lf_close s) wg (lf_waiter s)
    (lf_workers s) (lf_cancelled s).
Definition set_waiter (w : waiter) (s : life) : life :=
  mkLife (lf_gate s) (lf_set s) (lf_closed s) (lf_gs s) (lf_start s) (lf_close s) (lf_wg s) w
    (lf_workers s) (lf_cancelled s).
Definition set_workers (w : option nat) (s : life) : life :=
  mkLife (lf_gate s) (lf_set s) (lf_closed s) (lf_gs s) (lf_start s) (lf_close s) (lf_wg s)
    (lf_waiter s) w (lf_cancelled s).
Definition set_cancelled (c : gset nat) (s : life) : life :=
  mkLife (lf_gate s) (lf_set s) (lf_closed s) (lf_gs s) (lf_start s) (lf_close s) (lf_wg s)
    (lf_waiter s) (lf_workers s) c.

(** The live connections of a goroutine, as [Serverbase] sees it. *)
Definition erase (g : gor) : list proc :=
  match g with
  | Run _ p => [p]
  | AddWG _ c => [LoopAccept; Handling c]
  | Ending _ | Waking _ _ => []
  | Blocked c => [Handling c]
  end.

Definition erase_all (l : list gor) : list proc := l ≫= erase.

(** A run is in a state or has crashed. *)
Inductive outcome := Live (s : life) | Panicked.

(** ** Steps *)

Section steps.
Context (listeners : nat).   (* main and extra listeners *)
Context (workers : nat).     (* send workers that startDispatcher starts *)
Context (hasUDP : bool).     (* the SOCKS5 and auto-detecting servers wait for UDP workers *)

Definition closed_listeners (s : life) : nat :=
  match lf_close s with
  | CListeners i => i
  | CWaiting | CUDP _ | CReturned _ _ => listeners
  | _ => 0
  end.

(** What [Close] does after [WaitGroupTimeout]. *)
Definition after_wait (ok : bool) : close_pc := if hasUDP then CUDP ok else CReturned ok true.

(** When [udpRuntime.wait] returns true: its wait group is at zero. *)
Definition workers_gone (w : option nat) : Prop := w = None \/ w = Some 0%nat.

(** [Start]. *)
Inductive start_step : life -> outcome -> Prop :=
  | st_extra s i wg :
      lf_start s = Launch i -> (i < listeners)%nat -> wg_Add 1 (lf_wg s) = WgOk wg ->
      start_step s (Live (set_start (Launch (S i)) (set_wg wg
        (set_gs (Run (Some i) LoopAccept :: lf_gs s) s))))
  | st_main s wg :
      lf_start s = Launch listeners -> wg_Add 1 (lf_wg s) = WgOk wg ->
      start_step s (Live (set_start Launched (set_wg wg
        (set_gs (Run (Some 0%nat) LoopAccept :: lf_gs s) s))))
  | st_panic s i :
      lf_start s = Launch i -> wg_Add 1 (lf_wg s) = WgPanic -> start_step s Panicked.

(** An accept loop of listener [i]; [l] are the other goroutines. *)
Inductive loop_step : life -> outcome -> Prop :=
  (* the pointer of a new connection is that of no live one *)
  | lp_accept s l i conn :
      lf_gs s ≡ₚ Run (Some i) LoopAccept :: l -> (closed_listeners s <= i)%nat ->
      conn ∉ omap conn_of (erase_all (lf_gs s)) ->
      loop_step s (Live (set_closed (lf_closed s ∖ {[conn]})
        (set_gs (Run (Some i) (LoopAcquire conn) :: l) s)))
  (* another error than a closed listener: the loop sleeps and goes on *)
  | lp_accept_error s l i :
      lf_gs s ≡ₚ Run (Some i) LoopAccept :: l -> (closed_listeners s <= i)%nat ->
      loop_step s (Live s)
  | lp_accept_closed s l i :
      lf_gs s ≡ₚ Run (Some i) LoopAccept :: l -> (i < closed_listeners s)%nat ->
      loop_step s (Live (set_gs (Ending (Some i) :: l) s))
  | lp_acquire s l i conn g :
      lf_gs s ≡ₚ Run (Some i) (LoopAcquire conn) :: l -> gate_send (lf_gate s) = Some g ->
      loop_step s (Live (set_gate g (set_gs (Run (Some i) (LoopCheck conn) :: l) s)))
  | lp_acquire_done s l i conn :
      lf_gs s ≡ₚ Run (Some i) (LoopAcquire conn) :: l -> cs_done (lf_set s) = true ->
      loop_step s (Live (set_closed ({[conn]} ∪ lf_closed s) (set_gs (Ending (Some i) :: l) s)))
  | lp_check_done s l i conn g :
      lf_gs s ≡ₚ Run (Some i) (LoopCheck conn) :: l -> cs_done (lf_set s) = true ->
      gate_recv (lf_gate s) = Some g ->
      loop_step s (Live (set_gate g (set_closed ({[conn]} ∪ lf_closed s)
        (set_gs (Ending (Some i) :: l) s))))
  | lp_check_ok s l i conn :
      lf_gs s ≡ₚ Run (Some i) (LoopCheck conn) :: l -> cs_done (lf_set s) = false ->
      loop_step s (Live (set_gs (Run (Some i) (LoopAdd conn) :: l) s))
  | lp_add s l i conn cs :
      lf_gs s ≡ₚ Run (Some i) (LoopAdd conn) :: l -> Add conn (lf_set s) = (true, cs) ->
      loop_step s (Live (set_set cs (set_gs (AddWG i conn :: l) s)))
  | lp_add_refused s l i conn cs g :
      lf_gs s ≡ₚ Run (Some i) (LoopAdd conn) :: l -> Add conn (lf_set s) = (false, cs) ->
      Release (lf_gate s) = Some g ->
      loop_step s (Live (set_gate g (set_set cs (set_closed ({[conn]} ∪ lf_closed s)
        (set_gs (Run (Some i) LoopAccept :: l) s)))))
  (* s.wg.Add(1), and the handler starts *)
  | lp_wg_add s l i conn wg :
      lf_gs s ≡ₚ AddWG i conn :: l -> wg_Add 1 (lf_wg s) = WgOk wg ->
      loop_step s (Live (set_wg wg
        (set_gs (Run (Some i) LoopAccept :: Run None (Handling conn) :: l) s)))
  | lp_wg_panic s l i conn :
      lf_gs s ≡ₚ AddWG i conn :: l -> wg_Add 1 (lf_wg s) = WgPanic -> loop_step s Panicked.

(** A handler, its UDP send workers, and the deferred [wg.Done] of any goroutine. *)
Inductive handler_step : life -> outcome -> Prop :=
  | hd_handled s l conn :
      lf_gs s ≡ₚ Run None (Handling conn) :: l ->
      handler_step s (Live (set_set (Remove conn (lf_set s)) (set_closed ({[conn]} ∪ lf_closed s)
        (set_gs (Run None (Releasing conn) :: l) s))))
  | hd_released s l conn g :
      lf_gs s ≡ₚ Run None (Releasing conn) :: l -> Release (lf_gate s) = Some g ->
      handler_step s (Live (set_gate g (set_gs (Ending None :: l) s)))
  (* the first dispatch of an association starts the workers *)
  | hd_dispatch s l conn :
      lf_gs s ≡ₚ Run None (Handling conn) :: l -> lf_workers s = None -> hasUDP = true ->
      handler_step s (Live (set_workers (Some workers) s))
  (* a worker sees the end of the lifetime *)
  | hd_worker_exit s k :
      lf_workers s = Some (S k) -> ctx_done (lf_cancelled s) server_lifetimes.1 = true ->
      handler_step s (Live (set_workers (Some k) s))
  | hd_done s l ln wg :
      lf_gs s ≡ₚ Ending ln :: l -> wg_Add (-1) (lf_wg s) = WgOk wg ->
      handler_step s (Live (set_wg wg (set_gs l s)))
  | hd_done_last s l ln wg :
      lf_gs s ≡ₚ Ending ln :: l -> wg_Add (-1) (lf_wg s) = WgWake wg ->
      handler_step s (Live (set_wg wg (set_gs (Waking ln wg :: l) s)))
  | hd_done_panic s l ln :
      lf_gs s ≡ₚ Ending ln :: l -> wg_Add (-1) (lf_wg s) = WgPanic -> handler_step s Panicked
  | hd_wake s l ln :
      lf_gs s ≡ₚ Waking ln (lf_wg s) :: l ->
      handler_step s (Live (set_waiter (match lf_waiter s with WAsleep => WAwake | w => w end)
        (set_wg wg_zero (set_gs l s))))
  | hd_wake_panic s l ln seen :
      lf_gs s ≡ₚ Waking ln seen :: l -> seen <> lf_wg s -> handler_step s Panicked
  (* the handler blocks and never returns, closed connection or not: in the reactor's
     deregister, say, which waits for a handler that does not come back *)
  | hd_blocked s l conn :
      lf_gs s ≡ₚ Run None (Handling conn) :: l ->
      handler_step s (Live (set_gs (Blocked conn :: l) s)).

(** [Close], under its [closeOnce], and the goroutine that waits for it. *)
Inductive close_step : life -> outcome -> Prop :=
  | cl_cancel s :
      lf_close s = CIdle ->
      close_step s (Live (set_close (CCloseAll NotClosing) (set_cancelled ({[0%nat]} ∪ lf_cancelled s) s)))
  | cl_done s :
      lf_close s = CCloseAll NotClosing ->
      close_step s (Live (set_close (CCloseAll (ClosingShard 0))
        (set_set (mkConnSet true (cs_shards (lf_set s))) s)))
  | cl_shard s i conns cs :
      lf_close s = CCloseAll (ClosingShard i) -> (i < Z.to_nat connSetShards)%nat ->
      CloseShard i (lf_set s) = (conns, cs) ->
      close_step s (Live (set_close (CCloseAll (ClosingConns i conns)) (set_set cs s)))
  | cl_conn s i conn conns :
      lf_close s = CCloseAll (ClosingConns i (conn :: conns)) ->
      close_step s (Live (set_close (CCloseAll (ClosingConns i conns))
        (set_closed ({[conn]} ∪ lf_closed s) s)))
  | cl_next s i :
      lf_close s = CCloseAll (ClosingConns i []) ->
      close_step s (Live (set_close (CCloseAll (ClosingShard (S i))) s))
  | cl_all s :
      lf_close s = CCloseAll (ClosingShard (Z.to_nat connSetShards)) ->
      close_step s (Live (set_close (CListeners 0) s))
  | cl_listener s i :
      lf_close s = CListeners i -> (i < listeners)%nat ->
      close_step s (Live (set_close (CListeners (S i)) s))
  | cl_wait s :
      lf_close s = CListeners listeners ->
      close_step s (Live (set_close CWaiting (set_waiter WLoad s)))
  (* wg.Wait *)
  | cl_load_zero s :
      lf_waiter s = WLoad -> wg_n (lf_wg s) = 0 -> close_step s (Live (set_waiter WDone s))
  | cl_load s :
      lf_waiter s = WLoad -> wg_n (lf_wg s) <> 0 ->
      close_step s (Live (set_waiter WAsleep
        (set_wg (mkWG (wg_n (lf_wg s)) (wg_w (lf_wg s) + 1)) s)))
  | cl_awake s :
      lf_waiter s = WAwake -> lf_wg s = wg_zero -> close_step s (Live (set_waiter WDone s))
  | cl_awake_panic s :
      lf_waiter s = WAwake -> lf_wg s <> wg_zero -> close_step s Panicked
  (* the two selects of WaitGroupTimeout and of udpRuntime.wait *)
  | cl_wait_ok s :
      lf_close s = CWaiting -> lf_waiter s = WDone ->
      close_step s (Live (set_close (after_wait true) s))
  | cl_wait_timeout s :
      lf_close s = CWaiting -> close_step s (Live (set_close (after_wait false) s))
  | cl_udp_ok s ok :
      lf_close s = CUDP ok -> workers_gone (lf_workers s) ->
      close_step s (Live (set_close (CReturned ok true) s))
  | cl_udp_timeout s ok :
      lf_close s = CUDP ok -> close_step s (Live (set_close (CReturned ok false) s)).

Inductive life_step : outcome -> outcome -> Prop :=
  | life_start s o : start_step s o -> life_step (Live s) o
  | life_loop s o : loop_step s o -> life_step (Live s) o
  | life_handler s o : handler_step s o -> life_step (Live s) o
  | life_close s o : close_step s o -> life_step (Live s) o.

Definition life_init (max : Z) : life :=
  mkLife (NewConnectionGate max) NewConnectionSet ∅ [] (Launch 1) CIdle wg_zero WNone None ∅.

Definition life_reachable (max : Z) : outcome -> Prop := rtc life_step (Live (life_init max)).

End steps.

(** The three servers; only the two that speak SOCKS5 have a UDP runtime to wait for. *)
Definition socks_life (listeners workers : nat) : outcome -> outcome -> Prop := life_step listeners workers true.
Definition auto_life (listeners workers : nat) : outcome -> outcome -> Prop := life_step listeners workers true.
Definition http_life (listeners : nat) : outcome -> outcome -> Prop := life_step listeners 0 false.

(** ** Refinement of the model of [Serverbase] *)

Section refinement.
Context (listeners workers : nat) (hasUDP : bool).

(** The accept loops that [Start] has still to launch count as loops that accept nothing yet. *)
Definition unlaunched (p : start_pc) : nat :=
  match p with Launch i => S (listeners - i) | Launched => 0 end.

Definition abs_procs (s : life) : list proc :=
  erase_all (lf_gs s) ++ replicate (unlaunched (lf_start s)) LoopAccept.

Definition abs_closer (p : close_pc) : closer :=
  match p with CIdle => NotClosing | CCloseAll k => k | _ => ClosedAll end.

Record refines (s : life) (a : server) : Prop := {
  rf_gate : sv_gate a = lf_gate s;
  rf_set : sv_set a = lf_set s;
  rf_closed : sv_closed a = lf_closed s;
  rf_closer : sv_closer a = abs_closer (lf_close s);
  rf_procs : sv_procs a ≡ₚ abs_procs s
}.

Lemma erase_all_perm (l k : list gor) : l ≡ₚ k -> erase_all l ≡ₚ erase_all k.
Proof. intros H. unfold erase_all. by rewrite H. Qed.

(** The goroutine that moves, and the rest. *)
Lemma refines_split s a g l : refines s a -> lf_gs s ≡ₚ g :: l ->
  sv_procs a ≡ₚ erase g ++ erase_all l ++ replicate (unlaunched (lf_start s)) LoopAccept.
Proof.
  intros H Hp. rewrite (rf_procs _ _ H). unfold abs_procs. rewrite (erase_all_perm _ _ Hp).
  unfold erase_all. cbn [mbind list_bind]. by rewrite app_assoc.
Qed.

Lemma conns_abs s a : refines s a ->
  omap conn_of (sv_procs a) ≡ₚ omap conn_of (erase_all (lf_gs s)).
Proof.
  intros H. rewrite (conns_perm _ _ (rf_procs _ _ H)). unfold abs_procs.
  by rewrite omap_app, omap_replicate_accept, app_nil_r.
Qed.

(** A step of [Serverbase] that leads to the abstraction of the new state, or a step it
    does not see. *)
Ltac sim_step rule :=
  match goal with
  | H : refines ?s ?a, Hp : lf_gs ?s ≡ₚ ?g :: ?l |- _ =>
      pose proof (refines_split _ _ _ _ H Hp) as Hsplit; destruct H as [Hg Hs Hc Hk _];
      eexists; split; [right; eapply rule; try (exact Hsplit); rewrite ?Hg, ?Hs, ?Hk; try eassumption; try done
                      |constructor; cbn; by rewrite ?Hg, ?Hs, ?Hc, ?Hk]
  end.
Ltac sim_stutter :=
  match goal with
  | H : refines _ ?a |- _ =>
      exists a; split; [by left|]; destruct H as [Hg Hs Hc Hk Hpr];
      constructor; cbn; try done
  end.

Lemma start_simulated s s' a : start_step listeners s (Live s') -> refines s a ->
  exists a', (a' = a \/ server_step a a') /\ refines s' a'.
Proof.
  intros Hst H. inversion Hst as [? i wg Hl Hi Hw|? wg Hl Hw|]; subst; sim_stutter;
    rewrite Hpr; unfold abs_procs; cbn [erase_all lf_gs set_gs]; rewrite Hl; cbn [unlaunched lf_start set_start].
  - replace (listeners - i)%nat with (S (listeners - S i)) by lia. cbn. solve_Permutation.
  - rewrite Nat.sub_diag. cbn. rewrite app_nil_r. solve_Permutation.
Qed.

Lemma loop_simulated s s' a : loop_step listeners s (Live s') -> refines s a ->
  exists a', (a' = a \/ server_step a a') /\ refines s' a'.
Proof.
  intros Hst H. pose proof (conns_abs _ _ H) as Hconns.
  inversion Hst as [? l i conn Hp Hi Hf|? l i Hp Hi|? l i Hp Hi|? l i conn g Hp Hga|? l i conn Hp Hd
    |? l i conn g Hp Hd Hga|? l i conn Hp Hd|? l i conn cs Hp Ha|? l i conn cs g Hp Ha Hga|? l i conn wg Hp Hw|]; subst.
  - sim_step sv_accept. by rewrite Hconns.
  - sim_stutter.
  - unfold closed_listeners in Hi. sim_step sv_listener_closed. by destruct (lf_close s); try lia.
  - sim_step sv_acquire.
  - sim_step sv_acquire_done.
  - sim_step sv_check_done.
  - sim_step sv_check_ok.
  - sim_step sv_add.
  - sim_step sv_add_refused.
  - sim_stutter. rewrite Hpr. unfold abs_procs. rewrite (erase_all_perm _ _ Hp). cbn. done.
Qed.

Lemma handler_simulated s s' a : handler_step workers hasUDP s (Live s') -> refines s a ->
  exists a', (a' = a \/ server_step a a') /\ refines s' a'.
Proof.
  intros Hst H. inversion Hst as [? l conn Hp|? l conn g Hp Hga|? l conn Hp Hw Hu|? k Hw Hx|? l ln wg Hp Hw
    |? l ln wg Hp Hw| |? l ln Hp| |? l conn Hp]; subst.
  - sim_step sv_handled.
  - sim_step sv_released.
  - sim_stutter.
  - sim_stutter.
  - sim_stutter. rewrite Hpr. unfold abs_procs. by rewrite (erase_all_perm _ _ Hp).
  - sim_stutter. rewrite Hpr. unfold abs_procs. by rewrite (erase_all_perm _ _ Hp).
  - sim_stutter. rewrite Hpr. unfold abs_procs. by rewrite (erase_all_perm _ _ Hp).
  - sim_stutter. rewrite Hpr. unfold abs_procs. by rewrite (erase_all_perm _ _ Hp).
Qed.

(** A step of the closing goroutine. *)
Ltac sim_close rule :=
  match goal with
  | H : refines _ _, E : lf_close _ = _ |- _ =>
      destruct H as [Hg Hs Hc Hk Hpr]; rewrite E in Hk; cbn [abs_closer] in Hk;
      eexists; split; [right; eapply rule; rewrite ?Hs; eassumption
                      |constructor; cbn; rewrite ?Hg, ?Hs, ?Hc; try done]
  end.

Lemma close_simulated s s' a : close_step listeners hasUDP s (Live s') -> refines s a ->
  exists a', (a' = a \/ server_step a a') /\ refines s' a'.
Proof.
  intros Hst H. inversion Hst as [? E|? E|? i conns cs E Hi Ec|? i conn conns E|? i E|? E|? i E Hi|? E|? E Hn
    |? E Hn|? E Hz| |? E Hw|? E|? ok E Hw|? ok E]; subst.
  1,7-15: sim_stutter; rewrite Hk; rewrite ?E; unfold after_wait; by destruct hasUDP.
  - sim_close sv_close.
  - sim_close sv_close_shard.
  - sim_close sv_close_conn.
  - sim_close sv_close_next.
  - sim_close sv_close_all.
Qed.

Lemma life_simulated s s' a : life_step listeners workers hasUDP (Live s) (Live s') -> refines s a ->
  exists a', (a' = a \/ server_step a a') /\ refines s' a'.
Proof.
  intros Hst. inversion Hst; subst;
    [by apply start_simulated|by apply loop_simulated|by apply handler_simulated|by apply close_simulated].
Qed.

Lemma life_panicked o o' : life_step listeners workers hasUDP o o' -> o <> Panicked.
Proof. by intros []. Qed.

Lemma reachable_refines (max : Z) s : (0 < listeners)%nat ->
  life_reachable listeners workers hasUDP max (Live s) ->
  exists a, server_reachable max listeners a /\ refines s a.
Proof.
  intros Hl H. refine (rtc_ind_r (fun o => forall s, o = Live s ->
    exists a, server_reachable max listeners a /\ refines s a) _ _ _ _ H s eq_refl); clear s H.
  - intros s E. injection E as <-. exists (server_init max listeners). split; [apply rtc_refl|].
    constructor; try done. unfold abs_procs, unlaunched. cbn [lf_start life_init].
    by replace (S (listeners - 1)) with listeners by lia.
  - intros o o' _ Hst IH s ->. destruct o as [s0|]; [|by apply life_panicked in Hst].
    destruct (IH s0 eq_refl) as (a & Ha & Hra). destruct (life_simulated _ _ _ Hst Hra) as (a' & Hs & Hra').
    exists a'. split; [|done]. destruct Hs as [->|Hs]; [done|]. by eapply rtc_r.
Qed.
End refinement.

(** ** The wait group *)

(** A goroutine's slot of the wait group is gone once its [Done] has counted down. *)
Definition slots (g : gor) : Z := match g with Waking _ _ => 0 | _ => 1 end.
Definition wakings (g : gor) : Z := match g with Waking _ _ => 1 | _ => 0 end.
Definition slot_count (l : list gor) : Z := sumZ (slots <$> l).
Definition waking_count (l : list gor) : Z := sumZ (wakings <$> l).

Arguments slot_count : simpl never.
Arguments waking_count : simpl never.

Lemma slot_count_perm l k : l ≡ₚ k -> slot_count l = slot_count k.
Proof. intros H. apply sumZ_perm. by rewrite H. Qed.
Lemma waking_count_perm l k : l ≡ₚ k -> waking_count l = waking_count k.
Proof. intros H. apply sumZ_perm. by rewrite H. Qed.
Lemma slot_count_cons g l : slot_count (g :: l) = slots g + slot_count l.
Proof. done. Qed.
Lemma waking_count_cons g l : waking_count (g :: l) = wakings g + waking_count l.
Proof. done. Qed.
Lemma slot_count_nonneg l : 0 <= slot_count l.
Proof. apply sumZ_nonneg. by intros []. Qed.
Lemma waking_count_nonneg l : 0 <= waking_count l.
Proof. apply sumZ_nonneg. by intros []. Qed.

Lemma counts_nil l : slot_count l = 0 -> waking_count l = 0 -> l = [].
Proof.
  destruct l as [|g l]; [done|]. rewrite slot_count_cons, waking_count_cons.
  pose proof (slot_count_nonneg l). pose proof (waking_count_nonneg l). destruct g; cbn; lia.
Qed.

Lemma waking_in ln seen l : Waking ln seen ∈ l -> 1 <= waking_count l.
Proof.
  intros [k1 [k2 ->]]%list_elem_of_split. rewrite (waking_count_perm _ (Waking ln seen :: k1 ++ k2))
    by solve_Permutation. rewrite waking_count_cons. pose proof (waking_count_nonneg (k1 ++ k2)). cbn. lia.
Qed.

Lemma wg_Add_ok d wg wg' : wg_Add d wg = WgOk wg' ->
  wg' = mkWG (wg_n wg + d) (wg_w wg) /\ 0 <= wg_n wg + d /\ (0 < wg_n wg + d \/ wg_w wg = 0) /\
  ~ (wg_w wg <> 0 /\ 0 < d /\ wg_n wg = 0).
Proof.
  unfold wg_Add. repeat case_one; intros [= <-]; zbool. split_and!; [done|done| |].
  - destruct (0 <? wg_n wg + d) eqn:E; zbool; [by left|]. right. cbn in *. by zbool.
  - intros (H1 & H2 & H3). rewrite H3, Z.add_0_l, Z.eqb_refl in *.
    destruct (Z.eqb_spec (wg_w wg) 0), (Z.ltb_spec 0 d); cbn in *; done.
Qed.

Lemma wg_Add_wake d wg wg' : wg_Add d wg = WgWake wg' ->
  wg' = mkWG 0 (wg_w wg) /\ wg_n wg + d = 0 /\ wg_w wg <> 0.
Proof.
  unfold wg_Add. repeat case_one; intros [= <-]; zbool.
  assert (wg_n wg + d = 0) as -> by lia. done.
Qed.

Lemma wg_Add_panic d wg : wg_Add d wg = WgPanic ->
  wg_n wg + d < 0 \/ wg_w wg <> 0 /\ 0 < d /\ wg_n wg = 0.
Proof.
  unfold wg_Add. repeat case_one; intros ?; zbool; try done; [by left|right]. split_and!; [done|done|lia].
Qed.

Definition asleep (w : waiter) : bool := match w with WAsleep => true | _ => false end.

(** The counter is the number of goroutines that have not counted themselves down, the
    waiter is counted while it sleeps, and exactly the goroutine that took the counter to
    zero is about to release it. *)
Record wg_inv (s : life) : Prop := {
  wi_count : wg_n (lf_wg s) = slot_count (lf_gs s);
  wi_waiter : wg_w (lf_wg s) = if asleep (lf_waiter s) then 1 else 0;
  wi_waking : waking_count (lf_gs s) =
    if asleep (lf_waiter s) && (wg_n (lf_wg s) =? 0) then 1 else 0;
  wi_seen : forall ln seen, Waking ln seen ∈ lf_gs s -> seen = lf_wg s;
  wi_none : match lf_close s with
    | CIdle | CCloseAll _ | CListeners _ => lf_waiter s = WNone
    | _ => lf_waiter s <> WNone end
}.

(** A step that changes neither the wait group nor who is counted. *)
Lemma wg_inv_frame s s' g l :
  wg_inv s -> lf_gs s ≡ₚ g :: l -> lf_wg s' = lf_wg s -> lf_waiter s' = lf_waiter s ->
  lf_close s' = lf_close s -> (exists g', lf_gs s' = g' :: l /\ slots g' = 1) -> slots g = 1 -> wg_inv s'.
Proof.
  intros [H1 H2 H3 H4 H5] Hp Ew Ewa Ec (g' & Eg & Hs') Hs.
  assert (wakings g = 0) as Hw by by destruct g.
  assert (wakings g' = 0) as Hw' by by destruct g'.
  rewrite (slot_count_perm _ _ Hp), slot_count_cons in H1.
  rewrite (waking_count_perm _ _ Hp), waking_count_cons in H3.
  constructor; rewrite ?Ew, ?Ewa, ?Ec, ?Eg, ?slot_count_cons, ?waking_count_cons; try done; [lia|lia|].
  intros ln seen [E|Hin]%elem_of_cons; [by subst g'|]. apply (H4 ln). rewrite Hp. by right.
Qed.

(** [wg.Add(1)] with a new goroutine. *)
Lemma wg_inv_add s s' wg :
  wg_inv s -> wg_Add 1 (lf_wg s) = WgOk wg -> lf_wg s' = wg -> lf_waiter s' = lf_waiter s ->
  lf_close s' = lf_close s ->
  slot_count (lf_gs s') = slot_count (lf_gs s) + 1 -> waking_count (lf_gs s') = waking_count (lf_gs s) ->
  wg_inv s'.
Proof.
  intros [H1 H2 H3 H4 H5] (-> & Hn & Hv & Hno)%wg_Add_ok Ew Ewa Ec Es Ewk.
  pose proof (slot_count_nonneg (lf_gs s)) as Hpos.
  assert (waking_count (lf_gs s) = 0) as Hz.
  { rewrite H3. destruct (asleep (lf_waiter s)); [|done]. cbn. destruct (Z.eqb_spec (wg_n (lf_wg s)) 0); [|done].
    destruct Hno. split_and!; [rewrite H2; done|lia|done]. }
  constructor; rewrite ?Ew, ?Ewa, ?Ec; cbn [wg_n wg_w]; try done; [lia| |].
  - rewrite Ewk, Hz. destruct (asleep (lf_waiter s)); [|done]. cbn.
    by destruct (Z.eqb_spec (wg_n (lf_wg s) + 1) 0); [lia|].
  - intros ln seen Hin%waking_in. lia.
Qed.

Section waiting.
Context (listeners workers : nat) (hasUDP : bool).
Abbreviation step := (life_step listeners workers hasUDP).

Lemma wg_inv_start s s' : start_step listeners s (Live s') -> wg_inv s -> wg_inv s'.
Proof.
  intros Hst Hi. inversion Hst as [? i wg Hl Hlt Hw|? wg Hl Hw|]; subst;
    (eapply wg_inv_add; [exact Hi|exact Hw|done|done|done| |]); cbn;
    rewrite ?slot_count_cons, ?waking_count_cons; cbn; lia.
Qed.

Lemma wg_inv_loop s s' : loop_step listeners s (Live s') -> wg_inv s -> wg_inv s'.
Proof.
  intros Hst Hi. inversion Hst as [? l i conn Hp Hlt Hf|? l i Hp Hlt|? l i Hp Hlt|? l i conn g Hp Hg|? l i conn Hp Hd
    |? l i conn g Hp Hd Hg|? l i conn Hp Hd|? l i conn cs Hp Ha|? l i conn cs g Hp Ha Hg|? l i conn wg Hp Hw|]; subst;
    try (eapply wg_inv_frame; [exact Hi|exact Hp|done|done|done|by eexists|done]); [done|].
  eapply wg_inv_add; [exact Hi|exact Hw|done|done|done| |]; cbn.
  - by rewrite (slot_count_perm _ _ Hp), !slot_count_cons; cbn [slots]; lia.
  - by rewrite (waking_count_perm _ _ Hp), !waking_count_cons; cbn [wakings]; lia.
Qed.

(** [wg.Done] that leaves others counted, or that nobody waits for. *)
Lemma wg_inv_done s l ln wg : wg_inv s -> lf_gs s ≡ₚ Ending ln :: l -> wg_Add (-1) (lf_wg s) = WgOk wg ->
  wg_inv (set_wg wg (set_gs l s)).
Proof.
  intros [H1 H2 H3 H4 H5] Hp (-> & Hn & Hv & _)%wg_Add_ok.
  rewrite (slot_count_perm _ _ Hp), slot_count_cons in H1. cbn [slots] in H1.
  rewrite (waking_count_perm _ _ Hp), waking_count_cons in H3. cbn [wakings] in H3.
  assert (waking_count l = 0) as Hz.
  { rewrite Z.add_0_l in H3. rewrite H3. pose proof (slot_count_nonneg l).
    destruct (Z.eqb_spec (wg_n (lf_wg s)) 0); [lia|]. by rewrite andb_false_r. }
  constructor; cbn; try done; [lia| |].
  - rewrite Hz. destruct (asleep (lf_waiter s)) eqn:E; [|done]. cbn.
    destruct (Z.eqb_spec (wg_n (lf_wg s) + -1) 0); [|done]. destruct Hv; lia.
  - intros ln' seen Hin%waking_in. lia.
Qed.

Lemma wg_inv_done_last s l ln wg : wg_inv s -> lf_gs s ≡ₚ Ending ln :: l ->
  wg_Add (-1) (lf_wg s) = WgWake wg -> wg_inv (set_wg wg (set_gs (Waking ln wg :: l) s)).
Proof.
  intros [H1 H2 H3 H4 H5] Hp (-> & Hn & Hv)%wg_Add_wake.
  rewrite (slot_count_perm _ _ Hp), slot_count_cons in H1. cbn [slots] in H1.
  rewrite (waking_count_perm _ _ Hp), waking_count_cons in H3. cbn [wakings] in H3.
  destruct (asleep (lf_waiter s)) eqn:E; [|lia].
  assert (waking_count l = 0) as Hz.
  { destruct (Z.eqb_spec (wg_n (lf_wg s)) 0); [lia|]. cbn in H3. lia. }
  constructor; cbn; try done; rewrite ?E; cbn; rewrite ?slot_count_cons, ?waking_count_cons; cbn [slots wakings]; [lia|done|lia|].
  intros ln' seen [[= _ ->]|Hin%waking_in]%elem_of_cons; [done|lia].
Qed.

Lemma wg_inv_wake s l ln : wg_inv s -> lf_gs s ≡ₚ Waking ln (lf_wg s) :: l ->
  lf_waiter s = WAsleep /\ slot_count l = 0 /\ waking_count l = 0.
Proof.
  intros [H1 H2 H3 H4 H5] Hp.
  rewrite (slot_count_perm _ _ Hp), slot_count_cons in H1. cbn [slots] in H1.
  rewrite (waking_count_perm _ _ Hp), waking_count_cons in H3. cbn [wakings] in H3.
  pose proof (waking_count_nonneg l).
  destruct (lf_waiter s) eqn:Ew; cbn in H3; try lia.
  destruct (Z.eqb_spec (wg_n (lf_wg s)) 0); [|lia]. split_and!; [done|lia|lia].
Qed.

Lemma wg_inv_handler s s' : handler_step workers hasUDP s (Live s') -> wg_inv s -> wg_inv s'.
Proof.
  intros Hst Hi. inversion Hst as [? l conn Hp|? l conn g Hp Hga|? l conn Hp Hw Hu|? k Hw Hx|? l ln wg Hp Hw
    |? l ln wg Hp Hw| |? l ln Hp| |? l conn Hp]; subst;
    try (eapply wg_inv_frame; [exact Hi|exact Hp|done|done|done|by eexists|done]).
  1,2: by destruct Hi; constructor.
  - by eapply wg_inv_done.
  - by eapply wg_inv_done_last.
  - destruct (wg_inv_wake _ _ _ Hi Hp) as (Ew & Hs & Hk). destruct Hi as [H1 H2 H3 H4 H5].
    constructor; cbn; rewrite ?Ew; cbn; try done.
    + intros ln' seen Hin%waking_in. lia.
    + rewrite Ew in H5. by destruct (lf_close s).
Qed.

Lemma wg_inv_close s s' : close_step listeners hasUDP s (Live s') -> wg_inv s -> wg_inv s'.
Proof.
  intros Hst [H1 H2 H3 H4 H5]. inversion Hst as [? E|? E|? i conns cs E Hi Ec|? i conn conns E|? i E|? E|? i E Hi|? E|? E Hn
    |? E Hn|? E Hz| |? E Hw|? E|? ok E Hw|? ok E]; subst;
  try (rewrite E in H5; constructor; cbn; unfold after_wait; try done; by destruct hasUDP).
  - rewrite E in H5. rewrite H5 in H2, H3. constructor; cbn; done.
  - rewrite E in *. constructor; cbn; try done. by destruct (lf_close s).
  - rewrite E in *. cbn in *. constructor; cbn; try done; [by rewrite H2| | |].
    + by destruct (Z.eqb_spec (wg_n (lf_wg s)) 0).
    + intros ln seen Hin%waking_in. lia.
    + by destruct (lf_close s).
  - rewrite E in *. constructor; cbn; try done. by destruct (lf_close s).
Qed.

Lemma wg_inv_step s s' : step (Live s) (Live s') -> wg_inv s -> wg_inv s'.
Proof.
  intros Hst. inversion Hst; subst;
    [by apply wg_inv_start|by apply wg_inv_loop|by apply wg_inv_handler|by apply wg_inv_close].
Qed.

(** Only two of the checks of the wait group can fail: that of [Start]'s own [Add], and
    that of a waiter which finds the group in use again. *)
Lemma panics_only s : wg_inv s -> step (Live s) Panicked ->
  (exists i, lf_start s = Launch i) \/ lf_waiter s = WAwake /\ lf_wg s <> wg_zero.
Proof.
  intros [H1 H2 H3 H4 H5] Hst.
  inversion Hst as [? ? Hs|? ? Hs|? ? Hs|? ? Hs]; subst; inversion Hs; subst; [by left; eexists| | | |by right].
  - rewrite (slot_count_perm _ _ H), slot_count_cons in H1. cbn in H1. pose proof (slot_count_nonneg l).
    by apply wg_Add_panic in H0 as [?|(?&?&?)]; lia.
  - rewrite (slot_count_perm _ _ H), slot_count_cons in H1. cbn in H1. pose proof (slot_count_nonneg l).
    by apply wg_Add_panic in H0 as [?|(?&?&?)]; lia.
  - destruct H0. apply (H4 ln). rewrite H. by left.
Qed.

(** After [Start] has launched its loops and before [Close] waits. *)
Record quiet_inv (s : life) : Prop := {
  q_launched : lf_start s = Launched;
  q_gone : lf_waiter s = WAwake \/ lf_waiter s = WDone -> lf_gs s = [];
  q_ok : forall udp, lf_close s = CUDP true \/ lf_close s = CReturned true udp -> lf_waiter s = WDone;
  q_udp : lf_close s = CReturned true true -> lf_workers s = None \/ lf_workers s = Some 0%nat;
  q_noudp : hasUDP = false -> lf_workers s = None
}.

Lemma quiet_loop s s' : loop_step listeners s (Live s') -> quiet_inv s -> quiet_inv s'.
Proof.
  intros Hst [H1 H2 H3 H4 H5].
  inversion Hst; subst; try done;
    (constructor; cbn; try done; intros Hw; apply H2 in Hw; exfalso;
     rewrite Hw in *; by match goal with Hp : [] ≡ₚ _ |- _ => apply Permutation_nil in Hp end).
Qed.

Lemma quiet_handler s s' : handler_step workers hasUDP s (Live s') -> wg_inv s -> quiet_inv s -> quiet_inv s'.
Proof.
  intros Hst Hi [H1 H2 H3 H4 H5].
  inversion Hst as [? l conn Hp|? l conn g Hp Hga|? l conn Hp Hw Hu|? k Hw Hx|? l ln wg Hp Hw
    |? l ln wg Hp Hw| |? l ln Hp| |? l conn Hp]; subst;
  try (constructor; cbn; try done; intros Hwt; apply H2 in Hwt; rewrite Hwt in Hp;
       by apply Permutation_nil in Hp).
  - constructor; cbn; try done; [|by rewrite Hu]. intros E. exfalso.
    rewrite (H2 (or_intror (H3 true (or_intror E)))) in Hp. by apply Permutation_nil in Hp.
  - constructor; cbn; try done; [|by intros E; apply H5 in E; rewrite E in Hw].
    intros E. destruct (H4 E) as [Hn|Hn]; rewrite Hn in Hw; [done|]. by injection Hw.
  - destruct (wg_inv_wake _ _ _ Hi Hp) as (Ew & Hs & Hk).
    constructor; cbn; try done; [intros _; by apply counts_nil|].
    intros udp E. by rewrite (H3 _ E) in Ew.
Qed.

Lemma quiet_close s s' : close_step listeners hasUDP s (Live s') -> wg_inv s -> quiet_inv s -> quiet_inv s'.
Proof.
  intros Hst Hi [H1 H2 H3 H4 H5]. inversion Hst as [? E|? E|? i conns cs E Hc Ec|? i conn conns E|? i E|? E|? i E Hc|? E|? E Hn
    |? E Hn|? E Hz| |? E Hw|? E|? ok E Hw|? ok E]; subst;
  try (constructor; cbn; try done; [by intros ? [?|?]]).
  - constructor; cbn; try done; [by intros [?|?]|by intros ? [?|?]].
  - constructor; cbn; try done. intros _. apply counts_nil; [by rewrite <- (wi_count _ Hi)|].
    by rewrite (wi_waking _ Hi), E.
  - constructor; cbn; try done; [by intros [?|?]|]. intros udp Hc. by rewrite (H3 _ Hc) in E.
  - constructor; cbn; try done. intros _. apply H2. by left.
  - unfold after_wait. constructor; cbn; try done; destruct hasUDP eqn:Eu; try done. intros _. left. by apply H5.
  - unfold after_wait. constructor; cbn; try done; destruct hasUDP eqn:Eu; try done; by intros ? [?|?].
  - constructor; cbn; try done. intros udp [?|[= -> <-]]; [done|]. apply (H3 true). by left.
  - constructor; cbn; try done. intros udp [?|[= -> <-]]; [done|]. apply (H3 true). by left.
Qed.

Lemma quiet_step s s' : step (Live s) (Live s') -> wg_inv s -> quiet_inv s -> quiet_inv s'.
Proof.
  intros Hst Hi Hq. inversion Hst as [? ? Hs|? ? Hs|? ? Hs|? ? Hs]; subst;
    [|by eapply quiet_loop|by eapply quiet_handler|by eapply quiet_close].
  destruct Hq. inversion Hs; congruence.
Qed.

(** *** Well-formed states *)

Definition wf_gor (g : gor) : Prop :=
  match g with
  | Run (Some i) (LoopAccept | LoopAcquire _ | LoopCheck _ | LoopAdd _) => (i < listeners)%nat
  | Run None (Handling _ | Releasing _) => True
  | AddWG i _ => (i < listeners)%nat
  | Ending _ | Waking _ _ | Blocked _ => True
  | _ => False
  end.

Record wf_life (s : life) : Prop := {
  t_launch : match lf_start s with Launch i => (i <= listeners)%nat | Launched => True end;
  t_gs : Forall wf_gor (lf_gs s);
  t_done : match lf_close s with
    | CIdle | CCloseAll NotClosing => True | _ => cs_done (lf_set s) = true end;
  t_cancel : lf_close s <> CIdle -> (0%nat) ∈ lf_cancelled s
}.

Lemma Add_done conn cs b cs' : Add conn cs = (b, cs') -> cs_done cs' = cs_done cs.
Proof. destruct b; [by intros (sh & _ & _ & ->)%Add_true|by intros ->%Add_false]. Qed.
Lemma CloseShard_done i cs l cs' : CloseShard i cs = (l, cs') -> cs_done cs' = cs_done cs.
Proof. unfold CloseShard. by destruct (cs_shards cs !! i); intros [= <- <-]. Qed.

(** A goroutine moves on to well-formed ones. *)
Lemma wf_move s s' g k l :
  wf_life s -> lf_gs s ≡ₚ g :: l -> lf_gs s' = k ++ l -> lf_start s' = lf_start s -> lf_close s' = lf_close s ->
  cs_done (lf_set s') = cs_done (lf_set s) -> lf_cancelled s' = lf_cancelled s ->
  (wf_gor g -> Forall wf_gor k) -> wf_life s'.
Proof.
  intros [H1 H2 H3 H4] Hp Eg Es Ec Ed Ek Hk. rewrite Hp in H2. apply Forall_cons in H2 as [Hg Hl].
  constructor; rewrite ?Es, ?Ec, ?Ed, ?Ek, ?Eg; try done. apply Forall_app. by split; [apply Hk|].
Qed.

Ltac wf_moves k :=
  match goal with
  | Hi : wf_life ?s, Hp : lf_gs ?s ≡ₚ ?g :: ?l |- _ =>
      eapply (wf_move s _ g k l); [exact Hi|exact Hp|done|done|done|cbn; eauto using Add_done|done|];
      let H := fresh in
      intros H; repeat apply Forall_cons_2; first [exact H|exact I|apply Forall_nil_2]
  end.

Lemma wf_step s s' : step (Live s) (Live s') -> (0 < listeners)%nat -> wf_life s -> wf_life s'.
Proof.
  intros Hst Hl Hi. inversion Hst as [? ? Hs|? ? Hs|? ? Hs|? ? Hs]; subst.
  - destruct Hi as [H1 H2 H3 H4]. inversion Hs as [? i wg E Hlt Hw|? wg E Hw|]; subst;
      rewrite E in H1; (constructor; cbn; [try lia; done|by constructor|done|done]).
  - inversion Hs as [? l i conn Hp Hlt Hf|? l i Hp Hlt|? l i Hp Hlt|? l i conn g Hp Hg|? l i conn Hp Hd
    |? l i conn g Hp Hd Hg|? l i conn Hp Hd|? l i conn cs Hp Ha|? l i conn cs g Hp Ha Hg|? l i conn wg Hp Hw|]; subst.
    + wf_moves [Run (Some i) (LoopAcquire conn)].
    + done.
    + wf_moves [Ending (Some i)].
    + wf_moves [Run (Some i) (LoopCheck conn)].
    + wf_moves [Ending (Some i)].
    + wf_moves [Ending (Some i)].
    + wf_moves [Run (Some i) (LoopAdd conn)].
    + wf_moves [AddWG i conn].
    + wf_moves [Run (Some i) LoopAccept].
    + wf_moves [Run (Some i) LoopAccept; Run None (Handling conn)].
  - inversion Hs as [? l conn Hp|? l conn g Hp Hga|? l conn Hp Hw Hu|? k Hw Hx|? l ln wg Hp Hw
    |? l ln wg Hp Hw| |? l ln Hp| |? l conn Hp]; subst.
    + wf_moves [Run None (Releasing conn)].
    + wf_moves [Ending None].
    + by destruct Hi; constructor.
    + by destruct Hi; constructor.
    + wf_moves (@nil gor).
    + wf_moves [Waking ln wg].
    + wf_moves (@nil gor).
    + wf_moves [Blocked conn].
  - destruct Hi as [H1 H2 H3 H4]. inversion Hs; subst;
      try (match goal with E : lf_close s = _ |- _ => rewrite E in H3, H4 end);
      (constructor; cbn; unfold after_wait; try done; try (by destruct hasUDP); try (by erewrite CloseShard_done);
       try set_solver; try (by intros _; apply H4)).
Qed.

(** What every step preserves holds along a run. *)
Lemma run_inv (P : life -> Prop) s0 s :
  (forall s s', step (Live s) (Live s') -> P s -> P s') -> rtc step (Live s0) (Live s) -> P s0 -> P s.
Proof.
  intros Hstep H H0. refine (rtc_ind_r (fun o => forall s, o = Live s -> P s) _ _ _ _ H s eq_refl); clear s H.
  - by intros s [= <-].
  - intros o o' _ Hst IH s ->. destruct o as [s1|]; [|by apply life_panicked in Hst].
    by eapply Hstep, IH.
Qed.

Lemma noudp_step s s' : step (Live s) (Live s') ->
  (hasUDP = false -> lf_workers s = None) -> hasUDP = false -> lf_workers s' = None.
Proof.
  intros Hst H Hu. specialize (H Hu).
  inversion Hst as [? ? Hs|? ? Hs|? ? Hs|? ? Hs]; subst; inversion Hs; subst; cbn; congruence.
Qed.

Lemma life_inv max s : (0 < listeners)%nat -> life_reachable listeners workers hasUDP max (Live s) ->
  wg_inv s /\ wf_life s /\ (hasUDP = false -> lf_workers s = None).
Proof.
  intros Hl H. split_and!.
  - eapply (run_inv wg_inv); [apply wg_inv_step|exact H|]. constructor; cbn; try done. set_solver.
  - eapply (run_inv wf_life); [intros ??? ; by eapply wf_step|exact H|]. constructor; cbn; try done.
  - eapply (run_inv (fun s => hasUDP = false -> lf_workers s = None)); [apply noudp_step|exact H|done].
Qed.

(** A goroutine that holds a token finds one in the channel. *)
Lemma holder_token max s g l : (0 < listeners)%nat -> 0 <= max ->
  life_reachable listeners workers hasUDP max (Live s) -> lf_gs s ≡ₚ g :: l ->
  (exists p k, erase g = p :: k /\ holds p = 1) -> exists gt, gate_recv (lf_gate s) = Some gt.
Proof.
  intros Hl Hm Hr Hp (p & k & Eg & Hh). destruct (reachable_refines _ _ _ _ _ Hl Hr) as (a & Ha & Hra).
  destruct (reachable_inv max listeners a Hm Ha) as (_ & Hg & _).
  pose proof (refines_split _ _ _ _ _ Hra Hp) as Hs%holders_perm. rewrite Eg in Hs. cbn [app] in Hs.
  rewrite holders_cons, Hh in Hs. unfold gate_inv in Hg. rewrite (rf_gate _ _ _ Hra) in Hg.
  unfold gate_recv. destruct (lf_gate s) as [[n cap]|]; [|by eexists]. destruct Hg as [-> _].
  pose proof (holders_nonneg (k ++ erase_all l ++ replicate (unlaunched listeners (lf_start s)) LoopAccept)).
  destruct (Z.ltb_spec 0 (holders (sv_procs a))); [by eexists|lia].
Qed.

(** *** Shutdown ends *)

(** All listeners are closed. *)
Definition settled (s : life) : Prop :=
  match lf_close s with
  | CListeners i => i = listeners
  | CWaiting | CUDP _ | CReturned _ _ => True
  | _ => False
  end.

Definition gor_weight (g : gor) : nat :=
  match g with
  | Run _ (LoopAcquire _) => 11 | Run _ (LoopCheck _) => 10 | Run _ (LoopAdd _) => 9
  | AddWG _ _ => 8 | Run _ (Handling _) => 4 | Run _ _ => 3 | Ending _ => 2 | Waking _ _ => 1
  | Blocked _ => 0
  end.
Definition gors_weight (l : list gor) : nat := sum_list (gor_weight <$> l).
Definition life_weight (s : life) : nat :=
  gors_weight (lf_gs s) +
  match lf_start s with Launch i => 4 * S (listeners - i) | Launched => 0 end +
  match lf_close s with CWaiting => 2 | CUDP _ => 1 | CReturned _ _ => 0 | _ => 6 end +
  match lf_waiter s with WNone => 4 | WLoad => 3 | WAsleep => 2 | WAwake => 1 | WDone => 0 end +
  match lf_workers s with None => S workers | Some k => k end.
Arguments gors_weight : simpl never.

Lemma gors_weight_perm l k : l ≡ₚ k -> gors_weight l = gors_weight k.
Proof. intros H. unfold gors_weight. by rewrite H. Qed.
Lemma gors_weight_cons g l : gors_weight (g :: l) = (gor_weight g + gors_weight l)%nat.
Proof. done. Qed.

(** An accept loop finds its listener closed. *)
Lemma settled_closed s l i : wf_life s -> settled s -> lf_gs s ≡ₚ Run (Some i) LoopAccept :: l ->
  (i < closed_listeners listeners s)%nat.
Proof.
  intros [_ Hg _ _] Hset Hp. rewrite Hp in Hg. apply Forall_cons in Hg as [Hi _]. cbn in Hi.
  unfold settled, closed_listeners in *. by destruct (lf_close s); subst.
Qed.

Lemma settled_step s s' : step (Live s) (Live s') -> wf_life s -> settled s ->
  settled s' /\ (life_weight s' < life_weight s)%nat.
Proof.
  intros Hst Hwf Hset. pose proof (settled_closed s) as Hcl. unfold settled, life_weight in *.
  inversion Hst as [? ? Hs|? ? Hs|? ? Hs|? ? Hs]; subst; inversion Hs; subst; cbn;
    try (match goal with Hp : lf_gs s ≡ₚ _ |- _ =>
           rewrite (gors_weight_perm _ _ Hp), ?gors_weight_cons; cbn [gor_weight] end);
    try (match goal with E : lf_close s = _ |- _ => rewrite E in *; cbn in * end);
    try (match goal with E : lf_start s = _ |- _ => rewrite E; rewrite ?gors_weight_cons; cbn [gor_weight] end);
    try (match goal with E : lf_waiter s = _ |- _ => rewrite E end);
    try (match goal with E : lf_workers s = _ |- _ => rewrite E end);
    unfold after_wait; try (destruct hasUDP; cbn; (split; [done|lia]));
    try (destruct (lf_waiter s); cbn; (split; [done|lia]));
    try (split; [done|lia]); subst; try lia;
    match goal with Hp : lf_gs _ ≡ₚ Run (Some ?i) _ :: _ |- _ =>
      specialize (Hcl _ i Hwf Hset Hp); lia end.
Qed.

Lemma settled_acc s : wf_life s -> settled s -> (0 < listeners)%nat -> Acc (flip step) (Live s).
Proof.
  intros Hwf Hset Hl. remember (life_weight s) as n eqn:E. revert s Hwf Hset E.
  induction (lt_wf n) as [n _ IH]. intros s Hwf Hset ->. constructor. intros [s'|] Hst; cbn in Hst.
  - destruct (settled_step _ _ Hst Hwf Hset) as [Hset' Hlt].
    eapply IH; [exact Hlt|by eapply wf_step|done|done].
  - constructor. intros o Ho. by apply life_panicked in Ho.
Qed.

Lemma settled_done s : wf_life s -> settled s -> cs_done (lf_set s) = true.
Proof. intros [_ _ Hd _]. unfold settled. by destruct (lf_close s). Qed.

Definition blocked (g : gor) : bool := match g with Blocked _ => true | _ => false end.

(** Once the listeners are closed every goroutine can go on, but for a blocked handler. *)
Lemma gor_progress max s g l : (0 < listeners)%nat -> 0 <= max ->
  life_reachable listeners workers hasUDP max (Live s) -> settled s -> lf_gs s ≡ₚ g :: l ->
  blocked g = false -> exists o, step (Live s) o.
Proof.
  intros Hl Hm Hr Hset Hp Hb. destruct (life_inv _ _ Hl Hr) as (Hi & Hwf & _).
  pose proof (settled_done _ Hwf Hset) as Hd. pose proof (holder_token _ _ _ _ Hl Hm Hr Hp) as Ht.
  assert (wf_gor g) as Hg. { destruct Hwf as [_ Hg _ _]. rewrite Hp in Hg. by apply Forall_cons in Hg as [? _]. }
  destruct g as [[i|] p|i c|ln|ln seen|c]; cbn in Hg; [..|done].
  - destruct p as [|c|c|c|c|c]; try done.
    + eexists. apply life_loop. eapply lp_accept_closed; [exact Hp|by eapply settled_closed].
    + eexists. apply life_loop. by eapply lp_acquire_done.
    + destruct Ht as [gt Ht]; [by eexists _, _|]. eexists. apply life_loop. by eapply lp_check_done.
    + destruct (Add c (lf_set s)) as [[] cs] eqn:Ea; [eexists; apply life_loop; by eapply lp_add|].
      destruct Ht as [gt Ht]; [by eexists _, _|]. eexists. apply life_loop. by eapply lp_add_refused.
  - destruct p as [|c|c|c|c|c]; try done; [eexists; apply life_handler; by eapply hd_handled|].
    destruct Ht as [gt Ht]; [by eexists _, _|]. eexists. apply life_handler. by eapply hd_released.
  - destruct (wg_Add 1 (lf_wg s)) as [|wg|wg] eqn:Ew; [eexists; apply life_loop; by eapply lp_wg_panic
      |eexists; apply life_loop; by eapply lp_wg_add|].
    apply wg_Add_wake in Ew as (_ & Hn & _). rewrite (wi_count _ Hi) in Hn.
    pose proof (slot_count_nonneg (lf_gs s)). lia.
  - destruct (wg_Add (-1) (lf_wg s)) as [|wg|wg] eqn:Ew; eexists; apply life_handler;
      [by eapply hd_done_panic|by eapply hd_done|by eapply hd_done_last].
  - destruct (decide (seen = lf_wg s)) as [->|Hne]; eexists; apply life_handler;
      [by eapply hd_wake|by eapply hd_wake_panic].
Qed.

(** Everything has ended: [Start] and [Close] returned, no goroutine is left. *)
Record finished (s : life) : Prop := {
  f_start : lf_start s = Launched;
  f_gs : lf_gs s = [];
  f_close : exists ok udp, lf_close s = CReturned ok udp;
  f_workers : lf_workers s = None \/ lf_workers s = Some 0%nat
}.

(** [Start] and [Close] returned, the workers are gone, and of the goroutines only handlers
    that block are left. *)
Record shut_down (s : life) : Prop := {
  sd_start : lf_start s = Launched;
  sd_gs : Forall blocked (lf_gs s);
  sd_close : exists ok udp, lf_close s = CReturned ok udp;
  sd_workers : lf_workers s = None \/ lf_workers s = Some 0%nat
}.

Lemma all_blocked l : Forall blocked l \/ exists g k, l ≡ₚ g :: k /\ blocked g = false.
Proof.
  induction l as [|g l IH]; [by left|]. destruct (blocked g) eqn:Eb.
  - destruct IH as [IH|(g' & k & Hp & Hb)]; [left; constructor; [by rewrite Eb|done]|right].
    exists g', (g :: k). split; [|done]. rewrite Hp. apply Permutation_swap.
  - right. by exists g, l.
Qed.

Lemma shut_down_finished s : shut_down s -> (forall c, Blocked c ∉ lf_gs s) -> finished s.
Proof.
  intros [H1 H2 H3 H4] Hn. constructor; try done. destruct (lf_gs s) as [|g l] eqn:Eg; [done|].
  apply Forall_cons in H2 as [Hg _]. destruct g as [| | | |c]; try done. destruct (Hn c). by left.
Qed.

Lemma settled_progress max s : (0 < listeners)%nat -> 0 <= max ->
  life_reachable listeners workers hasUDP max (Live s) -> settled s ->
  shut_down s \/ exists o, step (Live s) o.
Proof.
  intros Hl Hm Hr Hset. destruct (life_inv _ _ Hl Hr) as (Hi & Hwf & _).
  destruct (all_blocked (lf_gs s)) as [Eg|(g & l & Eg & Hb)]; [|right; by eapply gor_progress].
  destruct (lf_start s) as [i|] eqn:Es.
  { right. pose proof (t_launch _ Hwf) as Hle. rewrite Es in Hle.
    destruct (wg_Add 1 (lf_wg s)) as [|wg|wg] eqn:Ew; [eexists; apply life_start; by eapply st_panic| |].
    - destruct (decide (i = listeners)) as [->|]; eexists; apply life_start; [by eapply st_main|].
      eapply st_extra; [done|lia|done].
    - apply wg_Add_wake in Ew as (_ & Hn & _). rewrite (wi_count _ Hi) in Hn.
      pose proof (slot_count_nonneg (lf_gs s)). lia. }
  pose proof (t_cancel _ Hwf) as Hc. unfold settled in Hset.
  destruct (lf_close s) as [|k|i| |ok|ok udp] eqn:Ec; try done.
  - right. subst i. eexists. apply life_close. by eapply cl_wait.
  - right. eexists. apply life_close. by eapply cl_wait_timeout.
  - right. eexists. apply life_close. by eapply cl_udp_timeout.
  - destruct (lf_workers s) as [[|k]|] eqn:Ew; [left; constructor; eauto| |left; constructor; eauto].
    right. eexists. apply life_handler. eapply hd_worker_exit; [done|]. cbn.
    rewrite bool_decide_eq_true_2; [done|by apply Hc].
Qed.

(** Runs that start before [Close] waits and after [Start] has launched its loops. *)
Lemma quiet_run max s0 o : (0 < listeners)%nat ->
  life_reachable listeners workers hasUDP max (Live s0) -> lf_start s0 = Launched -> lf_waiter s0 = WNone ->
  rtc step (Live s0) o -> exists s, o = Live s /\ wg_inv s /\ quiet_inv s.
Proof.
  intros Hl Hr Hst Hw H. destruct (life_inv _ _ Hl Hr) as (Hi & _ & Hu).
  refine (rtc_ind_r (fun o => exists s, o = Live s /\ wg_inv s /\ quiet_inv s) _ _ _ _ H); clear o H.
  - exists s0. split_and!; [done|done|]. pose proof (wi_none _ Hi) as Hn. rewrite Hw in Hn.
    constructor; [done|by rewrite Hw; intros [?|?]| | |done]; [intros udp [E|E]|intros E]; by rewrite E in Hn.
  - intros o o' _ Hs (s & -> & Hi' & Hq). destruct o' as [s'|].
    + exists s'. split_and!; [done|by eapply wg_inv_step|by eapply quiet_step].
    + exfalso. destruct (panics_only _ Hi' Hs) as [[i E]|[E Hne]]; [by rewrite (q_launched _ Hq) in E|].
      apply Hne. destruct (lf_wg s) as [n w] eqn:Ew. pose proof (wi_count _ Hi') as Hc.
      pose proof (wi_waiter _ Hi') as Hv. rewrite Ew in Hc, Hv. cbn in Hc, Hv.
      rewrite E in Hv. cbn in Hv. rewrite (q_gone _ Hq (or_introl E)) in Hc. by rewrite Hc, Hv.
Qed.

(** C14: Every run of a server, with the launching of its loops, its wait group and the
    whole of [Close], is a run of the model of accept loops, handlers and [CloseAll] in
    [Serverbase]: so, however they interleave, at most [max] connections are handled at
    once, and once [CloseAll] is through, the connection of every handler is closed and
    none is registered any more. *)
Theorem lifecycle_refines_server (max : Z) (s : life) :
  (0 < listeners)%nat -> 0 <= max < 2 ^ 32 -> life_reachable listeners workers hasUDP max (Live s) ->
  (exists a, server_reachable max listeners a /\ refines listeners s a) /\
  (0 < max -> exists n, lf_gate s = Some (n, max) /\ n = holders (abs_procs listeners s) /\ n <= max) /\
  (abs_closer (lf_close s) = ClosedAll ->
     (forall c, Handling c ∈ abs_procs listeners s -> c ∈ lf_closed s) /\
     (forall c, Add c (lf_set s) = (false, lf_set s))).
Proof.
  intros Hl Hm Hr. destruct (reachable_refines _ _ _ _ _ Hl Hr) as (a & Ha & Hra).
  destruct (reachable_inv max listeners a ltac:(lia) Ha) as (Hi & Hg & Hc). split_and!; [by exists a| |].
  - intros Hpos. unfold gate_inv in Hg. rewrite (rf_gate _ _ _ Hra) in *.
    unfold NewConnectionGate in Hc. destruct (Z.eqb_spec max 0); [lia|].
    destruct (lf_gate s) as [[k cap]|]; [|done]. injection Hc as ->. destruct Hg as [-> Hle].
    rewrite (holders_perm _ _ (rf_procs _ _ _ Hra)) in *. by eexists.
  - intros E. rewrite <- (rf_closer _ _ _ Hra) in E. rewrite <- (rf_closed _ _ _ Hra), <- (rf_set _ _ _ Hra).
    split; intros c.
    + intros Hc'. apply closed_all_handlers; [done|done|]. by rewrite (rf_procs _ _ _ Hra).
    + by apply closed_all_add.
Qed.

(** C12: When [Start] has launched its loops before [Close] comes to wait for them, the
    wait group is used correctly and the wait means what it says: no run panics, the
    counter is the number of goroutines that have not yet finished, and when [Close]
    returns without a wait error no accept loop, no handler and no UDP worker is left,
    and none will ever start. *)
Theorem shutdown_waits_for_all (max : Z) (s0 : life) (o : outcome) :
  (0 < listeners)%nat -> life_reachable listeners workers hasUDP max (Live s0) ->
  lf_start s0 = Launched -> lf_waiter s0 = WNone -> rtc step (Live s0) o ->
  exists s, o = Live s /\ wg_n (lf_wg s) = slot_count (lf_gs s) /\
    (lf_close s = CReturned true true ->
       finished s /\ forall o', step (Live s) o' -> False).
Proof.
  intros Hl Hr Hst Hw H. destruct (quiet_run _ _ _ Hl Hr Hst Hw H) as (s & -> & Hi & Hq).
  exists s. split_and!; [done|apply Hi|]. intros E. pose proof (q_ok _ Hq _ (or_intror E)) as Ewt.
  pose proof (q_gone _ Hq (or_intror Ewt)) as Eg. pose proof (q_udp _ Hq E) as Ewk.
  split; [constructor; [apply Hq|done|by eexists _, _|done]|].
  intros o' Hs. inversion Hs as [? ? Hx|? ? Hx|? ? Hx|? ? Hx]; subst; inversion Hx; subst;
    rewrite ?(q_launched _ Hq) in *; try congruence;
    try (match goal with Hp : lf_gs s ≡ₚ _ |- _ => rewrite Eg in Hp; by apply Permutation_nil in Hp end).
  destruct Ewk; congruence.
Qed.

(** C13: Shutdown ends: once [Close] has closed the listeners there is no infinite run,
    whatever loops, handlers, workers and timers do in which order. A run can only stop in
    two ways. Either [Close] and [Start] have returned, the UDP workers are gone and no
    goroutine is left but handlers that block for good; nothing at all is left when none
    does, and [Close] has reported those that do. Or the process has panicked, which it
    cannot when [Start] had launched its loops before [Close] began to wait. *)
Theorem shutdown_ends (max : Z) (s : life) :
  (0 < listeners)%nat -> 0 <= max < 2 ^ 32 -> life_reachable listeners workers hasUDP max (Live s) -> settled s ->
  let launched_first := lf_start s = Launched /\ lf_waiter s = WNone in
  Acc (flip step) (Live s) /\
  forall o, rtc step (Live s) o -> (forall o', ~ step o o') ->
    (o = Panicked /\ ~ launched_first) \/
    exists s', o = Live s' /\ shut_down s' /\ ((forall c, Blocked c ∉ lf_gs s') -> finished s') /\
      (launched_first -> lf_gs s' <> [] -> exists udp, lf_close s' = CReturned false udp).
Proof.
  intros Hl Hm Hr Hset lf. split; [apply settled_acc; try done; by apply (life_inv max)|].
  intros o H Hstuck. assert (lf -> exists s', o = Live s' /\ wg_inv s' /\ quiet_inv s') as Hq
    by (intros [Hst Hw]; by eapply (quiet_run max s)).
  destruct o as [s'|]; [right|left; split; [done|]; intros (s' & ? & _)%Hq; done].
  assert (shut_down s') as Hsd.
  { assert (life_reachable listeners workers hasUDP max (Live s')) as Hr' by (unfold life_reachable in *; by etrans).
    destruct (settled_progress max s' Hl ltac:(lia) Hr') as [Hf|[o' Ho]]; [|done|by apply Hstuck in Ho].
    assert (wf_life s' /\ settled s') as [_ ?]; [|done].
    eapply (run_inv (fun s => wf_life s /\ settled s)); [|exact H|split; [by apply (life_inv max)|done]].
    intros s1 s2 Hs [Hw1 Hs1]. split; [by eapply wf_step|by eapply settled_step]. }
  exists s'. split; [done|]. split; [done|]. split; [by apply shut_down_finished|].
  intros Hlf Hne. destruct (Hq Hlf) as (s1 & [= <-] & _ & Hquiet). destruct (sd_close _ Hsd) as (ok & udp & Ec).
  exists udp. rewrite Ec. destruct ok; [|done]. destruct Hne.
  apply (q_gone _ Hquiet). right. apply (q_ok _ Hquiet udp). by right.
Qed.

(** *** [Close] on its own *)

(** What the closing goroutine leaves alone until it waits. *)
Definition same_goroutines (s s' : life) : Prop :=
  lf_gs s' = lf_gs s /\ lf_start s' = lf_start s /\ lf_wg s' = lf_wg s /\ lf_waiter s' = lf_waiter s /\
  lf_workers s' = lf_workers s.

#[local] Instance same_goroutines_trans : Transitive same_goroutines.
Proof. intros s1 s2 s3 (E1&E2&E3&E4&E5) (F1&F2&F3&F4&F5). unfold same_goroutines. split_and!; by etrans. Qed.

Lemma close_conns_life i conns s : lf_close s = CCloseAll (ClosingConns i conns) ->
  exists s', rtc step (Live s) (Live s') /\ same_goroutines s s' /\ lf_close s' = CCloseAll (ClosingShard (S i)).
Proof.
  revert s. induction conns as [|c conns IH]; intros s E.
  - eexists. split; [eapply rtc_once, life_close, cl_next, E|done].
  - edestruct (IH (set_close (CCloseAll (ClosingConns i conns)) (set_closed ({[c]} ∪ lf_closed s) s)))
      as (s' & H1 & H2 & H3); [done|].
    exists s'. split; [|done]. eapply rtc_l; [eapply life_close, cl_conn, E|done].
Qed.

Lemma close_shards_life n i s : lf_close s = CCloseAll (ClosingShard i) -> (i + n = Z.to_nat connSetShards)%nat ->
  exists s', rtc step (Live s) (Live s') /\ same_goroutines s s' /\ lf_close s' = CListeners 0.
Proof.
  revert i s. induction n as [|n IH]; intros i s E Hi.
  - replace i with (Z.to_nat connSetShards) in E by lia.
    eexists. split; [eapply rtc_once, life_close, cl_all, E|done].
  - destruct (CloseShard i (lf_set s)) as [conns cs] eqn:Ec.
    destruct (close_conns_life i conns (set_close (CCloseAll (ClosingConns i conns)) (set_set cs s)))
      as (s1 & H1 & Hs1 & E1); [done|].
    destruct (IH (S i) s1) as (s2 & H2 & Hs2 & E2); [done|lia|].
    exists s2. split; [|split; [by etrans; [exact Hs1|]|done]].
    eapply rtc_l; [eapply life_close, cl_shard; [done|lia|done] | by etrans].
Qed.

Lemma close_listeners_life n i s : lf_close s = CListeners i -> (i + n = listeners)%nat ->
  exists s', rtc step (Live s) (Live s') /\ same_goroutines s s' /\ lf_close s' = CListeners listeners.
Proof.
  revert i s. induction n as [|n IH]; intros i s E Hi.
  - exists s. replace i with listeners in E by lia. by split; [apply rtc_refl|].
  - destruct (IH (S i) (set_close (CListeners (S i)) s)) as (s' & H1 & H2 & H3); [done|lia|].
    exists s'. split; [|done]. eapply rtc_l; [eapply life_close, cl_listener; [done|lia]|done].
Qed.

(** [Close] gets to its wait whatever the other goroutines do. *)
Lemma close_to_wait s : lf_close s = CIdle ->
  exists s', rtc step (Live s) (Live s') /\ same_goroutines s s' /\ lf_close s' = CListeners listeners.
Proof.
  intros E.
  edestruct (close_shards_life (Z.to_nat connSetShards) 0 (set_close (CCloseAll (ClosingShard 0))
    (set_set (mkConnSet true (cs_shards (lf_set s))) (set_close (CCloseAll NotClosing)
      (set_cancelled ({[0%nat]} ∪ lf_cancelled s) s))))) as (s1 & H1 & Hs1 & E1); [done|lia|].
  destruct (close_listeners_life listeners 0 s1) as (s2 & H2 & Hs2 & E2); [done|lia|].
  exists s2. split; [|split; [by etrans; [exact Hs1|]|done]].
  eapply rtc_l; [eapply life_close, cl_cancel, E|]. eapply rtc_l; [by eapply life_close, cl_done|]. by etrans.
Qed.
End waiting.

(** ** Runs *)

(** A server with one listener has started. *)
Definition started : life := set_start Launched (set_wg (mkWG 1 0)
  (set_gs [Run (Some 0%nat) LoopAccept] (life_init 1))).

Lemma started_reachable workers hasUDP : life_reachable 1 workers hasUDP 1 (Live started).
Proof. apply rtc_once, life_start. by eapply st_main. Qed.

(** It is shut down: the loop ends and [Close] returns without error. *)
Lemma shutdown_run workers : exists s,
  rtc (life_step 1 workers true) (Live started) (Live s) /\ lf_close s = CReturned true true.
Proof.
  destruct (close_to_wait 1 workers true started eq_refl) as (s1 & H1 & (Eg & Es & Ew & Ewt & Ewk) & Ec).
  eexists. split; [etrans; [exact H1|]|].
  - eapply rtc_l. { by eapply life_close, cl_wait. }
    eapply rtc_l. { eapply life_close, cl_load; [done|]. cbn. by rewrite Ew. }
    eapply rtc_l. { eapply life_loop, (lp_accept_closed _ _ [] 0); [cbn; by rewrite Eg|cbn; lia]. }
    eapply rtc_l. { eapply life_handler, (hd_done_last _ _ _ [] (Some 0%nat) (mkWG 0 1)); [done|]. cbn. by rewrite Ew. }
    eapply rtc_l. { by eapply life_handler, (hd_wake _ _ _ [] (Some 0%nat)). }
    eapply rtc_l. { by eapply life_close, cl_awake. }
    eapply rtc_l. { by eapply life_close, cl_wait_ok. }
    eapply rtc_l. { eapply life_close, cl_udp_ok; [done|]. cbn. left. by rewrite Ewk. }
    apply rtc_refl.
  - done.
Qed.

(** It handles a connection. *)
Lemma serving_run workers : exists s,
  life_reachable 1 workers true 1 (Live s) /\
  (lf_gs s = [Run (Some 0%nat) LoopAccept; Run None (Handling 4096)] /\ lf_close s = CIdle /\
   lf_start s = Launched /\ lf_wg s = mkWG 2 0) /\ lf_waiter s = WNone /\ lf_workers s = None.
Proof.
  eexists. split; [unfold life_reachable; etrans; [apply started_reachable|]|].
  - eapply rtc_l. { eapply life_loop, (lp_accept _ _ [] 0 4096); [done|cbn; lia|by apply not_elem_of_nil]. }
    eapply rtc_l. { by eapply life_loop, (lp_acquire _ _ [] 0 4096). }
    eapply rtc_l. { by eapply life_loop, (lp_check_ok _ _ [] 0 4096). }
    eapply rtc_l. { by eapply life_loop, (lp_add _ _ [] 0 4096). }
    eapply rtc_l. { by eapply life_loop, (lp_wg_add _ _ [] 0 4096 (mkWG 2 0)). }
    apply rtc_refl.
  - done.
Qed.

(** And still does when [Close] is called. *)
Lemma handling_run workers : exists s,
  life_reachable 1 workers true 1 (Live s) /\ Handling 4096 ∈ abs_procs 1 s /\ lf_close s = CListeners 1.
Proof.
  destruct (serving_run workers) as (s1 & H1 & (Eg & Ec & _) & _).
  destruct (close_to_wait 1 workers true s1 Ec) as (s2 & H2 & (Eg2 & _) & Ec2).
  exists s2. split_and!; [by unfold life_reachable in *; etrans| |done].
  unfold abs_procs. rewrite Eg2, Eg. set_solver.
Qed.

Lemma lifecycle_refines_server_witness : exists s,
  life_reachable 1 4 true 1 (Live s) /\ Handling 4096 ∈ abs_procs 1 s /\ 4096 ∈ lf_closed s /\
  Add 4096 (lf_set s) = (false, lf_set s).
Proof.
  destruct (handling_run 4) as (s & Hr & Hin & Ec). exists s.
  destruct (lifecycle_refines_server 1 4 true 1 s ltac:(lia) ltac:(lia) Hr) as (_ & _ & H).
  destruct H as [Hh Ha]; [by rewrite Ec|]. split_and!; [done|done|by apply Hh|apply Ha].
Defined.

Lemma shutdown_waits_for_all_witness : exists s,
  life_reachable 1 4 true 1 (Live s) /\ lf_close s = CReturned true true /\ finished s.
Proof.
  destruct (shutdown_run 4) as (s & Hr & Ec). exists s.
  destruct (shutdown_waits_for_all 1 4 true 1 started (Live s) ltac:(lia) (started_reachable 4 true) eq_refl eq_refl Hr)
    as (s' & E & _ & H). injection E as <-. split_and!; [|done|by apply H].
  unfold life_reachable. etrans; [apply started_reachable|done].
Defined.

(** With the handler blocked when [Close] comes to wait: its waiter sleeps, and the loop ends. *)
Lemma blocked_run workers : exists s s',
  life_reachable 1 workers true 1 (Live s) /\ settled 1 s /\ lf_start s = Launched /\ lf_waiter s = WNone /\
  rtc (life_step 1 workers true) (Live s) (Live s') /\ lf_gs s' = [Blocked 4096] /\
  (lf_close s' = CReturned false true /\ lf_start s' = Launched /\ lf_waiter s' = WAsleep /\ lf_workers s' = None).
Proof.
  destruct (serving_run workers) as (s1 & H1 & (Eg & Ec & Es & Ew) & Ewt & Ewk).
  destruct (close_to_wait 1 workers true s1 Ec) as (s2 & H2 & (Eg2 & Es2 & Ew2 & Ewt2 & Ewk2) & Ec2).
  exists s2. eexists. split; [by unfold life_reachable in *; etrans|].
  split; [unfold settled; by rewrite Ec2|]. split; [by rewrite Es2|]. split; [by rewrite Ewt2|]. split.
  - eapply rtc_l. { eapply life_handler, (hd_blocked _ _ _ [Run (Some 0%nat) LoopAccept] 4096). rewrite Eg2, Eg. apply Permutation_swap. }
    eapply rtc_l. { by eapply life_close, cl_wait. }
    eapply rtc_l. { eapply life_close, cl_load; [done|]. cbn. by rewrite Ew2, Ew. }
    eapply rtc_l. { eapply life_loop, (lp_accept_closed _ _ [Blocked 4096] 0); [cbn; apply Permutation_swap|cbn; lia]. }
    eapply rtc_l. { eapply life_handler, (hd_done _ _ _ [Blocked 4096] (Some 0%nat) (mkWG 1 1)); [done|]. cbn. by rewrite Ew2, Ew. }
    eapply rtc_l. { by eapply life_close, cl_wait_timeout. }
    eapply rtc_l. { eapply life_close, cl_udp_ok; [done|]. cbn. left. by rewrite Ewk2. }
    apply rtc_refl.
  - cbn. by rewrite Es2, Ewk2.
Qed.

(** A handler that blocks is all that a shutdown leaves, and [Close] says so. *)
Lemma shutdown_ends_witness : exists s s',
  life_reachable 1 4 true 1 (Live s) /\ Acc (flip (life_step 1 4 true)) (Live s) /\
  rtc (life_step 1 4 true) (Live s) (Live s') /\ (forall o, ~ life_step 1 4 true (Live s') o) /\
  lf_gs s' = [Blocked 4096] /\ shut_down s' /\ exists udp, lf_close s' = CReturned false udp.
Proof.
  destruct (blocked_run 4) as (s & s' & Hr & Hset & Hl & Hw & H & Eg & Ec & Es & Ewt & Ewk). exists s, s'.
  destruct (shutdown_ends 1 4 true 1 s ltac:(lia) ltac:(lia) Hr Hset) as [Hacc Hend].
  assert (forall o, ~ life_step 1 4 true (Live s') o) as Hstuck.
  { intros o Ho. inversion Ho as [? ? Hx|? ? Hx|? ? Hx|? ? Hx]; subst; inversion Hx; subst; try congruence;
      match goal with Hp : lf_gs _ ≡ₚ _ |- _ => rewrite Eg in Hp; by apply Permutation_singleton_l in Hp end. }
  split_and!; try done; destruct (Hend (Live s') H Hstuck) as [[? _]|(s1 & [= <-] & Hsd & _ & Hrep)]; try done.
  apply Hrep; [done|by rewrite Eg].
Defined.

(** With two listeners, a shutdown that overlaps with [Start] can crash the process: the
    loop of the extra listener ends and is about to release the waiter when [Start]
    counts its main loop. *)
Theorem overlapping_start_panics (workers : nat) (hasUDP : bool) :
  life_reachable 2 workers hasUDP 0 Panicked.
Proof.
  set (s0 := set_start (Launch 2) (set_wg (mkWG 1 0) (set_gs [Run (Some 1%nat) LoopAccept] (life_init 0)))).
  destruct (close_to_wait 2 workers hasUDP s0 eq_refl) as (s1 & H1 & (Eg & Es & Ew & _ & _) & Ec).
  eapply rtc_l. { by eapply life_start, (st_extra _ _ 1); [|lia|]. }
  etrans; [exact H1|].
  eapply rtc_l. { by eapply life_close, cl_wait. }
  eapply rtc_l. { eapply life_close, cl_load; [done|]. cbn. by rewrite Ew. }
  eapply rtc_l. { eapply life_loop, (lp_accept_closed _ _ [] 1); [cbn; by rewrite Eg|cbn; lia]. }
  eapply rtc_l. { eapply life_handler, (hd_done_last _ _ _ [] (Some 1%nat) (mkWG 0 1)); [done|]. cbn. by rewrite Ew. }
  eapply rtc_once. eapply life_start, st_panic; [cbn; exact Es|done].
Qed.

(** ** Lifetimes *)

(** Requests derive their contexts from the shard of their connection: [For] finds one for
    every connection, it is done when the root is, and no sooner than a cancellation of
    its own or of the root. *)
Theorem lifetimes_follow_root (fresh : nat) (parent : context) (conn : Z) (cancelled : gset nat) :
  exists shard, LifetimeShards_For (NewLifetimeShards fresh parent) conn = Some shard /\
    (ctx_done cancelled parent = true -> ctx_done cancelled shard = true) /\
    ((forall i, (i < Z.to_nat lifetimeShardCount)%nat -> (fresh + i)%nat ∉ cancelled) ->
       ctx_done cancelled shard = ctx_done cancelled parent).
Proof.
  pose proof (shardHash_bound 3 conn ltac:(lia)) as Hb.
  unfold LifetimeShards_For, NewLifetimeShards, LifetimeFor, lifetimeShardBits.
  change (Z.to_nat lifetimeShardCount) with 8%nat.
  assert (Z.to_nat (shardHash 3 conn) < 8)%nat as Hlt by lia.
  rewrite list_lookup_fmap, lookup_seq_lt by done. eexists. split; [done|]. cbn [ctx_done]. split.
  - intros ->. apply orb_true_r.
  - intros H. rewrite bool_decide_eq_false_2; [done|]. apply H. lia.
Qed.
