(* ===== verification/BufPool.v ===== *)
(** * Pooled buffered readers and writers

    Models [AcquireBufferedReader], [ReleaseBufferedReader] and their counterparts for
    writers ([internal/serverbase/serverbase.go]) with the pools they share, the reads of
    [bufio.Reader], and who uses a reader: the handler that acquired it, and the transport
    to which [forwardRequest] ([internal/server/http/server.go]) hands a request whose body
    is read through it. A reader is an object in a store, known by its address; a byte
    carries the connection it came from. [net/http] documents that a request's body may be
    read and closed by another goroutine after [RoundTrip] has returned. *)

From Stdlib Require Import ZArith Lia.
From stdpp Require Import base tactics numbers strings sets gmap relations list.
From S2P Require Import Prelude.

(** ** [bufio.Reader] *)

Abbreviation tagged := (list (Z * Z)).   (* connection, byte *)

Record bufReader := mkReader {
  br_rd : option Z;          (* the connection, or nil *)
  br_buf : tagged;           (* read ahead *)
  br_err : option error
}.

(** [Reset] *)
Definition reader_Reset (rd : option Z) (r : bufReader) : bufReader := mkReader rd [] None.

Inductive read_result := RPanic | RErr (e : error) | ROk (bytes : tagged).

Definition tag (conn : Z) (data : list Z) : tagged := pair conn <$> data.

(** [Read] of up to [n] bytes, when the underlying read, if it comes to that, gives
    [answer] at once. *)
Definition reader_Read (n : nat) (answer : result (list Z)) (r : bufReader) : read_result * bufReader :=
  match br_buf r with
  | [] =>
      match br_err r with
      | Some e => (RErr e, mkReader (br_rd r) [] None)
      | None =>
          match br_rd r with
          | None => (RPanic, r)
          | Some conn =>
              match answer with
              | Err e => (RErr e, r)
              | Ok data => (ROk (take n (tag conn data)), mkReader (br_rd r) (drop n (tag conn data)) None)
              end
          end
      end
  | buf => (ROk (take n buf), mkReader (br_rd r) (drop n buf) (br_err r))
  end.

(** The second half of a [Read] that was blocked in the underlying read of [conn]: what
    it gives lands in the reader as that is by then. *)
Definition reader_unblock (n : nat) (conn : Z) (answer : result (list Z)) (r : bufReader) : read_result * bufReader :=
  match answer with
  | Err e => (RErr e, mkReader (br_rd r) (br_buf r) None)
  | Ok data => (ROk (take n (br_buf r ++ tag conn data)),
                mkReader (br_rd r) (drop n (br_buf r ++ tag conn data)) None)
  end.

(** ** The pool and its users *)

Inductive consumer := Handler (conn : Z) | Body (conn : Z).

Inductive stray :=
  | Idle (conn : Z) (loc : nat)                    (* between two reads of the body *)
  | Blocked (conn : Z) (loc : nat) (rd : Z).       (* in the read of connection rd *)
Definition stray_loc (x : stray) : nat := match x with Idle _ l | Blocked _ l _ => l end.
Definition stray_conn (x : stray) : Z := match x with Idle c _ | Blocked c _ _ => c end.

Record pstate := mkP {
  p_heap : gmap nat bufReader;
  p_pool : list nat;                    (* bufferedReaderPool *)
  p_held : gmap Z nat;                  (* the reader of a connection's handler *)
  p_strays : list stray;                (* transports reading request bodies *)
  p_got : list (consumer * tagged)      (* what reads returned *)
}.

Inductive poutcome := PLive (s : pstate) | PPanicked.

(** [AcquireBufferedReader]: [Get] gives a pooled reader or a new one. *)
Definition AcquireBufferedReader (conn : Z) (loc : nat) (s : pstate) : option pstate :=
  if bool_decide (loc ∈ p_pool s) then
    r ← p_heap s !! loc;
    Some (mkP (<[loc := reader_Reset (Some conn) r]> (p_heap s)) (filter (fun l => l <> loc) (p_pool s))
            (<[conn := loc]> (p_held s)) (p_strays s) (p_got s))
  else
    match p_heap s !! loc with
    | Some _ => None   (* in use: Get returns pooled or new readers *)
    | None =>
        Some (mkP (<[loc := reader_Reset (Some conn) (mkReader None [] None)]> (p_heap s)) (p_pool s)
                (<[conn := loc]> (p_held s)) (p_strays s) (p_got s))
    end.

(** [ReleaseBufferedReader] *)
Definition ReleaseBufferedReader (conn : Z) (s : pstate) : option pstate :=
  loc ← p_held s !! conn;
  r ← p_heap s !! loc;
  Some (mkP (<[loc := reader_Reset None r]> (p_heap s)) (loc :: p_pool s) (delete conn (p_held s))
          (p_strays s) (p_got s)).

(** What a read leaves: the reader, and what the consumer got. *)
Definition after_read (who : consumer) (loc : nat) (res : read_result * bufReader) (s : pstate) : poutcome :=
  match res with
  | (RPanic, _) => PPanicked
  | (RErr _, r) => PLive (mkP (<[loc := r]> (p_heap s)) (p_pool s) (p_held s) (p_strays s) (p_got s))
  | (ROk b, r) => PLive (mkP (<[loc := r]> (p_heap s)) (p_pool s) (p_held s) (p_strays s) ((who, b) :: p_got s))
  end.

Definition set_strays (l : list stray) (s : pstate) : pstate :=
  mkP (p_heap s) (p_pool s) (p_held s) l (p_got s).

Section users.
(** Whether a handler releases its reader only when no transport reads through it. The
    SOCKS5 handlers and CONNECT pass their reader to nobody; [forwardRequest] does not
    wait for the transport. *)
Context (waits : bool).

Inductive pool_step : poutcome -> poutcome -> Prop :=
  | ps_acquire s s' conn loc :
      p_held s !! conn = None -> AcquireBufferedReader conn loc s = Some s' ->
      pool_step (PLive s) (PLive s')
  | ps_read s conn loc r n answer :
      p_held s !! conn = Some loc -> p_heap s !! loc = Some r ->
      pool_step (PLive s) (after_read (Handler conn) loc (reader_Read n answer r) s)
  | ps_release s s' conn loc :
      p_held s !! conn = Some loc ->
      (waits = true -> forall x, x ∈ p_strays s -> stray_loc x <> loc) ->
      ReleaseBufferedReader conn s = Some s' -> pool_step (PLive s) (PLive s')
  (* RoundTrip: the transport starts to read the body *)
  | ps_body s conn loc :
      p_held s !! conn = Some loc ->
      pool_step (PLive s) (PLive (set_strays (Idle conn loc :: p_strays s) s))
  | ps_body_read s l conn loc r n answer :
      p_strays s ≡ₚ Idle conn loc :: l -> p_heap s !! loc = Some r ->
      pool_step (PLive s) (after_read (Body conn) loc (reader_Read n answer r) s)
  | ps_body_block s l conn loc r rd :
      p_strays s ≡ₚ Idle conn loc :: l -> p_heap s !! loc = Some r ->
      br_buf r = [] -> br_err r = None -> br_rd r = Some rd ->
      pool_step (PLive s) (PLive (set_strays (Blocked conn loc rd :: l) s))
  | ps_body_unblock s l conn loc rd r n answer :
      p_strays s ≡ₚ Blocked conn loc rd :: l -> p_heap s !! loc = Some r ->
      pool_step (PLive s) (after_read (Body conn) loc (reader_unblock n rd answer r)
        (set_strays (Idle conn loc :: l) s))
  (* the body is at its end or closed *)
  | ps_body_end s l conn loc :
      p_strays s ≡ₚ Idle conn loc :: l -> pool_step (PLive s) (PLive (set_strays l s)).

Definition pool_init : pstate := mkP ∅ [] ∅ [] [].
Definition pool_reachable : poutcome -> Prop := rtc pool_step (PLive pool_init).
End users.

(** ** [bufio.Writer] *)

Record bufWriter := mkWriter { bw_wr : option Z; bw_buf : list Z }.   (* [None]: io.Discard *)
Definition writer_Reset (wr : option Z) (w : bufWriter) : bufWriter := mkWriter wr [].
(** [Write], which sends the first [k] bytes when the buffer overflows, and [Flush]: what
    is sent, and to whom. *)
Definition writer_Write (k : nat) (data : list Z) (w : bufWriter) : option (Z * list Z) * bufWriter :=
  let all := bw_buf w ++ data in
  ((fun c => (c, take k all)) <$> bw_wr w, mkWriter (bw_wr w) (drop k all)).
Definition writer_Flush (w : bufWriter) : option (Z * list Z) * bufWriter :=
  ((fun c => (c, bw_buf w)) <$> bw_wr w, mkWriter (bw_wr w) []).
Definition AcquireBufferedWriter (conn : Z) (pooled : option bufWriter) : bufWriter :=
  writer_Reset (Some conn) (default (mkWriter None []) pooled).
Definition ReleaseBufferedWriter (w : bufWriter) : bufWriter := writer_Reset None w.

(** What a sequence of writes and a final flush send. *)
Fixpoint writes (l : list (nat * list Z)) (w : bufWriter) : list (option (Z * list Z)) :=
  match l with
  | [] => [(writer_Flush w).1]
  | (k, d) :: l => let '(x, w) := writer_Write k d w in x :: writes l w
  end.

(** Whatever the previous user left in a pooled writer, the next one sends exactly what it
    wrote, to its own connection. *)
Theorem writer_isolation (conn : Z) (pooled : option bufWriter) (l : list (nat * list Z)) :
  exists sent, writes l (AcquireBufferedWriter conn pooled) = (fun b => Some (conn, b)) <$> sent /\
    concat sent = concat l.*2.
Proof.
  assert (forall buf, exists sent, writes l (mkWriter (Some conn) buf) = (fun b => Some (conn, b)) <$> sent /\
    concat sent = buf ++ concat l.*2) as H; [|exact (H [])].
  induction l as [|[k d] l IH]; intros buf; cbn.
  - exists [buf]. split; [done|]. cbn. done.
  - destruct (IH (drop k (buf ++ d))) as (sent & -> & Hs). exists (take k (buf ++ d) :: sent).
    split; [done|]. cbn. rewrite Hs, app_assoc, take_drop. by rewrite app_assoc.
Qed.

(** ** Isolation *)

Definition from (conn : Z) (b : tagged) : Prop := Forall (fun x => x.1 = conn) b.

Lemma from_tag conn data : from conn (tag conn data).
Proof. apply Forall_fmap, Forall_true. done. Qed.
Lemma from_take conn n b : from conn b -> from conn (take n b).
Proof. apply Forall_take. Qed.
Lemma from_drop conn n b : from conn b -> from conn (drop n b).
Proof. apply Forall_drop. Qed.
#[local] Hint Resolve from_tag from_take from_drop : wf.

Definition consumer_conn (who : consumer) : Z := match who with Handler c | Body c => c end.

(** A reader in the hands of connection [c]. *)
Definition reader_of (c : Z) (r : bufReader) : Prop := br_rd r = Some c /\ from c (br_buf r).

Record pool_inv (s : pstate) : Prop := {
  pi_held : forall c loc, p_held s !! c = Some loc ->
    (loc ∉ p_pool s) /\ exists r, p_heap s !! loc = Some r /\ reader_of c r;
  pi_inj : forall c c' loc, p_held s !! c = Some loc -> p_held s !! c' = Some loc -> c = c';
  pi_pool : forall loc, loc ∈ p_pool s -> exists r, p_heap s !! loc = Some r /\ br_rd r = None /\ br_buf r = [];
  pi_strays : forall x, x ∈ p_strays s -> p_held s !! stray_conn x = Some (stray_loc x) /\
    match x with Blocked c _ rd => rd = c | Idle _ _ => True end;
  pi_got : forall who b, (who, b) ∈ p_got s -> from (consumer_conn who) b
}.

(** A read of a connection's own reader gives its bytes and leaves its reader. *)
Lemma reader_Read_of c n answer r res r' : reader_of c r -> reader_Read n answer r = (res, r') ->
  reader_of c r' /\ match res with RPanic => False | RErr _ => True | ROk b => from c b end.
Proof.
  intros [Hrd Hb]. unfold reader_Read. rewrite Hrd. destruct (br_buf r) as [|x buf] eqn:Eb.
  - destruct (br_err r); [by intros [= <- <-]|]. destruct answer; intros [= <- <-].
    + split; [split; cbn|]; auto with wf.
    + split; [|done]. split; [done|]. by rewrite Eb.
  - intros [= <- <-]. split; [split; [done|]; cbn [br_buf]|]; auto with wf.
Qed.

Lemma reader_unblock_of c n answer r res r' : reader_of c r -> reader_unblock n c answer r = (res, r') ->
  reader_of c r' /\ match res with RPanic => False | RErr _ => True | ROk b => from c b end.
Proof.
  intros [Hrd Hb]. unfold reader_unblock. destruct answer; intros [= <- <-]; [|by split].
  assert (from c (br_buf r ++ tag c a)) by (apply Forall_app; split; [done|apply from_tag]).
  split; [split; [done|]; cbn [br_buf]|]; auto with wf.
Qed.

(** The state after a read by a user of connection [c]. *)
Lemma after_read_inv who loc c res r' s o : pool_inv s -> p_held s !! c = Some loc -> consumer_conn who = c ->
  reader_of c r' -> match res with RPanic => False | RErr _ => True | ROk b => from c b end ->
  after_read who loc (res, r') s = o -> exists s', o = PLive s' /\ pool_inv s'.
Proof.
  intros [H1 H2 H3 H4 H5] Hc Hw Hr Hres <-.
  assert (forall got, (forall who b, (who, b) ∈ got -> from (consumer_conn who) b) ->
    pool_inv (mkP (<[loc := r']> (p_heap s)) (p_pool s) (p_held s) (p_strays s) got)) as G.
  { intros got Hgot. constructor; cbn; try done.
    - intros c' loc' Hc'. destruct (H1 _ _ Hc') as (Hn & r0 & Hr0 & Ho). split; [done|].
      destruct (decide (loc' = loc)) as [->|]; [|rewrite lookup_insert_ne by done; eauto].
      rewrite lookup_insert_eq. rewrite (H2 _ _ _ Hc' Hc). eauto.
    - intros loc' Hin. destruct (H1 _ _ Hc) as [Hn _]. rewrite lookup_insert_ne; [auto|]. by intros <-. }
  destruct res as [|e|b]; [done| |]; eexists; (split; [done|]); apply G; [done|].
  intros who' b' [[= -> ->]|Hin]%elem_of_cons; [by rewrite Hw|eauto].
Qed.

Lemma acquire_inv s s' conn loc : pool_inv s -> p_held s !! conn = None ->
  AcquireBufferedReader conn loc s = Some s' -> pool_inv s'.
Proof.
  intros [H1 H2 H3 H4 H5] Hn Ha.
  assert (forall c', p_held s !! c' <> Some loc) as Hfree.
  { intros c' Hc'. destruct (H1 _ _ Hc') as (Hp & r & Hr & _). unfold AcquireBufferedReader in Ha.
    rewrite bool_decide_eq_false_2 in Ha by done. by rewrite Hr in Ha. }
  assert (forall pool r, (forall l, l ∈ pool -> l ∈ p_pool s /\ l <> loc) ->
    pool_inv (mkP (<[loc := reader_Reset (Some conn) r]> (p_heap s)) pool (<[conn := loc]> (p_held s))
      (p_strays s) (p_got s))) as G.
  { intros pool r Hpool. constructor; cbn; [| | | |done].
    - intros c l Hc. apply lookup_insert_Some in Hc as [[<- <-]|[Hne Hc]].
      + split; [intros Hin; by destruct (Hpool _ Hin)|]. rewrite lookup_insert_eq. eexists. split; [done|].
        split; [done|apply Forall_nil_2].
      + destruct (H1 _ _ Hc) as (Hp & r0 & Hr0 & Ho). split; [intros Hin; by destruct (Hpool _ Hin)|].
        rewrite lookup_insert_ne; [eauto|]. intros ->. by destruct (Hfree c).
    - intros c c' l Hc Hc'. apply lookup_insert_Some in Hc as [[E El]|[Hne Hc]];
        apply lookup_insert_Some in Hc' as [[E' El']|[Hne' Hc']]; subst;
        [done|by destruct (Hfree c')|by destruct (Hfree c)|by eapply H2].
    - intros l Hin. destruct (Hpool _ Hin) as [Hin' Hne]. rewrite lookup_insert_ne by done. by apply H3.
    - intros x Hx. destruct (H4 x Hx) as [Hs Hm]. split; [|done]. rewrite lookup_insert_ne; [done|].
      intros ->. by rewrite Hn in Hs. }
  unfold AcquireBufferedReader in Ha. case_bool_decide.
  - destruct (p_heap s !! loc) as [r|] eqn:Er; [|done]. injection Ha as <-. apply G.
    intros l Hl%list_elem_of_filter. naive_solver.
  - destruct (p_heap s !! loc) as [r|] eqn:Er; [done|]. injection Ha as <-. apply G.
    intros l Hl. split; [done|]. by intros ->.
Qed.

Lemma release_inv s s' conn loc : pool_inv s -> p_held s !! conn = Some loc ->
  (forall x, x ∈ p_strays s -> stray_loc x <> loc) -> ReleaseBufferedReader conn s = Some s' -> pool_inv s'.
Proof.
  intros [H1 H2 H3 H4 H5] Hc Hs Hr. unfold ReleaseBufferedReader in Hr. rewrite Hc in Hr. cbn in Hr.
  destruct (p_heap s !! loc) as [r|] eqn:Er; [|done]. cbn in Hr. injection Hr as <-.
  constructor; cbn; [| | | |done].
  - intros c l [Hne Hl]%lookup_delete_Some. destruct (H1 _ _ Hl) as (Hp & r0 & Hr0 & Ho).
    assert (l <> loc) as Hnl by (intros ->; by destruct Hne; eapply H2).
    split; [by intros [?|?]%elem_of_cons|]. rewrite lookup_insert_ne by done. eauto.
  - intros c c' l [_ Hl]%lookup_delete_Some [_ Hl']%lookup_delete_Some. by eapply H2.
  - intros l Hl. destruct (decide (l = loc)) as [->|Hne].
    + rewrite lookup_insert_eq. by eexists.
    + rewrite lookup_insert_ne by done. apply elem_of_cons in Hl as [?|Hl]; [done|]. by apply H3.
  - intros x Hx. destruct (H4 x Hx) as [Hh Hm]. split; [|done]. rewrite lookup_delete_ne; [done|].
    intros Ec. rewrite <- Ec, Hc in Hh. injection Hh as Eh. by destruct (Hs x Hx).
Qed.

(** The strays change, each as it was or as one that holds its connection's reader. *)
Lemma strays_inv s l : pool_inv s ->
  (forall x, x ∈ l -> x ∈ p_strays s \/ p_held s !! stray_conn x = Some (stray_loc x) /\
     match x with Blocked c _ rd => rd = c | Idle _ _ => True end) -> pool_inv (set_strays l s).
Proof.
  intros [H1 H2 H3 H4 H5] Hl. constructor; cbn; try done. intros x Hx. destruct (Hl x Hx); auto.
Qed.

Lemma pool_inv_step s o : pool_step true (PLive s) o -> pool_inv s -> exists s', o = PLive s' /\ pool_inv s'.
Proof.
  intros Hst Hi. inversion Hst as [? s' c loc Hn Ha|? c loc r n ans Hc Hr|? s' c loc Hc Hw Hr|? c loc Hc
    |? l c loc r n ans Hp Hr|? l c loc r rd Hp Hr Hb He Hrd|? l c loc rd r n ans Hp Hr|? l c loc Hp]; subst.
  - eexists. split; [done|]. by eapply acquire_inv.
  - destruct (pi_held _ Hi _ _ Hc) as (_ & r0 & Hr0 & Ho). rewrite Hr in Hr0. injection Hr0 as <-.
    destruct (reader_Read n ans r) as [res r'] eqn:E. destruct (reader_Read_of _ _ _ _ _ _ Ho E) as [Ho' Hres].
    by apply (after_read_inv (Handler c) loc c res r' s).
  - eexists. split; [done|]. eapply release_inv; [done|done|by apply Hw|done].
  - eexists. split; [done|]. apply strays_inv; [done|]. intros x [->|Hx]%elem_of_cons; [by right|by left].
  - destruct (pi_strays _ Hi (Idle c loc)) as [Hc _]; [rewrite Hp; by left|]. cbn in Hc.
    destruct (pi_held _ Hi _ _ Hc) as (_ & r0 & Hr0 & Ho). rewrite Hr in Hr0. injection Hr0 as <-.
    destruct (reader_Read n ans r) as [res r'] eqn:E. destruct (reader_Read_of _ _ _ _ _ _ Ho E) as [Ho' Hres].
    by apply (after_read_inv (Body c) loc c res r' s).
  - destruct (pi_strays _ Hi (Idle c loc)) as [Hc _]; [rewrite Hp; by left|]. cbn in Hc.
    destruct (pi_held _ Hi _ _ Hc) as (_ & r0 & Hr0 & Ho & _). rewrite Hr in Hr0. injection Hr0 as <-.
    eexists. split; [done|]. apply strays_inv; [done|].
    intros x [->|Hx]%elem_of_cons; [right; split; [done|congruence]|left; rewrite Hp; by right].
  - destruct (pi_strays _ Hi (Blocked c loc rd)) as [Hc Hm]; [rewrite Hp; by left|]. cbn in Hc, Hm. subst rd.
    destruct (pi_held _ Hi _ _ Hc) as (_ & r0 & Hr0 & Ho). rewrite Hr in Hr0. injection Hr0 as <-.
    destruct (reader_unblock n c ans r) as [res r'] eqn:E.
    destruct (reader_unblock_of _ _ _ _ _ _ Ho E) as [Ho' Hres].
    apply (after_read_inv (Body c) loc c res r' (set_strays (Idle c loc :: l) s)); try done. apply strays_inv; [done|].
    intros x [->|Hx]%elem_of_cons; [by right|left; rewrite Hp; by right].
  - eexists. split; [done|]. apply strays_inv; [done|]. intros x Hx. left. rewrite Hp. by right.
Qed.

Lemma pool_inv_init : pool_inv pool_init.
Proof. constructor; cbn; set_solver. Qed.

Lemma pool_reachable_inv o : pool_reachable true o -> exists s, o = PLive s /\ pool_inv s.
Proof.
  intros H. refine (rtc_ind_r (fun o => exists s, o = PLive s /\ pool_inv s) _ _ _ _ H); clear o H.
  - exists pool_init. split; [done|apply pool_inv_init].
  - intros o o' _ Hst (s & -> & Hi). by eapply pool_inv_step.
Qed.

(** C15: Pooled readers keep connections apart: as long as a handler releases its reader
    only after everybody it passed it to is done with it, which SOCKS5, CONNECT and
    protocol detection do, every read returns bytes of the connection it was made for,
    whoever used the reader before and however many connections share the pool; no read
    hits a reader without a connection, no two connections hold the same reader, and a
    pooled reader keeps no bytes and no connection alive. *)
Theorem reader_isolation (o : poutcome) :
  pool_reachable true o ->
  exists s, o = PLive s /\
    (forall who b, (who, b) ∈ p_got s -> Forall (fun x => x.1 = consumer_conn who) b) /\
    (forall c c' loc, p_held s !! c = Some loc -> p_held s !! c' = Some loc -> c = c') /\
    (forall loc, loc ∈ p_pool s -> exists r, p_heap s !! loc = Some r /\ br_rd r = None /\ br_buf r = []).
Proof.
  intros H. destruct (pool_reachable_inv o H) as (s & -> & Hi). exists s.
  split_and!; [done|apply Hi|apply Hi|apply Hi].
Qed.

(** Connection 2 gets the reader that connection 1 gave back, and reads its own bytes. *)
Lemma reader_isolation_witness : exists s,
  pool_reachable true (PLive s) /\ p_held s !! 2 = Some 0%nat /\ (Handler 2, [(2, 71)]) ∈ p_got s /\
  Forall (fun x => x.1 = 2) [(2, 71)].
Proof.
  assert (exists s, pool_reachable true (PLive s) /\ p_held s !! 2 = Some 0%nat /\ (Handler 2, [(2, 71)]) ∈ p_got s)
    as (s & Hr & Hh & Hg).
  { eexists. split.
    - eapply rtc_l. { by eapply (ps_acquire _ _ _ 1 0%nat). }
      eapply rtc_l. { by eapply (ps_read _ _ 1 0%nat _ 1 (Ok [65; 66])). }
      eapply rtc_l. { eapply (ps_release _ _ _ 1 0%nat); [done| |done]. by intros _ x Hx%elem_of_nil. }
      eapply rtc_l. { by eapply (ps_acquire _ _ _ 2 0%nat). }
      eapply rtc_l. { by eapply (ps_read _ _ 2 0%nat _ 1 (Ok [71])). }
      apply rtc_refl.
    - split; [done|]. cbn. by left. }
  exists s. destruct (reader_isolation (PLive s) Hr) as (s' & E & H & _). injection E as <-.
  split_and!; [done|done|done|exact (H _ _ Hg)].
Defined.

(** [forwardRequest] does not wait: when an upstream answers before the request's body is
    read, the handler closes the connection and releases its reader while the transport is
    still to read the rest of the body through it. It then takes the bytes of the client
    that gets the reader next, or finds no connection in it, which crashes the process. *)
Theorem forward_body_crosses :
  (exists s, pool_reachable false (PLive s) /\ p_held s !! 2 = Some 0%nat /\
     (Body 1, [(2, 71)]) ∈ p_got s) /\
  pool_reachable false PPanicked.
Proof.
  assert (exists s, pool_reachable false (PLive s) /\ p_pool s = [0%nat] /\ p_strays s = [Idle 1 0] /\
    p_held s = ∅ /\ p_heap s = {[0%nat := mkReader None [] None]} /\ p_got s = []) as (s & Hr & Ep & Es & Eh & Ehp & Eg).
  { eexists. split.
    - eapply rtc_l. { by eapply (ps_acquire _ _ _ 1 0%nat). }
      eapply rtc_l. { by eapply (ps_body _ _ 1 0%nat). }
      eapply rtc_l. { by eapply (ps_release _ _ _ 1 0%nat). }
      apply rtc_refl.
    - done. }
  split.
  - eexists. split.
    + unfold pool_reachable in *. etrans; [exact Hr|].
      eapply rtc_l. { apply (ps_acquire _ _ (mkP {[0%nat := mkReader (Some 2) [] None]} [] {[2 := 0%nat]} [Idle 1 0] []) 2 0%nat).
        - by rewrite Eh.
        - unfold AcquireBufferedReader. rewrite Ep, Es, Eh, Ehp, Eg. done. }
      eapply rtc_l. { by eapply (ps_body_read _ _ [] 1 0%nat (mkReader (Some 2) [] None) 1 (Ok [71])). }
      apply rtc_refl.
    + split; [done|]. cbn. by left.
  - unfold pool_reachable in *. etrans; [exact Hr|]. apply rtc_once.
    apply (ps_body_read _ s [] 1 0%nat (mkReader None [] None) 1 (Ok [71])); [by rewrite Es|by rewrite Ehp].
Qed.
