(* ===== verification/Connector.v ===== *)
(** * Outbound connections ([connect.go])

    Models [internal/connect/connect.go] above the source-address arithmetic of
    [SourceIP.v]: targets and their resolution, the choice of the sources a dial
    is attempted with, the sockets of a UDP association, [SendPacket], and the
    two races of dials ([connectAny], [connectWithCIDRFallback]) as a step
    relation: the select loop and the dialing goroutines interleave at every
    channel operation. What a dial returns is the environment's choice. *)

From Stdlib Require Import ZArith Lia.
From stdpp Require Import base tactics numbers list strings sets gmap relations.
From S2P Require Import Prelude.
From S2P Require Import Netip.
From S2P Require Import Ext.
From S2P Require Import Uint128.
From S2P Require Import SourceIP.
From S2P Require Import Config.
From S2P Require Import DnsCache.

(** ** Data *)

Record TargetAddr := mkTarget { ta_Addr : option AddrPort; ta_Host : bytes; ta_Port : Z }.

Definition FromAddr (addr : AddrPort) : TargetAddr := mkTarget (Some addr) [] 0.
Definition FromHost (host : bytes) (port : Z) : TargetAddr := mkTarget None host port.

(** A signed 64-bit integer, and a [time.Duration] of whole seconds. *)
Definition int64 (z : Z) : Z := (z + 2 ^ 63) `mod` 2 ^ 64 - 2 ^ 63.
Definition Second : Z := 1000000000.
Definition Millisecond : Z := 1000000.
Definition seconds (n : Z) : Z := int64 (int64 n * Second).

(** [cn_dialSlots] is the capacity of the slot channel, if there is one. *)
Record Connector := mkConnector {
  cn_CIDR : option Prefix;
  cn_CIDRRange : option Z;
  cn_Fallback : option Fallback;
  cn_ConnectTimeout : Z;
  cn_TCPUserTimeout : option Z;
  cn_ReuseAddr : option bool;
  cn_dialSlots : option Z
}.

Definition New (cidr : option Prefix) (cidrRange : option Z) (fallback : option Fallback)
    (connectTimeoutSec : Z) (tcpUserTimeout : option Z) (reuseaddr : option bool)
    (maxPendingDials : Z) : Connector := {|
  cn_CIDR := cidr;
  cn_CIDRRange := cidrRange;
  cn_Fallback := fallback;
  cn_ConnectTimeout := seconds connectTimeoutSec;
  cn_TCPUserTimeout := seconds <$> tcpUserTimeout;
  cn_ReuseAddr := reuseaddr;
  cn_dialSlots := if 0 <? maxPendingDials then Some maxPendingDials else None
|}.

(** [TcpConnector] and [UdpConnector]: the connector and the client's extension. *)
Record TcpConnector := mkTcp { t_inner : Connector; t_extension : Extension }.
Record UdpConnector := mkUdp { u_inner : Connector; u_extension : Extension }.
Definition Connector_TCP (c : Connector) (e : Extension) : TcpConnector := mkTcp c e.
Definition Connector_UDP (c : Connector) (e : Extension) : UdpConnector := mkUdp c e.

(** ** Sources *)

(** [SocketAddr]: the address a BIND listens on. *)
Definition SocketAddr (d : draws) (t : TcpConnector) (defaultFn : result Addr) : result AddrPort :=
  match cn_CIDR (t_inner t) with
  | Some cidr =>
      if Is4 (p_Addr cidr) then
        addr ← assignIPv4FromExtension d cidr (cn_CIDRRange (t_inner t)) (t_extension t);
        Ok (AddrPortFrom addr 0)
      else
        Ok (AddrPortFrom (assignIPv6FromExtension d cidr (cn_CIDRRange (t_inner t)) (t_extension t)) 0)
  | None =>
      match cn_Fallback (t_inner t) with
      | Some fb =>
          if negb (IsInterface fb) then Ok (AddrPortFrom (fb_Address fb) 0)
          else ip ← defaultFn; Ok (AddrPortFrom ip 0)
      | None => ip ← defaultFn; Ok (AddrPortFrom ip 0)
      end
  end.

(** [dialContext]'s arguments: bind address ([AddrZero] for none), interface and
    target. *)
Record dial := mkDial { di_bindIP : Addr; di_bindInterface : bytes; di_target : AddrPort }.

Definition connectPlain (target : AddrPort) : dial := mkDial AddrZero [] target.

Definition connectWithCIDR (d : draws) (t : TcpConnector) (target : AddrPort) (cidr : Prefix)
    : result dial :=
  bindIP ← assignSourceIP d cidr (cn_CIDRRange (t_inner t)) (t_extension t);
  Ok (mkDial bindIP [] target).

Definition connectWithFallback (target : AddrPort) (fb : Fallback) : dial :=
  if IsInterface fb then mkDial AddrZero (fb_Interface fb) target
  else mkDial (fb_Address fb) [] target.

(** What [connectAddr] does: one dial, or the race of a CIDR dial against a
    fallback dial. *)
Inductive attempt_plan :=
  | DialOne (p : dial)
  | DialRace (preferred fallback : dial).

Definition connectAddr (d : draws) (t : TcpConnector) (target : AddrPort) : result attempt_plan :=
  let fallback fb := Ok (DialOne (connectWithFallback target fb)) in
  match cn_CIDR (t_inner t) with
  | Some cidr =>
      if negb (eqb (Is4 (p_Addr cidr)) (Is4 (ap_Addr target))) then
        match cn_Fallback (t_inner t) with
        | Some fb => fallback fb
        | None => Err (Errorf "target %s address family does not match source CIDR %s; configure a fallback for dual-stack proxying" [])
        end
      else
        match cn_Fallback (t_inner t) with
        | Some fb =>
            preferred ← connectWithCIDR d t target cidr;
            Ok (DialRace preferred (connectWithFallback target fb))
        | None => preferred ← connectWithCIDR d t target cidr; Ok (DialOne preferred)
        end
  | None =>
      match cn_Fallback (t_inner t) with
      | Some fb => fallback fb
      | None => Ok (DialOne (connectPlain target))
      end
  end.

(** [net.Dialer] as [dialContext] fills it in, and the socket options its
    [Control] hook sets. *)
Inductive sockopt := SO_REUSEADDR | TCP_USER_TIMEOUT (ms : Z) | SO_BINDTODEVICE (iface : bytes).

Record Dialer := mkDialer { dl_Timeout : Z; dl_KeepAlive : Z; dl_LocalAddr : option bytes }.

Definition dialer (t : TcpConnector) (p : dial) : Dialer := {|
  dl_Timeout := cn_ConnectTimeout (t_inner t);
  dl_KeepAlive := 60 * Second;
  dl_LocalAddr := if IsValid (di_bindIP p) then Some (AsSlice (di_bindIP p)) else None
|}.

(** [applySocketOptions]: the options in the order they are set and the error of
    the last, if the bind to the interface fails with [bindErr]. *)
Definition applySocketOptions (linux : bool) (network iface : bytes) (c : Connector)
    (bindErr : option error) : list sockopt * option error :=
  let reuse := match cn_ReuseAddr c with Some true => [SO_REUSEADDR] | _ => [] end in
  if linux then
    let tcp := eqs network (str "tcp") || eqs network (str "tcp4") || eqs network (str "tcp6") in
    let user := match cn_TCPUserTimeout c with
                | Some d => if tcp then [TCP_USER_TIMEOUT (Z.quot d Millisecond)] else []
                | None => []
                end in
    if negb (eqs iface []) then (reuse ++ user ++ [SO_BINDTODEVICE iface], bindErr)
    else (reuse ++ user, None)
  else (reuse, None).

(** ** Resolution *)

(** [resolveHost], given what [defaultDNSCache.Lookup] answers. *)
Definition resolveHost (lookup : bytes -> answer) (host : bytes) (port : Z) : result (list AddrPort) :=
  match ParseAddr host with
  | Ok ip => Ok [AddrPortFrom ip port]
  | Err _ =>
      match lookup host with
      | (_, Some e) => Err e
      | (ips, None) =>
          match ips with
          | [] => Err (Errorf "failed to resolve %s" [])
          | _ => Ok ((fun ip => AddrPortFrom ip port) <$> ips)
          end
      end
  end.

(** [Connect] and the head of [connectAny]: the targets that are dialed, a race
    when there are two or more. *)
Definition Connect_targets (lookup : bytes -> answer) (target : TargetAddr) : result (list AddrPort) :=
  match ta_Addr target with
  | Some addr => Ok [addr]
  | None =>
      addrs ← resolveHost lookup (ta_Host target) (ta_Port target);
      match addrs with
      | [] => Err (Errorf "failed to connect to any resolved address" [])
      | _ => Ok addrs
      end
  end.

(** ** UDP *)

(** The sockets of an association: what they are bound to. *)
Inductive udp_bind := BindAddr (ip : Addr) | BindV4Zero | BindV6Zero.

Definition createSocketWithAddr (listen : udp_bind -> option error) (ip : Addr) : result udp_bind :=
  match listen (BindAddr ip) with None => Ok (BindAddr ip) | Some e => Err e end.

Definition createSocketWithCIDR (listen : udp_bind -> option error) (d : draws) (u : UdpConnector)
    (cidr : Prefix) : result udp_bind :=
  ip ← assignSourceIP d cidr (cn_CIDRRange (u_inner u)) (u_extension u);
  createSocketWithAddr listen ip.

(** [CreateSocketDualStack]: the preferred and the fallback socket or the error,
    and the sockets it closed. [listen] is the outcome of [net.ListenUDP]. *)
Definition CreateSocketDualStack (listen : udp_bind -> option error) (d : draws) (u : UdpConnector)
    : result (udp_bind * option udp_bind) * list udp_bind :=
  let cidr_only cidr :=
    match createSocketWithCIDR listen d u cidr with
    | Err e => (Err e, [])
    | Ok preferred => (Ok (preferred, None), [])
    end in
  let plain :=
    match listen BindV4Zero with
    | Some e => (Err e, [])
    | None =>
        match listen BindV6Zero with
        | Some _ => (Ok (BindV4Zero, None), [])
        | None => (Ok (BindV4Zero, Some BindV6Zero), [])
        end
    end in
  match cn_CIDR (u_inner u), cn_Fallback (u_inner u) with
  | Some cidr, Some fb =>
      if negb (IsInterface fb) then
        match createSocketWithCIDR listen d u cidr with
        | Err e => (Err e, [])
        | Ok preferred =>
            match createSocketWithAddr listen (fb_Address fb) with
            | Err e => (Err e, [preferred])
            | Ok fallback => (Ok (preferred, Some fallback), [])
            end
        end
      else cidr_only cidr
  | None, Some fb =>
      if negb (IsInterface fb) then
        match createSocketWithAddr listen (fb_Address fb) with
        | Err e => (Err e, [])
        | Ok fallback => (Ok (fallback, None), [])
        end
      else plain
  | Some cidr, None => cidr_only cidr
  | None, None => plain
  end.

(** The [WriteToUDP] calls of [SendPacket], in order: address, and whether on the
    fallback socket. *)
Abbreviation udp_write := (AddrPort * bool)%type.

(** [sendPacketWithAddr]; [write] is the outcome of a [WriteToUDP], [ctxErr] the
    context's error when the address is tried. *)
Definition sendPacketWithAddr (ctxErr : option error) (write : udp_write -> result Z) (hasFallback : bool)
    (addr : AddrPort) : result Z * list udp_write :=
  match ctxErr with
  | Some e => (Err e, [])
  | None =>
      match write (addr, false) with
      | Ok n => (Ok n, [(addr, false)])
      | Err e =>
          if negb hasFallback then (Err e, [(addr, false)])
          else (write (addr, true), [(addr, false); (addr, true)])
      end
  end.

Fixpoint SendPacket_addrs (ctxErr : option error) (write : udp_write -> result Z) (hasFallback : bool)
    (addrs : list AddrPort) (lastErr : option error) : result Z * list udp_write :=
  match addrs with
  | [] =>
      (Err (match lastErr with
            | None => Errorf "failed to send packet to any resolved address" []
            | Some e => e
            end), [])
  | addr :: rest =>
      match sendPacketWithAddr ctxErr write hasFallback addr with
      | (Ok n, tr) => (Ok n, tr)
      | (Err e, tr) =>
          let '(r, tr') := SendPacket_addrs ctxErr write hasFallback rest (Some e) in (r, tr ++ tr')
      end
  end.

Definition SendPacket (lookup : bytes -> answer) (ctxErr : option error) (write : udp_write -> result Z)
    (hasFallback : bool) (target : TargetAddr) : result Z * list udp_write :=
  match ta_Addr target with
  | Some addr => SendPacket_addrs ctxErr write hasFallback [addr] None
  | None =>
      match resolveHost lookup (ta_Host target) (ta_Port target) with
      | Err e => (Err e, [])
      | Ok addrs => SendPacket_addrs ctxErr write hasFallback addrs None
      end
  end.

(** ** Races of dials *)

(** What a select loop does with a failed dial or a tick of its timer. *)
Inductive action := Continue | StartNext | Return (e : error).

(** A select loop over dial results: its variables, the number of dials it may
    start in all, its two branches, and whether its timer may still fire. *)
Class RaceLoop (L : Type) := {
  rl_total : nat;
  rl_init : L;
  rl_failure : error -> L -> L * action;
  rl_timer : L -> L * action;
  rl_armed : L -> bool
}.

(** *** [connectAny] *)

Record anyLoop := mkAny { started : nat; completed : nat; any_lastErr : option error; any_timer : bool }.

(** [start(addrs[started]); started++; if started < len(addrs) resetTimer()] *)
Definition any_start (n : nat) (l : anyLoop) : anyLoop :=
  let started' := S (started l) in
  mkAny started' (completed l) (any_lastErr l)
    (if bool_decide (started' < n)%nat then true else any_timer l).

Definition any_failure (n : nat) (e : error) (l : anyLoop) : anyLoop * action :=
  let l := mkAny (started l) (S (completed l)) (Some e) (any_timer l) in
  if bool_decide (completed l = n) then (l, Return e)
  else if bool_decide (completed l = started l) && bool_decide (started l < n)%nat
       then (any_start n l, StartNext)
       else (l, Continue).

Definition any_tick (n : nat) (l : anyLoop) : anyLoop * action :=
  let l := mkAny (started l) (completed l) (any_lastErr l) false in
  if bool_decide (started l < n)%nat then (any_start n l, StartNext) else (l, Continue).

(** The loop over [n] addresses; dial [i] is [connectAddr] of [addrs[i]]. *)
Definition connectAny (n : nat) : RaceLoop anyLoop := {|
  rl_total := n;
  rl_init := mkAny 1 0 None true;
  rl_failure := any_failure n;
  rl_timer := any_tick n;
  rl_armed := any_timer
|}.

(** *** [connectWithCIDRFallback] *)

Record fbLoop := mkFb { fallbackStarted : bool; failures : nat; fb_lastErr : option error; fb_timer : bool }.

Definition fb_failure (e : error) (l : fbLoop) : fbLoop * action :=
  let l := mkFb (fallbackStarted l) (S (failures l)) (Some e) (fb_timer l) in
  if negb (fallbackStarted l) then (mkFb true (failures l) (Some e) false, StartNext)
  else if bool_decide (failures l = 2%nat) then (l, Return e)
  else (l, Continue).

Definition fb_tick (l : fbLoop) : fbLoop * action :=
  let l := mkFb (fallbackStarted l) (failures l) (fb_lastErr l) false in
  if negb (fallbackStarted l) then (mkFb true (failures l) (fb_lastErr l) false, StartNext)
  else (l, Continue).

(** Dial 0 is [connectWithCIDR], dial 1 [connectWithFallback]. *)
Definition connectWithCIDRFallback : RaceLoop fbLoop := {|
  rl_total := 2;
  rl_init := mkFb false 0 None true;
  rl_failure := fb_failure;
  rl_timer := fb_tick;
  rl_armed := fb_timer
|}.

(** The delay before the fallback dial is started. *)
Definition fallbackDelay (connectTimeout : Z) : Z :=
  let delay := 500 * Millisecond in
  let halfTimeout := Z.quot connectTimeout 2 in
  if halfTimeout <? delay then halfTimeout else delay.

(** *** The race *)

(** A dialing goroutine. *)
Inductive goroutine :=
  | Dialing
  | Sending (r : result Z)    (* in the select that hands over its result *)
  | Delivered (r : result Z)  (* the loop took the result *)
  | Abandoned (r : result Z). (* the race was over *)

Record race (L : Type) := mkRace {
  ra_loop : L;
  ra_dials : list goroutine;
  ra_ctxDone : bool;             (* the caller's context *)
  ra_out : option (result Z);    (* what the loop returned *)
  ra_closed : gset Z             (* connections a goroutine closed *)
}.
Arguments mkRace {L}.
Arguments ra_loop {L}.
Arguments ra_dials {L}.
Arguments ra_ctxDone {L}.
Arguments ra_out {L}.
Arguments ra_closed {L}.

(** The connection of a goroutine's result. *)
Definition conn_of_result (r : result Z) : option Z := match r with Ok c => Some c | Err _ => None end.
Definition conn_of_dial (g : goroutine) : option Z :=
  match g with Dialing => None | Sending r | Delivered r | Abandoned r => conn_of_result r end.

(** [raceCtx] is done: its parent is, or the loop returned (the deferred
    [cancel]). *)
Definition raceDone {L} (s : race L) : bool :=
  ra_ctxDone s || match ra_out s with Some _ => true | None => false end.

(** The loop's variables, the goroutines and the result after an action. *)
Definition perform {L} (a : L * action) (dials : list goroutine) (s : race L) : race L :=
  match a with
  | (l, Continue) => mkRace l dials (ra_ctxDone s) (ra_out s) (ra_closed s)
  | (l, StartNext) => mkRace l (dials ++ [Dialing]) (ra_ctxDone s) (ra_out s) (ra_closed s)
  | (l, Return e) => mkRace l dials (ra_ctxDone s) (Some (Err e)) (ra_closed s)
  end.

(** What [ctx.Err()] can be once the context is done. *)
Definition ctx_err (e : error) : Prop := e = ContextCanceled \/ e = DeadlineExceeded.

Section Race.
Context {L : Type} (R : RaceLoop L).

Definition race_init : race L := mkRace rl_init [Dialing] false None ∅.

Inductive race_step : race L -> race L -> Prop :=
  (* a dial returns; a connection is a new one *)
  | race_dial s i r :
      ra_dials s !! i = Some Dialing ->
      (forall c, r = Ok c -> c ∉ omap conn_of_dial (ra_dials s)) ->
      race_step s (mkRace (ra_loop s) (<[i := Sending r]> (ra_dials s)) (ra_ctxDone s) (ra_out s)
                     (ra_closed s))
  (* case result := <-results *)
  | race_success s i c :
      ra_out s = None -> ra_dials s !! i = Some (Sending (Ok c)) ->
      race_step s (mkRace (ra_loop s) (<[i := Delivered (Ok c)]> (ra_dials s)) (ra_ctxDone s)
                     (Some (Ok c)) (ra_closed s))
  | race_failure s i e :
      ra_out s = None -> ra_dials s !! i = Some (Sending (Err e)) ->
      race_step s (perform (rl_failure e (ra_loop s)) (<[i := Delivered (Err e)]> (ra_dials s)) s)
  (* case <-timer.C *)
  | race_timer s :
      ra_out s = None -> rl_armed (ra_loop s) = true ->
      race_step s (perform (rl_timer (ra_loop s)) (ra_dials s) s)
  (* the caller's context ends; case <-ctx.Done() *)
  | race_cancel s :
      ra_ctxDone s = false ->
      race_step s (mkRace (ra_loop s) (ra_dials s) true (ra_out s) (ra_closed s))
  | race_ctx s e :
      ra_out s = None -> ra_ctxDone s = true -> ctx_err e ->
      race_step s (mkRace (ra_loop s) (ra_dials s) (ra_ctxDone s) (Some (Err e)) (ra_closed s))
  (* a goroutine's case <-raceCtx.Done() *)
  | race_abandon s i r :
      raceDone s = true -> ra_dials s !! i = Some (Sending r) ->
      race_step s (mkRace (ra_loop s) (<[i := Abandoned r]> (ra_dials s)) (ra_ctxDone s) (ra_out s)
                     (match r with Ok c => {[c]} ∪ ra_closed s | Err _ => ra_closed s end)).

Definition race_reachable : race L -> Prop := rtc race_step race_init.
End Race.

(** ** What the races need of their loop *)

(** A loop counts the dials it started and those that failed; it starts the next
    dial at the latest when all started ones failed, and gives up only when every
    dial failed. *)
Class RaceLaws {L : Type} (R : RaceLoop L) := {
  rl_started : L -> nat;
  rl_failed : L -> nat;
  law_init : rl_started rl_init = 1%nat /\ rl_failed rl_init = 0%nat /\ (1 <= rl_total)%nat;
  law_failure e l : (rl_failed l < rl_started l <= rl_total)%nat ->
    let '(l', a) := rl_failure e l in
    rl_failed l' = S (rl_failed l) /\
    match a with
    | Continue => rl_started l' = rl_started l /\ (rl_failed l' < rl_started l')%nat /\
                  (rl_armed l' = true -> rl_armed l = true)
    | StartNext => rl_started l' = S (rl_started l) /\ (rl_started l < rl_total)%nat
    | Return e' => e' = e /\ rl_started l' = rl_started l /\ rl_failed l' = rl_total /\
                   (rl_armed l' = true -> rl_armed l = true)
    end;
  law_timer l : (rl_started l <= rl_total)%nat ->
    let '(l', a) := rl_timer l in
    rl_failed l' = rl_failed l /\
    match a with
    | Continue => rl_started l' = rl_started l /\ rl_armed l' = false
    | StartNext => rl_started l' = S (rl_started l) /\ (rl_started l < rl_total)%nat
    | Return _ => False
    end
}.

Lemma connectAny_laws n : (1 <= n)%nat -> RaceLaws (connectAny n).
Proof.
  intros Hn. refine {| rl_started := started : _; rl_failed := completed : _ |}.
  - cbn. lia.
  - intros e l H. cbn [rl_failure connectAny rl_total rl_armed] in *. unfold any_failure, any_start. cbn.
    repeat case_bool_decide; cbn; lia || (repeat split; try done; try lia).
  - intros l H. cbn [rl_timer connectAny rl_total rl_armed] in *. unfold any_tick, any_start. cbn.
    repeat case_bool_decide; cbn; repeat split; try done; lia.
Defined.

#[export] Instance connectWithCIDRFallback_laws : RaceLaws connectWithCIDRFallback.
Proof.
  refine {| rl_started := (fun l => if fallbackStarted l then 2 else 1)%nat; rl_failed := failures : _ |}.
  - cbn. lia.
  - intros e l H. cbn [rl_failure connectWithCIDRFallback rl_total rl_armed] in *. unfold fb_failure. cbn.
    destruct (fallbackStarted l) eqn:E; cbn; [|repeat split; lia].
    case_bool_decide; cbn; rewrite ?E; repeat split; try done; lia.
  - intros l H. cbn [rl_timer connectWithCIDRFallback rl_total rl_armed] in *. unfold fb_tick. cbn.
    destruct (fallbackStarted l) eqn:E; cbn; rewrite ?E; repeat split; try done; lia.
Defined.

Definition weight (g : goroutine) : Z :=
  match g with Dialing => 2 | Sending _ => 1 | _ => 0 end.
Definition failed_dial (g : goroutine) : Z := match g with Delivered (Err _) => 1 | _ => 0 end.
Definition ended (g : goroutine) : Prop :=
  match g with Delivered _ | Abandoned _ => True | _ => False end.

Section RaceInvariant.
Context {L : Type} (R : RaceLoop L) {Laws : RaceLaws R}.

Record race_inv (s : race L) : Prop := {
  ri_started : length (ra_dials s) = rl_started (ra_loop s);
  ri_total : (rl_started (ra_loop s) <= rl_total)%nat;
  ri_failed : Z.of_nat (rl_failed (ra_loop s)) = sumZ (failed_dial <$> ra_dials s);
  ri_running : ra_out s = None -> (rl_failed (ra_loop s) < rl_started (ra_loop s))%nat;
  ri_delivered : forall i c, ra_dials s !! i = Some (Delivered (Ok c)) -> ra_out s = Some (Ok c);
  ri_out : forall c, ra_out s = Some (Ok c) -> exists i, ra_dials s !! i = Some (Delivered (Ok c));
  ri_err : forall e, ra_out s = Some (Err e) ->
    (ra_ctxDone s = true /\ ctx_err e) \/ rl_failed (ra_loop s) = rl_total;
  ri_closed : forall c, c ∈ ra_closed s <-> exists i, ra_dials s !! i = Some (Abandoned (Ok c));
  ri_distinct : forall i j g g' c, ra_dials s !! i = Some g -> ra_dials s !! j = Some g' ->
    conn_of_dial g = Some c -> conn_of_dial g' = Some c -> i = j;
  ri_abandoned : forall i r, ra_dials s !! i = Some (Abandoned r) -> raceDone s = true
}.

Lemma race_inv_init : race_inv (race_init R).
Proof.
  destruct law_init as (H1 & H2 & H3). constructor; cbn [race_init ra_loop ra_dials ra_out ra_ctxDone ra_closed];
    try done; try lia.
  - by rewrite H2.
  - intros [|i] c; done.
  - intros c. split; [set_solver|]. intros [[|i] H]; done.
  - intros [|i] [|j] g g' c; cbn; intros; simplify_eq; done.
  - intros [|i] r; done.
Qed.

(** Facts of a list with one goroutine replaced. *)
Lemma lookup_insert_cases (l : list goroutine) i j g g' :
  <[i := g]> l !! j = Some g' -> (j = i /\ g' = g) \/ (j <> i /\ l !! j = Some g').
Proof.
  intros H. destruct (decide (j = i)) as [->|Hne]; [left|right].
  - apply list_lookup_insert_Some in H as [(_ & ? & _)|(? & _)]; done.
  - split; [done|]. by rewrite list_lookup_insert_ne in H.
Qed.

Lemma race_inv_dial s i r :
  ra_dials s !! i = Some Dialing -> (forall c, r = Ok c -> c ∉ omap conn_of_dial (ra_dials s)) ->
  race_inv s ->
  race_inv (mkRace (ra_loop s) (<[i := Sending r]> (ra_dials s)) (ra_ctxDone s) (ra_out s) (ra_closed s)).
Proof.
  intros Hi Hf [H1 H2 H3 H4 H5 H6 H7 H8 H9 H10].
  pose proof (lookup_insert_cases (ra_dials s) i) as HC.
  constructor; cbn [ra_loop ra_dials ra_ctxDone ra_out ra_closed]; try done.
  - by rewrite length_insert.
  - rewrite (sumZ_insert _ _ _ _ _ Hi). cbn [failed_dial]. lia.
  - intros j c [[? ?]|[_ Hj]]%HC; [done|eauto].
  - intros c Hc. destruct (H6 c Hc) as [j Hj]. exists j. rewrite list_lookup_insert_ne; [done|].
    intros ->. by simplify_eq.
  - intros c. rewrite H8. split; intros [j Hj].
    + exists j. rewrite list_lookup_insert_ne; [done|]. intros ->. by simplify_eq.
    + apply HC in Hj as [[? ?]|[_ Hj]]; [done|eauto].
  - assert (forall j g c, ra_dials s !! j = Some g -> conn_of_dial g = Some c ->
      conn_of_dial (Sending r) = Some c -> False) as Hn.
    { intros j g c Hj Hg Hr. destruct r as [c'|]; cbn in Hr; [|done]. simplify_eq.
      apply (Hf c eq_refl), list_elem_of_omap. exists g. split; [by eapply list_elem_of_lookup_2|done]. }
    intros j k g g' c [[-> ->]|[? Hj]]%HC [[-> ->]|[? Hk]]%HC Hg Hg'; eauto; exfalso; eauto.
  - intros j r' [[? ?]|[_ Hj]]%HC; [done|]. unfold raceDone in *. cbn. eauto.
Qed.

Lemma race_inv_success s i c :
  ra_out s = None -> ra_dials s !! i = Some (Sending (Ok c)) -> race_inv s ->
  race_inv (mkRace (ra_loop s) (<[i := Delivered (Ok c)]> (ra_dials s)) (ra_ctxDone s)
              (Some (Ok c)) (ra_closed s)).
Proof.
  intros Ho Hi [H1 H2 H3 H4 H5 H6 H7 H8 H9 H10].
  pose proof (lookup_insert_cases (ra_dials s) i) as HC.
  constructor; cbn [ra_loop ra_dials ra_ctxDone ra_out ra_closed]; try done.
  - by rewrite length_insert.
  - rewrite (sumZ_insert _ _ _ _ _ Hi). cbn [failed_dial]. lia.
  - intros j c' [[-> [= ->]]|[_ Hj]]%HC; [done|]. apply H5 in Hj. congruence.
  - intros c' [= <-]. exists i. apply list_lookup_insert_eq. by eapply lookup_lt_Some.
  - intros c'. rewrite H8. split; intros [j Hj].
    + exists j. rewrite list_lookup_insert_ne; [done|]. intros ->. by simplify_eq.
    + apply HC in Hj as [[? ?]|[_ Hj]]; [done|eauto].
  - intros j k g g' c' [[-> ->]|[? Hj]]%HC [[-> ->]|[? Hk]]%HC Hg Hg'; [done| | |by eauto].
    + by eapply H9.
    + by eapply H9.
  - intros j r'. unfold raceDone. cbn. by rewrite orb_true_r.
Qed.

Lemma race_inv_abandon s i r :
  raceDone s = true -> ra_dials s !! i = Some (Sending r) -> race_inv s ->
  race_inv (mkRace (ra_loop s) (<[i := Abandoned r]> (ra_dials s)) (ra_ctxDone s) (ra_out s)
              (match r with Ok c => {[c]} ∪ ra_closed s | Err _ => ra_closed s end)).
Proof.
  intros Hd Hi [H1 H2 H3 H4 H5 H6 H7 H8 H9 H10].
  pose proof (lookup_insert_cases (ra_dials s) i) as HC.
  assert (i < length (ra_dials s))%nat as Hlt by by eapply lookup_lt_Some.
  constructor; cbn [ra_loop ra_dials ra_ctxDone ra_out ra_closed]; try done.
  - by rewrite length_insert.
  - rewrite (sumZ_insert _ _ _ _ _ Hi). cbn [failed_dial]. lia.
  - intros j c' [[? ?]|[_ Hj]]%HC; [done|eauto].
  - intros c Hc. destruct (H6 c Hc) as [j Hj]. exists j. rewrite list_lookup_insert_ne; [done|].
    intros ->. by simplify_eq.
  - intros c. assert (c ∈ (match r with Ok c' => {[c']} ∪ ra_closed s | Err _ => ra_closed s end) <->
      r = Ok c \/ c ∈ ra_closed s) as -> by (destruct r; set_solver). rewrite H8. split.
    + intros [-> | [j Hj]]; [exists i; by apply list_lookup_insert_eq|].
      exists j. rewrite list_lookup_insert_ne; [done|]. intros ->. by simplify_eq.
    + intros [j [[-> [= <-]]|[_ Hj]]%HC]; [by left|right; eauto].
  - intros j k g g' c' [[-> ->]|[? Hj]]%HC [[-> ->]|[? Hk]]%HC Hg Hg'; [done| | |by eauto].
    + by eapply H9.
    + by eapply H9.
Qed.

(** Moving the loop on while its bookkeeping stays in step with the goroutines. *)
Lemma race_inv_perform s l a dials :
  ra_out s = None -> race_inv s ->
  length dials = length (ra_dials s) ->
  Z.of_nat (rl_failed l) = sumZ (failed_dial <$> dials) ->
  (forall j g, dials !! j = Some g -> ra_dials s !! j = Some g \/
     exists e, g = Delivered (Err e)) ->
  (forall j g, ra_dials s !! j = Some g -> conn_of_dial g <> None -> dials !! j = Some g) ->
  match a with
  | Continue => rl_started l = rl_started (ra_loop s) /\ (rl_failed l < rl_started l)%nat
  | StartNext => rl_started l = S (rl_started (ra_loop s)) /\ (rl_started (ra_loop s) < rl_total)%nat /\
                 (rl_failed l < rl_started l)%nat
  | Return e => rl_started l = rl_started (ra_loop s) /\ rl_failed l = rl_total
  end ->
  race_inv (perform (l, a) dials s).
Proof.
  intros Ho [H1 H2 H3 H4 H5 H6 H7 H8 H9 H10] Hlen Hf Hb Hk Ha.
  assert (forall j g c, dials !! j = Some g -> conn_of_dial g = Some c -> ra_dials s !! j = Some g) as Hb'.
  { intros j g c Hj Hg. destruct (Hb j g Hj) as [?|[e ->]]; done. }
  assert (forall c, c ∈ ra_closed s <-> exists i, dials !! i = Some (Abandoned (Ok c))) as H8'.
  { intros c. rewrite H8. split; intros [j Hj]; exists j; [by apply Hk|by eapply Hb']. }
  assert (forall j c, dials !! j <> Some (Delivered (Ok c))) as H5'.
  { intros j c Hj. assert (ra_dials s !! j = Some (Delivered (Ok c))) as Hd by by eapply Hb'.
    apply H5 in Hd. congruence. }
  assert (forall j r, dials !! j = Some (Abandoned r) -> ra_ctxDone s = true) as H10'.
  { intros j r Hj. destruct (Hb _ _ Hj) as [Hd|[e ?]]; [|done]. apply H10 in Hd.
    unfold raceDone in Hd. rewrite Ho in Hd. by destruct (ra_ctxDone s). }
  assert (forall j g, (dials ++ [Dialing]) !! j = Some g -> dials !! j = Some g \/ g = Dialing) as Hc.
  { intros j g Hj. apply lookup_app_Some in Hj as [Hj|[_ Hj]]; [by left|].
    apply list_lookup_singleton_Some in Hj as [_ <-]. by right. }
  destruct a as [| |e]; cbn [perform]; constructor;
    cbn [ra_loop ra_dials ra_ctxDone ra_out ra_closed]; rewrite ?length_app; cbn [length];
    try lia; try done; try (intros; congruence).
  - intros j c Hj. by destruct (H5' j c).
  - intros j k g g' c Hj Hk' Hg Hg'. by eapply H9; [eapply Hb'| eapply Hb'| |].
  - intros j r Hj. unfold raceDone. cbn. by rewrite (H10' _ _ Hj).
  - rewrite fmap_app, sumZ_app. cbn. lia.
  - intros j c Hj. apply Hc in Hj as [Hj|?]; [by destruct (H5' j c)|done].
  - intros c. rewrite H8'. split; intros [j Hj]; exists j; [by apply lookup_app_l_Some|].
    by apply Hc in Hj as [Hj|?].
  - intros j k g g' c [Hj| ->]%Hc [Hk'| ->]%Hc Hg Hg'; try done.
    by eapply H9; [eapply Hb'| eapply Hb'| |].
  - intros j r [Hj|?]%Hc; [|done]. unfold raceDone. cbn. by rewrite (H10' _ _ Hj).
  - intros j c Hj. by destruct (H5' j c).
  - intros j k g g' c Hj Hk' Hg Hg'. by eapply H9; [eapply Hb'| eapply Hb'| |].
  - intros j r Hj. unfold raceDone. cbn. by rewrite orb_true_r.
Qed.

Lemma race_inv_failure s i e :
  ra_out s = None -> ra_dials s !! i = Some (Sending (Err e)) -> race_inv s ->
  race_inv (perform (rl_failure e (ra_loop s)) (<[i := Delivered (Err e)]> (ra_dials s)) s).
Proof.
  intros Ho Hi Hs. pose proof (law_failure e (ra_loop s) (conj (ri_running s Hs Ho) (ri_total s Hs))) as Hl.
  destruct (rl_failure e (ra_loop s)) as [l a]. destruct Hl as [Hf Hl].
  apply race_inv_perform; [done|done|by rewrite length_insert| | | |].
  - rewrite (sumZ_insert _ _ _ _ _ Hi). cbn [failed_dial]. pose proof (ri_failed s Hs). lia.
  - intros j g [[-> ->]|[_ Hj]]%lookup_insert_cases; [right; by exists e|by left].
  - intros j g Hj Hg. rewrite list_lookup_insert_ne; [done|]. intros ->. by simplify_eq.
  - pose proof (ri_running s Hs Ho). destruct a; intuition lia.
Qed.

Lemma race_inv_timer s :
  ra_out s = None -> race_inv s -> race_inv (perform (rl_timer (ra_loop s)) (ra_dials s) s).
Proof.
  intros Ho Hs. pose proof (law_timer (ra_loop s) (ri_total s Hs)) as Hl.
  destruct (rl_timer (ra_loop s)) as [l a]. destruct Hl as [Hf Hl].
  apply race_inv_perform; [done|done|done| |by left|done|].
  - rewrite Hf. apply Hs.
  - pose proof (ri_running s Hs Ho). destruct a; intuition lia.
Qed.

Lemma race_inv_step s s' : race_step R s s' -> race_inv s -> race_inv s'.
Proof.
  intros Hstep Hs. destruct Hstep as [s i r Hi Hf|s i c Ho Hi|s i e Ho Hi|s Ho Hi|s Hd|s ce Ho Hd Hce|s i r Hd Hi].
  - by apply race_inv_dial.
  - by apply race_inv_success.
  - by apply race_inv_failure.
  - by apply race_inv_timer.
  - destruct Hs. constructor; try done. cbn. intros e He. destruct (ri_err0 e He) as [[? ?]|?]; auto.
  - destruct Hs as [H1 H2 H3 H4 H5 H6 H7 H8 H9 H10]. constructor; try done.
    + cbn. intros i c Hi. apply H5 in Hi. congruence.
    + cbn. intros e [= <-]. by left.
    + intros. unfold raceDone. cbn. by rewrite orb_true_r.
  - by apply race_inv_abandon.
Qed.

Lemma race_reachable_inv s : race_reachable R s -> race_inv s.
Proof.
  unfold race_reachable. intros H. remember (race_init R) as s0 eqn:E0.
  assert (race_inv s0) as Hs by (subst; apply race_inv_init). clear E0.
  induction H as [|s0 s1 s2 H1 _ IH]; [done|]. by eapply IH, race_inv_step.
Qed.

(** *** Termination *)

Definition race_measure (s : race L) : Z :=
  4 * Z.of_nat (rl_total - rl_started (ra_loop s)) + (if rl_armed (ra_loop s) then 1 else 0) +
  sumZ (weight <$> ra_dials s) + (if ra_ctxDone s then 0 else 1) +
  (match ra_out s with None => 1 | Some _ => 0 end).

Lemma race_measure_nonneg s : 0 <= race_measure s.
Proof.
  unfold race_measure. pose proof (sumZ_nonneg weight (ra_dials s)) as H.
  assert (forall g, 0 <= weight g) as Hw by (by intros []). specialize (H Hw).
  destruct (rl_armed (ra_loop s)), (ra_ctxDone s), (ra_out s); lia.
Qed.

Lemma race_step_decreases s s' : race_inv s -> race_step R s s' -> race_measure s' < race_measure s.
Proof.
  intros Hs Hstep. pose proof (ri_total s Hs) as Ht.
  destruct Hstep as [s i r Hi Hf|s i c Ho Hi|s i e Ho Hi|s Ho Hi|s Hd|s ce Ho Hd Hce|s i r Hd Hi];
    unfold race_measure; cbn [ra_loop ra_dials ra_ctxDone ra_out].
  - rewrite (sumZ_insert _ _ _ _ _ Hi). cbn [weight]. lia.
  - rewrite (sumZ_insert _ _ _ _ _ Hi), Ho. cbn [weight]. lia.
  - pose proof (law_failure e (ra_loop s) (conj (ri_running s Hs Ho) Ht)) as Hl.
    destruct (rl_failure e (ra_loop s)) as [l a]. destruct Hl as [Hf Hl]. rewrite Ho.
    destruct a; cbn [perform ra_loop ra_dials ra_ctxDone ra_out]; rewrite ?fmap_app, ?sumZ_app, ?Ho;
      rewrite (sumZ_insert _ _ _ _ _ Hi); cbn [weight fmap list_fmap sumZ foldr];
      destruct (rl_armed l), (rl_armed (ra_loop s)); intuition (congruence || lia).
  - pose proof (law_timer (ra_loop s) Ht) as Hl.
    destruct (rl_timer (ra_loop s)) as [l a]. destruct Hl as [Hf Hl]. rewrite Ho, Hi.
    destruct a; cbn [perform ra_loop ra_dials ra_ctxDone ra_out]; rewrite ?fmap_app, ?sumZ_app, ?Ho;
      cbn [weight fmap list_fmap sumZ foldr]; destruct (rl_armed l); intuition (congruence || lia).
  - rewrite Hd. lia.
  - rewrite Ho. lia.
  - rewrite (sumZ_insert _ _ _ _ _ Hi). cbn [weight]. lia.
Qed.

Lemma race_sn s : race_inv s -> sn (race_step R) s.
Proof.
  remember (Z.to_nat (race_measure s)) as n eqn:E. revert s E.
  induction n as [n IH] using lt_wf_ind. intros s -> Hs. constructor. intros s' Hstep. cbn in Hstep.
  apply (IH (Z.to_nat (race_measure s'))); [|done|by eapply race_inv_step].
  pose proof (race_step_decreases _ _ Hs Hstep). pose proof (race_measure_nonneg s'). lia.
Qed.

(** As long as the loop runs, some goroutine has not handed over its result. *)
Lemma race_pending s : race_inv s -> ra_out s = None -> raceDone s = false ->
  exists i g, ra_dials s !! i = Some g /\ (g = Dialing \/ exists r, g = Sending r).
Proof.
  intros Hs Ho Hd. destruct (decide (Forall (fun g => failed_dial g = 1) (ra_dials s))) as [Hall|Hn].
  - exfalso. assert (sumZ (failed_dial <$> ra_dials s) = Z.of_nat (length (ra_dials s))) as E.
    { clear -Hall. induction Hall as [|g l Hg _ IH]; [done|]. unfold sumZ in *. cbn. rewrite IH, Hg. lia. }
    pose proof (ri_failed s Hs). pose proof (ri_started s Hs). pose proof (ri_running s Hs Ho). lia.
  - apply not_Forall_Exists, Exists_exists in Hn as (g & Hin & Hg); [|apply _].
    apply list_elem_of_lookup in Hin as [i Hi]. exists i, g. split; [done|].
    destruct g as [|r|[c|e]|r]; [by left|right; by exists r| |by cbn in Hg|].
    + apply (ri_delivered s Hs) in Hi. congruence.
    + apply (ri_abandoned s Hs) in Hi. congruence.
Qed.

Lemma race_dial_step s i : ra_dials s !! i = Some Dialing ->
  race_step R s (mkRace (ra_loop s) (<[i := Sending (Err EOF)]> (ra_dials s)) (ra_ctxDone s)
                  (ra_out s) (ra_closed s)).
Proof. intros Hi. by apply race_dial. Qed.

Lemma race_send_step s i r : ra_dials s !! i = Some (Sending r) ->
  exists s', race_step R s s' /\ ra_ctxDone s' = ra_ctxDone s.
Proof.
  intros Hi. destruct (ra_out s) as [o|] eqn:Ho.
  - eexists. split; [eapply race_abandon; [|done]|done]. unfold raceDone. rewrite Ho. apply orb_true_r.
  - destruct r as [c|e].
    + eexists. split; [by eapply race_success|done].
    + eexists. split; [by eapply race_failure|].
      by destruct (rl_failure e (ra_loop s)) as [l []].
Qed.

(** When nothing but the end of the caller's context can happen, the loop has
    returned and no goroutine is left. *)
Lemma race_final s : race_inv s ->
  (forall s', race_step R s s' -> ra_ctxDone s' <> ra_ctxDone s) ->
  ra_out s <> None /\ Forall ended (ra_dials s).
Proof.
  intros Hs Hn.
  assert (forall i g, ra_dials s !! i = Some g -> ended g) as He.
  { intros i [|r|r|r] Hi; [|destruct (race_send_step s i r Hi) as (s' & H1 & H2); by destruct (Hn s')|done|done].
    by destruct (Hn _ (race_dial_step s i Hi)). }
  split; [|by apply Forall_lookup]. intros Ho. destruct (ra_ctxDone s) eqn:Ed.
  - by destruct (Hn _ (race_ctx R s ContextCanceled Ho Ed (or_introl eq_refl))).
  - destruct (race_pending s Hs Ho) as (i & g & Hi & Hg); [unfold raceDone; by rewrite Ed, Ho|].
    apply He in Hi. destruct Hg as [-> | [r ->]]; done.
Qed.

Lemma race_all_failed s : race_inv s -> rl_failed (ra_loop s) = rl_total ->
  length (ra_dials s) = rl_total /\ Forall (fun g => exists e, g = Delivered (Err e)) (ra_dials s).
Proof.
  intros Hs Hf. pose proof (ri_failed s Hs) as H1. pose proof (ri_started s Hs) as H2.
  pose proof (ri_total s Hs) as H3.
  assert (forall l, sumZ (failed_dial <$> l) <= Z.of_nat (length l)) as Hb.
  { induction l as [|g l IH]; [done|]. unfold sumZ in *. cbn.
    assert (failed_dial g <= 1) by (destruct g as [| |[]|]; cbn; lia). lia. }
  pose proof (Hb (ra_dials s)). assert (length (ra_dials s) = rl_total) as El by lia. split; [done|].
  assert (sumZ (failed_dial <$> ra_dials s) = Z.of_nat (length (ra_dials s))) as E by lia.
  clear -E Hb. induction (ra_dials s) as [|g l IH]; [done|]. unfold sumZ in *. cbn in E.
  specialize (Hb l). constructor.
  - destruct g as [| |[]|]; cbn in E; try lia. by eexists.
  - apply IH. destruct g as [| |[]|]; cbn in E; lia.
Qed.

End RaceInvariant.

(** ** Properties of the races *)

(** The safety of a race: what became of every connection, and what an error
    means. *)
Definition race_safe {L} (R : RaceLoop L) : Prop :=
  forall s, race_reachable R s ->
  (length (ra_dials s) <= rl_total)%nat /\
  (forall i g c, ra_dials s !! i = Some g -> conn_of_dial g = Some c ->
     g = Sending (Ok c) \/ ra_out s = Some (Ok c) \/ c ∈ ra_closed s) /\
  (forall c, ra_out s = Some (Ok c) ->
     (c ∉ ra_closed s) /\ exists i, ra_dials s !! i = Some (Delivered (Ok c))) /\
  (forall e, ra_out s = Some (Err e) ->
     (ra_ctxDone s = true /\ ctx_err e) \/
     (length (ra_dials s) = rl_total /\
      Forall (fun g => exists e', g = Delivered (Err e')) (ra_dials s))).

(** A race ends: every run is finite, and where only the caller's context can
    still end the loop has returned and every goroutine is gone. *)
Definition race_returns {L} (R : RaceLoop L) : Prop :=
  forall s, race_reachable R s ->
  (sn (race_step R) s) /\
  ((forall s', race_step R s s' -> ra_ctxDone s' <> ra_ctxDone s) ->
     ra_out s <> None /\ Forall ended (ra_dials s)).

Lemma laws_race_safe {L} (R : RaceLoop L) {Laws : RaceLaws R} : race_safe R.
Proof.
  intros s Hr. pose proof (race_reachable_inv R s Hr) as Hs.
  pose proof Hs as [H1 H2 H3 H4 H5 H6 H7 H8 H9 H10]. split_and!; [lia| | |].
  - intros i g c Hi Hc. destruct g as [|r|r|r]; cbn in Hc; [done| | |];
      destruct r as [c'|]; cbn in Hc; simplify_eq.
    + by left.
    + right. left. by eapply H5.
    + right. right. apply H8. by exists i.
  - intros c Ho. destruct (H6 c Ho) as [i Hi]. split; [|by exists i].
    intros [j Hj]%H8. assert (i = j) as -> by by eapply H9. by simplify_eq.
  - intros e [?|?]%H7; [by left|right]. by apply (race_all_failed R s).
Qed.

Lemma laws_race_returns {L} (R : RaceLoop L) {Laws : RaceLaws R} : race_returns R.
Proof.
  intros s Hr. pose proof (race_reachable_inv R s Hr) as Hs.
  split; [by apply (race_sn R)|by apply (race_final R)].
Qed.

(** C17: In both races of dials (over the resolved addresses in [connectAny], of
    the CIDR source against the fallback in [connectWithCIDRFallback]), whatever
    the dials return and in whatever order: at most one dial per candidate is
    started; a connection that was established is returned to the caller, or
    closed by its goroutine, or its goroutine is still at the select that does
    one of the two (none leaks, and the returned one is not closed); an error is
    returned only when the caller's context ended or every candidate was dialed
    and failed. *)
Theorem dial_races_safe (n : nat) :
  (2 <= n)%nat -> race_safe (connectAny n) /\ race_safe connectWithCIDRFallback.
Proof.
  intros Hn. split; [apply (laws_race_safe (connectAny n) (Laws := connectAny_laws n ltac:(lia)))|].
  apply (laws_race_safe connectWithCIDRFallback).
Qed.

(** C18: Both races end: no run is infinite, and when nothing is left that can
    happen (short of the caller's context ending) the loop has returned and every
    dialing goroutine is gone. In particular the loop never waits when all the
    dials it started failed. *)
Theorem dial_races_return (n : nat) :
  (2 <= n)%nat -> race_returns (connectAny n) /\ race_returns connectWithCIDRFallback.
Proof.
  intros Hn. split; [apply (laws_race_returns (connectAny n) (Laws := connectAny_laws n ltac:(lia)))|].
  apply (laws_race_returns connectWithCIDRFallback).
Qed.

(** A run in which the fallback dial loses: it is established (connection 8)
    after the first (connection 7) and closed. *)
Definition race_demo : race anyLoop :=
  mkRace (mkAny 2 0 None false) [Delivered (Ok 7); Abandoned (Ok 8)] false (Some (Ok 7)) ({[8]} ∪ ∅).

Lemma race_demo_reachable : race_reachable (connectAny 2) race_demo.
Proof.
  eapply rtc_l. { by apply race_timer. }
  eapply rtc_l. { eapply (race_dial _ _ 0 (Ok 7)); [done|]. intros c [= <-]. apply not_elem_of_nil. }
  eapply rtc_l. { eapply (race_dial _ _ 1 (Ok 8)); [done|]. intros c [= <-]. cbn. set_solver. }
  eapply rtc_l. { by apply (race_success _ _ 0 7). }
  eapply rtc_l. { by apply (race_abandon _ _ 1 (Ok 8)). }
  apply rtc_refl.
Qed.

Lemma dial_races_safe_witness :
  race_reachable (connectAny 2) race_demo /\ ra_out race_demo = Some (Ok 7) /\
  (7 ∉ ra_closed race_demo).
Proof.
  split; [apply race_demo_reachable|]. split; [done|].
  destruct (dial_races_safe 2 ltac:(lia)) as [H _].
  destruct (H race_demo race_demo_reachable) as (_ & _ & Hc & _). by apply (Hc 7).
Defined.

Lemma dial_races_return_witness :
  (sn (race_step (connectAny 2)) (race_init (connectAny 2))) /\
  (sn (race_step connectWithCIDRFallback) (race_init connectWithCIDRFallback)).
Proof.
  destruct (dial_races_return 2 ltac:(lia)) as [H1 H2].
  split; [apply H1 | apply H2]; apply rtc_refl.
Defined.

(** ** Properties of the sources *)

Definition connector_ok (c : Connector) : Prop :=
  match cn_CIDR c with
  | Some cidr => Prefix_ok cidr /\ range_ok cidr (cn_CIDRRange c)
  | None => True
  end /\
  match cn_Fallback c with
  | Some fb => IsInterface fb = false -> IsValid (fb_Address fb) = true
  | None => True
  end.

Definition plan_dials (p : attempt_plan) : list dial :=
  match p with DialOne a => [a] | DialRace a b => [a; b] end.

(** The dials with the fallback's source, if there is one. *)
Definition fallback_dials (c : Connector) (target : AddrPort) : list dial :=
  match cn_Fallback c with Some fb => [connectWithFallback target fb] | None => [] end.

(** A dial for which the kernel picks the source address on any interface. *)
Definition unbound (p : dial) : Prop := di_bindIP p = AddrZero /\ di_bindInterface p = [].

Lemma prefix_Contains_valid p a : prefix_Contains p a = true -> IsValid a = true /\ Is4 a = Is4 (p_Addr p).
Proof.
  unfold prefix_Contains. intros H. zbool. destruct a, (p_Addr p); cbn in *; zbool; done.
Qed.

Lemma connectWithFallback_bound c target fb :
  connector_ok c -> cn_Fallback c = Some fb -> ~ unbound (connectWithFallback target fb).
Proof.
  intros [_ Hf] E. rewrite E in Hf. unfold unbound, connectWithFallback.
  destruct (IsInterface fb) eqn:Ei; cbn.
  - intros [_ E']. unfold IsInterface, eqs in Ei. rewrite E' in Ei. done.
  - intros [E' _]. rewrite E' in Hf. by specialize (Hf eq_refl).
Qed.

(** TCP sources. With a CIDR of the target's family the first dial is bound
    to an address of the CIDR, of that family, and a fallback, if any, only races
    it; a target of the other family is only dialed with the fallback's source, and
    refused without one; without a CIDR the fallback's source is used. Whenever a
    CIDR or a fallback is configured, no dial leaves the choice of the source to
    the kernel: a bound address is the dialer's local address. *)
Theorem connectAddr_sources (d : draws) (t : TcpConnector) (target : AddrPort) :
  connector_ok (t_inner t) -> draws_ok d -> u64 (ext_Value (t_extension t)) ->
  match cn_CIDR (t_inner t) with
  | Some cidr =>
      if eqb (Is4 (p_Addr cidr)) (Is4 (ap_Addr target)) then
        exists plan ip, connectAddr d t target = Ok plan /\
          plan_dials plan = mkDial ip [] target :: fallback_dials (t_inner t) target /\
          prefix_Contains cidr ip = true /\ Is4 ip = Is4 (ap_Addr target) /\
          dl_LocalAddr (dialer t (mkDial ip [] target)) = Some (AsSlice ip)
      else
        plan_dials <$> (match connectAddr d t target with Ok p => Some p | Err _ => None end) =
        match fallback_dials (t_inner t) target with [] => None | l => Some l end
  | None =>
      exists plan, connectAddr d t target = Ok plan /\
        plan_dials plan = match fallback_dials (t_inner t) target with
                          | [] => [connectPlain target] | l => l end
  end /\
  (forall plan p, connectAddr d t target = Ok plan -> p ∈ plan_dials plan ->
     di_target p = target /\
     (cn_CIDR (t_inner t) <> None \/ cn_Fallback (t_inner t) <> None -> ~ unbound p)).
Proof.
  intros Hok Hd He. pose proof Hok as [Hc Hf]. unfold connectAddr, connectWithCIDR, fallback_dials.
  pose proof (connectWithFallback_bound (t_inner t) target) as Hfb.
  assert (forall fb, di_target (connectWithFallback target fb) = target) as Ht.
  { intros fb. unfold connectWithFallback. by destruct (IsInterface fb). }
  destruct (cn_CIDR (t_inner t)) as [cidr|] eqn:Ec.
  - destruct Hc as [Hp Hr].
    destruct (assign_contained d cidr (cn_CIDRRange (t_inner t)) (t_extension t) Hp Hr Hd He)
      as (ip & Ea & _ & Hin). destruct (prefix_Contains_valid _ _ Hin) as [Hv H4].
    assert (~ unbound (mkDial ip [] target)) as Hu by (intros [E _]; cbn in E; by rewrite E in Hv).
    destruct (eqb (Is4 (p_Addr cidr)) (Is4 (ap_Addr target))) eqn:Eq; cbn [negb].
    + apply eqb_prop in Eq. rewrite Ea. cbn. split.
      * destruct (cn_Fallback (t_inner t)) as [fb|]; eexists _, ip;
          (split_and!; [done|done|done|congruence|by rewrite Hv]).
      * intros plan p. destruct (cn_Fallback (t_inner t)) as [fb|]; intros [= <-] Hin'; cbn in Hin';
          set_unfold in Hin'; destruct Hin' as [->|Hin'];
          try (destruct Hin' as [->|Hin']); try done; split; try done; intros _; by apply Hfb.
    + destruct (cn_Fallback (t_inner t)) as [fb|]; [|split; [done|by intros]].
      split; [done|]. intros plan p [= <-] Hin'. set_unfold in Hin'. destruct Hin' as [->|?]; [|done].
      split; [done|]. intros _. by apply Hfb.
  - destruct (cn_Fallback (t_inner t)) as [fb|]; (split; [by eexists|]);
      intros plan p [= <-] Hin'; set_unfold in Hin'; destruct Hin' as [->|?]; try done; split; try done.
    + intros _. by apply Hfb.
    + by intros [?|?].
Qed.

(** An IPv6 CIDR with an interface fallback. *)
Definition demo_connector : TcpConnector :=
  mkTcp (New (Some (mkPrefix (Addr6 (0x20010db8 * 2 ^ 96) []) 48)) (Some 64)
           (Some (mkFallback AddrZero (str "eth0"))) 10 None (Some true) 0)
        (mkExtension ExtSession 77).

Lemma connectAddr_sources_witness :
  exists plan ip,
    connectAddr (mkDraws 1 2 3) demo_connector (AddrPortFrom (Addr6 5 []) 443) = Ok plan /\
    plan_dials plan = [mkDial ip [] (AddrPortFrom (Addr6 5 []) 443);
                       mkDial AddrZero (str "eth0") (AddrPortFrom (Addr6 5 []) 443)] /\
    prefix_Contains (mkPrefix (Addr6 (0x20010db8 * 2 ^ 96) []) 48) ip = true.
Proof.
  destruct (connectAddr_sources (mkDraws 1 2 3) demo_connector (AddrPortFrom (Addr6 5 []) 443))
    as [(plan & ip & H1 & H2 & H3 & _) _].
  - split; [split; by_decide|]. intros [=].
  - by_decide.
  - by_decide.
  - by exists plan, ip.
Defined.

(** Parsed addresses are valid, so a parsed fallback that is not an interface has
    an address to bind to. *)
Lemma ParseAddr_valid s a : ParseAddr s = Ok a -> IsValid a = true.
Proof.
  assert (forall v z, Ok (Addr6 v z) = Ok a -> IsValid a = true) as Hv by (by intros v z [= <-]).
  assert (forall s, parseIPv4 s = Ok a -> IsValid a = true) as H4.
  { intros s'. unfold parseIPv4. destruct (parseIPv4Fields s' 0 0 [] true false); cbn; [|done].
    by intros [= <-]. }
  assert (forall s, parseIPv6 s = Ok a -> IsValid a = true) as H6.
  { intros s'. unfold parseIPv6. destruct (cut_byte 37 s') as [s1 z]. generalize 8%nat. intros fuel.
    destruct z as [[|z0 z]|]; [discriminate| |];
      (match goal with |- context [let '(_, _) := ?p in _] => destruct p as [[|x b] [e|]] end; try apply Hv;
       destruct (parseIPv6Groups fuel _ [] _) as [[[rest ip] el]|]; cbn [mbind result_bind];
       try discriminate; repeat (case_one; try discriminate; try apply Hv)). }
  unfold ParseAddr. destruct (addr_form s) as [[|p|p]|]; try done.
  do 6 (try destruct p as [p|p|]; try done); eauto.
Qed.

Lemma ParseFallback_ok s fb : ParseFallback s = Ok fb -> s <> [] ->
  IsInterface fb = false -> IsValid (fb_Address fb) = true.
Proof.
  unfold ParseFallback. destruct (ParseAddr s) as [a|] eqn:E; intros [= <-] Hs.
  - intros _. by eapply ParseAddr_valid.
  - unfold IsInterface, eqs. cbn. by rewrite bool_decide_eq_false_2.
Qed.

(** UDP sources. With a CIDR the preferred socket of an association is bound
    to an address of the CIDR; the second socket then is the fallback address's
    and exists only if a fallback address is configured, and a fallback address
    without a CIDR is the only source. The sockets returned were opened; when
    [CreateSocketDualStack] fails it returns the error of [ListenUDP], and the
    socket it had opened before, if any, is closed. An interface fallback has no
    influence on UDP: without a CIDR the sockets are bound to no address. *)
Theorem CreateSocketDualStack_sources (listen : udp_bind -> option error) (d : draws) (u : UdpConnector) :
  connector_ok (u_inner u) -> draws_ok d -> u64 (ext_Value (u_extension u)) ->
  match CreateSocketDualStack listen d u with
  | (Ok (preferred, fallback), closed) =>
      closed = [] /\ listen preferred = None /\ (forall b, fallback = Some b -> listen b = None) /\
      match cn_CIDR (u_inner u), cn_Fallback (u_inner u) with
      | Some cidr, fb =>
          (exists ip, preferred = BindAddr ip /\ prefix_Contains cidr ip = true) /\
          fallback = match fb with
                     | Some f => if IsInterface f then None else Some (BindAddr (fb_Address f))
                     | None => None
                     end
      | None, fb =>
          match fb with
          | Some f => if IsInterface f then preferred = BindV4Zero
                      else preferred = BindAddr (fb_Address f) /\ fallback = None
          | None => preferred = BindV4Zero
          end
      end
  | (Err e, closed) =>
      exists b, listen b = Some e /\
        (closed = [] \/ exists ip, closed = [BindAddr ip] /\ listen (BindAddr ip) = None)
  end.
Proof.
  intros [Hc _] Hd He. unfold CreateSocketDualStack, createSocketWithCIDR, createSocketWithAddr.
  assert (forall (P : result (udp_bind * option udp_bind) * list udp_bind -> Prop),
    (forall e, listen BindV4Zero = Some e -> P (Err e, [])) ->
    (listen BindV4Zero = None -> P (Ok (BindV4Zero, None), [])) ->
    (listen BindV4Zero = None -> listen BindV6Zero = None -> P (Ok (BindV4Zero, Some BindV6Zero), [])) ->
    P (match listen BindV4Zero with
       | Some e => (Err e, [])
       | None => match listen BindV6Zero with
                 | Some _ => (Ok (BindV4Zero, None), [])
                 | None => (Ok (BindV4Zero, Some BindV6Zero), [])
                 end
       end)) as Hplain.
  { intros P H1 H2 H3. destruct (listen BindV4Zero); [by apply H1|].
    destruct (listen BindV6Zero); [by apply H2|by apply H3]. }
  destruct (cn_CIDR (u_inner u)) as [cidr|] eqn:Ec.
  - destruct Hc as [Hp Hr].
    destruct (assign_contained d cidr (cn_CIDRRange (u_inner u)) (u_extension u) Hp Hr Hd He)
      as (ip & Ea & _ & Hin). rewrite Ea. cbn [mbind result_bind].
    destruct (cn_Fallback (u_inner u)) as [fb|]; [destruct (IsInterface fb) eqn:Ei; cbn [negb]|];
      destruct (listen (BindAddr ip)) as [e|] eqn:E1; cbn;
      try (exists (BindAddr ip); split; [done|by left]); try (split_and!; eauto; by intros; simplify_eq).
    destruct (listen (BindAddr (fb_Address fb))) as [e|] eqn:E2; cbn.
    + exists (BindAddr (fb_Address fb)). split; [done|]. right. by exists ip.
    + split_and!; eauto. by intros b [= <-].
  - destruct (cn_Fallback (u_inner u)) as [fb|]; [destruct (IsInterface fb) eqn:Ei; cbn [negb]|].
    + apply Hplain; [intros e E; exists BindV4Zero; split; [done|by left]|intros E|intros E E'];
        split_and!; try done; intros b Hb; by simplify_eq.
    + destruct (listen (BindAddr (fb_Address fb))) as [e|] eqn:E1; cbn;
        [exists (BindAddr (fb_Address fb)); split; [done|by left]|split_and!; done].
    + apply Hplain; [intros e E; exists BindV4Zero; split; [done|by left]|intros E|intros E E'];
        split_and!; try done; intros b Hb; by simplify_eq.
Qed.

Lemma CreateSocketDualStack_sources_witness :
  exists ip,
    CreateSocketDualStack (fun _ => None) (mkDraws 1 2 3)
      (mkUdp (t_inner demo_connector) (mkExtension ExtRange 5)) = (Ok (BindAddr ip, None), []) /\
    prefix_Contains (mkPrefix (Addr6 (0x20010db8 * 2 ^ 96) []) 48) ip = true.
Proof.
  pose proof (CreateSocketDualStack_sources (fun _ => None) (mkDraws 1 2 3)
    (mkUdp (t_inner demo_connector) (mkExtension ExtRange 5))) as H.
  specialize (H ltac:(split; [split; by_decide | intros [=]]) ltac:(by_decide) ltac:(by_decide)).
  destruct (CreateSocketDualStack _ _ _) as [[[p f]|e] cl].
  - destruct H as (-> & _ & _ & (ip & -> & Hin) & ->). by exists ip.
  - destruct H as (b & [=] & _).
Defined.

(** *** SendPacket *)

(** The order in which sockets and addresses are tried. *)
Definition send_order (hasFallback : bool) (addrs : list AddrPort) : list udp_write :=
  addrs ≫= fun a => (a, false) :: (if hasFallback then [(a, true)] else []).

Lemma SendPacket_addrs_spec write hasFallback addrs lastErr :
  match SendPacket_addrs None write hasFallback addrs lastErr with
  | (Ok n, tr) => exists failed last later,
      send_order hasFallback addrs = failed ++ last :: later /\ tr = failed ++ [last] /\
      write last = Ok n /\ Forall (fun w => is_ok (write w) = false) failed
  | (Err e, tr) => tr = send_order hasFallback addrs /\ Forall (fun w => is_ok (write w) = false) tr
  end.
Proof.
  revert lastErr. induction addrs as [|a addrs IH]; intros lastErr; [done|].
  cbn [SendPacket_addrs sendPacketWithAddr].
  destruct (write (a, false)) as [n|e] eqn:E1.
  - exists [], (a, false). eexists. split; [cbn; reflexivity|]. done.
  - destruct hasFallback; cbn [negb].
    + destruct (write (a, true)) as [n|e'] eqn:E2.
      * exists [(a, false)], (a, true). eexists. split; [cbn; reflexivity|].
        split_and!; [done|done|]. constructor; [by rewrite E1|done].
      * specialize (IH (Some e')). destruct (SendPacket_addrs None write true addrs (Some e')) as [[n|e2] tr].
        -- destruct IH as (fl & last & later & H1 & -> & H2 & H3).
           exists ([(a, false); (a, true)] ++ fl), last, later. cbn. unfold send_order in H1.
           rewrite H1. split_and!; [done|done|done|]. constructor; [by rewrite E1|].
           constructor; [by rewrite E2|done].
        -- destruct IH as [-> H]. split; [done|]. cbn. constructor; [by rewrite E1|].
           constructor; [by rewrite E2|done].
    + specialize (IH (Some e)). destruct (SendPacket_addrs None write false addrs (Some e)) as [[n|e2] tr].
      * destruct IH as (fl & last & later & H1 & -> & H2 & H3).
        exists ([(a, false)] ++ fl), last, later. cbn. unfold send_order in H1.
        rewrite H1. split_and!; [done|done|done|]. constructor; [by rewrite E1|done].
      * destruct IH as [-> H]. split; [done|]. cbn. constructor; [by rewrite E1|done].
Qed.

(** [SendPacket] to resolved addresses, its context alive, writes the packet
    to each address on the preferred socket and then the fallback socket, in the
    order of the addresses, and stops at the first write that succeeds, whose
    count it returns: no datagram is sent twice. It fails only when every write
    failed (or the name did not resolve). *)
Theorem SendPacket_first_success (lookup : bytes -> answer) (write : udp_write -> result Z)
    (hasFallback : bool) (target : TargetAddr) (addrs : list AddrPort) :
  ta_Addr target = None -> resolveHost lookup (ta_Host target) (ta_Port target) = Ok addrs ->
  match SendPacket lookup None write hasFallback target with
  | (Ok n, tr) => exists failed last later,
      send_order hasFallback addrs = failed ++ last :: later /\ tr = failed ++ [last] /\
      write last = Ok n /\ Forall (fun w => is_ok (write w) = false) failed
  | (Err e, tr) => tr = send_order hasFallback addrs /\ Forall (fun w => is_ok (write w) = false) tr
  end.
Proof. intros Ha Hr. unfold SendPacket. rewrite Ha, Hr. apply SendPacket_addrs_spec. Qed.

Lemma SendPacket_first_success_witness :
  let a := AddrPortFrom (Addr4 1) 53 in
  exists tr, SendPacket (fun _ => ([], None)) None
    (fun w => if snd w then Ok 3 else Err EOF) true (FromHost (str "0.0.0.1") 53) = (Ok 3, tr) /\
    tr = [(a, false); (a, true)].
Proof.
  cbn zeta. pose proof (SendPacket_first_success (fun _ => ([], None))
    (fun w => if snd w then Ok 3 else Err EOF) true (FromHost (str "0.0.0.1") 53)
    [AddrPortFrom (Addr4 1) 53] eq_refl ltac:(reflexivity)) as H.
  destruct (SendPacket _ _ _ _ _) as [[n|e] tr].
  - destruct H as (fl & last & later & H1 & -> & H2 & H3). cbn in H1.
    destruct fl as [|x [|y [|z fl]]]; cbn in H1; simplify_eq; cbn in *; simplify_eq; eauto.
  - destruct H as [-> H]. apply Forall_cons in H as [_ H]. apply Forall_cons in H as [H _]. discriminate H.
Defined.
