(* ===== verification/Dial.v ===== *)
(** * The limit on outbound dials ([TcpConnector.dialContext])

    Models the dial slots of [internal/connect/connect.go]: the concurrent calls
    of [dialContext] on one connector as a step relation over the slot channel,
    which is a channel of tokens like the one of the connection gate. *)

From Stdlib Require Import ZArith Lia.
From stdpp Require Import base tactics numbers strings sets gmap relations list.
From S2P Require Import Prelude.
From S2P Require Import Netip.
From S2P Require Import Ext.
From S2P Require Import Uint128.
From S2P Require Import SourceIP.
From S2P Require Import Config.
From S2P Require Import Serverbase.
From S2P Require Import Connector.

(** A call of [dialContext], between two operations. *)
Inductive dial_call :=
  | DialSelect (p : dial)                  (* in the select on the slots and the context *)
  | Dialing (p : dial)                     (* in [dialer.DialContext] *)
  | DialReleasing (p : dial) (r : result Z)(* in the deferred receive *)
  | DialReturned (p : dial) (r : result Z).

(** The slots of a connector, its calls, and the dials handed to [net.Dialer]. *)
Record dials := mkDials { ds_slots : gate; ds_calls : list dial_call; ds_dialed : list (Dialer * AddrPort) }.

(** [make(chan struct{}, maxPendingDials)], or no channel. *)
Definition dial_slots (c : Connector) : gate := (fun cap => (0, cap)) <$> cn_dialSlots c.

Definition dials_init (c : Connector) : dials := mkDials (dial_slots c) [] [].

(** What [ctx.Err()] is once [ctx.Done()] is closed. *)
Definition ctx_error (e : error) : Prop := e = ContextCanceled \/ e = DeadlineExceeded.

(** The steps of a call that has a live context; without slots the select is
    skipped, which [gate_send] on [None] is. *)
Inductive dial_work (t : TcpConnector) : dials -> dials -> Prop :=
  | dw_acquire s p g l :
      ds_calls s ≡ₚ DialSelect p :: l -> gate_send (ds_slots s) = Some g ->
      dial_work t s (mkDials g (Dialing p :: l) (ds_dialed s))
  | dw_dialed s p r l :
      ds_calls s ≡ₚ Dialing p :: l ->
      dial_work t s (mkDials (ds_slots s) (DialReleasing p r :: l)
                      ((dialer t p, di_target p) :: ds_dialed s))
  | dw_release s p r g l :
      ds_calls s ≡ₚ DialReleasing p r :: l -> gate_recv (ds_slots s) = Some g ->
      dial_work t s (mkDials g (DialReturned p r :: l) (ds_dialed s)).

Inductive dial_step (t : TcpConnector) : dials -> dials -> Prop :=
  | dp_call s p :
      dial_step t s (mkDials (ds_slots s) (DialSelect p :: ds_calls s) (ds_dialed s))
  | dp_work s s' : dial_work t s s' -> dial_step t s s'
  | dp_cancelled s p e l :
      ds_calls s ≡ₚ DialSelect p :: l -> ds_slots s <> None -> ctx_error e ->
      dial_step t s (mkDials (ds_slots s) (DialReturned p (Err e) :: l) (ds_dialed s)).

Definition dials_reachable (t : TcpConnector) : dials -> Prop :=
  rtc (dial_step t) (dials_init (t_inner t)).

(** ** The invariant *)

Definition slot_of (c : dial_call) : Z :=
  match c with Dialing _ | DialReleasing _ _ => 1 | _ => 0 end.

(** The calls that hold a slot. *)
Definition in_progress (l : list dial_call) : Z := sumZ (slot_of <$> l).

Lemma in_progress_perm l k : l ≡ₚ k -> in_progress l = in_progress k.
Proof. intros H. apply sumZ_perm. by rewrite H. Qed.
Lemma in_progress_cons c l : in_progress (c :: l) = slot_of c + in_progress l.
Proof. done. Qed.

Definition slots_inv (t : TcpConnector) (s : dials) : Prop :=
  match ds_slots s with
  | Some (n, cap) => (n = in_progress (ds_calls s) /\ n <= cap) /\ cn_dialSlots (t_inner t) = Some cap
  | None => cn_dialSlots (t_inner t) = None
  end.

Lemma slots_inv_iff t s :
  slots_inv t s <->
  match ds_slots s with Some (n, cap) => n = in_progress (ds_calls s) /\ n <= cap | None => True end /\
  cn_dialSlots (t_inner t) = snd <$> ds_slots s.
Proof. unfold slots_inv. destruct (ds_slots s) as [[n cap]|]; cbn; naive_solver. Qed.

Lemma slots_inv_work t s s' : dial_work t s s' -> slots_inv t s -> slots_inv t s'.
Proof.
  rewrite !slots_inv_iff. intros Hstep [Hg Hc].
  destruct Hstep as [s p g l Hp Hs|s p r l Hp|s p r g l Hp Hs];
    apply in_progress_perm in Hp; rewrite in_progress_cons in Hp; cbn [slot_of] in Hp; rewrite Hp in Hg;
    cbn [ds_slots ds_calls]; rewrite in_progress_cons; cbn [slot_of].
  - split; [|by rewrite (gate_cap_send _ _ Hs)]. apply (gate_send_inv _ _ _ Hs) in Hg.
    destruct g as [[k cap]|]; [lia|done].
  - done.
  - split; [|by rewrite (gate_cap_recv _ _ Hs)]. apply (gate_recv_inv _ _ _ Hs) in Hg.
    destruct g as [[k cap]|]; [lia|done].
Qed.

Lemma slots_inv_step t s s' : dial_step t s s' -> slots_inv t s -> slots_inv t s'.
Proof.
  destruct 1 as [s p|s s' H|s p e l Hp Hs He]; [by rewrite !slots_inv_iff|by apply slots_inv_work|].
  rewrite !slots_inv_iff. apply in_progress_perm in Hp. rewrite in_progress_cons in Hp. cbn [slot_of] in Hp.
  cbn [ds_slots ds_calls]. rewrite in_progress_cons. cbn [slot_of]. by rewrite Hp.
Qed.

(** A channel that was made has a positive capacity. *)
Definition cap_ok (c : Connector) : Prop := match cn_dialSlots c with Some cap => 0 < cap | None => True end.

Lemma slots_inv_init t : cap_ok (t_inner t) -> slots_inv t (dials_init (t_inner t)).
Proof.
  intros H0. rewrite slots_inv_iff. revert H0. unfold dials_init, dial_slots, cap_ok. cbn.
  destruct (cn_dialSlots (t_inner t)) as [cap|]; cbn; [|done]. intros. split; [|done]. cbn. lia.
Qed.

Lemma slots_inv_reachable t s : cap_ok (t_inner t) -> dials_reachable t s -> slots_inv t s.
Proof.
  intros H0 H. unfold dials_reachable in H. apply slots_inv_init in H0.
  induction H; [done|]. eauto using slots_inv_step.
Qed.

Lemma New_cap_ok cidr r fb to uto ra maxPendingDials : cap_ok (New cidr r fb to uto ra maxPendingDials).
Proof. unfold cap_ok. cbn. case_one; [|done]. by zbool. Qed.

(** ** Every call returns *)

Definition returned (c : dial_call) : bool := match c with DialReturned _ _ => true | _ => false end.

Definition steps_left (c : dial_call) : nat :=
  match c with DialSelect _ => 3 | Dialing _ => 2 | DialReleasing _ _ => 1 | DialReturned _ _ => 0 end.

Definition measure (l : list dial_call) : nat := sum_list (steps_left <$> l).

Lemma measure_perm l k : l ≡ₚ k -> measure l = measure k.
Proof. unfold measure. induction 1; cbn; lia. Qed.

Lemma in_progress_nonneg l : 0 <= in_progress l.
Proof. apply sumZ_nonneg. by intros []. Qed.

Lemma in_progress_none l : Forall (fun c => slot_of c = 0) l -> in_progress l = 0.
Proof. induction 1 as [|c l Hc _ IH]; [done|]. rewrite in_progress_cons. lia. Qed.

Lemma release_enabled t s p r :
  slots_inv t s -> DialReleasing p r ∈ ds_calls s -> exists g, gate_recv (ds_slots s) = Some g.
Proof.
  rewrite slots_inv_iff. intros [Hg _] [l Hl]%elem_of_Permutation. apply in_progress_perm in Hl.
  rewrite in_progress_cons in Hl. pose proof (in_progress_nonneg l). cbn [slot_of] in Hl.
  unfold gate_recv. destruct (ds_slots s) as [[n cap]|]; [|by eexists].
  rewrite (proj2 (Z.ltb_lt 0 n)) by lia. by eexists.
Qed.

(** While a call has not returned, some call can go on without its context ending. *)
Lemma work_enabled t s :
  cap_ok (t_inner t) -> slots_inv t s -> Exists (fun c => returned c = false) (ds_calls s) ->
  exists s', dial_work t s s' /\ (measure (ds_calls s') < measure (ds_calls s))%nat.
Proof.
  intros Hcap Hi Hex.
  destruct (decide (Forall (fun c => slot_of c = 0) (ds_calls s))) as [Hz|Hz].
  - (* nobody holds a slot: the one that has not returned waits, and can acquire *)
    apply Exists_exists in Hex as (c & Hc & Hr). pose proof (in_progress_none _ Hz) as H0.
    rewrite Forall_forall in Hz. pose proof (Hz c Hc).
    destruct c as [p| | |]; try done. apply elem_of_Permutation in Hc as [l Hl].
    assert (exists g, gate_send (ds_slots s) = Some g) as [g Hg].
    { apply slots_inv_iff in Hi as [Hg Hc']. unfold cap_ok in Hcap. rewrite Hc' in Hcap.
      unfold gate_send. destruct (ds_slots s) as [[n cap]|]; [|by eexists]. cbn in Hcap.
      rewrite (proj2 (Z.ltb_lt n cap)) by lia. by eexists. }
    eexists. split; [by eapply dw_acquire|]. apply measure_perm in Hl. rewrite Hl. cbn. lia.
  - apply not_Forall_Exists in Hz; [|intros c; cbn; apply _]. apply Exists_exists in Hz as (c & Hc & Hs). cbn in Hs.
    destruct c as [p|p|p r|p r]; try done; pose proof Hc as [l Hl]%elem_of_Permutation.
    + eexists. split; [by eapply (dw_dialed t s p (Err EOF))|]. apply measure_perm in Hl. rewrite Hl. cbn. lia.
    + destruct (release_enabled _ _ _ _ Hi Hc) as [g Hg].
      eexists. split; [by eapply dw_release|]. apply measure_perm in Hl. rewrite Hl. cbn. lia.
Qed.

Lemma work_completes t s :
  cap_ok (t_inner t) -> slots_inv t s ->
  exists s', rtc (dial_work t) s s' /\ Forall (fun c => returned c = true) (ds_calls s').
Proof.
  intros Hcap. remember (measure (ds_calls s)) as n eqn:En. revert s En.
  induction (lt_wf n) as [n _ IH]. intros s -> Hi.
  destruct (decide (Forall (fun c => returned c = true) (ds_calls s))) as [Hd|Hd]; [by exists s|].
  apply not_Forall_Exists in Hd; [|intros c; cbn; apply _].
  destruct (work_enabled t s Hcap Hi) as (s1 & H1 & Hlt).
  { eapply Exists_impl; [exact Hd|]. intros c Hc. cbn in Hc. by destruct (returned c). }
  destruct (IH _ Hlt s1 eq_refl) as (s' & H2 & H3); [by eapply slots_inv_work|].
  exists s'. split; [by eapply rtc_l|done].
Qed.

(** The dial limit. Whatever the interleaving of calls, at most
    [--max-pending-dials] dials are in progress when the limit is positive; giving a
    slot back never blocks; a call waits for a slot only while all of them are in
    use; and from every reachable state the calls under way can all return, without
    any of their contexts ending. *)
Theorem dial_slots_bounded cidr r fb to uto ra maxPendingDials e s :
  let t := Connector_TCP (New cidr r fb to uto ra maxPendingDials) e in
  dials_reachable t s ->
  (0 < maxPendingDials -> in_progress (ds_calls s) <= maxPendingDials) /\
  (forall p res, DialReleasing p res ∈ ds_calls s -> is_Some (gate_recv (ds_slots s))) /\
  (gate_send (ds_slots s) = None -> 0 < maxPendingDials /\ in_progress (ds_calls s) = maxPendingDials) /\
  exists s', rtc (dial_work t) s s' /\ Forall (fun c => returned c = true) (ds_calls s').
Proof.
  intros t Hr. pose proof (New_cap_ok cidr r fb to uto ra maxPendingDials) as Hcap.
  pose proof (slots_inv_reachable t s Hcap Hr) as Hi. split_and!.
  - intros Hm. unfold slots_inv in Hi. cbn in Hi. rewrite (proj2 (Z.ltb_lt _ _) Hm) in Hi.
    destruct (ds_slots s) as [[n cap]|]; [|done]. destruct Hi as [? [= <-]]. lia.
  - intros p res Hp. destruct (release_enabled t s p res Hi Hp) as [g Hg]. by eexists.
  - unfold gate_send. unfold slots_inv in Hi. cbn in Hi. destruct (ds_slots s) as [[n cap]|]; [|done].
    destruct Hi as [? Hc]. case_one_in Hc; [|done]. injection Hc as <-. case_one; [done|]. zbool. lia.
  - by apply work_completes.
Qed.

Lemma dial_slots_bounded_witness :
  let t := Connector_TCP (New None None None 10 None None 1) ext_None in
  let p := connectPlain AddrPortZero in
  let s := mkDials (Some (1, 1)) [Dialing p; DialSelect p] [] in
  dials_reachable t s /\ in_progress (ds_calls s) <= 1 /\ gate_send (ds_slots s) = None.
Proof.
  set (t := Connector_TCP (New None None None 10 None None 1) ext_None). set (p := connectPlain AddrPortZero).
  assert (dials_reachable t (mkDials (Some (1, 1)) [Dialing p; DialSelect p] [])) as Hr.
  { eapply rtc_l; [apply (dp_call t _ p)|]. eapply rtc_l; [apply (dp_call t _ p)|].
    eapply rtc_l; [apply dp_work, (dw_acquire t _ p (Some (1, 1)) [DialSelect p]); reflexivity|].
    apply rtc_refl. }
  split; [exact Hr|]. split; [|reflexivity].
  apply (dial_slots_bounded None None None 10 None None 1 ext_None _ Hr). lia.
Defined.
