(* ===== verification/Tunnel.v ===== *)
(** * Tunnels ([CopyBidirectionalContext] of [serverbase.go])

    The copy between a client and a target that CONNECT and BIND end in: two
    directions on two goroutines, the half-close of the peer when one ends, the
    grace timer that bounds a half-open tunnel, and the interruption by the
    server's context. The steps of the program and of its timers are one relation, what
    the peers and the server do another: a copy returns only at the end of its source,
    after a failure, or when a deadline has passed, so a silent peer blocks it. *)

From Stdlib Require Import ZArith Lia.
From stdpp Require Import base tactics numbers list strings relations.
From S2P Require Import Prelude.

(** ** Model *)

(** How far the goroutine of a direction is. *)
Inductive copy_state :=
  | Copying     (* in copyStream *)
  | Copied      (* copyStream returned *)
  | HalfClosed  (* after CloseWrite, before the CompareAndSwap *)
  | Won         (* the CompareAndSwap succeeded, before time.AfterFunc *)
  | Finished.   (* finishDirection returned *)

(** What the peers have done to a direction: its source goes on, has sent its end of
    stream, or a connection has failed. *)
Inductive source_end := Open | AtEOF | Failed.

(** One direction: the bytes of the source that are not yet forwarded, those written to
    the destination, and whether [CloseWrite] was called on the destination. *)
Record direction := mkDir {
  dr_unread : bytes;
  dr_sent : bytes;
  dr_end : source_end;
  dr_state : copy_state;
  dr_closedWrite : bool
}.

(** A callback of [time.AfterFunc] or [context.AfterFunc]: not there yet, waiting for its
    event, started, between its two deadlines, done, or stopped before its event. *)
Inductive callback := Unset | Armed | Running | SetFirst | Ran | Stopped.

(** The calling goroutine, once its own direction is through. *)
Inductive caller := Copies | Waited | CancelStopped | Returned.

Record tunnel := mkTunnel {
  tu_fromA : direction;          (* copyStream(b, a), on its own goroutine *)
  tu_fromB : direction;          (* copyStream(a, b), on the caller's *)
  tu_firstDone : bool;
  tu_graceTimer : callback;
  tu_cancel : callback;          (* context.AfterFunc(ctx, interrupt) *)
  tu_deadA : bool;               (* the deadline of a is in the past *)
  tu_deadB : bool;
  tu_caller : caller
}.


(** One of the two connections, and the direction that reads from it. *)
Inductive side := A | B.
Definition dir (x : side) (t : tunnel) : direction := match x with A => tu_fromA t | B => tu_fromB t end.
Definition other (x : side) : side := match x with A => B | B => A end.

Definition set_dir (x : side) (d : direction) (t : tunnel) : tunnel :=
  mkTunnel (match x with A => d | B => tu_fromA t end) (match x with A => tu_fromB t | B => d end)
    (tu_firstDone t) (tu_graceTimer t) (tu_cancel t) (tu_deadA t) (tu_deadB t) (tu_caller t).
Definition set_first (t : tunnel) : tunnel :=
  mkTunnel (tu_fromA t) (tu_fromB t) true (tu_graceTimer t) (tu_cancel t) (tu_deadA t) (tu_deadB t) (tu_caller t).
Definition set_timer (c : callback) (t : tunnel) : tunnel :=
  mkTunnel (tu_fromA t) (tu_fromB t) (tu_firstDone t) c (tu_cancel t) (tu_deadA t) (tu_deadB t) (tu_caller t).
Definition set_cancel (c : callback) (t : tunnel) : tunnel :=
  mkTunnel (tu_fromA t) (tu_fromB t) (tu_firstDone t) (tu_graceTimer t) c (tu_deadA t) (tu_deadB t) (tu_caller t).
Definition set_dead (x : side) (t : tunnel) : tunnel :=
  mkTunnel (tu_fromA t) (tu_fromB t) (tu_firstDone t) (tu_graceTimer t) (tu_cancel t)
    (match x with A => true | B => tu_deadA t end) (match x with A => tu_deadB t | B => true end) (tu_caller t).
Definition set_caller (c : caller) (t : tunnel) : tunnel :=
  mkTunnel (tu_fromA t) (tu_fromB t) (tu_firstDone t) (tu_graceTimer t) (tu_cancel t) (tu_deadA t) (tu_deadB t) c.

Definition set_state (s : copy_state) (d : direction) : direction :=
  mkDir (dr_unread d) (dr_sent d) (dr_end d) s (dr_closedWrite d).
Definition set_end (e : source_end) (d : direction) : direction :=
  mkDir (dr_unread d) (dr_sent d) e (dr_state d) (dr_closedWrite d).









(** ** Invariant *)



Ltac tsimp :=
  unfold set_dir, set_first, set_timer, set_cancel, set_dead, set_caller in *;
  cbn [tu_fromA tu_fromB tu_firstDone tu_graceTimer tu_cancel tu_deadA tu_deadB tu_caller
       dr_unread dr_sent dr_end dr_state dr_closedWrite dir other set_state set_end] in *.

(** Case analysis on the sides and close what is immediate. *)
Ltac tcase := repeat match goal with x : side |- _ => destruct x end; tsimp; try done; try congruence; auto.








(** ** Termination *)









(** *** When only the peers can go on *)





(** ** Property *)


