(* ===== verification/SocksServer.v ===== *)
(** * SOCKS5 connections ([server.go])

    Models [handle] and the command handlers of
    [internal/server/socks/server.go] from the first byte of a client to the
    close of the last socket. What the network does (dials, listeners, accepts,
    reads of the control connection) is an environment record; what a handler
    does to sockets is its list of effects. The relayed data of CONNECT and BIND
    is [Tunnel.v]'s, the datagrams of an association [UdpRelay.v]'s. *)

From Stdlib Require Import ZArith Lia.
From stdpp Require Import base tactics numbers list strings sets.
From S2P Require Import Prelude.
From S2P Require Import Netip.
From S2P Require Import Proto.
From S2P Require Import Ext.
From S2P Require Import Uint128.
From S2P Require Import SourceIP.
From S2P Require Import Handshake.
From S2P Require Import Config.
From S2P Require Import DnsCache.
From S2P Require Import UdpRuntime.
From S2P Require Import UdpRelay.
From S2P Require Import Serverbase.
From S2P Require Import Connector.

(** ** Effects *)

Inductive socket :=
  | Client
  | Outbound (conn : Z)   (* the target's connection *)
  | Listener              (* of BIND *)
  | Inbound               (* the association's UDP sockets *)
  | Preferred
  | FallbackSocket
  | AssociationSlot.      (* of the UDP runtime: taken and given back like a socket *)

#[export] Instance socket_eq_dec : EqDecision socket.
Proof. solve_decision. Defined.

Inductive effect :=
  | SetDeadline (d : option Z)                  (* now plus d, or none *)
  | Dial (t : TcpConnector) (target : TargetAddr)
  | Listen (ip : Addr)
  | SetListenerDeadline (d : Z)
  | Open (h : socket)
  | Forward (conn : Z) (b : bytes)              (* written to the target ahead of the tunnel *)
  | Tunnel (conn : Z) (rest : bytes)            (* CopyBidirectionalContext; rest is what the client still sends *)
  | CloseWrite (h : socket)
  | Close (h : socket)
  | StartRelay (srcIP : Addr)                   (* the address datagrams are accepted from *)
  | ServeReactor (h : socket) (fd : Z)          (* read by the reactor, registered under fd *)
  | ServeGoroutine (h : socket)                 (* read by a goroutine of its own *)
  | Deregister (fd : Z)
  | WaitServe                                   (* for those goroutines *)
  | BeginAssociation (id : Z)
  | EndAssociation.

(** A handler's outcome: its error, the client connection, its effects. *)
Abbreviation outcome := (option error * stream * list effect)%type.

Definition prepend (l : list effect) (o : outcome) : outcome :=
  let '(e, s, l') := o in (e, s, l ++ l').

(** What one read of an association's control connection gave, and the state of
    the parent context before and after it. [since] is the time since the last
    activity when a deadline passed. *)
Inductive control_read := ReadData | ReadTimeout (since : Z) | ReadFailed.
Record control_event := mkControl { ce_before : option error; ce_read : control_read; ce_after : option error }.

Record env := mkEnv {
  ev_now : Z;
  ev_local : AddrPort;                        (* AddrPortOf(client.LocalAddr()) *)
  ev_peer : AddrPort;                         (* AddrPortOf(client.RemoteAddr()) *)
  ev_connect : TargetAddr -> result Z;        (* TcpConnector.Connect *)
  ev_buffered : Z;                            (* br.Buffered() after the request *)
  ev_copyN : option (Z * error);              (* io.CopyN failing after so many bytes *)
  ev_draws : draws;
  ev_listenTCP : Addr -> result AddrPort;     (* the listener's address *)
  ev_canceled : option error;                 (* the context ends before an accept *)
  ev_accept : result (Z * AddrPort);          (* what AcceptTCP returns *)
  ev_lifetime : option error * option error;  (* at the two tests of beginAssociation *)
  ev_listenUDP : Addr -> result AddrPort;     (* the inbound socket's address *)
  ev_listenOut : udp_bind -> option error;
  ev_useReactor : bool;                       (* sharedReactor *)
  ev_fd : socket -> option Z;                 (* udpConnFd *)
  ev_register : Z -> option error;            (* reactor.register *)
  ev_control : list control_event
}.

(** ** Handlers *)

Definition reply (r : Reply) (a : Address) : io unit := Response_MarshalTo (NewResponse r a).

(** [if n := br.Buffered(); n > 0 { io.CopyN(outbound, br, n) }] *)
Definition forwardBuffered (ev : env) (out : Z) (s : stream) : outcome :=
  let n := ev_buffered ev in
  if 0 <? n then
    match ev_copyN ev with
    | Some (k, e) => (Some e, set_unread (slice_from (unread s) k) s, [Forward out (slice (unread s) 0 k)])
    | None => (None, set_unread (slice_from (unread s) n) s, [Forward out (slice (unread s) 0 n)])
    end
  else (None, s, []).

Definition connect_target (address : Address) : TargetAddr :=
  match Socket address with
  | Some ap => FromAddr ap
  | None => FromHost (Domain address) (Port address)
  end.

Definition handleConnect (ev : env) (address : Address) (connector : TcpConnector) (s : stream) : outcome :=
  let target := connect_target address in
  match ev_connect ev target with
  | Err dialErr =>
      let '(_, s) := reply ReplyHostUnreachable Unspecified s in
      (Some dialErr, s, [Dial connector target; CloseWrite Client; Close Client])
  | Ok out =>
      prepend [Dial connector target; Open (Outbound out)]
      match reply ReplySucceeded Unspecified s with
      | (Err e, s) => (Some e, s, [Close (Outbound out); Close Client])
      | (Ok _, s) =>
          match forwardBuffered ev out s with
          | (Some e, s, l) => (Some e, s, l ++ [Close (Outbound out); Close Client])
          | (None, s, l) =>
              (None, s, l ++ [Tunnel out (unread s); CloseWrite (Outbound out); Close (Outbound out);
                              CloseWrite Client; Close Client])
          end
      end
  end.

Definition handleBind (ev : env) (connector : TcpConnector) (timeout : Z) (s : stream) : outcome :=
  let failure e s l :=
    let '(_, s) := reply ReplyGeneralFailure Unspecified s in (Some e, s, Close Client :: l) in
  let local := if IsValid (ap_Addr (ev_local ev)) then ap_Addr (ev_local ev) else IPv4Unspecified in
  match SocketAddr (ev_draws ev) connector (Ok local) with
  | Err e => failure e s []
  | Ok listenIP =>
      prepend [Listen (ap_Addr listenIP)]
      match ev_listenTCP ev (ap_Addr listenIP) with
      | Err e => failure e s []
      | Ok bndAddr =>
          prepend ([Open Listener] ++ (if 0 <? timeout then [SetListenerDeadline timeout] else []))
          match reply ReplySucceeded (SocketAddress bndAddr) s with
          | (Err e, s) => (Some e, s, [Close Client; Close Listener])
          | (Ok _, s) =>
              match ev_canceled ev with
              | Some e =>
                  (* the listener is closed, then the accept's result taken *)
                  (Some e, s, [Close Listener] ++
                    match ev_accept ev with
                    | Ok (c, _) => [Open (Outbound c); Close (Outbound c)]
                    | Err _ => []
                    end ++ [Close Client; Close Listener])
              | None =>
                  match ev_accept ev with
                  | Err e => failure e s [Close Listener]
                  | Ok (out, remote) =>
                      prepend [Open (Outbound out)]
                      match reply ReplySucceeded (SocketAddress remote) s with
                      | (Err e, s) => (Some e, s, [Close Client; Close (Outbound out); Close Listener])
                      | (Ok _, s) =>
                          match forwardBuffered ev out s with
                          | (Some e, s, l) => (Some e, s, l ++ [Close Client; Close (Outbound out); Close Listener])
                          | (None, s, l) =>
                              (None, s, l ++ [Tunnel out (unread s); CloseWrite Client;
                                CloseWrite (Outbound out); Close Client; Close (Outbound out); Close Listener])
                          end
                      end
                  end
              end
          end
      end
  end.

(** The control loop of an association over the reads' outcomes: [None] while it
    runs, else what it returns. *)
Fixpoint controlLoop (idleTimeout : Z) (evs : list control_event) : option (option error) :=
  match evs with
  | [] => None
  | ev :: rest =>
      match ce_before ev with
      | Some e => Some (Some e)
      | None =>
          match ce_read ev with
          | ReadData => controlLoop idleTimeout rest
          | r =>
              match ce_after ev with
              | Some e => Some (Some e)
              | None =>
                  match r with
                  | ReadTimeout since =>
                      if 0 <? idleTimeout then
                        if idleTimeout <=? since then Some None else controlLoop idleTimeout rest
                      else Some None
                  | _ => Some None
                  end
              end
          end
      end
  end.

(** [serveSocket]: the descriptor it adds to [reactorFds], and what it starts. *)
Definition serveSocket (ev : env) (h : socket) : list Z * list effect :=
  if ev_useReactor ev then
    match ev_fd ev h with
    | Some fd =>
        match ev_register ev fd with
        | None => ([fd], [ServeReactor h fd])
        | Some _ => ([], [ServeGoroutine h])
        end
    | None => ([], [ServeGoroutine h])
    end
  else ([], [ServeGoroutine h]).

(** The calls of [serveSocket], in order. *)
Fixpoint serveSockets (ev : env) (hs : list socket) : list Z * list effect :=
  match hs with
  | [] => ([], [])
  | h :: hs =>
      let '(fds, l) := serveSocket ev h in
      let '(fds', l') := serveSockets ev hs in (fds ++ fds', l ++ l')
  end.

(** The deferred teardown: deregistration first, then the sockets, then the
    goroutines that read them. *)
Definition teardown (fds : list Z) (hasFallback : bool) : list effect :=
  (Deregister <$> fds) ++ [Close Client; Close Inbound; Close Preferred] ++
  (if hasFallback then [Close FallbackSocket] else []) ++ [WaitServe].

(** The idle timeout of the associations of a runtime, zero for none. *)
Definition association_idleTimeout (runtime : udpRuntime) : Z :=
  seconds (AssociationIdleTimeoutSecs (ur_config runtime)).

(** [handleUDP]: [None] while the association is open. *)
Definition handleUDP (ev : env) (address : Address) (connector : UdpConnector) (runtime : udpRuntime)
    (s : stream) : option outcome :=
  match beginAssociation (fst (ev_lifetime ev)) (snd (ev_lifetime ev)) runtime with
  | (_, false, _) =>
      let '(_, s) := reply ReplyConnectionNotAllowed Unspecified s in
      Some (Some (Errorf "SOCKS5 UDP association limit reached" []), s, [])
  | (id, true, _) =>
      let run o := let '(e, s, l) := o in Some (e, s, BeginAssociation id :: l ++ [EndAssociation]) in
      let localIP := if IsValid (ap_Addr (ev_local ev)) then ap_Addr (ev_local ev) else IPv4Unspecified in
      match ev_listenUDP ev localIP with
      | Err e =>
          let '(_, s) := reply ReplyGeneralFailure Unspecified s in run (Some e, s, [Close Client])
      | Ok listenAddr =>
          match reply ReplySucceeded (SocketAddress listenAddr) s with
          | (Err e, s) => run (Some e, s, [Open Inbound; Close Inbound; Close Client])
          | (Ok _, s) =>
              match CreateSocketDualStack (ev_listenOut ev) (ev_draws ev) connector with
              | (Err e, closed) =>
                  let opened := match closed with [] => [] | _ => [Open Preferred; Close Preferred] end in
                  run (Some e, s, [Open Inbound] ++ opened ++ [Close Inbound; Close Client])
              | (Ok (_, fallback), _) =>
                  let hasFallback := match fallback with Some _ => true | None => false end in
                  let srcIP := authorizedSource address (ev_peer ev) in
                  let '(reactorFds, served) :=
                    serveSockets ev ([Preferred] ++ (if hasFallback then [FallbackSocket] else []) ++ [Inbound]) in
                  let idleTimeout := association_idleTimeout runtime in
                  match controlLoop idleTimeout (ev_control ev) with
                  | None => None
                  | Some e =>
                      run (e, s, [Open Inbound; Open Preferred] ++
                             (if hasFallback then [Open FallbackSocket] else []) ++
                             [StartRelay srcIP] ++ served ++ teardown reactorFds hasFallback)
                  end
              end
          end
      end
  end.

(** The command of a request read by [ReadRequest] is one of the three, so the
    code's default branch is not taken. *)
Definition handle (ev : env) (auth : AuthAdaptor) (connector : Connector) (timeout : Z)
    (udp : udpRuntime) (s : stream) : option outcome :=
  option_map (prepend [SetDeadline (Some timeout)])
  match Authenticate (ev_now ev) auth s with
  | (authed, Err e, s) =>
      Some (if bool_decide (e = errNoAcceptableMethods) then (None, s, [])
            else if authed then (None, s, [Close Client]) else (Some e, s, []))
  | (_, Ok extension, s) =>
      match ReadRequest s with
      | (Err e, s) => Some (Some e, s, [Close Client])
      | (Ok req, s) =>
          option_map (prepend [SetDeadline None])
          match rq_Command req with
          | CmdUDPAssociate => handleUDP ev (rq_Address req) (Connector_UDP connector extension) udp s
          | CmdConnect => Some (handleConnect ev (rq_Address req) (Connector_TCP connector extension) s)
          | CmdBind => Some (handleBind ev (Connector_TCP connector extension) timeout s)
          end
      end
  end.

(** [Accept]: the deferred close comes last. *)
Definition Accept (ev : env) (auth : AuthAdaptor) (connector : Connector) (timeout : Z)
    (udp : udpRuntime) (s : stream) : option outcome :=
  match handle ev auth connector timeout udp s with
  | Some (e, s, l) => Some (e, s, l ++ [Close Client])
  | None => None
  end.

(** The acceptor's authentication. *)
Definition NewAcceptor_auth (a : AuthMode) : AuthAdaptor :=
  if HasAuth a then PasswordConfig (am_Username a) (am_Password a) else NoAuthConfig.

(** ** Sockets are closed *)

(** The sockets opened and not closed afterwards, and the association slot taken
    and not given back. *)
Definition track (open : list socket) (e : effect) : list socket :=
  match e with
  | Open h => h :: open
  | Close h => filter (fun h' => h' <> h) open
  | BeginAssociation _ => AssociationSlot :: open
  | EndAssociation => filter (fun h' => h' <> AssociationSlot) open
  | _ => open
  end.
Definition leaked (l : list effect) : list socket := foldl track [] l.

Ltac close_case := cbn; repeat (rewrite ?filter_cons, ?filter_nil; cbn; repeat case_decide; try done).

Lemma forwardBuffered_effects ev out s :
  match forwardBuffered ev out s with
  | (e, s', l) => l = [] \/ exists b, l = [Forward out b]
  end.
Proof. unfold forwardBuffered. repeat case_one; simplify_eq; eauto. Qed.

Lemma forwardBuffered_track ev out s e s' l open :
  forwardBuffered ev out s = (e, s', l) -> foldl track open l = open.
Proof.
  intros E. pose proof (forwardBuffered_effects ev out s) as H. rewrite E in H.
  by destruct H as [-> | [b ->]].
Qed.

Lemma handleConnect_closes ev address connector s :
  match handleConnect ev address connector s with
  | (_, _, l) => leaked l = []
  end.
Proof.
  unfold handleConnect, leaked. destruct (ev_connect ev _) as [out|e].
  - destruct (reply _ _ s) as [[[]|e] s1]; [|close_case].
    destruct (forwardBuffered ev out s1) as [[[e|] s2] l] eqn:E; cbn [prepend];
      rewrite !foldl_app, (forwardBuffered_track _ _ _ _ _ _ _ E); close_case.
  - destruct (reply _ _ s) as [r s1]. close_case.
Qed.

Lemma handleBind_closes ev connector timeout s :
  match handleBind ev connector timeout s with
  | (_, _, l) => leaked l = []
  end.
Proof.
  unfold handleBind, leaked. destruct (SocketAddr _ _ _) as [ip|e]; [|destruct (reply _ _ s); close_case].
  destruct (ev_listenTCP ev _) as [bnd|e]; [|destruct (reply _ _ s); close_case].
  destruct (0 <? timeout); (destruct (reply _ _ s) as [[[]|e] s1]; [|close_case]);
    (destruct (ev_canceled ev) as [e|];
     [destruct (ev_accept ev) as [[c a]|e']; close_case|]);
    (destruct (ev_accept ev) as [[out remote]|e]; [|destruct (reply _ _ s1); close_case]);
    (destruct (reply _ _ s1) as [[[]|e] s2]; [|close_case]);
    (destruct (forwardBuffered ev out s2) as [[[e|] s3] l] eqn:E; cbn [prepend];
      rewrite !foldl_app, (forwardBuffered_track _ _ _ _ _ _ _ E); close_case).
Qed.

Lemma track_deregister fds open : foldl track open (Deregister <$> fds) = open.
Proof. induction fds as [|fd fds IH]; [done|]. apply IH. Qed.

(** What serving the sockets of an association starts, and the descriptors kept. *)
Lemma serveSockets_spec ev hs fds l :
  serveSockets ev hs = (fds, l) ->
  Forall (fun e => exists h, h ∈ hs /\ (e = ServeGoroutine h \/ exists fd, e = ServeReactor h fd /\ fd ∈ fds)) l /\
  length l = length hs.
Proof.
  revert fds l. induction hs as [|h hs IH]; intros fds l; cbn [serveSockets]; [by intros [= <- <-]|].
  destruct (serveSocket ev h) as [f1 l1] eqn:E1, (serveSockets ev hs) as [f2 l2]. intros [= <- <-].
  destruct (IH _ _ eq_refl) as [H1 H2]. split.
  - apply Forall_app. split.
    + unfold serveSocket in E1. repeat case_one_in E1; simplify_eq; constructor; try done;
        exists h; (split; [set_solver|]); first [by left | right; eexists; split; [done|set_solver]].
    + eapply Forall_impl; [exact H1|]. intros e (h' & Hh & [->|(fd & -> & Hf)]); exists h'; split; try set_solver.
  - rewrite length_app, H2. unfold serveSocket in E1. repeat case_one_in E1; simplify_eq; done.
Qed.

Lemma serveSockets_track ev hs fds l open :
  serveSockets ev hs = (fds, l) -> foldl track open l = open.
Proof.
  intros [H _]%serveSockets_spec. induction H as [|e l (h & _ & [->|(fd & -> & _)]) _ IH]; [done|..]; exact IH.
Qed.

Lemma handleUDP_closes ev address connector runtime s :
  match handleUDP ev address connector runtime s with
  | Some (_, _, l) => leaked l = []
  | None => True
  end.
Proof.
  unfold handleUDP, leaked. destruct (beginAssociation _ _ _) as [[id []] r]; [|by destruct (reply _ _ s)].
  destruct (ev_listenUDP ev _) as [a|e]; [|destruct (reply _ _ s); close_case].
  destruct (reply _ _ s) as [[[]|e] s1]; [|close_case].
  destruct (CreateSocketDualStack _ _ _) as [[[p f]|e] closed].
  - destruct (serveSockets _ _) as [fds served] eqn:Es.
    destruct (controlLoop _ _) as [e|]; [|done]. unfold teardown.
    cbn [foldl track]. rewrite !foldl_app, (serveSockets_track _ _ _ _ _ Es), track_deregister. destruct f; close_case.
  - destruct closed; close_case.
Qed.

Lemma leaked_prefix d l : leaked (SetDeadline d :: l) = leaked l.
Proof. done. Qed.

Lemma handle_closes ev auth connector timeout udp s :
  match handle ev auth connector timeout udp s with
  | Some (_, _, l) => leaked l = []
  | None => True
  end.
Proof.
  unfold handle. destruct (Authenticate _ _ _) as [[authed [x|e]] s1].
  - destruct (ReadRequest s1) as [[req|e] s2]; [|done]. destruct (rq_Command req); cbn [option_map].
    + pose proof (handleConnect_closes ev (rq_Address req) (Connector_TCP connector x) s2) as H.
      by destruct (handleConnect _ _ _ _) as [[e s3] l].
    + pose proof (handleBind_closes ev (Connector_TCP connector x) timeout s2) as H.
      by destruct (handleBind _ _ _ _) as [[e s3] l].
    + pose proof (handleUDP_closes ev (rq_Address req) (Connector_UDP connector x) udp s2) as H.
      by destruct (handleUDP _ _ _ _ _) as [[[e s3] l]|].
  - cbn. case_bool_decide; [done|]. by destruct authed.
Qed.

(** ** Who causes network activity *)

Definition network (e : effect) : bool :=
  match e with
  | Dial _ _ | Listen _ | Open _ | Forward _ _ | Tunnel _ _ | BeginAssociation _ => true
  | _ => false
  end.

(** The connectors the effects dial with. *)
Definition dialed (l : list effect) : list TcpConnector :=
  omap (fun e => match e with Dial t _ => Some t | _ => None end) l.

Lemma dialed_app l k : dialed (l ++ k) = dialed l ++ dialed k.
Proof. apply omap_app. Qed.

Lemma no_dial l : Forall (fun e => match e with Dial _ _ => False | _ => True end) l -> dialed l = [].
Proof. induction 1 as [|[] l Hx _ IH]; done. Qed.

(** Effects that neither dial nor have a socket served by the reactor. *)
Definition local_effect (e : effect) : Prop :=
  match e with Dial _ _ | ServeReactor _ _ => False | _ => True end.

Lemma local_no_dial l : Forall local_effect l -> dialed l = [].
Proof. intros H. apply no_dial. eapply Forall_impl; [exact H|]. by intros []. Qed.

Lemma forwardBuffered_local ev out s e s' l : forwardBuffered ev out s = (e, s', l) -> Forall local_effect l.
Proof.
  intros E. pose proof (forwardBuffered_effects ev out s) as H. rewrite E in H.
  destruct H as [-> | [b ->]]; repeat constructor.
Qed.

Ltac local_case :=
  repeat first [apply Forall_app; split | apply Forall_cons; split; [exact I|] | apply Forall_nil; exact I];
  eauto using forwardBuffered_local.

Lemma handleConnect_local ev address connector s e s' l :
  handleConnect ev address connector s = (e, s', l) ->
  exists l', l = Dial connector (connect_target address) :: l' /\ Forall local_effect l'.
Proof.
  unfold handleConnect. destruct (ev_connect ev _) as [out|de].
  - destruct (reply _ _ s) as [[[]|e1] s1]; [|intros [= <- <- <-]; eexists; split; [done|local_case]].
    destruct (forwardBuffered ev out s1) as [[[e2|] s2] l2] eqn:E; cbn [prepend];
      intros [= <- <- <-]; eexists; (split; [done|]); local_case.
  - destruct (reply _ _ s) as [r s1]. intros [= <- <- <-]. eexists. split; [done|local_case].
Qed.

Lemma handleBind_local ev connector timeout s e s' l :
  handleBind ev connector timeout s = (e, s', l) -> Forall local_effect l.
Proof.
  unfold handleBind. intros H. revert H.
  destruct (SocketAddr _ _ _) as [ip|e0]; [|destruct (reply _ _ s); intros [= <- <- <-]; local_case].
  destruct (ev_listenTCP ev _) as [bnd|e0]; [|destruct (reply _ _ s); intros [= <- <- <-]; local_case].
  destruct (0 <? timeout); (destruct (reply _ _ s) as [[[]|e1] s1]; [|intros [= <- <- <-]; local_case]);
    (destruct (ev_canceled ev) as [e2|];
     [destruct (ev_accept ev) as [[c a]|e3]; intros [= <- <- <-]; local_case|]);
    (destruct (ev_accept ev) as [[out remote]|e4]; [|destruct (reply _ _ s1); intros [= <- <- <-]; local_case]);
    (destruct (reply _ _ s1) as [[[]|e5] s2]; [|intros [= <- <- <-]; local_case]);
    (destruct (forwardBuffered ev out s2) as [[[e6|] s3] l3] eqn:E; cbn [prepend]; intros [= <- <- <-]; local_case).
Qed.

(** An association runs its control loop with the idle timeout of its runtime. *)
Lemma handleUDP_idle ev address connector runtime s :
  match handleUDP ev address connector runtime s with
  | None => controlLoop (association_idleTimeout runtime) (ev_control ev) = None
  | Some (e, _, l) => forall src, StartRelay src ∈ l ->
      controlLoop (association_idleTimeout runtime) (ev_control ev) = Some e
  end.
Proof.
  unfold handleUDP. destruct (beginAssociation _ _ _) as [[id []] r].
  2: { destruct (reply _ _ s). intros src Hs. set_solver. }
  destruct (ev_listenUDP ev _) as [a|e0]; [|destruct (reply _ _ s); intros src Hs; set_solver].
  destruct (reply _ _ s) as [[[]|e1] s1]; [|intros src Hs; set_solver].
  destruct (CreateSocketDualStack _ _ _) as [[[p f]|e2] closed].
  - destruct (serveSockets _ _) as [fds served]. destruct (controlLoop _ _) as [e|] eqn:E; [|done].
    by intros src _.
  - intros src Hs. destruct closed; set_solver.
Qed.

Lemma handleUDP_dialed ev address connector runtime s e s' l :
  handleUDP ev address connector runtime s = Some (e, s', l) -> dialed l = [].
Proof.
  unfold handleUDP. destruct (beginAssociation _ _ _) as [[id []] r].
  2: { destruct (reply _ _ s). by intros [= <- <- <-]. }
  destruct (ev_listenUDP ev _) as [a|e0]; [|destruct (reply _ _ s); by intros [= <- <- <-]].
  destruct (reply _ _ s) as [[[]|e1] s1]; [|by intros [= <- <- <-]].
  destruct (CreateSocketDualStack _ _ _) as [[[p f]|e2] closed].
  - destruct (serveSockets _ _) as [fds served] eqn:Es. apply serveSockets_spec in Es as [Hs _].
    destruct (controlLoop _ _) as [e3|]; [|done]. intros [= <- <- <-]. unfold teardown. apply no_dial.
    assert (Forall (fun e => match e with Dial _ _ => False | _ => True end) (Deregister <$> fds))
      as Hd by (apply Forall_fmap, Forall_true; done).
    assert (Forall (fun e => match e with Dial _ _ => False | _ => True end) served) as Hsd
      by (eapply Forall_impl; [exact Hs|]; by intros x (h & _ & [->|(fd & -> & _)])).
    destruct f; cbn [app]; repeat (apply Forall_cons; split; [done|]);
      repeat (apply Forall_app; split); try done; repeat constructor; done.
  - destruct closed; by intros [= <- <- <-].
Qed.

Lemma handle_network ev auth connector timeout udp s e s' l :
  handle ev auth connector timeout udp s = Some (e, s', l) ->
  (exists x, x ∈ l /\ network x = true) ->
  exists b ext s1, Authenticate (ev_now ev) auth s = (b, Ok ext, s1) /\
    Forall (fun t => t = Connector_TCP connector ext) (dialed l).
Proof.
  unfold handle. destruct (Authenticate _ _ _) as [[authed [x|e0]] s1].
  - intros H _. exists authed, x, s1. split; [done|]. revert H.
    destruct (ReadRequest s1) as [[req|e1] s2]; [|intros [= <- <- <-]; constructor].
    destruct (rq_Command req); cbn [option_map].
    + destruct (handleConnect _ _ _ _) as [[e2 s3] l2] eqn:E. intros [= <- <- <-].
      apply handleConnect_local in E as (l' & -> & E%local_no_dial). cbn. unfold dialed in E. rewrite E. by constructor.
    + destruct (handleBind _ _ _ _) as [[e2 s3] l2] eqn:E. intros [= <- <- <-].
      apply handleBind_local, local_no_dial in E. cbn. unfold dialed in E. rewrite E. by constructor.
    + destruct (handleUDP _ _ _ _ _) as [[[e2 s3] l2]|] eqn:E; [|done]. intros [= <- <- <-].
      apply handleUDP_dialed in E. cbn. unfold dialed in E. rewrite E. by constructor.
  - intros H (y & Hy & Hn). exfalso. revert H. cbn.
    case_bool_decide; [|destruct authed]; intros [= <- <- <-]; set_unfold in Hy;
      destruct Hy as [-> | Hy]; try done; destruct Hy as [-> | Hy]; done.
Qed.

Lemma Accept_network (ev : env) (u p : bytes) (connector : Connector) (timeout : Z)
    (udp : udpRuntime) (s : stream) (e : option error) (s' : stream) (l : list effect) :
  bytes_ok (unread s) ->
  Accept ev (PasswordConfig u p) connector timeout udp s = Some (e, s', l) ->
  (exists x, x ∈ l /\ network x = true) ->
  exists ms uname rest,
    unread s = method_message ms ++ userpass_message (mkUserPass uname p) ++ rest /\
    MethodPassword ∈ ms /\ HasPrefix uname u = true /\
    Authenticate (ev_now ev) (PasswordConfig u p) s
      = (true, Ok (TryFrom (ev_now ev) u uname), after s rest [[5; 2]; [1; 0]]) /\
    Forall (fun t => t = Connector_TCP connector (TryFrom (ev_now ev) u uname)) (dialed l).
Proof.
  intros Hok H (x & Hx & Hn). unfold Accept in H.
  destruct (handle _ _ _ _ _ _) as [[[e1 s1] l1]|] eqn:E; [|done]. injection H as <- <- <-.
  assert (x ∈ l1) as Hx1 by (set_unfold in Hx; destruct Hx as [?|[->|?]]; done).
  destruct (handle_network _ _ _ _ _ _ _ _ _ E (ex_intro _ x (conj Hx1 Hn))) as (b & ext & s2 & Ha & Hd).
  assert (b = true) as ->.
  { revert Ha. unfold Authenticate. repeat case_one; intros; simplify_eq; done. }
  pose proof Ha as (ms & uname & rest & Hu & Hm & _ & Hp & -> & ->)%Authenticate_sound; [|done].
  exists ms, uname, rest. rewrite dialed_app, app_nil_r. done.
Qed.

(** C6: No credentials, no network activity. With a username and password
    configured, whatever a client sends and whatever fails, writes to the client
    included: if its connection makes the proxy dial, listen, open or use any
    socket or start an association, then the client's bytes begin with a method
    selection offering the password method and a username/password message with
    the configured password and a username that begins with the configured one,
    the negotiation succeeded with exactly the replies [5,2] and [1,0] written, and
    every dial is made with the extension of that username. *)
Theorem Accept_requires_credentials (ev : env) (u p : bytes) (connector : Connector) (timeout : Z)
    (udp : udpRuntime) (s : stream) (e : option error) (s' : stream) (l : list effect) :
  bytes_ok (unread s) ->
  Accept ev (PasswordConfig u p) connector timeout udp s = Some (e, s', l) ->
  (exists x, x ∈ l /\ network x = true) ->
  exists ms uname rest,
    unread s = method_message ms ++ userpass_message (mkUserPass uname p) ++ rest /\
    MethodPassword ∈ ms /\ HasPrefix uname u = true /\
    Authenticate (ev_now ev) (PasswordConfig u p) s
      = (true, Ok (TryFrom (ev_now ev) u uname), after s rest [[5; 2]; [1; 0]]) /\
    Forall (fun t => t = Connector_TCP connector (TryFrom (ev_now ev) u uname)) (dialed l).
Proof. apply Accept_network. Qed.

(** *** Sockets served by the reactor *)

(** A socket is deregistered from the reactor before it is closed. *)
Definition deregistered_first (l : list effect) : Prop :=
  forall l1 h l2 fd, l = l1 ++ Close h :: l2 -> ServeReactor h fd ∈ l1 -> Deregister fd ∈ l1.

Definition no_serve (e : effect) : Prop := match e with ServeReactor _ _ => False | _ => True end.

Lemma local_no_serve l : Forall local_effect l -> Forall no_serve l.
Proof. intros H. eapply Forall_impl; [exact H|]. by intros []. Qed.

Lemma deregistered_none l : Forall no_serve l -> deregistered_first l.
Proof.
  intros H l1 h l2 fd -> Hs. apply Forall_app in H as [H _]. rewrite Forall_forall in H. by apply H in Hs.
Qed.

Definition no_close (e : effect) : Prop := match e with Close _ => False | _ => True end.

(** No close in [a], and all that [a] has served is deregistered in [b]. *)
Lemma deregistered_after a b c :
  Forall no_close (a ++ b) -> Forall local_effect (b ++ c) ->
  (forall h fd, ServeReactor h fd ∈ a -> Deregister fd ∈ b) -> deregistered_first (a ++ b ++ c).
Proof.
  intros Hn Hl Hd l1 h l2 fd E Hs.
  assert (exists l1', l1 = (a ++ b) ++ l1') as [l1' ->].
  { rewrite app_assoc in E. apply app_eq_inv in E as [(k & Hab & Hk)|(k & Hl1 & Hk)]; [|by exists k].
    exists []. rewrite app_nil_r. destruct k as [|e k]; [by rewrite app_nil_r in Hab|]. injection Hk as <- _.
    rewrite Hab, Forall_app in Hn. destruct Hn as [_ [Hn _]%Forall_cons]. done. }
  assert (c = l1' ++ Close h :: l2) as -> by (rewrite <- app_assoc in E; simplify_list_eq; done).
  rewrite !elem_of_app in Hs. rewrite !Forall_app, !Forall_forall in Hl. destruct Hl as (Hb & Hc & _).
  destruct Hs as [[Hs|Hs%Hb]|Hs%Hc]; [|done|done]. rewrite !elem_of_app. left; right. by eapply Hd.
Qed.

Lemma handleUDP_deregisters ev address connector runtime s e s' l pre post :
  handleUDP ev address connector runtime s = Some (e, s', l) -> Forall local_effect (pre ++ post) ->
  Forall no_close pre -> deregistered_first (pre ++ l ++ post).
Proof.
  unfold handleUDP. intros H Hpp Hpre. rewrite Forall_app in Hpp. destruct Hpp as [Hp1 Hp2]. revert H.
  assert (forall k, Forall local_effect k -> deregistered_first (pre ++ k ++ post)) as Hlocal
    by (intros k Hk; apply deregistered_none, local_no_serve; by repeat (apply Forall_app; split)).
  destruct (beginAssociation _ _ _) as [[id []] r].
  2: { destruct (reply _ _ s). intros [= <- <- <-]. apply Hlocal. constructor. }
  destruct (ev_listenUDP ev _) as [a|e0]; [|destruct (reply _ _ s); intros [= <- <- <-]; apply Hlocal; local_case].
  destruct (reply _ _ s) as [[[]|e1] s1]; [|intros [= <- <- <-]; apply Hlocal; local_case].
  destruct (CreateSocketDualStack _ _ _) as [[[p f]|e2] closed].
  2: { destruct closed; intros [= <- <- <-]; apply Hlocal; local_case. }
  generalize (match f with Some _ => true | None => false end). intros hasF.
  destruct (serveSockets _ _) as [fds served] eqn:Es. apply serveSockets_spec in Es as [Hs _].
  destruct (controlLoop _ _) as [e3|]; [|done]. intros [= <- <- <-]. unfold teardown.
  remember (if hasF then [Open FallbackSocket] else []) as opens eqn:Hopens.
  remember ([Close Client; Close Inbound; Close Preferred] ++ (if hasF then [Close FallbackSocket] else []) ++ [WaitServe])
    as closes eqn:Hcloses.
  replace (pre ++ _) with
    ((pre ++ BeginAssociation id :: [Open Inbound; Open Preferred] ++ opens ++
        [StartRelay (authorizedSource address (ev_peer ev))] ++ served) ++
     (Deregister <$> fds) ++ closes ++ [EndAssociation] ++ post)
    by (cbn [app]; rewrite <- !app_assoc; cbn [app]; by rewrite <- !app_assoc).
  rewrite Forall_forall in Hs. apply deregistered_after.
  - assert (Forall no_close (Deregister <$> fds)) by (apply Forall_fmap, Forall_true; done).
    assert (Forall no_close served)
      by (apply Forall_forall; intros x (h & _ & [->|(fd & -> & _)])%Hs; done).
    subst opens. destruct hasF; repeat first [apply Forall_app; split | apply Forall_cons; split; [exact I|]]; done.
  - assert (Forall local_effect (Deregister <$> fds)) by (apply Forall_fmap, Forall_true; done).
    subst closes. destruct hasF; local_case.
  - intros h fd Hin. rewrite !elem_of_app, elem_of_cons in Hin. apply list_elem_of_fmap_2.
    assert (ServeReactor h fd ∈ pre -> False) as Hnp by (intros Hin'; rewrite Forall_forall in Hp1; by apply Hp1 in Hin').
    assert (ServeReactor h fd ∈ opens -> False) as Hno by (subst opens; destruct hasF; set_solver).
    destruct Hin as [?|[?|Hin]]; [done|done|]. rewrite !elem_of_app in Hin.
    destruct Hin as [Hin|[?|[Hin|Hin]]]; [set_solver|done|set_solver|].
    apply Hs in Hin as (h' & _ & [?|(fd' & [= -> ->] & Hf)]); done.
Qed.

Lemma handle_deregisters ev auth connector timeout udp s e s' l :
  handle ev auth connector timeout udp s = Some (e, s', l) -> deregistered_first (l ++ [Close Client]).
Proof.
  unfold handle. destruct (Authenticate _ _ _) as [[authed [x|e0]] s1].
  - destruct (ReadRequest s1) as [[req|e1] s2]; [|intros [= <- <- <-]; apply deregistered_none; repeat constructor].
    destruct (rq_Command req); cbn [option_map].
    + destruct (handleConnect _ _ _ _) as [[e2 s3] l2] eqn:E. intros [= <- <- <-].
      apply handleConnect_local in E as (l' & -> & E%local_no_serve). apply deregistered_none. cbn [app].
      repeat (apply Forall_cons; split; [exact I|]). apply Forall_app. split; [done|repeat constructor].
    + destruct (handleBind _ _ _ _) as [[e2 s3] l2] eqn:E. intros [= <- <- <-].
      apply handleBind_local, local_no_serve in E. apply deregistered_none. cbn [app].
      repeat (apply Forall_cons; split; [exact I|]). apply Forall_app. split; [done|repeat constructor].
    + destruct (handleUDP _ _ _ _ _) as [[[e2 s3] l2]|] eqn:E; [|done]. intros [= <- <- <-].
      apply (handleUDP_deregisters _ _ _ _ _ _ _ _ [SetDeadline (Some timeout); SetDeadline None] [Close Client] E);
        repeat constructor.
  - cbn. intros H. apply deregistered_none. revert H.
    case_bool_decide; [|destruct authed]; intros [= <- <- <-]; repeat constructor.
Qed.

(** C23: Every socket is closed. Whatever the client sends, whichever read, write,
    dial, listen, accept or socket creation fails, and whenever the context ends:
    when [Accept] returns, every socket its handlers opened (the target's
    connection, the BIND listener, the sockets of an association) has been closed
    after it was opened, the slot of an association has been given back, and the
    client's connection is closed. A socket that the reactor serves is deregistered,
    which waits for its handler, before it is closed. *)
Theorem Accept_closes_sockets (ev : env) (auth : AuthAdaptor) (connector : Connector) (timeout : Z)
    (udp : udpRuntime) (s : stream) (e : option error) (s' : stream) (l : list effect) :
  Accept ev auth connector timeout udp s = Some (e, s', l) ->
  leaked l = [] /\ last l = Some (Close Client) /\ deregistered_first l.
Proof.
  unfold Accept. pose proof (handle_closes ev auth connector timeout udp s) as Hc.
  destruct (handle _ _ _ _ _ _) as [[[e1 s1] l1]|] eqn:E; [|done]. intros [= <- <- <-].
  split_and!; [|apply last_snoc|by eapply handle_deregisters].
  unfold leaked in *. rewrite foldl_app, Hc. done.
Qed.

(** ** CONNECT from end to end *)

Definition success_reply : bytes := [5; 0; 0; 1; 0; 0; 0; 0; 0; 0].
Definition unreachable_reply : bytes := [5; 4; 0; 1; 0; 0; 0; 0; 0; 0].

Lemma reply_unspecified r s : writes_ok s ->
  reply r Unspecified s = (Ok tt, add_sent [5; Reply_Byte r; 0; 1; 0; 0; 0; 0; 0; 0] s).
Proof.
  intros Hw. unfold reply. erewrite (Response_MarshalTo_wire _ [1; 0; 0; 0; 0; 0; 0]); [done| |done].
  apply (Wire_v4 [0; 0; 0; 0] [0; 0]); done || by_decide.
Qed.

(** [CONNECT] is request byte 1; [rest] is what the client sends after it. *)
Lemma handle_connect ev auth connector timeout udp s ext s1 address w rsv rest :
  Authenticate (ev_now ev) auth s = (true, Ok ext, s1) -> Wire address w ->
  unread s1 = [5; 1; rsv] ++ w ++ rest ->
  handle ev auth connector timeout udp s =
    Some (prepend [SetDeadline (Some timeout); SetDeadline None]
            (handleConnect ev address (Connector_TCP connector ext) (set_unread rest s1))).
Proof.
  intros Ha Hw Hu. unfold handle. rewrite Ha, (ReadRequest_wire CmdConnect address rsv w rest s1 Hw Hu).
  cbn. by destruct (handleConnect _ _ _ _) as [[e s2] l].
Qed.

(** C21: CONNECT, from the first byte to the last. An authenticated client that
    asks for [address] and sends [rest] behind its request makes the proxy dial
    exactly that address, after the handshake deadline is lifted; if the dial
    fails, it is told "host unreachable" and nothing of [rest] is sent anywhere; if
    it succeeds, it is told so, and what was read ahead of the tunnel followed by
    what the tunnel then copies is [rest], whatever part of it the buffered
    handshake reader had already taken: no byte is lost, repeated or sent before
    the reply. *)
Theorem connect_end_to_end (ev : env) (auth : AuthAdaptor) (connector : Connector) (timeout : Z)
    (udp : udpRuntime) (s s1 : stream) (ext : Extension) (address : Address) (w : bytes) (rsv : Z)
    (rest : bytes) :
  Authenticate (ev_now ev) auth s = (true, Ok ext, s1) -> writes_ok s1 ->
  Wire address w -> unread s1 = [5; 1; rsv] ++ w ++ rest ->
  0 <= ev_buffered ev <= len rest -> ev_copyN ev = None ->
  let target := connect_target address in
  let head := [SetDeadline (Some timeout); SetDeadline None; Dial (Connector_TCP connector ext) target] in
  match ev_connect ev target with
  | Err dialErr =>
      handle ev auth connector timeout udp s =
        Some (Some dialErr, add_sent unreachable_reply (set_unread rest s1),
              head ++ [CloseWrite Client; Close Client])
  | Ok out =>
      exists ahead behind, ahead ++ behind = rest /\ len ahead = ev_buffered ev /\
        handle ev auth connector timeout udp s =
          Some (None, add_sent success_reply (set_unread behind s1),
                head ++ [Open (Outbound out)] ++
                (if 0 <? ev_buffered ev then [Forward out ahead] else []) ++
                [Tunnel out behind; CloseWrite (Outbound out); Close (Outbound out);
                 CloseWrite Client; Close Client])
  end.
Proof.
  intros Ha Hw Hwire Hu Hb Hc target head. rewrite (handle_connect _ _ _ _ _ _ _ _ _ _ _ _ Ha Hwire Hu).
  unfold handleConnect. fold target. destruct (ev_connect ev target) as [out|e].
  - rewrite (reply_unspecified ReplySucceeded) by done.
    exists (slice rest 0 (ev_buffered ev)), (slice_from rest (ev_buffered ev)).
    unfold slice, slice_from. rewrite Z.sub_0_r, drop_0.
    split; [apply take_drop|]. split; [unfold len in *; rewrite length_take; lia|].
    unfold forwardBuffered. rewrite Hc. destruct (Z.ltb_spec 0 (ev_buffered ev)) as [Hlt|Hge].
    + cbn. unfold slice, slice_from. by rewrite Z.sub_0_r, drop_0.
    + assert (ev_buffered ev = 0) as -> by lia. rewrite drop_0. done.
  - by rewrite (reply_unspecified ReplyHostUnreachable) by done.
Qed.

(** ** The life of an association *)

(** A read after which the loop goes on. *)
Definition keeps (idleTimeout : Z) (ev : control_event) : Prop :=
  ce_before ev = None /\
  (ce_read ev = ReadData \/
   (exists since, ce_read ev = ReadTimeout since /\ ce_after ev = None /\
      0 < idleTimeout /\ since < idleTimeout)).

(** A UDP association lives as long as its control connection. The loop that
    watches the connection goes on over reads that return data (ignored) and over
    passed deadlines with activity in the meantime, and returns at the first other
    event: the parent context's error when it ended, and otherwise success, when
    the read failed (the client closed the connection) or a deadline passed, which
    with an idle timeout configured takes at least that time without activity. *)
Theorem controlLoop_ends (idleTimeout : Z) (pre : list control_event) (ev : control_event)
    (post : list control_event) :
  Forall (keeps idleTimeout) pre -> ~ keeps idleTimeout ev ->
  controlLoop idleTimeout pre = None /\
  exists r, controlLoop idleTimeout (pre ++ ev :: post) = Some r /\
  match r with
  | Some e => ce_before ev = Some e \/ ce_after ev = Some e
  | None => ce_before ev = None /\ ce_after ev = None /\
            (ce_read ev = ReadFailed \/
             exists since, ce_read ev = ReadTimeout since /\ (0 < idleTimeout -> idleTimeout <= since))
  end.
Proof.
  intros Hpre Hev. assert (forall k, controlLoop idleTimeout (pre ++ k) = controlLoop idleTimeout k) as Hk.
  { intros k. induction Hpre as [|x pre Hx _ IH]; [done|]. cbn. destruct Hx as [-> [-> | (since & -> & -> & H1 & H2)]].
    - done.
    - destruct (Z.ltb_spec 0 idleTimeout); [|lia]. by destruct (Z.leb_spec idleTimeout since); [lia|]. }
  split; [specialize (Hk []); by rewrite app_nil_r in Hk|]. rewrite Hk. cbn [controlLoop].
  destruct (ce_before ev) as [e|] eqn:Eb; [eexists; split; [done|by left]|].
  destruct (ce_read ev) as [|since|] eqn:Er.
  - destruct Hev. split; [done|by left].
  - destruct (ce_after ev) as [e|] eqn:Ea; [eexists; split; [done|by right]|].
    destruct (Z.ltb_spec 0 idleTimeout); [|eexists; split; [done|]; split_and!; eauto; right; exists since; split; [done|lia]].
    destruct (Z.leb_spec idleTimeout since); [eexists; split; [done|]; split_and!; eauto|].
    destruct Hev. split; [done|]. right. by exists since.
  - destruct (ce_after ev) as [e|] eqn:Ea; [eexists; split; [done|by right]|].
    eexists. split; [done|]. split_and!; eauto.
Qed.

(** ** Requests that are refused *)

(** A request with an unknown command, or an unknown address type, ends the
    connection without a reply: [ReadRequest] fails before a command handler can
    answer "command not supported" or "address type not supported". *)
Theorem unsupported_request_unanswered (ev : env) (connector : Connector) (timeout : Z) (udp : udpRuntime) :
  (Accept ev NoAuthConfig connector timeout udp
     (mkStream [5; 1; 0;  5; 9; 0; 1; 1; 2; 3; 4; 0; 80] EOF [] (fun _ => None)) =
   Some (Some (Errorf "unsupported command code %#x" [9]),
         mkStream [1; 1; 2; 3; 4; 0; 80] EOF [[5; 0]] (fun _ => None),
         [SetDeadline (Some timeout); Close Client; Close Client])) /\
  (exists e s', Accept ev NoAuthConfig connector timeout udp
     (mkStream [5; 1; 0;  5; 1; 0; 2; 1; 2; 3; 4; 0; 80] EOF [] (fun _ => None)) =
   Some (Some e, s', [SetDeadline (Some timeout); Close Client; Close Client]) /\ sent s' = [[5; 0]]).
Proof. split; [reflexivity|]. eexists _, _. split; reflexivity. Qed.

(** ** Concrete runs *)

(** A client of user [u], password [p], that asks for 1.2.3.4:80 and sends "hi"
    behind its request, of which the handshake reader took one byte. *)
Definition demo_client : stream :=
  mkStream ([5; 1; 2] ++ [1; 1; 117; 1; 112] ++ [5; 1; 0; 1; 1; 2; 3; 4; 0; 80] ++ [104; 105])
    EOF [] (fun _ => None).

Definition demo_env (connect : TargetAddr -> result Z) : env :=
  mkEnv 0 AddrPortZero AddrPortZero connect 1 None (mkDraws 1 2 3) (fun _ => Err EOF) None (Err EOF)
    (None, None) (fun _ => Err EOF) (fun _ => None) true (fun _ => None) (fun _ => None) [].

Definition demo_conn : Connector := New None None None 10 None None 0.

Lemma demo_client_run :
  exists s', Accept (demo_env (fun _ => Ok 7)) (PasswordConfig [117] [112]) demo_conn 10
    (newUDPRuntime demo_udp 10) demo_client =
  Some (None, s',
    [SetDeadline (Some 10); SetDeadline None;
     Dial (Connector_TCP demo_conn ext_None) (FromAddr (AddrPortFrom (Addr4 0x01020304) 80));
     Open (Outbound 7); Forward 7 [104]; Tunnel 7 [105]; CloseWrite (Outbound 7);
     Close (Outbound 7); CloseWrite Client; Close Client; Close Client]).
Proof. eexists. vm_compute. reflexivity. Qed.

Lemma Accept_requires_credentials_witness :
  exists e s' l,
    Accept (demo_env (fun _ => Ok 7)) (PasswordConfig [117] [112]) demo_conn 10 (newUDPRuntime demo_udp 10)
      demo_client = Some (e, s', l) /\
    exists ms uname rest,
      unread demo_client = method_message ms ++ userpass_message (mkUserPass uname [112]) ++ rest /\
      MethodPassword ∈ ms /\ HasPrefix uname [117] = true /\
      Authenticate 0 (PasswordConfig [117] [112]) demo_client
        = (true, Ok (TryFrom 0 [117] uname), after demo_client rest [[5; 2]; [1; 0]]) /\
      Forall (fun t => t = Connector_TCP demo_conn (TryFrom 0 [117] uname)) (dialed l).
Proof.
  destruct demo_client_run as [s' Hrun]. eexists _, _, _. split; [exact Hrun|].
  eapply (Accept_requires_credentials (demo_env (fun _ => Ok 7)) [117] [112] demo_conn 10
    (newUDPRuntime demo_udp 10) demo_client); [by_decide|exact Hrun|].
  exists (Open (Outbound 7)). split; [clear; set_solver|done].
Defined.

Lemma Accept_closes_sockets_witness :
  exists e s' l,
    Accept (demo_env (fun _ => Ok 7)) (PasswordConfig [117] [112]) demo_conn 10 (newUDPRuntime demo_udp 10)
      demo_client = Some (e, s', l) /\
    Open (Outbound 7) ∈ l /\ leaked l = [] /\ last l = Some (Close Client) /\ deregistered_first l.
Proof.
  destruct demo_client_run as [s' Hrun]. eexists _, _, _. split; [exact Hrun|]. split; [clear; set_solver|].
  eapply (Accept_closes_sockets (demo_env (fun _ => Ok 7)) (PasswordConfig [117] [112]) demo_conn 10
    (newUDPRuntime demo_udp 10) demo_client). exact Hrun.
Defined.

Lemma connect_end_to_end_witness :
  exists ahead behind, ahead ++ behind = [104; 105] /\ len ahead = 1 /\
    exists s', handle (demo_env (fun _ => Ok 7)) (PasswordConfig [117] [112]) demo_conn 10
      (newUDPRuntime demo_udp 10) demo_client =
    Some (None, s',
      [SetDeadline (Some 10); SetDeadline None;
       Dial (Connector_TCP demo_conn ext_None) (FromAddr (AddrPortFrom (Addr4 0x01020304) 80));
       Open (Outbound 7); Forward 7 ahead; Tunnel 7 behind; CloseWrite (Outbound 7);
       Close (Outbound 7); CloseWrite Client; Close Client]).
Proof.
  destruct (connect_end_to_end (demo_env (fun _ => Ok 7)) (PasswordConfig [117] [112]) demo_conn 10
    (newUDPRuntime demo_udp 10) demo_client
    (after demo_client ([5; 1; 0; 1; 1; 2; 3; 4; 0; 80] ++ [104; 105]) [[5; 2]; [1; 0]]) ext_None
    (SocketAddress (AddrPortFrom (Addr4 0x01020304) 80)) [1; 1; 2; 3; 4; 0; 80] 0 [104; 105])
    as (ahead & behind & H1 & H2 & H3).
  - reflexivity.
  - done.
  - apply (Wire_v4 [1; 2; 3; 4] [0; 80]); reflexivity || by_decide.
  - reflexivity.
  - by_decide.
  - reflexivity.
  - exists ahead, behind. split; [done|]. split; [done|]. eexists. exact H3.
Defined.

Lemma controlLoop_ends_witness :
  exists r, controlLoop 60 ([mkControl None ReadData None; mkControl None (ReadTimeout 5) None] ++
    [mkControl None (ReadTimeout 61) None]) = Some r /\
    match r with Some _ => False | None => True end.
Proof.
  destruct (controlLoop_ends 60 [mkControl None ReadData None; mkControl None (ReadTimeout 5) None]
    (mkControl None (ReadTimeout 61) None) []) as (_ & r & H1 & H2).
  - constructor; [split; [done|by left]|]. constructor; [|done]. split; [done|]. right.
    exists 5. split_and!; [done|done|lia|lia].
  - intros [_ [[=]|(since & [= <-] & _ & _ & H)]]. lia.
  - exists r. split; [done|]. destruct r as [e|]; [|done]. destruct H2; discriminate.
Defined.
