(* ===== verification/HttpProxy.v ===== *)
(** * The HTTP proxy ([internal/server/http])

    Models [auth.go] (with the base64 decoder it relies on), the request handler
    of [server.go] (CONNECT, forwarding, hop-by-hop headers, responses), the pool
    of transports and the serving loop. Parsing of requests, the round trip to the
    target and the rendering of responses are [net/http]'s: a request is its parsed
    form, the round trip an argument. *)

From Stdlib Require Import ZArith Lia.
From stdpp Require Import base tactics numbers list strings gmap sets countable list.
From S2P Require Import Prelude.
From S2P Require Import Netip.
From S2P Require Import Ext.
From S2P Require Import SourceIP.
From S2P Require Import Config.
From S2P Require Import DnsCache.
From S2P Require Import Connector.

(** ** Base64 *)

(** [base64.StdEncoding]: the value of a character of the alphabet. *)
Definition b64_value (c : Z) : option Z :=
  if (65 <=? c) && (c <=? 90) then Some (c - 65)
  else if (97 <=? c) && (c <=? 122) then Some (c - 97 + 26)
  else if (48 <=? c) && (c <=? 57) then Some (c - 48 + 52)
  else if c =? 43 then Some 62
  else if c =? 47 then Some 63
  else None.

(** Groups of four characters, the last one padded with [=]. *)
Fixpoint b64_quanta (s : bytes) : option bytes :=
  match s with
  | [] => Some []
  | a :: b :: c :: d :: rest =>
      va ← b64_value a; vb ← b64_value b;
      if c =? 61 then
        if (d =? 61) && (len rest =? 0) then Some [va * 4 + vb / 16] else None
      else
        vc ← b64_value c;
        if d =? 61 then
          if len rest =? 0 then Some [va * 4 + vb / 16; vb `mod` 16 * 16 + vc / 4] else None
        else
          vd ← b64_value d;
          out ← b64_quanta rest;
          Some (va * 4 + vb / 16 :: vb `mod` 16 * 16 + vc / 4 :: vc `mod` 4 * 64 + vd :: out)
  | _ => None
  end.

(** [DecodeString]: carriage returns and newlines are skipped. *)
Definition DecodeString (s : bytes) : option bytes :=
  b64_quanta (filter (fun c => c <> 10 /\ c <> 13) s).

(** ** Headers *)

Abbreviation Header := (gmap bytes (list bytes)).

(** A token character of RFC 7230. *)
Definition tokenChar (c : Z) : bool :=
  ((48 <=? c) && (c <=? 57)) || ((65 <=? c) && (c <=? 90)) || ((97 <=? c) && (c <=? 122)) ||
  bool_decide (c ∈ str "!#$%&'*+-.^_`|~").

(** [textproto.CanonicalMIMEHeaderKey]: the first letter and every letter after a
    hyphen in upper case, the others in lower case; a name that is not a token
    stays as it is. *)
Fixpoint canon (upper : bool) (s : bytes) : bytes :=
  match s with
  | [] => []
  | c :: s' =>
      let c' := if upper && (97 <=? c) && (c <=? 122) then c - 32
                else if negb upper && (65 <=? c) && (c <=? 90) then c + 32 else c in
      c' :: canon (c' =? 45) s'
  end.
Definition CanonicalHeaderKey (s : bytes) : bytes :=
  if forallb tokenChar s then canon true s else s.

Definition Header_Get (h : Header) (key : bytes) : bytes :=
  match h !! CanonicalHeaderKey key with Some (v :: _) => v | _ => [] end.
Definition Header_Del (h : Header) (key : bytes) : Header := delete (CanonicalHeaderKey key) h.

(** [strings.Split] at a one-byte separator. *)
Fixpoint split_byte (sep : Z) (s : bytes) : list bytes :=
  match s with
  | [] => [[]]
  | c :: s' =>
      if c =? sep then [] :: split_byte sep s'
      else match split_byte sep s' with
           | w :: ws => (c :: w) :: ws
           | [] => [[c]]
           end
  end.

(** [strings.TrimSpace]: the characters of [unicode.IsSpace] in UTF-8. *)
Definition spaces : list bytes :=
  ((fun c => [c]) <$> [9; 10; 11; 12; 13; 32]) ++ [[194; 133]; [194; 160]; [225; 154; 128]] ++
  ((fun c => [226; 128; c]) <$> [128; 129; 130; 131; 132; 133; 134; 135; 136; 137; 138; 168; 169; 175]) ++
  [[226; 129; 159]; [227; 128; 128]].

Fixpoint trim_front (fuel : nat) (sps : list bytes) (s : bytes) : bytes :=
  match fuel with
  | O => s
  | S fuel =>
      match find (fun sp => HasPrefix s sp) sps with
      | Some sp => trim_front fuel sps (drop (length sp) s)
      | None => s
      end
  end.
Definition TrimSpace (s : bytes) : bytes :=
  let s := trim_front (length s) spaces s in
  rev (trim_front (length s) ((fun sp => rev sp) <$> spaces) (rev s)).

Definition hopHeaders : list bytes :=
  str <$> ["Connection"; "Proxy-Connection"; "Keep-Alive"; "Proxy-Authenticate"; "Proxy-Authorization";
           "Te"; "Trailer"; "Transfer-Encoding"; "Upgrade"]%string.

Definition connectionTokens (h : Header) : list bytes :=
  let conn := Header_Get h (str "Connection") in
  if negb (eqs conn []) then split_byte 44 conn else [].

Definition removeHopHeaders (h : Header) : Header :=
  let tokens := connectionTokens h in
  let h := foldl Header_Del h hopHeaders in
  foldl (fun h tok => Header_Del h (TrimSpace tok)) h tokens.

(** ** Authentication *)

Inductive authMode := authNone | authPassword.
Record Authenticator := mkAuthenticator { h_mode : authMode; h_username : bytes; h_password : bytes }.
Definition NoAuth : Authenticator := mkAuthenticator authNone [] [].
Definition PasswordAuth (u p : bytes) : Authenticator := mkAuthenticator authPassword u p.

Definition errProxyAuthRequired : error := Errorf "proxy authentication required" [].
Definition errForbidden : error := Errorf "forbidden" [].
Definition IsProxyAuthRequired (e : error) : bool := bool_decide (e = errProxyAuthRequired).
Definition IsForbidden (e : error) : bool := bool_decide (e = errForbidden).

(** [strings.LastIndex] of a byte: the parts before and after it. *)
Fixpoint cut_last (c : Z) (s : bytes) : option (bytes * bytes) :=
  match s with
  | [] => None
  | x :: s' =>
      match cut_last c s' with
      | Some (a, b) => Some (x :: a, b)
      | None => if x =? c then Some ([], s') else None
      end
  end.

Definition authenticatePassword (now : Z) (a : Authenticator) (hdr : Header) : result Extension :=
  let proxyAuth := Header_Get hdr (str "Proxy-Authorization") in
  if eqs proxyAuth [] then Err errProxyAuthRequired
  else if negb (HasPrefix proxyAuth (str "Basic ")) then Err errProxyAuthRequired
  else
    match DecodeString (TrimPrefix proxyAuth (str "Basic ")) with
    | None => Err errProxyAuthRequired
    | Some authStr =>
        match cut_last 58 authStr with
        | None => Err errProxyAuthRequired
        | Some (authUsername, authPass) =>
            if HasPrefix authUsername (h_username a) && eqs authPass (h_password a)
            then Ok (TryFrom now (h_username a) authUsername)
            else Err errForbidden
        end
    end.

Definition http_Authenticate (now : Z) (a : Authenticator) (hdr : Header) : result Extension :=
  match h_mode a with
  | authPassword => authenticatePassword now a hdr
  | authNone => Ok ext_None
  end.

(** ** Targets *)

(** [net.SplitHostPort]. *)
Definition errAddr (why : string) : error := Errorf why [].

Definition index_byte (c : Z) (s : bytes) : option nat :=
  match cut_byte c s with (a, Some _) => Some (length a) | (_, None) => None end.

Definition SplitHostPort (hostport : bytes) : result (bytes * bytes) :=
  match cut_last 58 hostport with
  | None => Err (errAddr "missing port in address")
  | Some (before, port) =>
      let i := length before in
      let finish (host : bytes) (j k : nat) :=
        if bool_decide (91 ∈ drop j hostport) then Err (errAddr "unexpected '[' in address")
        else if bool_decide (93 ∈ drop k hostport) then Err (errAddr "unexpected ']' in address")
        else Ok (host, port) in
      match hostport with
      | 91 :: _ =>
          match index_byte 93 hostport with
          | None => Err (errAddr "missing ']' in address")
          | Some e =>
              if bool_decide (e + 1 = length hostport)%nat then Err (errAddr "missing port in address")
              else if bool_decide (e + 1 = i)%nat then finish (take (e - 1) (drop 1 hostport)) 1%nat (e + 1)%nat
              else if idx hostport (Z.of_nat e + 1) =? 58 then Err (errAddr "too many colons in address")
              else Err (errAddr "missing port in address")
          end
      | _ =>
          if bool_decide (58 ∈ before) then Err (errAddr "too many colons in address")
          else finish before 0%nat 0%nat
      end
  end.

Definition parsePort (s : bytes) : result Z := ParseUint s 16.

Definition splitHostPort (target : bytes) : result (bytes * Z) :=
  if negb (bool_decide (58 ∈ target)) then Err (errAddr "missing port")
  else
    '(host, portStr) ← SplitHostPort target;
    port ← parsePort portStr;
    Ok (host, port).

(** The dialer of a transport. *)
Definition transport_target (address : bytes) : result TargetAddr :=
  '(host, portString) ← SplitHostPort address;
  match ParseUint portString 16 with
  | Ok port => if port =? 0 then Err (errAddr "invalid target port") else Ok (FromHost host port)
  | Err _ => Err (errAddr "invalid target port")
  end.

(** [transportPool.dialContext]: the connector and the target it dials for an address. *)
Definition dialContext (c : Connector) (extension : Extension) (address : bytes)
    : result (TcpConnector * TargetAddr) :=
  target ← transport_target address;
  Ok (Connector_TCP c extension, target).

(** [URL.Hostname] and [URL.Port] of net/url. *)
Definition url_splitHostPort (hostPort : bytes) : bytes * bytes :=
  let '(host, port) :=
    match cut_last 58 hostPort with
    | Some (h, p) => if forallb (fun c => (48 <=? c) && (c <=? 57)) p then (h, p) else (hostPort, [])
    | None => (hostPort, [])
    end in
  ((if HasPrefix host [91] && bool_decide (last host = Some 93) then slice host 1 (len host - 1) else host), port).

Definition portMap (scheme : bytes) : bytes :=
  if eqs scheme (str "http") then str "80" else if eqs scheme (str "https") then str "443" else [].

Definition JoinHostPort (host port : bytes) : bytes :=
  if bool_decide (58 ∈ host) then 91 :: host ++ 93 :: 58 :: port else host ++ 58 :: port.

(** The address that net/http's transport dials for a URL; [toASCII] is the conversion of
    an internationalized host ([idna.Lookup.ToASCII]). *)
Definition canonicalAddr (toASCII : bytes -> option bytes) (scheme urlHost : bytes) : bytes :=
  let '(host, port) := url_splitHostPort urlHost in
  let host := if forallb (fun c => c <? 128) host then host else default host (toASCII host) in
  JoinHostPort host (if eqs port [] then portMap scheme else port).

(** The dial of [Transport.RoundTrip] when it has no idle connection to the URL's host: only
    for the two schemes of HTTP and a URL with a host. *)
Definition RoundTrip_dial (toASCII : bytes -> option bytes) (c : Connector) (extension : Extension)
    (urlHost scheme : bytes) : option (TcpConnector * TargetAddr) :=
  if (eqs scheme (str "http") || eqs scheme (str "https")) && negb (eqs urlHost []) then
    match dialContext c extension (canonicalAddr toASCII scheme urlHost) with Ok d => Some d | Err _ => None end
  else None.

(** ** Transports *)

#[export] Instance ExtensionType_countable : Countable ExtensionType.
Proof.
  refine (inj_countable' (fun t => match t with ExtNone => 0 | ExtTTL => 1 | ExtRange => 2 | ExtSession => 3 end)
    (fun z => if z =? 0 then ExtNone else if z =? 1 then ExtTTL else if z =? 2 then ExtRange else ExtSession) _).
  by intros [].
Defined.
#[export] Instance Extension_countable : Countable Extension.
Proof.
  refine (inj_countable' (fun e => (ext_Type e, ext_Value e)) (fun p => mkExtension (fst p) (snd p)) _).
  by intros [].
Defined.

Definition maxTransportEntries : Z := 128.

(** An [http.Transport]: its identity, the extension its dialer uses, and its
    limits. *)
Record Transport := mkTransport {
  tr_id : Z;
  tr_extension : Extension;
  MaxIdleConns : Z;
  MaxIdleConnsPerHost : Z
}.
Record transportEntry := mkTEntry { te_transport : Transport; lastUsed : Z }.

(** [tp_next] numbers the transports, [tp_idleClosed] are those whose idle
    connections were closed. *)
Record transportPool := mkPool {
  tp_entries : gmap Extension transportEntry;
  tp_clock : Z;
  tp_default : Transport;
  tp_next : Z;
  tp_idleClosed : list Z
}.

Definition newTransport (id : Z) (e : Extension) : Transport :=
  match ext_Type e with
  | ExtNone => mkTransport id e 1024 128
  | _ => mkTransport id e 16 8
  end.

Definition newTransportPool : transportPool := mkPool ∅ 0 (newTransport 0 ext_None) 1 [].

(** The scan for the least recently used entry, in the map's order. *)
Definition older (best : option (Extension * transportEntry)) (x : Extension * transportEntry)
    : option (Extension * transportEntry) :=
  match best with
  | None => Some x
  | Some b => if lastUsed (snd x) <? lastUsed (snd b) then Some x else Some b
  end.
Definition oldest (es : list (Extension * transportEntry)) : option (Extension * transportEntry) :=
  foldl older None es.

(** [Get]; [order] is the order in which the map is ranged over. *)
Definition Get (order : gmap Extension transportEntry -> list (Extension * transportEntry))
    (extension : Extension) (p : transportPool) : Transport * transportPool :=
  match ext_Type extension with
  | ExtNone => (tp_default p, p)
  | _ =>
      let clock := wrap 64 (tp_clock p + 1) in
      match tp_entries p !! extension with
      | Some entry =>
          (te_transport entry,
           mkPool (<[extension := mkTEntry (te_transport entry) clock]> (tp_entries p)) clock
             (tp_default p) (tp_next p) (tp_idleClosed p))
      | None =>
          let '(entries, closed) :=
            if maxTransportEntries <=? Z.of_nat (size (tp_entries p)) then
              match oldest (order (tp_entries p)) with
              | Some (k, entry) => (delete k (tp_entries p), [tr_id (te_transport entry)])
              | None => (tp_entries p, [])
              end
            else (tp_entries p, []) in
          let transport := newTransport (tp_next p) extension in
          (transport,
           mkPool (<[extension := mkTEntry transport clock]> entries) clock (tp_default p)
             (tp_next p + 1) (tp_idleClosed p ++ closed))
      end
  end.

(** [transportPool.CloseIdleConnections]: the default transport and those of the entries. *)
Definition pool_transports (order : gmap Extension transportEntry -> list (Extension * transportEntry))
    (p : transportPool) : list Transport :=
  tp_default p :: ((fun ke => te_transport ke.2) <$> order (tp_entries p)).
Definition CloseIdleConnections (order : gmap Extension transportEntry -> list (Extension * transportEntry))
    (p : transportPool) : transportPool :=
  mkPool (tp_entries p) (tp_clock p) (tp_default p) (tp_next p)
    (tp_idleClosed p ++ (tr_id <$> pool_transports order p)).

(** ** The handler *)

Record http_request := mkHttpRequest {
  hq_Method : bytes;
  hq_URLHost : bytes;       (* req.URL.Host *)
  hq_Scheme : bytes;        (* req.URL.Scheme *)
  hq_Host : bytes;          (* req.Host *)
  hq_Header : Header;
  hq_ProtoAtLeast11 : bool;
  hq_Close : bool
}.

(** [URL.IsAbs]. *)
Definition hq_IsAbs (req : http_request) : bool := negb (eqs (hq_Scheme req) []).

(** A response of the proxy itself ([writeResponse]), or the target's. *)
Inductive http_written :=
  | Written (status : Z) (body : bytes) (header : Header)
  | Relayed (status : Z) (header : Header).

Record http_response := mkHttpResponse {
  hp_Status : Z;
  hp_Header : Header;
  hp_ProtoAtLeast11 : bool;
  hp_Close : bool
}.

Definition StatusOK : Z := 200.
Definition StatusBadRequest : Z := 400.
Definition StatusForbidden : Z := 403.
Definition StatusProxyAuthRequired : Z := 407.
Definition StatusInternalServerError : Z := 500.
Definition StatusBadGateway : Z := 502.

(** Decimal digits, for [Content-Length]. *)
Fixpoint decimal (fuel : nat) (n : Z) : bytes :=
  match fuel with
  | O => []
  | S fuel => if n <? 10 then [48 + n] else decimal fuel (n / 10) ++ [48 + n `mod` 10]
  end.

Definition writeResponse (status : Z) (body : bytes) : http_written :=
  let h : Header := if status =? StatusProxyAuthRequired
    then {[ str "Proxy-Authenticate" := [str "Basic realm=" ++ [34] ++ str "Proxy" ++ [34]] ]} else ∅ in
  let h := if negb (eqs body []) then <[str "Content-Length" := [decimal 20 (len body)]]> h else h in
  Written status body h.

Inductive http_effect :=
  | Wrote (w : http_written)
  | HDial (t : TcpConnector) (target : TargetAddr)
  | HForward (conn : Z) (b : bytes)
  | HTunnel (conn : Z)
  | HCloseWrite (conn : Z)
  | HClose (conn : Z)
  | HCloseWriteClient
  | RoundTrip (t : Transport) (urlHost scheme : bytes) (header : Header)
  | HCloseClient.

(** What the network does during one request. *)
Record http_env := mkHttpEnv {
  he_now : Z;
  he_connect : TargetAddr -> result Z;
  he_buffered : bytes;                       (* read ahead by the buffered reader *)
  he_copyN : option (Z * error);
  he_order : gmap Extension transportEntry -> list (Extension * transportEntry);
  he_roundTrip : result http_response;
  he_respWrite : option error                (* resp.Write(bw) *)
}.

Record Handler := mkHandler { hd_auth : Authenticator; hd_connector : Connector }.

Definition NewHandler (a : AuthMode) (c : Connector) : Handler :=
  mkHandler (if HasAuth a then PasswordAuth (am_Username a) (am_Password a) else NoAuth) c.

(** Keep-alive, error, effects. *)
Abbreviation http_outcome := (bool * option error * list http_effect)%type.

Definition http_handleConnect (ev : http_env) (h : Handler) (req : http_request) (extension : Extension)
    : http_outcome :=
  let target := if eqs (hq_URLHost req) [] then hq_Host req else hq_URLHost req in
  let bad := (false, None, [Wrote (writeResponse StatusBadRequest (str "CONNECT must be to a socket address"))]) in
  if eqs target [] then bad
  else
    match splitHostPort target with
    | Err _ => bad
    | Ok (host, port) =>
        let connector := Connector_TCP (hd_connector h) extension in
        match he_connect ev (FromHost host port) with
        | Err e => (false, Some e, [HDial connector (FromHost host port); Wrote (writeResponse StatusBadGateway [])])
        | Ok out =>
            let head := [HDial connector (FromHost host port); Wrote (writeResponse StatusOK [])] in
            let tail := [HTunnel out; HCloseWrite out; HClose out; HCloseWriteClient] in
            match he_buffered ev with
            | [] => (false, None, head ++ tail)
            | b =>
                match he_copyN ev with
                | Some (k, e) => (false, Some e, head ++ [HForward out (slice b 0 k); HClose out])
                | None => (false, None, head ++ [HForward out b] ++ tail)
                end
            end
        end
    end.

Definition forwardRequest (ev : http_env) (req : http_request) (extension : Extension) (p : transportPool)
    : http_outcome * transportPool :=
  let urlHost := if negb (hq_IsAbs req) && negb (eqs (hq_Host req) []) then hq_Host req else hq_URLHost req in
  let scheme := if hq_IsAbs req then hq_Scheme req else str "http" in
  let header := removeHopHeaders (hq_Header req) in
  let '(transport, p) := Get (he_order ev) extension p in
  let sent := RoundTrip transport urlHost scheme header in
  match he_roundTrip ev with
  | Err e => ((false, Some e, [sent; Wrote (writeResponse StatusBadGateway [])]), p)
  | Ok resp =>
      let relayed := Relayed (hp_Status resp) (removeHopHeaders (hp_Header resp)) in
      match he_respWrite ev with
      | Some e => ((false, Some e, [sent]), p)
      | None =>
          let keepAlive := hq_ProtoAtLeast11 req && hp_ProtoAtLeast11 resp && negb (hq_Close req) &&
                           negb (hp_Close resp) in
          ((keepAlive, None, [sent; Wrote relayed]), p)
      end
  end.

Definition MethodConnect : bytes := str "CONNECT".

Definition http_Proxy (ev : http_env) (h : Handler) (req : http_request) (p : transportPool)
    : http_outcome * transportPool :=
  match http_Authenticate (he_now ev) (hd_auth h) (hq_Header req) with
  | Err e =>
      let status := if IsProxyAuthRequired e then StatusProxyAuthRequired
                    else if IsForbidden e then StatusForbidden else StatusInternalServerError in
      ((false, None, [Wrote (writeResponse status [])]), p)
  | Ok extension =>
      if eqs (hq_Method req) MethodConnect then (http_handleConnect ev h req extension, p)
      else forwardRequest ev req extension p
  end.

(** The serving loop of [accept] over the requests the client sends; the stream
    is closed when it ends. *)
Fixpoint http_serve (h : Handler) (reqs : list (http_env * http_request)) (p : transportPool)
    : list http_effect * transportPool :=
  match reqs with
  | [] => ([HCloseClient], p)
  | (ev, req) :: rest =>
      let '((keepAlive, err, l), p) := http_Proxy ev h req p in
      match err with
      | Some _ => (l ++ [HCloseClient], p)
      | None =>
          if keepAlive then let '(l', p) := http_serve h rest p in (l ++ l', p)
          else (l ++ [HCloseClient], p)
      end
  end.

(** ** Base64 round trip *)

Definition b64_char (v : Z) : Z :=
  if v <? 26 then v + 65 else if v <? 52 then v - 26 + 97 else if v <? 62 then v - 52 + 48
  else if v =? 62 then 43 else 47.

(** The standard encoding of a client. *)
Fixpoint EncodeToString (b : bytes) : bytes :=
  match b with
  | [] => []
  | [x] => [b64_char (x / 4); b64_char (x `mod` 4 * 16); 61; 61]
  | [x; y] => [b64_char (x / 4); b64_char (x `mod` 4 * 16 + y / 16); b64_char (y `mod` 16 * 4); 61]
  | x :: y :: z :: rest =>
      b64_char (x / 4) :: b64_char (x `mod` 4 * 16 + y / 16) :: b64_char (y `mod` 16 * 4 + z / 64) ::
      b64_char (z `mod` 64) :: EncodeToString rest
  end.

#[local] Ltac Zify.zify_post_hook ::= Z.to_euclidean_division_equations.

Lemma b64_char_range v : 0 <= v < 64 -> b64_char v <> 61 /\ b64_char v <> 10 /\ b64_char v <> 13.
Proof. intros H. unfold b64_char. repeat case_one; zbool; lia. Qed.

Lemma b64_no_newline v : 0 <= v < 64 -> b64_char v <> 10 /\ b64_char v <> 13.
Proof. intros H. by apply b64_char_range. Qed.
Lemma b64_not_pad v : 0 <= v < 64 -> (b64_char v =? 61) = false.
Proof. intros H. apply Z.eqb_neq. by apply b64_char_range. Qed.

Lemma b64_value_char v : 0 <= v < 64 -> b64_value (b64_char v) = Some v.
Proof.
  intros H. unfold b64_char, b64_value.
  destruct (Z.ltb_spec v 26), (Z.ltb_spec v 52), (Z.ltb_spec v 62), (Z.eqb_spec v 62); try lia;
    repeat (case_one; zbool); try (f_equal; lia); exfalso;
    repeat match goal with H : andb _ _ = false |- _ => apply andb_false_iff in H as [?|?]; zbool end; lia.
Qed.

Lemma Encode_chars b : bytes_ok b -> Forall (fun c => c <> 10 /\ c <> 13) (EncodeToString b).
Proof.
  assert (forall n b, (length b <= n)%nat -> bytes_ok b ->
    Forall (fun c => c <> 10 /\ c <> 13) (EncodeToString b)) as G; [|by apply (G (length b))].
  clear b. induction n as [|n IH]; intros b Hn Hb;
    [destruct b; [constructor || done|cbn in Hn; lia]|].
  destruct b as [|x [|y [|z rest]]]; cbn [EncodeToString]; [constructor|..];
    unfold bytes_ok in Hb; repeat (apply Forall_cons_1 in Hb as [? Hb]); unfold in_width in *;
    repeat (apply Forall_cons_2; [first [by split | apply b64_no_newline; lia]|]); try constructor.
  apply IH; [cbn in Hn; lia|done].
Qed.

Lemma b64_quanta_encode b : bytes_ok b -> b64_quanta (EncodeToString b) = Some b.
Proof.
  assert (forall n b, (length b <= n)%nat -> bytes_ok b -> b64_quanta (EncodeToString b) = Some b) as G;
    [|by apply (G (length b))].
  clear b. induction n as [|n IH]; intros b Hn Hb;
    [destruct b; [constructor || done|cbn in Hn; lia]|].
  destruct b as [|x [|y [|z rest]]]; [done|..];
    unfold bytes_ok in Hb; repeat (apply Forall_cons_1 in Hb as [? Hb]); unfold in_width in *;
    cbn [EncodeToString b64_quanta]; rewrite !b64_value_char by lia; cbn [mbind option_bind].
  - repeat f_equal. cbn. f_equal. lia.
  - rewrite b64_not_pad by lia. cbn. f_equal. f_equal; [lia|]. f_equal. lia.
  - rewrite !b64_not_pad by lia. cbn [mbind option_bind]. rewrite IH by (cbn in Hn; done || lia).
    cbn. f_equal. f_equal; [lia|]. f_equal; [lia|]. f_equal. lia.
Qed.

Lemma DecodeString_encode b : bytes_ok b -> DecodeString (EncodeToString b) = Some b.
Proof.
  intros Hb. unfold DecodeString.
  assert (filter (fun c => c <> 10 /\ c <> 13) (EncodeToString b) = EncodeToString b) as ->.
  { induction (Encode_chars b Hb) as [|c l Hc _ IH]; [done|]. rewrite filter_cons_True by done. by rewrite IH. }
  by apply b64_quanta_encode.
Qed.

#[local] Ltac Zify.zify_post_hook ::= idtac.

(** ** Authentication *)

Lemma cut_last_spec c s a b : cut_last c s = Some (a, b) <-> s = a ++ c :: b /\ c ∉ b.
Proof.
  assert (forall s, cut_last c s = None <-> c ∉ s) as Hn.
  { intros l. induction l as [|x l IH]; [split; [intros _; apply not_elem_of_nil|done]|].
    rewrite not_elem_of_cons, <- IH. cbn [cut_last].
    destruct (cut_last c l) as [[u v]|]; [split; [done|by intros [_ ?]]|].
    destruct (Z.eqb_spec x c) as [->|Hne]; split; try done; by intros [? _]. }
  split.
  - revert a b. induction s as [|x s IH]; intros a b; cbn [cut_last]; [done|].
    destruct (cut_last c s) as [[u v]|] eqn:E.
    + intros [= <- <-]. destruct (IH u v eq_refl) as [-> ?]. done.
    + apply Hn in E. destruct (Z.eqb_spec x c) as [->|Hne]; [|done]. by intros [= <- <-].
  - intros [-> Hb]. induction a as [|x a IH]; cbn [cut_last app].
    + by rewrite (proj2 (Hn b) Hb), Z.eqb_refl.
    + by rewrite IH.
Qed.

Lemma eqs_iff a b : eqs a b = true <-> a = b.
Proof. apply bool_decide_eq_true. Qed.

(** Success of the HTTP authentication, from both sides. *)
Lemma http_Authenticate_ok now u p hdr e :
  http_Authenticate now (PasswordAuth u p) hdr = Ok e <->
  exists cred uname,
    Header_Get hdr (str "Proxy-Authorization") = str "Basic " ++ cred /\
    DecodeString cred = Some (uname ++ 58 :: p) /\ (58 ∉ p) /\
    HasPrefix uname u = true /\ e = TryFrom now u uname.
Proof.
  unfold http_Authenticate, authenticatePassword. cbn [PasswordAuth h_mode h_username h_password].
  set (v := Header_Get hdr (str "Proxy-Authorization")). split.
  - destruct (eqs v []) eqn:E1; [done|]. destruct (HasPrefix v (str "Basic ")) eqn:E2; [|done]. cbn [negb].
    apply HasPrefix_spec in E2 as [cred E2]. rewrite E2, TrimPrefix_app.
    destruct (DecodeString cred) as [a|] eqn:E3; [|done].
    destruct (cut_last 58 a) as [[un pw]|] eqn:E4; [|done]. apply cut_last_spec in E4 as [-> Hn].
    destruct (HasPrefix un u && eqs pw p) eqn:E5; [|done]. intros [= <-].
    apply andb_true_iff in E5 as [E5 ->%eqs_iff]. by exists cred, un.
  - intros (cred & uname & -> & E3 & Hn & Hp & ->). unfold eqs at 1. rewrite bool_decide_eq_false_2 by done.
    rewrite HasPrefix_app, TrimPrefix_app, E3. cbn [negb].
    rewrite (proj2 (cut_last_spec _ _ _ _)) by done. rewrite Hp, (proj2 (eqs_iff p p)) by done. done.
Qed.

(** C25: HTTP proxy authentication. With a username and password configured a
    request is let in exactly when its Proxy-Authorization header is "Basic" with
    a base64 text that decodes to a username beginning with the configured one, a
    colon, and the configured password, which has no colon itself; the extension
    is that username's. The standard encoding of such credentials is accepted.
    A configured password that contains a colon locks every client out. *)
Theorem http_auth_accepts now u p hdr :
  (forall e, http_Authenticate now (PasswordAuth u p) hdr = Ok e <->
    exists cred uname,
      Header_Get hdr (str "Proxy-Authorization") = str "Basic " ++ cred /\
      DecodeString cred = Some (uname ++ 58 :: p) /\ (58 ∉ p) /\
      HasPrefix uname u = true /\ e = TryFrom now u uname) /\
  (forall uname, bytes_ok (uname ++ 58 :: p) -> 58 ∉ p -> HasPrefix uname u = true ->
    Header_Get hdr (str "Proxy-Authorization") = str "Basic " ++ EncodeToString (uname ++ 58 :: p) ->
    http_Authenticate now (PasswordAuth u p) hdr = Ok (TryFrom now u uname)) /\
  (58 ∈ p -> is_ok (http_Authenticate now (PasswordAuth u p) hdr) = false).
Proof.
  split_and!.
  - intros e. apply http_Authenticate_ok.
  - intros uname Hok Hn Hp Hh. apply http_Authenticate_ok. exists (EncodeToString (uname ++ 58 :: p)), uname.
    by rewrite DecodeString_encode.
  - intros Hin. destruct (http_Authenticate _ _ _) as [e|] eqn:E; [|done].
    apply http_Authenticate_ok in E as (? & ? & _ & _ & Hn & _). done.
Qed.

Lemma http_auth_accepts_witness :
  http_Authenticate 0 (PasswordAuth (str "user") (str "pw"))
    {[ str "Proxy-Authorization" := [str "Basic dXNlcjpwdw=="] ]} = Ok (TryFrom 0 (str "user") (str "user")) /\
  is_ok (http_Authenticate 0 (PasswordAuth (str "user") (str "p:w"))
    {[ str "Proxy-Authorization" := [str "Basic dXNlcjpwOnc="] ]}) = false.
Proof.
  split.
  - apply (http_auth_accepts 0 (str "user") (str "pw")); [by_decide | by_decide | reflexivity | reflexivity].
  - apply (http_auth_accepts 0 (str "user") (str "p:w")). by_decide.
Defined.

(** ** Hop-by-hop headers *)

Lemma Header_Del_fold l h k :
  foldl Header_Del h l !! k = if bool_decide (k ∈ CanonicalHeaderKey <$> l) then None else h !! k.
Proof.
  revert h. induction l as [|x l IH]; intros h; [done|]. cbn [foldl fmap list_fmap]. rewrite IH.
  unfold Header_Del. destruct (decide (k = CanonicalHeaderKey x)) as [->|Hne].
  - rewrite lookup_delete_eq. rewrite (bool_decide_eq_true_2 (_ ∈ _ :: _)) by by left. by case_bool_decide.
  - rewrite lookup_delete_ne by done. rewrite (bool_decide_ext (k ∈ _ :: _) (k ∈ CanonicalHeaderKey <$> l)); [done|].
    rewrite elem_of_cons. tauto.
Qed.

Definition removed_headers (h : Header) : list bytes :=
  (CanonicalHeaderKey <$> hopHeaders) ++ ((fun tok => CanonicalHeaderKey (TrimSpace tok)) <$> connectionTokens h).

(** Forwarded requests and responses lose exactly the nine hop-by-hop headers
    and those named in the first Connection header, whatever their case and
    spacing there; every other header keeps all its values. Names listed in a
    second Connection header are not removed. *)
Theorem removeHopHeaders_exact (h : Header) (k : bytes) :
  removeHopHeaders h !! k = (if bool_decide (k ∈ removed_headers h) then None else h !! k) /\
  (let two : Header := <[str "X-Secret" := [str "s"]]>
     {[ str "Connection" := [str "close"; str "X-Secret"] ]} in
   removeHopHeaders two !! str "X-Secret" = Some [str "s"]).
Proof.
  split; [|vm_compute; reflexivity]. unfold removeHopHeaders, removed_headers.
  assert (forall l h, foldl (fun h tok => Header_Del h (TrimSpace tok)) h l =
    foldl Header_Del h (TrimSpace <$> l)) as Hf.
  { induction l as [|x l IH]; intros h'; [done|]. apply IH. }
  rewrite Hf, !Header_Del_fold, <- list_fmap_compose. unfold compose.
  repeat case_bool_decide; try done; exfalso; rewrite elem_of_app in *; tauto.
Qed.

(** ** Requests without credentials *)

(** An HTTP request without the right credentials reaches nothing but its
    reply: with a username and password configured, a request that is not let in is
    answered 407 (no or malformed credentials) or 403 (wrong ones), the connection
    is not kept alive, no dial or round trip happens and the transports are
    untouched; so everything else a request causes, it causes with the extension
    of a username that the password was right for. *)
Theorem http_Proxy_requires_credentials (ev : http_env) (u p : bytes) (c : Connector) (req : http_request)
    (pool : transportPool) :
  let h := mkHandler (PasswordAuth u p) c in
  match http_Authenticate (he_now ev) (PasswordAuth u p) (hq_Header req) with
  | Err e =>
      (e = errProxyAuthRequired \/ e = errForbidden) /\
      exists status, (status = 407 \/ status = 403) /\
        http_Proxy ev h req pool = ((false, None, [Wrote (writeResponse status [])]), pool)
  | Ok ext =>
      (exists uname, HasPrefix uname u = true /\ ext = TryFrom (he_now ev) u uname) /\
      Forall (fun x => match x with
        | HDial t _ => t = Connector_TCP c ext
        | RoundTrip t _ _ _ => t = fst (Get (he_order ev) ext pool)
        | _ => True
        end) (snd (fst (http_Proxy ev h req pool)))
  end.
Proof.
  intros h. unfold http_Proxy. cbn [h hd_auth].
  destruct (http_Authenticate _ _ _) as [ext|e] eqn:E.
  - split; [apply http_Authenticate_ok in E as (? & uname & _ & _ & _ & ? & ->); eauto|].
    destruct (eqs (hq_Method req) MethodConnect).
    + unfold http_handleConnect. cbn [fst snd hd_connector h].
      repeat case_one; cbn; repeat (apply Forall_cons_2; [done|]); apply Forall_nil_2.
    + unfold forwardRequest. destruct (Get (he_order ev) ext pool) as [t p'].
      repeat case_one; cbn; repeat (apply Forall_cons_2; [done|]); apply Forall_nil_2.
  - assert (e = errProxyAuthRequired \/ e = errForbidden) as He.
    { revert E. unfold http_Authenticate, authenticatePassword. cbn. repeat case_one; intros; simplify_eq; auto. }
    split; [done|]. destruct He as [-> | ->]; [exists 407|exists 403]; (split; [by auto|reflexivity]).
Qed.

(** ** The transport pool is an LRU cache *)

(** The abstract cache: the extensions with a transport, the most recently used
    first. *)
Definition lru_get (e : Extension) (l : list Extension) : list Extension :=
  match ext_Type e with
  | ExtNone => l
  | _ => e :: take 127 (filter (fun x => x <> e) l)
  end.
Definition lru (es : list Extension) : list Extension := foldl (fun l e => lru_get e l) [] es.

(** The requests [es] one after the other: the transports handed out and the pool. *)
Fixpoint Get_all (order : gmap Extension transportEntry -> list (Extension * transportEntry))
    (es : list Extension) (p : transportPool) : list Transport * transportPool :=
  match es with
  | [] => ([], p)
  | e :: es =>
      let '(t, p) := Get order e p in
      let '(ts, p) := Get_all order es p in (t :: ts, p)
  end.

(** [u] decreases along the list. *)
Fixpoint desc (u : Extension -> Z) (l : list Extension) : Prop :=
  match l with
  | [] => True
  | a :: r => (forall b, b ∈ r -> u b < u a) /\ desc u r
  end.

Lemma desc_sublist u k l : sublist k l -> desc u l -> desc u k.
Proof.
  induction 1 as [|x k l Hs IH|x k l Hs IH]; cbn; [done| |by intros [_ ?]; auto].
  intros [Hx Hl]. split; [|by auto]. intros b Hb. apply Hx. by eapply sublist_subseteq.
Qed.
Lemma desc_ext u v l : (forall x, x ∈ l -> u x = v x) -> desc u l -> desc v l.
Proof.
  induction l as [|a l IH]; cbn; [done|]. intros E [Ha Hl]. split.
  - intros b Hb. rewrite <- (E a), <- (E b) by set_solver. auto.
  - apply IH; [|done]. intros x Hx. apply E. by right.
Qed.
Lemma desc_snoc u l k b : desc u (l ++ [k]) -> b ∈ l -> u k < u b.
Proof.
  induction l as [|a l IH]; cbn; [intros _ H; by apply elem_of_nil in H|]. intros [Ha Hl] Hb. set_unfold in Hb.
  destruct Hb as [->|Hb]; [apply Ha; set_solver|auto].
Qed.

Definition used (m : gmap Extension transportEntry) (e : Extension) : Z :=
  match m !! e with Some t => lastUsed t | None => 0 end.

Record lru_rel (p : transportPool) (l : list Extension) : Prop := {
  lr_nodup : NoDup l;
  lr_length : (length l <= 128)%nat;
  lr_dom : forall e, e ∈ l <-> is_Some (tp_entries p !! e);
  lr_desc : desc (used (tp_entries p)) l;
  lr_clock : forall e t, tp_entries p !! e = Some t -> lastUsed t <= tp_clock p;
  lr_ext : forall e t, tp_entries p !! e = Some t -> tr_extension (te_transport t) = e;
  lr_default : tr_extension (tp_default p) = ext_None
}.

Lemma lru_rel_size p l : lru_rel p l -> size (tp_entries p) = length l.
Proof.
  intros [Hn _ Hd _ _ _ _]. rewrite <- length_map_to_list, <- (length_fmap fst).
  apply Permutation_length, NoDup_Permutation; [apply NoDup_fst_map_to_list|done|].
  intros e. rewrite Hd, list_elem_of_fmap. split.
  - intros ([e' t] & -> & H). apply elem_of_map_to_list in H. by exists t.
  - intros [t H]. exists (e, t). split; [done|]. by apply elem_of_map_to_list.
Qed.

(** The scan finds a least recently used entry. *)
Lemma foldl_older es best :
  match foldl older best es with
  | None => best = None /\ es = []
  | Some x => (x ∈ es \/ best = Some x) /\
      (forall y, y ∈ es \/ best = Some y -> lastUsed (snd x) <= lastUsed (snd y))
  end.
Proof.
  revert best. induction es as [|a es IH]; intros best; cbn [foldl].
  - destruct best as [x|]; [|done]. split; [by right|].
    intros y [Hy|[= ->]]; [by apply elem_of_nil in Hy|lia].
  - specialize (IH (older best a)). destruct (foldl older (older best a) es) as [x|].
    + destruct IH as [Hin Hmin]. unfold older in *. destruct best as [b|].
      * destruct (Z.ltb_spec (lastUsed (snd a)) (lastUsed (snd b))); split.
        -- destruct Hin as [?|[= ->]]; left; set_solver.
        -- intros y [Hy|[= ->]]; [apply Hmin; set_unfold in Hy; destruct Hy as [->|?]; auto|].
           specialize (Hmin a (or_intror eq_refl)). lia.
        -- destruct Hin as [?|[= ->]]; [left; set_solver|by right].
        -- intros y [Hy|[= ->]]; [|auto]. set_unfold in Hy. destruct Hy as [->|?]; [|auto].
           specialize (Hmin b (or_intror eq_refl)). lia.
      * split; [left; destruct Hin as [?|[= ->]]; set_solver|].
        intros y [Hy|?]; [|done]. apply Hmin. set_unfold in Hy. destruct Hy as [->|?]; auto.
    + destruct IH as [H _]. unfold older in H. destruct best as [b|]; [|done]. by case_one_in H.
Qed.

Lemma oldest_spec m es : es ≡ₚ map_to_list m -> m <> ∅ ->
  exists k t, oldest es = Some (k, t) /\ m !! k = Some t /\
    forall k' t', m !! k' = Some t' -> lastUsed t <= lastUsed t'.
Proof.
  intros Hp Hm. unfold oldest. pose proof (foldl_older es None) as H.
  destruct (foldl older None es) as [[k t]|].
  - destruct H as [[Hin|?] Hmin]; [|done]. exists k, t. split; [done|]. rewrite Hp in Hin.
    split; [by apply elem_of_map_to_list|]. intros k' t' H'. apply (Hmin (k', t')). left. rewrite Hp.
    by apply elem_of_map_to_list.
  - destruct H as [_ ->]. destruct Hm. apply map_to_list_empty_iff. by apply Permutation_nil in Hp.
Qed.

(** One step: the entries of a list [k], a part of [l] without [e], and [e] itself
    with the new time. *)
Lemma lru_rel_insert p l k m e t clock closed next :
  lru_rel p l -> sublist k l -> e ∉ k -> (length k <= 127)%nat ->
  (forall x, x ∈ k <-> x <> e /\ is_Some (m !! x)) ->
  (forall x, x ∈ k -> m !! x = tp_entries p !! x) ->
  tp_clock p < clock -> tr_extension t = e ->
  lru_rel (mkPool (<[e := mkTEntry t clock]> m) clock (tp_default p) next closed) (e :: k).
Proof.
  intros Hl Hs He Hlen Hdom Hsame Hclock Hext.
  assert (forall x, x ∈ k -> used (<[e := mkTEntry t clock]> m) x = used (tp_entries p) x) as Hu.
  { intros x Hx. unfold used. rewrite lookup_insert_ne by (intros ->; done). by rewrite Hsame. }
  assert (forall x, x ∈ k -> used (tp_entries p) x < clock) as Hlt.
  { intros x Hx. pose proof (proj1 (Hdom x) Hx) as [_ [y Hy]]. rewrite Hsame in Hy by done.
    unfold used. rewrite Hy. pose proof (lr_clock p l Hl x y Hy). lia. }
  assert (used (<[e := mkTEntry t clock]> m) e = clock) as Hue by (unfold used; by rewrite lookup_insert_eq).
  constructor; cbn [tp_entries tp_clock tp_default].
  - apply NoDup_cons. split; [done|]. eapply sublist_NoDup; [apply Hl|done].
  - cbn. lia.
  - intros x. rewrite elem_of_cons, Hdom. destruct (decide (x = e)) as [->|Hne].
    + rewrite lookup_insert_eq. split; [by eauto|by left].
    + rewrite lookup_insert_ne by done. split; [by intros [?|[_ ?]]|by right].
  - split; [intros b Hb; rewrite Hu, Hue by done; by apply Hlt|].
    eapply desc_ext; [|eapply desc_sublist; [done|apply Hl]]. intros x Hx. by rewrite Hu.
  - intros x y. destruct (decide (x = e)) as [->|Hne]; [rewrite lookup_insert_eq; intros [= <-]; cbn; lia|].
    rewrite lookup_insert_ne by done. intros Hy. assert (x ∈ k) as Hx by (apply Hdom; eauto).
    rewrite Hsame in Hy by done. pose proof (lr_clock p l Hl x y Hy). lia.
  - intros x y. destruct (decide (x = e)) as [->|Hne]; [rewrite lookup_insert_eq; by intros [= <-]|].
    rewrite lookup_insert_ne by done. intros Hy. assert (x ∈ k) as Hx by (apply Hdom; eauto).
    rewrite Hsame in Hy by done. by apply (lr_ext p l Hl).
  - apply Hl.
Qed.

Lemma sublist_filter_ne e (l : list Extension) : sublist (filter (fun x => x <> e) l) l.
Proof.
  induction l as [|a l IH]; [done|]. rewrite filter_cons. case_decide; by constructor.
Qed.

Lemma filter_ne_id e (l : list Extension) : e ∉ l -> filter (fun x => x <> e) l = l.
Proof.
  induction l as [|a l IH]; [done|]. intros H. rewrite filter_cons_True by set_solver.
  rewrite IH by set_solver. done.
Qed.

Lemma filter_ne_length e (l : list Extension) : NoDup l -> e ∈ l ->
  S (length (filter (fun x => x <> e) l)) = length l.
Proof.
  induction 1 as [|a l Hn Hd IH]; [intros H; by apply elem_of_nil in H|]. intros He.
  rewrite filter_cons. case_decide as Ha.
  - cbn. rewrite IH; [done|]. set_unfold in He. destruct He; [congruence|done].
  - cbn. f_equal. destruct (decide (a = e)) as [->|]; [|done]. by rewrite filter_ne_id.
Qed.

Section Pool.
Context (order : gmap Extension transportEntry -> list (Extension * transportEntry)).
Context (order_ok : forall m, order m ≡ₚ map_to_list m).

(** A hit refreshes the entry. *)
Lemma Get_hit e p l entry :
  lru_rel p l -> 0 <= tp_clock p < 2 ^ 64 - 1 -> ext_Type e <> ExtNone ->
  tp_entries p !! e = Some entry ->
  lru_rel (snd (Get order e p)) (lru_get e l) /\ fst (Get order e p) = te_transport entry.
Proof.
  intros Hl Hc He Hent. assert (e ∈ l) as Hin by (apply Hl; eauto).
  unfold Get. assert (lru_get e l = e :: filter (fun x => x <> e) l) as ->.
  { unfold lru_get. rewrite take_ge; [by destruct (ext_Type e)|].
    pose proof (filter_ne_length e l (lr_nodup p l Hl) Hin). pose proof (lr_length p l Hl). lia. }
  rewrite Hent, wrap_id by (unfold in_width; lia).
  assert (lru_rel (mkPool (<[e := mkTEntry (te_transport entry) (tp_clock p + 1)]> (tp_entries p))
    (tp_clock p + 1) (tp_default p) (tp_next p) (tp_idleClosed p)) (e :: filter (fun x => x <> e) l)) as Hr.
  { apply (lru_rel_insert p l); [done|apply sublist_filter_ne| | | |done|lia|by apply (lr_ext p l Hl)].
    - rewrite list_elem_of_filter. tauto.
    - pose proof (filter_ne_length e l (lr_nodup p l Hl) Hin). pose proof (lr_length p l Hl). lia.
    - intros x. rewrite list_elem_of_filter, (lr_dom p l Hl). done. }
  by destruct (ext_Type e).
Qed.

(** A miss in a full pool evicts the last extension of the abstract cache. *)
Lemma Get_evict p l : lru_rel p l -> length l = 128%nat ->
  exists l' k t, l = l' ++ [k] /\ oldest (order (tp_entries p)) = Some (k, t) /\ (k ∉ l') /\ length l' = 127%nat.
Proof.
  intros Hl Hlen. destruct l as [|k l' _] using rev_ind; [done|].
  rewrite length_app in Hlen. cbn in Hlen.
  destruct (oldest_spec (tp_entries p) _ (order_ok _)) as (k0 & t & E & Hk & Hmin).
  { intros E. pose proof (lru_rel_size p _ Hl) as Hs. rewrite E, map_size_empty, length_app in Hs. cbn in Hs. lia. }
  assert (k0 = k) as ->.
  { assert (k0 ∈ l' ++ [k]) as Hin by (apply Hl; eauto). set_unfold in Hin.
    destruct Hin as [Hin|[->|?]]; [|done|done]. exfalso.
    pose proof (desc_snoc _ _ _ _ (lr_desc p _ Hl) Hin) as Hlt.
    destruct (proj1 (lr_dom p _ Hl k)) as [t' Hk']; [set_solver|].
    unfold used in Hlt. rewrite Hk, Hk' in Hlt. pose proof (Hmin _ _ Hk'). lia. }
  exists l', k, t. split_and!; [done|done| |lia].
  pose proof (lr_nodup p _ Hl) as Hn. apply NoDup_app in Hn as (_ & Hn & _). intros H. by apply (Hn k), list_elem_of_singleton.
Qed.

Lemma Get_miss e p l :
  lru_rel p l -> 0 <= tp_clock p < 2 ^ 64 - 1 -> ext_Type e <> ExtNone ->
  tp_entries p !! e = None ->
  lru_rel (snd (Get order e p)) (lru_get e l) /\ tr_extension (fst (Get order e p)) = e.
Proof.
  intros Hl Hc He Hent.
  assert (e ∉ l) as Hin by (rewrite (lr_dom p l Hl), Hent; by intros [? ?]).
  assert (tr_extension (newTransport (tp_next p) e) = e) as Ht by (unfold newTransport; by destruct (ext_Type e)).
  assert (lru_get e l = e :: take 127 l) as ->.
  { unfold lru_get. rewrite filter_ne_id by done. by destruct (ext_Type e). }
  unfold Get. rewrite Hent, wrap_id, (lru_rel_size p l Hl) by (unfold in_width; lia).
  pose proof (lr_length p l Hl) as Hlen.
  assert (forall m closed, take 127 l = take 127 l ->
    (forall x, x ∈ take 127 l <-> x <> e /\ is_Some (m !! x)) ->
    (forall x, x ∈ take 127 l -> m !! x = tp_entries p !! x) ->
    lru_rel (mkPool (<[e := mkTEntry (newTransport (tp_next p) e) (tp_clock p + 1)]> m) (tp_clock p + 1)
      (tp_default p) (tp_next p + 1) (tp_idleClosed p ++ closed)) (e :: take 127 l)) as Hr.
  { intros m closed _ Hd Hs. apply (lru_rel_insert p l); try done; [apply sublist_take| |rewrite length_take; lia|lia].
    intros H. apply Hin. by eapply elem_of_take in H as (i & ? & _); eapply list_elem_of_lookup_2. }
  unfold maxTransportEntries. destruct (Z.leb_spec 128 (Z.of_nat (length l))) as [Hge|Hlt].
  - destruct (Get_evict p l Hl) as (l' & k & t & El & -> & Hk & Hl'); [lia|].
    assert (take 127 l = l') as Etake by (rewrite El, <- Hl'; apply take_app_length).
    specialize (Hr (delete k (tp_entries p)) [tr_id (te_transport t)] eq_refl). rewrite Etake in *.
    destruct (ext_Type e); try done; (split; [|done]); apply Hr; clear Hr.
    all: try (intros x Hx; apply lookup_delete_ne; intros ->; done).
    all: intros x; destruct (decide (x = k)) as [->|Hne];
      [rewrite lookup_delete_eq; split; [done|by intros [_ [? ?]]]|
       rewrite lookup_delete_ne by done; rewrite <- (lr_dom p l Hl), El; set_solver].
  - assert (take 127 l = l) as Etake by (apply take_ge; lia).
    specialize (Hr (tp_entries p) [] eq_refl). rewrite Etake in *.
    destruct (ext_Type e); try done; (split; [|done]); apply Hr; clear Hr; try done.
    all: intros x; rewrite <- (lr_dom p l Hl); split; [intros Hx; split; [by intros ->|done]|by intros [_ ?]].
Qed.

Lemma Get_refines e p l :
  lru_rel p l -> 0 <= tp_clock p < 2 ^ 64 - 1 ->
  lru_rel (snd (Get order e p)) (lru_get e l) /\
  tp_clock (snd (Get order e p)) <= tp_clock p + 1 /\ 0 <= tp_clock (snd (Get order e p)) /\
  (ext_Type e <> ExtNone -> tr_extension (fst (Get order e p)) = e) /\
  (ext_Type e = ExtNone -> tr_extension (fst (Get order e p)) = ext_None).
Proof.
  intros Hl Hc. assert (tp_clock (snd (Get order e p)) <= tp_clock p + 1 /\ 0 <= tp_clock (snd (Get order e p))) as Hk.
  { unfold Get. rewrite wrap_id by (unfold in_width; lia).
    destruct (ext_Type e); [cbn; lia|..]; destruct (tp_entries p !! e); try (cbn; lia);
      destruct (if maxTransportEntries <=? _ then _ else _); cbn; lia. }
  destruct (decide (ext_Type e = ExtNone)) as [En|En].
  - unfold Get, lru_get in *. rewrite En in *. cbn in *. split_and!; try done; try lia. intros _. apply Hl.
  - destruct (tp_entries p !! e) as [entry|] eqn:E.
    + destruct (Get_hit e p l entry Hl Hc En E) as [H1 H2]. rewrite H2. split_and!; try done; try lia.
      intros _. by apply (lr_ext p l Hl).
    + destruct (Get_miss e p l Hl Hc En E) as [H1 H2]. split_and!; try done; lia.
Qed.

Lemma Get_all_refines es p l :
  lru_rel p l -> 0 <= tp_clock p -> tp_clock p + len es < 2 ^ 64 ->
  let '(ts, p') := Get_all order es p in
  lru_rel p' (foldl (fun l e => lru_get e l) l es) /\
  Forall2 (fun e t => (ext_Type e <> ExtNone -> tr_extension t = e) /\
                      (ext_Type e = ExtNone -> tr_extension t = ext_None)) es ts.
Proof.
  revert p l. induction es as [|e es IH]; intros p l Hl H0 Hc; cbn [Get_all].
  - split; [done|constructor].
  - rewrite len_cons in Hc. pose proof (len_nonneg es).
    destruct (Get_refines e p l Hl) as (H1 & H2 & H3 & H4 & H5); [lia|].
    destruct (Get order e p) as [t p1]. cbn [fst snd] in *.
    specialize (IH p1 (lru_get e l) H1 H3 ltac:(lia)). destruct (Get_all order es p1) as [ts p2].
    destruct IH as [H6 H7]. split; [done|]. by constructor.
Qed.
End Pool.

Lemma lru_rel_new : lru_rel newTransportPool [].
Proof.
  constructor; cbn; try done; try lia; [constructor|]. intros e. split; [intros H; by apply elem_of_nil in H|].
  rewrite lookup_empty. by intros [? ?].
Qed.

(** C19: The transport pool implements a least-recently-used cache of 128 transports,
    one per extension, whatever the order in which Go ranges over the map: after
    any sequence of requests the extensions with a pooled transport are exactly
    those of the abstract cache, at most 128; and every request gets a transport
    that dials with its own extension, never with another user's (a request
    without one gets the default transport). *)
Theorem transportPool_refines_lru
    (order : gmap Extension transportEntry -> list (Extension * transportEntry)) (es : list Extension) :
  (forall m, order m ≡ₚ map_to_list m) -> len es < 2 ^ 64 ->
  let '(ts, p) := Get_all order es newTransportPool in
  (forall e, e ∈ lru es <-> is_Some (tp_entries p !! e)) /\
  (size (tp_entries p) = length (lru es) /\ (length (lru es) <= 128)%nat) /\
  Forall2 (fun e t => (ext_Type e <> ExtNone -> tr_extension t = e) /\
                      (ext_Type e = ExtNone -> tr_extension t = ext_None)) es ts.
Proof.
  intros Ho Hlen. pose proof (Get_all_refines order Ho es newTransportPool [] lru_rel_new) as H.
  specialize (H ltac:(cbn; lia) ltac:(cbn; lia)).
  destruct (Get_all order es newTransportPool) as [ts p]. destruct H as [Hl Hf].
  split_and!; [apply Hl|by apply lru_rel_size|apply Hl|done].
Qed.

Lemma transportPool_refines_lru_witness :
  let es := [mkExtension ExtSession 1; mkExtension ExtNone 0; mkExtension ExtTTL 2] in
  (forall m : gmap Extension transportEntry, map_to_list m ≡ₚ map_to_list m) /\
  let '(ts, p) := Get_all map_to_list es newTransportPool in
  size (tp_entries p) = 2%nat /\ (tr_extension <$> ts) = [mkExtension ExtSession 1; ext_None; mkExtension ExtTTL 2].
Proof.
  cbn zeta. split; [done|].
  pose proof (transportPool_refines_lru map_to_list
    [mkExtension ExtSession 1; mkExtension ExtNone 0; mkExtension ExtTTL 2] ltac:(done) ltac:(by_decide)) as H.
  destruct (Get_all _ _ _) as [ts p]. destruct H as (_ & [H1 _] & H2). split; [exact H1|].
  inversion H2 as [|? t1 ? ? [A1 _] H3]; subst. inversion H3 as [|? t2 ? ? [_ A2] H4]; subst.
  inversion H4 as [|? t3 ? ? [A3 _] H5]; subst. inversion H5; subst.
  cbn. rewrite A1, A2, A3 by done. done.
Defined.

(** ** CONNECT targets *)

Lemma cut_byte_none c s : c ∉ s -> cut_byte c s = (s, None).
Proof.
  induction s as [|x s IH]; [done|]. intros H. cbn. destruct (Z.eqb_spec x c); [set_solver|].
  rewrite IH by set_solver. done.
Qed.
Lemma cut_byte_app c a b : c ∉ a -> cut_byte c (a ++ c :: b) = (a, Some b).
Proof.
  induction a as [|x a IH]; cbn; [by rewrite Z.eqb_refl|]. intros H.
  destruct (Z.eqb_spec x c); [set_solver|]. rewrite IH by set_solver. done.
Qed.

(** Decimal text and its parser. *)

Lemma ParseUint_digits_app a b bits n :
  ParseUint_digits (a ++ b) bits n = (v ← ParseUint_digits a bits n; ParseUint_digits b bits v).
Proof.
  revert n. induction a as [|c a IH]; intros n; [done|]. cbn [app ParseUint_digits]. by repeat case_one.
Qed.

Lemma decimal_digits fuel : forall n, 0 <= n -> Forall (fun c => 48 <= c <= 57) (decimal fuel n).
Proof.
  induction fuel as [|fuel IH]; intros n Hn; cbn [decimal]; [constructor|]. case_one; zbool.
  - repeat constructor; lia.
  - apply Forall_app. split; [apply IH, Z.div_pos; lia|]. pose proof (Z.mod_pos_bound n 10). repeat constructor; lia.
Qed.

Lemma decimal_parse bits fuel : forall n, 0 <= n < 10 ^ Z.of_nat fuel -> n < 2 ^ bits ->
  ParseUint_digits (decimal fuel n) bits 0 = Ok n.
Proof.
  induction fuel as [|fuel IH]; intros n Hn Hb; [cbn in *; f_equal; lia|]. cbn [decimal]. case_one; zbool.
  - cbn [ParseUint_digits]. rewrite !(proj2 (Z.leb_le _ _)) by lia. cbn [andb].
    rewrite (proj2 (Z.leb_gt _ _)) by lia. f_equal. lia.
  - rewrite ParseUint_digits_app. pose proof (Z.div_mod n 10 ltac:(lia)). pose proof (Z.mod_pos_bound n 10 ltac:(lia)).
    rewrite IH.
    + cbn [mbind result_bind ParseUint_digits]. rewrite !(proj2 (Z.leb_le _ _)) by lia. cbn [andb].
      rewrite (proj2 (Z.leb_gt _ _)) by lia. f_equal. lia.
    + rewrite Nat2Z.inj_succ, Z.pow_succ_r in Hn by lia.
      split; [apply Z.div_pos; lia|apply Z.div_lt_upper_bound; lia].
    + pose proof (Z.div_le_upper_bound n 10 n ltac:(lia) ltac:(lia)). lia.
Qed.

Lemma decimal_nonempty fuel n : decimal (S fuel) n <> [].
Proof. cbn [decimal]. case_one; [done|]. by destruct (decimal fuel (n / 10)). Qed.

Lemma ParseUint_digits_chars s bits n v :
  ParseUint_digits s bits n = Ok v -> Forall (fun c => 48 <= c <= 57) s.
Proof.
  revert n. induction s as [|c s IH]; intros n; cbn; [by constructor|].
  destruct (_ && _) eqn:E; [|done]. case_one; [done|]. intros H. zbool. constructor; [lia|by eapply IH].
Qed.

Lemma ParseUint_not_in s bits v c : ParseUint s bits = Ok v -> ~ (48 <= c <= 57) -> c ∉ s.
Proof.
  unfold ParseUint. destruct s; [done|]. intros H%ParseUint_digits_chars Hc Hin.
  rewrite Forall_forall in H. by apply Hc, H.
Qed.

Lemma no_bracket {A} (f g : A) s : 91 ∉ s -> match s with 91 :: _ => f | _ => g end = g.
Proof.
  destruct s as [|x s]; [done|]. intros Hx. assert (x <> 91) by set_solver.
  destruct x as [|q|q]; try done. do 7 (try destruct q as [q|q|]; try done).
Qed.

Section Split.
Context (host portStr : bytes) (H1 : 91 ∉ host) (H2 : 93 ∉ host).
Context (H3 : 58 ∉ portStr) (H4 : 91 ∉ portStr) (H5 : 93 ∉ portStr).

Lemma SplitHostPort_plain : SplitHostPort (host ++ 58 :: portStr) =
  if bool_decide (58 ∈ host) then Err (errAddr "too many colons in address") else Ok (host, portStr).
Proof.
  unfold SplitHostPort. rewrite (proj2 (cut_last_spec 58 _ host portStr)) by done.
  rewrite no_bracket by set_solver. case_bool_decide; [done|].
  rewrite !drop_0, !bool_decide_eq_false_2 by set_solver. done.
Qed.

Lemma SplitHostPort_bracket : SplitHostPort (91 :: host ++ 93 :: 58 :: portStr) = Ok (host, portStr).
Proof.
  unfold SplitHostPort.
  rewrite (proj2 (cut_last_spec 58 _ (91 :: host ++ [93]) portStr)) by (cbn; by rewrite <- app_assoc).
  assert (index_byte 93 (91 :: host ++ 93 :: 58 :: portStr) = Some (S (length host))) as ->.
  { unfold index_byte. change (91 :: host ++ 93 :: 58 :: portStr) with ((91 :: host) ++ 93 :: 58 :: portStr).
    rewrite (cut_byte_app 93 (91 :: host) (58 :: portStr)) by set_solver. done. }
  assert (drop (S (length host) + 1) (91 :: host ++ 93 :: 58 :: portStr) = 58 :: portStr) as Ed.
  { replace (91 :: host ++ 93 :: 58 :: portStr) with ((91 :: host ++ [93]) ++ 58 :: portStr)
      by (cbn; by rewrite <- app_assoc).
    apply drop_app_length'. cbn. rewrite length_app. cbn. lia. }
  rewrite Ed. rewrite (bool_decide_eq_false_2 (_ = length (91 :: host ++ 93 :: 58 :: portStr)))
    by (cbn; rewrite length_app; cbn; lia).
  rewrite (bool_decide_eq_true_2 (_ = length (91 :: host ++ [93]))) by (cbn; rewrite length_app; cbn; lia).
  rewrite !bool_decide_eq_false_2 by (cbn; set_solver). f_equal. f_equal. cbn [drop].
  apply take_app_length'. lia.
Qed.
End Split.

(** The target of a CONNECT request. "host:port" with a host free of colons and
    brackets and "[host]:port" with a host free of brackets (an IPv6 literal) are
    split into that host and the decimal port, which has to fit in 16 bits; a
    target without a port, or with colons outside brackets, is refused. *)
Theorem splitHostPort_spec (host portStr : bytes) (port : Z) :
  ParseUint portStr 16 = Ok port -> 91 ∉ host -> 93 ∉ host ->
  u16 port /\
  (58 ∉ host -> splitHostPort (host ++ 58 :: portStr) = Ok (host, port)) /\
  splitHostPort (91 :: host ++ 93 :: 58 :: portStr) = Ok (host, port) /\
  (58 ∈ host -> is_ok (splitHostPort (host ++ 58 :: portStr)) = false) /\
  (58 ∉ host -> is_ok (splitHostPort host) = false).
Proof.
  intros Hp H1 H2. assert (forall c, ~ (48 <= c <= 57) -> c ∉ portStr) as Hn.
  { intros c. by eapply ParseUint_not_in. }
  unfold splitHostPort, parsePort. split; [by eapply ParseUint_width|].
  rewrite SplitHostPort_plain, SplitHostPort_bracket by (done || (apply Hn; lia)).
  split_and!.
  - intros Hc. rewrite bool_decide_eq_true_2, bool_decide_eq_false_2 by set_solver. cbn. by rewrite Hp.
  - rewrite bool_decide_eq_true_2 by set_solver. cbn. by rewrite Hp.
  - intros Hc. by rewrite !bool_decide_eq_true_2 by set_solver.
  - intros Hc. by rewrite bool_decide_eq_false_2.
Qed.

Lemma splitHostPort_spec_witness :
  splitHostPort (str "example.com:443") = Ok (str "example.com", 443) /\
  splitHostPort (str "[::1]:443") = Ok (str "::1", 443).
Proof.
  split.
  - destruct (splitHostPort_spec (str "example.com") (str "443") 443) as (_ & H & _);
      [reflexivity|by_decide|by_decide|]. apply H. by_decide.
  - destruct (splitHostPort_spec (str "::1") (str "443") 443) as (_ & _ & H & _);
      [reflexivity|by_decide|by_decide|]. exact H.
Defined.

(** The target of a forwarded request. The transport dials the host of the URL, at the port
    the URL names or the scheme's own (80, 443), when the host is ASCII and free of colons and
    brackets. *)
Theorem forward_target_spec toASCII (scheme host portStr : bytes) (port : Z) :
  Forall (fun c => c < 128) host -> 58 ∉ host -> 91 ∉ host -> 93 ∉ host ->
  (scheme = str "http" \/ scheme = str "https") ->
  ParseUint portStr 16 = Ok port -> port <> 0 ->
  transport_target (canonicalAddr toASCII scheme (host ++ 58 :: portStr)) = Ok (FromHost host port) /\
  transport_target (canonicalAddr toASCII scheme host)
    = Ok (FromHost host (if eqs scheme (str "http") then 80 else 443)).
Proof.
  intros Hasc H1 H2 H3 Hs Hp H0.
  assert (forall x, x ∉ host -> cut_last x host = None) as Hcut.
  { clear. intros x. induction host as [|c l IH]; [done|]. intros [Hc Hl]%not_elem_of_cons. cbn.
    rewrite IH by done. by destruct (Z.eqb_spec c x). }
  assert (HasPrefix host [91] = false) as Hb.
  { destruct host as [|c l]; [done|]. apply not_elem_of_cons in H2 as [Hc _]. cbn [HasPrefix].
    by rewrite (proj2 (Z.eqb_neq 91 c)). }
  assert (forallb (fun c => c <? 128) host = true) as Ha.
  { apply forallb_forall. intros c Hc%list_elem_of_In. rewrite Forall_forall in Hasc.
    apply Z.ltb_lt. by apply Hasc. }
  assert (forall ps v, ParseUint ps 16 = Ok v -> v <> 0 ->
    transport_target (JoinHostPort host ps) = Ok (FromHost host v)) as G.
  { intros ps v Hps Hv. unfold transport_target, JoinHostPort. rewrite bool_decide_eq_false_2 by done.
    rewrite SplitHostPort_plain, bool_decide_eq_false_2 by (done || (eapply ParseUint_not_in; [exact Hps|lia])).
    cbn. rewrite Hps. by destruct (Z.eqb_spec v 0). }
  unfold canonicalAddr, url_splitHostPort. rewrite Hcut by done.
  rewrite (proj2 (cut_last_spec 58 (host ++ 58 :: portStr) host portStr))
    by (split; [done|eapply ParseUint_not_in; [exact Hp|lia]]).
  assert (forallb (fun c => (48 <=? c) && (c <=? 57)) portStr = true) as ->.
  { apply forallb_forall. intros c Hc%list_elem_of_In. destruct ((48 <=? c) && (c <=? 57)) eqn:E; [done|].
    exfalso. eapply (ParseUint_not_in _ _ _ c Hp); [|done]. apply andb_false_iff in E as [E|E]; zbool; lia. }
  rewrite Hb. cbn [andb]. rewrite Ha. split.
  - destruct portStr as [|c l]; [done|]. by apply G.
  - by destruct Hs as [-> | ->]; apply G.
Qed.

Lemma forward_target_spec_witness :
  transport_target (canonicalAddr (fun _ => None) (str "http") (str "example.com:8080")) = Ok (FromHost (str "example.com") 8080) /\
  transport_target (canonicalAddr (fun _ => None) (str "http") (str "example.com")) = Ok (FromHost (str "example.com") 80).
Proof.
  apply (forward_target_spec (fun _ => None) (str "http") (str "example.com") (str "8080") 8080);
    [by_decide|by_decide|by_decide|by_decide|by left|reflexivity|done].
Defined.

(** ** Closing *)

Section closing.
Context (order : gmap Extension transportEntry -> list (Extension * transportEntry)).
Context (order_ok : forall m, order m ≡ₚ map_to_list m).

(** A transport is the default one, in the pool, or its idle connections were closed. *)
Definition accounted (p : transportPool) (id : Z) : Prop :=
  id = tr_id (tp_default p) \/ (exists e entry, tp_entries p !! e = Some entry /\ tr_id (te_transport entry) = id) \/
  id ∈ tp_idleClosed p.

Lemma oldest_in m k t : oldest (order m) = Some (k, t) -> m !! k = Some t.
Proof.
  intros H. destruct (decide (m = ∅)) as [->|Hm].
  - pose proof (order_ok ∅) as E. rewrite map_to_list_empty in E. apply Permutation_sym, Permutation_nil in E.
    by rewrite E in H.
  - destruct (oldest_spec m _ (order_ok m) Hm) as (k' & t' & E & Hk & _). rewrite E in H. by injection H as <- <-.
Qed.

(** Replacing the pool's entry for [e], the rest of which is [m], and what was closed. *)
Lemma accounted_insert p m e entry clock next closed id :
  (forall k x, tp_entries p !! k = Some x -> k <> e -> m !! k = Some x \/ tr_id (te_transport x) ∈ closed) ->
  (forall x, tp_entries p !! e = Some x -> tr_id (te_transport x) = tr_id (te_transport entry)) ->
  accounted p id ->
  accounted (mkPool (<[e := entry]> m) clock (tp_default p) next (tp_idleClosed p ++ closed)) id.
Proof.
  intros Hm He [H|[(k & x & Hk & <-)|H]]; [by left| |right; right; cbn; apply elem_of_app; by left].
  destruct (decide (k = e)) as [->|Hne].
  - right. left. exists e, entry. cbn. rewrite lookup_insert_eq. split; [done|]. symmetry. by apply He.
  - destruct (Hm _ _ Hk Hne) as [Hin|Hin]; [|right; right; cbn; apply elem_of_app; by right].
    right. left. exists k, x. cbn. by rewrite lookup_insert_ne.
Qed.

Lemma Get_accounted e p : accounted (Get order e p).2 (tr_id (Get order e p).1) /\
  (forall id, accounted p id -> accounted (Get order e p).2 id).
Proof.
  destruct (decide (ext_Type e = ExtNone)) as [Ee|Ee]; [unfold Get; rewrite Ee; split; [by left|done]|].
  assert (forall m entry clock next closed,
    accounted (mkPool (<[e := entry]> m) clock (tp_default p) next closed) (tr_id (te_transport entry))) as Hnew.
  { intros. right. left. exists e, entry. cbn. by rewrite lookup_insert_eq. }
  unfold Get. destruct (ext_Type e); [done|..].
  all: destruct (tp_entries p !! e) as [entry|] eqn:Ep; cbn [fst snd].
  all: try (split; [apply (Hnew (tp_entries p) (mkTEntry (te_transport entry) _))|]; intros id Hid;
    rewrite <- (app_nil_r (tp_idleClosed p)); apply accounted_insert; [by intros; left|cbn; congruence|done]).
  all: destruct (_ <=? _); [destruct (oldest (order (tp_entries p))) as [[k t]|] eqn:Eo|];
    (split; [apply (Hnew _ (mkTEntry (newTransport (tp_next p) e) _))|]; intros id Hid; apply accounted_insert;
      [|by rewrite Ep|done]; intros k' x Hx Hne; try (by left)).
  all: apply oldest_in in Eo; destruct (decide (k' = k)) as [->|Hk]; [right|left; by rewrite lookup_delete_ne];
    rewrite Eo in Hx; injection Hx as ->; by left.
Qed.

Lemma Get_all_accounted es p : let '(ts, p') := Get_all order es p in
  (forall t, t ∈ ts -> accounted p' (tr_id t)) /\ forall id, accounted p id -> accounted p' id.
Proof.
  revert p. induction es as [|e es IH]; intros p; cbn [Get_all]; [split; [by intros t ?%elem_of_nil|done]|].
  destruct (Get_accounted e p) as [H1 H2]. destruct (Get order e p) as [t p1]. cbn [fst snd] in *.
  specialize (IH p1). destruct (Get_all order es p1) as [ts p2]. destruct IH as [H3 H4]. split; [|auto].
  intros t' [->|Hin]%elem_of_cons; auto.
Qed.

(** Closing the handler at shutdown leaves no idle upstream connection behind: every
    transport that served a request has had its idle connections closed, then or when it
    was evicted from the pool. *)
Theorem CloseIdleConnections_complete (es : list Extension) :
  let '(ts, p) := Get_all order es newTransportPool in
  forall t, t ∈ ts -> tr_id t ∈ tp_idleClosed (CloseIdleConnections order p).
Proof.
  pose proof (Get_all_accounted es newTransportPool) as H. destruct (Get_all order es newTransportPool) as [ts p].
  intros t Ht. destruct H as [H _]. unfold CloseIdleConnections, pool_transports. cbn [tp_idleClosed].
  apply elem_of_app. destruct (H t Ht) as [E|[(e & entry & He & E)|E]]; [right; rewrite E; by left| |by left].
  right. cbn. right. rewrite <- E. apply list_elem_of_fmap. exists (te_transport entry). split; [done|].
  apply list_elem_of_fmap. exists (e, entry). split; [done|]. rewrite order_ok. by apply elem_of_map_to_list.
Qed.
End closing.
