(* ===== verification/HttpConn.v ===== *)
(** * A connection of the HTTP proxy, byte by byte

    Models the request loop of [HttpServer.accept] ([internal/server/http/server.go]) over the
    bytes that a client sends, on top of the handler of [HttpProxy]: which bytes become
    requests, which are request bodies, and which go through a tunnel. [http.ReadRequest]
    is a parameter. A request's body stays in the connection's reader until the transport
    that forwards the request reads it; [net/http] documents that this may go on after
    [RoundTrip] has returned. *)

From Stdlib Require Import ZArith Lia.
From stdpp Require Import base tactics numbers list strings gmap relations.
From S2P Require Import Prelude.
From S2P Require Import Netip.
From S2P Require Import Ext.
From S2P Require Import Config.
From S2P Require Import Connector.
From S2P Require Import Tunnel.
From S2P Require Import HttpProxy.

(** ** Model *)

(** What [http.ReadRequest] makes of the bytes that are still to be read: an error (the
    end of the stream is one), or a request, with the length of its head, which is
    consumed, and of its encoded body, which is not. *)
Inductive read_request :=
  | NoRequest (e : error)
  | ARequest (req : http_request) (head body : nat).

(** What the environment does in one round of the loop. *)
Record round := mkRound {
  rn_env : http_env;
  rn_ahead : nat;     (* how many bytes behind the head the reader has buffered *)
  rn_read : nat       (* how many of them the transport has read when the loop goes on *)
}.

Definition with_buffered (b : bytes) (ev : http_env) : http_env :=
  mkHttpEnv (he_now ev) (he_connect ev) b (he_copyN ev) (he_order ev) (he_roundTrip ev) (he_respWrite ev).

Inductive conn_effect :=
  | ReadDeadline (d : option Z)
  | Did (e : http_effect).

Record served := mkServed {
  sd_requests : list http_request;    (* handed to Proxy, in order *)
  sd_effects : list conn_effect;
  sd_left : bytes;                    (* not taken out of the reader by the loop *)
  sd_pool : transportPool;
  sd_open : bool                      (* the loop is still reading *)
}.

Section connection.
Context (ReadRequest : bytes -> read_request).
Context (h : Handler) (timeout : Z).

(** What a round leaves, before the rest of the run. *)
Definition prepend_round (req : http_request) (l : list http_effect) (s : served) : served :=
  mkServed (req :: sd_requests s)
    (ReadDeadline (Some timeout) :: ReadDeadline None :: (Did <$> l) ++ sd_effects s)
    (sd_left s) (sd_pool s) (sd_open s).

Definition close_stream (stream : bytes) (p : transportPool) : served :=
  mkServed [] [Did HCloseClient] stream p false.

(** The loop of [accept]; it runs on as long as there are [rounds]. *)
Fixpoint serve_conn (rounds : list round) (stream : bytes) (p : transportPool) : served :=
  match rounds with
  | [] => mkServed [] [] stream p true
  | rn :: rounds =>
      match ReadRequest stream with
      | NoRequest _ =>
          mkServed [] [ReadDeadline (Some timeout); Did HCloseClient] stream p false
      | ARequest req head _ =>
          let rest := drop head stream in
          let '((keepAlive, err, l), p) :=
            http_Proxy (with_buffered (take (rn_ahead rn) rest) (rn_env rn)) h req p in
          match err with
          | Some _ => prepend_round req l (close_stream rest p)
          | None =>
              if keepAlive then prepend_round req l (serve_conn rounds (drop (rn_read rn) rest) p)
              else prepend_round req l (close_stream rest p)
          end
      end
  end.

(** ** Framing *)

(** A complete message: whatever follows it, it is parsed as its request. *)
Record message := mkMessage { ms_req : http_request; ms_head : bytes; ms_body : bytes }.

Definition well_framed (m : message) : Prop :=
  forall t, ReadRequest (ms_head m ++ ms_body m ++ t) =
            ARequest (ms_req m) (length (ms_head m)) (length (ms_body m)).

Definition on_wire (ms : list message) : bytes := ms ≫= (fun m => ms_head m ++ ms_body m).

(** The transport is done with the body of each request when the next one is read. *)
Definition settled (rounds : list round) (ms : list message) : Prop :=
  Forall2 (fun rn m => rn_read rn = length (ms_body m)) rounds ms.

(** The rounds as the handler sees them. *)
Fixpoint round_envs (rounds : list round) (ms : list message) (t : bytes) : list (http_env * http_request) :=
  match rounds, ms with
  | rn :: rounds, m :: ms =>
      (with_buffered (take (rn_ahead rn) (ms_body m ++ on_wire ms ++ t)) (rn_env rn), ms_req m)
        :: round_envs rounds ms t
  | _, _ => []
  end.

Definition did (l : list conn_effect) : list http_effect :=
  omap (fun e => match e with Did x => Some x | _ => None end) l.

Lemma did_app a b : did (a ++ b) = did a ++ did b.
Proof. apply omap_app. Qed.
Lemma did_Did l : did (Did <$> l) = l.
Proof. induction l as [|x l IH]; [done|]. cbn. by f_equal. Qed.

Lemma read_message m ms t : well_framed m ->
  ReadRequest (on_wire (m :: ms) ++ t) = ARequest (ms_req m) (length (ms_head m)) (length (ms_body m)) /\
  drop (length (ms_head m)) (on_wire (m :: ms) ++ t) = ms_body m ++ on_wire ms ++ t.
Proof.
  intros Hm. unfold on_wire. cbn [mbind list_bind]. rewrite <- !app_assoc. split; [apply Hm|].
  by rewrite drop_app_length.
Qed.

Lemma did_round req l s : did (sd_effects (prepend_round req l s)) = l ++ did (sd_effects s).
Proof. cbn. by rewrite did_app, did_Did. Qed.

(** C20: A connection refines its requests. When the client sends well-framed messages and the
    transport is done with the body of each by the time the next request is read, the
    loop hands the handler exactly the client's requests, in order and none skipped or
    made up from a body, until one of them ends the connection; it does to the network and
    the pool what [http_serve] does for those requests, and while it is still open it has
    consumed exactly the messages. *)
Theorem http_connection_refines (rounds : list round) (ms : list message) (t : bytes) (p : transportPool) :
  Forall well_framed ms -> settled rounds ms ->
  let s := serve_conn rounds (on_wire ms ++ t) p in
  let '(l, p') := http_serve h (round_envs rounds ms t) p in
  sd_requests s `prefix_of` (ms_req <$> ms) /\
  did (sd_effects s) ++ (if sd_open s then [HCloseClient] else []) = l /\ sd_pool s = p' /\
  (sd_open s = true -> sd_left s = t /\ sd_requests s = ms_req <$> ms).
Proof.
  intros Hf Hs. revert p. induction Hs as [|rn m rounds ms Hr Hs IH]; intros p; [done|].
  apply Forall_cons in Hf as [Hm Hf]. cbn [serve_conn round_envs http_serve].
  destruct (read_message m ms t Hm) as [E1 E2]. rewrite E1, E2.
  destruct (http_Proxy _ h (ms_req m) p) as [[[keepAlive err] l] p'].
  assert (sd_requests (prepend_round (ms_req m) l (close_stream (ms_body m ++ on_wire ms ++ t) p'))
            `prefix_of` (ms_req <$> m :: ms)) as Hpre.
  { cbn. apply prefix_cons, prefix_nil. }
  destruct err as [e|]; [|destruct keepAlive].
  - split_and!; [done|by rewrite did_round, app_nil_r|done|done].
  - rewrite Hr, drop_app_length. specialize (IH Hf p').
    destruct (http_serve h (round_envs rounds ms t) p') as [l' p''].
    destruct IH as (H1 & H2 & H3 & H4). split_and!; [by apply prefix_cons| |done|].
    + rewrite did_round, <- app_assoc. cbn [sd_open prepend_round]. by rewrite H2.
    + cbn [sd_open prepend_round sd_left sd_requests]. intros Ho. destruct (H4 Ho) as [-> ->]. done.
  - split_and!; [done|by rewrite did_round, app_nil_r|done|done].
Qed.

(** A body that the transport has not read when the loop goes on is read as the next
    request: any complete message in the body of an earlier one is handed to the handler. *)
Theorem unread_body_is_proxied (m inner : message) (rn rn' : round) (rounds : list round) (t : bytes)
    (l : list http_effect) (p p' : transportPool) :
  well_framed m -> well_framed inner -> ms_body m = ms_head inner ++ ms_body inner ->
  http_Proxy (with_buffered (take (rn_ahead rn) (ms_body m ++ t)) (rn_env rn)) h (ms_req m) p
    = ((true, None, l), p') ->
  rn_read rn = 0%nat ->
  exists later, sd_requests (serve_conn (rn :: rn' :: rounds) (ms_head m ++ ms_body m ++ t) p)
    = ms_req m :: ms_req inner :: later.
Proof.
  intros Hm Hi Hb Hp Hr. cbn [serve_conn]. rewrite (Hm t), drop_app_length, Hp, Hr, drop_0.
  rewrite Hb, <- app_assoc, (Hi t). destruct (http_Proxy _ h (ms_req inner) p') as [[[k err] l'] p''].
  destruct err; [|destruct k]; by eexists.
Qed.

(** ** CONNECT *)




End connection.

(** ** Runs *)

(** A toy wire format: a request is its method byte, the length of its body, and the body. *)
Definition toy_request (method : bytes) : http_request :=
  mkHttpRequest method (str "h:80") (str "http") [] ∅ true false.
Definition toy_ReadRequest (s : bytes) : read_request :=
  match s with
  | m :: n :: rest =>
      if len rest <? n then NoRequest EOF
      else ARequest (toy_request (if m =? 67 then MethodConnect else [m])) 2 (Z.to_nat n)
  | _ => NoRequest EOF
  end.

Definition toy_env : http_env :=
  mkHttpEnv 0 (fun _ => Ok 7) [] None map_to_list (Ok (mkHttpResponse 200 ∅ true false)) None.
Definition toy_handler : Handler := mkHandler NoAuth (New None None None 10 None None 0).
Definition toy_message (m : Z) (body : bytes) : message :=
  mkMessage (toy_request (if m =? 67 then MethodConnect else [m])) [m; len body] body.

Lemma toy_framed m body : well_framed toy_ReadRequest (toy_message m body).
Proof.
  intros t. unfold toy_ReadRequest, toy_message. cbn [ms_head ms_body ms_req app].
  rewrite len_app. pose proof (len_nonneg t). destruct (Z.ltb_spec (len body + len t) (len body)); [lia|].
  cbn. do 2 f_equal. unfold len. lia.
Qed.

Lemma http_connection_refines_witness :
  let ms := [toy_message 80 [71; 0]; toy_message 71 []] in
  let rounds := [mkRound toy_env 4 2; mkRound toy_env 0 0] in
  let s := serve_conn toy_ReadRequest toy_handler 10 rounds (on_wire ms ++ [1]) newTransportPool in
  on_wire ms = [80; 2; 71; 0; 71; 0] /\ sd_open s = true /\ sd_left s = [1] /\ sd_requests s = ms_req <$> ms.
Proof.
  intros ms rounds s. split; [reflexivity|].
  pose proof (http_connection_refines toy_ReadRequest toy_handler 10 rounds ms [1] newTransportPool) as H.
  specialize (H ltac:(repeat constructor; apply toy_framed) ltac:(repeat constructor)). fold s in H.
  destruct (http_serve _ _ _) as [l p']. destruct H as (_ & _ & _ & H).
  assert (sd_open s = true) as Ho by (vm_compute; reflexivity). split; [exact Ho|exact (H Ho)].
Defined.

(** The same stream, with a transport that has not read the body [[71; 0]] when it answers:
    the body is proxied. *)
Lemma unread_body_is_proxied_witness :
  exists later, sd_requests (serve_conn toy_ReadRequest toy_handler 10
    [mkRound toy_env 4 0; mkRound toy_env 0 0] [80; 2; 71; 0; 71; 0; 1] newTransportPool)
    = toy_request [80] :: toy_request [71] :: later.
Proof.
  eapply (unread_body_is_proxied toy_ReadRequest toy_handler 10 (toy_message 80 [71; 0]) (toy_message 71 [])
    (mkRound toy_env 4 0) (mkRound toy_env 0 0) [] [71; 0; 1]); [apply toy_framed..|reflexivity|reflexivity|reflexivity].
Defined.

