(* ===== verification/Reactor.v ===== *)
(** * The UDP reactor ([internal/server/socks/udp_reactor_linux.go])

    The epoll loop that serves the sockets of all associations, as a step relation:
    the goroutines that register, deregister and close sockets, the workers with
    their batches of events, the kernel's interest list, and the shutdown. A step is
    what runs between two synchronisation points (a critical section, a system call,
    a lock). The handler is [serveSocket]'s: it pumps the socket once, blocking until
    a datagram is there, and re-arms the descriptor unless the pump gave up. *)

From Stdlib Require Import ZArith Lia.
From stdpp Require Import base tactics numbers functions gmap sets relations list.
From S2P Require Import Prelude.

(** ** State *)

(** Who holds the lock of a registration. *)
Inductive locker := LWorker (w : nat) | LOwner (i : nat).

(** [reactorReg], with the descriptor its handler serves. *)
Record reactorReg := mkReg { rg_fd : Z; rg_dead : bool; rg_mu : option locker }.

(** How far the goroutine that owns a socket has come with it. [found] is the
    registration that [deregister] read from the map. *)
Inductive owner :=
  | NotYet
  | RegPut                          (* in register, before EpollCtl *)
  | RegFailed                       (* EpollCtl failed, before the delete *)
  | Fallback                        (* register returned an error: a blocking goroutine reads *)
  | FallbackClosed
  | RegLive                         (* register returned nil *)
  | DeregMapped (found : option nat)  (* before EPOLL_CTL_DEL *)
  | DeregDeleted (found : option nat) (* before reg.mu.Lock *)
  | DeregLocked (found : nat)         (* dead is set, before Unlock *)
  | DeregDone                       (* deregister returned *)
  | SockClosed.

(** A worker: in EpollWait, collecting events; going through its events ([None] is
    the eventfd); with a registration read from the map; holding its lock; in its
    handler; in [rearm]; before the unlock; returned. *)
Inductive worker :=
  | WWaiting (evs : list (option Z))
  | WBatch (evs : list (option Z))
  | WGot (id : nat) (evs : list (option Z))
  | WHolding (id : nat) (evs : list (option Z))
  | WRunning (id : nat) (evs : list (option Z))
  | WRearm (id : nat) (evs : list (option Z))
  | WUnlocking (id : nat) (evs : list (option Z))
  | WExited.

Record udpReactor := mkReactor {
  r_regs : gmap Z nat;              (* the map, to registrations by number *)
  r_reg : nat -> reactorReg;
  r_owner : nat -> owner;
  r_gaveup : nat -> bool;           (* the handler returned without re-arming *)
  r_next : nat;
  r_epoll : option (gmap Z bool);   (* interest list: descriptor, armed; None once closed *)
  r_data : gset Z;                  (* sockets with a datagram queued *)
  r_worker : nat -> worker;
  r_closed : bool;
  r_woken : bool                    (* the eventfd was written *)
}.

Definition newUDPReactor (workers : nat) : udpReactor :=
  let workers := if (workers <? 1)%nat then 1%nat else workers in
  {| r_regs := ∅; r_reg := fun _ => mkReg 0 false None; r_owner := fun _ => NotYet;
     r_gaveup := fun _ => false; r_next := 0; r_epoll := Some ∅; r_data := ∅;
     r_worker := fun w => if (w <? workers)%nat then WWaiting [] else WExited;
     r_closed := false; r_woken := false |}.

(** [sharedReactor] of [udp_runtime.go]: created by the first call ([sync.Once]); a
    failed creation ([created]) is not tried again. *)
Record shared := mkShared { so_done : bool; so_reactor : option udpReactor }.

Definition reactor_workers (gomaxprocs : Z) : Z :=
  let workers := if gomaxprocs <? 2 then 2 else gomaxprocs in
  if 16 <? workers then 16 else workers.

Definition sharedReactor (gomaxprocs : Z) (created : option error) (s : shared) : option udpReactor * shared :=
  let s :=
    if so_done s then s
    else mkShared true
           (match created with
            | Some _ => None
            | None => Some (newUDPReactor (Z.to_nat (reactor_workers gomaxprocs)))
            end) in
  (so_reactor s, s).

(** ** Updates *)

Definition upd {A} (i : nat) (x : A) (f : nat -> A) : nat -> A := fun j => if decide (i = j) then x else f j.

Definition with_regs (m : gmap Z nat) (r : udpReactor) : udpReactor :=
  mkReactor m (r_reg r) (r_owner r) (r_gaveup r) (r_next r) (r_epoll r) (r_data r) (r_worker r)
    (r_closed r) (r_woken r).
Definition with_reg (i : nat) (g : reactorReg) (r : udpReactor) : udpReactor :=
  mkReactor (r_regs r) (upd i g (r_reg r)) (r_owner r) (r_gaveup r) (r_next r) (r_epoll r) (r_data r)
    (r_worker r) (r_closed r) (r_woken r).
Definition with_owner (i : nat) (o : owner) (r : udpReactor) : udpReactor :=
  mkReactor (r_regs r) (r_reg r) (upd i o (r_owner r)) (r_gaveup r) (r_next r) (r_epoll r) (r_data r)
    (r_worker r) (r_closed r) (r_woken r).
Definition with_gaveup (i : nat) (r : udpReactor) : udpReactor :=
  mkReactor (r_regs r) (r_reg r) (r_owner r) (upd i true (r_gaveup r)) (r_next r) (r_epoll r) (r_data r)
    (r_worker r) (r_closed r) (r_woken r).
Definition with_epoll (e : option (gmap Z bool)) (r : udpReactor) : udpReactor :=
  mkReactor (r_regs r) (r_reg r) (r_owner r) (r_gaveup r) (r_next r) e (r_data r) (r_worker r)
    (r_closed r) (r_woken r).
Definition with_data (d : gset Z) (r : udpReactor) : udpReactor :=
  mkReactor (r_regs r) (r_reg r) (r_owner r) (r_gaveup r) (r_next r) (r_epoll r) d (r_worker r)
    (r_closed r) (r_woken r).
Definition with_worker (w : nat) (x : worker) (r : udpReactor) : udpReactor :=
  mkReactor (r_regs r) (r_reg r) (r_owner r) (r_gaveup r) (r_next r) (r_epoll r) (r_data r)
    (upd w x (r_worker r)) (r_closed r) (r_woken r).
Definition with_flags (c k : bool) (r : udpReactor) : udpReactor :=
  mkReactor (r_regs r) (r_reg r) (r_owner r) (r_gaveup r) (r_next r) (r_epoll r) (r_data r) (r_worker r) c k.

Definition set_mu (m : option locker) (g : reactorReg) : reactorReg := mkReg (rg_fd g) (rg_dead g) m.
Definition set_dead (g : reactorReg) : reactorReg := mkReg (rg_fd g) true (rg_mu g).

(** Whether the socket of a registration has its descriptor. *)
Definition sock_open (o : owner) : bool :=
  match o with NotYet | SockClosed | FallbackClosed => false | _ => true end.

Definition fd_of (r : udpReactor) (i : nat) : Z := rg_fd (r_reg r i).

(** ** The owners *)

(** [register]: a socket has a descriptor that no open socket has. *)
Definition register_put (fd : Z) (r : udpReactor) : udpReactor :=
  let i := r_next r in
  mkReactor (<[fd := i]> (r_regs r)) (upd i (mkReg fd false None) (r_reg r)) (upd i RegPut (r_owner r))
    (r_gaveup r) (S i) (r_epoll r) (r_data r ∖ {[fd]}) (r_worker r) (r_closed r) (r_woken r).

Inductive owner_step : udpReactor -> udpReactor -> Prop :=
  | os_put r fd :
      (forall i, sock_open (r_owner r i) = true -> fd_of r i <> fd) ->
      owner_step r (register_put fd r)
  | os_add r i ep :
      r_owner r i = RegPut -> r_epoll r = Some ep ->
      owner_step r (with_owner i RegLive (with_epoll (Some (<[fd_of r i := true]> ep)) r))
  | os_add_error r i :
      r_owner r i = RegPut -> owner_step r (with_owner i RegFailed r)
  | os_add_undo r i :
      r_owner r i = RegFailed ->
      owner_step r (with_owner i Fallback (with_regs (delete (fd_of r i) (r_regs r)) r))
  | os_fallback_close r i :
      r_owner r i = Fallback ->
      owner_step r (with_owner i FallbackClosed (with_data (r_data r ∖ {[fd_of r i]}) r))
  (* deregister *)
  | os_dereg r i :
      r_owner r i = RegLive ->
      owner_step r (with_owner i (DeregMapped (r_regs r !! fd_of r i))
                      (with_regs (delete (fd_of r i) (r_regs r)) r))
  | os_del r i found :
      r_owner r i = DeregMapped found ->
      owner_step r (with_owner i (DeregDeleted found) (with_epoll (delete (fd_of r i) <$> r_epoll r) r))
  | os_lock r i j :
      r_owner r i = DeregDeleted (Some j) -> rg_mu (r_reg r j) = None ->
      owner_step r (with_owner i (DeregLocked j)
                      (with_reg j (set_dead (set_mu (Some (LOwner i)) (r_reg r j))) r))
  | os_unlock r i j :
      r_owner r i = DeregLocked j ->
      owner_step r (with_owner i DeregDone (with_reg j (set_mu None (r_reg r j)) r))
  | os_nothing r i :
      r_owner r i = DeregDeleted None -> owner_step r (with_owner i DeregDone r)
  (* handleUDP's teardown closes the socket; the kernel forgets the descriptor *)
  | os_close r i :
      r_owner r i = DeregDone ->
      owner_step r (with_owner i SockClosed
        (with_epoll (delete (fd_of r i) <$> r_epoll r) (with_data (r_data r ∖ {[fd_of r i]}) r))).

(** ** The workers: [loop] *)

Inductive worker_step (w : nat) : udpReactor -> udpReactor -> Prop :=
  (* EpollWait takes an armed, readable descriptor and disarms it (EPOLLONESHOT) *)
  | ws_event r evs fd ep :
      r_worker r w = WWaiting evs -> len evs < 128 -> r_epoll r = Some ep -> ep !! fd = Some true ->
      fd ∈ r_data r ->
      worker_step w r (with_worker w (WWaiting (evs ++ [Some fd])) (with_epoll (Some (<[fd := false]> ep)) r))
  | ws_eventfd r evs :
      r_worker r w = WWaiting evs -> len evs < 128 -> r_woken r = true ->
      worker_step w r (with_worker w (WWaiting (evs ++ [None])) r)
  | ws_return r evs :
      r_worker r w = WWaiting evs -> evs <> [] ->
      worker_step w r (with_worker w (WBatch evs) r)
  | ws_wake_exit r evs :
      r_worker r w = WBatch (None :: evs) -> r_closed r = true ->
      worker_step w r (with_worker w WExited r)
  | ws_wake_continue r evs :
      r_worker r w = WBatch (None :: evs) -> r_closed r = false ->
      worker_step w r (with_worker w (WBatch evs) r)
  | ws_unknown r fd evs :
      r_worker r w = WBatch (Some fd :: evs) -> r_regs r !! fd = None ->
      worker_step w r (with_worker w (WBatch evs) r)
  | ws_lookup r fd evs i :
      r_worker r w = WBatch (Some fd :: evs) -> r_regs r !! fd = Some i ->
      worker_step w r (with_worker w (WGot i evs) r)
  | ws_next r :
      r_worker r w = WBatch [] -> worker_step w r (with_worker w (WWaiting []) r)
  | ws_lock r i evs :
      r_worker r w = WGot i evs -> rg_mu (r_reg r i) = None ->
      worker_step w r (with_worker w (WHolding i evs)
        (with_reg i (set_mu (Some (LWorker w)) (r_reg r i)) r))
  | ws_dead r i evs :
      r_worker r w = WHolding i evs -> rg_dead (r_reg r i) = true ->
      worker_step w r (with_worker w (WUnlocking i evs) r)
  | ws_run r i evs :
      r_worker r w = WHolding i evs -> rg_dead (r_reg r i) = false ->
      worker_step w r (with_worker w (WRunning i evs) r)
  (* the pump blocks until the socket has a datagram; it may take them all or not *)
  | ws_pump r i evs d :
      r_worker r w = WRunning i evs -> fd_of r i ∈ r_data r ->
      d = r_data r \/ d = r_data r ∖ {[fd_of r i]} ->
      worker_step w r (with_worker w (WRearm i evs) (with_data d r))
  | ws_pump_error r i evs :
      r_worker r w = WRunning i evs -> fd_of r i ∈ r_data r ->
      worker_step w r (with_worker w (WUnlocking i evs) (with_gaveup i r))
  (* EPOLL_CTL_MOD, an error for a descriptor that is not there *)
  | ws_rearm r i evs :
      r_worker r w = WRearm i evs ->
      worker_step w r (with_worker w (WUnlocking i evs)
        (with_epoll (alter (fun _ => true) (fd_of r i) <$> r_epoll r) r))
  | ws_unlock r i evs :
      r_worker r w = WUnlocking i evs ->
      worker_step w r (with_worker w (WBatch evs) (with_reg i (set_mu None (r_reg r i)) r))
  (* EpollWait fails with another error than EINTR: the worker returns *)
  | ws_wait_error r :
      r_worker r w = WWaiting [] -> worker_step w r (with_worker w WExited r).

(** ** Shutdown and the network *)

Inductive reactor_step : udpReactor -> udpReactor -> Prop :=
  | rs_owner r r' : owner_step r r' -> reactor_step r r'
  | rs_worker w r r' : worker_step w r r' -> reactor_step r r'
  (* close: the swap, the write to the eventfd, and after the workers the closes *)
  | rs_close r : r_closed r = false -> reactor_step r (with_flags true (r_woken r) r)
  | rs_wake r : r_closed r = true -> r_woken r = false -> reactor_step r (with_flags true true r)
  | rs_closed r :
      r_closed r = true -> r_woken r = true -> (forall w, r_worker r w = WExited) ->
      reactor_step r (with_epoll None r)
  (* a datagram arrives *)
  | rs_arrive r i :
      sock_open (r_owner r i) = true -> reactor_step r (with_data (r_data r ∪ {[fd_of r i]}) r).

Definition reactor_reachable (n : nat) : udpReactor -> Prop := rtc reactor_step (newUDPReactor n).

(** ** Who owns a descriptor *)

Ltac rsimp :=
  unfold with_regs, with_reg, with_owner, with_gaveup, with_epoll, with_data, with_worker, with_flags,
    register_put, fd_of in *;
  cbn [r_regs r_reg r_owner r_gaveup r_next r_epoll r_data r_worker r_closed r_woken] in *.

(** Case analysis on the keys of function updates. *)
Ltac fsimp :=
  rsimp; unfold upd in *; repeat case_decide; subst; cbn [rg_fd rg_dead rg_mu set_mu set_dead] in *.

Definition in_map (o : owner) : bool :=
  match o with RegPut | RegFailed | RegLive => true | _ => false end.

Record own_inv (r : udpReactor) : Prop := {
  oi_uniq : forall i j, sock_open (r_owner r i) = true -> sock_open (r_owner r j) = true ->
    fd_of r i = fd_of r j -> i = j;
  oi_next : forall i, (r_next r <= i)%nat -> r_owner r i = NotYet;
  oi_map : forall fd i, r_regs r !! fd = Some i -> fd_of r i = fd /\ in_map (r_owner r i) = true;
  oi_map' : forall i, in_map (r_owner r i) = true -> r_regs r !! fd_of r i = Some i;
  oi_found : forall i,
    match r_owner r i with
    | DeregMapped f | DeregDeleted f => f = Some i
    | DeregLocked j => j = i
    | _ => True
    end
}.

Lemma in_map_open o : in_map o = true -> sock_open o = true.
Proof. by destruct o. Qed.

(** The descriptors, owners and map are what [own_inv] depends on. *)
Lemma own_inv_ext r r' :
  own_inv r -> (forall i, fd_of r' i = fd_of r i) -> r_owner r' = r_owner r -> r_regs r' = r_regs r ->
  r_next r' = r_next r -> own_inv r'.
Proof.
  intros [H1 H2 H3 H4 H5] Hf Ho Hm Hn. split.
  - intros i j. rewrite Ho, !Hf. apply H1.
  - intros i. rewrite Ho, Hn. apply H2.
  - intros fd i. rewrite Ho, Hm, Hf. apply H3.
  - intros i. rewrite Ho, Hm, Hf. apply H4.
  - intros i. rewrite Ho. apply H5.
Qed.

(** A change of one owner's state that does not open a descriptor: [m] is the new
    map. *)
Lemma own_inv_owner r i o m e d :
  own_inv r -> (sock_open o = true -> sock_open (r_owner r i) = true) ->
  r_owner r i <> NotYet ->
  (in_map o = true -> in_map (r_owner r i) = true /\ m = r_regs r) ->
  (in_map o = false -> m = r_regs r /\ in_map (r_owner r i) = false \/
     m = delete (fd_of r i) (r_regs r) /\ in_map (r_owner r i) = true) ->
  match o with
  | DeregMapped f | DeregDeleted f => f = Some i
  | DeregLocked j => j = i
  | _ => True
  end ->
  own_inv (with_owner i o (with_regs m (with_epoll e (with_data d r)))).
Proof.
  intros [H1 H2 H3 H4 H5] Ho Hny Hin Hout Hf. split.
  - intros j k. fsimp; intros; try done; apply H1; auto.
  - intros j. fsimp; intros Hj; [exfalso; apply Hny, H2, Hj|by apply H2].
  - intros fd j. fsimp.
    + destruct (in_map o) eqn:E; [destruct Hin as [Hi ->]; [done|]; intros Hj; split; [apply (H3 _ _ Hj)|done]|].
      destruct Hout as [[-> Hi]|[-> Hi]]; [done|intros Hj; apply H3 in Hj as [_ Hj]; congruence|].
      intros [Hne Hj]%lookup_delete_Some. apply H3 in Hj as [Hj _]. congruence.
    + intros Hj. assert (r_regs r !! fd = Some j) as Hj'.
      { destruct (in_map o) eqn:E; [destruct Hin as [_ ->]; done|].
        destruct Hout as [[-> _]|[-> _]]; [done|done|]. by apply lookup_delete_Some in Hj as [_ ?]. }
      apply (H3 _ _ Hj').
  - intros j. fsimp.
    + intros Hi. destruct (Hin Hi) as [Hi' ->]. by apply H4.
    + intros Hj. destruct (in_map o) eqn:E; [destruct Hin as [_ ->]; [done|]; by apply H4|].
      destruct Hout as [[-> _]|[-> Hi]]; [done|by apply H4|].
      apply lookup_delete_Some. split; [|by apply H4]. intros E2.
      match goal with H : i <> j |- _ => apply H end. apply H1; auto using in_map_open.
  - intros j. fsimp; [done|apply H5].
Qed.

Lemma own_inv_reg r i g : own_inv r -> rg_fd g = fd_of r i -> own_inv (with_reg i g r).
Proof.
  intros Hi Hg. eapply own_inv_ext; [exact Hi| |done..]. intros j. fsimp; done.
Qed.

Lemma own_inv_put r fd :
  own_inv r -> (forall i, sock_open (r_owner r i) = true -> fd_of r i <> fd) -> own_inv (register_put fd r).
Proof.
  intros [H1 H2 H3 H4 H5] Hfd. pose proof (H2 _ (Nat.le_refl (r_next r))) as Hn. split.
  - intros i j. fsimp; intros; try done; [exfalso; by eapply Hfd..|by apply H1].
  - intros i. fsimp; intros; [lia|apply H2; lia].
  - intros fd' i. destruct (decide (fd' = fd)) as [->|Hne].
    + rsimp. rewrite lookup_insert_eq. intros [= <-]. fsimp; done.
    + rsimp. rewrite lookup_insert_ne by done. intros Hi. apply H3 in Hi as [Hi1 Hi2]. fsimp; [|done].
      by rewrite Hn in Hi2.
  - intros i. fsimp; [intros _; apply lookup_insert_eq|]. intros Hi.
    rewrite lookup_insert_ne; [by apply H4|]. intros E. eapply Hfd; [|symmetry; exact E]. by apply in_map_open.
  - intros i. fsimp; [done|apply H5].
Qed.

Ltac own_case H := rewrite ?H in *; cbn [in_map sock_open] in *; intuition (congruence || discriminate || eauto).

Lemma own_inv_owner_step r r' : own_inv r -> owner_step r r' -> own_inv r'.
Proof.
  intros Hi Hs. pose proof Hi as [H1 H2 H3 H4 H5]. destruct Hs as
    [r fd Hfd|r i ep Ho He|r i Ho|r i Ho|r i Ho|r i Ho|r i f Ho|r i j Ho Hm|r i j Ho|r i Ho|r i Ho].
  - by apply own_inv_put.
  - apply (own_inv_owner r i RegLive (r_regs r) _ (r_data r)); own_case Ho.
  - apply (own_inv_owner r i RegFailed (r_regs r) (r_epoll r) (r_data r)); own_case Ho.
  - apply (own_inv_owner r i Fallback _ (r_epoll r) (r_data r)); own_case Ho.
  - apply (own_inv_owner r i FallbackClosed (r_regs r) (r_epoll r) _); own_case Ho.
  - apply (own_inv_owner r i (DeregMapped _) _ (r_epoll r) (r_data r)); try own_case Ho.
    apply H4. by rewrite Ho.
  - specialize (H5 i). rewrite Ho in H5. apply (own_inv_owner r i (DeregDeleted f) (r_regs r) _ (r_data r)); own_case Ho.
  - specialize (H5 i). rewrite Ho in H5. injection H5 as ->.
    assert (own_inv (with_reg i (set_dead (set_mu (Some (LOwner i)) (r_reg r i))) r)) as Hr by by apply own_inv_reg.
    apply (own_inv_owner _ i (DeregLocked i) (r_regs r) (r_epoll r) (r_data r) Hr); cbn [r_owner with_reg]; own_case Ho.
  - assert (own_inv (with_reg j (set_mu None (r_reg r j)) r)) as Hr by by apply own_inv_reg.
    apply (own_inv_owner _ i DeregDone (r_regs r) (r_epoll r) (r_data r) Hr); cbn [r_owner with_reg]; own_case Ho.
  - apply (own_inv_owner r i DeregDone (r_regs r) (r_epoll r) (r_data r)); own_case Ho.
  - apply (own_inv_owner r i SockClosed (r_regs r) (delete (fd_of r i) <$> r_epoll r) (r_data r ∖ {[fd_of r i]})); own_case Ho.
Qed.

Lemma own_inv_worker_step w r r' : own_inv r -> worker_step w r r' -> own_inv r'.
Proof.
  intros Hi Hs. destruct Hs; (eapply own_inv_ext; [exact Hi| |done..]); intros j; fsimp; done.
Qed.

Lemma own_inv_step r r' : own_inv r -> reactor_step r r' -> own_inv r'.
Proof.
  intros Hi Hs. destruct Hs; eauto using own_inv_owner_step, own_inv_worker_step;
    (eapply own_inv_ext; [exact Hi|done..]).
Qed.

(** ** Locks *)

(** The registration whose lock a worker holds. *)
Definition holds_lock (x : worker) : option nat :=
  match x with
  | WHolding i _ | WRunning i _ | WRearm i _ | WUnlocking i _ => Some i
  | _ => None
  end.
Definition refers (x : worker) : option nat :=
  match x with WGot i _ => Some i | _ => holds_lock x end.
Definition in_handler (x : worker) : option nat :=
  match x with WRunning i _ | WRearm i _ => Some i | _ => None end.

Definition retired (o : owner) : bool :=
  match o with DeregLocked _ | DeregDone | SockClosed => true | _ => false end.

Record lock_inv (r : udpReactor) : Prop := {
  li_worker : forall i w, rg_mu (r_reg r i) = Some (LWorker w) <-> holds_lock (r_worker r w) = Some i;
  li_owner : forall i j, rg_mu (r_reg r i) = Some (LOwner j) <-> j = i /\ r_owner r i = DeregLocked i;
  li_dead : forall i, rg_dead (r_reg r i) = true <-> retired (r_owner r i) = true;
  li_handler : forall w i, in_handler (r_worker r w) = Some i -> rg_dead (r_reg r i) = false;
  li_fresh : forall w i, refers (r_worker r w) = Some i -> (i < r_next r)%nat
}.

Lemma holds_refers x i : holds_lock x = Some i -> refers x = Some i.
Proof. by destruct x. Qed.

(** The state that [lock_inv] depends on. *)
Lemma lock_inv_ext r r' :
  lock_inv r ->
  (forall i, rg_mu (r_reg r' i) = rg_mu (r_reg r i)) -> (forall i, rg_dead (r_reg r' i) = rg_dead (r_reg r i)) ->
  (forall w, holds_lock (r_worker r' w) = holds_lock (r_worker r w)) ->
  (forall w i, in_handler (r_worker r' w) = Some i ->
     in_handler (r_worker r w) = Some i \/ rg_dead (r_reg r i) = false) ->
  (forall i, r_owner r' i = DeregLocked i <-> r_owner r i = DeregLocked i) ->
  (forall i, retired (r_owner r' i) = retired (r_owner r i)) -> (r_next r <= r_next r')%nat ->
  (forall w i, refers (r_worker r' w) = Some i -> refers (r_worker r w) = Some i \/ (i < r_next r)%nat) ->
  lock_inv r'.
Proof.
  intros [H1 H2 H3 H4 H5] Hm Hd Hh Hi Ho Hr Hn Hf. split.
  - intros i w. rewrite Hm, Hh. apply H1.
  - intros i j. rewrite Hm, Ho. apply H2.
  - intros i. rewrite Hd, Hr. apply H3.
  - intros w i H. rewrite Hd. destruct (Hi _ _ H); [by eapply H4|done].
  - intros w i H. destruct (Hf _ _ H) as [H'|H']; [apply H5 in H'|]; lia.
Qed.

Lemma lock_inv_owner_step r r' : own_inv r -> lock_inv r -> owner_step r r' -> lock_inv r'.
Proof.
  intros Ho Hi Hs. pose proof Ho as [_ Hnext _ _ Hf]. pose proof Hi as [H1 H2 H3 H4 H5]. destruct Hs as
    [r fd Hfd|r i ep E He|r i E|r i E|r i E|r i E|r i f E|r i j E Hm|r i j E|r i E|r i E].
  (* a new registration; nobody holds the lock of a number not used yet *)
  1: { pose proof (Hnext _ (Nat.le_refl (r_next r))) as Hn.
    assert (rg_mu (r_reg r (r_next r)) = None) as Hmu.
    { destruct (rg_mu (r_reg r (r_next r))) as [[w|j]|] eqn:E; [|apply H2 in E as [_ E]; congruence|done].
      apply H1, holds_refers, H5 in E. lia. }
    assert (rg_dead (r_reg r (r_next r)) = false) as Hd.
    { destruct (rg_dead (r_reg r (r_next r))) eqn:E; [|done]. apply H3 in E. by rewrite Hn in E. }
    eapply lock_inv_ext; [exact Hi|..]; try (intros k; fsimp; congruence).
    - intros w k Hk. by left.
    - intros k. fsimp; [rewrite Hn|]; done.
    - intros k. fsimp; [rewrite Hn|]; done.
    - rsimp. lia.
    - intros w k Hk. by left. }
  (* the lock is taken *)
  7: { specialize (Hf i). rewrite E in Hf. injection Hf as ->. split.
    - intros k w. fsimp; [|apply H1]. split; [done|]. intros Hw. apply H1 in Hw. congruence.
    - intros k l. fsimp.
      + split; [by intros [= ->]|by intros [-> _]].
      + apply H2.
    - intros k. fsimp; [done|apply H3].
    - intros w k Hw. fsimp; [|by eapply H4]. exfalso.
      assert (holds_lock (r_worker r w) = Some k) as Hl by (by destruct (r_worker r w)).
      apply H1 in Hl. congruence.
    - intros w k. fsimp. apply H5. }
  7: { specialize (Hf i). rewrite E in Hf. subst j.
    pose proof (proj2 (H2 i i) (conj eq_refl E)) as Hmu. split.
    - intros k w. fsimp; [|apply H1]. split; [done|]. intros Hw. apply H1 in Hw. congruence.
    - intros k l. fsimp; [|apply H2]. split; [done|by intros [_ ?]].
    - intros k. fsimp; [|apply H3]. rewrite H3, E. done.
    - intros w k Hw. fsimp; by eapply H4.
    - intros w k. fsimp. apply H5. }
  all: eapply lock_inv_ext; [exact Hi|..]; try done; try (intros k; fsimp; rewrite ?E; done);
    try (intros w k Hk; by left).
  specialize (Hf i). rewrite E in Hf. discriminate.
Qed.

Ltac worker_ext Hi Hw :=
  eapply lock_inv_ext; [exact Hi|..]; try done;
  [intros w' |intros w' k |intros w' k]; fsimp; rewrite ?Hw in *; cbn [holds_lock refers in_handler] in *; eauto.

Lemma lock_inv_worker_step w r r' : own_inv r -> lock_inv r -> worker_step w r r' -> lock_inv r'.
Proof.
  intros Ho Hi Hs. pose proof Ho as [_ Hnext Hmap _ _]. pose proof Hi as [H1 H2 H3 H4 H5]. destruct Hs as
    [r evs fd ep Hw|r evs Hw|r evs Hw|r evs Hw|r evs Hw|r fd evs Hw|r fd evs i Hw Hreg|r Hw|r i evs Hw Hm
    |r i evs Hw|r i evs Hw Hd|r i evs d Hw|r i evs Hw|r i evs Hw|r i evs Hw|r Hw].
  all: try (worker_ext Hi Hw; congruence).
  - worker_ext Hi Hw. intros [= ->]. right.
    apply Hmap in Hreg as [_ Hreg]. destruct (Nat.lt_ge_cases k (r_next r)); [done|]. by rewrite Hnext in Hreg.
  - (* lock *) split.
    + intros k w'. pose proof (H1 k w') as Hkw. fsimp; rewrite ?Hw in Hkw; cbn in Hkw |- *;
        first [exact Hkw | split; intros Hx; first [congruence | apply Hkw in Hx; congruence]].
    + intros k j. fsimp; [|apply H2]. split; [done|]. intros Hk. apply H2 in Hk. congruence.
    + intros k. fsimp; apply H3.
    + intros w' k. fsimp; first [done | apply H4].
    + intros w' k. fsimp; [intros [= ->]; eapply (H5 w'); by rewrite Hw|apply H5].
  - worker_ext Hi Hw. intros [= ->]. by right.
  - (* unlock *) pose proof (proj2 (H1 i w)) as Hmu. rewrite Hw in Hmu. specialize (Hmu eq_refl). split.
    + intros k w'. pose proof (H1 k w') as Hkw. fsimp; rewrite ?Hw in Hkw; cbn in Hkw |- *;
        first [exact Hkw | split; intros Hx; first [congruence | apply Hkw in Hx; congruence]].
    + intros k j. pose proof (H2 k j) as Hk. fsimp;
        first [exact Hk | split; [done|]; intros Hx; apply Hk in Hx; congruence].
    + intros k. fsimp; apply H3.
    + intros w' k. fsimp; first [done | apply H4].
    + intros w' k. fsimp; first [done | apply H5].
Qed.

Lemma lock_inv_step r r' : own_inv r -> lock_inv r -> reactor_step r r' -> lock_inv r'.
Proof.
  intros Ho Hi Hs. destruct Hs; eauto using lock_inv_owner_step, lock_inv_worker_step;
    (eapply lock_inv_ext; [exact Hi|done|done|done|by left|done|done|done|by left]).
Qed.

(** ** Wake-ups *)

Definition events (x : worker) : list (option Z) :=
  match x with
  | WWaiting evs | WBatch evs | WGot _ evs | WHolding _ evs | WRunning _ evs | WRearm _ evs
  | WUnlocking _ evs => evs
  | WExited => []
  end.
Definition will_run (x : worker) : option nat :=
  match x with WGot i _ | WHolding i _ | WRunning i _ | WRearm i _ => Some i | _ => None end.

(** A worker that has an event of the socket, or is about to run or running its
    handler. *)
Definition serving (r : udpReactor) (i : nat) : Prop :=
  exists w, Some (fd_of r i) ∈ events (r_worker r w) \/ will_run (r_worker r w) = Some i.

Record wake_inv (r : udpReactor) : Prop := {
  wi_known : forall i ep, r_owner r i = RegLive -> r_epoll r = Some ep -> is_Some (ep !! fd_of r i);
  wi_closed : r_epoll r = None -> r_closed r = true;
  wi_armed : forall i ep, r_owner r i = RegLive -> r_gaveup r i = false -> r_closed r = false ->
    r_epoll r = Some ep -> ep !! fd_of r i = Some true \/ serving r i
}.

(** Steps that leave the interest list alone. *)
Lemma wake_inv_ext r r' :
  wake_inv r -> r_epoll r' = r_epoll r -> (r_closed r = true -> r_closed r' = true) ->
  (forall i, r_owner r' i = RegLive -> r_owner r i = RegLive /\ fd_of r' i = fd_of r i) ->
  (forall i, r_gaveup r' i = false -> r_gaveup r i = false) ->
  (forall i, r_owner r' i = RegLive -> r_closed r' = false -> r_gaveup r' i = false -> serving r i -> serving r' i) ->
  wake_inv r'.
Proof.
  intros [H1 H2 H3] He Hc Ho Hg Hs. rewrite <- He in *. split.
  - intros i ep Hi Hep. destruct (Ho i Hi) as [Hi' ->]. by apply H1.
  - intros Hn. by apply Hc, H2.
  - intros i ep Hi Hgu Hcl Hep. destruct (Ho i Hi) as [Hi' Hf].
    destruct (H3 i ep) as [?|?]; auto; [|left; by rewrite Hf]. destruct (r_closed r); [|done]. by rewrite Hc in Hcl.
Qed.

(** Steps of owners that remove a descriptor of their own from the list. *)
Lemma wake_inv_delete r i o d :
  own_inv r -> wake_inv r -> sock_open (r_owner r i) = true -> r_owner r i <> RegLive -> o <> RegLive ->
  wake_inv (with_owner i o (with_epoll (delete (fd_of r i) <$> r_epoll r) (with_data d r))).
Proof.
  intros [Hu _ _ _ _] [H1 H2 H3] Hop Hnl Ho.
  assert (forall j, r_owner r j = RegLive -> fd_of r i <> fd_of r j) as Hne.
  { intros j Hj E. apply Hu in E; [congruence|done|by rewrite Hj]. }
  split.
  - intros j ep. fsimp; [done|]. intros Hj Hep. destruct (r_epoll r) as [ep0|]; [|done]. injection Hep as <-.
    rewrite lookup_delete_ne by by apply Hne. by apply H1.
  - intros Hn. apply H2. rsimp. by destruct (r_epoll r).
  - intros j ep. fsimp; [done|]. intros Hj Hg Hc Hep. destruct (r_epoll r) as [ep0|] eqn:Ee; [|done]. injection Hep as <-.
    rewrite lookup_delete_ne by by apply Hne. by apply (H3 j).
Qed.

Lemma wake_inv_owner_step r r' : own_inv r -> wake_inv r -> owner_step r r' -> wake_inv r'.
Proof.
  intros Ho Hi Hs. pose proof Ho as [Hu Hnext _ _ _]. pose proof Hi as [H1 H2 H3]. destruct Hs as
    [r fd Hfd|r i ep E He|r i E|r i E|r i E|r i E|r i f E|r i j E Hm|r i j E|r i E|r i E].
  2: { assert (forall j, r_owner r j = RegLive -> fd_of r i <> fd_of r j) as Hne.
    { intros j Hj E2. apply Hu in E2; [congruence|by rewrite E|by rewrite Hj]. }
    split.
    - intros j ep'. fsimp; intros Hj [= <-]; [rewrite lookup_insert_eq; eauto|].
      rewrite lookup_insert_ne by by apply Hne. by apply H1.
    - done.
    - intros j ep'. fsimp; intros Hj Hg Hc [= <-]; [left; apply lookup_insert_eq|].
      rewrite lookup_insert_ne by by apply Hne. by apply (H3 j). }
  6: { apply (wake_inv_delete r i (DeregDeleted f) (r_data r)); rewrite ?E; done. }
  9: { apply (wake_inv_delete r i SockClosed); rewrite ?E; done. }
  all: apply (wake_inv_ext r); try done.
  all: try (intros k; fsimp; done).
  all: intros k; unfold serving; fsimp; try done; intros _ _ _ [w Hw]; exists w; fsimp; done.
Qed.

(** A worker goes from [x] to [y] and still serves what it served. *)
Lemma serving_worker r r' w y i :
  r_worker r' = upd w y (r_worker r) -> fd_of r' i = fd_of r i ->
  (Some (fd_of r i) ∈ events (r_worker r w) \/ will_run (r_worker r w) = Some i ->
   Some (fd_of r i) ∈ events y \/ will_run y = Some i) ->
  serving r i -> serving r' i.
Proof.
  intros Hw Hf Hy [w' Hw']. exists w'. rewrite Hf, Hw. unfold upd. case_decide; [subst; auto|done].
Qed.

Lemma wake_inv_worker r r' w y :
  wake_inv r -> r_worker r' = upd w y (r_worker r) -> r_epoll r' = r_epoll r -> r_closed r' = r_closed r ->
  r_owner r' = r_owner r -> (forall i, fd_of r' i = fd_of r i) ->
  (forall i, r_gaveup r' i = false -> r_gaveup r i = false) ->
  (forall i, r_owner r i = RegLive -> r_closed r = false -> r_gaveup r' i = false ->
     Some (fd_of r i) ∈ events (r_worker r w) \/ will_run (r_worker r w) = Some i ->
     Some (fd_of r i) ∈ events y \/ will_run y = Some i) ->
  wake_inv r'.
Proof.
  intros Hi Hw He Hc Ho Hf Hg Hy. apply (wake_inv_ext r); try done.
  - by rewrite Hc.
  - intros i. by rewrite Ho.
  - intros i Hl Hcl Hgu. rewrite Ho in Hl. rewrite Hc in Hcl. eapply serving_worker; eauto.
Qed.

Ltac wake_worker Hi Hw :=
  eapply wake_inv_worker; [exact Hi|reflexivity|reflexivity|reflexivity|reflexivity| | |];
  [intros k; fsimp; done | intros k; fsimp; done | intros k Hlive Hcl Hgu; rewrite Hw; cbn [events will_run]].

Lemma wake_inv_worker_step w r r' :
  own_inv r -> lock_inv r -> wake_inv r -> worker_step w r r' -> wake_inv r'.
Proof.
  intros Ho Hl Hi Hs. pose proof Ho as [_ _ _ Hmap' _]. destruct Hs as
    [r evs fd ep Hw Hn He Hfd Hd|r evs Hw|r evs Hw|r evs Hw Hc|r evs Hw|r fd evs Hw Hreg|r fd evs i Hw Hreg
    |r Hw|r i evs Hw Hm|r i evs Hw Hd|r i evs Hw Hd|r i evs d Hw|r i evs Hw|r i evs Hw|r i evs Hw|r Hw].
  - pose proof Hi as [H1 H2 H3]. split.
    + intros j ep'. fsimp. intros Hj [= <-]. destruct (decide (fd = rg_fd (r_reg r j))) as [->|Hne];
        [rewrite lookup_insert_eq; eauto|]. rewrite lookup_insert_ne by done. by apply H1.
    + done.
    + intros j ep'. unfold fd_of. rsimp. intros Hj Hg Hc [= <-].
      destruct (decide (fd = rg_fd (r_reg r j))) as [->|Hne].
      * right. exists w. left. unfold fd_of. rsimp. unfold upd. rewrite decide_True by done. cbn. set_solver.
      * rewrite lookup_insert_ne by done. destruct (H3 j ep) as [?|Hs]; [done..|by left|]. right.
        eapply (serving_worker r _ w); [reflexivity|done| |exact Hs]. rewrite Hw. cbn. set_solver.
  - wake_worker Hi Hw. set_solver.
  - wake_worker Hi Hw. done.
  - wake_worker Hi Hw. congruence.
  - wake_worker Hi Hw. set_solver.
  - wake_worker Hi Hw. intros [Hk|?]; [|done]. apply elem_of_cons in Hk as [[= Hk]|?]; [|by left].
    specialize (Hmap' k). rewrite Hlive, Hk, Hreg in Hmap'. by specialize (Hmap' eq_refl).
  - wake_worker Hi Hw. intros [Hk|?]; [|done]. apply elem_of_cons in Hk as [[= Hk]|?]; [|by left].
    specialize (Hmap' k). rewrite Hlive, Hk, Hreg in Hmap'. specialize (Hmap' eq_refl). right. congruence.
  - wake_worker Hi Hw. set_solver.
  - wake_worker Hi Hw. done.
  - wake_worker Hi Hw. intros [?|[= ->]]; [by left|]. apply (li_dead _ Hl) in Hd. by rewrite Hlive in Hd.
  - wake_worker Hi Hw. done.
  - wake_worker Hi Hw. done.
  - eapply wake_inv_worker; [exact Hi|reflexivity|reflexivity|reflexivity|reflexivity| | |].
    + intros k; fsimp; done.
    + intros k; fsimp; done.
    + intros k Hlive Hcl. rewrite Hw. fsimp; [done|]. intros _ [?|[= ->]]; [by left|done].
  - pose proof Hi as [H1 H2 H3]. split.
    + intros j ep'. fsimp. intros Hj Hep. destruct (r_epoll r) as [ep|]; [|done]. injection Hep as <-.
      rewrite lookup_alter_is_Some. by apply H1.
    + intros Hn. apply H2. rsimp. by destruct (r_epoll r).
    + intros j ep'. rsimp. intros Hj Hg Hc Hep. destruct (r_epoll r) as [ep|] eqn:Ee; [|done]. injection Hep as <-.
      destruct (decide (rg_fd (r_reg r i) = rg_fd (r_reg r j))) as [E|Hne].
      * left. rewrite E, lookup_alter_eq. destruct (H1 j ep Hj eq_refl) as [b Hb]. unfold fd_of in Hb. by rewrite Hb.
      * rewrite lookup_alter_ne by done. destruct (H3 j ep) as [?|Hs]; [done..|by left|]. right.
        eapply (serving_worker r _ w); [reflexivity|done| |exact Hs]. rewrite Hw. cbn.
        intros [?|[= ->]]; [by left|done].
  - wake_worker Hi Hw. intros [?|?]; [by left|done].
  - wake_worker Hi Hw. set_solver.
Qed.

Lemma wake_inv_step r r' : own_inv r -> lock_inv r -> wake_inv r -> reactor_step r r' -> wake_inv r'.
Proof.
  intros Ho Hl Hi Hs. destruct Hs; eauto using wake_inv_owner_step, wake_inv_worker_step.
  - apply (wake_inv_ext r); done.
  - apply (wake_inv_ext r); try done.
  - split; [done|done|]. intros. rsimp. congruence.
  - apply (wake_inv_ext r); done.
Qed.

Lemma reactor_invariants n r : reactor_reachable n r -> own_inv r /\ lock_inv r /\ wake_inv r.
Proof.
  unfold reactor_reachable. intros H.
  eapply (rtc_ind_r (fun r => own_inv r /\ lock_inv r /\ wake_inv r) (newUDPReactor n)); [| |exact H].
  - split_and!; split; cbn; try done; try set_solver.
    + intros i w. by repeat case_one.
    + intros w i. by repeat case_one.
  - intros x y _ Hs (? & ? & ?). split_and!; eauto using own_inv_step, lock_inv_step, wake_inv_step.
Qed.

(** ** One reactor *)

(** However many associations ask, and whatever creating it would give by then, they
    all get the reactor of the first call, which has two to sixteen workers, or all
    get none. *)
Theorem sharedReactor_once g created g' created' :
  let '(r, s) := sharedReactor g created (mkShared false None) in
  sharedReactor g' created' s = (r, s) /\
  (r = None <-> created <> None) /\
  (forall x, r = Some x -> exists n, (2 <= n <= 16)%nat /\ x = newUDPReactor n).
Proof.
  unfold sharedReactor. cbn [so_done so_reactor]. split; [done|]. destruct created as [e|].
  - split; [done|]. by intros x [=].
  - split; [split; [intros [=]|by intros []]|]. intros x [= <-]. eexists. split; [|reflexivity].
    unfold reactor_workers. repeat case_one; zbool; lia.
Qed.

(** A number that was given out has an owner. *)
Definition numbered (r : udpReactor) : Prop := forall i, (i < r_next r)%nat -> r_owner r i <> NotYet.

Lemma numbered_step r r' : numbered r -> reactor_step r r' -> numbered r'.
Proof.
  intros H Hs i Hi. destruct Hs as [r r' Hs|w r r' Hs|r|r|r|r]; try by apply H.
  - destruct Hs; fsimp; try done; apply H; done || lia.
  - destruct Hs; by apply H.
Qed.

Lemma reactor_numbered n r : reactor_reachable n r -> numbered r.
Proof.
  intros H. refine (rtc_ind_r numbered (newUDPReactor n) _ _ r H); [intros i Hi; cbn in Hi; lia|].
  intros r1 r2 _ Hs Hr. by eapply numbered_step.
Qed.

(** ** Properties *)

(** C9: Handlers and closing exclude each other. In every interleaving of the workers, the
    associations that register, deregister and close sockets, the kernel's reuse of
    descriptors and the shutdown: while a worker runs the handler of a registration, no other
    worker does, the registration is not dead and its [deregister] has not returned; so once
    [deregister] returns the handler neither runs nor will run. The socket of a running
    handler is open, except that of a registration that [EpollCtl] refused, which has been
    closed without a [deregister]. The map holds exactly the registrations being made or
    live, under descriptors of open sockets. *)
Theorem reactor_handlers_excluded n r :
  reactor_reachable n r ->
  (forall w i, in_handler (r_worker r w) = Some i ->
     rg_dead (r_reg r i) = false /\ r_owner r i <> DeregDone /\ r_owner r i <> SockClosed /\
     (sock_open (r_owner r i) = true \/ r_owner r i = FallbackClosed) /\
     (forall w', in_handler (r_worker r w') = Some i -> w' = w)) /\
  (forall fd i, r_regs r !! fd = Some i <-> fd_of r i = fd /\ in_map (r_owner r i) = true) /\
  (forall fd i, r_regs r !! fd = Some i -> sock_open (r_owner r i) = true).
Proof.
  intros Hreach. pose proof (reactor_numbered _ _ Hreach) as Hn.
  destruct (reactor_invariants _ _ Hreach) as (Ho & Hl & _). split; [|split].
  - intros w i Hw. pose proof (li_handler _ Hl _ _ Hw) as Hd.
    assert (retired (r_owner r i) = false) as Hr.
    { destruct (retired (r_owner r i)) eqn:E; [|done]. apply (li_dead _ Hl) in E. congruence. }
    split; [done|]. split; [intros E; by rewrite E in Hr|]. split; [intros E; by rewrite E in Hr|]. split.
    { specialize (Hn i (li_fresh _ Hl w i ltac:(by destruct (r_worker r w)))).
      destruct (r_owner r i); try done; auto. }
    assert (forall w, in_handler (r_worker r w) = Some i -> rg_mu (r_reg r i) = Some (LWorker w)) as Hm.
    { intros w' Hw'. apply (li_worker _ Hl). by destruct (r_worker r w'). }
    intros w' Hw'. apply Hm in Hw, Hw'. congruence.
  - intros fd i. split; [apply (oi_map _ Ho)|]. intros [<- Hi]. by apply (oi_map' _ Ho).
  - intros fd i Hi. apply in_map_open, (oi_map _ Ho fd i Hi).
Qed.

(** C27: No wake-up is lost. While the reactor is not closed, a live registration
    whose handler did not give up the socket is always armed in the interest list,
    or a worker holds an event of its descriptor or is on the way into or inside
    its handler, which re-arms it: no datagram waits on a socket nobody will look
    at, as long as a worker is left (one returns early only when EpollWait fails). *)
Theorem reactor_no_lost_wakeup n r i :
  reactor_reachable n r -> r_closed r = false -> r_owner r i = RegLive -> r_gaveup r i = false ->
  exists ep, r_epoll r = Some ep /\ (ep !! fd_of r i = Some true \/ serving r i).
Proof.
  intros (_ & _ & Hi)%reactor_invariants Hc Ho Hg.
  destruct (r_epoll r) as [ep|] eqn:E; [|apply (wi_closed _ Hi) in E; congruence].
  exists ep. split; [done|]. by apply (wi_armed _ Hi).
Qed.

(** ** Concrete runs *)

(** The operations of an owner and of a worker as functions on states, for
    executions that go through. *)
Definition do_add (i : nat) (r : udpReactor) : udpReactor :=
  with_owner i RegLive (with_epoll (Some (<[fd_of r i := true]> (default ∅ (r_epoll r)))) r).
Definition do_arrive (i : nat) (r : udpReactor) : udpReactor := with_data (r_data r ∪ {[fd_of r i]}) r.
Definition do_event (w : nat) (fd : Z) (r : udpReactor) : udpReactor :=
  with_worker w (WWaiting (events (r_worker r w) ++ [Some fd]))
    (with_epoll (Some (<[fd := false]> (default ∅ (r_epoll r)))) r).
Definition do_return (w : nat) (r : udpReactor) : udpReactor := with_worker w (WBatch (events (r_worker r w))) r.
Definition do_lookup (w i : nat) (evs : list (option Z)) (r : udpReactor) : udpReactor :=
  with_worker w (WGot i evs) r.
Definition do_run (w i : nat) (evs : list (option Z)) (r : udpReactor) : udpReactor :=
  let r := with_worker w (WHolding i evs) (with_reg i (set_mu (Some (LWorker w)) (r_reg r i)) r) in
  with_worker w (WRunning i evs) r.
Definition do_dereg (i : nat) (r : udpReactor) : udpReactor :=
  let r := with_owner i (DeregMapped (r_regs r !! fd_of r i)) (with_regs (delete (fd_of r i) (r_regs r)) r) in
  with_owner i (DeregDeleted (Some i)) (with_epoll (delete (fd_of r i) <$> r_epoll r) r).
Definition do_finish (i : nat) (r : udpReactor) : udpReactor :=
  let r := with_owner i (DeregLocked i) (with_reg i (set_dead (set_mu (Some (LOwner i)) (r_reg r i))) r) in
  let r := with_owner i DeregDone (with_reg i (set_mu None (r_reg r i)) r) in
  with_owner i SockClosed
    (with_epoll (delete (fd_of r i) <$> r_epoll r) (with_data (r_data r ∖ {[fd_of r i]}) r)).

Section runs.
  Context (n : nat) (r : udpReactor) (Hr : reactor_reachable n r).

Lemma do_add_reachable i : r_owner r i = RegPut -> is_Some (r_epoll r) -> reactor_reachable n (do_add i r).
Proof using Hr.
  intros H1 [ep H2]. eapply rtc_r; [exact Hr|]. unfold do_add. rewrite H2. by apply rs_owner, os_add.
Qed.

Lemma do_arrive_reachable i : sock_open (r_owner r i) = true -> reactor_reachable n (do_arrive i r).
Proof using Hr. intros. eapply rtc_r; [exact Hr|]. by apply rs_arrive. Qed.

Lemma do_event_reachable w fd evs ep :
  r_worker r w = WWaiting evs -> len evs < 128 -> r_epoll r = Some ep -> ep !! fd = Some true ->
  fd ∈ r_data r -> reactor_reachable n (do_return w (do_event w fd r)).
Proof using Hr.
  intros H1 H2 H3 H4 H5. eapply rtc_r; [eapply rtc_r; [exact Hr|]|].
  - apply (rs_worker w), (ws_event w r evs fd ep); done.
  - unfold do_return, do_event. rewrite H1, H3. cbn [default events].
    apply (rs_worker w), ws_return; cbn; unfold upd; rewrite decide_True by done; [done|by destruct evs].
Qed.

Lemma do_lookup_reachable w i fd evs :
  r_worker r w = WBatch (Some fd :: evs) -> r_regs r !! fd = Some i ->
  reactor_reachable n (do_lookup w i evs r).
Proof using Hr. intros. eapply rtc_r; [exact Hr|]. apply (rs_worker w), (ws_lookup w r fd evs i); done. Qed.

Lemma do_run_reachable w i evs :
  r_worker r w = WGot i evs -> rg_mu (r_reg r i) = None -> rg_dead (r_reg r i) = false ->
  reactor_reachable n (do_run w i evs r).
Proof using Hr.
  intros H1 H2 H3. unfold do_run. cbv zeta. eapply rtc_r; [eapply rtc_r; [exact Hr|]|].
  - apply (rs_worker w), ws_lock; done.
  - apply (rs_worker w), ws_run; cbn; unfold upd; by rewrite decide_True.
Qed.

Lemma do_dereg_reachable i :
  r_owner r i = RegLive -> r_regs r !! fd_of r i = Some i -> reactor_reachable n (do_dereg i r).
Proof using Hr.
  intros H1 H2. unfold do_dereg. eapply rtc_r; [eapply rtc_r; [exact Hr|]|].
  - by apply rs_owner, (os_dereg r i).
  - apply rs_owner, os_del. cbn. unfold upd. by rewrite decide_True, H2.
Qed.

Lemma do_finish_reachable i :
  r_owner r i = DeregDeleted (Some i) -> rg_mu (r_reg r i) = None -> reactor_reachable n (do_finish i r).
Proof using Hr.
  intros H1 H2. unfold do_finish. cbv zeta. eapply rtc_r; [eapply rtc_r; [eapply rtc_r; [exact Hr|]|]|].
  - by apply rs_owner, os_lock.
  - apply rs_owner, os_unlock. cbn. unfold upd. by rewrite decide_True.
  - apply rs_owner, os_close. cbn. unfold upd. by rewrite decide_True.
Qed.

End runs.

Ltac by_vm := solve [vm_compute; reflexivity | vm_compute; eauto | by_decide].

(** One worker; a socket with descriptor 5 is registered, gets a datagram, and the
    worker takes its event. *)
Definition run1 : udpReactor :=
  do_return 0 (do_event 0 5 (do_arrive 0 (do_add 0 (register_put 5 (newUDPReactor 1))))).

Lemma run1_reachable : reactor_reachable 1 run1.
Proof.
  assert (reactor_reachable 1 (register_put 5 (newUDPReactor 1))) as H0
    by (eapply rtc_r; [apply rtc_refl|]; apply rs_owner, os_put; done).
  pose proof (do_add_reachable _ _ H0 0 ltac:(by_vm) ltac:(by_vm)) as H1.
  pose proof (do_arrive_reachable _ _ H1 0 ltac:(by_vm)) as H2.
  apply (do_event_reachable _ _ H2 0 5 [] {[5 := true]}); by_vm.
Qed.

(** The worker is in the handler. *)
Definition run2 : udpReactor := do_run 0 0 [] (do_lookup 0 0 [] run1).

Lemma run2_reachable : reactor_reachable 1 run2.
Proof.
  apply do_run_reachable; try by_vm. apply (do_lookup_reachable _ _ run1_reachable 0 0 5); by_vm.
Qed.

Lemma reactor_handlers_excluded_witness :
  in_handler (r_worker run2 0) = Some 0%nat /\ r_owner run2 0 <> SockClosed /\
  (sock_open (r_owner run2 0) = true \/ r_owner run2 0 = FallbackClosed) /\
  r_regs run2 !! 5 = Some 0%nat /\ sock_open (r_owner run2 0) = true.
Proof.
  destruct (reactor_handlers_excluded 1 run2 run2_reachable) as (H1 & H2 & H3).
  assert (r_regs run2 !! 5 = Some 0%nat) as Hm by (apply H2; split; by_vm).
  destruct (H1 0%nat 0%nat ltac:(by_vm)) as (_ & _ & Hc & Ho & _).
  split; [by_vm|]. split; [exact Hc|]. split; [exact Ho|]. split; [exact Hm|exact (H3 _ _ Hm)].
Defined.

Lemma reactor_no_lost_wakeup_witness :
  exists ep, r_epoll run2 = Some ep /\ (ep !! fd_of run2 0 = Some true \/ serving run2 0).
Proof. apply (reactor_no_lost_wakeup 1 run2 0 run2_reachable); by_vm. Defined.

(** The worker still holds the event when the association ends: the socket is
    deregistered and closed, and a new association's socket gets its descriptor. *)
Definition run3 : udpReactor := register_put 5 (do_finish 0 (do_dereg 0 run1)).

Lemma run3_reachable : reactor_reachable 1 run3.
Proof.
  pose proof (do_dereg_reachable _ _ run1_reachable 0 ltac:(by_vm) ltac:(by_vm)) as H1.
  pose proof (do_finish_reachable _ _ H1 0 ltac:(by_vm) ltac:(by_vm)) as H2.
  eapply rtc_r; [exact H2|]. apply rs_owner, os_put. intros [|i]; vm_compute; done.
Qed.

(** The stale event runs the new socket's handler, which reads from a socket without
    a datagram: the worker is blocked, and so is the [deregister] that waits for it,
    although the association is over and its socket, closed only after
    [deregister], may never receive anything. *)
Definition run4 : udpReactor := do_dereg 1 (do_run 0 1 [] (do_lookup 0 1 [] (do_add 1 run3))).

Lemma run4_reachable : reactor_reachable 1 run4.
Proof.
  apply do_dereg_reachable; try by_vm. apply do_run_reachable; try by_vm.
  apply (do_lookup_reachable _ _ (do_add_reachable _ _ run3_reachable 1 ltac:(by_vm) ltac:(by_vm)) 0 1 5); by_vm.
Qed.

Theorem reactor_stale_event_blocks :
  exists r, reactor_reachable 1 r /\ r_worker r 0 = WRunning 1 [] /\
    r_owner r 1 = DeregDeleted (Some 1%nat) /\ (fd_of r 1 ∉ r_data r) /\
    (forall r', ~ worker_step 0 r r') /\
    (forall r', owner_step r r' -> r_owner r' 1 = r_owner r 1).
Proof.
  exists run4. assert (r_worker run4 0 = WRunning 1 []) as Hw by by_vm.
  assert (r_owner run4 1 = DeregDeleted (Some 1%nat)) as E by by_vm.
  assert (rg_mu (r_reg run4 1) = Some (LWorker 0)) as Em by by_vm.
  assert (fd_of run4 1 ∉ r_data run4) as Hd by by_vm.
  assert (r_next run4 = 2%nat) as Hn by by_vm.
  pose proof run4_reachable as Hr. generalize dependent run4. intros r Hw E Em Hd Hn Hr.
  split_and!; try done.
  - intros r' Hs. inversion Hs; subst; try congruence;
      match goal with H : r_worker r 0 = _ |- _ => rewrite Hw in H; injection H as <- <- end; done.
  - intros r' Hs.
    destruct Hs; cbn [r_owner with_owner with_reg with_regs with_epoll with_data register_put]; unfold upd;
      case_decide; subst; try done; congruence.
Qed.

(** When [register] fails, a worker with a stale event of the descriptor may have
    read the registration in the meantime: it is not marked dead, and the handler
    can run on a socket that is already closed. *)
Theorem reactor_failed_register_runs :
  exists r, reactor_reachable 1 r /\ in_handler (r_worker r 0) = Some 1%nat /\ r_owner r 1 = FallbackClosed.
Proof.
  set (r1 := do_lookup 0 1 [] run3).
  assert (reactor_reachable 1 r1) as H1 by (apply (do_lookup_reachable _ _ run3_reachable 0 1 5); by_vm).
  set (r2 := with_owner 1 RegFailed r1).
  set (r3 := with_owner 1 Fallback (with_regs (delete (fd_of r2 1) (r_regs r2)) r2)).
  set (r4 := with_owner 1 FallbackClosed (with_data (r_data r3 ∖ {[fd_of r3 1]}) r3)).
  exists (do_run 0 1 [] r4). split; [|split; by_vm].
  apply do_run_reachable; try by_vm.
  eapply rtc_r; [eapply rtc_r; [eapply rtc_r; [exact H1|]|]|].
  - apply rs_owner, (os_add_error r1 1). by_vm.
  - apply rs_owner, (os_add_undo r2 1). by_vm.
  - apply rs_owner, (os_fallback_close r3 1). by_vm.
Qed.
