(* ===== verification/Route.v ===== *)
(** * Local routes for the source CIDR ([internal/server/route_linux.go])

    On Linux the server makes every address of its CIDR bindable before it serves:
    it sets two sysctls (IPv6), adds a local route for the CIDR to the loopback
    interface unless the local table has one, and probes one address with a TCP and
    a UDP socket. The kernel's answers are arguments ([route_os]); what the code
    asks of the kernel is the list of [route_action]s it returns. *)

From Stdlib Require Import ZArith Lia.
From stdpp Require Import base tactics numbers sets list strings.
From S2P Require Import Prelude.
From S2P Require Import Netip.
From S2P Require Import Ext.
From S2P Require Import Uint128.
From S2P Require Import SourceIP.

(** ** Networks of package [net] *)

(** [net.IPNet], and [net.CIDRMask] for an address of [n] bytes. *)
Record IPNet := mkIPNet { in_IP : bytes; in_Mask : bytes }.

Fixpoint CIDRMask (ones : Z) (n : nat) : bytes :=
  match n with
  | O => []
  | S n =>
      if 8 <=? ones then 255 :: CIDRMask (ones - 8) n
      else lnot 8 (shr 8 255 ones) :: CIDRMask 0 n
  end.

Definition prefixToIPNet (p : Prefix) : IPNet :=
  mkIPNet (AsSlice (p_Addr p)) (CIDRMask (p_Bits p) (Z.to_nat (BitLen (p_Addr p) / 8))).

(** [bytesEqual]: the loop over the indices of [a]. *)
Fixpoint bytesEqual_loop (a b : bytes) (i fuel : nat) : bool :=
  match fuel with
  | O => true
  | S fuel => if negb (nth i a 0 =? nth i b 0) then false else bytesEqual_loop a b (S i) fuel
  end.

Definition bytesEqual (a b : bytes) : bool :=
  if negb (len a =? len b) then false else bytesEqual_loop a b 0 (length a).

(** [net.IP.Equal]: an IPv4 address equals its IPv4-in-IPv6 form. *)
Definition v4InV6Prefix : bytes := replicate 10 0 ++ [255; 255].

Definition IP_Equal (ip x : bytes) : bool :=
  if len ip =? len x then eqs ip x
  else if (len ip =? 4) && (len x =? 16) then eqs (take 12 x) v4InV6Prefix && eqs ip (drop 12 x)
  else if (len ip =? 16) && (len x =? 4) then eqs (take 12 ip) v4InV6Prefix && eqs (drop 12 ip) x
  else false.

(** Both arguments of the code's calls are non-nil. *)
Definition ipNetEqual (a b : IPNet) : bool :=
  IP_Equal (in_IP a) (in_IP b) && bytesEqual (in_Mask a) (in_Mask b).

(** ** The kernel *)

Record Route := mkRoute {
  rt_LinkIndex : Z;
  rt_Dst : option IPNet;
  rt_Type : Z;
  rt_Protocol : Z;
  rt_Scope : Z;
  rt_Table : Z;
  rt_Priority : Z
}.

Definition routeTableLocal : Z := 255.
Definition routePriority : Z := 1024.
Definition RTN_LOCAL : Z := 2.
Definition RTPROT_BOOT : Z := 3.
Definition RT_SCOPE_UNIVERSE : Z := 0.

Record route_os := mkRouteOS {
  ro_WriteFile : bytes -> option error;
  ro_LinkByName : result Z;
  ro_RouteList : result (list Route);     (* the local table *)
  ro_RouteAdd : option error;
  ro_ListenTCP : option error;
  ro_CloseTCP : option error;
  ro_ListenUDP : option error;
  ro_CloseUDP : option error
}.

Inductive route_action :=
  | WriteFile (path value : bytes)
  | RouteAdd (r : Route)
  | ListenTCP (network : bytes) (ip : bytes)
  | ListenUDP (network : bytes) (ip : bytes).

(** ** The operations *)

Definition keyToPath (key : bytes) : bytes := (fun c => if c =? 46 then 47 else c) <$> key.

Definition sysctl_path (key : bytes) : bytes := str "/proc/sys/" ++ keyToPath key.

Definition sysctlSet (os : route_os) (key value : bytes) : option error * list route_action :=
  match ro_WriteFile os (sysctl_path key) with
  | Some err => (Some (Wrap "set sysctl %s=%s: %w" err), [WriteFile (sysctl_path key) value])
  | None => (None, [WriteFile (sysctl_path key) value])
  end.

Definition route_exists (dstNet : IPNet) (routes : list Route) : bool :=
  existsb (fun r => match rt_Dst r with Some d => ipNetEqual d dstNet | None => false end) routes.

Definition loopback_route (lo : Z) (dstNet : IPNet) : Route :=
  mkRoute lo (Some dstNet) RTN_LOCAL RTPROT_BOOT RT_SCOPE_UNIVERSE routeTableLocal routePriority.

Definition addRouteToLoopback (os : route_os) (cidr : Prefix) : option error * list route_action :=
  match ro_LinkByName os with
  | Err err => (Some (Wrap "get loopback interface: %w" err), [])
  | Ok lo =>
      let dstNet := prefixToIPNet cidr in
      match ro_RouteList os with
      | Err err => (Some (Wrap "list routes: %w" err), [])
      | Ok routes =>
          if route_exists dstNet routes then (None, [])
          else
            let route := loopback_route lo dstNet in
            match ro_RouteAdd os with
            | Some err => (Some (Wrap "add route: %w" err), [RouteAdd route])
            | None => (None, [RouteAdd route])
            end
      end
  end.

(** Run [f] unless there is an error already; the actions add up. *)
Definition and_then (r : option error * list route_action)
    (f : option error * list route_action) : option error * list route_action :=
  match r with
  | (Some err, l) => (Some err, l)
  | (None, l) => (fst f, l ++ snd f)
  end.

Definition configureRoutesLinux (os : route_os) (cidr : Prefix) : option error * list route_action :=
  and_then
    (if Is6 (p_Addr cidr) then
       and_then (sysctlSet os (str "net.ipv6.ip_nonlocal_bind") (str "1"))
                (sysctlSet os (str "net.ipv6.conf.all.disable_ipv6") (str "0"))
     else (None, []))
    (addRouteToLoopback os cidr).

(** [netip.Addr.Next]: the zero [Addr] after the last address. *)
Definition Addr_Next (a : Addr) : Addr :=
  match a with
  | AddrZero => AddrZero
  | Addr4 v => if v =? 2 ^ 32 - 1 then AddrZero else Addr4 (v + 1)
  | Addr6 v z => if v =? 2 ^ 128 - 1 then AddrZero else Addr6 (v + 1) z
  end.

(** The address [validateSourceCIDRLinux] probes. *)
Definition probe_address (cidr : Prefix) : Addr :=
  let address := p_Addr (Masked cidr) in
  let next := Addr_Next address in
  if IsValid next && prefix_Contains cidr next then next else address.

Definition validateSourceCIDRLinux (os : route_os) (cidr : Prefix) : option error * list route_action :=
  let address := probe_address cidr in
  let ip := AsSlice address in
  let tcp := ListenTCP (if Is6 address then str "tcp6" else str "tcp4") ip in
  let udp := ListenUDP (if Is6 address then str "udp6" else str "udp4") ip in
  match ro_ListenTCP os with
  | Some err => (Some (Wrap "bind TCP source address %s: %w" err), [tcp])
  | None =>
      match ro_CloseTCP os with
      | Some err => (Some (Wrap "close TCP source-address probe: %w" err), [tcp])
      | None =>
          match ro_ListenUDP os with
          | Some err => (Some (Wrap "bind UDP source address %s: %w" err), [tcp; udp])
          | None =>
              match ro_CloseUDP os with
              | Some err => (Some (Wrap "close UDP source-address probe: %w" err), [tcp; udp])
              | None => (None, [tcp; udp])
              end
          end
      end
  end.

(** ** What a route covers *)

(** The kernel's match: the address has the destination's network bits. *)
Definition covers (dst : IPNet) (ip : bytes) : bool :=
  (len ip =? len (in_IP dst)) &&
  eqs (zip_with Z.land ip (in_Mask dst)) (zip_with Z.land (in_IP dst) (in_Mask dst)).

Lemma byte_mask x k : u8 x -> 0 <= k < 8 ->
  Z.land x (lnot 8 (shr 8 255 k)) = x / 2 ^ (8 - k) * 2 ^ (8 - k).
Proof.
  intros Hx Hk.
  assert (forallb (fun k => forallb (fun x =>
    Z.land x (lnot 8 (shr 8 255 k)) =? x / 2 ^ (8 - k) * 2 ^ (8 - k)) (seqZ 0 256)) (seqZ 0 8) = true)
    as H by (vm_compute; reflexivity).
  rewrite forallb_forall in H. specialize (H k). rewrite forallb_forall in H.
  apply Z.eqb_eq, H; apply list_elem_of_In, elem_of_seqZ; unfold in_width in Hx; lia.
Qed.

Lemma be_bytes_S n v : be_bytes (S n) v = (v / 2 ^ (8 * Z.of_nat n)) `mod` 256 :: be_bytes n v.
Proof. done. Qed.

Lemma zip_with_land_zero n x y :
  zip_with Z.land (be_bytes n x) (CIDRMask 0 n) = zip_with Z.land (be_bytes n y) (CIDRMask 0 n).
Proof.
  induction n as [|n IH]; [done|]. cbn [CIDRMask].
  destruct (Z.leb_spec 8 0); [lia|]. rewrite !be_bytes_S. cbn [zip_with]. rewrite IH. f_equal.
  change (lnot 8 (shr 8 255 0)) with 0. by rewrite !Z.land_0_r.
Qed.

(** The quotient by a smaller power of two determines, and is determined by, the
    high part and the quotient of the low part. *)
Lemma div_split x y n m :
  0 <= m <= n ->
  x / 2 ^ m = y / 2 ^ m <-> x / 2 ^ n = y / 2 ^ n /\ (x `mod` 2 ^ n) / 2 ^ m = (y `mod` 2 ^ n) / 2 ^ m.
Proof.
  intros H. assert (forall z, (z `mod` 2 ^ n) / 2 ^ m = (z / 2 ^ m) `mod` 2 ^ (n - m)) as Hm.
  { intros z. replace n with (m + (n - m)) at 1 by lia. apply mod_div_pow; lia. }
  assert (forall z, z / 2 ^ n = z / 2 ^ m / 2 ^ (n - m)) as Hd.
  { intros z. rewrite Z.div_div by (try apply Z.pow_nonzero; lia). rewrite <- Z.pow_add_r by lia. do 2 f_equal. lia. }
  rewrite !Hm, !Hd. pose proof (pow2_pos (n - m) ltac:(lia)). split; [by intros ->|].
  intros [H1 H2]. rewrite (Z.div_mod (x / 2 ^ m) (2 ^ (n - m))), (Z.div_mod (y / 2 ^ m) (2 ^ (n - m))) by lia.
  by rewrite H1, H2.
Qed.

Lemma zip_mask n : forall k x y,
  0 <= k <= 8 * Z.of_nat n -> in_width (8 * Z.of_nat n) x -> in_width (8 * Z.of_nat n) y ->
  zip_with Z.land (be_bytes n x) (CIDRMask k n) = zip_with Z.land (be_bytes n y) (CIDRMask k n) <->
  x / 2 ^ (8 * Z.of_nat n - k) = y / 2 ^ (8 * Z.of_nat n - k).
Proof.
  induction n as [|n IH]; intros k x y Hk Hx Hy.
  { cbn. unfold in_width in *. cbn in Hx, Hy. replace x with 0 by lia. replace y with 0 by lia. done. }
  cbn [CIDRMask]. set (N := 8 * Z.of_nat n) in *.
  replace (8 * Z.of_nat (S n)) with (N + 8) in * by lia.
  assert (forall z, in_width (N + 8) z -> u8 (z / 2 ^ N)) as Hhead.
  { intros z [H1 H2]. rewrite Z.pow_add_r in H2 by lia. split; [apply Z.div_pos; lia|].
    apply Z.div_lt_upper_bound; lia. }
  assert (forall z, in_width (N + 8) z -> (z / 2 ^ N) `mod` 256 = z / 2 ^ N) as Hmod
    by (intros z Hz; apply Z.mod_small, Hhead, Hz).
  destruct (Z.leb_spec 8 k); rewrite !be_bytes_S; cbn [zip_with]; fold N; rewrite !Hmod by done.
  - assert (forall z, in_width (N + 8) z -> Z.land (z / 2 ^ N) 255 = z / 2 ^ N) as Hl.
    { intros z Hz. change 255 with (Z.ones 8). rewrite Z.land_ones by lia. by apply Hmod. }
    rewrite !Hl by done. rewrite (div_split x y N (N + 8 - k)) by lia.
    rewrite <- (be_bytes_mod n n x), <- (be_bytes_mod n n y) by lia. fold N.
    specialize (IH (k - 8) (x `mod` 2 ^ N) (y `mod` 2 ^ N) ltac:(lia)
      (Z.mod_pos_bound _ _ (pow2_pos N ltac:(lia))) (Z.mod_pos_bound _ _ (pow2_pos N ltac:(lia)))).
    fold N in IH. replace (N - (k - 8)) with (N + 8 - k) in IH by lia. rewrite <- IH.
    split; [intros E; by simplify_eq | intros [-> ->]; done].
  - rewrite (zip_with_land_zero n x y), !byte_mask by (auto; lia).
    assert (forall z, z / 2 ^ (N + 8 - k) = z / 2 ^ N / 2 ^ (8 - k)) as Hd.
    { intros z. rewrite Z.div_div by (try apply Z.pow_nonzero; lia). rewrite <- Z.pow_add_r by lia. do 2 f_equal. lia. }
    rewrite !Hd. pose proof (pow2_pos (8 - k) ltac:(lia)).
    split; [intros [= E]; nia | intros ->; done].
Qed.

(** The network handed to the kernel has exactly the addresses of the prefix. *)
Lemma prefixToIPNet_covers p a :
  Prefix_ok p -> Addr_ok a -> zone_free a = true -> IsValid a = true ->
  covers (prefixToIPNet p) (AsSlice a) = prefix_Contains p a.
Proof.
  intros (Ha & Hv & Hz & Hb) Hok Hza Hva. unfold covers, prefixToIPNet, prefix_Contains. cbn [in_IP in_Mask].
  rewrite Hv, Hza. cbn [andb].
  destruct p as [[|u|u zu] bits]; [done| |]; destruct a as [|w|w zw]; try done; cbn [AsSlice p_Addr p_Bits BitLen Addr_value] in *;
    rewrite !len_be_bytes; try done; cbn [andb].
  all: rewrite !Z.eqb_refl; cbn [andb]; cbv zeta; unfold eqs; apply eq_true_iff_eq;
    rewrite bool_decide_eq_true, Z.eqb_eq.
  - apply (zip_mask 4); [lia|done|done].
  - apply (zip_mask 16); [lia|apply Hok|apply Ha].
Qed.

(** ** Properties *)

Lemma bytesEqual_loop_spec a b : forall fuel i, (i + fuel <= length a)%nat -> length a = length b ->
  bytesEqual_loop a b i fuel = true <-> take fuel (drop i a) = take fuel (drop i b).
Proof.
  induction fuel as [|fuel IH]; intros i Hi Hl; [done|]. cbn [bytesEqual_loop].
  destruct (lookup_lt_is_Some_2 a i) as [x Hx]; [lia|]. destruct (lookup_lt_is_Some_2 b i) as [y Hy]; [lia|].
  rewrite (drop_S a x i Hx), (drop_S b y i Hy). cbn [take].
  rewrite (nth_lookup_Some _ _ 0 _ Hx), (nth_lookup_Some _ _ 0 _ Hy).
  destruct (Z.eqb_spec x y) as [->|Hne]; cbn [negb]; [|split; [done|intros [= ? ?]; done]].
  rewrite IH by lia. split; [by intros ->|by intros [= ->]].
Qed.

Lemma bytesEqual_spec a b : bytesEqual a b = true <-> a = b.
Proof.
  unfold bytesEqual. destruct (Z.eqb_spec (len a) (len b)) as [E|E]; cbn [negb].
  - unfold len in E. rewrite bytesEqual_loop_spec by lia.
    rewrite !drop_0, take_ge by lia. rewrite take_ge by lia. done.
  - split; [done|]. intros ->. done.
Qed.

(** A network as the kernel reports it: the mask is as long as the address. *)
Definition IPNet_wf (n : IPNet) : Prop := len (in_IP n) = len (in_Mask n).
Definition routes_wf (routes : list Route) : Prop :=
  Forall (fun r => match rt_Dst r with Some d => IPNet_wf d | None => True end) routes.

Lemma length_CIDRMask n : forall k, length (CIDRMask k n) = n.
Proof. induction n; intros k; cbn [CIDRMask]; [done|]. case_one; cbn; congruence. Qed.

Lemma prefixToIPNet_wf p : IPNet_wf (prefixToIPNet p).
Proof.
  unfold IPNet_wf, prefixToIPNet, len. cbn [in_IP in_Mask]. rewrite length_CIDRMask.
  destruct (p_Addr p); cbn [AsSlice BitLen]; rewrite ?length_be_bytes; done.
Qed.

(** On well-formed networks [ipNetEqual] is equality. *)
Lemma ipNetEqual_spec a b : IPNet_wf a -> IPNet_wf b -> ipNetEqual a b = true <-> a = b.
Proof.
  intros Ha Hb. unfold ipNetEqual, IP_Equal, IPNet_wf in *. rewrite andb_true_iff, bytesEqual_spec.
  destruct a as [ipa ma], b as [ipb mb]; cbn [in_IP in_Mask] in *. split.
  - intros [H ->]. rewrite Ha, Hb, Z.eqb_refl in H. unfold eqs in H. apply bool_decide_eq_true in H. congruence.
  - intros [= -> ->]. rewrite Z.eqb_refl. unfold eqs. by rewrite bool_decide_eq_true_2.
Qed.

(** The routes that were in the local table, as [RouteListFiltered] lists them. *)
Definition listed (os : route_os) : list Route :=
  match ro_RouteList os with Ok routes => routes | Err _ => [] end.

(** The kernel's local table (number 255) after the actions [l], of which a [RouteAdd] is the
    last, if there is one: a route goes to the table it names. *)
Definition local_table (os : route_os) (l : list route_action) : list Route :=
  listed os ++
  match ro_RouteAdd os with
  | None => omap (fun a => match a with
                           | RouteAdd r => if rt_Table r =? 255 then Some r else None
                           | _ => None end) l
  | Some _ => []
  end.

(** A route of type local (2) on the loopback link [lo]: its addresses are the host's own. *)
Definition local_route (lo : Z) (r : Route) : Prop :=
  rt_Type r = 2 /\ rt_LinkIndex r = lo /\ rt_Table r = 255.

Lemma route_exists_spec dst routes : routes_wf routes -> IPNet_wf dst ->
  route_exists dst routes = true <-> exists r, r ∈ routes /\ rt_Dst r = Some dst.
Proof.
  intros Hr Hd. unfold route_exists. rewrite existsb_exists. split.
  - intros (r & Hin & H). exists r. apply list_elem_of_In in Hin. split; [done|].
    unfold routes_wf in Hr. rewrite Forall_forall in Hr. specialize (Hr r Hin).
    destruct (rt_Dst r) as [d|]; [|done]. apply ipNetEqual_spec in H; congruence.
  - intros (r & Hin & H). exists r. split; [by apply list_elem_of_In|]. rewrite H. by apply ipNetEqual_spec.
Qed.

(** What [configureRoutesLinux] asks of the kernel when it succeeds. *)
Definition ipv6_sysctls (cidr : Prefix) : list route_action :=
  if Is6 (p_Addr cidr) then
    [WriteFile (str "/proc/sys/net/ipv6/ip_nonlocal_bind") (str "1");
     WriteFile (str "/proc/sys/net/ipv6/conf/all/disable_ipv6") (str "0")]
  else [].

Lemma configureRoutes_actions os cidr l :
  configureRoutesLinux os cidr = (None, l) ->
  exists lo routes, ro_LinkByName os = Ok lo /\ ro_RouteList os = Ok routes /\
    (route_exists (prefixToIPNet cidr) routes = true /\ l = ipv6_sysctls cidr \/
     route_exists (prefixToIPNet cidr) routes = false /\ ro_RouteAdd os = None /\
     l = ipv6_sysctls cidr ++ [RouteAdd (loopback_route lo (prefixToIPNet cidr))]).
Proof.
  unfold configureRoutesLinux, ipv6_sysctls. intros H.
  assert (exists k, addRouteToLoopback os cidr = (None, k) /\ l = ipv6_sysctls cidr ++ k) as (k & Hk & ->).
  { unfold ipv6_sysctls. destruct (Is6 (p_Addr cidr)).
    - unfold sysctlSet in H. repeat case_one_in H; cbn in H; try done.
      destruct (addRouteToLoopback os cidr) as [e k]. cbn in H. injection H as -> <-. by exists k.
    - destruct (addRouteToLoopback os cidr) as [e k]. cbn in H. injection H as -> <-. by exists k. }
  unfold addRouteToLoopback in Hk. destruct (ro_LinkByName os) as [lo|]; [|done].
  destruct (ro_RouteList os) as [routes|]; [|done]. exists lo, routes. split_and!; [done|done|].
  destruct (route_exists (prefixToIPNet cidr) routes); [injection Hk as <-; left; by rewrite app_nil_r|].
  destruct (ro_RouteAdd os); [done|]. injection Hk as <-. by right.
Qed.

(** C38: A server that passed [configureRoutes] can bind every source address it
    will choose. For every username extension and random draw, the selected address
    is matched by a destination of the kernel's local table (255) that covers exactly the
    CIDR: either one that was listed there, whatever its type, or the one just added, a local
    route (type 2) on the loopback interface in that table. A route is added exactly when
    none listed has the CIDR as its destination, and then only that one, and the two IPv6
    sysctls are written first exactly for an IPv6 CIDR. *)
Theorem configured_sources_routed os cidr cidrRange d e l :
  Prefix_ok cidr -> range_ok cidr cidrRange -> draws_ok d -> u64 (ext_Value e) ->
  routes_wf (listed os) -> configureRoutesLinux os cidr = (None, l) ->
  exists src lo, assignSourceIP d cidr cidrRange e = Ok src /\ ro_LinkByName os = Ok lo /\
  (exists r dst, r ∈ local_table os l /\ (r ∈ listed os \/ local_route lo r) /\ rt_Dst r = Some dst /\
     covers dst (AsSlice src) = true /\
     forall a, Addr_ok a -> zone_free a = true -> IsValid a = true ->
       covers dst (AsSlice a) = prefix_Contains cidr a) /\
  exists added, l = ipv6_sysctls cidr ++ added /\
    (added = [] <-> exists r, r ∈ listed os /\ rt_Dst r = Some (prefixToIPNet cidr)) /\
    (added <> [] -> exists r, added = [RouteAdd r] /\ local_route lo r /\ rt_Dst r = Some (prefixToIPNet cidr)).
Proof.
  intros Hp Hr Hd He Hwf (lo & routes & Elo & Hl & H)%configureRoutes_actions.
  destruct (assign_contained d cidr cidrRange e Hp Hr Hd He) as (src & Ea & Hok & Hin).
  exists src, lo. split; [done|]. split; [done|]. unfold local_table, listed in *. rewrite Hl in *.
  assert (covers (prefixToIPNet cidr) (AsSlice src) = true) as Hc.
  { rewrite prefixToIPNet_covers; [done|done|done| |]; unfold prefix_Contains in Hin; zbool; [done|].
    destruct src; [|done..]. destruct Hp as (_ & Hv & _). by destruct (p_Addr cidr). }
  assert (forall a, Addr_ok a -> zone_free a = true -> IsValid a = true ->
       covers (prefixToIPNet cidr) (AsSlice a) = prefix_Contains cidr a) as Hall
    by (intros; by apply prefixToIPNet_covers).
  pose proof (route_exists_spec (prefixToIPNet cidr) routes Hwf (prefixToIPNet_wf cidr)) as Hex.
  destruct H as [[Ht ->]|(Hf & Hadd & ->)].
  - pose proof (proj1 Hex Ht) as (r & Hr1 & Hr2). split.
    + exists r, (prefixToIPNet cidr). split_and!; [set_solver|by left|done|done|done].
    + exists []. rewrite app_nil_r. split; [done|]. split; [|done]. split; [intros _; by exists r|done].
  - split.
    + exists (loopback_route lo (prefixToIPNet cidr)), (prefixToIPNet cidr). split_and!; [|by right|done|done|done].
      rewrite Hadd, omap_app. cbn. set_solver.
    + eexists. split; [reflexivity|]. split; [|intros _; by eexists].
      split; [done|]. intros Hx. apply Hex in Hx. congruence.
Qed.

(** The first address of a network, and the second. *)
Lemma mask_low_pair v w b :
  0 <= b <= w -> in_width w v ->
  let h := w - b in
  mask_low v h / 2 ^ h = v / 2 ^ h /\
  ((mask_low v h + 1) / 2 ^ h = v / 2 ^ h <-> 0 < h) /\ (0 < h -> mask_low v h <> 2 ^ w - 1).
Proof.
  intros Hb Hv h. unfold mask_low. assert (0 <= h /\ w = h + b) as [Hh Hw] by lia. clearbody h.
  pose proof (pow2_pos h Hh) as Hpos.
  split; [by apply Z.div_mul; lia|]. split.
  - rewrite Z.add_comm, Z.div_add by lia. split.
    + intros H. destruct (Z.eq_dec h 0) as [->|]; [|lia]. change (1 / 2 ^ 0) with 1 in H. lia.
    + intros Hh0. assert (2 <= 2 ^ h) by (replace 2 with (2 ^ 1) at 1 by done; apply Z.pow_le_mono_r; lia).
      rewrite Z.div_small by lia. lia.
  - intros Hh0 E. assert (2 ^ w - 1 = 2 ^ h * (2 ^ b) - 1) as E2
      by (rewrite <- Z.pow_add_r by lia; by rewrite Hw).
    assert (2 <= 2 ^ h) by (replace 2 with (2 ^ 1) at 1 by done; apply Z.pow_le_mono_r; lia).
    assert (2 ^ h * (2 ^ b - v / 2 ^ h) = 1) as E3 by lia.
    apply Z.eq_mul_1_nonneg in E3 as [? _]; lia.
Qed.

Lemma probe_cases cidr : Prefix_ok cidr ->
  prefix_Contains cidr (probe_address cidr) = true /\
  (probe_address cidr = p_Addr (Masked cidr) <-> p_Bits cidr = BitLen (p_Addr cidr)).
Proof.
  intros (Ha & Hv & Hz & Hb). unfold probe_address, prefix_Contains, Masked.
  destruct cidr as [[|v|v z] bits]; [done| |]; cbn [p_Addr p_Bits BitLen Addr_value IsValid] in *.
  - destruct (mask_low_pair v 32 bits Hb Ha) as (H1 & H2 & H3). cbn zeta in *. cbn [Addr_Next].
    destruct (Z.eqb_spec (mask_low v (32 - bits)) (2 ^ 32 - 1)) as [E|E].
    + cbn. rewrite H1, Z.eqb_refl. split; [done|]. split; [|done]. intros _.
      destruct (Z.eq_dec bits 32); [done|]. destruct H3; [lia|done].
    + cbn [IsValid zone_free BitLen Addr_value andb]. rewrite Z.eqb_refl. cbn [andb].
      destruct (Z.eqb_spec ((mask_low v (32 - bits) + 1) / 2 ^ (32 - bits)) (v / 2 ^ (32 - bits))) as [E2|E2];
        cbn [zone_free BitLen Addr_value andb]; rewrite Z.eqb_refl; cbn [andb].
      * split; [by apply Z.eqb_eq|]. split; [intros [= ?]; lia|lia].
      * rewrite H1, Z.eqb_refl. split; [done|]. split; [lia|done].
  - destruct Ha as [Ha _]. destruct (mask_low_pair v 128 bits Hb Ha) as (H1 & H2 & H3). cbn zeta in *. cbn [Addr_Next].
    destruct (Z.eqb_spec (mask_low v (128 - bits)) (2 ^ 128 - 1)) as [E|E].
    + cbn. rewrite H1, Z.eqb_refl. split; [done|]. split; [|done]. intros _.
      destruct (Z.eq_dec bits 128); [done|]. destruct H3; [lia|done].
    + cbn [IsValid zone_free BitLen Addr_value andb]. rewrite Z.eqb_refl. cbn [andb].
      destruct (Z.eqb_spec ((mask_low v (128 - bits) + 1) / 2 ^ (128 - bits)) (v / 2 ^ (128 - bits))) as [E2|E2];
        cbn [zone_free BitLen Addr_value andb]; rewrite Z.eqb_refl; cbn [andb].
      * split; [by apply Z.eqb_eq|]. split; [intros [= ?]; lia|lia].
      * rewrite H1, Z.eqb_refl. split; [done|]. split; [lia|done].
Qed.

(** The address probed before serving is one of the CIDR, the second one unless
    the CIDR has a single address, so a network address is probed only for a /32 or
    a /128. A probe that fails is an error that stops the server. *)
Theorem probe_address_in_cidr os cidr :
  Prefix_ok cidr ->
  prefix_Contains cidr (probe_address cidr) = true /\
  (probe_address cidr = p_Addr (Masked cidr) <-> p_Bits cidr = BitLen (p_Addr cidr)) /\
  (fst (validateSourceCIDRLinux os cidr) = None <->
   ro_ListenTCP os = None /\ ro_CloseTCP os = None /\ ro_ListenUDP os = None /\ ro_CloseUDP os = None).
Proof.
  intros Hp. split; [|split].
  - apply (probe_cases cidr Hp).
  - apply (probe_cases cidr Hp).
  - unfold validateSourceCIDRLinux. destruct (ro_ListenTCP os), (ro_CloseTCP os), (ro_ListenUDP os), (ro_CloseUDP os);
      cbn; split; naive_solver.
Qed.

Lemma probe_address_in_cidr_witness :
  prefix_Contains (mkPrefix (Addr6 (0x20010db8 * 2 ^ 96 + 5) []) 48)
    (probe_address (mkPrefix (Addr6 (0x20010db8 * 2 ^ 96 + 5) []) 48)) = true /\
  probe_address (mkPrefix (Addr6 (0x20010db8 * 2 ^ 96 + 5) []) 48) = Addr6 (0x20010db8 * 2 ^ 96 + 1) [].
Proof.
  split; [|reflexivity].
  apply (probe_address_in_cidr (mkRouteOS (fun _ => None) (Ok 1) (Ok []) None None None None None)). by_decide.
Defined.

Lemma configured_sources_routed_witness :
  let os := mkRouteOS (fun _ => None) (Ok 1) (Ok []) None None None None None in
  let l := [RouteAdd (loopback_route 1 (prefixToIPNet (mkPrefix (Addr4 0x0A000000) 8)))] in
  configureRoutesLinux os (mkPrefix (Addr4 0x0A000000) 8) = (None, l) /\
  exists src, assignSourceIP (mkDraws 5 6 7) (mkPrefix (Addr4 0x0A000000) 8) None ext_None = Ok src /\
    exists r dst, r ∈ local_table os l /\ (r ∈ [] \/ local_route 1 r) /\
      rt_Dst r = Some dst /\ covers dst (AsSlice src) = true.
Proof.
  intros os l. split; [reflexivity|].
  destruct (configured_sources_routed os (mkPrefix (Addr4 0x0A000000) 8) None (mkDraws 5 6 7) ext_None l)
    as (src & lo & H1 & H2 & (r & dst & H3 & H4 & H5 & H6 & _) & _);
    [by_decide|by_decide|by_decide|by_decide|constructor|reflexivity|].
  injection H2 as <-. exists src. split; [exact H1|]. exists r, dst.
  split; [exact H3|]. split; [exact H4|]. split; [exact H5|exact H6].
Defined.
