(* ===== verification/Servers.v ===== *)
(** * The servers ([http/server.go], [socks/server.go], [auto.go], [serverbase.go])

    Construction, accept loops and shutdown of the HTTP(S), SOCKS5 and
    auto-detecting servers, and the protocol detection of the last. The system's
    answers are arguments; what a server does is a list of actions. The
    interleaving of accept loops, handlers and shutdown is in [Serverbase]. *)

From Stdlib Require Import ZArith Lia.
From stdpp Require Import base tactics numbers strings sets gmap list.
From S2P Require Import Prelude.
From S2P Require Import Netip.
From S2P Require Import Proto.
From S2P Require Import Ext.
From S2P Require Import Uint128.
From S2P Require Import SourceIP.
From S2P Require Import Handshake.
From S2P Require Import Config.
From S2P Require Import DnsCache.
From S2P Require Import UdpRuntime.
From S2P Require Import UdpRelay.
From S2P Require Import Serverbase.
From S2P Require Import Connector.
From S2P Require Import SocksServer.
From S2P Require Import HttpProxy.

(** ** Listeners *)

Record Context := mkContext {
  cx_Bind : AddrPort;
  cx_Concurrent : Z;
  cx_ConnectTimeout : Z;
  cx_Auth : AuthMode;
  cx_Connector : Connector;
  cx_UDP : UDPConfig;
  cx_ReusePort : bool
}.

(** What the system answers while a server is built: the [k]-th [Listen], the
    address and network of a listener, and the certificate functions. *)
Record listen_os := mkListenOS {
  lo_Listen : nat -> result Z;
  lo_Addr : Z -> AddrPort;
  lo_Network : Z -> bytes;
  lo_reusePortSupported : bool;
  lo_GOMAXPROCS : Z;
  lo_TLSFromFiles : bytes -> bytes -> option error;
  lo_TLSSelfSigned : option error
}.

Inductive listen_action :=
  | Listened (network : bytes) (addr : AddrPort) (reusePort : bool) (ln : Z)
  | CloseListener (ln : Z)
  | Cancel.

(** The loop over the remaining shards, [k] calls in. *)
Fixpoint listen_more (os : listen_os) (network : bytes) (resolved : AddrPort) (k n : nat) (listeners : list Z)
    : result (list Z) * list listen_action :=
  match n with
  | O => (Ok listeners, [])
  | S n =>
      match lo_Listen os k with
      | Err err => (Err err, CloseListener <$> listeners)
      | Ok ln =>
          let '(r, l) := listen_more os network resolved (S k) n (listeners ++ [ln]) in
          (r, Listened network resolved true ln :: l)
      end
  end.

Definition ListenTCPShards (os : listen_os) (network : bytes) (addr : AddrPort) (shards : Z)
    : result (list Z) * list listen_action :=
  let sharded := (1 <? shards) && lo_reusePortSupported os in
  let rest (k : nat) (first : Z) :=
    if negb sharded then (Ok [first], [])
    else listen_more os (lo_Network os first) (lo_Addr os first) k (Z.to_nat (shards - 1)) [first] in
  match lo_Listen os 0 with
  | Ok first =>
      let '(r, l) := rest 1%nat first in (r, Listened network addr sharded first :: l)
  | Err err =>
      if eqs network (str "tcp6") then
        match lo_Listen os 1 with
        | Ok first =>
            let '(r, l) := rest 2%nat first in (r, Listened (str "tcp") addr sharded first :: l)
        | Err err => (Err err, [])
        end
      else (Err err, [])
  end.

(** ** Construction *)

(** The three server types behind the [proxyServer] interface. *)
Inductive serverType := HttpServer | SocksServer | AutoDetectServer.

(** The fields the servers are built with; the TLS gate and configuration are
    those of the HTTP and auto-detecting servers ([ps_tls]: tlsConfig is set). *)
Record proxyServer := mkProxyServer {
  ps_type : serverType;
  ps_listener : Z;
  ps_extraListeners : list Z;
  ps_timeout : Z;
  ps_gate : gate;
  ps_tlsGate : gate;
  ps_tls : bool;
  ps_auth : AuthMode;
  ps_connector : Connector
}.

(** What a server serves: an [HttpServer] speaks HTTPS when it has a tlsConfig. *)
Definition ps_kind (s : proxyServer) : ProxyKind :=
  match ps_type s with
  | HttpServer => if ps_tls s then ProxyHTTPS else ProxyHTTP
  | SocksServer => ProxySocks5
  | AutoDetectServer => ProxyAuto
  end.

Definition bind_network (ctx : Context) : bytes :=
  if Is6 (ap_Addr (cx_Bind ctx)) then str "tcp6" else str "tcp4".

Definition bind_listeners (os : listen_os) (ctx : Context) : result (list Z) * list listen_action :=
  ListenTCPShards os (bind_network ctx) (cx_Bind ctx)
    (AcceptShards (cx_ReusePort ctx) (lo_reusePortSupported os) (lo_GOMAXPROCS os)).

Definition build (os : listen_os) (type : serverType) (ctx : Context) (tls : bool) (listeners : list Z) : proxyServer :=
  mkProxyServer type (hd 0 listeners) (tail listeners) (seconds (cx_ConnectTimeout ctx))
    (NewConnectionGate (cx_Concurrent ctx)) (NewTLSHandshakeGate (lo_GOMAXPROCS os) (cx_Concurrent ctx))
    tls (cx_Auth ctx) (cx_Connector ctx).

Definition http_NewServer (os : listen_os) (ctx : Context) : result proxyServer * list listen_action :=
  match bind_listeners os ctx with
  | (Err err, l) => (Err err, l ++ [Cancel])
  | (Ok listeners, l) => (Ok (build os HttpServer ctx false listeners), l)
  end.

Definition socks_NewServer (os : listen_os) (ctx : Context) : result proxyServer * list listen_action :=
  match bind_listeners os ctx with
  | (Err err, l) => (Err err, l ++ [Cancel])
  | (Ok listeners, l) => (Ok (build os SocksServer ctx false listeners), l)
  end.

Definition tls_config (os : listen_os) (certPath keyPath : bytes) : option error :=
  if negb (eqs certPath []) && negb (eqs keyPath []) then lo_TLSFromFiles os certPath keyPath
  else lo_TLSSelfSigned os.

Definition WithHTTPS (os : listen_os) (certPath keyPath : bytes) (s : proxyServer) : result proxyServer :=
  match tls_config os certPath keyPath with
  | Some err => Err err
  | None =>
      Ok (mkProxyServer (ps_type s) (ps_listener s) (ps_extraListeners s) (ps_timeout s) (ps_gate s)
            (ps_tlsGate s) true (ps_auth s) (ps_connector s))
  end.

Definition NewAutoDetectServer (os : listen_os) (ctx : Context) (certPath keyPath : bytes)
    : result proxyServer * list listen_action :=
  match bind_listeners os ctx with
  | (Err err, l) => (Err err, l ++ [Cancel])
  | (Ok listeners, l) =>
      match tls_config os certPath keyPath with
      | Some err => (Err err, l ++ (CloseListener <$> listeners) ++ [Cancel])
      | None => (Ok (build os AutoDetectServer ctx true listeners), l)
      end
  end.

Definition all_listeners (s : proxyServer) : list Z := ps_listener s :: ps_extraListeners s.

(** ** Shutdown *)

Record close_os := mkCloseOS {
  co_CloseAll : option error;
  co_CloseListener : Z -> option error;
  co_handlersStopped : bool;       (* WaitGroupTimeout *)
  co_udpWorkersStopped : bool
}.

Inductive close_action :=
  | CancelLifetime
  | CloseAllConns
  | CloseLn (ln : Z)
  | CloseIdle
  | WaitHandlers
  | WaitUDP.

Definition not_closed (e : option error) : option error :=
  match e with Some e => if errors_Is e ErrClosed then None else Some e | None => None end.

Definition isHTTP (k : ProxyKind) : bool := match k with ProxySocks5 => false | _ => true end.
Definition isSocks (k : ProxyKind) : bool := match k with ProxySocks5 | ProxyAuto => true | _ => false end.

Definition handlers_message (k : ProxyKind) : error :=
  match k with
  | ProxyHTTP | ProxyHTTPS => Errorf "HTTP handlers did not stop before shutdown timeout" []
  | ProxySocks5 => Errorf "SOCKS5 handlers did not stop before shutdown timeout" []
  | ProxyAuto => Errorf "auto-detect handlers did not stop before shutdown timeout" []
  end.

(** The body of [closeOnce.Do]: closeErr and the actions. *)
Definition close_body (os : close_os) (s : proxyServer) : option error * list close_action :=
  let connectionErr := co_CloseAll os in
  let listenerErr := foldl (fun acc ln => join2 acc (not_closed (co_CloseListener os ln)))
    (not_closed (co_CloseListener os (ps_listener s))) (ps_extraListeners s) in
  let waitErr := if co_handlersStopped os then None else Some (handlers_message (ps_kind s)) in
  let waitErr :=
    if isSocks (ps_kind s) && negb (co_udpWorkersStopped os)
    then join2 waitErr (Some (Errorf "SOCKS5 UDP workers did not stop before shutdown timeout" []))
    else waitErr in
  (errors_Join [connectionErr; listenerErr; waitErr],
   [CancelLifetime; CloseAllConns] ++ (CloseLn <$> all_listeners s) ++
   (if isHTTP (ps_kind s) then [CloseIdle] else []) ++ [WaitHandlers] ++
   (if isSocks (ps_kind s) then [WaitUDP] else [])).

(** [Close]: [once] is [None] before the first call and [closeErr] after it. *)
Definition Server_Close (os : close_os) (s : proxyServer) (once : option (option error))
    : option error * option (option error) * list close_action :=
  match once with
  | Some closeErr => (closeErr, once, [])
  | None => let '(closeErr, l) := close_body os s in (closeErr, Some closeErr, l)
  end.

(** The case of [newProxyServer]: a server whose TLS setup fails is closed. *)
Definition newProxyServer (os : listen_os) (cos : close_os) (proxy : ProxyConfig) (ctx : Context)
    : result proxyServer * list listen_action * list close_action :=
  match Kind proxy with
  | ProxyHTTP => (http_NewServer os ctx, [])
  | ProxyHTTPS =>
      match http_NewServer os ctx with
      | (Err err, l) => (Err err, l, [])
      | (Ok s, l) =>
          match WithHTTPS os (TLSCert proxy) (TLSKey proxy) s with
          | Ok s => (Ok s, l, [])
          | Err err => let '(_, _, c) := Server_Close cos s None in (Err err, l, c)
          end
      end
  | ProxySocks5 => (socks_NewServer os ctx, [])
  | ProxyAuto => (NewAutoDetectServer os ctx (TLSCert proxy) (TLSKey proxy), [])
  end.

(** ** Accept loops *)

(** [isClosed] of the http and socks packages, [isClosedErr] of [auto.go]: a
    [net.OpError] is the wrap of its cause. *)
Fixpoint as_OpError (e : error) : option error :=
  match e with
  | Wrap "OpError" cause => Some cause
  | Wrap _ e => as_OpError e
  | Joined a b => match as_OpError a with Some c => Some c | None => as_OpError b end
  | _ => None
  end.

Definition isClosed (e : error) : bool :=
  if errors_Is e ErrClosed then true
  else match as_OpError e with
       | Some cause => bool_decide (cause = Errorf "use of closed network connection" [])
       | None => false
       end.

(** The same text in the other two packages. *)
Definition socks_isClosed : error -> bool := isClosed.
Definition isClosedErr : error -> bool := isClosed.

(** One turn of a loop: what [Accept] returned, whether a slot was acquired
    before shutdown and whether the registry took the connection. *)
Record accept_event := mkAcceptEvent { ae_Accept : result Z; ae_acquired : bool; ae_added : bool }.

Inductive loop_action :=
  | Sleep50ms
  | LClose (conn : Z)
  | LRelease
  | LSpawn (conn : Z).      (* a handler goroutine, which releases the slot itself *)

(** Whether the loop returned, and what it did, over the turns [evs]. *)
Fixpoint acceptLoop (evs : list accept_event) : bool * list loop_action :=
  match evs with
  | [] => (false, [])
  | ev :: evs =>
      match ae_Accept ev with
      | Err err =>
          if isClosed err then (true, [])
          else let '(r, l) := acceptLoop evs in (r, Sleep50ms :: l)
      | Ok conn =>
          if negb (ae_acquired ev) then (true, [LClose conn])
          else if negb (ae_added ev) then
            let '(r, l) := acceptLoop evs in (r, [LRelease; LClose conn] ++ l)
          else let '(r, l) := acceptLoop evs in (r, LSpawn conn :: l)
      end
  end.

(** The loop of the auto-detecting server, whose [isClosedErr] is [isClosed]. *)
Definition auto_acceptLoop : list accept_event -> bool * list loop_action := acceptLoop.

(** ** Protocol detection *)

Inductive protocol := SOCKS5 | HTTPS | HTTP.

(** The switch of [AutoDetectServer.accept] on the first byte. *)
Definition detect (first : Z) : protocol :=
  if first =? 0x05 then SOCKS5 else if first <? 0x41 then HTTPS else HTTP.

(** How the types of connections the tunnels get half-close: a [*net.TCPConn] and
    a [*tls.Conn] have [CloseWrite], a [*bufferedConn] only the methods of
    [net.Conn] (and its [Read]). *)
Inductive conn_type := TCPConn | TLSConn | BufferedConn.

(** [serverbase.CloseWrite]: whether the write side is shut down. *)
Definition CloseWrite_effective (c : conn_type) : bool :=
  match c with
  | TCPConn => true
  | TLSConn => true
  | BufferedConn => false
  end.

(** The connection the handler of a protocol gets. *)
Definition handler_conn (p : protocol) : conn_type :=
  match p with SOCKS5 => BufferedConn | HTTPS => TLSConn | HTTP => TCPConn end.

Inductive auto_effect :=
  | ASetReadDeadline (d : option Z)
  | ASetDeadline (d : option Z)
  | AHandshake
  | AReleaseTLS
  | ASocks (l : list effect)
  | AHttp (l : list http_effect)
  | ACloseConn.

(** The serving loop over the requests that [http.ReadRequest] reads from the
    connection; it fails after the last one. *)
Fixpoint serve_loop (timeout : Z) (h : Handler) (reqs : list (http_env * http_request)) (p : transportPool)
    : list auto_effect * transportPool :=
  match reqs with
  | [] => ([ASetReadDeadline (Some timeout)], p)
  | (ev, req) :: rest =>
      let '((keepAlive, _, l), p) := http_Proxy ev h req p in
      let head := [ASetReadDeadline (Some timeout); ASetReadDeadline None; AHttp l] in
      if negb keepAlive then (head, p)
      else let '(l', p) := serve_loop timeout h rest p in (head ++ l', p)
  end.

Definition serveHTTP (timeout : Z) (h : Handler) (reqs : list (http_env * http_request)) (p : transportPool)
    : list auto_effect * transportPool :=
  let '(l, p) := serve_loop timeout h reqs p in (l ++ [ACloseConn], p).

(** [serveHTTPS]: [acquired] is what [tlsGate.AcquireUntil] returned. *)
Definition serveHTTPS (timeout : Z) (h : Handler) (acquired : bool) (handshake : option error)
    (reqs : list (http_env * http_request)) (p : transportPool) : list auto_effect * transportPool :=
  if negb acquired then ([ASetDeadline (Some timeout); ACloseConn], p)
  else
    match handshake with
    | Some _ => ([ASetDeadline (Some timeout); AHandshake; AReleaseTLS; ACloseConn], p)
    | None =>
        let '(l, p) := serve_loop timeout h reqs p in
        ([ASetDeadline (Some timeout); AHandshake; AReleaseTLS; ASetDeadline None] ++ l ++ [ACloseConn], p)
    end.

(** [HttpServer.accept]'s loop: it also stops when the handler fails. *)
Fixpoint accept_loop (timeout : Z) (h : Handler) (reqs : list (http_env * http_request)) (p : transportPool)
    : list auto_effect * transportPool :=
  match reqs with
  | [] => ([ASetReadDeadline (Some timeout)], p)
  | (ev, req) :: rest =>
      let '((keepAlive, err, l), p) := http_Proxy ev h req p in
      let head := [ASetReadDeadline (Some timeout); ASetReadDeadline None; AHttp l] in
      match err with
      | Some _ => (head, p)
      | None =>
          if negb keepAlive then (head, p)
          else let '(l', p) := accept_loop timeout h rest p in (head ++ l', p)
      end
  end.

(** [HttpServer.accept]; [tls] when the server has a TLS configuration. *)
Definition HttpServer_accept (timeout : Z) (h : Handler) (tls acquired : bool) (handshake : option error)
    (reqs : list (http_env * http_request)) (p : transportPool) : list auto_effect * transportPool :=
  let serve pre := let '(l, p) := accept_loop timeout h reqs p in (pre ++ l ++ [ACloseConn], p) in
  if tls then
    let pre := [ASetDeadline (Some timeout)] in
    if negb acquired then (pre ++ [ACloseConn], p)
    else
      match handshake with
      | Some _ => (pre ++ [AHandshake; AReleaseTLS; ACloseConn], p)
      | None => serve (pre ++ [AHandshake; AReleaseTLS; ASetDeadline None])
      end
  else serve [].

(** What the environment does during [accept] beyond the client's bytes. *)
Record auto_env := mkAutoEnv {
  av_socks : env;
  av_acquired : bool;
  av_handshake : option error;
  av_requests : list (http_env * http_request)
}.

(** [AutoDetectServer.accept]: [Peek(1)] leaves the byte in the buffered reader,
    through which every handler reads. *)
Definition auto_accept (av : auto_env) (auth : AuthMode) (connector : Connector) (timeout : Z)
    (udp : udpRuntime) (p : transportPool) (s : stream) : option (list auto_effect * transportPool) :=
  let h := NewHandler auth connector in
  match unread s with
  | [] => Some ([ASetReadDeadline (Some timeout); ACloseConn], p)
  | first :: _ =>
      let pre := [ASetReadDeadline (Some timeout); ASetReadDeadline None] in
      match detect first with
      | SOCKS5 =>
          match Accept (av_socks av) (NewAcceptor_auth auth) connector timeout udp s with
          | Some (_, _, l) => Some (pre ++ [ASocks l], p)
          | None => None
          end
      | HTTPS =>
          let '(l, p) := serveHTTPS timeout h (av_acquired av) (av_handshake av) (av_requests av) p in
          Some (pre ++ l, p)
      | HTTP =>
          let '(l, p) := serveHTTP timeout h (av_requests av) p in Some (pre ++ l, p)
      end
  end.

(** ** Listeners are not leaked *)

Definition ln_track (open : list Z) (a : listen_action) : list Z :=
  match a with
  | Listened _ _ _ ln => ln :: open
  | CloseListener ln => filter (fun x => x <> ln) open
  | Cancel => open
  end.
Definition ln_open (l : list listen_action) : list Z := foldl ln_track [] l.

Lemma close_all_tracked ls open :
  (forall x, x ∈ open -> x ∈ ls) -> foldl ln_track open (CloseListener <$> ls) = [].
Proof.
  revert open. induction ls as [|a ls IH]; intros open H; cbn.
  - destruct open as [|x open]; [done|]. specialize (H x). set_solver.
  - apply IH. intros x [Hx1 Hx2]%list_elem_of_filter. specialize (H x Hx2). set_solver.
Qed.

Lemma listen_more_open os network resolved n : forall k listeners open r l,
  (forall x, x ∈ open <-> x ∈ listeners) ->
  listen_more os network resolved k n listeners = (r, l) ->
  match r with
  | Ok ls => (forall x, x ∈ foldl ln_track open l <-> x ∈ ls) /\ length ls = (length listeners + n)%nat /\
             (exists more, ls = listeners ++ more)
  | Err _ => foldl ln_track open l = []
  end.
Proof.
  induction n as [|n IH]; intros k listeners open r l Ho; cbn.
  - intros [= <- <-]. cbn. split; [done|]. split; [lia|]. exists []. by rewrite app_nil_r.
  - destruct (lo_Listen os k) as [ln|e].
    + destruct (listen_more os network resolved (S k) n (listeners ++ [ln])) as [r' l'] eqn:E.
      intros [= <- <-]. cbn. eapply (IH _ _ (ln :: open)) in E; [|set_solver].
      destruct r' as [ls|]; [|done]. destruct E as (H1 & H2 & more & H3).
      split; [done|]. rewrite H2, length_app. cbn. split; [lia|]. exists (ln :: more). by rewrite H3, <- app_assoc.
    + intros [= <- <-]. apply close_all_tracked. set_solver.
Qed.

Lemma ListenTCPShards_open os network addr shards r l :
  ListenTCPShards os network addr shards = (r, l) ->
  match r with
  | Ok ls => (forall x, x ∈ ln_open l <-> x ∈ ls) /\
             len ls = (if (1 <? shards) && lo_reusePortSupported os then shards else 1) /\ ls <> []
  | Err _ => ln_open l = []
  end.
Proof.
  unfold ListenTCPShards. set (sharded := (1 <? shards) && lo_reusePortSupported os).
  assert (forall k first net addr' r l,
    (let '(r, l) := (if negb sharded then (Ok [first], [])
       else listen_more os (lo_Network os first) (lo_Addr os first) k (Z.to_nat (shards - 1)) [first]) in
     (r, Listened net addr' sharded first :: l)) = (r, l) ->
    match r with
    | Ok ls => (forall x, x ∈ ln_open l <-> x ∈ ls) /\ len ls = (if sharded then shards else 1) /\ ls <> []
    | Err _ => ln_open l = []
    end) as G.
  { intros k first net addr' r' l'. destruct sharded eqn:Es; cbn [negb].
    - destruct (listen_more _ _ _ _ _ _) as [r2 l2] eqn:E. intros [= <- <-].
      apply (listen_more_open _ _ _ _ _ _ [first]) in E; [|done]. destruct r2 as [ls|]; [|done].
      destruct E as (H1 & H2 & more & H3). split; [done|].
      split; [|by rewrite H3]. subst sharded. zbool. unfold len. rewrite H2. cbn. lia.
    - intros [= <- <-]. done. }
  destruct (lo_Listen os 0) as [first|e0]; [apply G|].
  case_one; [|by intros [= <- <-]]. destruct (lo_Listen os 1) as [first|e1]; [apply G|by intros [= <- <-]].
Qed.

Lemma build_listeners os kind ctx tls ls : ls <> [] -> all_listeners (build os kind ctx tls ls) = ls.
Proof. by destruct ls. Qed.

Lemma bind_listeners_open os ctx r l :
  bind_listeners os ctx = (r, l) ->
  (Cancel ∉ l) /\
  match r with
  | Ok ls => (forall x, x ∈ ln_open l <-> x ∈ ls) /\ ls <> [] /\
             (cx_ReusePort ctx = false -> length ls = 1%nat)
  | Err _ => ln_open l = []
  end.
Proof.
  intros E. split.
  - revert E. unfold bind_listeners, ListenTCPShards.
    assert (forall net resolved n k ls r l, listen_more os net resolved k n ls = (r, l) -> Cancel ∉ l) as Hm.
    { clear. intros net resolved n. induction n as [|n IH]; intros k ls r l; cbn; [intros [= <- <-]; set_solver|].
      destruct (lo_Listen os k).
      - destruct (listen_more _ _ _ _ _ _) as [r' l'] eqn:E. intros [= <- <-]. specialize (IH _ _ _ _ E). set_solver.
      - intros [= <- <-]. rewrite list_elem_of_fmap. by intros (? & ? & ?). }
    repeat case_one; intros; simplify_eq; try set_solver;
      match goal with H : listen_more _ _ _ _ _ _ = _ |- _ => apply Hm in H; set_solver end.
  - apply ListenTCPShards_open in E. destruct r as [ls|]; [|done]. destruct E as (H1 & H2 & H3).
    split; [done|]. split; [done|]. intros Hr. unfold AcceptShards in H2. rewrite Hr in H2. cbn in H2.
    unfold len in H2. lia.
Qed.

Lemma newProxyServer_spec os cos proxy ctx :
  match newProxyServer os cos proxy ctx with
  | (Ok s, l, c) =>
      (forall x, x ∈ ln_open l <-> x ∈ all_listeners s) /\ c = [] /\ (Cancel ∉ l) /\
      ps_kind s = Kind proxy /\ ps_auth s = cx_Auth ctx /\ ps_connector s = cx_Connector ctx /\
      ps_gate s = NewConnectionGate (cx_Concurrent ctx) /\
      (cx_ReusePort ctx = false -> ps_extraListeners s = [])
  | (Err _, l, c) =>
      (forall x, x ∈ ln_open l -> CloseLn x ∈ c) /\ (Cancel ∈ l \/ CancelLifetime ∈ c)
  end.
Proof.
  unfold newProxyServer, http_NewServer, socks_NewServer, NewAutoDetectServer.
  destruct (bind_listeners os ctx) as [r l] eqn:E. apply bind_listeners_open in E as [Hc E].
  destruct r as [ls|e].
  - destruct E as (H1 & H2 & H3).
    assert (cx_ReusePort ctx = false -> tail ls = []) as Ht by (intros Hr; specialize (H3 Hr); by destruct ls as [|? [|]]).
    destruct (Kind proxy); try (rewrite build_listeners by done; by split_and!).
    + unfold WithHTTPS. destruct (tls_config _ _ _); [|split_and!; try done; intros x; rewrite H1; by destruct ls].
      cbn. split; [|right; set_solver]. intros x Hx%H1. destruct ls as [|y ls]; [done|]. cbn.
      do 2 right. rewrite elem_of_cons, elem_of_app, list_elem_of_fmap. apply elem_of_cons in Hx as [->|Hx]; eauto.
    + destruct (tls_config _ _ _); [|rewrite build_listeners by done; by split_and!].
      split; [|left; set_solver]. unfold ln_open in *. rewrite foldl_app, foldl_app, close_all_tracked by (intros x; apply H1).
      cbn. set_solver.
  - destruct (Kind proxy); unfold ln_open in *; (split; [rewrite foldl_app, E; cbn; set_solver|left; set_solver]).
Qed.

Lemma newProxyServer_timeout os cos proxy ctx s l c :
  newProxyServer os cos proxy ctx = (Ok s, l, c) -> ps_timeout s = seconds (cx_ConnectTimeout ctx).
Proof.
  unfold newProxyServer, http_NewServer, socks_NewServer, NewAutoDetectServer, WithHTTPS.
  repeat case_one; intros; simplify_eq; done.
Qed.

(** C33: A server is built completely or not at all. When [newProxyServer] returns
    a server, it has the listeners that were opened and are still open (one unless
    port sharding is on), its lifetime is not canceled, and it has the kind, the credentials, the connector
    and the gate of the configuration; when it fails at any point (a shard that cannot bind, a
    certificate that cannot be read) every listener opened before has been closed,
    by the constructor or by the close of the half-built server, and the lifetime
    is canceled. *)
Theorem newProxyServer_complete os cos proxy ctx :
  match newProxyServer os cos proxy ctx with
  | (Ok s, l, c) =>
      (forall x, x ∈ ln_open l <-> x ∈ all_listeners s) /\ c = [] /\ (Cancel ∉ l) /\
      ps_kind s = Kind proxy /\ ps_auth s = cx_Auth ctx /\ ps_connector s = cx_Connector ctx /\
      ps_gate s = NewConnectionGate (cx_Concurrent ctx) /\
      (cx_ReusePort ctx = false -> ps_extraListeners s = [])
  | (Err _, l, c) =>
      (forall x, x ∈ ln_open l -> CloseLn x ∈ c) /\ (Cancel ∈ l \/ CancelLifetime ∈ c)
  end.
Proof. apply newProxyServer_spec. Qed.

(** ** Shutdown *)

Definition listeners_closed (l : list close_action) : list Z :=
  omap (fun a => match a with CloseLn ln => Some ln | _ => None end) l.

Lemma listeners_closed_fmap ls : listeners_closed (CloseLn <$> ls) = ls.
Proof. induction ls as [|x ls IH]; [done|]. unfold listeners_closed in *. cbn. by rewrite IH. Qed.

Lemma close_body_listeners os s : listeners_closed (snd (close_body os s)) = all_listeners s.
Proof.
  unfold all_listeners, listeners_closed. cbn. f_equal. rewrite omap_app.
  etransitivity; [apply (f_equal (fun l => l ++ _)), (listeners_closed_fmap (ps_extraListeners s))|].
  by destruct (isHTTP (ps_kind s)), (isSocks (ps_kind s)); cbn; rewrite app_nil_r.
Qed.

Lemma join2_None a b : join2 a b = None <-> a = None /\ b = None.
Proof. destruct a, b; cbn; naive_solver. Qed.

Lemma listener_errors_None (f : Z -> option error) ls acc :
  foldl (fun acc ln => join2 acc (not_closed (f ln))) acc ls = None <->
  acc = None /\ Forall (fun ln => not_closed (f ln) = None) ls.
Proof.
  revert acc. induction ls as [|x ls IH]; intros acc; cbn; [by rewrite Forall_nil; tauto|].
  rewrite IH, join2_None, Forall_cons. tauto.
Qed.

(** Shutdown. The first [Close] of a server cancels the lifetime, closes the
    registered connections and every listener (whichever closes fail) and only then
    waits for the handlers; it reports an error exactly when closing a connection
    failed, a listener failed with anything but "already closed", or handlers (or
    the UDP workers, for a server that speaks SOCKS5) outlived the timeout. Every
    later call does nothing and returns the same result. *)
Theorem Server_Close_spec os s :
  let '(closeErr, once, l) := Server_Close os s None in
  (closeErr = None <->
     co_CloseAll os = None /\ Forall (fun ln => not_closed (co_CloseListener os ln) = None) (all_listeners s) /\
     co_handlersStopped os = true /\ (isSocks (ps_kind s) = true -> co_udpWorkersStopped os = true)) /\
  listeners_closed l = all_listeners s /\
  (exists waits, l = [CancelLifetime; CloseAllConns] ++ (CloseLn <$> all_listeners s) ++ waits /\
     WaitHandlers ∈ waits) /\
  (forall os', Server_Close os' s once = (closeErr, once, [])).
Proof.
  cbn. split; [|split; [|split; [|done]]].
  - unfold all_listeners. rewrite !join2_None, listener_errors_None, Forall_cons.
    destruct (co_handlersStopped os), (isSocks (ps_kind s)), (co_udpWorkersStopped os); cbn; naive_solver.
  - apply (close_body_listeners os s).
  - eexists. split; [reflexivity|]. destruct (isHTTP (ps_kind s)); set_solver.
Qed.

(** ** Accept loops *)

(** A turn after which the loop returns. *)
Definition ends (ev : accept_event) : bool :=
  match ae_Accept ev with Err e => isClosed e | Ok _ => negb (ae_acquired ev) end.

Definition disposed (l : list loop_action) : list Z :=
  omap (fun a => match a with LClose c | LSpawn c => Some c | _ => None end) l.
Definition spawned (l : list loop_action) : list Z :=
  omap (fun a => match a with LSpawn c => Some c | _ => None end) l.
Definition accepted (evs : list accept_event) : list Z :=
  omap (fun ev => match ae_Accept ev with Ok c => Some c | Err _ => None end) evs.
Definition served (evs : list accept_event) : list Z :=
  omap (fun ev => match ae_Accept ev with
                  | Ok c => if ae_acquired ev && ae_added ev then Some c else None
                  | Err _ => None end) evs.

Definition released (l : list loop_action) : nat :=
  length (omap (fun a => match a with LRelease => Some tt | _ => None end) l).
Definition refused (evs : list accept_event) : nat :=
  length (omap (fun ev => match ae_Accept ev with
                  | Ok c => if ae_acquired ev && negb (ae_added ev) then Some c else None
                  | Err _ => None end) evs).

(** The accept loop loses no connection. Until its listener is closed or the
    shutdown starts the loop goes on, whatever other errors [Accept] gives. Every
    connection it accepts is disposed of exactly once and in order, handed to a
    handler when it got a slot and was registered and closed otherwise, and each
    slot acquired for a connection that was not registered is released. *)
Theorem acceptLoop_accounts (pre : list accept_event) (last : accept_event) (post : list accept_event) :
  Forall (fun ev => ends ev = false) pre -> ends last = true ->
  fst (acceptLoop pre) = false /\
  exists l, acceptLoop (pre ++ last :: post) = (true, l) /\
    disposed l = accepted (pre ++ [last]) /\ spawned l = served pre /\ released l = refused pre.
Proof.
  intros Hpre Hlast. induction Hpre as [|ev pre Hev _ (IH0 & l & IH1 & IH2 & IH3 & IH4)].
  - split; [done|]. unfold ends in Hlast. cbn. destruct (ae_Accept last) as [c|e] eqn:Ea; rewrite Hlast;
      eexists; (split; [reflexivity|]); unfold accepted; cbn; by rewrite ?Ea.
  - unfold ends in Hev. cbn [acceptLoop app]. rewrite IH1. destruct (acceptLoop pre) as [r0 l0]. cbn in IH0. subst r0.
    unfold accepted, served, refused in *. cbn [omap list_omap app].
    destruct (ae_Accept ev) as [c|e]; rewrite Hev.
    + apply negb_false_iff in Hev. rewrite Hev. cbn [andb].
      destruct (ae_added ev); cbn [negb]; (split; [done|]); eexists; (split; [reflexivity|]); cbn;
        unfold disposed, spawned, released in *; cbn; by rewrite IH2, IH3, IH4.
    + split; [done|]. eexists. split; [reflexivity|]. done.
Qed.

Lemma acceptLoop_accounts_witness :
  exists l, acceptLoop ([mkAcceptEvent (Ok 4) true true; mkAcceptEvent (Err (Errno 24)) false false;
                         mkAcceptEvent (Ok 5) true false] ++ [mkAcceptEvent (Ok 6) false false]) = (true, l) /\
    disposed l = [4; 5; 6] /\ spawned l = [4] /\ released l = 1%nat.
Proof.
  apply (acceptLoop_accounts [mkAcceptEvent (Ok 4) true true; mkAcceptEvent (Err (Errno 24)) false false;
    mkAcceptEvent (Ok 5) true false] (mkAcceptEvent (Ok 6) false false) []); [by_decide|reflexivity].
Defined.

(** ** The auto-detecting server *)

(** The serving loops of [auto.go] ignore the handler's error, that of the HTTP
    server stops at it; both do the same, since the handler never asks to keep a
    connection alive when it fails. *)
Definition http_part (l : list auto_effect) : list http_effect :=
  concat (omap (fun a => match a with AHttp l => Some l | ACloseConn => Some [HCloseClient] | _ => None end) l).

Lemma http_part_app l k : http_part (l ++ k) = http_part l ++ http_part k.
Proof. unfold http_part. by rewrite omap_app, concat_app. Qed.

Lemma http_Proxy_error_closes ev h req p keepAlive e l p' :
  http_Proxy ev h req p = ((keepAlive, Some e, l), p') -> keepAlive = false.
Proof.
  unfold http_Proxy. destruct (http_Authenticate _ _ _); [|by intros [= <- <- <-]].
  case_one.
  - unfold http_handleConnect. repeat case_one; intros; simplify_eq; done.
  - unfold forwardRequest. repeat case_one; intros; simplify_eq; done.
Qed.

Lemma serveHTTP_http_serve timeout h reqs : forall p l p',
  serveHTTP timeout h reqs p = (l, p') -> http_serve h reqs p = (http_part l, p').
Proof.
  unfold serveHTTP. induction reqs as [|[ev req] reqs IH]; intros p l p'; cbn [serve_loop http_serve].
  - by intros [= <- <-].
  - destruct (http_Proxy ev h req p) as [[[keepAlive err] k] p1] eqn:E.
    specialize (IH p1). destruct (serve_loop timeout h reqs p1) as [l1 p2].
    destruct err as [e|].
    + apply http_Proxy_error_closes in E as ->. cbn [negb]. intros [= <- <-]. done.
    + destruct keepAlive; cbn [negb]; intros [= <- <-]; [|done].
      rewrite (IH _ _ eq_refl). unfold http_part. cbn. done.
Qed.

Lemma accept_loop_serve_loop timeout h reqs : forall p, accept_loop timeout h reqs p = serve_loop timeout h reqs p.
Proof.
  induction reqs as [|[ev req] reqs IH]; intros p; [done|]. cbn [accept_loop serve_loop].
  destruct (http_Proxy ev h req p) as [[[keepAlive err] k] p1] eqn:E. rewrite IH.
  destruct err; [by apply http_Proxy_error_closes in E as ->|done].
Qed.

(** A client of the auto-detecting server that speaks HTTP, in the clear or over
    TLS, is served exactly as one of the HTTP or HTTPS server: the two
    implementations of the connection handler do the same, deadlines, handshake
    gate and closing included. *)
Theorem HttpServer_accept_auto timeout h tls acquired handshake reqs p :
  HttpServer_accept timeout h tls acquired handshake reqs p =
  if tls then serveHTTPS timeout h acquired handshake reqs p else serveHTTP timeout h reqs p.
Proof.
  unfold HttpServer_accept, serveHTTPS, serveHTTP. rewrite !accept_loop_serve_loop.
  by destruct tls, acquired, handshake, (serve_loop timeout h reqs p).
Qed.

(** A request's effects beyond its reply. *)
Definition http_network (x : http_effect) : bool :=
  match x with
  | HDial _ _ | HForward _ _ | HTunnel _ | RoundTrip _ _ _ _ => true
  | _ => false
  end.

Definition auto_network (a : auto_effect) : bool :=
  match a with
  | ASocks l => existsb network l
  | AHttp l => existsb http_network l
  | _ => false
  end.

Lemma http_Proxy_network ev h req p o p' :
  http_Proxy ev h req p = (o, p') -> existsb http_network (snd o) = true ->
  exists ext, http_Authenticate (he_now ev) (hd_auth h) (hq_Header req) = Ok ext.
Proof.
  unfold http_Proxy. destruct (http_Authenticate _ _ _) as [ext|]; [by eexists|]. by intros [= <- <-].
Qed.

(** The handler runs of a connection, in order. *)
Definition http_runs (l : list auto_effect) : list (list http_effect) :=
  omap (fun a => match a with AHttp k => Some k | _ => None end) l.

Lemma http_runs_app l k : http_runs (l ++ k) = http_runs l ++ http_runs k.
Proof. apply omap_app. Qed.

Definition silent (a : auto_effect) : bool := match a with ASocks _ | AHttp _ => false | _ => true end.

(** What [l] does beyond deadlines, the handshake and the close is done by handler runs, each
    for the request of its own position on the connection and on a transport pool in which
    [inv] holds. *)
Definition served_runs (inv : transportPool -> Prop) (h : Handler) (reqs : list (http_env * http_request))
    (l : list auto_effect) : Prop :=
  forall j a, l !! j = Some a -> silent a = false ->
  exists ev req q o q',
    reqs !! length (http_runs (take j l)) = Some (ev, req) /\ inv q /\
    http_Proxy ev h req q = (o, q') /\ a = AHttp (snd o).

(** The network activity of [l] is that of handler runs, each of which serves the request of
    its own position, whose credentials were accepted. *)
Definition authenticated_runs (h : Handler) (reqs : list (http_env * http_request)) (l : list auto_effect) : Prop :=
  forall j a, l !! j = Some a -> auto_network a = true ->
  exists ev req ext q o q',
    reqs !! length (http_runs (take j l)) = Some (ev, req) /\
    http_Authenticate (he_now ev) (hd_auth h) (hq_Header req) = Ok ext /\
    http_Proxy ev h req q = (o, q') /\ a = AHttp (snd o).

Lemma silent_runs pre : Forall silent pre -> http_runs pre = [].
Proof.
  induction pre as [|a pre IH]; [done|]. intros [Ha Hp]%Forall_cons. unfold http_runs in *. cbn.
  destruct a; try done; by apply IH.
Qed.

Lemma network_loud a : auto_network a = true -> silent a = false.
Proof. by destruct a. Qed.

Lemma served_authenticated inv h reqs l : served_runs inv h reqs l -> authenticated_runs h reqs l.
Proof.
  intros H j a Hj Ha. destruct (H j a Hj (network_loud a Ha)) as (ev & req & q & o & q' & H1 & _ & H2 & ->).
  destruct (http_Proxy_network _ _ _ _ _ _ H2 Ha) as [ext Hx]. by exists ev, req, ext, q, o, q'.
Qed.

Lemma served_app inv h reqs pre l post :
  Forall silent pre -> Forall silent post ->
  served_runs inv h reqs l -> served_runs inv h reqs (pre ++ l ++ post).
Proof.
  intros Hpre Hpost H j a Hj Ha.
  assert (forall k, Forall silent k -> a ∈ k -> False) as Hs.
  { intros k Hk Hin. rewrite Forall_forall in Hk. specialize (Hk a Hin). by rewrite Ha in Hk. }
  rewrite lookup_app in Hj. destruct (pre !! j) eqn:E; simplify_eq;
    [exfalso; eapply Hs; [exact Hpre|by eapply list_elem_of_lookup_2]|].
  apply lookup_ge_None in E. rewrite lookup_app in Hj.
  destruct (l !! (j - length pre)%nat) eqn:El; simplify_eq;
    [|exfalso; eapply Hs; [exact Hpost|by eapply list_elem_of_lookup_2]].
  destruct (H _ _ El Ha) as (ev & req & q & o & q' & H1 & H2). exists ev, req, q, o, q'.
  split; [|done]. rewrite <- H1. f_equal. apply lookup_lt_Some in El.
  rewrite take_app_ge, take_app_le by lia. by rewrite http_runs_app, (silent_runs pre).
Qed.

Lemma served_silent inv h reqs l : Forall silent l -> served_runs inv h reqs l.
Proof.
  intros Hl j a Hj%list_elem_of_lookup_2 Ha. rewrite Forall_forall in Hl. specialize (Hl a Hj). by rewrite Ha in Hl.
Qed.

Lemma served_cons (inv : transportPool -> Prop) h reqs ev req q o q' l :
  inv q -> http_Proxy ev h req q = (o, q') -> served_runs inv h reqs l ->
  served_runs inv h ((ev, req) :: reqs) (AHttp (snd o) :: l).
Proof.
  intros Hq E H [|j] a Hj Ha; cbn in Hj.
  - injection Hj as <-. by exists ev, req, q, o, q'.
  - destruct (H j a Hj Ha) as (ev' & req' & r & o' & r' & H1 & H2). by exists ev', req', r, o', r'.
Qed.

Section runs.
Context (inv : transportPool -> Prop) (h : Handler).
Hypothesis inv_Proxy : forall ev req q o q', inv q -> http_Proxy ev h req q = (o, q') -> inv q'.

Lemma serve_loop_runs timeout reqs : forall p l p',
  serve_loop timeout h reqs p = (l, p') -> inv p -> inv p' /\ served_runs inv h reqs l.
Proof.
  induction reqs as [|[ev req] reqs IH]; intros p l p'; cbn [serve_loop].
  - intros [= <- <-] Hp. split; [done|]. apply served_silent. by repeat constructor.
  - destruct (http_Proxy ev h req p) as [[[keepAlive err] k] p1] eqn:E. specialize (IH p1).
    destruct (serve_loop timeout h reqs p1) as [l1 p2]. intros H Hp.
    destruct (IH _ _ eq_refl (inv_Proxy _ _ _ _ _ Hp E)) as [Hp2 Hl].
    assert (forall l', served_runs inv h reqs l' -> served_runs inv h ((ev, req) :: reqs)
      ([ASetReadDeadline (Some timeout); ASetReadDeadline None] ++ (AHttp k :: l') ++ [])) as G.
    { intros l' Hl'. apply served_app; [by repeat constructor|done|]. by apply (served_cons _ _ _ _ _ _ _ _ _ Hp E). }
    destruct keepAlive; cbn [negb] in H; injection H as <- <-.
    + split; [done|]. specialize (G l1 Hl). by rewrite app_nil_r in G.
    + split; [exact (inv_Proxy _ _ _ _ _ Hp E)|]. apply (G []), served_silent. done.
Qed.

Lemma serveHTTP_runs timeout reqs p l p' :
  serveHTTP timeout h reqs p = (l, p') -> inv p -> inv p' /\ served_runs inv h reqs l.
Proof.
  unfold serveHTTP. destruct (serve_loop _ _ _ _) as [k p1] eqn:E. intros [= <- <-] Hp.
  destruct (serve_loop_runs _ _ _ _ _ E Hp). split; [done|].
  apply (served_app _ _ _ []); [done|by repeat constructor|done].
Qed.

Lemma serveHTTPS_runs timeout acquired handshake reqs p l p' :
  serveHTTPS timeout h acquired handshake reqs p = (l, p') -> inv p -> inv p' /\ served_runs inv h reqs l.
Proof.
  unfold serveHTTPS. destruct acquired, handshake; cbn [negb];
    try (intros [= <- <-] ?; split; [done|]; apply served_silent; by repeat constructor).
  destruct (serve_loop _ _ _ _) as [k p1] eqn:E. intros [= <- <-] Hp.
  destruct (serve_loop_runs _ _ _ _ _ E Hp). split; [done|].
  apply (served_app _ _ _ [_; _; _; _]); [by repeat constructor..|done].
Qed.
End runs.

(** C24: One port, every protocol, the same credentials. On the auto-detecting
    server with a username and password configured, a connection that causes any
    network activity has authenticated in the protocol its first byte selects,
    whatever writes fail: as SOCKS5 (the handler sees the byte again) with the
    username/password message, or over HTTP, after the TLS handshake where the byte
    selects it, and then for every request anew: each activity is that of the
    handler run for the request of the same position on the connection, and the
    credentials of that request were accepted. *)
Theorem auto_requires_credentials av u p connector timeout udp pool s l pool' :
  u <> [] -> p <> [] -> bytes_ok (unread s) ->
  auto_accept av (mkAuthMode u p) connector timeout udp pool s = Some (l, pool') ->
  (exists a, a ∈ l /\ auto_network a = true) ->
  exists first rest, unread s = first :: rest /\
  match detect first with
  | SOCKS5 =>
      exists ms uname rest,
        unread s = method_message ms ++ userpass_message (mkUserPass uname p) ++ rest /\
        MethodPassword ∈ ms /\ HasPrefix uname u = true /\
        Authenticate (ev_now (av_socks av)) (PasswordConfig u p) s
          = (true, Ok (TryFrom (ev_now (av_socks av)) u uname), after s rest [[5; 2]; [1; 0]])
  | HTTPS => av_acquired av = true /\ av_handshake av = None /\
      authenticated_runs (mkHandler (PasswordAuth u p) connector) (av_requests av) l
  | HTTP => authenticated_runs (mkHandler (PasswordAuth u p) connector) (av_requests av) l
  end.
Proof.
  intros Hu Hp Hok H (a & Ha & Hn). unfold auto_accept in H.
  assert (HasAuth (mkAuthMode u p) = true) as Hau by by destruct u, p.
  destruct (unread s) as [|first rest] eqn:Es; [injection H as <- <-; set_unfold in Ha; naive_solver|].
  exists first, rest. split; [done|]. rewrite <- Es in *.
  assert (NewHandler (mkAuthMode u p) connector = mkHandler (PasswordAuth u p) connector) as Hh
    by (unfold NewHandler; by rewrite Hau).
  rewrite Hh in H. destruct (detect first).
  - unfold NewAcceptor_auth in H. rewrite Hau in H. cbn [am_Username am_Password] in H.
    destruct (Accept _ _ _ _ _ _) as [[[e1 s1] l1]|] eqn:E; [|done]. injection H as <- <-.
    set_unfold in Ha. destruct Ha as [->|[->|[->|?]]]; try done. cbn in Hn.
    apply existsb_exists in Hn as (x & Hx%list_elem_of_In & Hn).
    destruct (Accept_network _ _ _ _ _ _ _ _ _ _ Hok E (ex_intro _ x (conj Hx Hn)))
      as (ms & uname & r & H1 & H2 & H3 & H4 & _). by exists ms, uname, r.
  - unfold serveHTTPS in H. destruct (av_acquired av); cbn [negb] in H;
      [|injection H as <- <-; set_unfold in Ha; naive_solver].
    destruct (av_handshake av); [injection H as <- <-; set_unfold in Ha; naive_solver|].
    destruct (serve_loop _ _ _ _) as [k p1] eqn:E. injection H as <- <-. split; [done|]. split; [done|].
    eapply (served_authenticated (fun _ => True)), (served_app _ _ _ [_; _; _; _; _; _] _ [_]); [by repeat constructor..|].
    by eapply (serve_loop_runs (fun _ => True)).
  - unfold serveHTTP in H. destruct (serve_loop _ _ _ _) as [k p1] eqn:E. injection H as <- <-.
    eapply (served_authenticated (fun _ => True)), (served_app _ _ _ [_; _] _ [_]); [by repeat constructor..|].
    by eapply (serve_loop_runs (fun _ => True)).
Qed.

Definition demo_av : auto_env :=
  mkAutoEnv (demo_env (fun _ => Ok 7)) true None [].

(** An HTTP client: a request with the credentials u:p, then one without on the same connection. *)
Definition demo_request (hdr : Header) : http_request :=
  mkHttpRequest (str "GET") (str "h") (str "http") [] hdr true false.
Definition demo_requests : list (http_env * http_request) :=
  (fun req => (mkHttpEnv 0 (fun _ => Ok 7) [] None map_to_list (Ok (mkHttpResponse 200 ∅ true false)) None, req)) <$>
  [demo_request {[ str "Proxy-Authorization" := [str "Basic " ++ EncodeToString [117; 58; 112]] ]}; demo_request ∅].
Definition demo_http_av : auto_env := mkAutoEnv (demo_env (fun _ => Ok 7)) true None demo_requests.
Definition demo_http_client : stream := mkStream (str "GET ") EOF [] (fun _ => None).

(** The HTTP client has two runs, of which the first causes network activity; the SOCKS5
    client's CONNECT causes some too. *)
Lemma auto_requires_credentials_witness :
  (exists l, auto_accept demo_http_av (mkAuthMode [117] [112]) demo_conn 10 (newUDPRuntime demo_udp 10)
      newTransportPool demo_http_client = Some (l, newTransportPool) /\
    length (http_runs l) = 2%nat /\ (exists a, l !! 4%nat = Some a /\ auto_network a = true) /\
    authenticated_runs (mkHandler (PasswordAuth [117] [112]) demo_conn) demo_requests l) /\
  (exists l, auto_accept demo_av (mkAuthMode [117] [112]) demo_conn 10 (newUDPRuntime demo_udp 10)
      newTransportPool demo_client = Some (l, newTransportPool) /\
    (exists a, a ∈ l /\ auto_network a = true) /\
    exists ms uname rest,
      unread demo_client = method_message ms ++ userpass_message (mkUserPass uname [112]) ++ rest /\
      MethodPassword ∈ ms /\ HasPrefix uname [117] = true /\
      Authenticate 0 (PasswordConfig [117] [112]) demo_client
        = (true, Ok (TryFrom 0 [117] uname), after demo_client rest [[5; 2]; [1; 0]])).
Proof.
  split.
  - assert (exists l, auto_accept demo_http_av (mkAuthMode [117] [112]) demo_conn 10 (newUDPRuntime demo_udp 10)
      newTransportPool demo_http_client = Some (l, newTransportPool) /\
      length (http_runs l) = 2%nat /\ exists a, l !! 4%nat = Some a /\ auto_network a = true) as (l & E & Hr & Hn).
    { eexists. split; [vm_compute; reflexivity|]. split; [reflexivity|]. eexists. split; reflexivity. }
    exists l. split; [exact E|]. split; [exact Hr|]. split; [exact Hn|].
    destruct (auto_requires_credentials demo_http_av [117] [112] demo_conn 10 (newUDPRuntime demo_udp 10)
      newTransportPool demo_http_client l newTransportPool) as (first & rest & H1 & H2);
      [done|done|by_decide|exact E|destruct Hn as (a & Ha & Hn); exists a; split;
        [by eapply list_elem_of_lookup_2|exact Hn]|].
    injection H1 as <- _. exact H2.
  - destruct demo_client_run as [s' Hrun].
    assert (exists l, auto_accept demo_av (mkAuthMode [117] [112]) demo_conn 10 (newUDPRuntime demo_udp 10)
        newTransportPool demo_client = Some (l, newTransportPool) /\
      exists a, a ∈ l /\ auto_network a = true) as (l & E & Hn).
    { eexists. split.
      - unfold auto_accept. change (unread demo_client) with (5 :: tail (unread demo_client)). cbv iota beta.
        change (detect 5) with SOCKS5. change (NewAcceptor_auth (mkAuthMode [117] [112])) with (PasswordConfig [117] [112]).
        change (av_socks demo_av) with (demo_env (fun _ => Ok 7)). rewrite Hrun. reflexivity.
      - eexists. split; [do 2 right; left|reflexivity]. }
    exists l. split; [exact E|]. split; [exact Hn|].
    destruct (auto_requires_credentials demo_av [117] [112] demo_conn 10 (newUDPRuntime demo_udp 10)
      newTransportPool demo_client l newTransportPool) as (first & rest & H1 & H2);
      [done|done|by_decide|exact E|exact Hn|].
    injection H1 as <- _. exact H2.
Defined.

(** The auto-detecting server hands the SOCKS5 handler a connection without
    [CloseWrite]: the target's end of stream is not passed on to a SOCKS5 client of
    that server before the connection is closed, while the other servers and
    protocols half-close. *)
Theorem auto_socks_no_half_close p :
  CloseWrite_effective (handler_conn p) = false <-> p = SOCKS5.
Proof. by destruct p. Qed.
