(* ===== verification/Certs.v ===== *)
(** * Certificates of the HTTPS servers

    Models [internal/server/http/genca.go] and [tls.go]: the self-signed pair that is
    generated once and cached in the temporary directory, the template it is made from,
    and the TLS configurations built from PEM data or files; and puts them in the place
    of the answers [Servers] takes for them. Keys, signatures and PEM are the crypto
    libraries': functions the definitions take as parameters. *)

From Stdlib Require Import ZArith Lia.
From stdpp Require Import base tactics numbers strings gmap list.
From S2P Require Import Prelude.
From S2P Require Import Netip.
From S2P Require Import Config.
From S2P Require Import Serverbase.
From S2P Require Import Connector.
From S2P Require Import UdpRuntime.
From S2P Require Import Servers.

(** ** Files *)

(** A file: its bytes and its permission bits. *)
Abbreviation files := (gmap bytes (bytes * Z)).

(** How an [os.WriteFile] ends: it succeeds, the file cannot be opened, or only the first
    [n] bytes get written after the file was truncated. *)
Inductive write_answer := WriteOk | OpenFails (e : error) | WriteShort (n : nat) (e : error).

(** What the system answers: the temporary directory, [Stat] and [MkdirAll] of the
    program's directory in it, files that cannot be read, and the writes. *)
Record cert_os := mkCertOS {
  ct_TempDir : bytes;
  ct_Stat : option error;
  ct_MkdirAll : option error;
  ct_ReadErr : bytes -> option error;
  ct_Write : bytes -> write_answer
}.

Definition ErrNotExist : error := Errno 2.

(** [os.ReadFile] *)
Definition ReadFile (os : cert_os) (fs : files) (path : bytes) : result bytes :=
  match ct_ReadErr os path with
  | Some e => Err e
  | None => match fs !! path with Some (data, _) => Ok data | None => Err ErrNotExist end
  end.

(** [os.WriteFile]: an existing file keeps its permissions. *)
Definition file_mode (fs : files) (path : bytes) (perm : Z) : Z :=
  match fs !! path with Some (_, m) => m | None => perm end.
Definition os_WriteFile (os : cert_os) (fs : files) (path data : bytes) (perm : Z) : option error * files :=
  match ct_Write os path with
  | WriteOk => (None, <[path := (data, file_mode fs path perm)]> fs)
  | OpenFails e => (Some e, fs)
  | WriteShort n e => (Some e, <[path := (take n data, file_mode fs path perm)]> fs)
  end.

(** The permissions 0o644 and 0o600. *)
Definition perm_cert : Z := 6 * 64 + 4 * 8 + 4.
Definition perm_key : Z := 6 * 64.

(** [filepath.Join] of a clean directory and a name. *)
Definition Join (dir name : bytes) : bytes := dir ++ str "/" ++ name.
Definition tempDir (os : cert_os) : bytes := Join (ct_TempDir os) (str "outway").
Definition certPath (os : cert_os) : bytes := Join (tempDir os) (str "cert.pem").
Definition keyPath (os : cert_os) : bytes := Join (tempDir os) (str "key.pem").

(** ** The certificate *)

Record Certificate := mkCertificate {
  SerialNumber : Z;
  CommonName : bytes;
  Organization : list bytes;
  OrganizationalUnit : list bytes;
  NotBefore : Z;                   (* Unix seconds *)
  NotAfter : Z;
  KeyUsage : Z;
  IsCA : bool;
  BasicConstraintsValid : bool;
  DNSNames : list bytes
}.

Definition KeyUsageDigitalSignature : Z := Z.shiftl 1 0.
Definition KeyUsageKeyEncipherment : Z := Z.shiftl 1 2.
Definition KeyUsageCertSign : Z := Z.shiftl 1 5.
Definition KeyUsageCRLSign : Z := Z.shiftl 1 6.

(** The Unix time of the first of January of a year. *)
Definition days_before (year : Z) : Z :=
  let y := year - 1 in 365 * y + y / 4 - y / 100 + y / 400.
Definition january_first (year : Z) : Z := (days_before year - days_before 1970) * 86400.

Definition template (serial : Z) : Certificate := {|
  SerialNumber := serial;
  CommonName := str "outway";
  Organization := [str "outway"];
  OrganizationalUnit := [str "outway"];
  NotBefore := 0;
  NotAfter := january_first 4096;
  KeyUsage := Z.lor (Z.lor (Z.lor KeyUsageDigitalSignature KeyUsageCertSign) KeyUsageCRLSign)
                KeyUsageKeyEncipherment;
  IsCA := true;
  BasicConstraintsValid := true;
  DNSNames := [str "localhost"]
|}.

Section crypto.
(** [crypto/ecdsa], [crypto/x509], [encoding/pem] and [crypto/tls]. *)
Context {priv pub pair : Type}.
Context (PublicKey : priv -> pub).
Context (CreateCertificate : Certificate -> Certificate -> pub -> priv -> result bytes).
Context (MarshalECPrivateKey : priv -> result bytes).
Context (EncodeToMemory : bytes -> bytes -> bytes).
Context (X509KeyPair : bytes -> bytes -> result pair).

(** What [rand.Reader] gives one call: the key, and a serial number below a bound. *)
Record entropy := mkEntropy {
  en_GenerateKey : result priv;
  en_Int : Z -> result Z
}.

Definition generateSelfSigned (en : entropy) : result (bytes * bytes) :=
  priv ← en_GenerateKey en;
  serial ← en_Int en (Z.shiftl 1 128);
  der ← CreateCertificate (template serial) (template serial) (PublicKey priv) priv;
  keyDER ← MarshalECPrivateKey priv;
  Ok (EncodeToMemory (str "CERTIFICATE") der, EncodeToMemory (str "EC PRIVATE KEY") keyDER).

(** The error of creating the directory when it is missing. *)
Definition ensureDir (os : cert_os) : option error :=
  match ct_Stat os with
  | Some statErr => if errors_Is statErr ErrNotExist then ct_MkdirAll os else None
  | None => None
  end.

(** The end of [getSelfSignedCert]: a new pair is generated and written. *)
Definition cacheSelfSigned (os : cert_os) (en : entropy) (fs : files) : result (bytes * bytes) * files :=
  match generateSelfSigned en with
  | Err e => (Err e, fs)
  | Ok (cert, key) =>
      match os_WriteFile os fs (certPath os) cert perm_cert with
      | (Some werr, fs) => (Err werr, fs)
      | (None, fs) =>
          match os_WriteFile os fs (keyPath os) key perm_key with
          | (Some werr, fs) => (Err werr, fs)
          | (None, fs) => (Ok (cert, key), fs)
          end
      end
  end.

Definition getSelfSignedCert (os : cert_os) (en : entropy) (fs : files) : result (bytes * bytes) * files :=
  match ensureDir os with
  | Some e => (Err e, fs)
  | None =>
      match ReadFile os fs (certPath os), ReadFile os fs (keyPath os) with
      | Ok certData, Ok keyData => (Ok (certData, keyData), fs)
      | _, _ => cacheSelfSigned os en fs
      end
  end.

(** ** TLS configurations *)

Record TLSConfig := mkTLSConfig {
  Certificates : list pair;
  NextProtos : list bytes;
  MinVersion : Z
}.

Definition VersionTLS12 : Z := 0x0303.

Definition NewTLSConfigFromPEM (certPEM keyPEM : bytes) : result TLSConfig :=
  cert ← X509KeyPair certPEM keyPEM;
  Ok (mkTLSConfig [cert] [str "http/1.1"] VersionTLS12).

Definition NewTLSConfigFromFiles (os : cert_os) (fs : files) (certPath keyPath : bytes) : result TLSConfig :=
  certPEM ← ReadFile os fs certPath;
  keyPEM ← ReadFile os fs keyPath;
  NewTLSConfigFromPEM certPEM keyPEM.

Definition NewSelfSignedTLSConfig (os : cert_os) (en : entropy) (fs : files) : result TLSConfig * files :=
  match getSelfSignedCert os en fs with
  | (Err e, fs) => (Err e, fs)
  | (Ok (cert, key), fs) => (NewTLSConfigFromPEM cert key, fs)
  end.

(** *** Lemmas *)

Lemma paths_differ os : certPath os <> keyPath os.
Proof. unfold certPath, keyPath, Join. intros H%app_inv_head. discriminate H. Qed.

Lemma ReadFile_ok os fs p d : ReadFile os fs p = Ok d -> fst <$> fs !! p = Some d.
Proof. unfold ReadFile. destruct (ct_ReadErr os p); [done|]. by destruct (fs !! p) as [[? ?]|]; intros [= <-]. Qed.

(** Nothing but the two files is touched. *)
Lemma cacheSelfSigned_frame os en fs r fs' p :
  cacheSelfSigned os en fs = (r, fs') -> p <> certPath os -> p <> keyPath os -> fs' !! p = fs !! p.
Proof.
  unfold cacheSelfSigned, os_WriteFile. intros H Hc Hk. repeat case_one_in H; simplify_eq;
    by rewrite ?lookup_insert_ne.
Qed.

(** What a successful generation leaves. *)
Lemma cacheSelfSigned_ok os en fs cert key fs' :
  cacheSelfSigned os en fs = (Ok (cert, key), fs') ->
  generateSelfSigned en = Ok (cert, key) /\
  fs' !! certPath os = Some (cert, file_mode fs (certPath os) perm_cert) /\
  fs' !! keyPath os = Some (key, file_mode fs (keyPath os) perm_key).
Proof.
  unfold cacheSelfSigned, os_WriteFile. destruct (generateSelfSigned en) as [[c k]|]; [|done].
  destruct (ct_Write os (certPath os)); try done. destruct (ct_Write os (keyPath os)); try done.
  pose proof (paths_differ os). intros [= <- <- <-]. unfold file_mode.
  rewrite (lookup_insert_ne fs) by done. split_and!; [done|by rewrite lookup_insert_ne, lookup_insert_eq|].
  by rewrite lookup_insert_eq.
Qed.

(** The pair a successful call returns is what the two files then hold. *)
Lemma getSelfSignedCert_ok os en fs cert key fs' :
  getSelfSignedCert os en fs = (Ok (cert, key), fs') ->
  fst <$> fs' !! certPath os = Some cert /\ fst <$> fs' !! keyPath os = Some key.
Proof.
  unfold getSelfSignedCert. intros H. destruct (ensureDir os); [done|].
  destruct (ReadFile os fs (certPath os)) as [c|] eqn:Ec, (ReadFile os fs (keyPath os)) as [k|] eqn:Ek;
    try (apply cacheSelfSigned_ok in H as (_ & -> & ->); done).
  injection H as <- <- <-. split; by eapply ReadFile_ok.
Qed.

(** A call that finds its directory and both files readable returns them. *)
Definition readable (os : cert_os) : Prop :=
  (ct_Stat os = None \/ ct_MkdirAll os = None) /\
  ct_ReadErr os (certPath os) = None /\ ct_ReadErr os (keyPath os) = None.

Lemma getSelfSignedCert_cached os en fs cert key :
  readable os -> fst <$> fs !! certPath os = Some cert -> fst <$> fs !! keyPath os = Some key ->
  getSelfSignedCert os en fs = (Ok (cert, key), fs).
Proof.
  intros (Hd & Hc & Hk) Ec Ek. unfold getSelfSignedCert, ensureDir, ReadFile. rewrite Hc, Hk.
  destruct (fs !! certPath os) as [[? ?]|]; [|done]. destruct (fs !! keyPath os) as [[? ?]|]; [|done].
  injection Ec as ->. injection Ek as ->.
  destruct Hd as [-> | ->]; [done|]. by destruct (ct_Stat os); [destruct (errors_Is _ _)|].
Qed.

(** What [tls.X509KeyPair] documents: it accepts a certificate and the private key of the
    public key in it. *)
Definition pair_law : Prop := forall serial k der keyDER,
  CreateCertificate (template serial) (template serial) (PublicKey k) k = Ok der ->
  MarshalECPrivateKey k = Ok keyDER ->
  exists c, X509KeyPair (EncodeToMemory (str "CERTIFICATE") der)
              (EncodeToMemory (str "EC PRIVATE KEY") keyDER) = Ok c.

Lemma generated_pair en cert key : pair_law -> generateSelfSigned en = Ok (cert, key) ->
  exists c, X509KeyPair cert key = Ok c.
Proof.
  intros Hlaw. unfold generateSelfSigned, mbind, result_bind.
  destruct (en_GenerateKey en) as [k|]; [|done]. destruct (en_Int en _) as [n|]; [|done].
  destruct (CreateCertificate _ _ _ _) as [der|] eqn:E1; [|done].
  destruct (MarshalECPrivateKey k) as [kd|] eqn:E2; [|done]. intros [= <- <-]. by eapply Hlaw.
Qed.

(** C35: The self-signed certificate is stable: after a start that obtained one, every
    later start that uses the same temporary directory and can read the two files gets the
    same pair and writes nothing, so clients that trust it keep working. A pair that was
    generated (no pair was readable before) makes a working configuration that offers
    HTTP/1.1 only over TLS 1.2 or later; where there was no key file before, its key file is
    readable for its owner alone (a file that was there keeps its mode). *)
Theorem selfsigned_stable (os : cert_os) (en : entropy) (fs fs' : files) (cert key : bytes) :
  pair_law -> getSelfSignedCert os en fs = (Ok (cert, key), fs') ->
  (forall os' en', ct_TempDir os' = ct_TempDir os -> readable os' ->
     getSelfSignedCert os' en' fs' = (Ok (cert, key), fs')) /\
  (is_ok (ReadFile os fs (certPath os)) && is_ok (ReadFile os fs (keyPath os)) = false ->
     (exists c, NewTLSConfigFromPEM cert key = Ok (mkTLSConfig [c] [str "http/1.1"] VersionTLS12)) /\
     (fs !! keyPath os = None -> exists m, fs' !! keyPath os = Some (key, m) /\ Z.land m 0x3f = 0)).
Proof.
  intros Hlaw H. split.
  - intros os' en' Et Hr. assert (certPath os' = certPath os /\ keyPath os' = keyPath os) as [Ec Ek].
    { unfold certPath, keyPath, tempDir. by rewrite Et. }
    apply getSelfSignedCert_ok in H as [H1 H2]. rewrite <- Ec in H1. rewrite <- Ek in H2.
    by apply getSelfSignedCert_cached.
  - intros Hno. unfold getSelfSignedCert in H. destruct (ensureDir os); [done|].
    assert (cacheSelfSigned os en fs = (Ok (cert, key), fs')) as (Hg & _ & Hk)%cacheSelfSigned_ok.
    { by destruct (ReadFile os fs (certPath os)), (ReadFile os fs (keyPath os)). }
    destruct (generated_pair en cert key Hlaw Hg) as [c Hc]. split.
    + exists c. unfold NewTLSConfigFromPEM. by rewrite Hc.
    + intros Hn. eexists. split; [exact Hk|]. unfold file_mode. by rewrite Hn.
Qed.

(** The cache is trusted as it is: whoever put two files there chose the server's key. *)
Theorem planted_pair_used (os : cert_os) (en : entropy) (fs : files) (cert key : bytes) (m1 m2 : Z) :
  readable os ->
  NewSelfSignedTLSConfig os en (<[keyPath os := (key, m2)]> (<[certPath os := (cert, m1)]> fs)) =
  (NewTLSConfigFromPEM cert key, <[keyPath os := (key, m2)]> (<[certPath os := (cert, m1)]> fs)).
Proof.
  intros Hr. unfold NewSelfSignedTLSConfig. pose proof (paths_differ os).
  rewrite (getSelfSignedCert_cached os en _ cert key Hr); [done| |].
  - by rewrite lookup_insert_ne, lookup_insert_eq.
  - by rewrite lookup_insert_eq.
Qed.

(** A start that stops between its two writes leaves the new certificate with the key of
    an earlier one; no later start replaces them, and all of them fail. *)
Theorem interrupted_write_sticks (os : cert_os) (en : entropy) (fs : files) cert key oldkey m e :
  ensureDir os = None -> fs !! certPath os = None -> fs !! keyPath os = Some (oldkey, m) ->
  generateSelfSigned en = Ok (cert, key) ->
  ct_Write os (certPath os) = WriteOk -> ct_Write os (keyPath os) = OpenFails e ->
  exists fs', getSelfSignedCert os en fs = (Err e, fs') /\
    forall os' en', ct_TempDir os' = ct_TempDir os -> readable os' ->
      NewSelfSignedTLSConfig os' en' fs' = (NewTLSConfigFromPEM cert oldkey, fs').
Proof.
  intros Hd Hc Hk Hg Hw1 Hw2. pose proof (paths_differ os).
  exists (<[certPath os := (cert, perm_cert)]> fs). split.
  - unfold getSelfSignedCert, cacheSelfSigned, os_WriteFile, ReadFile, file_mode. rewrite Hd, Hc, Hg, Hw1, Hw2.
    by destruct (ct_ReadErr os (certPath os)).
  - intros os' en' Et Hr. assert (certPath os' = certPath os /\ keyPath os' = keyPath os) as [Ec Ek].
    { unfold certPath, keyPath, tempDir. by rewrite Et. }
    unfold NewSelfSignedTLSConfig. rewrite (getSelfSignedCert_cached os' en' _ cert oldkey Hr); [done| |].
    + by rewrite Ec, lookup_insert_eq.
    + by rewrite Ek, lookup_insert_ne, Hk.
Qed.

(** ** In the servers *)

(** The answers [Servers] takes for the certificate functions, computed by them. *)
Definition config_error (r : result TLSConfig) : option error :=
  match r with Ok _ => None | Err e => Some e end.
Definition with_certs (os : cert_os) (en : entropy) (fs : files) (lo : listen_os) : listen_os :=
  mkListenOS (lo_Listen lo) (lo_Addr lo) (lo_Network lo) (lo_reusePortSupported lo) (lo_GOMAXPROCS lo)
    (fun certPath keyPath => config_error (NewTLSConfigFromFiles os fs certPath keyPath))
    (config_error (NewSelfSignedTLSConfig os en fs).1).

(** The configuration a server's [tlsConfig] is set to. *)
Definition server_config (os : cert_os) (en : entropy) (fs : files) (proxy : ProxyConfig) : result TLSConfig :=
  if negb (eqs (TLSCert proxy) []) && negb (eqs (TLSKey proxy) [])
  then NewTLSConfigFromFiles os fs (TLSCert proxy) (TLSKey proxy)
  else (NewSelfSignedTLSConfig os en fs).1.

Lemma NewTLSConfigFromPEM_ok cert key cfg : NewTLSConfigFromPEM cert key = Ok cfg ->
  exists c, X509KeyPair cert key = Ok c /\ cfg = mkTLSConfig [c] [str "http/1.1"] VersionTLS12.
Proof. unfold NewTLSConfigFromPEM, mbind, result_bind. destruct (X509KeyPair cert key) as [c|]; [|done]. intros [= <-]. eauto. Qed.

(** A server that speaks TLS has a certificate: whenever construction of an HTTPS or
    auto-detecting server succeeds, the files named on the command line, or the cached or
    generated self-signed pair when one of them is not named, are a matching pair, and the
    server's configuration has this pair, offers HTTP/1.1 only, and needs TLS 1.2; when
    they are not, construction fails with that error. *)
Theorem tls_server_has_pair os en fs lo cos proxy ctx :
  Kind proxy = ProxyHTTPS \/ Kind proxy = ProxyAuto ->
  match newProxyServer (with_certs os en fs lo) cos proxy ctx with
  | (Ok s, _, _) => ps_tls s = true /\ exists c certPEM keyPEM,
      X509KeyPair certPEM keyPEM = Ok c /\
      server_config os en fs proxy = Ok (mkTLSConfig [c] [str "http/1.1"] VersionTLS12) /\
      (negb (eqs (TLSCert proxy) []) && negb (eqs (TLSKey proxy) []) = true ->
         ReadFile os fs (TLSCert proxy) = Ok certPEM /\ ReadFile os fs (TLSKey proxy) = Ok keyPEM)
  | (Err e, _, _) => is_ok (bind_listeners (with_certs os en fs lo) ctx).1 = true ->
      server_config os en fs proxy = Err e
  end.
Proof.
  intros Hk.
  assert (forall cfg, server_config os en fs proxy = Ok cfg -> exists c certPEM keyPEM,
      X509KeyPair certPEM keyPEM = Ok c /\
      server_config os en fs proxy = Ok (mkTLSConfig [c] [str "http/1.1"] VersionTLS12) /\
      (negb (eqs (TLSCert proxy) []) && negb (eqs (TLSKey proxy) []) = true ->
         ReadFile os fs (TLSCert proxy) = Ok certPEM /\ ReadFile os fs (TLSKey proxy) = Ok keyPEM)) as Hcfg.
  { unfold server_config, NewTLSConfigFromFiles, NewSelfSignedTLSConfig, mbind, result_bind.
    destruct (negb _ && negb _); intros cfg.
    - destruct (ReadFile os fs (TLSCert proxy)) as [c|] eqn:E1; [|done].
      destruct (ReadFile os fs (TLSKey proxy)) as [k|] eqn:E2; [|done].
      intros H. destruct (NewTLSConfigFromPEM_ok _ _ _ H) as (p & Hp & ->). by exists p, c, k.
    - destruct (getSelfSignedCert os en fs) as [[[c k]|] fs']; [|done]. cbn.
      intros H. destruct (NewTLSConfigFromPEM_ok _ _ _ H) as (p & Hp & ->). by exists p, c, k. }
  assert (tls_config (with_certs os en fs lo) (TLSCert proxy) (TLSKey proxy) =
          config_error (server_config os en fs proxy)) as Ht.
  { unfold tls_config, server_config. by destruct (negb _ && negb _). }
  unfold newProxyServer, http_NewServer, NewAutoDetectServer, WithHTTPS.
  destruct Hk as [-> | ->]; destruct (bind_listeners (with_certs os en fs lo) ctx) as [[lns|e] l];
    rewrite ?Ht; try done; destruct (server_config os en fs proxy) as [cfg|e] eqn:E; cbn;
    try (split; [done|]; by apply (Hcfg cfg)); done.
Qed.
End crypto.

(** ** An instance *)

(** Keys are numbers, a certificate names its key, PEM writes the type in front. *)
Definition demo_create (t p : Certificate) (pk sk : Z) : result bytes := Ok [pk].
Definition demo_marshal (sk : Z) : result bytes := Ok [sk].
Definition demo_pem (typ data : bytes) : bytes := typ ++ data.
Definition demo_pair (cert key : bytes) : result Z :=
  match last cert, last key with
  | Some a, Some b => if a =? b then Ok a else Err (Errorf "private key does not match" [])
  | _, _ => Err (Errorf "no PEM data" [])
  end.
Definition demo_cert_os : cert_os :=
  mkCertOS (str "/tmp") (Some ErrNotExist) None (fun _ => None) (fun _ => WriteOk).
Definition demo_entropy (k : Z) : entropy := mkEntropy (Ok k) (fun _ => Ok 7).

Lemma demo_law : pair_law id demo_create demo_marshal demo_pem demo_pair.
Proof.
  intros serial k der kd [= <-] [= <-]. exists k. unfold demo_pair, demo_pem. rewrite !last_snoc.
  by rewrite Z.eqb_refl.
Qed.

Lemma selfsigned_stable_witness : exists cert key fs',
  getSelfSignedCert id demo_create demo_marshal demo_pem demo_cert_os (demo_entropy 5) ∅ = (Ok (cert, key), fs') /\
  getSelfSignedCert id demo_create demo_marshal demo_pem demo_cert_os (demo_entropy 6) fs' = (Ok (cert, key), fs') /\
  exists m, fs' !! keyPath demo_cert_os = Some (key, m) /\ Z.land m 0x3f = 0.
Proof.
  destruct (getSelfSignedCert id demo_create demo_marshal demo_pem demo_cert_os (demo_entropy 5) ∅)
    as [[[cert key]|e] fs'] eqn:E; [|by vm_compute in E].
  exists cert, key, fs'. split; [done|].
  destruct (selfsigned_stable id demo_create demo_marshal demo_pem demo_pair _ _ _ _ _ _ demo_law E) as [H1 H2].
  split; [apply H1; [done|by split_and!; [right| |]]|]. by apply H2.
Defined.

Definition demo_listen : listen_os :=
  mkListenOS (fun k => Ok (Z.of_nat k)) (fun _ => AddrPortZero) (fun _ => str "tcp4") false 4 (fun _ _ => None) None.
Definition demo_proxy : ProxyConfig := mkProxyConfig ProxyHTTPS (mkAuthMode [] []) [] [].
Definition demo_context : Context :=
  mkContext AddrPortZero 10 10 (mkAuthMode [] []) (New None None None 10 None None 0) demo_udp false.
Definition demo_close : close_os := mkCloseOS None (fun _ => None) true true.

(** An HTTPS server built with a generated pair. *)
Lemma tls_server_has_pair_witness : exists s l c,
  newProxyServer (with_certs id demo_create demo_marshal demo_pem demo_pair demo_cert_os (demo_entropy 5) ∅ demo_listen)
    demo_close demo_proxy demo_context = (Ok s, l, c) /\ ps_tls s = true.
Proof.
  pose proof (tls_server_has_pair id demo_create demo_marshal demo_pem demo_pair demo_cert_os (demo_entropy 5) ∅
    demo_listen demo_close demo_proxy demo_context (or_introl eq_refl)) as H.
  destruct (newProxyServer _ _ _ _) as [[[s|e] l] c] eqn:E; [|by vm_compute in E].
  exists s, l, c. split; [done|]. apply H.
Defined.
