(* ===== verification/Daemon.v ===== *)
(** * The daemon commands ([internal/daemon/daemon.go], [daemon_unix.go])

    [start], [stop], [restart], [ps] and [log] on Unix. The three files of the
    daemon are the state; the kernel's answers (signals, processes, file errors) are
    arguments, and what a command does to processes is a list of actions. The
    percentage arithmetic of [ps] is floating point and not modelled: the parsing of
    the process tables is. *)

From Stdlib Require Import ZArith Lia.
From stdpp Require Import base tactics numbers strings sets gmap list.
From S2P Require Import Prelude.
From S2P Require Import HttpProxy.

(** ** Strings *)

(** [strconv.Atoi] *)
Definition Atoi (s : bytes) : result Z :=
  match s with
  | 45 :: s => v ← ParseUint s 64; if 2 ^ 63 <? v then Err ErrRange else Ok (- v)
  | 43 :: s => v ← ParseUint s 64; if 2 ^ 63 <=? v then Err ErrRange else Ok v
  | s => v ← ParseUint s 64; if 2 ^ 63 <=? v then Err ErrRange else Ok v
  end.

(** [strings.Fields]: the maximal runs without white space. *)
Fixpoint fields_go (fuel : nat) (s cur : bytes) : list bytes :=
  let flush := match cur with [] => [] | _ => [cur] end in
  match fuel with
  | O => flush
  | S fuel =>
      match s with
      | [] => flush
      | c :: s' =>
          match find (fun sp => HasPrefix s sp) spaces with
          | Some sp => flush ++ fields_go fuel (drop (length sp) s) []
          | None => fields_go fuel s' (cur ++ [c])
          end
      end
  end.
Definition Fields (s : bytes) : list bytes := fields_go (S (length s)) s [].

(** [splitLines]: the loop over the bytes, [cur] being [s[start:i]]. *)
Fixpoint split_lines (s cur : bytes) : list bytes :=
  match s with
  | [] => match cur with [] => [] | _ => [cur] end
  | c :: s => if c =? 10 then cur :: split_lines s [] else split_lines s (cur ++ [c])
  end.
Definition splitLines (s : bytes) : list bytes := split_lines s [].

(** ** Files and processes *)

Record Files := mkFiles { pidFile : option bytes; stdoutFile : option bytes; stderrFile : option bytes }.

Definition set_pid (p : option bytes) (f : Files) : Files := mkFiles p (stdoutFile f) (stderrFile f).

Definition ESRCH : error := Errno 3.
Definition ErrNotExist : error := Errno 2.
Definition binName : bytes := str "outway".

(** The kernel during a command. [k_kill0] is [kill(pid, 0)], [k_comm] reads
    [/proc/pid/comm]. *)
Record kernel := mkKernelD {
  k_linux : bool;
  k_root : bool;
  k_kill0 : Z -> option error;
  k_comm : Z -> result bytes;
  k_readPid : option error;            (* an error other than a missing file *)
  k_openStdout : option error;
  k_openStderr : option error;
  k_startDetached : result Z;
  k_writePid : option error;
  k_childErr : option bytes;           (* what the child wrote to stderr, when read *)
  k_polls : list bool;                 (* processAlive at the polls within 750 ms *)
  k_signal : nat -> option error;      (* the k-th SIGINT of stopProcess *)
  k_afterSignal : nat -> bool;         (* processAlive after it *)
  k_remove : option error
}.

Inductive daemon_action :=
  | Spawn (args : list bytes)
  | SIGINT (pid : Z)
  | Printed (line : bytes).

(** A command returns, or the process exits. *)
Inductive outcome := Return (err : option error) | Exit (code : Z).

Definition processAlive (k : kernel) (pid : Z) : bool :=
  match k_kill0 k pid with Some e => negb (bool_decide (e = ESRCH)) | None => true end.

Definition PID (k : kernel) (f : Files) : result Z * Files :=
  match k_readPid k, pidFile f with
  | Some err, _ => (Err err, f)
  | None, None => (Ok 0, f)
  | None, Some data =>
      match Atoi (TrimSpace data) with
      | Err err => (Err err, f)
      | Ok pid =>
          if negb (processAlive k pid) then (Ok 0, set_pid None f)
          else if k_linux k then
            match k_comm k pid with
            | Err _ => (Ok pid, f)
            | Ok name =>
                let n := TrimSpace name in
                if negb (eqs n binName) && negb (HasPrefix n binName) then (Ok 0, set_pid None f)
                else (Ok pid, f)
            end
          else (Ok pid, f)
      end
  end.

(** [pid, _ := d.PID()]: zero with an error. *)
Definition pid_of (r : result Z) : Z := match r with Ok pid => pid | Err _ => 0 end.

Fixpoint waitForStartup (polls : list bool) (childErr : option bytes) : option error :=
  match polls with
  | [] => None
  | true :: polls => waitForStartup polls childErr
  | false :: _ =>
      let message := match childErr with
                     | Some data => TrimSpace (if 4096 <? len data then slice_from data (len data - 4096) else data)
                     | None => [] end in
      if negb (eqs message []) then Some (Errorf "daemon exited during startup: %s" message)
      else Some (Errorf "daemon exited during startup" [])
  end.

(** [fmt.Sprintf("%d", pid)] of a process number. *)
Definition format_pid (pid : Z) : bytes := decimal 20 pid.

Definition Start (k : kernel) (runArgs : list bytes) (f : Files) : outcome * Files * list daemon_action :=
  let '(r, f) := PID k f in
  if negb (pid_of r =? 0) then (Return None, f, [Printed (str "already running")])
  else if negb (k_root k) then (Exit (-1), f, [])
  else
    match k_openStdout k with
    | Some err => (Return (Some (Wrap "create stdout file: %w" err)), f, [])
    | None =>
        let f := mkFiles (pidFile f) (Some []) (stderrFile f) in
        match k_openStderr k with
        | Some err => (Return (Some (Wrap "create stderr file: %w" err)), f, [])
        | None =>
            let f := mkFiles (pidFile f) (stdoutFile f) (Some []) in
            match k_startDetached k with
            | Err _ => (Exit (-1), f, [])
            | Ok pid =>
                match k_writePid k with
                | Some err => (Return (Some (Wrap "write pid file: %w" err)), f, [Spawn runArgs])
                | None =>
                    let f := set_pid (Some (format_pid pid)) f in
                    match waitForStartup (k_polls k) (k_childErr k) with
                    | Some err => (Return (Some err), set_pid None f, [Spawn runArgs])
                    | None => (Return None, f, [Spawn runArgs; Printed (str "started")])
                    end
                end
            end
        end
    end.

(** [stopProcess]: [n] rounds are left, [i] done. *)
Fixpoint stopProcess (k : kernel) (pid : Z) (i n : nat) : list daemon_action :=
  match n with
  | O => []
  | S n =>
      match k_signal k i with
      | Some _ => []
      | None => SIGINT pid :: (if negb (k_afterSignal k i) then [] else stopProcess k pid (S i) n)
      end
  end.

Definition Stop (k : kernel) (f : Files) : outcome * Files * list daemon_action :=
  if negb (k_root k) then (Exit (-1), f, [])
  else
    let '(r, f) := PID k f in
    let pid := pid_of r in
    let acts := if negb (pid =? 0) then stopProcess k pid 0 360 else [] in
    let f := match k_remove k with Some _ => f | None => set_pid None f end in
    (Return None, f, acts).

(** [Restart]; [k'] is the kernel three seconds later. *)
Definition Restart (k k' : kernel) (runArgs : list bytes) (f : Files) : outcome * Files * list daemon_action :=
  match Stop k f with
  | (Exit c, f, l) => (Exit c, f, l)
  | (Return (Some err), f, l) => (Return (Some err), f, l)
  | (Return None, f, l) => let '(o, f, l') := Start k' runArgs f in (o, f, l ++ l')
  end.

(** ** Status and logs *)

(** The fields of [/proc/pid/stat]: user and system time and start time, read after
    the last parenthesis. *)
Definition statTimes (statData : bytes) : result (Z * Z * Z) :=
  if len (Fields statData) <? 20 then Err (Errorf "unexpected stat format for pid %d" [])
  else
    match cut_last 41 statData with
    | None => Err (Errorf "malformed stat for pid %d" [])
    | Some (_, after) =>
        let rest := Fields after in
        if len rest <? 20 then Err (Errorf "unexpected stat fields for pid %d" [])
        else
          let num i := match ParseUint (nth i rest []) 64 with Ok v => v | Err _ => 0 end in
          Ok (num 11%nat, num 12%nat, num 19%nat)
    end.

(** The resident memory of [/proc/pid/status]. *)
Fixpoint vmRSS (lines : list bytes) : Z :=
  match lines with
  | [] => 0
  | line :: lines =>
      if HasPrefix line (str "VmRSS:") then
        match Fields line with
        | _ :: v :: _ => match ParseUint v 64 with Ok kb => kb | Err _ => 0 end
        | _ => 0
        end
      else vmRSS lines
  end.

(** [readAndPrintFile]: what is printed. *)
(** [readAndPrintFile]: [Stat] and [ReadFile] together, [None] for a missing file;
    the error and the printed lines. *)
Definition readAndPrintFile (content : result (option bytes)) (placeholder : bytes) : option error * list bytes :=
  match content with
  | Err err => (Some err, [])
  | Ok None => (None, [])
  | Ok (Some []) => (None, [])
  | Ok (Some data) => (None, match splitLines data with [] => [] | lines => placeholder :: lines end)
  end.

Definition Log (stdout stderr : result (option bytes)) : option error * list bytes :=
  match readAndPrintFile stdout (str "STDOUT>") with
  | (Some err, l) => (Some err, l)
  | (None, l) => let '(err, l') := readAndPrintFile stderr (str "STDERR>") in (err, l ++ l')
  end.

(** [printLinuxProcessStatus]: the processor time, start time and memory it reads; the
    percentages it prints are floating-point functions of these and the uptime. *)
Definition printLinuxProcessStatus (pid : Z) (stat uptime status : result bytes)
    : option error * option (Z * Z * Z * Z) :=
  match stat with
  | Err err => (Some (Wrap "read stat for pid %d: %w" err), None)
  | Ok statData =>
      match statTimes statData with
      | Err err => (Some err, None)
      | Ok (utime, stime, starttime) =>
          match uptime with
          | Err err => (Some (Wrap "read uptime: %w" err), None)
          | Ok uptimeData =>
              if len (Fields uptimeData) =? 0 then (Some (Errorf "malformed uptime" []), None)
              else
                match status with
                | Err err => (Some (Wrap "read status for pid %d: %w" err), None)
                | Ok statusData =>
                    (None, Some (pid, wrap 64 (utime + stime), starttime, vmRSS (split_byte 10 statusData)))
                end
          end
      end
  end.

Definition Status (k : kernel) (f : Files) (stat uptime status : result bytes)
    : option error * Files * option (Z * Z * Z * Z) :=
  match PID k f with
  | (Err err, f) => (Some err, f, None)
  | (Ok pid, f) =>
      if pid =? 0 then (None, f, None)
      else if negb (k_linux k) then (None, f, Some (pid, 0, 0, 0))
      else let '(err, r) := printLinuxProcessStatus pid stat uptime status in (err, f, r)
  end.

(** ** Numbers in files *)

Lemma trim_front_id fuel sps c s :
  find (fun sp => HasPrefix (c :: s) sp) sps = None -> trim_front fuel sps (c :: s) = c :: s.
Proof. intros H. destruct fuel; [done|]. cbn [trim_front]. by rewrite H. Qed.

Lemma trim_front_digits fuel s :
  Forall (fun c => 48 <= c <= 57) s -> s <> [] ->
  trim_front fuel spaces s = s /\ trim_front fuel ((fun sp => rev sp) <$> spaces) s = s.
Proof.
  intros Hs Hne. destruct s as [|c s]; [done|]. apply Forall_cons in Hs as [Hc _].
  assert (c = 48 \/ c = 49 \/ c = 50 \/ c = 51 \/ c = 52 \/ c = 53 \/ c = 54 \/ c = 55 \/ c = 56 \/ c = 57) as H by lia.
  destruct_or! H; subst c; split; apply trim_front_id; reflexivity.
Qed.

Lemma TrimSpace_digits s : Forall (fun c => 48 <= c <= 57) s -> TrimSpace s = s.
Proof.
  intros Hs. destruct s as [|c s]; [done|]. unfold TrimSpace.
  destruct (trim_front_digits (length (c :: s)) (c :: s)) as [-> _]; [done..|].
  destruct (trim_front_digits (length (c :: s)) (rev (c :: s))) as [_ ->].
  - by apply Forall_rev.
  - cbn. by destruct (rev s).
  - apply rev_involutive.
Qed.

(** The number in the pid file is read back. *)
Lemma pid_roundtrip pid : 0 <= pid < 2 ^ 63 -> Atoi (TrimSpace (format_pid pid)) = Ok pid.
Proof.
  intros Hp. pose proof (decimal_digits 20 pid ltac:(lia)) as Hd. unfold format_pid. rewrite TrimSpace_digits by done.
  pose proof (decimal_parse 64 20 pid) as Hv. pose proof (decimal_nonempty 19 pid) as Hne.
  specialize (Hv ltac:(change (10 ^ Z.of_nat 20) with 100000000000000000000; lia) ltac:(lia)).
  unfold Atoi. destruct (decimal 20 pid) as [|c s] eqn:E; [done|]. apply Forall_cons in Hd as [Hc _].
  assert (ParseUint (c :: s) 64 = Ok pid) as Hu by exact Hv.
  assert (c = 48 \/ c = 49 \/ c = 50 \/ c = 51 \/ c = 52 \/ c = 53 \/ c = 54 \/ c = 55 \/ c = 56 \/ c = 57) as H by lia.
  destruct_or! H; subst c; rewrite Hu; cbn [mbind result_bind]; by rewrite (proj2 (Z.leb_gt _ _)) by lia.
Qed.

(** ** Commands *)

(** A process the daemon's commands recognise. *)
Definition recognised (k : kernel) (pid : Z) : Prop :=
  processAlive k pid = true /\
  (k_linux k = true -> match k_comm k pid with
                       | Ok name => HasPrefix (TrimSpace name) binName = true
                       | Err _ => True end).

Lemma PID_recognised k f data pid :
  k_readPid k = None -> pidFile f = Some data -> Atoi (TrimSpace data) = Ok pid ->
  recognised k pid -> PID k f = (Ok pid, f).
Proof.
  intros H1 H2 H3 [Ha Hn]. unfold PID. rewrite H1, H2, H3, Ha. cbn [negb].
  destruct (k_linux k); [|done]. specialize (Hn eq_refl). destruct (k_comm k pid); [|done].
  by rewrite Hn, andb_false_r.
Qed.

(** [PID] answers with a live process of this program. It returns the number in
    the pid file only when that process is there and, where its name can be read,
    the name begins with the program's; a number of a dead process, or of another
    program's, is answered with "not running", and the pid file is then removed; a
    file that does not hold a number is an error and is kept. *)
Theorem PID_sound k f data :
  k_readPid k = None -> pidFile f = Some data ->
  match PID k f with
  | (Ok pid, f') =>
      exists n, Atoi (TrimSpace data) = Ok n /\
        (pid = n /\ f' = f /\ recognised k n \/ pid = 0 /\ f' = set_pid None f /\ ~ recognised k n)
  | (Err e, f') => f' = f /\ Atoi (TrimSpace data) = Err e
  end.
Proof.
  intros H1 H2. unfold PID, recognised. rewrite H1, H2. destruct (Atoi (TrimSpace data)) as [n|e]; [|done].
  destruct (processAlive k n) eqn:Ea; cbn [negb].
  - destruct (k_linux k) eqn:El; [|exists n; split; [done|]; left; by rewrite Ea].
    destruct (k_comm k n) as [name|] eqn:Ec; [|exists n; split; [done|]; left; by rewrite Ea, Ec].
    destruct (HasPrefix (TrimSpace name) binName) eqn:E.
    + rewrite andb_false_r. exists n. split; [done|]. left. by rewrite Ea, Ec.
    + assert (eqs (TrimSpace name) binName = false) as ->.
      { apply bool_decide_eq_false. intros E2. rewrite E2 in E. done. }
      cbn [negb andb]. exists n. split; [done|]. right. split_and!; [done|done|].
      rewrite Ec. intros [_ H]. specialize (H eq_refl). congruence.
  - exists n. split; [done|]. right. split_and!; [done|done|]. intros [? _]. congruence.
Qed.

Definition demo_kernel (signal : nat -> option error) : kernel :=
  mkKernelD true true (fun _ => None) (fun _ => Ok (str "outway")) None None None (Ok 4242) None None
    [true; true; true] signal (fun i => (i <? 2)%nat) None.

Lemma PID_sound_witness :
  exists n, Atoi (TrimSpace (str "4242")) = Ok n /\
    fst (PID (demo_kernel (fun _ => None)) (mkFiles (Some (str "4242")) None None)) = Ok n.
Proof.
  pose proof (PID_sound (demo_kernel (fun _ => None)) (mkFiles (Some (str "4242")) None None) (str "4242")
    eq_refl eq_refl) as H.
  exists 4242. split; [reflexivity|].
  destruct (PID (demo_kernel (fun _ => None)) (mkFiles (Some (str "4242")) None None)) as [[pid|e] f'].
  - destruct H as (n & H1 & H2). vm_compute in H1. injection H1 as <-. destruct H2 as [(-> & _)|(_ & _ & H2)]; [reflexivity|].
    destruct H2. split; reflexivity.
  - destruct H as [_ H]. vm_compute in H. discriminate H.
Defined.

(** *** Starting and stopping *)

Lemma Start_started k args f f1 l :
  Start k args f = (Return None, f1, l) -> Spawn args ∈ l ->
  exists pid, k_startDetached k = Ok pid /\ pidFile f1 = Some (format_pid pid) /\ k_root k = true.
Proof.
  unfold Start. destruct (PID k f) as [r f0]. case_one; [intros [= <- <-]; set_solver|].
  destruct (k_root k); [|done]. cbn [negb]. destruct (k_openStdout k); [done|]. destruct (k_openStderr k); [done|].
  destruct (k_startDetached k) as [pid|]; [|done]. destruct (k_writePid k); [done|].
  destruct (waitForStartup _ _); [done|]. intros [= <- <-] _. by exists pid.
Qed.

Lemma stopProcess_spec k pid n : forall i,
  exists m, stopProcess k pid i n = replicate m (SIGINT pid) /\ (m <= n)%nat /\
    (m < n -> exists j, (i <= j)%nat /\ (k_signal k j <> None \/ k_afterSignal k j = false))%nat.
Proof.
  induction n as [|n IH]; intros i; cbn [stopProcess]; [by exists 0%nat; split; [|split; [|lia]]|].
  destruct (k_signal k i) eqn:Es.
  - exists 0%nat. split; [done|]. split; [lia|]. intros _. exists i. split; [lia|]. left. by rewrite Es.
  - destruct (k_afterSignal k i) eqn:Ea; cbn [negb].
    + destruct (IH (S i)) as (m & -> & Hm & Hj). exists (S m). split; [done|]. split; [lia|].
      intros Hlt. destruct Hj as (j & ? & ?); [lia|]. exists j. split; [lia|done].
    + exists 1%nat. split; [done|]. split; [lia|]. intros _. exists i. split; [lia|by right].
Qed.

(** One daemon, which can be stopped. After a [start] that reports success the
    pid file names the process it spawned: while that process lives under the
    program's name, [PID] finds it, a second [start] spawns nothing, and [stop] sends
    interrupts to that process alone, one to 360 of them, fewer than 360 only once
    the process is gone or cannot be signalled, and removes the pid file. *)
Theorem daemon_lifecycle k k' args args' f f1 l pid :
  Start k args f = (Return None, f1, l) -> Spawn args ∈ l -> k_startDetached k = Ok pid ->
  0 < pid < 2 ^ 63 -> k_readPid k' = None -> recognised k' pid ->
  k_root k' = true -> k_remove k' = None -> k_signal k' 0 = None ->
  PID k' f1 = (Ok pid, f1) /\
  (exists l', Start k' args' f1 = (Return None, f1, l') /\ forall a, Spawn a ∉ l') /\
  exists m, Stop k' f1 = (Return None, set_pid None f1, replicate m (SIGINT pid)) /\ (1 <= m <= 360)%nat /\
    ((m < 360)%nat -> exists j, k_signal k' j <> None \/ k_afterSignal k' j = false).
Proof.
  intros HS Hsp Hpid Hp Hr Hrec Hroot Hrem Hsig.
  destruct (Start_started _ _ _ _ _ HS Hsp) as (pid' & E & Hf & _). rewrite Hpid in E. injection E as <-.
  assert (PID k' f1 = (Ok pid, f1)) as HP.
  { eapply PID_recognised; [done|exact Hf|apply pid_roundtrip; lia|done]. }
  split; [done|]. split.
  - unfold Start. rewrite HP. cbn [pid_of]. rewrite (proj2 (Z.eqb_neq pid 0)) by lia. cbn [negb].
    eexists. split; [reflexivity|]. intros a. set_solver.
  - destruct (stopProcess_spec k' pid 360 0) as (m & Hm & Hle & Hj). exists m.
    unfold Stop. rewrite Hroot, HP, Hrem. cbn [negb pid_of]. rewrite (proj2 (Z.eqb_neq pid 0)) by lia.
    cbn [negb]. rewrite Hm. split; [done|]. split.
    + destruct m; [|lia]. change 360%nat with (S 359) in Hm. cbn [stopProcess] in Hm. by rewrite Hsig in Hm.
    + intros Hlt. destruct (Hj Hlt) as (j & _ & Hj'). by exists j.
Qed.

Lemma daemon_lifecycle_witness :
  exists f1 l, Start (mkKernelD true true (fun _ => None) (fun _ => Ok (str "outway")) None None None (Ok 4242) None
      None [true; true; true] (fun _ => None) (fun _ => true) None) [str "run"] (mkFiles None None None) =
    (Return None, f1, l) /\
  exists m, Stop (demo_kernel (fun _ => None)) f1 = (Return None, set_pid None f1, replicate m (SIGINT 4242)) /\
    (1 <= m <= 360)%nat.
Proof.
  eexists _, _. split; [reflexivity|].
  destruct (daemon_lifecycle (demo_kernel (fun _ => None)) (demo_kernel (fun _ => None)) [str "run"] [str "run"]
    (mkFiles None None None) (mkFiles (Some (format_pid 4242)) (Some []) (Some []))
    [Spawn [str "run"]; Printed (str "started")] 4242) as (_ & _ & m & H1 & H2 & _);
    [reflexivity|left|reflexivity|lia|reflexivity|split; reflexivity|reflexivity|reflexivity|reflexivity|].
  exists m. split; [exact H1|exact H2].
Defined.

(** ** Logs and status *)

(** The lines with their line feeds. *)
Definition unlines (lines : list bytes) : bytes := concat ((fun l => l ++ [10]) <$> lines).

Lemma split_lines_spec s : forall cur, 10 ∉ cur ->
  Forall (fun l => 10 ∉ l) (split_lines s cur) /\
  (unlines (split_lines s cur) = cur ++ s \/ unlines (split_lines s cur) = cur ++ s ++ [10]) /\
  (forall s', s = s' ++ [10] -> unlines (split_lines s cur) = cur ++ s).
Proof.
  induction s as [|c s IH]; intros cur Hc; cbn [split_lines].
  - destruct cur as [|x cur]; [by split; [constructor|split; [left|intros s'; by destruct s']]|].
    split; [by repeat constructor|]. split; [right|intros s'; by destruct s']. unfold unlines. cbn. by rewrite app_nil_r.
  - case_one; zbool.
    + subst c. destruct (IH []) as (H1 & H2 & H3); [set_solver|]. split; [by constructor|].
      unfold unlines in *. cbn [fmap list_fmap concat]. cbn [app] in H2, H3. split.
      * rewrite <- app_assoc. destruct H2 as [->| ->]; [by left|by right].
      * intros s' Hs'. rewrite <- app_assoc. cbn [app]. do 2 f_equal. destruct s' as [|y s'].
        -- injection Hs' as ->. done.
        -- injection Hs' as _ ->. by eapply H3.
    + destruct (IH (cur ++ [c])) as (H1 & H2 & H3); [set_solver|]. split; [done|].
      rewrite <- !app_assoc in H2. cbn [app] in H2. split; [done|]. intros s' Hs'.
      destruct s' as [|y s']; [injection Hs' as -> _; done|]. injection Hs' as <- ->.
      rewrite (H3 s' eq_refl), <- app_assoc. done.
Qed.

(** Logs are printed line by line and complete: [splitLines] cuts a text at its
    line feeds, no line contains one, and the lines with their line feeds are the
    text again, with one added at its end exactly if it had none there. *)
Theorem splitLines_roundtrip s :
  Forall (fun l => 10 ∉ l) (splitLines s) /\
  unlines (splitLines s) = s ++ (if bool_decide (s = [] \/ last s = Some 10) then [] else [10]).
Proof.
  destruct (split_lines_spec s []) as (H1 & H2 & H3); [set_solver|]. split; [done|]. unfold splitLines in *.
  case_bool_decide as Hl.
  - rewrite app_nil_r. destruct Hl as [->|[s' ->]%last_Some]; [done|]. by eapply H3.
  - destruct H2 as [H2|H2]; [|done]. exfalso. apply Hl. cbn [app] in H2. destruct (split_lines s []) as [|x ls] eqn:E.
    + left. by rewrite <- H2.
    + right. rewrite <- H2. unfold unlines. clear.
      revert x. induction ls as [|y ls IH]; intros x; cbn [fmap list_fmap concat].
      * rewrite app_nil_r. apply last_snoc.
      * rewrite last_app. cbn [fmap list_fmap concat] in IH. by rewrite (IH y).
Qed.

(** A process name cannot disturb the parsing of the process table: the fields are
    read after the last parenthesis, so the times are those after the name whatever
    the name contains. *)
Theorem statTimes_any_name pre comm after :
  41 ∉ after -> 20 <= len (Fields after) -> 20 <= len (Fields (pre ++ comm ++ 41 :: after)) ->
  exists u s t, statTimes (pre ++ comm ++ 41 :: after) = Ok (u, s, t) /\
    u = match ParseUint (nth 11 (Fields after) []) 64 with Ok v => v | Err _ => 0 end /\
    s = match ParseUint (nth 12 (Fields after) []) 64 with Ok v => v | Err _ => 0 end /\
    t = match ParseUint (nth 19 (Fields after) []) 64 with Ok v => v | Err _ => 0 end.
Proof.
  intros H1 H2 H3. unfold statTimes. rewrite (proj2 (Z.ltb_ge _ _)) by done.
  rewrite app_assoc, (proj2 (cut_last_spec 41 _ (pre ++ comm) after)) by done.
  rewrite (proj2 (Z.ltb_ge _ _)) by done. by eexists _, _, _.
Qed.

(** ** What the commands do not notice *)

(** A child of this process that has exited remains in the process table until this
    process waits for it, which [startDetached] does not do. *)
Inductive child_state := Running | Zombie | Reaped.

(** [kill(pid, 0)] of a child. *)
Definition child_kill0 (c : child_state) : option error :=
  match c with Running | Zombie => None | Reaped => Some ESRCH end.

Definition child_alive (c : child_state) : bool :=
  match child_kill0 c with Some e => negb (bool_decide (e = ESRCH)) | None => true end.

(** So a daemon that dies during its startup is reported as started. *)
Theorem startup_failure_unnoticed states childErr :
  Forall (fun c => c <> Reaped) states -> waitForStartup (child_alive <$> states) childErr = None.
Proof.
  induction 1 as [|c states Hc _ IH]; [done|]. destruct c; [done|done|by destruct Hc].
Qed.

(** A pid file with the number -1 is accepted when signals to -1 succeed (as they do
    for root) and [/proc/-1] does not exist: [stop] interrupts every process. *)
Theorem stop_negative_pid k :
  k_root k = true -> k_readPid k = None -> k_kill0 k (-1) = None -> (exists e, k_comm k (-1) = Err e) ->
  k_signal k 0 = None ->
  SIGINT (-1) ∈ snd (Stop k (mkFiles (Some (str "-1")) None None)).
Proof.
  intros H1 H2 H3 [e H4] H5. unfold Stop. rewrite H1. cbn [negb].
  assert (PID k (mkFiles (Some (str "-1")) None None) = (Ok (-1), mkFiles (Some (str "-1")) None None)) as ->.
  { unfold PID, processAlive. rewrite H2. cbn [pidFile]. change (Atoi (TrimSpace (str "-1"))) with (Ok (-1) : result Z).
    cbv beta iota. rewrite H3. cbn [negb]. rewrite H4. by destruct (k_linux k). }
  change 360%nat with (S 359). cbn [pid_of Z.eqb negb snd stopProcess]. rewrite H5. left.
Qed.
