(* ===== verification/Oneself.v ===== *)
(** * Self-update and uninstall ([internal/oneself/oneself.go])

    The choice of the release asset, the extraction of the binary from it, and the
    replacement of the executable as the sequence of file-system states it goes
    through, so that a crash between any two system calls is covered. The network, and
    the JSON, gzip and tar formats are libraries': their results are arguments. *)

From Stdlib Require Import ZArith Lia.
From stdpp Require Import base tactics numbers strings sets gmap list.
From S2P Require Import Prelude.
From S2P Require Import Netip.
From S2P Require Import Ext.
From S2P Require Import Uint128.
From S2P Require Import SourceIP.
From S2P Require Import Config.
From S2P Require Import HttpProxy.

Record githubAsset := mkAsset { as_Name : bytes; as_URL : bytes }.
Record githubRelease := mkRelease { TagName : bytes; Body : bytes; Assets : list githubAsset }.

Definition exeName : bytes := str "outway".

(** ** The asset *)

Definition currentTarget (goos goarch : bytes) : bytes :=
  let on a b := eqs goos (str a) && eqs goarch (str b) in
  if on "linux" "amd64" then str "x86_64-unknown-linux-gnu"
  else if on "linux" "arm64" then str "aarch64-unknown-linux-gnu"
  else if on "linux" "386" then str "i686-unknown-linux-gnu"
  else if on "darwin" "amd64" then str "x86_64-apple-darwin"
  else if on "darwin" "arm64" then str "aarch64-apple-darwin"
  else if on "windows" "amd64" then str "x86_64-pc-windows-msvc"
  else if on "windows" "arm64" then str "aarch64-pc-windows-msvc"
  else if on "freebsd" "amd64" then str "x86_64-unknown-freebsd"
  else goos ++ [45] ++ goarch.

Definition findAsset (goos goarch : bytes) (release : githubRelease) (target : bytes) : result githubAsset :=
  match find (fun a => Contains (toLower (as_Name a)) (toLower target)) (Assets release) with
  | Some a => Ok a
  | None =>
      match find (fun a => Contains (toLower (as_Name a)) goos && Contains (toLower (as_Name a)) goarch)
              (Assets release) with
      | Some a => Ok a
      | None => Err (Errorf "no release asset found for target %s" target)
      end
  end.

(** ** Extraction *)

(** [filepath.Base] on Unix. *)
Fixpoint drop_slashes (r : bytes) : bytes :=
  match r with 47 :: r => drop_slashes r | _ => r end.

Definition Base (path : bytes) : bytes :=
  match path with
  | [] => str "."
  | _ =>
      match drop_slashes (rev path) with
      | [] => str "/"
      | r => rev (fst (cut_byte 47 r))
      end
  end.

(** A tar archive as [tar.Reader] delivers it: entries, and how it ends. *)
Record tarEntry := mkEntry { te_Name : bytes; te_Dir : bool; te_Data : result bytes }.
Record archive := mkArchive { ar_entries : list tarEntry; ar_err : option error }.

Fixpoint tar_loop (entries : list tarEntry) (end_ : option error) : result bytes :=
  match entries with
  | [] =>
      match end_ with
      | Some err => Err err
      | None => Err (Errorf "binary not found in archive" [])
      end
  | e :: entries =>
      let base := Base (te_Name e) in
      if eqs base exeName || eqs base (exeName ++ str ".exe") then te_Data e
      else tar_loop entries end_
  end.

(** ** The file system: paths and contents *)

Abbreviation fs := (gmap bytes bytes).

(** [os.CreateTemp] makes an empty file of a new name; a failed write leaves a prefix. *)
Definition partial_write (fails : option error) (n : Z) (data : bytes) : bytes :=
  if fails is Some _ then slice data 0 n else data.

(** ** Download *)

Record download_os := mkDownloadOS {
  dn_Get : bytes -> result (Z * bytes);  (* status code and body *)
  dn_CreateTemp : result bytes;          (* the new file's name *)
  dn_Copy : option error;
  dn_partial : Z
}.

(** [downloadAsset]: its result, and the file system after each step that changes it. *)
Definition downloadAsset (os : download_os) (url : bytes) (f : fs) : result bytes * list fs :=
  match dn_Get os url with
  | Err err => (Err err, [])
  | Ok (status, body) =>
      if negb (status =? 200)%Z then (Err (Errorf "download returned %d" [status]), [])
      else
        match dn_CreateTemp os with
        | Err err => (Err err, [])
        | Ok tmp =>
            let f1 := <[tmp := []]> f in
            let f2 := <[tmp := partial_write (dn_Copy os) (dn_partial os) body]> f in
            match dn_Copy os with
            | Some err => (Err err, [f1; f2])
            | None => (Ok tmp, [f1; f2])
            end
        end
  end.

Section Extract.
  (** [compress/gzip] and [archive/tar] on the bytes of a file. *)
  Variable gunzip : bytes -> result bytes.
  Variable untar_gz : bytes -> result archive.

Definition Open (f : fs) (path : bytes) : result bytes :=
  match f !! path with Some data => Ok data | None => Err (Errno 2) end.

Definition extractFromTarGz (f : fs) (path : bytes) : result bytes :=
  data ← Open f path; a ← untar_gz data; tar_loop (ar_entries a) (ar_err a).

Definition readGzip (f : fs) (path : bytes) : result bytes :=
  data ← Open f path; gunzip data.

Definition extractBinary (f : fs) (path assetName : bytes) : result bytes :=
  let name := toLower assetName in
  if HasSuffix name (str ".tar.gz") || HasSuffix name (str ".tgz") then extractFromTarGz f path
  else if HasSuffix name (str ".gz") then readGzip f path
  else Open f path.

End Extract.

(** ** Replacement *)

(** The results of the system calls; a failed write has written [rp_partial] bytes. *)
Record replace_os := mkReplaceOS {
  rp_CreateTemp : result bytes;
  rp_Write : option error;
  rp_partial : Z;
  rp_Chmod : option error;
  rp_Close : option error;
  rp_Remove : option error;            (* of the executable, on Windows *)
  rp_Rename : option error
}.

(** [replaceExecutable]: its result and the states of the file system after each
    step that changes it, the deferred removal last. *)
Definition replaceExecutable (os : replace_os) (goos exePath data : bytes) (f : fs) : option error * list fs :=
  match rp_CreateTemp os with
  | Err err => (Some err, [])
  | Ok tmpPath =>
      let f1 := <[tmpPath := []]> f in
      let f2 := <[tmpPath := partial_write (rp_Write os) (rp_partial os) data]> f in
      match rp_Write os, rp_Chmod os, rp_Close os with
      | Some err, _, _ => (Some err, [f1; f2; delete tmpPath f2])
      | None, Some err, _ => (Some err, [f1; f2; delete tmpPath f2])
      | None, None, Some err => (Some err, [f1; f2; delete tmpPath f2])
      | None, None, None =>
          let f3 := if eqs goos (str "windows") then
                      (if rp_Remove os is Some _ then f2 else delete exePath f2) else f2 in
          match rp_Rename os with
          | Some err => (Some err, [f1; f2; f3; delete tmpPath f3])
          | None =>
              let f4 := <[exePath := data]> (delete tmpPath f3) in
              (None, [f1; f2; f3; f4; delete tmpPath f4])
          end
      end
  end.

(** ** Update and Uninstall *)

(** The response of the releases API: status, body, and the body decoded. *)
Record api_response := mkApi { api_Status : Z; api_Body : bytes; api_Decode : result githubRelease }.

Definition fetchLatestRelease (resp : result api_response) : result githubRelease :=
  r ← resp;
  if negb (api_Status r =? 200)%Z then Err (Errorf "github API returned %d: %s" (api_Status r :: api_Body r))
  else api_Decode r.

Record update_os := mkUpdateOS {
  uo_goos : bytes;
  uo_goarch : bytes;
  uo_version : bytes;
  uo_api : result api_response;
  uo_download : download_os;
  uo_gunzip : bytes -> result bytes;
  uo_untar_gz : bytes -> result archive;
  uo_Executable : result bytes;
  uo_replace : replace_os
}.

Definition asset_for (os : update_os) (release : githubRelease) : result githubAsset :=
  findAsset (uo_goos os) (uo_goarch os) release (currentTarget (uo_goos os) (uo_goarch os)).

(** [Update] after the download, without the deferred removal of the download. *)
Definition Update_install (os : update_os) (asset : githubAsset) (tmpPath : bytes) (f : fs)
  : option error * list fs :=
  match uo_Executable os with
  | Err err => (Some (Wrap "get executable path: %w" err), [])
  | Ok exePath =>
      match extractBinary (uo_gunzip os) (uo_untar_gz os) f tmpPath (as_Name asset) with
      | Err err => (Some (Wrap "extract binary: %w" err), [])
      | Ok binaryData =>
          let '(err, l) := replaceExecutable (uo_replace os) (uo_goos os) exePath binaryData f in
          (Wrap "replace executable: %w" <$> err, l)
      end
  end.

Definition after (f : fs) (l : list fs) : fs := default f (last l).

Definition Update (os : update_os) (f : fs) : option error * list fs :=
  match fetchLatestRelease (uo_api os) with
  | Err err => (Some (Wrap "fetch latest release: %w" err), [])
  | Ok release =>
      let latestVersion := TrimPrefix (TagName release) (str "v") in
      if eqs latestVersion (uo_version os) then (None, [])
      else
        match asset_for os release with
        | Err err => (Some err, [])
        | Ok asset =>
            match downloadAsset (uo_download os) (as_URL asset) f with
            | (Err err, l) => (Some (Wrap "download asset: %w" err), l)
            | (Ok tmpPath, l) =>
                let '(err, l') := Update_install os asset tmpPath (after f l) in
                (err, l ++ l' ++ [delete tmpPath (after f (l ++ l'))])
            end
        end
  end.

Definition Uninstall (exe : result bytes) (removeErr : option error) (f : fs) : option error * fs :=
  match exe with
  | Err err => (Some (Wrap "get executable path: %w" err), f)
  | Ok exePath =>
      match removeErr with
      | Some err => (Some (Wrap "remove executable: %w" err), f)
      | None => (None, delete exePath f)
      end
  end.

(** ** Lemmas *)

Lemma after_app f l l' : after f (l ++ l') = after (after f l) l'.
Proof.
  unfold after. destruct l' as [|x l' _] using rev_ind; [by rewrite app_nil_r|].
  by rewrite app_assoc, !last_snoc.
Qed.

Lemma after_snoc f l s : after f (l ++ [s]) = s.
Proof. unfold after. by rewrite last_snoc. Qed.

(** A file system that differs from [f] at most at the listed paths. *)
Definition agrees_off (ps : list bytes) (f s : fs) : Prop := forall p, p ∉ ps -> s !! p = f !! p.

Lemma agrees_off_insert ps p x f s : p ∈ ps -> agrees_off ps f s -> agrees_off ps f (<[p := x]> s).
Proof. intros Hp H q Hq. rewrite lookup_insert_ne by set_solver. by apply H. Qed.

Lemma agrees_off_delete ps p f s : p ∈ ps -> agrees_off ps f s -> agrees_off ps f (delete p s).
Proof. intros Hp H q Hq. rewrite lookup_delete_ne by set_solver. by apply H. Qed.

Lemma agrees_off_mono ps qs f s : ps ⊆ qs -> agrees_off ps f s -> agrees_off qs f s.
Proof. intros Hs H p Hp. apply H. set_solver. Qed.

Lemma agrees_off_trans ps f g s : agrees_off ps f g -> agrees_off ps g s -> agrees_off ps f s.
Proof. intros H1 H2 p Hp. by rewrite H2, H1. Qed.

(** A call that may fail and that, when it does not, gives this name. *)
Definition may_name (r : result bytes) (path : bytes) : Prop := forall p, r = Ok p -> p = path.

Lemma may_name_case r path : may_name r path -> r = Ok path \/ exists e, r = Err e.
Proof. intros H. destruct r as [p|e]; [left; by rewrite (H p eq_refl)|right; by exists e]. Qed.

Lemma replaceExecutable_states os goos exePath tmpPath data f :
  goos <> str "windows" -> may_name (rp_CreateTemp os) tmpPath -> f !! tmpPath = None -> tmpPath <> exePath ->
  let '(err, states) := replaceExecutable os goos exePath data f in
  Forall (fun s => s !! exePath = f !! exePath \/ s !! exePath = Some data) states /\
  Forall (agrees_off [exePath; tmpPath] f) states /\
  after f states = match err with None => <[exePath := data]> f | Some _ => f end.
Proof.
  intros Hw [Ht|[e Ht]]%may_name_case Hf Hne; unfold replaceExecutable; rewrite Ht; [|by repeat split].
  unfold eqs; rewrite (bool_decide_eq_false_2 _ Hw).
  assert (forall x, delete tmpPath (<[tmpPath := x]> f) = f) as Hdel
    by (intros x; by rewrite delete_insert_eq, delete_id).
  assert (delete tmpPath (<[exePath := data]> f) = <[exePath := data]> f) as Hend
    by (rewrite delete_id; [done|]; by rewrite lookup_insert_ne).
  destruct (rp_Write os); [|destruct (rp_Chmod os); [|destruct (rp_Close os); [|destruct (rp_Rename os)]]];
    rewrite !Hdel, ?Hend; (split; [|split; [|done]]);
    repeat (apply Forall_cons; split); try apply Forall_nil; try exact I;
    lazymatch goal with
    | |- agrees_off _ _ _ => repeat (apply agrees_off_insert; [set_solver|]); by intros p _
    | |- <[tmpPath:=_]> _ !! _ = _ \/ _ => left; by apply lookup_insert_ne
    | |- <[exePath:=_]> _ !! _ = _ \/ _ => right; apply lookup_insert_eq
    | |- _ => by left
    end.
Qed.

Lemma downloadAsset_states os url f tmp :
  may_name (dn_CreateTemp os) tmp ->
  let '(r, states) := downloadAsset os url f in
  Forall (agrees_off [tmp] f) states /\
  match r with
  | Ok path => path = tmp /\ states <> [] /\ exists body, dn_Get os url = Ok (200, body) /\ after f states = <[tmp := body]> f
  | Err _ => dn_Copy os = None -> states = []
  end.
Proof.
  intros Ht%may_name_case. unfold downloadAsset.
  destruct (dn_Get os url) as [[status body]|]; [|by split].
  destruct (Z.eqb_spec status 200) as [->|]; cbn [negb]; [|by split].
  destruct Ht as [Ht|[e Ht]]; rewrite Ht; [|by split].
  destruct (dn_Copy os) eqn:Ec; 
    (split; [repeat constructor; apply agrees_off_insert; try set_solver; by intros p _|]); [done|].
  split_and!; [done|done|]. by exists body.
Qed.

(** The executable of a state is the old one, or [new] holds of it. *)
Definition old_or (f : fs) (exePath : bytes) (new : bytes -> Prop) (s : fs) : Prop :=
  s !! exePath = f !! exePath \/ exists data, new data /\ s !! exePath = Some data.

(** The states of the installation, whichever way it ends. *)
Lemma Update_install_states os asset path f exePath tmpPath :
  may_name (uo_Executable os) exePath -> uo_goos os <> str "windows" ->
  may_name (rp_CreateTemp (uo_replace os)) tmpPath -> f !! tmpPath = None -> tmpPath <> exePath ->
  let new data := extractBinary (uo_gunzip os) (uo_untar_gz os) f path (as_Name asset) = Ok data in
  let '(err, states) := Update_install os asset path f in
  Forall (agrees_off [exePath; tmpPath] f) states /\ Forall (old_or f exePath new) states /\
  match err with
  | None => exists data, new data /\ after f states = <[exePath := data]> f
  | Some _ => after f states = f
  end.
Proof.
  intros [He|[e He]]%may_name_case Hw Ht Hf Hne new; unfold Update_install; rewrite He; [|by repeat split].
  subst new.
  destruct (extractBinary _ _ _ _ _) as [data|e]; [|split; [constructor|]; by split; [constructor|]].
  pose proof (replaceExecutable_states (uo_replace os) (uo_goos os) exePath tmpPath data f Hw Ht Hf Hne) as H.
  destruct (replaceExecutable _ _ _ _ _) as [[e|] states]; destruct H as (H1 & H2 & H3);
    (split; [exact H2|]; split; [eapply Forall_impl; [exact H1|]; intros s [Hs|Hs]; [by left|right; by exists data]|]);
    [done|by exists data].
Qed.

(** Seen from before the download, with the download removed at the end. *)
Lemma installed_states f dlPath body exePath tmpPath new (err : option error) states :
  f !! dlPath = None -> exePath <> dlPath ->
  let g := <[dlPath := body]> f in
  Forall (agrees_off [exePath; tmpPath] g) states -> Forall (old_or g exePath new) states ->
  match err with
  | None => exists data, new data /\ after g states = <[exePath := data]> g
  | Some _ => after g states = g
  end ->
  let fin := delete dlPath (after g states) in
  Forall (agrees_off [exePath; dlPath; tmpPath] f) (states ++ [fin]) /\
  Forall (old_or f exePath new) (states ++ [fin]) /\
  match err with
  | None => exists data, new data /\ fin = <[exePath := data]> f
  | Some _ => fin = f
  end.
Proof.
  intros Hfd Hed g H1 H2 H3 fin.
  assert (delete dlPath g = f) as Hdel by (by subst g; rewrite delete_insert_eq, delete_id).
  assert (match err with
          | None => exists data, new data /\ fin = <[exePath := data]> f
          | Some _ => fin = f
          end) as Hfin.
  { subst fin. destruct err; [by rewrite H3|]. destruct H3 as (data & Hn & ->). exists data. split; [done|].
    by rewrite delete_insert_ne, Hdel. }
  rewrite !Forall_app, !Forall_singleton. split_and!; [| | | |exact Hfin].
  - eapply Forall_impl; [exact H1|]. intros s Hs. apply agrees_off_trans with g.
    + apply agrees_off_insert; [set_solver|]. by intros p _.
    + eapply agrees_off_mono, Hs. set_solver.
  - destruct err; [|destruct Hfin as (data & _ & Hfin)]; rewrite Hfin;
      [|apply agrees_off_insert; [set_solver|]]; by intros p _.
  - eapply Forall_impl; [exact H2|]. intros s [Hs|(data & Hn & Hs)]; [left|right; by exists data].
    rewrite Hs. by apply lookup_insert_ne.
  - destruct err; [left; by rewrite Hfin|]. destruct Hfin as (data & Hn & ->). right. exists data.
    split; [done|apply lookup_insert_eq].
Qed.

(** What an update installs: the binary extracted from the asset chosen for the
    platform, of a release that is not the running version. *)
Definition new_binary (os : update_os) (f : fs) (dlPath data : bytes) : Prop :=
  exists release asset body,
    fetchLatestRelease (uo_api os) = Ok release /\ TrimPrefix (TagName release) (str "v") <> uo_version os /\
    asset_for os release = Ok asset /\ dn_Get (uo_download os) (as_URL asset) = Ok (200, body) /\
    extractBinary (uo_gunzip os) (uo_untar_gz os) (<[dlPath := body]> f) dlPath (as_Name asset) = Ok data.

(** C37: An update is atomic on systems other than Windows, whichever calls fail. Wherever
    it stops (an error of any call, or a crash between two of them) the executable is the old
    one or the complete new binary, never missing or partial, and no file but the
    executable and the two temporary ones has changed. When it returns, success means
    that the version was current and nothing was touched or that exactly the
    executable was replaced; an error means that nothing has changed, unless the copy
    of the download failed. The paths are those that [os.Executable] and the two
    [os.CreateTemp] give when they do not fail; the temporary ones are new. *)
Theorem Update_atomic os f exePath dlPath tmpPath :
  uo_goos os <> str "windows" -> may_name (uo_Executable os) exePath ->
  may_name (dn_CreateTemp (uo_download os)) dlPath -> may_name (rp_CreateTemp (uo_replace os)) tmpPath ->
  NoDup [exePath; dlPath; tmpPath] -> f !! dlPath = None -> f !! tmpPath = None ->
  let '(err, states) := Update os f in
  Forall (agrees_off [exePath; dlPath; tmpPath] f) states /\
  Forall (old_or f exePath (new_binary os f dlPath)) states /\
  match err with
  | None => states = [] \/ exists data, new_binary os f dlPath data /\ after f states = <[exePath := data]> f
  | Some _ => dn_Copy (uo_download os) = None -> after f states = f
  end.
Proof.
  intros Hw He Hd Ht Hnd Hfd Hft.
  assert (exePath <> dlPath /\ exePath <> tmpPath /\ dlPath <> tmpPath) as (Hed & Het & Hdt)
    by (rewrite !NoDup_cons in Hnd; set_solver).
  unfold Update. destruct (fetchLatestRelease (uo_api os)) as [release|e0] eqn:Er; [|by split_and!].
  destruct (eqs (TrimPrefix (TagName release) (str "v")) (uo_version os)) eqn:Ev; [split_and!; by try left|].
  apply bool_decide_eq_false in Ev. destruct (asset_for os release) as [asset|e1] eqn:Ea; [|by split_and!].
  pose proof (downloadAsset_states (uo_download os) (as_URL asset) f dlPath Hd) as Hdl.
  destruct (downloadAsset _ _ _) as [[path|e] l]; destruct Hdl as (Hl & Hr).
  2:{ split_and!; [| |intros Hc; by rewrite Hr].
      - eapply Forall_impl; [exact Hl|]. intros s. apply agrees_off_mono. set_solver.
      - eapply Forall_impl; [exact Hl|]. intros s Hs. left. apply Hs. set_solver. }
  destruct Hr as (-> & _ & body & Hget & Haf). rewrite Haf.
  pose proof (Update_install_states os asset dlPath (<[dlPath := body]> f) exePath tmpPath He Hw Ht) as H.
  specialize (H ltac:(by rewrite lookup_insert_ne) ltac:(done)).
  set (new := fun data => _) in H. assert (forall data, new data -> new_binary os f dlPath data) as Hnew
    by (intros data Hn; by exists release, asset, body).
  destruct (Update_install os asset dlPath _) as [err l']. destruct H as (H1 & H2 & H3). rewrite after_app, Haf.
  destruct (installed_states f dlPath body exePath tmpPath new err l' Hfd Hed H1 H2 H3) as (G1 & G2 & G3).
  set (fin := delete dlPath _) in *. rewrite (Forall_app _ l). rewrite (Forall_app _ l). split_and!.
  - eapply Forall_impl; [exact Hl|]. intros s. apply agrees_off_mono. set_solver.
  - exact G1.
  - eapply Forall_impl; [exact Hl|]. intros s Hs. left. apply Hs. set_solver.
  - eapply Forall_impl; [exact G2|]. intros s [Hs|(data & Hn & Hs)]; [by left|right; exists data; auto].
  - rewrite app_assoc, after_snoc. destruct err; [done|]. destruct G3 as (data & Hn & G3). right. exists data. auto.
Qed.

(** A release with one raw asset, on a system where every call succeeds. *)
Definition demo_release : githubRelease :=
  mkRelease (str "v1.1.0") [] [mkAsset (str "outway-x86_64-unknown-linux-gnu") (str "u")].

Definition demo_update (api : githubRelease) (untar : bytes -> result archive) : update_os :=
  mkUpdateOS (str "linux") (str "amd64") (str "1.0.0") (Ok (mkApi 200 [] (Ok api)))
    (mkDownloadOS (fun _ => Ok (200, [7; 7; 7])) (Ok (str "/tmp/d")) None 0)
    (fun data => Ok data) untar (Ok (str "/bin/outway"))
    (mkReplaceOS (Ok (str "/bin/t")) None 0 None None None None).

Lemma Update_atomic_witness :
  let f := {[str "/bin/outway" := [1; 1]]} : fs in
  let u := Update (demo_update demo_release (fun _ => Err EOF)) f in
  fst u = None /\ after f (snd u) !! str "/bin/outway" = Some [7; 7; 7] /\
  Forall (agrees_off [str "/bin/outway"; str "/tmp/d"; str "/bin/t"] f) (snd u).
Proof.
  pose proof (Update_atomic (demo_update demo_release (fun _ => Err EOF)) {[str "/bin/outway" := [1; 1]]}
    (str "/bin/outway") (str "/tmp/d") (str "/bin/t") ltac:(by vm_compute) ltac:(by intros p [= <-])
    ltac:(by intros p [= <-]) ltac:(by intros p [= <-]) ltac:(by_decide) ltac:(by vm_compute) ltac:(by vm_compute)) as H.
  cbv zeta. split; [by vm_compute|]. split; [by vm_compute|]. destruct (Update _ _) as [err states]. apply H.
Defined.

(** ** Where the update installs something else *)

(** The archive entry is chosen by its base name only: a directory entry
    [outway/] before the binary is read as an empty file, which is installed. *)
Theorem tar_directory_chosen data :
  tar_loop [mkEntry (str "outway/") true (Ok []); mkEntry (str "outway/outway") false (Ok data)] None = Ok [].
Proof. reflexivity. Qed.

(** The asset is the first that contains the target: a checksum listed before the
    binary is chosen, and installed as it is. *)
Theorem checksum_installed d z body :
  let sum := mkAsset (str "outway-x86_64-unknown-linux-gnu.sha256") (str "u") in
  let bin := mkAsset (str "outway-x86_64-unknown-linux-gnu.tar.gz") (str "v") in
  findAsset (str "linux") (str "amd64") (mkRelease (str "v2") [] [sum; bin])
    (currentTarget (str "linux") (str "amd64")) = Ok sum /\
  extractBinary d z {[str "p" := body]} (str "p") (as_Name sum) = Ok body.
Proof. split; [reflexivity|]. unfold extractBinary, Open. by rewrite lookup_singleton_eq. Qed.

(** On Windows a failed rename leaves no executable. *)
Theorem windows_update_removes tmpPath exePath data e f :
  f !! tmpPath = None -> tmpPath <> exePath ->
  let os := mkReplaceOS (Ok tmpPath) None 0 None None None (Some e) in
  let '(err, states) := replaceExecutable os (str "windows") exePath data f in
  err = Some e /\ after f states !! exePath = None.
Proof.
  intros Hf Hne. cbn. split; [done|]. rewrite lookup_delete_ne by done. apply lookup_delete_eq.
Qed.

(** A failed copy of the download leaves its temporary file. *)
Theorem failed_download_leaks url body tmp e f :
  let os := mkDownloadOS (fun _ => Ok (200, body)) (Ok tmp) (Some e) 0 in
  let '(r, states) := downloadAsset os url f in r = Err e /\ is_Some (after f states !! tmp).
Proof. cbn. split; [done|]. rewrite lookup_insert_eq. by eexists. Qed.
