(* ===== verification/Boot.v ===== *)
(** * From the command line to a running server ([main.go], [run.go], [resources_unix.go], [sockbuf.go])

    Models [buildBootArgs] of [main.go] with the [netip] parsers it calls, the
    descriptor limit of [resources_unix.go], the check of the UDP buffers, and [Run]:
    the order of the preparations, the construction of the connector and the server,
    and the two ways it ends. Flag parsing is the command-line library's: a flag is
    its value. *)

From Stdlib Require Import ZArith Lia.
From stdpp Require Import base tactics numbers list strings sets gmap list.
From S2P Require Import Prelude.
From S2P Require Import Netip.
From S2P Require Import Ext.
From S2P Require Import Uint128.
From S2P Require Import SourceIP.
From S2P Require Import Config.
From S2P Require Import DnsCache.
From S2P Require Import Connector.
From S2P Require Import Serverbase.
From S2P Require Import HttpProxy.
From S2P Require Import Route.
From S2P Require Import Servers.

(** ** netip *)

(** [netip.ParsePrefix] *)
Definition errPrefix : error := Errorf "netip.ParsePrefix: invalid prefix" [].

Definition ParsePrefix (s : bytes) : result Prefix :=
  match cut_last 47 s with
  | None => Err errPrefix
  | Some (ipStr, bitsStr) =>
      match ParseAddr ipStr with
      | Err _ => Err errPrefix
      | Ok ip =>
          if Is6 ip && negb (zone_free ip) then Err errPrefix
          else if (1 <? len bitsStr) && ((idx bitsStr 0 <? 49) || (57 <? idx bitsStr 0)) then Err errPrefix
          else
            match ParseUint bitsStr 63 with
            | Err _ => Err errPrefix
            | Ok bits => if BitLen ip <? bits then Err errPrefix else Ok (mkPrefix ip bits)
            end
      end
  end.

(** [netip.ParseAddrPort] *)
Definition errAddrPort : error := Errorf "netip.ParseAddrPort: invalid ip:port" [].

Definition ParseAddrPort (s : bytes) : result AddrPort :=
  match cut_last 58 s with
  | None => Err errAddrPort
  | Some (ip, port) =>
      if (len ip =? 0) || (len port =? 0) then Err errAddrPort
      else
        let parse (v6 : bool) (ip : bytes) :=
          port ← ParseUint port 16;
          ip ← ParseAddr ip;
          if v6 && Is4 ip then Err errAddrPort
          else if negb v6 && Is6 ip then Err errAddrPort
          else Ok (AddrPortFrom ip port) in
        match ip with
        | 91 :: rest =>
            if (len ip <? 2) || negb (idx ip (len ip - 1) =? 93) then Err errAddrPort
            else parse true (take (length rest - 1) rest)
        | _ => parse false ip
        end
  end.

(** ** buildBootArgs *)

Record flags := mkFlags {
  flagLogLevel : bytes;
  flagBind : bytes;
  flagConcurrent : Z;
  flagWorkers : Z;
  flagCIDR : bytes;
  flagCIDRRange : Z;
  flagFallback : bytes;
  flagConnectTimeout : Z;
  flagTCPUserTimeout : Z;
  flagReuseAddr : bool;
  flagMaxPendingDials : Z;
  flagReusePort : bool;
  flagUDP : UDPConfig;         (* the flagUDP* variables *)
  flagUsername : bytes;
  flagPassword : bytes;
  flagTLSCert : bytes;
  flagTLSKey : bytes
}.

Definition buildBootArgs (linux : bool) (f : flags) (proxyName : bytes) : result BootArgs :=
  bind ← ParseAddrPort (flagBind f);
  '(cidr, cidrRange) ←
    (if negb (eqs (flagCIDR f) []) then
       cidr ← ParsePrefix (flagCIDR f);
       Ok (Some cidr, if 0 <? flagCIDRRange f then Some (flagCIDRRange f) else None)
     else Ok (None, None));
  fallback ←
    (if negb (eqs (flagFallback f) []) then
       fb ← ParseFallback (flagFallback f); Ok (Some fb)
     else Ok None);
  '(kind, cert, key) ←
    (if eqs proxyName (str "http") then Ok (ProxyHTTP, [], [])
     else if eqs proxyName (str "https") then Ok (ProxyHTTPS, flagTLSCert f, flagTLSKey f)
     else if eqs proxyName (str "socks5") then Ok (ProxySocks5, [], [])
     else if eqs proxyName (str "auto") then Ok (ProxyAuto, flagTLSCert f, flagTLSKey f)
     else Err (Errorf "unknown proxy type" []));
  let args := {|
    LogLevel := ParseLogLevel (flagLogLevel f);
    Bind := bind;
    Concurrent := flagConcurrent f;
    Workers := flagWorkers f;
    CIDR := cidr;
    CIDRRange := cidrRange;
    ba_Fallback := fallback;
    ConnectTimeout := flagConnectTimeout f;
    TCPUserTimeout := if linux then Some (flagTCPUserTimeout f) else None;
    ReuseAddr := Some (flagReuseAddr f);
    MaxPendingDials := flagMaxPendingDials f;
    ReusePort := flagReusePort f;
    UDP := flagUDP f;
    Proxy := {| Kind := kind; Auth := mkAuthMode (flagUsername f) (flagPassword f);
                TLSCert := cert; TLSKey := key |}
  |} in
  _ ← Validate args;
  Ok args.

(** The defaults of the flags ([addBootArgsFlags]). *)
Definition defaultFlags : flags := {|
  flagLogLevel := str "info";
  flagBind := str "127.0.0.1:1080";
  flagConcurrent := 8192;
  flagWorkers := 0;
  flagCIDR := [];
  flagCIDRRange := 0;
  flagFallback := [];
  flagConnectTimeout := 10;
  flagTCPUserTimeout := 30;
  flagReuseAddr := true;
  flagMaxPendingDials := DefaultMaxPendingDials;
  flagReusePort := false;
  flagUDP := {| MaxPacketSize := DefaultUDPMaxPacketSize; BatchSize := DefaultUDPBatchSize;
                BatchBufferBudget := DefaultUDPBatchBufferBudget;
                SendQueueSize := DefaultUDPSendQueueSize; SendWorkers := 0; SocketBufferBytes := 0;
                MaxAssociations := 0; MetricsIntervalSecs := DefaultUDPMetricsIntervalSecs;
                AssociationIdleTimeoutSecs := 0; GSO := false; GRO := false |};
  flagUsername := [];
  flagPassword := [];
  flagTLSCert := [];
  flagTLSKey := []
|}.

(** [buildRunArgsFromOSArgs]: the arguments after the command's name. *)
Definition buildRunArgsFromOSArgs (osArgs : list bytes) : list bytes :=
  str "run" :: (if 2 <? len osArgs then drop 2 osArgs else []).

(** ** Preparations *)

(** [required] of [prepareResourceLimitsUnix], in 64-bit arithmetic. *)
Definition requiredDescriptors (a : BootArgs) : Z :=
  let required := wrap 64 (wrap 64 (Concurrent a * 2) + 4096) in
  match Kind (Proxy a) with
  | ProxySocks5 | ProxyAuto =>
      let associations := if MaxAssociations (UDP a) =? 0 then Concurrent a else MaxAssociations (UDP a) in
      wrap 64 (required + wrap 64 (associations * 2))
  | _ => required
  end.

(** What the operating system answers [Run]. [ru_unix] and [ru_linux] are the
    build targets whose [init] functions install the preparations. *)
Inductive run_end :=
  | Served (err : option error)         (* Start returned *)
  | Signalled (serveErr : option error). (* SIGINT or SIGTERM came first; then Start returned *)

Record run_os := mkRunOS {
  ru_NumCPU : Z;
  ru_unix : bool;
  ru_linux : bool;
  ru_Getrlimit : result (Z * Z);           (* Cur and Max *)
  ru_Setrlimit : Z -> option error;
  ru_probeSocket : bool;                   (* a loopback UDP socket could be made *)
  ru_recvBuffer : Z -> option Z;           (* SO_RCVBUF read back after tuning *)
  ru_route : route_os;
  ru_listen : listen_os;
  ru_close : close_os;
  ru_end : run_end
}.

Inductive run_action :=
  | SetMaxProcs (n : Z)
  | WarnClamped (requested granted : Z)
  | SetLimit (cur max : Z)
  | RouteActions (l : list route_action)
  | ListenActions (l : list listen_action)
  | CloseActions (l : list close_action)
  | StartServer (s : proxyServer).

(** [VerifyUDPBufferTuning]: the applied size and whether it was clamped, when it
    could be read. *)
Definition VerifyUDPBufferTuning (os : run_os) (requested : Z) : option (Z * bool) :=
  if requested <=? 0 then None
  else if negb (ru_probeSocket os) then None
  else match ru_recvBuffer os requested with
       | None => None
       | Some applied => Some (applied, applied <? requested)
       end.

Definition warnIfUDPBufferClamped (os : run_os) (a : BootArgs) : list run_action :=
  let requested := SocketBufferBytes (UDP a) in
  if requested <=? 0 then []
  else if negb (isSocks (Kind (Proxy a))) then []
  else match VerifyUDPBufferTuning os requested with
       | Some (applied, true) => [WarnClamped requested applied]
       | _ => []
       end.

Definition prepareResourceLimitsUnix (os : run_os) (a : BootArgs) : option error * list run_action :=
  match ru_Getrlimit os with
  | Err err => (Some (Wrap "read file descriptor limit: %w" err), [])
  | Ok (softLimit, hardLimit) =>
      let required := requiredDescriptors a in
      if hardLimit <? required then
        (Some (Errorf "file descriptor hard limit %d is below the %d required for %d concurrent connections"
                 [hardLimit; required; Concurrent a]), [])
      else if required <=? softLimit then (None, [])
      else
        match ru_Setrlimit os required with
        | Some err => (Some (Wrap "raise file descriptor limit from %d to %d: %w" err), [SetLimit required hardLimit])
        | None => (None, [SetLimit required hardLimit])
        end
  end.

(** The routes and the probe, on Linux. *)
Definition prepareRoutes (os : run_os) (a : BootArgs) : option error * list run_action :=
  match CIDR a with
  | None => (None, [])
  | Some cidr =>
      if negb (ru_linux os) then (None, [])
      else
        match configureRoutesLinux (ru_route os) cidr with
        | (Some err, l) => (Some (Wrap "configure source CIDR %s: %w" err), [RouteActions l])
        | (None, l) =>
            match validateSourceCIDRLinux (ru_route os) cidr with
            | (Some err, l') => (Some (Wrap "validate source CIDR %s: %w" err), [RouteActions (l ++ l')])
            | (None, l') => (None, [RouteActions (l ++ l')])
            end
        end
  end.

(** ** Run *)

Definition Run_connector (a : BootArgs) : Connector :=
  New (CIDR a) (CIDRRange a) (ba_Fallback a) (ConnectTimeout a) (TCPUserTimeout a) (ReuseAddr a)
    (MaxPendingDials a).

Definition Run_context (a : BootArgs) : Context :=
  mkContext (Bind a) (Concurrent a) (ConnectTimeout a) (Auth (Proxy a)) (Run_connector a) (UDP a) (ReusePort a).

Definition Run_workers (os : run_os) (a : BootArgs) : Z :=
  if Workers a <=? 0 then ru_NumCPU os else Workers a.

Definition Run_serve (os : run_os) (s : proxyServer) : option error * list run_action :=
  match ru_end os with
  | Served err => (err, [StartServer s])
  | Signalled serveErr =>
      let '(closeErr, _, l) := Server_Close (ru_close os) s None in
      (errors_Join [closeErr; serveErr], [StartServer s; CloseActions l])
  end.

Definition Run (os : run_os) (a : BootArgs) : option error * list run_action :=
  match Validate a with
  | Err err => (Some err, [])
  | Ok _ =>
      let start := SetMaxProcs (Run_workers os a) :: warnIfUDPBufferClamped os a in
      let '(err, l1) := if ru_unix os then prepareResourceLimitsUnix os a else (None, []) in
      match err with
      | Some err => (Some err, start ++ l1)
      | None =>
          let '(err, l2) := prepareRoutes os a in
          match err with
          | Some err => (Some err, start ++ l1 ++ l2)
          | None =>
              match newProxyServer (ru_listen os) (ru_close os) (Proxy a) (Run_context a) with
              | (Err err, l3, c) => (Some err, start ++ l1 ++ l2 ++ [ListenActions l3; CloseActions c])
              | (Ok s, l3, _) =>
                  let '(err, l4) := Run_serve os s in
                  (err, start ++ l1 ++ l2 ++ [ListenActions l3] ++ l4)
              end
          end
      end
  end.

Definition parseSlogLevel (s : bytes) : Z :=
  if eqs s (str "trace") || eqs s (str "debug") || eqs s (str "DEBUG") then -4
  else if eqs s (str "info") || eqs s (str "INFO") then 0
  else if eqs s (str "warn") || eqs s (str "WARN") then 4
  else if eqs s (str "error") || eqs s (str "ERROR") then 8
  else 0.

(** ** Commands *)

(** The last word of the command path, "outway run http" for instance. *)
Definition proxyNameFromArgs (path : list bytes) : bytes :=
  if 2 <=? len path then nth (length path - 1) path [] else [].

Definition execRun (os : run_os) (f : flags) (path : list bytes) : option error * list run_action :=
  match buildBootArgs (ru_linux os) f (proxyNameFromArgs path) with
  | Err err => (Some err, [])
  | Ok args => Run os args
  end.

(** ** The arguments of a server started from the command line *)

Lemma ParsePrefix_ok s p : bytes_ok s -> ParsePrefix s = Ok p -> Prefix_ok p.
Proof.
  intros Hs. unfold ParsePrefix. destruct (cut_last 47 s) as [[ipStr bitsStr]|] eqn:Ec; [|done].
  apply cut_last_spec in Ec as [-> _]. apply bytes_ok_app in Hs as [Hs _].
  destruct (ParseAddr ipStr) as [ip|] eqn:Ea; [|done]. apply ParseAddr_ok in Ea as [H1 H2]; [|done].
  case_one; [done|]. case_one; [done|]. destruct (ParseUint bitsStr 63) as [bits|] eqn:Eb; [|done].
  apply ParseUint_width in Eb; [|done]. case_one; [done|]. intros [= <-]. zbool. unfold in_width in Eb.
  split_and!; cbn; [done|done| |lia|done]. destruct ip as [| |v [|]]; done.
Qed.

Lemma bytes_ok_bracketed rest n : bytes_ok (91 :: rest) -> bytes_ok (take n rest).
Proof. intros [_ H]%bytes_ok_cons. by apply bytes_ok_take. Qed.

Lemma ParseAddrPort_ok s ap : bytes_ok s -> ParseAddrPort s = Ok ap -> AddrPort_ok ap /\ IsValid (ap_Addr ap) = true.
Proof.
  intros Hs. unfold ParseAddrPort. destruct (cut_last 58 s) as [[ip port]|] eqn:Ec; [|done].
  apply cut_last_spec in Ec as [-> _]. apply bytes_ok_app in Hs as [Hs _].
  case_one; [done|].
  assert (forall v6 ip, bytes_ok ip ->
    (port ← ParseUint port 16; ip ← ParseAddr ip;
     if v6 && Is4 ip then Err errAddrPort else if negb v6 && Is6 ip then Err errAddrPort
     else Ok (AddrPortFrom ip port)) = Ok ap -> AddrPort_ok ap /\ IsValid (ap_Addr ap) = true) as G.
  { intros v6 ip' Hip. destruct (ParseUint port 16) as [pt|] eqn:Ep; cbn [mbind result_bind]; [|done].
    apply ParseUint_width in Ep; [|done].
    destruct (ParseAddr ip') as [a|] eqn:Ea; cbn [mbind result_bind]; [|done].
    apply ParseAddr_ok in Ea as [H1 H2]; [|done]. repeat (case_one; [done|]). intros [= <-]. done. }
  destruct ip as [|c rest]; [apply G; constructor|].
  destruct (Z.eq_dec c 91) as [->|Hne].
  - case_one; [done|]. apply G. by eapply bytes_ok_bracketed.
  - assert (forall A (x y : A), match c with 91 => x | _ => y end = y) as Hm.
    { intros A x y. repeat case_one; try done; congruence. }
    rewrite Hm. by apply G.
Qed.

(** The address strings of the flags are byte strings. *)
Definition flags_ok (f : flags) : Prop :=
  bytes_ok (flagBind f) /\ bytes_ok (flagCIDR f) /\ bytes_ok (flagFallback f).
#[export] Instance flags_ok_dec f : Decision (flags_ok f).
Proof. unfold flags_ok. apply _. Defined.

Lemma bind_Ok {A B} (m : result A) (f : A -> result B) b : m ≫= f = Ok b -> exists a, m = Ok a /\ f a = Ok b.
Proof. destruct m; cbn; [eauto|done]. Qed.

(** The parts [buildBootArgs] puts together, when it succeeds. *)
Lemma buildBootArgs_parts linux f name a :
  flags_ok f -> buildBootArgs linux f name = Ok a ->
  Validate a = Ok tt /\
  AddrPort_ok (Bind a) /\ IsValid (ap_Addr (Bind a)) = true /\
  match CIDR a with
  | Some cidr => Prefix_ok cidr /\ flagCIDR f <> []
  | None => flagCIDR f = [] /\ CIDRRange a = None
  end /\
  match ba_Fallback a with
  | Some fb => IsInterface fb = false -> IsValid (fb_Address fb) = true
  | None => flagFallback f = []
  end /\
  Auth (Proxy a) = mkAuthMode (flagUsername f) (flagPassword f) /\
  Concurrent a = flagConcurrent f /\ UDP a = flagUDP f /\
  name = match Kind (Proxy a) with
         | ProxyHTTP => str "http" | ProxyHTTPS => str "https"
         | ProxySocks5 => str "socks5" | ProxyAuto => str "auto" end.
Proof.
  intros (Hb & Hc & Hf) H. unfold buildBootArgs in H.
  apply bind_Ok in H as (bind & E1 & H). apply bind_Ok in H as ([cidr range] & E2 & H).
  apply bind_Ok in H as (fallback & E3 & H). apply bind_Ok in H as ([[kind cert] key] & E4 & H).
  apply bind_Ok in H as ([] & E5 & [= <-]).
  apply ParseAddrPort_ok in E1 as [Hbind Hvalid]; [|done].
  split; [done|]. cbn [Bind CIDR CIDRRange ba_Fallback Proxy Auth Kind Concurrent UDP].
  split_and!; try done.
  - destruct (negb (eqs (flagCIDR f) [])) eqn:E.
    + apply bind_Ok in E2 as (c & Ec & [= <- <-]). apply negb_true_iff, bool_decide_eq_false in E.
      split; [exact (ParsePrefix_ok _ _ Hc Ec)|done].
    + injection E2 as <- <-. apply negb_false_iff, bool_decide_eq_true in E. done.
  - destruct (negb (eqs (flagFallback f) [])) eqn:E.
    + apply bind_Ok in E3 as (fb & Ef & [= <-]). apply negb_true_iff, bool_decide_eq_false in E.
      by eapply ParseFallback_ok.
    + injection E3 as <-. by apply negb_false_iff, bool_decide_eq_true in E.
  - unfold eqs in E4. repeat case_bool_decide; by simplify_eq.
Qed.

Lemma buildBootArgs_connector linux f name a :
  flags_ok f -> buildBootArgs linux f name = Ok a -> connector_ok (Run_connector a).
Proof.
  intros Hf H. destruct (buildBootArgs_parts _ _ _ _ Hf H) as (Hv & _ & _ & Hc & Hfb & _).
  unfold connector_ok, Run_connector, New. cbn [cn_CIDR cn_CIDRRange cn_Fallback]. split.
  - destruct (CIDR a) as [cidr|] eqn:E; [|done]. destruct Hc as [Hc _]. split; [done|].
    by eapply Validate_range_ok.
  - by destruct (ba_Fallback a).
Qed.

(** C32: Every accepted command line gives a sound configuration. If the flags parse
    and validate, the bind address is a valid address and port, credentials are
    those of the flags and set together or not at all, the proxy kind is the
    subcommand's, and the connector is one whose source addresses all lie in the
    CIDR: for every username extension and random draw the selection succeeds and
    stays inside. *)
Theorem buildBootArgs_sound linux f name a :
  flags_ok f -> buildBootArgs linux f name = Ok a ->
  Valid a /\ AddrPort_ok (Bind a) /\ IsValid (ap_Addr (Bind a)) = true /\
  Auth (Proxy a) = mkAuthMode (flagUsername f) (flagPassword f) /\
  (flagUsername f = [] <-> flagPassword f = []) /\
  name = match Kind (Proxy a) with
         | ProxyHTTP => str "http" | ProxyHTTPS => str "https"
         | ProxySocks5 => str "socks5" | ProxyAuto => str "auto" end /\
  connector_ok (Run_connector a) /\
  (CIDR a = None <-> flagCIDR f = []) /\
  (forall cidr d e, CIDR a = Some cidr -> draws_ok d -> u64 (ext_Value e) ->
     exists src, assignSourceIP d cidr (CIDRRange a) e = Ok src /\ prefix_Contains cidr src = true).
Proof.
  intros Hf H. pose proof (buildBootArgs_connector _ _ _ _ Hf H) as Hcn.
  destruct (buildBootArgs_parts _ _ _ _ Hf H) as (Hv & H1 & H2 & H3 & _ & H5 & _ & _ & H6).
  pose proof (proj1 (Validate_iff a) Hv) as Hvalid.
  pose proof (v_auth a Hvalid) as Hau. rewrite H5 in Hau.
  split_and!; try done.
  - destruct (CIDR a); naive_solver.
  - intros cidr d e Hc Hd He. destruct Hcn as [Hcn _]. unfold Run_connector, New in Hcn. cbn in Hcn.
    rewrite Hc in Hcn. destruct Hcn as [Hp Hr].
    destruct (assign_contained d cidr (CIDRRange a) e Hp Hr Hd He) as (src & ? & _ & ?). by exists src.
Qed.

Definition demo_flags : flags := {|
  flagLogLevel := str "info"; flagBind := str "[::1]:1080"; flagConcurrent := 100; flagWorkers := 0;
  flagCIDR := str "2001:db8::/32"; flagCIDRRange := 64; flagFallback := str "eth0";
  flagConnectTimeout := 10; flagTCPUserTimeout := 30; flagReuseAddr := true; flagMaxPendingDials := 512;
  flagReusePort := false; flagUDP := flagUDP defaultFlags; flagUsername := str "u"; flagPassword := str "p";
  flagTLSCert := []; flagTLSKey := []
|}.

Lemma buildBootArgs_sound_witness :
  exists a, buildBootArgs true demo_flags (str "auto") = Ok a /\ connector_ok (Run_connector a) /\
    exists src, assignSourceIP (mkDraws 1 2 3) (mkPrefix (Addr6 (0x20010db8 * 2 ^ 96) []) 32) (CIDRRange a)
      (mkExtension ExtRange 5) = Ok src /\
    prefix_Contains (mkPrefix (Addr6 (0x20010db8 * 2 ^ 96) []) 32) src = true.
Proof.
  destruct (buildBootArgs true demo_flags (str "auto")) as [a|e] eqn:E; [|vm_compute in E; discriminate E].
  exists a. split; [done|].
  destruct (buildBootArgs_sound true demo_flags (str "auto") a) as (_ & _ & _ & _ & _ & _ & H1 & _ & H2);
    [by_decide|exact E|]. split; [exact H1|].
  apply H2; [|by_decide|by_decide]. vm_compute in E. injection E as <-. reflexivity.
Defined.

(** ** The descriptor limit *)

(** The soft limit after the actions. *)
Definition soft_limit (soft : Z) (l : list run_action) : Z :=
  foldl (fun cur a => match a with SetLimit cur' _ => cur' | _ => cur end) soft l.

Definition descriptors (a : BootArgs) : Z :=
  2 * Concurrent a + 4096 +
  (if isSocks (Kind (Proxy a))
   then 2 * (if MaxAssociations (UDP a) =? 0 then Concurrent a else MaxAssociations (UDP a)) else 0).

Lemma requiredDescriptors_exact a :
  u32 (Concurrent a) -> u32 (MaxAssociations (UDP a)) -> requiredDescriptors a = descriptors a.
Proof.
  unfold requiredDescriptors, descriptors, in_width. intros H1 H2.
  rewrite (wrap_id 64 (Concurrent a * 2)) by (unfold in_width; lia).
  rewrite (wrap_id 64 (Concurrent a * 2 + 4096)) by (unfold in_width; lia).
  destruct (Kind (Proxy a)); cbn [isSocks]; try lia;
    (destruct (Z.eqb_spec (MaxAssociations (UDP a)) 0);
     rewrite !wrap_id; unfold in_width; try rewrite wrap_id; unfold in_width; lia).
Qed.

(** A server has the descriptors it may need, or does not start. The requirement
    is two per connection, two more per association when SOCKS5 is spoken, and 4096,
    computed without overflow for every configuration; the preparation succeeds only
    if the soft limit then covers it, it raises the limit only when it must and
    never above the hard limit or below what it was, and it fails exactly when the
    limits cannot be read, the hard limit is too low, or raising fails. *)
Theorem prepareResourceLimits_spec os a :
  u32 (Concurrent a) -> u32 (MaxAssociations (UDP a)) ->
  requiredDescriptors a = descriptors a /\
  match prepareResourceLimitsUnix os a with
  | (None, l) =>
      exists soft hard, ru_Getrlimit os = Ok (soft, hard) /\
        descriptors a <= soft_limit soft l /\ soft_limit soft l = Z.max soft (descriptors a) /\
        (l <> [] -> soft_limit soft l <= hard)
  | (Some _, l) =>
      match ru_Getrlimit os with
      | Err _ => l = []
      | Ok (soft, hard) =>
          hard < descriptors a /\ l = [] \/
          soft < descriptors a <= hard /\ ru_Setrlimit os (descriptors a) <> None
      end
  end.
Proof.
  intros H1 H2. pose proof (requiredDescriptors_exact a H1 H2) as E. split; [done|].
  unfold prepareResourceLimitsUnix. rewrite E.
  destruct (ru_Getrlimit os) as [[soft hard]|e]; [|done].
  case_one; [zbool; by left|]. case_one.
  - zbool. exists soft, hard. cbn. split_and!; try done; lia.
  - zbool. destruct (ru_Setrlimit os (descriptors a)) eqn:Es.
    + right. split; [lia|done].
    + exists soft, hard. cbn. split_and!; try done; lia.
Qed.

(** A Linux machine with a soft limit of 1024 descriptors on which everything
    works, until a signal comes. *)
Definition demo_os : run_os := {|
  ru_NumCPU := 4; ru_unix := true; ru_linux := true; ru_Getrlimit := Ok (1024, 1048576);
  ru_Setrlimit := fun _ => None; ru_probeSocket := true; ru_recvBuffer := fun n => Some (2 * n);
  ru_route := mkRouteOS (fun _ => None) (Ok 1) (Ok []) None None None None None;
  ru_listen := mkListenOS (fun k => Ok (100 + Z.of_nat k)) (fun _ => AddrPortZero) (fun _ => str "tcp") true 4
                 (fun _ _ => None) None;
  ru_close := mkCloseOS None (fun _ => None) true true;
  ru_end := Signalled None
|}.

Lemma prepareResourceLimits_spec_witness :
  exists soft hard, ru_Getrlimit demo_os = Ok (soft, hard) /\
    descriptors DefaultBootArgs <= soft_limit soft (snd (prepareResourceLimitsUnix demo_os DefaultBootArgs)).
Proof.
  destruct (prepareResourceLimits_spec demo_os DefaultBootArgs) as [_ H]; [by_decide|by_decide|].
  destruct H as (soft & hard & H1 & H2 & _). exists soft, hard. split; [exact H1|exact H2].
Defined.

(** ** From the command line to a running server *)

Lemma soft_limit_app soft l k : soft_limit soft (l ++ k) = soft_limit (soft_limit soft l) k.
Proof. apply foldl_app. Qed.

Definition no_limit (a : run_action) : Prop := match a with SetLimit _ _ => False | _ => True end.

Lemma soft_limit_other soft l : Forall no_limit l -> soft_limit soft l = soft.
Proof. induction 1 as [|[] l Hx _ IH]; try done. Qed.

Definition no_start (a : run_action) : Prop := match a with StartServer _ => False | _ => True end.

Lemma start_actions os a :
  Forall (fun x => no_limit x /\ no_start x) (SetMaxProcs (Run_workers os a) :: warnIfUDPBufferClamped os a).
Proof.
  constructor; [done|]. unfold warnIfUDPBufferClamped. repeat case_one; repeat constructor.
Qed.

Lemma limit_actions os a e l : prepareResourceLimitsUnix os a = (e, l) -> Forall no_start l.
Proof. unfold prepareResourceLimitsUnix. repeat case_one; intros; simplify_eq; repeat constructor. Qed.

Lemma route_actions os a e l : prepareRoutes os a = (e, l) -> Forall (fun x => no_limit x /\ no_start x) l.
Proof. unfold prepareRoutes. repeat case_one; intros; simplify_eq; repeat constructor. Qed.

Lemma no_start_elem s l : StartServer s ∈ l -> Forall no_start l -> False.
Proof. intros H1 H2. rewrite Forall_forall in H2. apply (H2 _ H1). Qed.

Lemma Forall_and_r {A} (P Q : A -> Prop) l : Forall (fun x => P x /\ Q x) l -> Forall Q l.
Proof. intros H. eapply Forall_impl; [exact H|]. cbn. tauto. Qed.
Lemma Forall_and_l {A} (P Q : A -> Prop) l : Forall (fun x => P x /\ Q x) l -> Forall P l.
Proof. intros H. eapply Forall_impl; [exact H|]. cbn. tauto. Qed.

(** The steps of a [Run] that starts its server. *)
Lemma Run_started os a e l s :
  Run os a = (e, l) -> StartServer s ∈ l ->
  Validate a = Ok tt /\
  exists l1 l2 l3 l4,
    l = (SetMaxProcs (Run_workers os a) :: warnIfUDPBufferClamped os a) ++ l1 ++ l2 ++ [ListenActions l3] ++ l4 /\
    (ru_unix os = true -> prepareResourceLimitsUnix os a = (None, l1)) /\
    prepareRoutes os a = (None, l2) /\
    newProxyServer (ru_listen os) (ru_close os) (Proxy a) (Run_context a) = (Ok s, l3, []) /\
    Run_serve os s = (e, l4).
Proof.
  unfold Run. destruct (Validate a) as [[]|e0]; [|intros [= <- <-] H; set_solver].
  pose proof (start_actions os a) as Hs. remember (SetMaxProcs (Run_workers os a) :: warnIfUDPBufferClamped os a) as start eqn:Hst.
  destruct (if ru_unix os then _ else _) as [e1 l1] eqn:E1.
  assert (Forall no_start l1) as Hl1.
  { destruct (ru_unix os); [by eapply limit_actions|]. injection E1 as <- <-. constructor. }
  apply Forall_and_r in Hs.
  destruct e1 as [e1|]; [intros [= <- <-] H; exfalso; eapply no_start_elem; [exact H|]; by apply Forall_app|].
  destruct (prepareRoutes os a) as [e2 l2] eqn:E2.
  pose proof (Forall_and_r _ _ _ (route_actions _ _ _ _ E2)) as Hl2.
  destruct e2 as [e2|]; [intros [= <- <-] H; exfalso; eapply no_start_elem; [exact H|]; by repeat (apply Forall_app; split)|].
  pose proof (newProxyServer_spec (ru_listen os) (ru_close os) (Proxy a) (Run_context a)) as Hn.
  destruct (newProxyServer _ _ _ _) as [[[s0|e3] l3] c].
  - destruct (Run_serve os s0) as [e4 l4] eqn:E4. intros [= <- <-] H. split; [done|].
    destruct Hn as (_ & -> & _).
    assert (s0 = s) as ->.
    { rewrite !elem_of_app, elem_of_cons in H. destruct H as [H|[H|[H|[H|H]]]];
        [by exfalso; eapply no_start_elem..|done|].
      revert E4. unfold Run_serve. destruct (ru_end os).
      - intros [= <- <-]. apply list_elem_of_singleton in H. congruence.
      - destruct (Server_Close _ _ _) as [[? ?] ?]. intros [= <- <-].
        apply elem_of_cons in H as [H|H%list_elem_of_singleton]; congruence. }
    exists l1, l2, l3, l4. split_and!; try done. intros Hu. by rewrite Hu in E1.
  - intros [= <- <-] H. exfalso. eapply no_start_elem; [exact H|].
    repeat (apply Forall_app; split); try done. repeat constructor.
Qed.

Lemma serve_actions os s e l : Run_serve os s = (e, l) -> Forall no_limit l.
Proof.
  unfold Run_serve. destruct (ru_end os); [intros [= <- <-]; repeat constructor|].
  destruct (Server_Close _ _ _) as [[? ?] ?]. intros [= <- <-]. repeat constructor.
Qed.

(** C4: A server that [outway run] starts is prepared for everything it will do.
    Its configuration passed validation, and it has the credentials of the flags and
    a sound connector; on Unix the descriptor limit covers its connections and
    associations; on Linux the local routes of its CIDR are configured and an
    address of it was bound as a probe; its listeners are exactly the open ones. If
    a signal ends it, every listener is closed and the errors of closing and serving
    are reported; otherwise the error of serving is. *)
Theorem started_server_prepared os f path e l s :
  flags_ok f -> u32 (flagConcurrent f) -> u32 (MaxAssociations (flagUDP f)) ->
  execRun os f path = (e, l) -> StartServer s ∈ l ->
  exists a, buildBootArgs (ru_linux os) f (proxyNameFromArgs path) = Ok a /\ Valid a /\
  ps_kind s = Kind (Proxy a) /\ ps_auth s = mkAuthMode (flagUsername f) (flagPassword f) /\
  ps_connector s = Run_connector a /\ connector_ok (ps_connector s) /\
  (ru_unix os = true -> exists soft hard, ru_Getrlimit os = Ok (soft, hard) /\ descriptors a <= soft_limit soft l) /\
  (ru_linux os = true -> forall cidr, CIDR a = Some cidr ->
     fst (configureRoutesLinux (ru_route os) cidr) = None /\
     fst (validateSourceCIDRLinux (ru_route os) cidr) = None) /\
  (exists ls, ListenActions ls ∈ l /\ forall x, x ∈ ln_open ls <-> x ∈ all_listeners s) /\
  match ru_end os with
  | Served err => e = err
  | Signalled serveErr =>
      exists c, CloseActions c ∈ l /\ listeners_closed c = all_listeners s /\
        (e = None <-> fst (close_body (ru_close os) s) = None /\ serveErr = None)
  end.
Proof.
  intros Hf Hc Hm H Hs. unfold execRun in H.
  destruct (buildBootArgs _ _ _) as [a|e0] eqn:Ea; [|injection H as <- <-; set_solver].
  destruct (buildBootArgs_parts _ _ _ _ Hf Ea) as (Hv & _ & _ & _ & _ & Hau & HC & HU & _).
  pose proof (buildBootArgs_connector _ _ _ _ Hf Ea) as Hcn.
  destruct (Run_started _ _ _ _ _ H Hs) as (_ & l1 & l2 & l3 & l4 & -> & Hlim & Hr & Hn & Hserve).
  pose proof (newProxyServer_spec (ru_listen os) (ru_close os) (Proxy a) (Run_context a)) as Hspec.
  rewrite Hn in Hspec. destruct Hspec as (Hls & _ & _ & Hk & Ha & Hconn & _).
  exists a. split; [done|]. split; [by apply Validate_iff|]. split; [done|].
  split; [by rewrite Ha, <- Hau|]. split; [done|]. split; [by rewrite Hconn|]. split_and!.
  - intros Hu. specialize (Hlim Hu).
    rewrite <- HC in Hc. rewrite <- HU in Hm. pose proof (requiredDescriptors_exact a Hc Hm) as Hreq.
    unfold prepareResourceLimitsUnix in Hlim. destruct (ru_Getrlimit os) as [[soft hard]|]; [|done].
    exists soft, hard. split; [done|]. rewrite !soft_limit_app.
    rewrite (soft_limit_other soft) by (eapply Forall_and_l, start_actions).
    rewrite (soft_limit_other _ l4) by (by eapply serve_actions).
    rewrite (soft_limit_other _ [ListenActions l3]) by repeat constructor.
    rewrite (soft_limit_other _ l2) by (eapply Forall_and_l, route_actions, Hr).
    rewrite Hreq in Hlim. repeat case_one_in Hlim; simplify_eq; zbool; cbn; lia.
  - intros Hl cidr Ec. unfold prepareRoutes in Hr. rewrite Ec, Hl in Hr. cbn [negb] in Hr.
    repeat case_one_in Hr; simplify_eq; done.
  - exists l3. split; [set_solver|done].
  - unfold Run_serve in Hserve. destruct (ru_end os) as [err|serveErr]; [by injection Hserve as <- <-|].
    pose proof (close_body_listeners (ru_close os) s) as Hcl. cbn [Server_Close] in Hserve.
    destruct (close_body (ru_close os) s) as [ce cl]. injection Hserve as <- <-.
    exists cl. split; [set_solver|]. split; [done|]. unfold errors_Join. cbn [foldr fst].
    rewrite !join2_None. tauto.
Qed.

Lemma started_server_prepared_witness :
  exists e l s, execRun demo_os demo_flags [str "outway"; str "run"; str "auto"] = (e, l) /\ StartServer s ∈ l /\
  connector_ok (ps_connector s) /\ exists c, CloseActions c ∈ l /\ listeners_closed c = [100].
Proof.
  destruct (execRun demo_os demo_flags [str "outway"; str "run"; str "auto"]) as [e l] eqn:E.
  assert (exists s, StartServer s ∈ l /\ all_listeners s = [100]) as (s & Hs & Hls).
  { vm_compute in E. injection E as <- <-. eexists. split; [do 4 right; left|reflexivity]. }
  exists e, l, s. split; [reflexivity|]. split; [exact Hs|].
  destruct (started_server_prepared demo_os demo_flags [str "outway"; str "run"; str "auto"] e l s)
    as (a & _ & _ & _ & _ & _ & H1 & _ & _ & _ & (c & H2 & H3 & _));
    [by_decide|by_decide|by_decide|exact E|exact Hs|].
  split; [exact H1|]. exists c. split; [exact H2|]. rewrite H3. exact Hls.
Defined.

(** On Linux the size read back is twice the one in force, so with a ceiling of
    [rmemMax] a request above it is reported as clamped only when it is above twice
    the ceiling. *)
Theorem clamp_detection os requested rmemMax :
  0 < requested -> ru_probeSocket os = true ->
  ru_recvBuffer os requested = Some (2 * Z.min requested rmemMax) ->
  (exists applied, VerifyUDPBufferTuning os requested = Some (applied, true)) <-> 2 * rmemMax < requested.
Proof.
  intros Hr Hs Hb. unfold VerifyUDPBufferTuning. rewrite Hs, Hb. cbn [negb].
  destruct (Z.leb_spec requested 0); [lia|]. split.
  - intros [applied [= <- H']]. zbool. lia.
  - intros H'. eexists. f_equal. f_equal. zbool. lia.
Qed.
