(* ===== verification/Text.v ===== *)
(** * Addresses and codes as text

    Models [String] of [netip.Addr] and [netip.AddrPort], through which addresses go when the
    proxy dials ([connect.go]: [dialer.DialContext(ctx, "tcp", target.String())]), listens and
    listens again for the other shards ([serverbase.go]), and the [String] methods of the SOCKS5
    types ([proto/address.go], [proto/reply.go], [handshake/method.go]) and [connAddr]
    ([socks/auth.go]). What is printed is read back by the parsers of [Netip], [Boot] and
    [HttpProxy]. *)

From Stdlib Require Import ZArith Lia.
From stdpp Require Import base tactics numbers list strings gmap.
From S2P Require Import Prelude.
From S2P Require Import Netip.
From S2P Require Import Proto.
From S2P Require Import Uint128.
From S2P Require Import Handshake.
From S2P Require Import HttpProxy.
From S2P Require Import Boot.

(** ** [netip] *)

(** Decimal and hexadecimal digits without leading zeros ([appendDecimal], [appendHex]). *)
Definition hexChar (d : Z) : Z := if d <? 10 then 48 + d else 87 + d.
Fixpoint hexText (fuel : nat) (n : Z) : bytes :=
  match fuel with
  | O => []
  | S fuel => if n <? 16 then [hexChar n] else hexText fuel (n / 16) ++ [hexChar (n `mod` 16)]
  end.
Definition appendHex (n : Z) : bytes := hexText 4 n.
Definition appendDecimal (n : Z) : bytes := decimal 20 n.

Definition appendTo4 (v : Z) : bytes :=
  match be_bytes 4 v with
  | [a; b; c; d] => appendDecimal a ++ [46] ++ appendDecimal b ++ [46] ++ appendDecimal c ++ [46] ++ appendDecimal d
  | _ => []
  end.

(** [v6u16]: the eight groups. *)
Fixpoint pairs (b : bytes) : list Z :=
  match b with x :: y :: b => x * 256 + y :: pairs b | _ => [] end.
Definition v6u16s (v : Z) : list Z := pairs (be_bytes 16 v).

(** The end of the run of zero groups that starts at [i]. *)
Fixpoint zero_end (i : nat) (zs : list bool) : nat :=
  match zs with
  | true :: zs => zero_end (S i) zs
  | _ => i
  end.
(** The longest run of at least two zero groups, the first of several; [zs] says which
    groups are zero. Without one, start and end are both 255. *)
Definition zero_run (zs : list bool) : nat * nat :=
  foldl (fun '(zeroStart, zeroEnd) i =>
           let j := zero_end i (drop i zs) in
           let l := (j - i)%nat in
           if (2 <=? l)%nat && (zeroEnd - zeroStart <? l)%nat then (i, j) else (zeroStart, zeroEnd))
    (255%nat, 255%nat) (seq 0 8).

(** The loop that prints the groups from [i] on. *)
Fixpoint print_groups (fuel i zeroStart zeroEnd : nat) (gs : list Z) : bytes :=
  match fuel with
  | O => []
  | S fuel =>
      if (8 <=? i)%nat then []
      else if (i =? zeroStart)%nat then
        [58; 58] ++ (if (8 <=? zeroEnd)%nat then []
                     else appendHex (nth zeroEnd gs 0) ++ print_groups fuel (S zeroEnd) zeroStart zeroEnd gs)
      else (if (0 <? i)%nat then [58] else []) ++
             appendHex (nth i gs 0) ++ print_groups fuel (S i) zeroStart zeroEnd gs
  end.

Definition appendZone (zone : bytes) : bytes := match zone with [] => [] | z => 37 :: z end.

Definition appendTo6 (v : Z) (zone : bytes) : bytes :=
  let gs := v6u16s v in
  let '(zeroStart, zeroEnd) := zero_run ((fun g => g =? 0) <$> gs) in
  print_groups 8 0 zeroStart zeroEnd gs ++ appendZone zone.

Definition appendTo4In6 (v : Z) (zone : bytes) : bytes :=
  str "::ffff:" ++ appendTo4 (v `mod` 2 ^ 32) ++ appendZone zone.

Definition appendTo (a : Addr) : bytes :=
  match a with
  | AddrZero => []
  | Addr4 v => appendTo4 v
  | Addr6 v zone => if Is4In6 a then appendTo4In6 v zone else appendTo6 v zone
  end.

Definition Addr_String (a : Addr) : bytes := if IsValid a then appendTo a else str "invalid IP".

Definition AddrPort_String (ap : AddrPort) : bytes :=
  match ap_Addr ap with
  | AddrZero => str "invalid AddrPort"
  | Addr4 v => appendTo4 v ++ [58] ++ appendDecimal (ap_Port ap)
  | a => [91] ++ appendTo a ++ [93] ++ [58] ++ appendDecimal (ap_Port ap)
  end.

(** ** The SOCKS5 types *)

Definition Address_String (a : Address) : bytes :=
  match Socket a with
  | Some ap => AddrPort_String ap
  | None => Domain a ++ [58] ++ appendDecimal (Port a)
  end.

(** [%#x] of a byte. *)
Definition hexByte (b : Z) : bytes := str "0x" ++ hexText 2 b.

(** [Reply] is a [uint8]. *)
Definition Reply_String (r : Z) : bytes :=
  if r =? 0 then str "Succeeded"
  else if r =? 1 then str "GeneralFailure"
  else if r =? 2 then str "ConnectionNotAllowed"
  else if r =? 3 then str "NetworkUnreachable"
  else if r =? 4 then str "HostUnreachable"
  else if r =? 5 then str "ConnectionRefused"
  else if r =? 6 then str "TtlExpired"
  else if r =? 7 then str "CommandNotSupported"
  else if r =? 8 then str "AddressTypeNotSupported"
  else str "Reply(" ++ hexByte r ++ str ")".

Definition Method_String (m : Z) : bytes :=
  if m =? MethodNoAuth then str "NoAuth"
  else if m =? MethodGssApi then str "GssApi"
  else if m =? MethodPassword then str "UserPass"
  else if m =? MethodNoAcceptableMethods then str "NoAcceptableMethods"
  else str "Method(" ++ hexByte m ++ str ")".

(** [String] of a [net.TCPAddr], which does not tell an IPv4-mapped address from an IPv4 one. *)
Definition TCPAddr_String (ap : AddrPort) : bytes := AddrPort_String (AddrPortFrom (Unmap (ap_Addr ap)) (ap_Port ap)).

(** [connAddr]: [None] is a nil connection, and a nil address of one. *)
Record tcp_conn := mkTcpConn { tc_remote : option AddrPort; tc_local : option AddrPort }.
Definition connAddr (c : option tcp_conn) (peer : bool) : bytes :=
  match c with
  | None => str "?"
  | Some c => from_option TCPAddr_String (str "?") (if peer then tc_remote c else tc_local c)
  end.

(** ** Digits *)

Lemma decimal_spec fuel n t bits : 0 <= n < 10 ^ Z.of_nat fuel -> n < 2 ^ bits ->
  ParseUint_digits (decimal fuel n ++ t) bits 0 = ParseUint_digits t bits n.
Proof. intros Hn Hb. by rewrite ParseUint_digits_app, decimal_parse. Qed.

Lemma ParseUint_decimal n bits : 0 <= n < 2 ^ bits -> 0 <= bits <= 64 -> ParseUint (appendDecimal n) bits = Ok n.
Proof.
  intros Hn Hb. unfold ParseUint, appendDecimal.
  assert (2 ^ bits <= 2 ^ 64) by (apply Z.pow_le_mono_r; lia).
  destruct (decimal 20 n) as [|c l] eqn:E; [by apply (decimal_nonempty 19) in E|]. rewrite <- E.
  rewrite <- (app_nil_r (decimal 20 n)), decimal_spec; [done| |lia].
  split; [lia|]. change (10 ^ Z.of_nat 20) with 100000000000000000000. lia.
Qed.

Lemma hexDigit_char d : 0 <= d < 16 -> hexDigit (hexChar d) = Some d.
Proof.
  intros H. unfold hexChar, hexDigit. case_one; zbool; repeat case_one; zbool; try lia; f_equal; lia.
Qed.

Lemma hexText_group fuel n t : 0 <= n < 16 ^ Z.of_nat fuel -> (0 < fuel <= 4)%nat ->
  hexGroup (hexText fuel n ++ t) 0 0 = hexGroup t n (len (hexText fuel n)) /\
  1 <= len (hexText fuel n) <= Z.of_nat fuel.
Proof.
  revert n t. induction fuel as [|fuel IH]; intros n t Hn Hf; [lia|].
  rewrite Nat2Z.inj_succ, Z.pow_succ_r in Hn by lia. cbn [hexText].
  case_one; zbool.
  - cbn [app hexGroup]. rewrite hexDigit_char by lia. split; [done|]. rewrite len_cons, len_nil. lia.
  - pose proof (Z.div_mod n 16 ltac:(lia)). pose proof (Z.mod_pos_bound n 16 ltac:(lia)).
    destruct fuel as [|fuel]; [cbn in Hn; lia|].
    destruct (IH (n / 16) ([hexChar (n `mod` 16)] ++ t)) as [E Hl]; [split; [apply Z.div_pos; lia|apply Z.div_lt_upper_bound; lia]|lia|].
    rewrite <- app_assoc, E, len_app, len_cons, len_nil. split; [|lia].
    cbn [app hexGroup]. rewrite hexDigit_char by lia. rewrite (proj2 (Z.ltb_ge 3 _)) by lia. f_equal; lia.
Qed.

Definition hex_char (c : Z) : Prop := 48 <= c <= 57 \/ 97 <= c <= 102.

Lemma hexText_chars fuel n : 0 <= n -> Forall hex_char (hexText fuel n).
Proof.
  assert (forall d, 0 <= d < 16 -> hex_char (hexChar d)) as H.
  { intros d Hd. unfold hex_char, hexChar. case_one; zbool; lia. }
  revert n. induction fuel as [|fuel IH]; intros n Hn; cbn [hexText]; [done|].
  case_one; zbool; [apply Forall_singleton, H; lia|].
  pose proof (Z.mod_pos_bound n 16 ltac:(lia)). apply Forall_app. split; [apply IH, Z.div_pos; lia|]. by apply Forall_singleton, H.
Qed.

(** A group starts with a digit. *)
Lemma appendHex_head g : 0 <= g < 65536 -> exists c l, appendHex g = c :: l /\ hex_char c.
Proof.
  intros Hg. pose proof (hexText_chars 4 g ltac:(lia)) as H. destruct (hexText_group 4 g []) as [_ Hl]; [cbn; lia|lia|].
  unfold appendHex. destruct (hexText 4 g) as [|c l]; [rewrite len_nil in Hl; lia|].
  apply Forall_cons in H as [H _]. eauto.
Qed.

(** ** IPv4 *)

Lemma decimal_octet v : 0 <= v < 256 ->
  appendDecimal v = (if v <? 10 then [48 + v]
                     else if v <? 100 then [48 + v / 10; 48 + v `mod` 10]
                     else [48 + v / 100; 48 + (v / 10) `mod` 10; 48 + v `mod` 10]).
Proof.
  intros Hv. unfold appendDecimal. cbn [decimal].
  assert (v / 10 / 10 = v / 100) as E by (rewrite Z.div_div by lia; done).
  pose proof (Z.div_lt_upper_bound v 10 26 ltac:(lia) ltac:(lia)).
  assert (v / 100 < 10) by (apply Z.div_lt_upper_bound; lia).
  destruct (Z.ltb_spec v 10); [done|]. rewrite E.
  destruct (Z.ltb_spec (v / 100) 10); [|lia].
  destruct (Z.ltb_spec v 100).
  - assert (v / 10 < 10) by (apply Z.div_lt_upper_bound; lia). by rewrite (proj2 (Z.ltb_lt (v / 10) 10)) by done.
  - assert (10 <= v / 10) by (apply Z.div_le_lower_bound; lia). by rewrite (proj2 (Z.ltb_ge (v / 10) 10)) by done.
Qed.

(** One more digit of an octet. *)
Lemma octet_digit d s val digLen fields first prevDot : 0 <= d <= 9 -> val * 10 + d <= 255 ->
  (digLen = 1 -> val <> 0) ->
  parseIPv4Fields ((48 + d) :: s) val digLen fields first prevDot
    = parseIPv4Fields s (val * 10 + d) (digLen + 1) fields false false.
Proof.
  intros Hd Hv Hz. cbn [parseIPv4Fields].
  rewrite (proj2 (Z.leb_le 48 (48 + d))), (proj2 (Z.leb_le (48 + d) 57)) by lia. cbn [andb].
  replace (48 + d - 48) with d by lia. rewrite (proj2 (Z.ltb_ge 255 _)) by lia.
  destruct (Z.eqb_spec digLen 1), (Z.eqb_spec val 0); cbn; try done. tauto.
Qed.

Lemma octet_parse v s fields first prevDot : 0 <= v < 256 ->
  exists k, parseIPv4Fields (appendDecimal v ++ s) 0 0 fields first prevDot
            = parseIPv4Fields s v k fields false false.
Proof.
  intros Hv. rewrite decimal_octet by done.
  pose proof (Z.div_mod v 10 ltac:(lia)). pose proof (Z.mod_pos_bound v 10 ltac:(lia)).
  pose proof (Z.div_mod (v / 10) 10 ltac:(lia)). pose proof (Z.mod_pos_bound (v / 10) 10 ltac:(lia)).
  assert (v / 10 / 10 = v / 100) as E by (rewrite Z.div_div by lia; done). rewrite E in *.
  pose proof (Z.div_pos v 100 ltac:(lia) ltac:(lia)).
  repeat case_one; zbool; cbn [app]; rewrite !octet_digit by lia; eexists;
    match goal with |- parseIPv4Fields _ ?x _ _ _ _ = _ => replace x with v by lia end; reflexivity.
Qed.

Lemma dot_parse v s k fields : s <> [] -> len fields < 3 ->
  parseIPv4Fields (46 :: s) v k fields false false = parseIPv4Fields s 0 0 (fields ++ [v]) false true.
Proof.
  intros Hs Hf. cbn [parseIPv4Fields]. change ((48 <=? 46) && (46 <=? 57)) with false. cbv iota.
  change (46 =? 46) with true. cbv iota. cbn [orb].
  destruct (Z.eqb_spec (len s) 0) as [E|]; [by destruct s; [|rewrite len_cons in E; pose proof (len_nonneg s); lia]|].
  cbn [orb]. by destruct (Z.eqb_spec (len fields) 3); [lia|].
Qed.

Lemma appendDecimal_nonempty v s : appendDecimal v ++ s <> [].
Proof. intros [E _]%app_nil. by apply (decimal_nonempty 19) in E. Qed.

Lemma be_bytes_4 v : exists a b c d, be_bytes 4 v = [a; b; c; d] /\ bytes_ok [a; b; c; d].
Proof.
  pose proof (be_bytes_ok 4 v) as H. pose proof (length_be_bytes 4 v) as L.
  destruct (be_bytes 4 v) as [|a [|b [|c [|d [|]]]]]; try discriminate L. eauto 10.
Qed.

Lemma IPv4_parse v first prevDot : parseIPv4Fields (appendTo4 v) 0 0 [] first prevDot = Ok (be_bytes 4 v).
Proof.
  unfold appendTo4. destruct (be_bytes_4 v) as (a & b & c & d & -> & Ho). unfold bytes_ok, in_width in Ho.
  change (2 ^ 8) with 256 in Ho. apply Forall_cons in Ho as [Ha Ho]. apply Forall_cons in Ho as [Hb Ho].
  apply Forall_cons in Ho as [Hc Ho]. apply Forall_cons in Ho as [Hd _].
  destruct (octet_parse a ([46] ++ appendDecimal b ++ [46] ++ appendDecimal c ++ [46] ++ appendDecimal d) []
    first prevDot Ha) as [k1 ->]. cbn [app].
  rewrite dot_parse by (apply appendDecimal_nonempty || done).
  destruct (octet_parse b (46 :: appendDecimal c ++ 46 :: appendDecimal d) ([] ++ [a]) false true Hb) as [k2 ->].
  rewrite dot_parse by (apply appendDecimal_nonempty || done).
  destruct (octet_parse c (46 :: appendDecimal d) (([] ++ [a]) ++ [b]) false true Hc) as [k3 ->].
  rewrite dot_parse by (rewrite <- (app_nil_r (appendDecimal d)); apply appendDecimal_nonempty) || done.
  rewrite <- (app_nil_r (appendDecimal d)).
  by destruct (octet_parse d [] ((([] ++ [a]) ++ [b]) ++ [c]) false true Hd) as [k4 ->].
Qed.

(** ** IPv6 *)

Definition u16s (gs : list Z) : Prop := Forall (fun g => 0 <= g < 65536) gs.
Definition group_bytes (gs : list Z) : bytes := gs ≫= (fun g => [g / 256; g `mod` 256]).

(** The groups with a colon between two of them. *)
Fixpoint colon (gs : list Z) : bytes :=
  match gs with
  | [] => []
  | [g] => appendHex g
  | g :: gs => appendHex g ++ 58 :: colon gs
  end.

Lemma group_step g s fuel ip ellipsis : 0 <= g < 65536 ->
  (forall c l, s = c :: l -> ~ hex_char c /\ ~ (65 <= c <= 70)) ->
  parseIPv6Groups (S fuel) (appendHex g ++ s) ip ellipsis =
    match s with
    | 46 :: _ => parseIPv6Groups (S fuel) (appendHex g ++ s) ip ellipsis
    | [] => Ok ([], ip ++ [g / 256; g `mod` 256], ellipsis)
    | 58 :: [] => Err ErrParseAddr
    | 58 :: 58 :: r' =>
        match ellipsis with
        | Some _ => Err ErrParseAddr
        | None =>
            let ip := ip ++ [g / 256; g `mod` 256] in
            match r' with [] => Ok ([], ip, Some (len ip)) | _ => parseIPv6Groups fuel r' ip (Some (len ip)) end
        end
    | 58 :: r' => parseIPv6Groups fuel r' (ip ++ [g / 256; g `mod` 256]) ellipsis
    | _ => Err ErrParseAddr
    end.
Proof.
  intros Hg Hs. cbn [parseIPv6Groups]. unfold appendHex.
  destruct (hexText_group 4 g s) as [-> Hl]; [cbn; lia|lia|].
  assert (hexGroup s g (len (hexText 4 g)) = Ok (g, len (hexText 4 g), s)) as ->.
  { destruct s as [|c l]; [done|]. cbn [hexGroup]. destruct (Hs c l eq_refl) as [H1 H2].
    assert (hexDigit c = None) as ->; [|done]. unfold hexDigit, hex_char in *.
    repeat case_one; zbool; lia || done. }
  cbn [mbind result_bind]. destruct (Z.eqb_spec (len (hexText 4 g)) 0); [lia|].
  destruct s as [|c l]; [done|]. destruct (Z.eq_dec c 46) as [->|]; [done|].
  destruct (Z.eq_dec c 58) as [->|]; [done|].
  destruct c as [|p|p]; try done. do 6 (destruct p as [p|p|]; try done).
Qed.

Lemma colon_head gs : gs <> [] -> u16s gs -> exists c l, colon gs = c :: l /\ hex_char c.
Proof.
  destruct gs as [|g gs]; [done|]. intros _ [Hg _]%Forall_cons. destruct (appendHex_head g Hg) as (c & l & E & Hc).
  destruct gs; cbn [colon]; rewrite E; eauto.
Qed.

Lemma colon_step g s fuel ip ellipsis : 0 <= g < 65536 -> (exists c l, s = c :: l /\ hex_char c) ->
  parseIPv6Groups (S fuel) (appendHex g ++ 58 :: s) ip ellipsis
    = parseIPv6Groups fuel s (ip ++ [g / 256; g `mod` 256]) ellipsis.
Proof.
  intros Hg (c & l & -> & Hc). rewrite group_step; [|done|intros ? ? [= <- <-]; unfold hex_char; lia].
  unfold hex_char in Hc. destruct c as [|p|p]; try lia. do 6 (destruct p as [p|p|]; try done). lia.
Qed.

Lemma colon_parse gs fuel ip ellipsis : gs <> [] -> u16s gs -> (length gs <= fuel)%nat ->
  parseIPv6Groups fuel (colon gs) ip ellipsis = Ok ([], ip ++ group_bytes gs, ellipsis).
Proof.
  revert fuel ip. induction gs as [|g gs IH]; intros fuel ip Hne Hu Hf; [done|].
  destruct fuel as [|fuel]; [cbn in Hf; lia|]. apply Forall_cons in Hu as [Hg Hu].
  destruct gs as [|g' gs].
  - cbn [colon]. rewrite <- (app_nil_r (appendHex g)). by rewrite group_step.
  - change (colon (g :: g' :: gs)) with (appendHex g ++ 58 :: colon (g' :: gs)).
    rewrite colon_step by (done || by apply colon_head). rewrite IH; [|done|done|cbn in *; lia].
    unfold group_bytes. cbn [mbind list_bind]. by rewrite <- app_assoc.
Qed.

(** Groups up to the ellipsis. *)
Lemma ellipsis_parse gs fuel ip rest : gs <> [] -> u16s gs -> (length gs <= fuel)%nat ->
  parseIPv6Groups fuel (colon gs ++ 58 :: 58 :: rest) ip None =
    let ip := ip ++ group_bytes gs in
    match rest with
    | [] => Ok ([], ip, Some (len ip))
    | _ => parseIPv6Groups (fuel - length gs) rest ip (Some (len ip))
    end.
Proof.
  revert fuel ip. induction gs as [|g gs IH]; intros fuel ip Hne Hu Hf; [done|].
  destruct fuel as [|fuel]; [cbn in Hf; lia|]. apply Forall_cons in Hu as [Hg Hu].
  destruct gs as [|g' gs].
  - cbn [colon]. rewrite group_step; [|done|intros ? ? [= <- <-]; unfold hex_char; lia].
    cbn [length]. by rewrite Nat.sub_succ, Nat.sub_0_r.
  - change (colon (g :: g' :: gs)) with (appendHex g ++ 58 :: colon (g' :: gs)). rewrite <- app_assoc. cbn [app].
    rewrite colon_step; [|done|destruct (colon_head (g' :: gs) ltac:(done) Hu) as (c & l & -> & Hc); eauto].
    rewrite IH; [|done|done|cbn in *; lia]. cbn [length]. rewrite Nat.sub_succ.
    unfold group_bytes. cbn [mbind list_bind]. by rewrite <- !app_assoc.
Qed.

(** The run that is left out: none, or at least two groups, all of them zero. *)
Lemma zero_run_spec zs : length zs = 8%nat ->
  let '(s, e) := zero_run zs in
  (s = 255%nat /\ e = 255%nat) \/
  ((s + 2 <= e <= 8)%nat /\ forallb id (take (e - s) (drop s zs)) = true).
Proof.
  intros H. destruct zs as [|z0 [|z1 [|z2 [|z3 [|z4 [|z5 [|z6 [|z7 [|]]]]]]]]]; try discriminate H. clear H.
  destruct z0, z1, z2, z3, z4, z5, z6, z7; vm_compute; (by left) || (right; split; [lia|reflexivity]).
Qed.

Lemma print_groups_run gs s e : length gs = 8%nat -> (s + 2 <= e <= 8)%nat ->
  print_groups 8 0 s e gs = colon (take s gs) ++ [58; 58] ++ colon (drop e gs).
Proof.
  intros H Hse. destruct gs as [|g0 [|g1 [|g2 [|g3 [|g4 [|g5 [|g6 [|g7 [|]]]]]]]]]; try discriminate H. clear H.
  assert (exists k, s = k /\ (k < 7)%nat) as (k & -> & Hk) by (exists s; lia).
  do 7 (destruct k as [|k]; [do 9 (destruct e as [|e]; [try lia; cbn -[appendHex]; rewrite ?app_nil_r;
    repeat (rewrite <- app_assoc; cbn [app]); reflexivity|]); lia|]).
  lia.
Qed.

Lemma print_groups_all gs : length gs = 8%nat -> print_groups 8 0 255 255 gs = colon gs.
Proof.
  intros H. destruct gs as [|g0 [|g1 [|g2 [|g3 [|g4 [|g5 [|g6 [|g7 [|]]]]]]]]]; try discriminate H.
  cbn -[appendHex]. by rewrite app_nil_r.
Qed.

Lemma pairs_spec b : bytes_ok b -> Nat.Even (length b) ->
  u16s (pairs b) /\ group_bytes (pairs b) = b /\ (length (pairs b) * 2 = length b)%nat.
Proof.
  assert (forall n b, (length b <= n)%nat -> bytes_ok b -> Nat.Even (length b) ->
    u16s (pairs b) /\ group_bytes (pairs b) = b /\ (length (pairs b) * 2 = length b)%nat) as H; [|exact (H _ _ (le_n _))].
  clear b. induction n as [|n IH]; intros [|x [|y b]] Hn Hok He; try (cbn in Hn; lia);
    try (split_and!; [constructor|done..]); try (destruct He as [k He]; cbn in He; lia).
  apply Forall_cons in Hok as [Hx Hok]. apply Forall_cons in Hok as [Hy Hok]. unfold in_width in Hx, Hy.
  change (2 ^ 8) with 256 in *.
  destruct (IH b) as (H1 & H2 & H3); [cbn in Hn; lia|done|destruct He as [k He]; exists (k - 1)%nat; cbn in He; lia|].
  cbn [pairs]. split_and!; [constructor; [lia|done]| |cbn; lia].
  unfold group_bytes. cbn [mbind list_bind]. fold (group_bytes (pairs b)). rewrite H2.
  replace ((x * 256 + y) / 256) with x by (apply (Z.div_unique_pos _ _ _ y); lia).
  replace ((x * 256 + y) `mod` 256) with y by (apply (Z.mod_unique_pos _ _ x); lia). done.
Qed.

Lemma v6u16s_spec v : in_width 128 v ->
  u16s (v6u16s v) /\ length (v6u16s v) = 8%nat /\ be_value (group_bytes (v6u16s v)) = v.
Proof.
  intros Hv. destruct (pairs_spec (be_bytes 16 v) (be_bytes_ok 16 v)) as (H1 & H2 & H3).
  { rewrite length_be_bytes. by exists 8%nat. }
  rewrite length_be_bytes in H3. unfold v6u16s. split_and!; [done|lia|]. rewrite H2, be_value_bytes_id; [done|].
  unfold in_width in Hv. exact Hv.
Qed.

Lemma length_group_bytes gs : length (group_bytes gs) = (2 * length gs)%nat.
Proof. induction gs as [|g gs IH]; [done|]. unfold group_bytes in *. cbn in *. lia. Qed.
Lemma group_bytes_app gs hs : group_bytes (gs ++ hs) = group_bytes gs ++ group_bytes hs.
Proof. apply bind_app. Qed.
Lemma group_bytes_zero gs : forallb id ((fun g => g =? 0) <$> gs) = true ->
  group_bytes gs = replicate (2 * length gs) 0.
Proof.
  induction gs as [|g gs IH]; [done|]. cbn [fmap list_fmap forallb]. intros [Hg H]%andb_true_iff.
  apply Z.eqb_eq in Hg as ->. unfold group_bytes in *. cbn [mbind list_bind]. rewrite IH by done.
  replace (2 * length (0%Z :: gs))%nat with (S (S (2 * length gs))) by (cbn; lia). done.
Qed.

(** [parseIPv6] without the zone. *)
Definition parse6 (s zone : bytes) : result Addr :=
  let '(s, ellipsis) := match s with 58 :: 58 :: r => (r, Some 0) | _ => (s, None) end in
  match s, ellipsis with
  | [], Some _ => Ok (Addr6 0 zone)
  | _, _ =>
      '(rest, ip, ellipsis) ← parseIPv6Groups 8 s [] ellipsis;
      if negb (len rest =? 0) then Err ErrParseAddr
      else if len ip <? 16 then
        match ellipsis with
        | None => Err ErrParseAddr
        | Some e =>
            let ip16 := slice ip 0 e ++ replicate (Z.to_nat (16 - len ip)) 0 ++ slice_from ip e in
            Ok (Addr6 (be_value ip16) zone)
        end
      else match ellipsis with
           | Some _ => Err ErrParseAddr
           | None => Ok (Addr6 (be_value ip) zone)
           end
  end.

Lemma parseIPv6_zone s zone : 37 ∉ s -> parseIPv6 (s ++ appendZone zone) = parse6 s zone.
Proof.
  intros Hs. unfold parseIPv6. destruct zone as [|z zone]; cbn [appendZone].
  - by rewrite app_nil_r, cut_byte_none.
  - by rewrite cut_byte_app.
Qed.

(** What is read before and after the ellipsis, put back around the zeros. *)
Lemma parse6_fill pre post n zone : (length pre + length post = 16 - n)%nat -> (0 < n <= 16)%nat ->
  let ip := pre ++ post in
  (if len ip <? 16 then
     Ok (Addr6 (be_value (slice ip 0 (len pre) ++ replicate (Z.to_nat (16 - len ip)) 0 ++ slice_from ip (len pre))) zone)
   else Err ErrParseAddr) = Ok (Addr6 (be_value (pre ++ replicate n 0 ++ post)) zone).
Proof.
  intros H Hn ip. assert (len ip = 16 - Z.of_nat n) as E by (unfold ip, len; rewrite length_app; lia).
  rewrite (proj2 (Z.ltb_lt _ _)) by lia. rewrite E. unfold ip, slice, slice_from. rewrite drop_0, Z.sub_0_r, <- length_len.
  rewrite take_app_length, drop_app_length. by replace (Z.to_nat (16 - (16 - Z.of_nat n))) with n by lia.
Qed.

Lemma parse6_plain gs zone : u16s gs -> length gs = 8%nat ->
  parse6 (colon gs) zone = Ok (Addr6 (be_value (group_bytes gs)) zone).
Proof.
  intros Hu Hl. assert (gs <> []) as Hne by (by intros ->).
  destruct (colon_head gs Hne Hu) as (c & l & E & Hc). unfold parse6.
  assert (match colon gs with 58 :: 58 :: r => (r, Some 0) | _ => (colon gs, None) end = (colon gs, None)) as ->.
  { rewrite E. unfold hex_char in Hc. destruct c as [|p|p]; try lia. do 6 (destruct p as [p|p|]; try done). lia. }
  rewrite E at 1. cbv iota. rewrite colon_parse by (done || lia). cbn [mbind result_bind app len length].
  change (negb (len (@nil Z) =? 0)) with false. cbv iota.
  assert (len (group_bytes gs) = 16) as -> by (unfold len; rewrite length_group_bytes, Hl; done). done.
Qed.

(** Around a run of zeros. *)
Lemma run_bytes gs s e : length gs = 8%nat -> (s + 2 <= e <= 8)%nat ->
  forallb id (take (e - s) (drop s ((fun g => g =? 0) <$> gs))) = true ->
  group_bytes gs = group_bytes (take s gs) ++ replicate (2 * (e - s)) 0 ++ group_bytes (drop e gs) /\
  (length (group_bytes (take s gs)) + length (group_bytes (drop e gs)) = 16 - 2 * (e - s))%nat.
Proof.
  intros Hl Hse Hz. rewrite <- fmap_drop, <- fmap_take in Hz. pose (mid := take (e - s) (drop s gs)). split.
  - assert (length mid = (e - s)%nat) as <- by (unfold mid; rewrite length_take, length_drop; lia).
    rewrite <- group_bytes_zero by done. rewrite <- !group_bytes_app. f_equal. unfold mid.
    rewrite <- (take_drop s gs) at 1. f_equal. rewrite <- (take_drop (e - s) (drop s gs)) at 1. f_equal.
    rewrite drop_drop. f_equal. lia.
  - rewrite !length_group_bytes, length_take, length_drop. lia.
Qed.

Lemma parse6_run gs s e zone : u16s gs -> length gs = 8%nat -> (s + 2 <= e <= 8)%nat ->
  forallb id (take (e - s) (drop s ((fun g => g =? 0) <$> gs))) = true ->
  parse6 (colon (take s gs) ++ [58; 58] ++ colon (drop e gs)) zone = Ok (Addr6 (be_value (group_bytes gs)) zone).
Proof.
  intros Hu Hl Hse Hz. destruct (run_bytes gs s e Hl Hse Hz) as [Eg El].
  pose (pre := take s gs). pose (post := drop e gs). fold pre post in Eg, El.
  assert (u16s pre /\ u16s post) as [Hpre Hpost] by (unfold pre, post; split; [by apply Forall_take|by apply Forall_drop]).
  assert (length pre <= 8 /\ length post <= 8 - length pre)%nat as [Hl1 Hl2]
    by (unfold pre, post; rewrite length_take, length_drop; lia).
  pose proof (parse6_fill (group_bytes pre) (group_bytes post) (2 * (e - s)) zone El ltac:(lia)) as Hfill.
  rewrite <- Eg in Hfill. cbv zeta in Hfill. fold pre post. unfold parse6.
  destruct (decide (pre = [])) as [E0|Hne].
  - rewrite E0 in *. cbn [colon app].
    destruct (decide (post = [])) as [E1|Hne1].
    + rewrite E1 in *. cbn [colon]. rewrite Eg. cbn [group_bytes mbind list_bind app] in *.
      assert (e - s = 8)%nat as -> by (cbn in El; lia). done.
    + destruct (colon_head post Hne1 Hpost) as (c & l & E & Hc). rewrite E at 1. cbv iota.
      rewrite colon_parse by (done || (cbn in Hl2; lia)). cbn [mbind result_bind app].
      change (negb (len (@nil Z) =? 0)) with false. cbv iota. cbn [group_bytes mbind list_bind app] in Hfill.
      exact Hfill.
  - destruct (colon_head pre Hne Hpre) as (c & l & E & Hc).
    assert (match colon pre ++ [58; 58] ++ colon post with 58 :: 58 :: r => (r, Some 0)
      | _ => (colon pre ++ [58; 58] ++ colon post, None) end = (colon pre ++ [58; 58] ++ colon post, None)) as ->.
    { rewrite E. unfold hex_char in Hc. cbn [app]. destruct c as [|p|p]; try lia. do 6 (destruct p as [p|p|]; try done). lia. }
    rewrite E at 1. cbn [app]. rewrite ellipsis_parse by done. cbn [app]. cbv zeta.
    destruct (decide (post = [])) as [E1|Hne1].
    + rewrite E1 in *. cbn [colon]. cbn [mbind result_bind]. change (negb (len (@nil Z) =? 0)) with false. cbv iota.
      cbn [group_bytes mbind list_bind] in Hfill. rewrite app_nil_r in Hfill. revert Hfill. by case_one.
    + destruct (colon_head post Hne1 Hpost) as (c' & l' & E' & _). rewrite E' at 1.
      rewrite colon_parse by (done || lia). cbn [mbind result_bind]. change (negb (len (@nil Z) =? 0)) with false. cbv iota.
      revert Hfill. by case_one.
Qed.

(** ** Addresses *)

Definition addr_char (c : Z) : Prop := hex_char c \/ c = 58 \/ c = 46.

Lemma addr_chars_not s c : Forall addr_char s -> ~ addr_char c -> c ∉ s.
Proof. intros H Hc Hin. rewrite Forall_forall in H. by apply Hc, H. Qed.

Lemma hex_addr_chars s : Forall hex_char s -> Forall addr_char s.
Proof. intros H. eapply Forall_impl; [exact H|]. intros c. by left. Qed.

Lemma colon_chars gs : u16s gs -> Forall addr_char (colon gs).
Proof.
  induction 1 as [|g gs Hg Hu IH]; [done|].
  assert (Forall addr_char (appendHex g)) by (apply hex_addr_chars, hexText_chars; lia).
  destruct gs; cbn [colon]; [done|]. apply Forall_app. split; [done|]. constructor; [right; by left|done].
Qed.

Lemma decimal_chars n : 0 <= n -> Forall hex_char (appendDecimal n).
Proof. intros Hn. eapply Forall_impl; [by apply decimal_digits|]. intros c. by left. Qed.

Lemma appendTo4_form v : exists a b c d, 0 <= a < 256 /\ 0 <= b /\ 0 <= c /\ 0 <= d /\
  appendTo4 v = appendDecimal a ++ 46 :: appendDecimal b ++ 46 :: appendDecimal c ++ 46 :: appendDecimal d.
Proof.
  unfold appendTo4. destruct (be_bytes_4 v) as (a & b & c & d & -> & Ho). unfold bytes_ok, in_width in Ho.
  change (2 ^ 8) with 256 in Ho. apply Forall_cons in Ho as [Ha Ho]. apply Forall_cons in Ho as [Hb Ho].
  apply Forall_cons in Ho as [Hc Ho]. apply Forall_cons in Ho as [Hd _]. exists a, b, c, d. by split_and!; try lia.
Qed.

Lemma appendTo4_chars v : Forall addr_char (appendTo4 v).
Proof.
  destruct (appendTo4_form v) as (a & b & c & d & Ha & Hb & Hc & Hd & ->).
  assert (addr_char 46) by (right; by right).
  assert (forall n, 0 <= n -> Forall addr_char (appendDecimal n)) as H' by (intros; by apply hex_addr_chars, decimal_chars).
  repeat (apply Forall_app; split; [apply H'; lia|]; constructor; [done|]). by apply H'.
Qed.

(** The first special character decides how an address is read. *)
Lemma addr_form_hex l c t : Forall hex_char l -> c = 46 \/ c = 58 -> addr_form (l ++ c :: t) = Some c.
Proof.
  intros Hl Hc. induction Hl as [|x l Hx Hl IH]; cbn [app addr_form].
  - by destruct Hc as [->| ->].
  - unfold hex_char in Hx. destruct (Z.eqb_spec x 46), (Z.eqb_spec x 58), (Z.eqb_spec x 37); try lia. done.
Qed.

(** What is printed for an address that is not IPv4-mapped. *)
Lemma appendTo6_text v : in_width 128 v -> exists text,
  (forall zone, appendTo6 v zone = text ++ appendZone zone /\ parse6 text zone = Ok (Addr6 v zone)) /\
  Forall addr_char text /\ exists l t, text = l ++ 58 :: t /\ Forall hex_char l.
Proof.
  intros Hv. destruct (v6u16s_spec v Hv) as (Hu & Hl & Hval). unfold appendTo6.
  pose proof (zero_run_spec ((fun g => g =? 0) <$> v6u16s v) ltac:(by rewrite length_fmap)) as Hz.
  destruct (zero_run _) as [s e]. eexists. split; [intros zone; split; [reflexivity|]|].
  - destruct Hz as [[-> ->]|[Hse Hz]].
    + rewrite print_groups_all by done. rewrite parse6_plain by done. by rewrite Hval.
    + rewrite print_groups_run by done. rewrite parse6_run by done. by rewrite Hval.
  - destruct Hz as [[-> ->]|[Hse Hz]].
    + rewrite print_groups_all by done. split; [by apply colon_chars|].
      destruct (v6u16s v) as [|g [|g' gs]]; try discriminate Hl. apply Forall_cons in Hu as [Hg _].
      exists (appendHex g), (colon (g' :: gs)). split; [done|]. apply hexText_chars. lia.
    + rewrite print_groups_run by done. split.
      * apply Forall_app. split; [by apply colon_chars, Forall_take|].
        apply Forall_app. split; [|by apply colon_chars, Forall_drop]. by repeat constructor; right; left.
      * assert (u16s (take s (v6u16s v))) as Hp by (by apply Forall_take).
        destruct (take s (v6u16s v)) as [|g [|g' gs]].
        -- exists [], (58 :: colon (drop e (v6u16s v))). by split.
        -- apply Forall_cons in Hp as [Hg _]. exists (appendHex g), (58 :: colon (drop e (v6u16s v))).
           split; [done|]. apply hexText_chars. lia.
        -- apply Forall_cons in Hp as [Hg _]. exists (appendHex g), (colon (g' :: gs) ++ [58; 58] ++ colon (drop e (v6u16s v))).
           split; [cbn [colon]; by rewrite <- app_assoc|]. apply hexText_chars. lia.
Qed.

(** The octet before a dot, read as a hexadecimal group. *)
Lemma octet_group a t : 0 <= a < 256 -> exists acc off,
  hexGroup (appendDecimal a ++ 46 :: t) 0 0 = Ok (acc, off, 46 :: t) /\ off <> 0.
Proof.
  intros Ha. rewrite decimal_octet by done.
  assert (forall d, 0 <= d <= 9 -> hexDigit (48 + d) = Some d) as Hd.
  { intros d Hd. unfold hexDigit. case_one; zbool; [f_equal; lia|lia]. }
  pose proof (Z.mod_pos_bound a 10 ltac:(lia)). pose proof (Z.mod_pos_bound (a / 10) 10 ltac:(lia)).
  pose proof (Z.div_pos a 10 ltac:(lia) ltac:(lia)). pose proof (Z.div_pos a 100 ltac:(lia) ltac:(lia)).
  assert (a / 100 < 10) by (apply Z.div_lt_upper_bound; lia).
  repeat case_one; zbool; try (assert (a / 10 < 10) by (apply Z.div_lt_upper_bound; lia));
    cbn [app hexGroup]; rewrite !Hd by lia; by eexists _, _.
Qed.

Lemma dotted_step fuel s ip e acc off t :
  hexGroup s 0 0 = Ok (acc, off, 46 :: t) -> off <> 0 -> len ip + 4 <= 16 ->
  parseIPv6Groups (S fuel) s ip (Some e) = (f ← parseIPv4Fields s 0 0 [] true false; Ok ([], ip ++ f, Some e)).
Proof.
  intros Eg Ho Hl. cbn [parseIPv6Groups]. rewrite Eg. cbn [mbind result_bind].
  destruct (Z.eqb_spec off 0); [done|]. rewrite bool_decide_eq_false_2 by done. cbn [andb].
  by rewrite (proj2 (Z.ltb_ge 16 _)) by done.
Qed.

Lemma appendTo4In6_parse v zone : in_width 128 v -> v / 2 ^ 32 = 65535 ->
  parse6 (str "::ffff:" ++ appendTo4 (v `mod` 2 ^ 32)) zone = Ok (Addr6 v zone).
Proof.
  intros Hv H4. set (w := v `mod` 2 ^ 32). destruct (appendTo4_form w) as (a & b & c & d & Ha & _ & _ & _ & Et).
  destruct (octet_group a (appendDecimal b ++ 46 :: appendDecimal c ++ 46 :: appendDecimal d) Ha) as (acc & off & Eg & Ho).
  rewrite <- Et in Eg.
  assert (exists x l, appendTo4 w = x :: l /\ hex_char x) as Hhead.
  { rewrite Et. pose proof (decimal_chars a ltac:(lia)) as Hc. pose proof (appendDecimal_nonempty a []) as Hn.
    rewrite app_nil_r in Hn. destruct (appendDecimal a) as [|x l]; [done|]. apply Forall_cons in Hc as [Hc _]. cbn. eauto. }
  change (str "::ffff:" ++ appendTo4 w) with (58 :: 58 :: appendHex 65535 ++ 58 :: appendTo4 w). unfold parse6.
  assert (exists y m, appendHex 65535 ++ 58 :: appendTo4 w = y :: m) as (y & m & Ey) by (by eexists _, _).
  rewrite Ey at 1. cbv iota. rewrite (colon_step 65535) by (done || lia). cbn [app].
  rewrite (dotted_step _ _ _ _ _ _ _ Eg) by done. rewrite IPv4_parse. cbn [mbind result_bind].
  change (negb (len (@nil Z) =? 0)) with false. cbv iota.
  assert (be_value (be_bytes 4 w) = w) as Ew.
  { apply be_value_bytes_id. apply Z.mod_pos_bound. lia. }
  destruct (be_bytes_4 w) as (a' & b' & c' & d' & Eb & _). rewrite Eb in *.
  change ([65535 / 256; 65535 `mod` 256]) with [255; 255]. cbn [app].
  change (len [255; 255; a'; b'; c'; d']) with 6. change (6 <? 16) with true. cbv iota. f_equal. f_equal.
  change (slice [255; 255; a'; b'; c'; d'] 0 0 ++ replicate (Z.to_nat (16 - 6)) 0 ++ slice_from [255; 255; a'; b'; c'; d'] 0)
    with ([0; 0; 0; 0; 0; 0; 0; 0; 0; 0; 255; 255] ++ [a'; b'; c'; d']).
  rewrite be_value_app, Ew. change (be_value [0; 0; 0; 0; 0; 0; 0; 0; 0; 0; 255; 255]) with 65535.
  change (2 ^ (8 * len [a'; b'; c'; d'])) with (2 ^ 32). unfold w. rewrite <- H4, Z.mul_comm. symmetry.
  by apply Z.div_mod.
Qed.

(** An IPv6 address in text: the text without its zone, which has none of the characters
    that the enclosing syntax uses. *)
Lemma appendTo_text v zone : in_width 128 v -> exists text,
  appendTo (Addr6 v zone) = text ++ appendZone zone /\ Forall addr_char text /\
  ParseAddr (appendTo (Addr6 v zone)) = Ok (Addr6 v zone).
Proof.
  intros Hv. assert (forall text, Forall addr_char text -> (exists l t, text = l ++ 58 :: t /\ Forall hex_char l) ->
    parse6 text zone = Ok (Addr6 v zone) -> ParseAddr (text ++ appendZone zone) = Ok (Addr6 v zone)) as Hp.
  { intros text Hc (l & t & -> & Hl) Hp. unfold ParseAddr. rewrite <- app_assoc. cbn [app].
    rewrite addr_form_hex by auto. change (l ++ 58 :: t ++ appendZone zone) with (l ++ (58 :: t) ++ appendZone zone).
    rewrite app_assoc, parseIPv6_zone; [done|]. apply addr_chars_not; [done|]. unfold addr_char, hex_char. lia. }
  cbn [appendTo Is4In6]. destruct (Z.eqb_spec (v / 2 ^ 32) 65535) as [E|E].
  - exists (str "::ffff:" ++ appendTo4 (v `mod` 2 ^ 32)). unfold appendTo4In6. rewrite app_assoc.
    assert (Forall addr_char (str "::ffff:" ++ appendTo4 (v `mod` 2 ^ 32))) as Hc.
    { apply Forall_app. split; [|apply appendTo4_chars]. change (str "::ffff:") with [58; 58; 102; 102; 102; 102; 58].
      repeat (apply Forall_cons; split; [unfold addr_char, hex_char; lia|]). done. }
    split_and!; [done|done|]. apply Hp; [done| |by apply appendTo4In6_parse].
    exists [], (tail (str "::ffff:") ++ appendTo4 (v `mod` 2 ^ 32)). by split.
  - destruct (appendTo6_text v Hv) as (text & Ht & Hc & Hf). exists text. destruct (Ht zone) as [-> Hz]. auto.
Qed.

Lemma appendTo4_parse v : u32 v -> ParseAddr (appendTo4 v) = Ok (Addr4 v).
Proof.
  intros Hv. unfold ParseAddr.
  assert (addr_form (appendTo4 v) = Some 46) as ->.
  { destruct (appendTo4_form v) as (a & b & c & d & Ha & _ & _ & _ & ->). apply addr_form_hex; [|auto].
    apply decimal_chars. lia. }
  unfold parseIPv4. rewrite IPv4_parse. cbn. unfold AddrFrom4. rewrite be_value_bytes_id; [done|]. exact Hv.
Qed.

Lemma port_not_in n c : u16 n -> ~ (48 <= c <= 57) -> c ∉ appendDecimal n.
Proof. intros Hn. apply (ParseUint_not_in _ 16 n). apply ParseUint_decimal; [exact Hn|lia]. Qed.

Lemma len_appendDecimal n s : 0 < len (appendDecimal n ++ s).
Proof.
  pose proof (appendDecimal_nonempty n s). destruct (_ ++ s); [done|]. rewrite len_cons. pose proof (len_nonneg l). lia.
Qed.

Lemma appendTo4_no_colon v : 58 ∉ appendTo4 v.
Proof.
  destruct (appendTo4_form v) as (a & b & c & d & Ha & Hb & Hc & Hd & ->).
  assert (forall n, 0 <= n -> 58 ∉ appendDecimal n) as H.
  { intros n Hn Hin. pose proof (decimal_digits 20 n Hn) as Hf. rewrite Forall_forall in Hf. specialize (Hf 58 Hin). lia. }
  pose proof (H a ltac:(lia)). pose proof (H b Hb). pose proof (H c Hc). pose proof (H d Hd). set_solver by lia.
Qed.

Lemma idx_last (x y : Z) (t : bytes) : idx ([x] ++ t ++ [y]) (len t + 2 - 1) = y.
Proof.
  unfold idx. rewrite app_assoc, app_nth2; rewrite length_app; unfold len; cbn [length]; [|lia].
  by replace (Z.to_nat (Z.of_nat (length t) + 2 - 1) - (1 + length t))%nat with 0%nat by lia.
Qed.

Lemma no_bracket_rest {A} (f : bytes -> A) (g : A) s : 91 ∉ s -> match s with 91 :: r => f r | _ => g end = g.
Proof.
  destruct s as [|x s]; [done|]. intros Hx. assert (x <> 91) by set_solver.
  destruct x as [|q|q]; try done. do 7 (try destruct q as [q|q|]; try done).
Qed.

Section port.
Context (port : Z) (Hport : u16 port).

Lemma port_parse : ParseUint (appendDecimal port) 16 = Ok port.
Proof. apply ParseUint_decimal; [exact Hport|lia]. Qed.
Lemma port_chars : (58 ∉ appendDecimal port) /\ (91 ∉ appendDecimal port) /\ (93 ∉ appendDecimal port).
Proof. split_and!; apply port_not_in; done || lia. Qed.
Lemma port_len : 0 < len (appendDecimal port).
Proof. pose proof (len_appendDecimal port []) as H. by rewrite app_nil_r in H. Qed.

Lemma AddrPort4_parse v : u32 v ->
  ParseAddrPort (appendTo4 v ++ 58 :: appendDecimal port) = Ok (AddrPortFrom (Addr4 v) port) /\
  SplitHostPort (appendTo4 v ++ 58 :: appendDecimal port) = Ok (appendTo4 v, appendDecimal port).
Proof.
  intros Hv. destruct port_chars as (N1 & N2 & N3). pose proof port_len. pose proof (appendTo4_chars v) as Hch.
  assert ((91 ∉ appendTo4 v) /\ (93 ∉ appendTo4 v)) as (M1 & M2)
    by (split; apply addr_chars_not; unfold addr_char, hex_char; done || lia).
  pose proof (appendTo4_no_colon v) as M3. destruct (appendTo4_form v) as (x & b & c & d & _ & _ & _ & _ & Ef).
  assert (0 < len (appendTo4 v)) by (rewrite Ef; apply len_appendDecimal). split.
  - unfold ParseAddrPort. rewrite (proj2 (cut_last_spec 58 _ (appendTo4 v) (appendDecimal port))) by done.
    destruct (Z.eqb_spec (len (appendTo4 v)) 0); [lia|]. destruct (Z.eqb_spec (len (appendDecimal port)) 0); [lia|].
    cbn [orb]. rewrite no_bracket_rest by done. rewrite port_parse, appendTo4_parse by done. done.
  - rewrite SplitHostPort_plain by done. by rewrite bool_decide_eq_false_2.
Qed.

Lemma AddrPort6_parse v zone t : t = appendTo (Addr6 v zone) -> in_width 128 v ->
  ParseAddrPort ([91] ++ t ++ [93] ++ 58 :: appendDecimal port) = Ok (AddrPortFrom (Addr6 v zone) port) /\
  (zone = [] -> SplitHostPort ([91] ++ t ++ [93] ++ 58 :: appendDecimal port) = Ok (t, appendDecimal port)).
Proof.
  intros Et' Hv. destruct port_chars as (N1 & N2 & N3). pose proof port_len.
  destruct (appendTo_text v zone Hv) as (text & Et & Hch & Hpa). rewrite <- Et' in *. split.
  - unfold ParseAddrPort.
    rewrite (proj2 (cut_last_spec 58 _ ([91] ++ t ++ [93]) (appendDecimal port))) by (rewrite <- !app_assoc; done).
    assert (len ([91] ++ t ++ [93]) = len t + 2) as El by (rewrite !len_app, !len_cons, !len_nil; lia).
    pose proof (len_nonneg t). rewrite El.
    destruct (Z.eqb_spec (len t + 2) 0); [lia|]. destruct (Z.eqb_spec (len (appendDecimal port)) 0); [lia|].
    cbn [orb app]. change (91 :: t ++ [93]) with ([91] ++ t ++ [93]). rewrite (proj2 (Z.ltb_ge _ 2)) by lia.
    rewrite idx_last. cbn [orb negb Z.eqb]. rewrite length_app. cbn [length].
    replace (length t + 1 - 1)%nat with (length t) by lia. rewrite take_app_length, port_parse, Hpa. done.
  - intros ->. cbn [appendZone] in Et. rewrite app_nil_r in Et.
    assert ((91 ∉ t) /\ (93 ∉ t)) as (M1 & M2)
      by (rewrite Et; split; apply addr_chars_not; unfold addr_char, hex_char; done || lia).
    exact (SplitHostPort_bracket t (appendDecimal port) M1 M2 N1 N2 N3).
Qed.
End port.

(** Every address the proxy prints is read back as the same address: an address by
    [ParseAddr], with its port by [ParseAddrPort] (IPv4, IPv6 in its compressed form,
    IPv4-mapped, with and without a zone), and, without a zone, split by the dialer into
    that address and port. So the string that is dialed or listened on names exactly the
    address it was made from. *)
Theorem AddrPort_String_roundtrip (ap : AddrPort) :
  AddrPort_ok ap -> IsValid (ap_Addr ap) = true ->
  ParseAddr (Addr_String (ap_Addr ap)) = Ok (ap_Addr ap) /\
  ParseAddrPort (AddrPort_String ap) = Ok ap /\
  (zone_free (ap_Addr ap) = true ->
   SplitHostPort (AddrPort_String ap) = Ok (Addr_String (ap_Addr ap), appendDecimal (ap_Port ap))) /\
  ParseUint (appendDecimal (ap_Port ap)) 16 = Ok (ap_Port ap).
Proof.
  destruct ap as [[|v|v zone] port]; intros [Ha Hport] Hvalid; [done| |];
    unfold AddrPort_String; cbn [ap_Addr ap_Port Addr_String IsValid] in *.
  - destruct (AddrPort4_parse port Hport v Ha) as [H1 H2].
    split_and!; [by apply appendTo4_parse|exact H1|intros _; exact H2|by apply port_parse].
  - destruct Ha as [Hv _]. destruct (AddrPort6_parse port Hport v zone _ eq_refl Hv) as [H1 H2].
    destruct (appendTo_text v zone Hv) as (_ & _ & _ & Hpa).
    split_and!; [exact Hpa|exact H1|intros Hz; apply H2; by destruct zone|by apply port_parse].
Qed.

(** 2001:db8::1%eth0, port 443. *)
Lemma AddrPort_String_roundtrip_witness :
  let ap := AddrPortFrom (Addr6 0x20010db8000000000000000000000001 (str "eth0")) 443 in
  AddrPort_String ap = str "[2001:db8::1%eth0]:443" /\ ParseAddrPort (str "[2001:db8::1%eth0]:443") = Ok ap.
Proof.
  intros ap. split; [reflexivity|].
  exact (proj1 (proj2 (AddrPort_String_roundtrip ap ltac:(by_decide) ltac:(reflexivity)))).
Defined.

(** ** Codes *)

Fixpoint bytes_eqb (a b : bytes) : bool :=
  match a, b with
  | [], [] => true
  | x :: a, y :: b => (x =? y) && bytes_eqb a b
  | _, _ => false
  end.
Fixpoint apart (l : list bytes) : bool :=
  match l with [] => true | x :: l => forallb (fun y => negb (bytes_eqb x y)) l && apart l end.

Lemma apart_NoDup l : apart l = true -> NoDup l.
Proof.
  assert (forall a, bytes_eqb a a = true) as Hr.
  { induction a as [|x a IH]; [done|]. cbn. by rewrite Z.eqb_refl, IH. }
  induction l as [|x l IH]; [constructor|]. intros [H1 H2]%andb_true_iff. constructor; [|by apply IH].
  intros Hin. rewrite forallb_forall in H1. specialize (H1 x). rewrite Hr in H1.
  apply list_elem_of_In in Hin. by specialize (H1 Hin).
Qed.

(** No two reply codes and no two methods are printed alike. *)
Theorem codes_print_apart (x y : Z) : in_width 8 x -> in_width 8 y ->
  (Reply_String x = Reply_String y -> x = y) /\ (Method_String x = Method_String y -> x = y).
Proof.
  assert (forall f : Z -> bytes, apart (f <$> seqZ 0 256) = true ->
    forall x y, in_width 8 x -> in_width 8 y -> f x = f y -> x = y) as H.
  { intros f Hf%apart_NoDup a b Ha Hb E. unfold in_width in *. change (2 ^ 8) with 256 in *.
    rewrite NoDup_alt in Hf. assert (Z.to_nat a = Z.to_nat b) as Eq; [|lia].
    apply (Hf _ _ (f a)); [|rewrite E]; rewrite list_lookup_fmap, lookup_seqZ_lt by lia; cbn; by rewrite Z2Nat.id by lia. }
  intros Hx Hy. split; apply H; try done; vm_compute; reflexivity.
Qed.

Lemma codes_print_apart_witness : Reply_String 4 <> Reply_String 9.
Proof. intros E. destruct (codes_print_apart 4 9) as [H _]; [by_decide|by_decide|]. discriminate (H E). Defined.
