(* ===== verification/Sockopts.v ===== *)
(** * Socket options and buffers

    Models [internal/connect/sockopts_*.go], [sockbuf*.go],
    [internal/serverbase/reuseport_*.go], [TuneTCPConnection], and the probes of
    [udp_gro_linux.go] and [udp_gso_linux.go], over a kernel that is a parameter: an
    interface of the system calls, with the laws that socket(7) documents where a theorem
    needs them. The options [Connector] lists are those these functions set. *)

From Stdlib Require Import ZArith Lia.
From stdpp Require Import base tactics numbers strings list.
From S2P Require Import Prelude.
From S2P Require Import Netip.
From S2P Require Import Connector.
From S2P Require Import Servers.
From S2P Require Import Boot.

(** ** System calls *)

(** The state of a socket in the kernel, and the calls on it; an option is a level, a
    name and a value. *)
Class Kernel (K : Type) := {
  setsockopt : Z -> Z -> Z -> K -> option error * K;
  setsockopt_string : Z -> Z -> bytes -> K -> option error * K;
  getsockopt : Z -> Z -> K -> result Z
}.

Definition SOL_SOCKET : Z := 1.
Definition IPPROTO_TCP : Z := 6.
Definition IPPROTO_UDP : Z := 17.
Definition SO_REUSEADDR : Z := 2.
Definition SO_SNDBUF : Z := 7.
Definition SO_RCVBUF : Z := 8.
Definition SO_REUSEPORT : Z := 15.
Definition SO_BINDTODEVICE : Z := 25.
Definition SO_SNDBUFFORCE : Z := 32.
Definition SO_RCVBUFFORCE : Z := 33.
Definition TCP_USER_TIMEOUT : Z := 18.
Definition UDP_SEGMENT : Z := 103.
Definition UDP_GRO : Z := 104.

Section sockets.
Context `{Kernel K}.

(** [SetsockoptInt] passes a C int. *)
Definition int32 (z : Z) : Z := let m := wrap 32 z in if m <? 2 ^ 31 then m else m - 2 ^ 32.
Definition SetsockoptInt (level opt value : Z) (k : K) : option error * K := setsockopt level opt (int32 value) k.

(** A [net.UDPConn]: whether its descriptor can be had and used. *)
Record rawconn := mkRaw { rc_SyscallConn : option error; rc_Control : option error }.

(** [conn.SyscallConn] and [raw.Control] around [f]. *)
Definition control {A} (c : rawconn) (f : K -> A * K) (k : K) : result A * K :=
  match rc_SyscallConn c with
  | Some e => (Err e, k)
  | None => match rc_Control c with Some e => (Err e, k) | None => let '(a, k) := f k in (Ok a, k) end
  end.

(** ** Options of outbound sockets *)

Inductive platform := Linux | OtherUnix | Windows | OtherOS.

#[export] Instance platform_eq_dec : EqDecision platform.
Proof. solve_decision. Defined.

Definition setReuseAddr (p : platform) (k : K) : option error * K :=
  match p with
  | OtherOS => (None, k)
  | _ => SetsockoptInt SOL_SOCKET SO_REUSEADDR 1 k
  end.

Definition setTCPUserTimeout (p : platform) (ms : Z) (k : K) : option error * K :=
  match p with
  | Linux => SetsockoptInt IPPROTO_TCP TCP_USER_TIMEOUT ms k
  | _ => (None, k)
  end.

Definition bindToDevice (p : platform) (iface : bytes) (k : K) : option error * K :=
  match p with
  | Linux => setsockopt_string SOL_SOCKET SO_BINDTODEVICE iface k
  | _ => (None, k)
  end.

(** [applySocketOptions] with its calls. *)
Definition applySocketOptions_calls (p : platform) (network iface : bytes) (c : Connector) (k : K)
    : option error * K :=
  let k := match cn_ReuseAddr c with Some true => (setReuseAddr p k).2 | _ => k end in
  if bool_decide (p = Linux) then
    let tcp := eqs network (str "tcp") || eqs network (str "tcp4") || eqs network (str "tcp6") in
    let k := match cn_TCPUserTimeout c with
             | Some d => if tcp then (setTCPUserTimeout p (Z.quot d Millisecond) k).2 else k
             | None => k
             end in
    if negb (eqs iface []) then bindToDevice p iface k else (None, k)
  else (None, k).

(** ** Listeners *)

(** [reusePortSupported] and [controlReusePort]: Solaris is a Unix without it. *)
Definition reusePortSupported (p : platform) (solaris : bool) : bool :=
  match p with Linux => true | OtherUnix => negb solaris | _ => false end.

Definition controlReusePort (p : platform) (solaris : bool) (c : rawconn) (k : K) : option error * K :=
  if reusePortSupported p solaris then
    match control c (SetsockoptInt SOL_SOCKET SO_REUSEPORT 1) k with
    | (Err e, k) => (Some e, k)
    | (Ok sockErr, k) => (sockErr, k)
    end
  else (None, k).

(** [TuneTCPConnection]: only a plain TCP connection is tuned. *)
Inductive tcp_setting := SetNoDelay (b : bool) | SetKeepAlive (b : bool) | SetKeepAlivePeriod (d : Z).
Definition TuneTCPConnection (c : conn_type) : list tcp_setting :=
  match c with
  | TCPConn => [SetNoDelay true; SetKeepAlive true; SetKeepAlivePeriod (60 * Second)]
  | _ => []
  end.

(** ** Buffers of UDP sockets *)

(** [conn.SetReadBuffer] and [conn.SetWriteBuffer]. *)
Definition SetReadBuffer (bytes : Z) (k : K) : option error * K := SetsockoptInt SOL_SOCKET SO_RCVBUF bytes k.
Definition SetWriteBuffer (bytes : Z) (k : K) : option error * K := SetsockoptInt SOL_SOCKET SO_SNDBUF bytes k.

Definition force_buffers (bytes : Z) (k : K) : (option error * option error) * K :=
  let '(rcvErr, k) := SetsockoptInt SOL_SOCKET SO_RCVBUFFORCE bytes k in
  let '(sndErr, k) := SetsockoptInt SOL_SOCKET SO_SNDBUFFORCE bytes k in
  ((rcvErr, sndErr), k).

Definition TuneUDPBuffers_linux (conn : option rawconn) (bytes : Z) (k : K) : K :=
  match conn with
  | None => k
  | Some c =>
      if bytes <=? 0 then k
      else
        match control c (force_buffers bytes) k with
        | (Err _, k) => k
        | (Ok (rcvErr, sndErr), k) =>
            let k := match rcvErr with Some _ => (SetReadBuffer bytes k).2 | None => k end in
            match sndErr with Some _ => (SetWriteBuffer bytes k).2 | None => k end
        end
  end.

Definition TuneUDPBuffers_other (conn : option rawconn) (bytes : Z) (k : K) : K :=
  match conn with
  | None => k
  | Some _ => if bytes <=? 0 then k else (SetWriteBuffer bytes (SetReadBuffer bytes k).2).2
  end.

Definition TuneUDPBuffers (p : platform) : option rawconn -> Z -> K -> K :=
  match p with Linux => TuneUDPBuffers_linux | _ => TuneUDPBuffers_other end.

(** [currentUDPRecvBuffer]: [None] when the size is unknown. *)
Definition currentUDPRecvBuffer (p : platform) (c : rawconn) (k : K) : option Z :=
  match p with
  | Linux =>
      match control c (fun k => (getsockopt SOL_SOCKET SO_RCVBUF k, k)) k with
      | (Ok (Ok value), _) => Some value
      | _ => None
      end
  | _ => None
  end.

(** [VerifyUDPBufferTuning] with its calls: [listen] are the two attempts to get a socket. *)
Definition VerifyUDPBufferTuning_calls (p : platform) (listen4 listen6 : result (rawconn * K)) (requested : Z)
    : option (Z * bool) :=
  if requested <=? 0 then None
  else
    match (match listen4 with Ok x => Ok x | Err _ => listen6 end) with
    | Err _ => None
    | Ok (c, k) =>
        match currentUDPRecvBuffer p c (TuneUDPBuffers p (Some c) requested k) with
        | None => None
        | Some applied => Some (applied, applied <? requested)
        end
    end.

(** ** Probes *)

Definition enableUDPGRO (c : rawconn) (k : K) : option error * K :=
  match control c (SetsockoptInt IPPROTO_UDP UDP_GRO 1) k with
  | (Err e, k) => (Some e, k)
  | (Ok sockErr, k) => (sockErr, k)
  end.

(** [sync.OnceValue]: the first call computes, the others return what it found. *)
Definition OnceValue {A} (cache : option A) (compute : A) : A * option A :=
  match cache with Some a => (a, cache) | None => (compute, Some compute) end.

Definition groSupported (listen : result (rawconn * K)) : bool :=
  match listen with
  | Err _ => false
  | Ok (c, k) => bool_decide ((enableUDPGRO c k).1 = None)
  end.

Definition gsoSupported (listen : result (rawconn * K)) : bool :=
  match listen with
  | Err _ => false
  | Ok (c, k) =>
      match control c (SetsockoptInt IPPROTO_UDP UDP_SEGMENT 0) k with
      | (Ok None, _) => true
      | _ => false
      end
  end.
End sockets.

(** ** The options of outbound sockets are those [Connector] lists *)

Section options.
Context `{Kernel K}.

(** One option of [Connector] is one call; its error. *)
Definition apply_opt (p : platform) (o : sockopt) (k : K) : option error * K :=
  match o with
  | Connector.SO_REUSEADDR => setReuseAddr p k
  | Connector.TCP_USER_TIMEOUT ms => setTCPUserTimeout p ms k
  | Connector.SO_BINDTODEVICE iface => bindToDevice p iface k
  end.
Definition run_opts (p : platform) (l : list sockopt) (k : K) : K := foldl (fun k o => (apply_opt p o k).2) k l.

(** The calls of [applySocketOptions] are exactly the options that the dials of
    [Connector] are proved to set, in that order, and its error is the one of binding to
    the interface, the only error that makes a dial fail. *)
Theorem applySocketOptions_agrees (p : platform) (network iface : bytes) (c : Connector) (k : K) :
  exists bindErr,
    applySocketOptions_calls p network iface c k =
      ((applySocketOptions (bool_decide (p = Linux)) network iface c bindErr).2,
       run_opts p (applySocketOptions (bool_decide (p = Linux)) network iface c bindErr).1 k).
Proof.
  unfold applySocketOptions_calls, applySocketOptions, run_opts.
  set (r := match cn_ReuseAddr c with Some true => [Connector.SO_REUSEADDR] | _ => [] end).
  assert (forall l, foldl (fun k o => (apply_opt p o k).2) k (r ++ l) =
    foldl (fun k o => (apply_opt p o k).2)
      match cn_ReuseAddr c with Some true => (setReuseAddr p k).2 | _ => k end l) as Hr.
  { intros l. subst r. by destruct (cn_ReuseAddr c) as [[]|]. }
  destruct (bool_decide (p = Linux)).
  - destruct (negb (eqs iface [])) eqn:Ei.
    + set (k1 := match cn_TCPUserTimeout c with Some d => _ | None => _ end).
      exists (bindToDevice p iface k1).1. cbn [fst snd]. rewrite Hr. subst k1.
      rewrite foldl_app. cbn. destruct (cn_TCPUserTimeout c); [|apply surjective_pairing].
      destruct (_ || _); apply surjective_pairing.
    + exists None. cbn [fst snd]. rewrite Hr. destruct (cn_TCPUserTimeout c); [|done]. by destruct (_ || _).
  - exists None. cbn [fst snd]. by rewrite <- (app_nil_r r), Hr.
Qed.
End options.

(** ** Buffers on Linux *)

(** What socket(7) says of the four buffer options: the kernel doubles the value; without
    the privilege [CAP_NET_ADMIN] the forcing options are refused and the others are
    limited by the sysctls. Sizes below [min_buffer] are raised by the kernel. *)
Definition min_buffer : Z := 4608.
Definition EPERM : error := Errno 1.

Class LinuxUDP (K : Type) `{Kernel K} := {
  rcvbuf : K -> Z;
  sndbuf : K -> Z;
  rmem_max : Z;
  wmem_max : Z;
  net_admin : bool;
  rmem_max_min : min_buffer <= rmem_max;
  wmem_max_min : min_buffer <= wmem_max;
  rcv_force v k : min_buffer <= v < 2 ^ 30 -> net_admin = true ->
    exists k', setsockopt SOL_SOCKET SO_RCVBUFFORCE v k = (None, k') /\ rcvbuf k' = 2 * v /\ sndbuf k' = sndbuf k;
  snd_force v k : min_buffer <= v < 2 ^ 30 -> net_admin = true ->
    exists k', setsockopt SOL_SOCKET SO_SNDBUFFORCE v k = (None, k') /\ sndbuf k' = 2 * v /\ rcvbuf k' = rcvbuf k;
  rcv_denied v k : net_admin = false -> setsockopt SOL_SOCKET SO_RCVBUFFORCE v k = (Some EPERM, k);
  snd_denied v k : net_admin = false -> setsockopt SOL_SOCKET SO_SNDBUFFORCE v k = (Some EPERM, k);
  rcv_set v k : min_buffer <= v < 2 ^ 30 ->
    exists k', setsockopt SOL_SOCKET SO_RCVBUF v k = (None, k') /\
      rcvbuf k' = 2 * Z.min v rmem_max /\ sndbuf k' = sndbuf k;
  snd_set v k : min_buffer <= v < 2 ^ 30 ->
    exists k', setsockopt SOL_SOCKET SO_SNDBUF v k = (None, k') /\
      sndbuf k' = 2 * Z.min v wmem_max /\ rcvbuf k' = rcvbuf k;
  rcv_get k : getsockopt SOL_SOCKET SO_RCVBUF k = Ok (rcvbuf k)
}.

Lemma int32_small z : 0 <= z < 2 ^ 31 -> int32 z = z.
Proof.
  intros Hz. unfold int32. rewrite wrap_id by (unfold in_width; lia).
  destruct (Z.ltb_spec z (2 ^ 31)); lia.
Qed.

Section buffers.
Context `{LinuxUDP K}.

(** The size in force: what was asked for, or the ceiling without the privilege. *)
Definition granted (ceiling bytes : Z) : Z := if net_admin then bytes else Z.min bytes ceiling.

Lemma TuneUDPBuffers_granted (c : rawconn) (bytes : Z) (k : K) :
  rc_SyscallConn c = None -> rc_Control c = None -> min_buffer <= bytes < 2 ^ 30 ->
  rcvbuf (TuneUDPBuffers Linux (Some c) bytes k) = 2 * granted rmem_max bytes /\
  sndbuf (TuneUDPBuffers Linux (Some c) bytes k) = 2 * granted wmem_max bytes.
Proof.
  intros H1 H2 Hb. unfold min_buffer in *. cbn [TuneUDPBuffers]. unfold TuneUDPBuffers_linux, control, granted.
  rewrite H1, H2. destruct (Z.leb_spec bytes 0); [lia|].
  unfold force_buffers, SetReadBuffer, SetWriteBuffer, SetsockoptInt. rewrite int32_small by lia.
  destruct net_admin eqn:Ea.
  - destruct (rcv_force bytes k Hb Ea) as (k1 & E1 & Hr1 & Hs1). rewrite E1.
    destruct (snd_force bytes k1 Hb Ea) as (k2 & E2 & Hs2 & Hr2). rewrite E2. cbn. split; congruence.
  - rewrite rcv_denied, snd_denied by done. cbn [snd].
    destruct (rcv_set bytes k Hb) as (k1 & E1 & Hr1 & Hs1). rewrite E1. cbn [snd].
    destruct (snd_set bytes k1 Hb) as (k2 & E2 & Hs2 & Hr2). rewrite E2. cbn [snd]. split; congruence.
Qed.

(** Tuning gives both buffers of a UDP socket the size asked for when the process may
    exceed the system's ceilings, and otherwise the smaller of the two, each direction by
    its own ceiling; a size of zero, a missing socket and a closed one change nothing. The
    warning at startup computed from the size read back appears exactly when the process
    lacks the privilege and the request is more than twice the receive ceiling. *)
Theorem udp_buffers_tuned (c : rawconn) (bytes : Z) (k : K) (os : run_os) (l4 l6 : result (rawconn * K)) :
  rc_SyscallConn c = None -> rc_Control c = None -> min_buffer <= bytes < 2 ^ 30 ->
  (rcvbuf (TuneUDPBuffers Linux (Some c) bytes k) = 2 * granted rmem_max bytes /\
   sndbuf (TuneUDPBuffers Linux (Some c) bytes k) = 2 * granted wmem_max bytes) /\
  (forall p, TuneUDPBuffers p None bytes k = k /\ TuneUDPBuffers p (Some c) 0 k = k) /\
  (forall e, TuneUDPBuffers Linux (Some (mkRaw (Some e) None)) bytes k = k /\
     TuneUDPBuffers Linux (Some (mkRaw None (Some e))) bytes k = k) /\
  ((l4 = Ok (c, k) \/ (exists e, l4 = Err e) /\ l6 = Ok (c, k)) ->
   ru_probeSocket os = true -> ru_recvBuffer os bytes = Some (2 * granted rmem_max bytes) ->
   VerifyUDPBufferTuning_calls Linux l4 l6 bytes = VerifyUDPBufferTuning os bytes /\
   ((exists applied, VerifyUDPBufferTuning_calls Linux l4 l6 bytes = Some (applied, true)) <->
     net_admin = false /\ 2 * rmem_max < bytes)).
Proof.
  intros H1 H2 Hb. pose proof (TuneUDPBuffers_granted c bytes k H1 H2 Hb) as [Hr Hs].
  unfold min_buffer in Hb. split_and!; [done|done| | |].
  - intros p. split; by destruct p.
  - intros e. split; cbn; by destruct (bytes <=? 0).
  - intros Hl Ho Ho2. assert (VerifyUDPBufferTuning_calls Linux l4 l6 bytes =
      Some (2 * granted rmem_max bytes, 2 * granted rmem_max bytes <? bytes)) as E.
    { unfold VerifyUDPBufferTuning_calls. destruct (Z.leb_spec bytes 0); [lia|].
      assert (match l4 with Ok x => Ok x | Err _ => l6 end = Ok (c, k)) as ->.
      { by destruct Hl as [->|[[e ->] ->]]. }
      unfold currentUDPRecvBuffer, control. by rewrite H1, H2, rcv_get, Hr. }
    rewrite E. split.
    + unfold VerifyUDPBufferTuning. destruct (Z.leb_spec bytes 0); [lia|]. by rewrite Ho, Ho2.
    + unfold granted. pose proof rmem_max_min as Hmin. unfold min_buffer in Hmin. destruct net_admin; split.
      * intros [a [= <- Hlt]]. zbool. lia.
      * by intros [? ?].
      * intros [a [= <- Hlt]]. zbool. split; [done|]. lia.
      * intros [_ Hlt]. eexists. f_equal. f_equal. zbool. lia.
Qed.
End buffers.

(** ** A kernel *)

(** The two buffer sizes of a socket, in a process without the privilege and with the
    ceilings that are usual. *)
Definition demo_setsockopt (level opt v : Z) (k : Z * Z) : option error * (Z * Z) :=
  if opt =? SO_RCVBUF then (None, (2 * Z.min v 212992, k.2))
  else if opt =? SO_SNDBUF then (None, (k.1, 2 * Z.min v 212992))
  else if (opt =? SO_RCVBUFFORCE) || (opt =? SO_SNDBUFFORCE) then (Some EPERM, k)
  else (None, k).

#[local] Instance demo_kernel : Kernel (Z * Z) := {
  setsockopt := demo_setsockopt;
  setsockopt_string _ _ _ k := (None, k);
  getsockopt _ opt k := Ok (if opt =? SO_RCVBUF then k.1 else k.2)
}.

#[local] Instance demo_linux : LinuxUDP (Z * Z).
Proof.
  refine {| rcvbuf := fst; sndbuf := snd; rmem_max := 212992; wmem_max := 212992; net_admin := false |};
    try done.
  - intros v k _. by eexists.
  - intros v k _. by eexists.
Defined.

(** A machine whose startup check reads these sizes back. *)
Definition demo_clamping_os : run_os := {|
  ru_NumCPU := 4; ru_unix := true; ru_linux := true; ru_Getrlimit := Ok (1024, 1048576);
  ru_Setrlimit := fun _ => None; ru_probeSocket := true; ru_recvBuffer := fun n => Some (2 * Z.min n 212992);
  ru_route := ru_route demo_os; ru_listen := ru_listen demo_os; ru_close := ru_close demo_os;
  ru_end := Signalled None
|}.

(** A request of 4 MiB is clamped, in both directions, and the warning is given. *)
Lemma udp_buffers_tuned_witness :
  rcvbuf (TuneUDPBuffers Linux (Some (mkRaw None None)) 4194304 (212992, 212992)) = 425984 /\
  exists applied, VerifyUDPBufferTuning demo_clamping_os 4194304 = Some (applied, true).
Proof.
  destruct (udp_buffers_tuned (mkRaw None None) 4194304 (212992, 212992) demo_clamping_os
    (Err EPERM) (Ok (mkRaw None None, (212992, 212992)))) as ((H1 & _) & _ & _ & H2);
    [done|done|by unfold min_buffer|].
  destruct H2 as [E [_ H]]; [right; split; [by eexists|done]|done|done|]. rewrite <- E.
  split; [exact H1|]. by apply H.
Defined.
