(* ===== verification/Metrics.v ===== *)
(** * Metrics and timers

    Models [logMetrics] of [internal/server/socks/udp_runtime.go], what its lines say of the
    runtime while associations, readers and workers go on ([UdpRuntime]), and the
    durations that the flags in seconds become: the interval of [logMetrics], the connect
    timeout and the idle timeout of an association. The last part is the choice of a
    logger: [internal/connect/logger.go], [DebugEnabled] of [serverbase.go], and what [Run]
    of [run.go] sets up. *)

From Stdlib Require Import ZArith Lia.
From stdpp Require Import base tactics numbers list strings sets relations.
From S2P Require Import Prelude.
From S2P Require Import Netip.
From S2P Require Import Proto.
From S2P Require Import Ext.
From S2P Require Import Uint128.
From S2P Require Import SourceIP.
From S2P Require Import Config.
From S2P Require Import UdpRuntime.
From S2P Require Import Connector.
From S2P Require Import SocksServer.
From S2P Require Import Servers.
From S2P Require Import Boot.
From S2P Require Import Sockopts.

(** ** [logMetrics] *)

(** Where the value of a field comes from. *)
Inductive source :=
  | Loaded (c : counter)      (* an atomic load *)
  | QueueCapacity             (* config.SendQueueSize *)
  | BatchInUse                (* len(batchSlots) *)
  | BatchBudget.              (* cap(batchSlots) *)

Definition metric_value (m : source) (r : udpRuntime) : Z :=
  match m with
  | Loaded c => metrics r c
  | QueueCapacity => SendQueueSize (ur_config r)
  | BatchInUse => from_option fst 0 (batchSlots r)
  | BatchBudget => from_option snd 0 (batchSlots r)
  end.

Definition metrics_fields : list (string * source) :=
  [("active_associations", Loaded activeAssociations);
   ("total_associations", Loaded totalAssociations);
   ("in_packets", Loaded inPackets);
   ("in_bytes", Loaded inBytes);
   ("out_packets", Loaded outPackets);
   ("out_bytes", Loaded outBytes);
   ("queue_drops", Loaded queueDrops);
   ("queue_depth", Loaded queueDepth);
   ("queue_capacity", QueueCapacity);
   ("truncated_drops", Loaded truncatedDrops);
   ("malformed_drops", Loaded malformedDrops);
   ("fragment_drops", Loaded fragmentDrops);
   ("unauthorized_drops", Loaded unauthorizedDrops);
   ("association_limit_drops", Loaded associationDrops);
   ("batch_fallbacks", Loaded batchFallbacks);
   ("gro_coalesced_reads", Loaded groCoalescedReads);
   ("gro_truncated_reads", Loaded groTruncatedReads);
   ("batch_buffers_in_use", BatchInUse);
   ("batch_buffer_budget", BatchBudget);
   ("errors", Loaded errors)].

Abbreviation metrics_line := (list (string * Z)).

(** A line; its values are read one after the other, [seen] is the runtime at each read. *)
Definition log_line (seen : list udpRuntime) : metrics_line :=
  zip_with (fun f r => (f.1, metric_value f.2 r)) metrics_fields seen.

(** What the select of the loop gives: a tick, or the end of the context. *)
Inductive log_event := Tick (seen : list udpRuntime) | CtxDone.

Fixpoint log_loop (evs : list log_event) : list metrics_line :=
  match evs with
  | Tick seen :: evs => log_line seen :: log_loop evs
  | CtxDone :: _ | [] => []
  end.

(** [logMetrics]: [NewTicker] panics on an interval that is not positive. *)
Definition logMetrics (interval : Z) (evs : list log_event) : option (list metrics_line) :=
  if interval <=? 0 then None else Some (log_loop evs).

(** [newUDPRuntime]: the goroutine is started with this interval, or not at all. *)
Definition metrics_interval (cfg : UDPConfig) : option Z :=
  if 0 <? MetricsIntervalSecs cfg then Some (seconds (MetricsIntervalSecs cfg)) else None.
Definition runtime_logs (cfg : UDPConfig) (evs : list log_event) : option (list metrics_line) :=
  match metrics_interval cfg with
  | Some interval => logMetrics interval evs
  | None => Some []
  end.

(** ** What a line says *)

Section lines.
Context (procs : Z) (cfg : UDPConfig) (concurrent : Z).
Context (queue_ok : 0 <= SendQueueSize cfg) (workers_ok : 0 <= SendWorkers cfg).

(** The runtimes that a line reads: later and later states of one run. *)
Definition observed (seen : list udpRuntime) : Prop :=
  Forall (fun r => exists s, udp_reachable procs cfg concurrent s /\ rt s = r) seen.

(** The value of a field, by the system at the time of its read. *)
Definition field_sound (name : string) (v : Z) : Prop :=
  exists s, udp_reachable procs cfg concurrent s /\
    match name with
    | "active_associations" => v = len (opened s) - owing activeAssociations (owed s)
    | "queue_depth" =>
        v = queued (default [] (shards (rt s))) + len (received s) - owing queueDepth (owed s)
    | "queue_capacity" => v = SendQueueSize (normalizeUDPConfig cfg)
    | "batch_buffers_in_use" => v = slots_in_use s /\ v <= Z.max 0 (BatchBufferBudget cfg)
    | "batch_buffer_budget" => v = Z.max 0 (BatchBufferBudget cfg)
    | _ => True
    end%string.

Lemma batch_value s : udp_reachable procs cfg concurrent s ->
  from_option fst 0 (batchSlots (rt s)) = slots_in_use s /\ slots_in_use s <= Z.max 0 (BatchBufferBudget cfg) /\
  from_option snd 0 (batchSlots (rt s)) = Z.max 0 (BatchBufferBudget cfg).
Proof.
  intros Hr. destruct (udp_reachable_inv _ _ _ _ queue_ok workers_ok Hr) as ([_ _ Ht _ _] & _ & _ & Eb).
  fold (slots_in_use s) in Ht. cbv zeta in Ht.
  destruct (batchSlots (rt s)) as [[k c]|]; cbn in *; case_one_in Eb; simplify_eq; zbool; lia.
Qed.

Lemma field_read s f : udp_reachable procs cfg concurrent s -> f ∈ metrics_fields ->
  field_sound f.1 (metric_value f.2 (rt s)).
Proof.
  intros Hr Hf. exists s. split; [done|].
  destruct (udp_reachable_inv _ _ _ _ queue_ok workers_ok Hr) as ([_ Ha _ Hd _] & Ec & _ & _).
  destruct (batch_value s Hr) as (E1 & E2 & E3).
  unfold metrics_fields in Hf. repeat (apply elem_of_cons in Hf as [->|Hf]; [cbn; try done; try lia|]).
  - by rewrite Ec.
  - by apply elem_of_nil in Hf.
Qed.

(** Every line of [logMetrics], printed while the server goes on, names the same fields in
    the same order. Its gauges are those of the moment at which each was read, up to the
    adds that other goroutines were about to make then; the batch buffers in use never
    exceed the budget. *)
Theorem metrics_lines_sound (interval : Z) (evs : list log_event) (lines : list metrics_line) :
  Forall (fun e => match e with
    | Tick seen => length seen = length metrics_fields /\ observed seen
    | CtxDone => True end) evs ->
  logMetrics interval evs = Some lines ->
  Forall (fun line => line.*1 = metrics_fields.*1 /\ Forall (fun f => field_sound f.1 f.2) line) lines.
Proof.
  intros Hevs. unfold logMetrics. case_one; [done|]. intros [= <-].
  induction evs as [|[seen|] evs IH]; cbn [log_loop]; [done| |done].
  apply Forall_cons in Hevs as [[Hlen Ho] Hevs]. constructor; [|auto]. unfold log_line. split.
  - clear -Hlen. revert seen Hlen. induction metrics_fields as [|f l IH]; intros [|r seen] Hl; try done.
    cbn. f_equal. apply IH. cbn in Hl. lia.
  - apply Forall_forall. intros x Hx.
    apply list_elem_of_lookup in Hx as [i Hx]. rewrite lookup_zip_with in Hx.
    destruct (metrics_fields !! i) as [f|] eqn:Ef; [|done]. cbn in Hx.
    destruct (seen !! i) as [r|] eqn:Er; [|done]. cbn in Hx. injection Hx as <-. cbn [fst snd].
    unfold observed in Ho. rewrite Forall_lookup in Ho. destruct (Ho i r Er) as (s & Hs & <-).
    apply field_read; [done|]. by eapply list_elem_of_lookup_2.
Qed.

End lines.

(** The configuration of the witness runs: one association, a queue of one job. *)
Definition small_udp : UDPConfig := mkUDPConfig 1500 8 1 1 1 0 1 30 0 false false.

Lemma metrics_lines_sound_witness :
  let r0 := newUDPRuntime small_udp 1 in
  exists line, runtime_logs small_udp [Tick (replicate 20 r0); CtxDone] = Some [line] /\
    field_sound 4 small_udp 1 "queue_capacity" 1.
Proof.
  intros r0. eexists. split; [reflexivity|].
  pose proof (metrics_lines_sound 4 small_udp 1 ltac:(by_decide) ltac:(by_decide)
    (seconds 30) [Tick (replicate 20 r0); CtxDone] [log_line (replicate 20 r0)]) as H.
  assert (observed 4 small_udp 1 (replicate 20 r0)) as Hs.
  { apply Forall_replicate. exists (uinit small_udp 1). split; [apply rtc_refl|done]. }
  assert (Forall (fun line : metrics_line => line.*1 = metrics_fields.*1 /\
    Forall (fun f => field_sound 4 small_udp 1 f.1 f.2) line) [log_line (replicate 20 r0)]) as Hl.
  { apply H; [|reflexivity]. constructor; [split; [reflexivity|exact Hs]|]. by constructor. }
  apply Forall_cons in Hl as [[_ Hf] _].
  rewrite Forall_lookup in Hf. exact (Hf 8%nat ("queue_capacity"%string, 1) eq_refl).
Defined.

(** A gauge is added to after the channel operation it counts, so a line may say what no
    moment of the server was like: a queue of -1 jobs, when a worker took and counted a job
    before the goroutine that queued it had; and more associations than the limit. *)
Theorem gauges_stray :
  (exists s, udp_reachable 4 small_udp 1 s /\ metrics (rt s) queueDepth = -1) /\
  (exists s, udp_reachable 4 small_udp 1 s /\ association_limit small_udp 1 = 1 /\
     metrics (rt s) activeAssociations = 2).
Proof.
  pose (p := mkInbound [] [] 0 (DomainAddress [] 0) (AddrPortFrom AddrZero 0) false).
  pose (j := mkJob 1 p [] 0).
  split.
  - eexists. split.
    + eapply rtc_l; [apply u_read|].
      eapply rtc_l; [apply u_startOnce|].
      eapply rtc_l; [by eapply (u_dispatch _ _ j [])|].
      eapply rtc_l; [by eapply (u_recv _ _ 0 j)|].
      eapply rtc_l; [by eapply (u_send _ _ j [])|].
      eapply rtc_l; [by apply (u_add _ _ queueDepth (-1) [(queueDepth, 1)])|]. apply rtc_refl.
    + reflexivity.
  - eexists. split.
    + eapply rtc_l; [by eapply u_slot|]. eapply rtc_l; [by eapply u_begin|].
      eapply rtc_l; [by apply (u_add _ _ activeAssociations 1 [(totalAssociations, 1)])|].
      eapply rtc_l; [by eapply (u_end _ _ 1 [])|].
      eapply rtc_l; [by eapply u_slot|]. eapply rtc_l; [by eapply u_begin|].
      eapply rtc_l; [apply (u_add _ _ activeAssociations 1
        [(totalAssociations, 1); (activeAssociations, -1); (totalAssociations, 1)]); reflexivity|]. apply rtc_refl.
    + split; reflexivity.
Qed.

(** ** Durations *)

(** The largest number of seconds that a [time.Duration] holds. *)
Definition max_seconds : Z := 9223372036.

Lemma seconds_exact n : 0 <= n <= max_seconds -> seconds n = n * Second.
Proof.
  unfold max_seconds, seconds, int64, Second. intros H.
  rewrite (Z.mod_small (n + 2 ^ 63)) by lia. rewrite Z.mod_small by lia. lia.
Qed.

(** The largest number of seconds whose milliseconds fit in the C int of a socket option. *)
Definition max_user_seconds : Z := 2147483.

Lemma seconds_millis n : 0 <= n <= max_user_seconds -> int32 (Z.quot (seconds n) Millisecond) = n * 1000.
Proof.
  unfold max_user_seconds. intros H. rewrite seconds_exact by (unfold max_seconds; lia).
  replace (n * Second) with (n * 1000 * Millisecond) by (unfold Second, Millisecond; lia).
  rewrite Z.quot_mul by done. unfold int32. rewrite wrap_id by (unfold in_width; lia).
  by destruct (Z.ltb_spec (n * 1000) (2 ^ 31)); [|lia].
Qed.

(** What a dialed TCP socket on Linux is set to when the user timeout is [ms] milliseconds. *)
Definition user_timeout_set `{Kernel K} (a : BootArgs) (ms : Z) : Prop :=
  forall network iface (k : K),
  (network = str "tcp" \/ network = str "tcp4" \/ network = str "tcp6") ->
  let k1 := match ReuseAddr a with Some true => snd (setsockopt 1 2 1 k) | _ => k end in
  let k2 := snd (setsockopt 6 18 ms k1) in
  applySocketOptions_calls Linux network iface (Run_connector a) k =
  if eqs iface [] then (None, k2) else setsockopt_string 1 25 iface k2.

(** The association stays open exactly as long as its control loop with that idle timeout. *)
Definition idle_after (runtime : udpRuntime) (idle : Z) : Prop :=
  forall ev address connector s,
  match handleUDP ev address connector runtime s with
  | None => controlLoop idle (ev_control ev) = None
  | Some (e, _, l) => forall src, StartRelay src ∈ l -> controlLoop idle (ev_control ev) = Some e
  end.

(** C34: For accepted arguments with times of at most 292 years (2147483 seconds for the TCP
    user timeout), the timers that the code arms are exactly what was asked for. Every
    outbound dial and every server's client timeout has the connect timeout, which is
    positive; an association ends after the idle timeout, and never of it when that is zero;
    the metrics are logged at their interval or, when that is zero, not at all, and that
    goroutine does not panic; on Linux a dialed socket gets the user timeout in
    milliseconds. *)
Theorem timers_exact `{Kernel K} (a : BootArgs) (evs : list log_event) :
  Valid a -> 0 <= ConnectTimeout a <= max_seconds ->
  0 <= AssociationIdleTimeoutSecs (UDP a) <= max_seconds -> 0 <= MetricsIntervalSecs (UDP a) <= max_seconds ->
  (forall secs, TCPUserTimeout a = Some secs -> 0 <= secs <= max_user_seconds) ->
  (forall ext p, dl_Timeout (dialer (Connector_TCP (Run_connector a) ext) p) = ConnectTimeout a * Second) /\
  (forall os cos s l c, newProxyServer os cos (Proxy a) (Run_context a) = (Ok s, l, c) ->
     ps_timeout s = ConnectTimeout a * Second) /\
  0 < ConnectTimeout a * Second /\
  idle_after (newUDPRuntime (UDP a) (Concurrent a)) (AssociationIdleTimeoutSecs (UDP a) * Second) /\
  metrics_interval (UDP a) =
    (if MetricsIntervalSecs (UDP a) =? 0 then None else Some (MetricsIntervalSecs (UDP a) * Second)) /\
  is_Some (runtime_logs (UDP a) evs) /\
  (forall secs, TCPUserTimeout a = Some secs -> user_timeout_set (K := K) a (secs * 1000)).
Proof.
  intros Hv Hc Hi Hm Hu. pose proof (v_timeout a Hv).
  assert (metrics_interval (UDP a) =
    (if MetricsIntervalSecs (UDP a) =? 0 then None else Some (MetricsIntervalSecs (UDP a) * Second))) as Hmi.
  { unfold metrics_interval. destruct (Z.ltb_spec 0 (MetricsIntervalSecs (UDP a))),
      (Z.eqb_spec (MetricsIntervalSecs (UDP a)) 0); try lia; [|done]. by rewrite seconds_exact. }
  split_and!.
  - intros ext p. cbn. by apply seconds_exact.
  - intros os cos s l c E. apply newProxyServer_timeout in E as ->. by apply seconds_exact.
  - unfold Second. lia.
  - intros ev address connector s. rewrite <- (seconds_exact (AssociationIdleTimeoutSecs (UDP a))) by done.
    apply (handleUDP_idle ev address connector (newUDPRuntime (UDP a) (Concurrent a)) s).
  - exact Hmi.
  - unfold runtime_logs. rewrite Hmi. case_one; [by eexists|]. unfold logMetrics. zbool.
    destruct (Z.leb_spec (MetricsIntervalSecs (UDP a) * Second) 0); [unfold Second in *; lia|by eexists].
  - intros secs Hs network iface k Hn. unfold applySocketOptions_calls.
    change (cn_ReuseAddr (Run_connector a)) with (ReuseAddr a).
    change (cn_TCPUserTimeout (Run_connector a)) with (seconds <$> TCPUserTimeout a). rewrite Hs.
    cbn [fmap option_fmap option_map]. rewrite bool_decide_eq_true_2 by done.
    assert (eqs network (str "tcp") || eqs network (str "tcp4") || eqs network (str "tcp6") = true) as ->
      by (by destruct Hn as [-> | [-> | ->]]).
    unfold setTCPUserTimeout, setReuseAddr, bindToDevice, SetsockoptInt. rewrite seconds_millis by (by apply Hu).
    by destruct (eqs iface []).
Qed.

(** A kernel that records the calls. *)
#[local] Instance call_log : Kernel (list (Z * Z * Z)) := {|
  setsockopt := fun level opt v k => (None, k ++ [(level, opt, v)]);
  setsockopt_string := fun level opt _ k => (None, k ++ [(level, opt, 0)]);
  getsockopt := fun _ _ _ => Ok 0
|}.

(** The arguments of the defaults of the command line on Linux. *)
Lemma timers_exact_witness :
  exists a, buildBootArgs true demo_flags (str "auto") = Ok a /\ TCPUserTimeout a = Some 30 /\
    metrics_interval (UDP a) = Some (30 * Second) /\
    (forall p, dl_Timeout (dialer (Connector_TCP (Run_connector a) ext_None) p) = 10 * Second) /\
    applySocketOptions_calls Linux (str "tcp6") [] (Run_connector a) []
      = (None, [(1, 2, 1); (6, 18, 30000)]).
Proof.
  destruct (buildBootArgs true demo_flags (str "auto")) as [a|e] eqn:Ea; [|vm_compute in Ea; discriminate Ea].
  exists a. split; [reflexivity|].
  vm_compute in Ea. injection Ea as Ea.
  assert (Valid a) as Hv by (apply Validate_iff; subst a; vm_compute; reflexivity).
  destruct (timers_exact (K := list (Z * Z * Z)) a []) as (H1 & _ & _ & _ & H5 & _ & H7);
    [exact Hv|subst a; by_decide|subst a; by_decide|subst a; by_decide|subst a; intros secs [= <-]; by_decide|].
  subst a. split; [reflexivity|]. split; [exact H5|]. split; [intros p; exact (H1 ext_None p)|].
  exact (H7 30 eq_refl (str "tcp6") [] [] (or_intror (or_intror eq_refl))).
Defined.

(** Above that, [Validate] accepts times that wrap: a connect timeout of 2^55 seconds is a
    timeout of zero, which it means to refuse, and a metrics interval of 2^55 seconds
    crashes the server when its runtime is created. *)
Definition far_future : BootArgs :=
  let a := DefaultBootArgs in
  let u := UDP a in {|
  LogLevel := LogLevel a; Bind := Bind a; Concurrent := Concurrent a; Workers := Workers a; CIDR := CIDR a;
  CIDRRange := CIDRRange a; ba_Fallback := ba_Fallback a; ConnectTimeout := 2 ^ 55;
  TCPUserTimeout := TCPUserTimeout a; ReuseAddr := ReuseAddr a; MaxPendingDials := MaxPendingDials a;
  ReusePort := ReusePort a; Proxy := Proxy a;
  UDP := {| MaxPacketSize := MaxPacketSize u; BatchSize := BatchSize u; BatchBufferBudget := BatchBufferBudget u;
    SendQueueSize := SendQueueSize u; SendWorkers := SendWorkers u; SocketBufferBytes := SocketBufferBytes u;
    MaxAssociations := MaxAssociations u; MetricsIntervalSecs := 2 ^ 55;
    AssociationIdleTimeoutSecs := AssociationIdleTimeoutSecs u; GSO := GSO u; GRO := GRO u |}
|}.

Theorem durations_wrap :
  Validate far_future = Ok tt /\ cn_ConnectTimeout (Run_connector far_future) = 0 /\
  (forall evs, runtime_logs (UDP far_future) evs = None).
Proof. by split_and!. Qed.

(** A user timeout of 4294968 seconds, 49 days, is one of 704 milliseconds: the milliseconds
    do not fit in the option's C int. *)
Theorem user_timeout_wraps :
  int32 (Z.quot (seconds 4294968) Millisecond) = 704.
Proof. reflexivity. Qed.

(** ** Which logger, and at what level *)

(** A [slog] logger with a text handler, as its minimum level. *)
Definition LevelDebug : Z := -4.
Definition LevelInfo : Z := 0.
Definition Enabled (logger level : Z) : bool := logger <=? level.

(** The process's variables: the default logger of [slog], and [globalLogger] of the
    connector's package, nil until it is set. *)
Record loggers := mkLoggers { slog_Default : Z; globalLogger : option Z }.

Definition fallbackLogger : Z := LevelInfo.

Definition logger (l : loggers) : Z :=
  match globalLogger l with Some configured => configured | None => fallbackLogger end.

Definition debugEnabled (l : loggers) : bool := Enabled (logger l) LevelDebug.
Definition DebugEnabled (l : loggers) : bool := Enabled (slog_Default l) LevelDebug.
Definition SetLogger (n : Z) (l : loggers) : loggers := mkLoggers (slog_Default l) (Some n).
Definition SetDefault (n : Z) (l : loggers) : loggers := mkLoggers n (globalLogger l).

(** [slog]'s own default, before [Run]. *)
Definition initial_loggers : loggers := mkLoggers LevelInfo None.

Definition Run_loggers (a : BootArgs) (l : loggers) : loggers :=
  let level := parseSlogLevel (LogLevel a) in SetLogger level (SetDefault level l).

Lemma buildBootArgs_LogLevel linux f kind a :
  buildBootArgs linux f kind = Ok a -> LogLevel a = ParseLogLevel (flagLogLevel f).
Proof.
  unfold buildBootArgs. intros H.
  apply bind_Ok in H as (bind & _ & H). apply bind_Ok in H as ([cidr range] & _ & H).
  apply bind_Ok in H as (fallback & _ & H). apply bind_Ok in H as ([[k cert] key] & _ & H).
  by apply bind_Ok in H as ([] & _ & [= <-]).
Qed.

(** The level of the flag reaches both packages, whatever the case it is written in: the
    connector and the servers log at debug level exactly when "debug" or "trace" was asked
    for; a word that is no level, and everything before [Run], is "info". *)
Theorem log_levels_agree (linux : bool) (f : flags) (kind : bytes) (a : BootArgs) (l : loggers) :
  buildBootArgs linux f kind = Ok a ->
  let l' := Run_loggers a l in
  logger l' = slog_Default l' /\ debugEnabled l' = DebugEnabled l' /\
  (debugEnabled l' = true <->
   toLower (flagLogLevel f) = str "debug" \/ toLower (flagLogLevel f) = str "trace") /\
  (Enabled (logger l') LevelInfo = false <->
   toLower (flagLogLevel f) = str "warn" \/ toLower (flagLogLevel f) = str "error") /\
  debugEnabled initial_loggers = false /\ DebugEnabled initial_loggers = false.
Proof.
  intros Ha. cbn zeta. unfold Run_loggers. rewrite (buildBootArgs_LogLevel _ _ _ _ Ha). unfold ParseLogLevel.
  generalize (toLower (flagLogLevel f)) as w. intros w. unfold eqs.
  repeat case_bool_decide; subst; vm_compute; intuition (first [done | congruence]).
Qed.
