(* ===== verification/System.v ===== *)
(** * From the command line to a dial

    Puts the parts together: the flags ([Boot]), the server of the chosen kind with its
    handlers ([Servers], [SocksServer], [HttpProxy]) and the connector's choice of a source
    ([Connector], [SourceIP]). [NewAcceptor] and [WithLifetime] of
    [internal/server/socks/server.go] are here too, since they take the whole context of a
    server. *)

From Stdlib Require Import ZArith Lia.
From stdpp Require Import base tactics numbers list strings gmap sets relations.
From S2P Require Import Prelude.
From S2P Require Import Netip.
From S2P Require Import Proto.
From S2P Require Import Ext.
From S2P Require Import Uint128.
From S2P Require Import SourceIP.
From S2P Require Import Handshake.
From S2P Require Import Config.
From S2P Require Import UdpRuntime.
From S2P Require Import Serverbase.
From S2P Require Import Lifecycle.
From S2P Require Import Connector.
From S2P Require Import SocksServer.
From S2P Require Import HttpProxy.
From S2P Require Import HttpConn.
From S2P Require Import Servers.
From S2P Require Import Boot.

(** ** The acceptor *)





(** ** A connection, by the kind of the server *)



(** ** What a client asks for *)




(** ** Extensions are 64-bit *)












(** ** Who dials what *)


Section http.
Context (toASCII : bytes -> option bytes) (auth : AuthMode) (c : Connector).





End http.


(** ** Sources *)






