(* ===== verification/Platform.v ===== *)
(** * Other systems

    The build has a Linux path and stand-ins for the other systems. This file models the
    stand-ins ([udp_trunc_*.go], [udp_io_other.go], [udp_gso_other.go],
    [udp_reactor_other.go], [copy_other.go], [daemon_other.go]), the small functions around
    a UDP socket's address ([udp_io.go], [udpSocketIsV4], [writeUDPResponse]) and the detached start of [daemon_unix.go], and
    shows that what a client sees is the same on every system. *)

From Stdlib Require Import ZArith Lia.
From stdpp Require Import base tactics numbers strings sets list.
From S2P Require Import Prelude.
From S2P Require Import Netip.
From S2P Require Import Config.
From S2P Require Import UdpRuntime.
From S2P Require Import UdpRelay.
From S2P Require Import UdpIo.
From S2P Require Import Reactor.
From S2P Require Import Daemon.
From S2P Require Import Sockopts.

(** ** Truncation *)

Definition MSG_TRUNC : Z := 0x20.
Definition WSAEMSGSIZE : error := Errno 10040.

(** [udp_trunc_unix.go] is for Unix without Linux, [udp_trunc_windows.go] for Windows,
    [udp_trunc_nonunix.go] for the rest. *)
Definition udpMessageTruncated (p : platform) (flags : Z) : bool :=
  match p with
  | Linux | OtherUnix => negb (Z.land flags MSG_TRUNC =? 0)
  | Windows | OtherOS => false
  end.

Definition udpReadErrorTruncated (p : platform) (err : option error) : bool :=
  match p, err with
  | Windows, Some err => errors_Is err WSAEMSGSIZE
  | _, _ => false
  end.

(** What [ReadMsgUDP] into [size] bytes reports of a datagram of [n] bytes: Unix sets a
    flag, Windows returns an error, and others may say nothing. *)
Definition read_flags (p : platform) (size n : Z) : Z :=
  match p with
  | Linux | OtherUnix => if size <? n then MSG_TRUNC else 0
  | Windows | OtherOS => 0
  end.
Definition read_error (p : platform) (size n : Z) : option error :=
  match p with Windows => if size <? n then Some WSAEMSGSIZE else None | _ => None end.

(** [genericUDPBatchReader.Read] of datagram [d]; [from] is the sender that [ReadMsgUDP]
    returns. *)
Definition generic_reader_Read (p : platform) (offset limit : Z) (from : option AddrPort) (d : datagram)
    (rt : udpRuntime) : result (list udpReadPacket) :=
  let size := limit + 1 in
  let err := read_error p size (len (dg_data d)) in
  generic_Read offset limit err from (udpReadErrorTruncated p err)
    (udpMessageTruncated p (read_flags p size (len (dg_data d)))) d rt.

(** [ReadMsgUDP] gives the sender of the datagram when it does not fail; what it gives
    together with an error is not documented. *)
Definition sender_known (p : platform) (limit : Z) (from : option AddrPort) (d : datagram) : Prop :=
  read_error p (limit + 1) (len (dg_data d)) = None -> from = Some (dg_addr d).

Lemma len_take_min {A} (n : Z) (l : list A) : 0 <= n -> len (take (Z.to_nat n) l) = Z.min n (len l).
Proof. intros. unfold len. rewrite length_take. lia. Qed.

(** The packet with another sender. *)
Definition set_addr (addr : AddrPort) (p : udpReadPacket) : udpReadPacket :=
  mkRead (rp_buffer p) (rp_n p) addr (rp_truncated p) (rp_batchSlot p).

(** The generic reader, on every system, gives the packet that the batch reader of Linux
    gives for the same datagram, but for the sender of one that is too long. *)
Lemma generic_Read_packet (p : platform) (offset limit : Z) (gro off : bool) (from : option AddrPort) (d : datagram)
    (rt : udpRuntime) :
  0 <= limit -> sender_known p limit from d ->
  let packet := read_packet rt (mkReader offset limit gro off) false d in
  exists addr, generic_reader_Read p offset limit from d rt = Ok [set_addr addr packet] /\
    (rp_truncated packet = false -> addr = dg_addr d).
Proof.
  intros Hl Hf packet. exists (match from with Some addr => addr | None => AddrPortZero end).
  unfold sender_known in Hf. subst packet.
  unfold generic_reader_Read, generic_Read, read_packet, recvmsg, read_error, set_addr in *.
  cbn [rd_limit rd_offset rp_buffer rp_n rp_truncated rp_batchSlot] in *.
  rewrite !len_take_min by lia. destruct p; unfold udpReadErrorTruncated, udpMessageTruncated, read_flags;
    destruct (Z.ltb_spec (limit + 1) (len (dg_data d))) as [H|H]; cbn; rewrite ?Hf by done;
    rewrite ?(proj2 (Z.ltb_lt limit _)) by lia; done.
Qed.

(** A datagram that is too long is dropped whoever sent it, in both directions. *)
Lemma truncated_sender addr p a y c r : rp_truncated p = true ->
  pumpPacket a (set_addr addr p) y = pumpPacket a p y /\ respondPacket c (set_addr addr p) r = respondPacket c p r.
Proof. intros H. unfold pumpPacket, respondPacket. cbn [rp_truncated rp_batchSlot set_addr]. by rewrite H. Qed.

(** ** Sending *)

(** A writer for a socket: which family its messages have. [To4] is non-nil for an IPv4
    address and for one mapped into IPv6. *)
Definition To4 (ip : Addr) : bool := Is4 (Unmap ip).

Definition udpSocketIsV4 (local : option AddrPort) : bool :=
  match local with Some ap => To4 (ap_Addr ap) | None => false end.

Inductive batchWriter := WriterV4 (batchSize : Z) | WriterV6 (batchSize : Z) | GenericWriter.

Definition newUDPBatchWriter (p : platform) (local : AddrPort) (batchSize : Z) : batchWriter :=
  match p with
  | Linux => if To4 (ap_Addr local) then WriterV4 batchSize else WriterV6 batchSize
  | _ => GenericWriter
  end.

(** How many of the packets [i], [i + 1], ... of [m] the system takes before one fails;
    [fail i] is the error of packet [i]. *)
Fixpoint sendable (fail : nat -> option error) (i m : nat) : nat :=
  match m with
  | O => O
  | S m => match fail i with Some _ => O | None => S (sendable fail (S i) m) end
  end.

(** [WriteBatch], that is sendmmsg(2), of the last [length ms] of [total] packets: it stops
    before the first that fails, and reports the error (with a count of -1) only when that is
    the first one. *)
Definition sendmmsg (fail : nat -> option error) (total : nat) (k : nat) (ms : list message) : Z * option error :=
  let i := (total - length ms)%nat in
  match fail i with
  | Some e => (-1, Some e)
  | None => (Z.of_nat (sendable fail i (length ms)), None)
  end.

(** [Write]: the count, the error and what was sent. *)
Definition batchWriter_Write (w : batchWriter) (fail : nat -> option error) (packets : list udpWritePacket)
    : result (option (Z * option error * list message)) :=
  match w with
  | WriterV4 n | WriterV6 n => batch_Write n (sendmmsg fail (length packets)) packets
  | GenericWriter => Ok (Some (generic_Write 0 fail packets))
  end.

(** What both send: the packets before the first that fails, and its error. *)
Definition sent_messages (fail : nat -> option error) (packets : list udpWritePacket) : list message :=
  (fun p => mkMessage (wp_buffer p) (setUDPAddr (wp_addr p))) <$> take (sendable fail 0 (length packets)) packets.
Definition send_error (fail : nat -> option error) (packets : list udpWritePacket) : option error :=
  let n := sendable fail 0 (length packets) in if (n <? length packets)%nat then fail n else None.

Lemma sendable_spec fail m : forall i,
  (sendable fail i m <= m)%nat /\ ((sendable fail i m < m)%nat -> is_Some (fail (i + sendable fail i m)%nat)).
Proof.
  induction m as [|m IH]; intros i; cbn; [split; lia|]. destruct (fail i) as [e|] eqn:E.
  - split; [lia|]. rewrite Nat.add_0_r. by eexists.
  - destruct (IH (S i)) as [H1 H2]. split; [lia|]. intros H.
    replace (i + S (sendable fail (S i) m))%nat with (S i + sendable fail (S i) m)%nat by lia. apply H2. lia.
Qed.

Lemma generic_Write_sent fail packets : forall k,
  let n := sendable fail k (length packets) in
  generic_Write k fail packets =
  (Z.of_nat (k + n), (if (n <? length packets)%nat then fail (k + n)%nat else None),
   (fun p => mkMessage (wp_buffer p) (setUDPAddr (wp_addr p))) <$> take n packets).
Proof.
  induction packets as [|p packets IH]; intros k; cbn [generic_Write sendable length].
  - cbn. by rewrite Nat.add_0_r.
  - destruct (fail k) as [e|] eqn:E; cbn [sendable Nat.ltb Nat.leb take fmap list_fmap].
    + by rewrite Nat.add_0_r, E.
    + rewrite IH. cbn zeta. by rewrite Nat.add_succ_r.
Qed.

(** The loop of the batch writer over [ms], from its start. *)
Lemma writeMessages_sent fail (ms : list message) : ms <> [] ->
  let n := sendable fail 0 (length ms) in
  writeMessages (S (length ms)) 0 (sendmmsg fail (length ms)) ms 0 [] =
  Some ((if (n <? length ms)%nat then Z.of_nat n - 1 else Z.of_nat n),
        (if (n <? length ms)%nat then fail n else None), take n ms).
Proof.
  intros Hne n. destruct (sendable_spec fail (length ms) 0) as [Hn He]. fold n in Hn, He. cbn [Nat.add] in He.
  assert (forall f k total out, (total < length ms)%nat -> writeMessages (S f) k (sendmmsg fail (length ms)) ms (Z.of_nat total) out =
    match fail total with
    | Some e => Some (Z.of_nat total - 1, Some e, out)
    | None => writeMessages f (S k) (sendmmsg fail (length ms)) ms (Z.of_nat (total + sendable fail total (length ms - total)))
                (out ++ take (sendable fail total (length ms - total)) (drop total ms))
    end) as Hstep.
  { intros f k total out Ht. cbn [writeMessages]. destruct (Z.ltb_spec (Z.of_nat total) (len ms)); [|unfold len in *; lia].
    unfold sendmmsg at 1 2. unfold slice_from. rewrite Nat2Z.id, length_drop.
    replace (length ms - (length ms - total))%nat with total by lia.
    destruct (fail total) as [e|] eqn:E.
    - unfold slice. cbn. rewrite app_nil_r. f_equal.
    - assert (length ms - total = S (length ms - S total))%nat as Hs by lia.
      destruct (Z.eqb_spec (Z.of_nat (sendable fail total (length ms - total))) 0) as [Hz|_].
      { exfalso. rewrite Hs in Hz. cbn in Hz. rewrite E in Hz. lia. }
      unfold slice. rewrite drop_0, Z.sub_0_r, Nat2Z.id, <- Nat2Z.inj_add. done. }
  assert (0 < length ms)%nat as Hpos by (destruct ms; [done|cbn; lia]).
  rewrite (Hstep _ _ 0%nat) by done. cbn [Nat.add app]. rewrite drop_0, Nat.sub_0_r. fold n.
  destruct (fail 0%nat) as [e|] eqn:E0.
  - assert (n = 0)%nat as -> by (unfold n; destruct (length ms); cbn; [done|by rewrite E0]).
    rewrite (proj2 (Nat.ltb_lt 0 _)) by done. by rewrite E0.
  - destruct (length ms) as [|m] eqn:Em; [lia|]. destruct (Nat.ltb_spec n (S m)) as [Hlt|Hge].
    + destruct m as [|m]; [exfalso; unfold n in *; cbn in *; rewrite E0 in *; cbn in *; lia|].
      rewrite (Hstep _ _ n) by lia. destruct (He Hlt) as [e Hfe]. by rewrite Hfe.
    + assert (n = S m) as -> by lia. cbn [writeMessages].
      rewrite (proj2 (Z.ltb_ge _ _)) by (unfold len; lia). done.
Qed.

Lemma batch_Write_sent n fail packets : len packets <= n ->
  let m := sendable fail 0 (length packets) in
  batch_Write n (sendmmsg fail (length packets)) packets =
  Ok (Some ((if (m <? length packets)%nat then Z.of_nat m - 1 else Z.of_nat m),
            send_error fail packets, sent_messages fail packets)).
Proof.
  intros Hn m. unfold batch_Write, send_error, sent_messages. fold m.
  destruct (Z.eqb_spec (len packets) 0) as [E|E].
  { apply (len_eq _ 0), nil_length_inv in E. by subst packets. }
  destruct (Z.ltb_spec n (len packets)); [lia|].
  set (ms := _ <$> packets). assert (length ms = length packets) as El by (unfold ms; by rewrite length_fmap).
  rewrite <- El. rewrite writeMessages_sent by (intros E2; rewrite E2 in El; unfold len in E; cbn in El; lia).
  rewrite El. fold m. by rewrite fmap_take.
Qed.

(** [writeUDPResponse]: one response on its own. *)
Definition writeUDPResponse (buffer payload : bytes) (remote clientAddr : AddrPort) (werr : option error)
    : result (option error * udpWritePacket) :=
  match prepareUDPResponse buffer payload remote with
  | Err e => Err e
  | Ok (buffer, packet) => Ok (werr, mkWrite packet buffer clientAddr false)
  end.

(** C36: The UDP path is the same on every system. For one datagram the reader of other
    systems returns the packet that the batch reader of Linux returns, marked truncated
    exactly when the datagram is longer than the limit, whether the system reports that by a
    flag, by an error or not at all; only its sender may be unknown (zero) when it was
    reported by an error, and then the relay drops it in both directions just as it would the
    other. Both kinds of writers send the same messages, those before the first that fails, in
    order, with the same error; the count is theirs, except that the batch writer counts one
    less when it reports an error. *)
Theorem udp_path_portable (p : platform) (offset limit batchSize : Z) (from : option AddrPort) (d : datagram)
    (rt : udpRuntime) (local : AddrPort) (fail : nat -> option error) (packets : list udpWritePacket) :
  0 <= limit -> len packets <= batchSize -> sender_known p limit from d ->
  let linux := read_packet rt (mkReader offset limit false false) false d in
  (exists packet, generic_reader_Read p offset limit from d rt = Ok [packet] /\
     (rp_truncated linux = false -> packet = linux) /\
     (forall addr y, pumpPacket addr packet y = pumpPacket addr linux y) /\
     (forall c r, respondPacket c packet r = respondPacket c linux r)) /\
  rp_truncated linux = (limit <? len (dg_data d)) /\
  (exists count, batchWriter_Write (newUDPBatchWriter p local batchSize) fail packets =
     Ok (Some (count, send_error fail packets, sent_messages fail packets)) /\
     count = len (sent_messages fail packets) - (if bool_decide (p = Linux /\ send_error fail packets <> None) then 1 else 0)) /\
  (p = Linux -> newUDPBatchWriter p local batchSize =
     (if udpSocketIsV4 (Some local) then WriterV4 batchSize else WriterV6 batchSize)).
Proof.
  intros Hl Hb Hf linux. split_and!.
  - destruct (generic_Read_packet p offset limit false false from d rt Hl Hf) as (addr & E & Ha). fold linux in E, Ha.
    exists (set_addr addr linux). destruct (rp_truncated linux) eqn:Et.
    + split; [done|]. split; [done|].
      split; [intros a y; by apply (truncated_sender addr linux a y AddrPortZero rt)
             |intros c r; by apply (truncated_sender addr linux demo_assoc demo_relay c r)].
    + rewrite Ha in * by done. assert (set_addr (dg_addr d) linux = linux) as -> by done. done.
  - unfold linux, read_packet, recvmsg. cbn [rp_truncated rd_limit]. rewrite len_take_min by lia.
    destruct (Z.ltb_spec (limit + 1) (len (dg_data d))), (Z.ltb_spec limit (len (dg_data d))); cbn; try lia;
      rewrite ?(proj2 (Z.ltb_lt _ _)), ?(proj2 (Z.ltb_ge _ _)) by lia; done.
  - destruct (sendable_spec fail (length packets) 0) as [Hn He]. cbn [Nat.add] in He.
    assert (len (sent_messages fail packets) = Z.of_nat (sendable fail 0 (length packets))) as Hlen
      by (unfold sent_messages, len; rewrite length_fmap, length_take; lia).
    assert (send_error fail packets <> None <-> (sendable fail 0 (length packets) < length packets)%nat) as Hse.
    { unfold send_error. destruct (Nat.ltb_spec (sendable fail 0 (length packets)) (length packets)) as [Hlt|]; [|split; [done|lia]].
      destruct (He Hlt) as [e ->]. done. }
    unfold newUDPBatchWriter, batchWriter_Write. rewrite Hlen.
    assert (generic_Write 0 fail packets = (Z.of_nat (sendable fail 0 (length packets)), send_error fail packets, sent_messages fail packets)) as Hg
      by apply generic_Write_sent.
    destruct p.
    + eexists. split; [destruct (To4 _); by apply batch_Write_sent|]. cbn zeta.
      destruct (Nat.ltb_spec (sendable fail 0 (length packets)) (length packets)).
      * rewrite bool_decide_eq_true_2; [done|]. split; [done|]. by apply Hse.
      * rewrite bool_decide_eq_false_2; [lia|]. intros [_ Hx%Hse]. lia.
    + rewrite Hg. eexists. split; [reflexivity|]. rewrite bool_decide_eq_false_2 by naive_solver. lia.
    + rewrite Hg. eexists. split; [reflexivity|]. rewrite bool_decide_eq_false_2 by naive_solver. lia.
    + rewrite Hg. eexists. split; [reflexivity|]. rewrite bool_decide_eq_false_2 by naive_solver. lia.
  - by intros ->.
Qed.

(** A datagram that is too long, of which Windows does not give the sender, and a batch whose
    second packet fails. *)
Lemma udp_path_portable_witness :
  let d := mkDatagram [1; 2; 3; 4] (AddrPortFrom (Addr4 0x01020304) 53) in
  let w b := mkWrite [b] [b] (AddrPortFrom (Addr4 0x01020304) 53) false in
  let fail k := if (k =? 1)%nat then Some EMSGSIZE else None in
  (exists packet, generic_reader_Read Windows 0 2 None d (newUDPRuntime demo_udp 1) = Ok [packet] /\
     rp_addr packet = AddrPortZero /\
     forall addr y, pumpPacket addr packet y =
       pumpPacket addr (read_packet (newUDPRuntime demo_udp 1) (mkReader 0 2 false false) false d) y) /\
  (exists count, batchWriter_Write (newUDPBatchWriter Windows AddrPortZero 8) fail [w 1; w 2; w 3] =
     Ok (Some (count, Some EMSGSIZE, [mkMessage [1] (setUDPAddr (wp_addr (w 1)))])) /\ count = 1).
Proof.
  intros d w fail.
  destruct (udp_path_portable Windows 0 2 8 None d (newUDPRuntime demo_udp 1) AddrPortZero fail [w 1; w 2; w 3])
    as ((packet & H1 & _ & H2 & _) & _ & (count & H3 & H4) & _); [lia|by_decide|intros E; discriminate E|].
  split.
  - exists packet. split; [exact H1|]. split; [|exact H2]. vm_compute in H1. injection H1 as <-. reflexivity.
  - exists count. split; [exact H3|]. rewrite H4. reflexivity.
Defined.

(** ** Segmentation offload and the reactor *)

(** [udpGSOSupported] and [newUDPReactor]; on Linux the kernel decides. *)
Definition udpGSOSupported (p : platform) (probe : bool) : bool := match p with Linux => probe | _ => false end.
Definition sendUDPGSO_other : Z * option error := (0, Some (Errorf "UDP GSO is only supported on Linux" [])).
Definition newUDPReactor_error (p : platform) (epoll : option error) : option error :=
  match p with Linux => epoll | _ => Some (Errorf "udp reactor requires Linux epoll" []) end.

(** Elsewhere no batch is sent by [sendUDPGSO] and no association gets a reactor, so that
    the functions that only report an error are never called. *)
Theorem stubs_never_called (p : platform) (gso probe : bool) (batch : list udpWritePacket)
    (gomaxprocs : Z) (epoll : option error) :
  p <> Linux ->
  gsoEligible (gso && udpGSOSupported p probe) batch = None /\
  (sharedReactor gomaxprocs (newUDPReactor_error p epoll) (mkShared false None)).1 = None.
Proof.
  intros Hp. destruct p; [done|..]; cbn; rewrite andb_false_r; split; try done; by destruct batch.
Qed.

(** ** Copying *)

(** [copyStream]: [io.Copy] hands the transfer to the system on Linux; elsewhere
    [io.CopyBuffer] reads pieces of at most 24 KiB. The pieces that are written. *)
Definition userspaceCopyBufferSize : Z := 24 * 1024.
Fixpoint copy_pieces (fuel : nat) (size : nat) (data : bytes) : list bytes :=
  match fuel, data with
  | O, _ | _, [] => []
  | S fuel, _ => take size data :: copy_pieces fuel size (drop size data)
  end.
Definition copyStream (p : platform) (data : bytes) : list bytes :=
  match p with
  | Linux => match data with [] => [] | _ => [data] end
  | _ => copy_pieces (length data) (Z.to_nat userspaceCopyBufferSize) data
  end.

Lemma copy_pieces_concat fuel size data : (0 < size)%nat -> (length data <= fuel)%nat ->
  concat (copy_pieces fuel size data) = data.
Proof.
  intros Hs. revert data. induction fuel as [|fuel IH]; intros data Hf; [by destruct data; cbn in *; [|lia]|].
  destruct data as [|x data]; [done|]. cbn [copy_pieces concat].
  rewrite IH; [apply take_drop|]. rewrite length_drop. cbn in *. lia.
Qed.

(** What is copied does not depend on the system, and a piece fits the pooled buffer. *)
Theorem copyStream_portable (p : platform) (data : bytes) :
  concat (copyStream p data) = data /\
  (p <> Linux -> Forall (fun piece => len piece <= userspaceCopyBufferSize) (copyStream p data)).
Proof.
  assert (forall n d, Forall (fun piece => len piece <= userspaceCopyBufferSize)
    (copy_pieces n (Z.to_nat userspaceCopyBufferSize) d)) as Hb.
  { induction n as [|n IH]; intros d; [constructor|]. destruct d as [|x d]; [constructor|]. cbn [copy_pieces].
    constructor; [|apply IH]. unfold len. rewrite length_take. unfold userspaceCopyBufferSize. lia. }
  split; [|intros Hp; destruct p; [done|..]; apply Hb].
  destruct p; [cbn; destruct data; cbn; by rewrite ?app_nil_r|..];
    apply copy_pieces_concat; by unfold userspaceCopyBufferSize; lia.
Qed.

(** ** The daemon *)

(** [requireRoot] on Unix: the exit code for another user. *)
Definition requireRoot (euid : Z) : option Z := if negb (euid =? 0) then Some (-1) else None.

(** The process [startDetached] starts: its program, arguments, output files, and whether
    it leads a session of its own. *)
Record process := mkProcess {
  pr_exe : bytes;
  pr_args : list bytes;
  pr_stdout : bytes;
  pr_stderr : bytes;
  pr_Setsid : bool
}.

(** [exe] is what [os.Executable] gives, [cmdStart] the child's number or the error of
    [cmd.Start]. *)
Definition startDetached (exe : result bytes) (cmdStart : result Z) (runArgs : list bytes) (stdout stderr : bytes)
    : result Z * option process :=
  match exe with
  | Err err => (Err (Wrap "get executable path: %w" err), None)
  | Ok exe =>
      match cmdStart with
      | Err err => (Err (Wrap "start daemon: %w" err), None)
      | Ok pid => (Ok pid, Some (mkProcess exe runArgs stdout stderr true))
      end
  end.

Definition defaultPIDPath : bytes := str "/var/run/outway.pid".
Definition defaultStdoutPath : bytes := str "/var/run/outway.out".
Definition defaultStderrPath : bytes := str "/var/run/outway.err".

(** [Daemon.Start] takes these two answers from a kernel: here they are computed. *)
Definition unix_kernel (k : kernel) (euid : Z) (exe : result bytes) (cmdStart : result Z) (runArgs : list bytes)
    : kernel :=
  mkKernelD (k_linux k) (match requireRoot euid with None => true | Some _ => false end) (k_kill0 k) (k_comm k)
    (k_readPid k) (k_openStdout k) (k_openStderr k)
    (startDetached exe cmdStart runArgs defaultStdoutPath defaultStderrPath).1
    (k_writePid k) (k_childErr k) (k_polls k) (k_signal k) (k_afterSignal k) (k_remove k).

Lemma Start_spawns k args f o f' l : Start k args f = (o, f', l) -> Spawn args ∈ l ->
  k_root k = true /\ exists pid, k_startDetached k = Ok pid.
Proof.
  unfold Start. destruct (PID k f) as [r f0]. repeat case_one; intros [= <- <- <-] Hin; try set_solver;
    (split; [by apply negb_false_iff|eauto]).
Qed.

(** The daemon is only ever started by root, and it is this very executable with the
    arguments of the run command, detached in a session of its own, with its output in the
    daemon's files. *)
Theorem daemon_child (k : kernel) (euid : Z) (exe : result bytes) (cmdStart : result Z) (runArgs : list bytes)
    (f f' : Files) (o : outcome) (l : list daemon_action) :
  Start (unix_kernel k euid exe cmdStart runArgs) runArgs f = (o, f', l) -> Spawn runArgs ∈ l ->
  euid = 0 /\ exists path pid, exe = Ok path /\ cmdStart = Ok pid /\
    startDetached exe cmdStart runArgs defaultStdoutPath defaultStderrPath =
      (Ok pid, Some (mkProcess path runArgs defaultStdoutPath defaultStderrPath true)).
Proof.
  intros Hs Hin. destruct (Start_spawns _ _ _ _ _ _ Hs Hin) as [Hr [pid Hp]]. cbn in Hr, Hp.
  unfold requireRoot in Hr. unfold startDetached in *. split.
  - destruct (Z.eqb_spec euid 0); [done|]. done.
  - destruct exe as [path|]; [|done]. destruct cmdStart as [pid'|]; [|done]. cbn in Hp. injection Hp as ->.
    by exists path, pid.
Qed.

(** [daemon_other.go]: no process is found, started or signalled. *)
Definition PID_other : result Z := Ok 0.
Definition requireRoot_other : option error := None.
Definition startDetached_other : result Z :=
  Err (Errorf "daemon mode is only supported on Unix platforms" []).
Definition stopProcess_other (pid : Z) : list daemon_action := [].
Definition printProcessStatus_other (pid : Z) : option error := None.

(** [Daemon.Start] and [Daemon.Stop] over these. *)
Definition Start_other (k : kernel) (runArgs : list bytes) (f : Files) : outcome * Files * list daemon_action :=
  if negb (pid_of PID_other =? 0) then (Return None, f, [Printed (str "already running")])
  else
    match requireRoot_other with
    | Some err => (Return (Some err), f, [])
    | None =>
        match k_openStdout k with
        | Some err => (Return (Some (Wrap "create stdout file: %w" err)), f, [])
        | None =>
            let f := mkFiles (pidFile f) (Some []) (stderrFile f) in
            match k_openStderr k with
            | Some err => (Return (Some (Wrap "create stderr file: %w" err)), f, [])
            | None =>
                let f := mkFiles (pidFile f) (stdoutFile f) (Some []) in
                match startDetached_other with
                | Err _ => (Exit (-1), f, [])
                | Ok pid => (Return None, f, [Spawn runArgs])
                end
            end
        end
    end.

Definition Stop_other (k : kernel) (f : Files) : outcome * Files * list daemon_action :=
  match requireRoot_other with
  | Some err => (Return (Some err), f, [])
  | None =>
      let pid := pid_of PID_other in
      let acts := if negb (pid =? 0) then stopProcess_other pid else [] in
      (Return None, match k_remove k with Some _ => f | None => set_pid None f end, acts)
  end.

(** Elsewhere than on Unix no command starts or signals a process, and a start does not
    claim success. *)
Theorem daemon_other_inert (k : kernel) (runArgs : list bytes) (f : Files) :
  (Start_other k runArgs f).1.1 <> Return None /\ (Start_other k runArgs f).2 = [] /\
  pidFile (Start_other k runArgs f).1.2 = pidFile f /\ (Stop_other k f).2 = [].
Proof. unfold Start_other, Stop_other. cbn. by destruct (k_openStdout k), (k_openStderr k). Qed.
