(* ===== verification/Commands.v ===== *)
(** * The commands ([main.go])

    Models the command tree that [main] registers and what each command executes:
    running a server, the daemon's commands, and the program's own update. Finding
    the registered command on the command line and parsing its flags is the
    command-line library's. *)

From Stdlib Require Import ZArith Lia.
From stdpp Require Import base tactics numbers strings sets gmap list.
From S2P Require Import Prelude.
From S2P Require Import Netip.
From S2P Require Import Config.
From S2P Require Import Boot.
From S2P Require Import Daemon.
From S2P Require Import Oneself.

(** ** The tree *)

(** The [RunE] functions of [main]. *)
Inductive exec := ExecRun | ExecStart | ExecRestart | ExecStop | ExecPS | ExecLog | ExecSelfUpdate | ExecSelfUninstall.

#[export] Instance exec_eq_dec : EqDecision exec.
Proof. solve_decision. Defined.

(** A registered command: its path below the root, whether it takes the
    credential and TLS flags, and what it executes. *)
Record command := mkCommand { cmd_path : list bytes; cmd_auth : bool; cmd_tls : bool; cmd_exec : exec }.

Definition newProxyCommand (use : bytes) (e : exec) : list command :=
  [mkCommand [use; str "http"] true false e; mkCommand [use; str "https"] true true e;
   mkCommand [use; str "socks5"] true false e; mkCommand [use; str "auto"] true true e].

Definition plain (path : list bytes) (e : exec) : command := mkCommand path false false e.

Definition commands (goos : bytes) : list command :=
  newProxyCommand (str "run") ExecRun ++
  (if negb (eqs goos (str "windows")) then
     newProxyCommand (str "start") ExecStart ++ newProxyCommand (str "restart") ExecRestart ++
     [plain [str "stop"] ExecStop; plain [str "ps"] ExecPS; plain [str "log"] ExecLog]
   else []) ++
  [plain [str "self"; str "update"] ExecSelfUpdate; plain [str "self"; str "uninstall"] ExecSelfUninstall].

(** ** Execution *)

(** The answers of the system to a command: for a server, for the daemon's
    commands (twice for a restart), and for the program's own files. *)
Record world := mkWorld {
  w_run : run_os;
  w_kernel : kernel;
  w_kernel_later : kernel;
  w_proc : result bytes * result bytes * result bytes;   (* stat, uptime, status *)
  w_logs : result (option bytes) * result (option bytes);
  w_update : update_os;
  w_removeErr : option error
}.

(** What a command changed: the pid and log files, the files of the installation,
    and the actions it took. *)
Inductive did :=
  | DidRun (l : list run_action)
  | DidDaemon (l : list daemon_action) (f : Files)
  | DidPrint (l : list bytes)
  | DidStatus (r : option (Z * Z * Z * Z)) (f : Files)
  | DidUpdate (states : list fs)
  | DidUninstall (f : fs)
  | Nothing.

Definition execStart (w : world) (f : flags) (path osArgs : list bytes) (files : Files) : outcome * did :=
  match buildBootArgs (ru_linux (w_run w)) f (proxyNameFromArgs path) with
  | Err err => (Return (Some err), Nothing)
  | Ok _ =>
      let '(o, files, l) := Start (w_kernel w) (buildRunArgsFromOSArgs osArgs) files in (o, DidDaemon l files)
  end.

Definition execRestart (w : world) (f : flags) (path osArgs : list bytes) (files : Files) : outcome * did :=
  match buildBootArgs (ru_linux (w_run w)) f (proxyNameFromArgs path) with
  | Err err => (Return (Some err), Nothing)
  | Ok _ =>
      let '(o, files, l) := Restart (w_kernel w) (w_kernel_later w) (buildRunArgsFromOSArgs osArgs) files in
      (o, DidDaemon l files)
  end.

Definition execute (w : world) (f : flags) (osArgs : list bytes) (files : Files) (disk : fs) (c : command)
    : outcome * did :=
  let path := str "outway" :: cmd_path c in
  match cmd_exec c with
  | ExecRun => let '(err, l) := execRun (w_run w) f path in (Return err, DidRun l)
  | ExecStart => execStart w f path osArgs files
  | ExecRestart => execRestart w f path osArgs files
  | ExecStop => let '(o, files, l) := Stop (w_kernel w) files in (o, DidDaemon l files)
  | ExecPS =>
      let '(stat, uptime, status) := w_proc w in
      let '(err, files, r) := Status (w_kernel w) files stat uptime status in (Return err, DidStatus r files)
  | ExecLog => let '(err, l) := Log (w_logs w).1 (w_logs w).2 in (Return err, DidPrint l)
  | ExecSelfUpdate => let '(err, states) := Update (w_update w) disk in (Return err, DidUpdate states)
  | ExecSelfUninstall =>
      let '(err, disk) := Uninstall (uo_Executable (w_update w)) (w_removeErr w) disk in (Return err, DidUninstall disk)
  end.

(** The exit code of [main]. *)
Definition exit_code (o : outcome) : Z :=
  match o with Return None => 0 | Return (Some _) => 1 | Exit code => code end.

(** ** Properties *)

(** The daemon's commands start only the command line they were given. *)
Lemma PID_Start_actions k runArgs f a :
  a ∈ (Start k runArgs f).2 -> a = Spawn runArgs \/ exists line, a = Printed line.
Proof. unfold Start. intros H. repeat case_one_in H; cbn in H; set_unfold in H; naive_solver. Qed.

Lemma stopProcess_actions k pid n : forall i a, a ∈ stopProcess k pid i n -> a = SIGINT pid.
Proof.
  induction n as [|n IH]; intros i a; cbn [stopProcess]; [set_solver|].
  repeat case_one; set_unfold; naive_solver.
Qed.

Lemma Stop_actions k f a : a ∈ (Stop k f).2 -> exists pid, a = SIGINT pid.
Proof.
  unfold Stop. destruct (negb (k_root k)); [by intros ?%not_elem_of_nil|].
  destruct (PID k f) as [r f1]. cbn [snd].
  destruct (negb (pid_of r =? 0)); [|by intros ?%not_elem_of_nil]. intros H%stopProcess_actions. eauto.
Qed.

Lemma Restart_actions k k' runArgs f a :
  a ∈ (Restart k k' runArgs f).2 -> a = Spawn runArgs \/ (exists line, a = Printed line) \/ exists pid, a = SIGINT pid.
Proof.
  unfold Restart. pose proof (Stop_actions k f) as Hs. destruct (Stop k f) as [[o f1] l]. cbn [snd] in Hs.
  destruct o as [[e|]|c]; cbn [snd]; [eauto| |eauto].
  pose proof (PID_Start_actions k' runArgs f1) as Ht. destruct (Start k' runArgs f1) as [[o f2] l'].
  cbn [snd] in *. intros [H|H]%elem_of_app; [eauto|]. destruct (Ht a H); eauto.
Qed.

Definition spawns (d : did) (args : list bytes) : Prop :=
  match d with DidDaemon l _ => Spawn args ∈ l | _ => False end.
Definition signals (d : did) (pid : Z) : Prop :=
  match d with DidDaemon l _ => SIGINT pid ∈ l | _ => False end.
Definition starts (d : did) : Prop :=
  match d with DidRun l => exists s, StartServer s ∈ l | _ => False end.

Definition proxy_exec (e : exec) : bool := bool_decide (e ∈ [ExecRun; ExecStart; ExecRestart]).

Definition proxy_names : list bytes := [str "http"; str "https"; str "socks5"; str "auto"].

Lemma commands_named goos c :
  c ∈ commands goos -> proxy_exec (cmd_exec c) = true ->
  proxyNameFromArgs (str "outway" :: cmd_path c) ∈ proxy_names.
Proof.
  assert (Forall (fun c => proxy_exec (cmd_exec c) = true ->
      proxyNameFromArgs (str "outway" :: cmd_path c) ∈ proxy_names) (commands (str "linux"))) as Hl by by_decide.
  assert (forall c, c ∈ commands goos -> c ∈ commands (str "linux")) as Hsub.
  { unfold commands. change (eqs (str "linux") (str "windows")) with false. cbn [negb]. intros c'.
    destruct (negb (eqs goos (str "windows"))); set_solver. }
  intros Hc. rewrite Forall_forall in Hl. by apply Hl, Hsub.
Qed.

(** No command acts on a configuration that was not accepted. Every registered
    proxy command names one of the four proxies; a server is run, or a daemon
    process started, only with arguments that [buildBootArgs] accepted, and the
    daemon's command line is the given one with the command replaced by "run"; a
    daemon is signalled only by "stop", or by "restart" after its arguments were
    accepted, so that a mistyped restart leaves the running daemon alone. *)
Theorem commands_validate_first w f osArgs files disk goos c :
  c ∈ commands goos ->
  let name := proxyNameFromArgs (str "outway" :: cmd_path c) in
  let accepted := exists a, buildBootArgs (ru_linux (w_run w)) f name = Ok a in
  let d := snd (execute w f osArgs files disk c) in
  (proxy_exec (cmd_exec c) = true -> name ∈ proxy_names) /\
  (starts d -> cmd_exec c = ExecRun /\ accepted) /\
  (forall args, spawns d args ->
     (cmd_exec c = ExecStart \/ cmd_exec c = ExecRestart) /\ accepted /\ args = str "run" :: drop 2 osArgs) /\
  (forall pid, signals d pid -> cmd_exec c = ExecStop \/ cmd_exec c = ExecRestart /\ accepted).
Proof.
  intros Hc name accepted d. split; [by apply (commands_named goos)|].
  assert (forall args : list bytes, buildRunArgsFromOSArgs args = str "run" :: drop 2 args) as Hargs.
  { intros args. unfold buildRunArgsFromOSArgs. case_one; [done|]. zbool. f_equal. symmetry.
    apply skipn_all2. unfold len in *. lia. }
  subst d. unfold execute. fold name. destruct (cmd_exec c).
  - unfold execRun. fold name. destruct (buildBootArgs _ _ name) as [a|e] eqn:E.
    + destruct (Run _ _) as [err l]. cbn. split_and!; [|done|done]. intros _. split; [done|]. by exists a.
    + cbn. split_and!; [|done|done]. intros [s Hs]. set_solver.
  - unfold execStart. fold name. destruct (buildBootArgs _ _ name) as [a|e] eqn:E; [|by cbn; split_and!].
    pose proof (PID_Start_actions (w_kernel w) (buildRunArgsFromOSArgs osArgs) files) as Ha.
    destruct (Start _ _ _) as [[o f1] l]. cbn. split_and!; [done| |].
    + intros args H. destruct (Ha _ H) as [[= ->]|[? ?]]; [|done]. split; [auto|]. split; [by exists a|apply Hargs].
    + intros pid H. destruct (Ha _ H) as [|[? ?]]; done.
  - unfold execRestart. fold name. destruct (buildBootArgs _ _ name) as [a|e] eqn:E; [|by cbn; split_and!].
    pose proof (Restart_actions (w_kernel w) (w_kernel_later w) (buildRunArgsFromOSArgs osArgs) files) as Ha.
    destruct (Restart _ _ _ _) as [[o f1] l]. cbn. split_and!; [done| |].
    + intros args H. destruct (Ha _ H) as [[= ->]|[[? ?]|[? ?]]]; try done. split; [auto|]. split; [by exists a|apply Hargs].
    + intros pid H. right. split; [done|]. by exists a.
  - pose proof (Stop_actions (w_kernel w) files) as Ha. destruct (Stop _ _) as [[o f1] l]. cbn.
    split_and!; [done| |auto]. intros args H. by destruct (Ha _ H).
  - destruct (w_proc w) as [[st u] s]. destruct (Status _ _ _ _ _) as [[? ?] ?]. by cbn; split_and!.
  - destruct (Log _ _). by cbn; split_and!.
  - destruct (Update _ _). by cbn; split_and!.
  - destruct (Uninstall _ _ _). by cbn; split_and!.
Qed.

Definition demo_world : world :=
  mkWorld demo_os (demo_kernel (fun _ => None)) (demo_kernel (fun _ => None)) (Err EOF, Err EOF, Err EOF)
    (Ok None, Ok None) (demo_update demo_release (fun _ => Err EOF)) None.

(** A restart of the daemon whose number is in the pid file. *)
Definition demo_restart : outcome * did :=
  execute demo_world defaultFlags [str "outway"; str "restart"; str "auto"]
    (mkFiles (Some (format_pid 42)) None None) ∅ (mkCommand [str "restart"; str "auto"] true true ExecRestart).

Lemma commands_validate_first_witness :
  signals (snd demo_restart) 42 /\ exists a, buildBootArgs true defaultFlags (str "auto") = Ok a.
Proof.
  assert (mkCommand [str "restart"; str "auto"] true true ExecRestart ∈ commands (str "linux")) as Hc
    by (do 11 right; left).
  assert (signals (snd demo_restart) 42) as H by (vm_compute; left).
  split; [exact H|].
  destruct (commands_validate_first demo_world defaultFlags [str "outway"; str "restart"; str "auto"]
    (mkFiles (Some (format_pid 42)) None None) ∅ (str "linux") _ Hc) as (_ & _ & _ & Hs).
  destruct (Hs 42 H) as [|[_ Ha]]; [done|exact Ha].
Defined.
